(* ===== verification/_CoqProject ===== *)
-Q . S2P
Prelude.v
TotalOrder.v
CompareNumbers.v
Bson.v
ElementOrder.v
Interval.v
IndexBounds.v
IndexBoundsBuilder.v
BoundsBuilderSpec.v
IndexBoundsChecker.v
BoundsCheckerSpec.v
CheckKey.v
IndexEntryComparison.v
IndexEntryOrder.v
SortedDataInterface.v
IndexScan.v
SingleInterval.v
IndexScanSpec.v
IndexScanYield.v
EphemeralBtree.v
EphemeralCursor.v
EphemeralCursorSpec.v
EphemeralBtreeSpec.v
UnitOfWork.v
EphemeralScan.v
WorkingSet.v
WorkingSetSpec.v
PlanStage.v
Stages.v
StagesSpec.v
AndSorted.v
AndSortedSpec.v
MergeSort.v
MergeSortSpec.v
IndexPlan.v
StageExamples.v
PlanExamples.v
LockDefs.v
LockHead.v
RequestList.v
FastMap.v
LockHeadInv.v
LockManager.v
LockManagerInv.v
LockManagerOps.v
LockConvert.v
LockUnlock.v
LockSafety.v
DeadlockDetector.v
Locker.v
LockerInv.v
LockerSafety.v
RadixNode.v
RadixStore.v
RadixIterator.v
RadixMerge.v
RadixInv.v
RadixLookup.v
RadixOwn.v
RadixUpsert.v
RadixModify.v
RadixErase.v
RadixOrder.v
RadixIteration.v
RadixWalk.v
RadixBounds.v
RadixReverse.v
RadixMerging.v
RadixSpec.v
BiggieEngine.v
BiggieEngineOk.v
RecordKey.v
BiggieRecords.v
RecordRange.v
BiggieRecordsOk.v
BiggieCursor.v
BiggieSpec.v
RecordSpec.v
