(* ===== verification/Prelude.v ===== *)
(** * Verification of the lock manager, index scans, query stages and a storage engine of normousd

    The program is the database server under [src/src/normous].  This development models
    four of its subsystems from the source, function by function, and proves them correct.

    ** Concurrency control ([db/concurrency])

    A [LockManager] keeps, for every resource, a [LockHead] with the queues of granted and of
    waiting requests; intent locks may live in partitions instead.  A [LockerImpl] holds the
    requests of one operation in a [FastMapNoAlloc], delays unlocks to the end of a write
    unit of work, and waits for grants with the help of a [DeadlockDetector].
    - [LockDefs]: lock modes, the conflict table, resource ids, requests
      ([lock_manager_defs.h]).
    - [LockHead]: the lock head and [_onLockModeChanged]; [LockHeadInv]: its invariant.
    - [RequestList]: the intrusive list of [lock_request_list.h] refines the lists that the
      lock heads use.
    - [LockManager]: the class of [lock_manager.cpp] with its buckets and partitions;
      [LockManagerInv], [LockManagerOps], [LockConvert], [LockUnlock]: its invariant and its
      preservation by each operation.
    - [LockSafety]: the critical sections as a transition system.  Conflicting modes are
      never granted together, a waiting request is blocked by a granted one, no [invariant]
      of the source fails, and each operation has the result its callers expect.
    - [DeadlockDetector]: the search of the wait-for graph finds a cycle exactly when there
      is one.
    - [FastMap]: the map of a locker ([fast_map_noalloc.h]) refines a finite map.
    - [Locker], [LockerInv], [LockerSafety]: the locker ([lock_state.cpp]) and its two-phase
      locking.

    ** Index access ([bson], [db/query], [db/exec], [db/storage])

    BSON values are ordered; a query is planned as intervals of values for each field of an
    index, which make index bounds; the [IndexScan] stage reads an index within bounds
    through a cursor, with the help of an [IndexBoundsChecker]; the in-memory storage engine
    provides indexes and cursors.
    - [TotalOrder], [CompareNumbers], [Bson]: the comparisons of [compare_numbers.h] and
      [bsonelement.cpp] are total orders; numbers compare by their exact values.
    - [ElementOrder]: what the rest uses of BSON elements, as a class with BSON elements as
      its instance.
    - [Interval], [IndexBounds]: the structures of [interval.cpp] and [index_bounds.cpp].
    - [IndexBoundsBuilder], [BoundsBuilderSpec], [SingleInterval]: intersection, union,
      alignment and single ranges ([index_bounds_builder.cpp]) as operations on sets of
      values.
    - [IndexBoundsChecker], [BoundsCheckerSpec], [CheckKey]: every answer of the checker is
      right, and its seek points skip nothing that is wanted.
    - [IndexEntryComparison], [IndexEntryOrder]: the order of index entries and the query
      objects that encode positions in it ([index_entry_comparison.cpp]).
    - [SortedDataInterface]: the contract of an index and its cursors as a class.
    - [IndexScan], [IndexScanSpec], [IndexScanYield]: the stage ([index_scan.cpp]), proved
      against the contract: it returns exactly what is within its bounds, and keeps its
      promises when the index changes while it yields.
    - [EphemeralBtree], [EphemeralCursor], [EphemeralCursorSpec], [EphemeralBtreeSpec]: the
      in-memory index and its cursor ([ephemeral_for_test_btree_impl.cpp]), an instance of
      the contract.
    - [UnitOfWork], [EphemeralScan]: units of work with commit and abort, bulk building, and
      cursors and scans of the in-memory index, with concrete instances.

    ** Query stages ([db/exec])

    A plan is a tree of stages.  A stage is asked for one unit of work at a time; it hands out
    results as ids of members of the shared [WorkingSet], which the stage above then owns.
    - [WorkingSet], [WorkingSetSpec]: the members, the vector with its free list, status
      members and the fetch of documents ([working_set.cpp], [working_set_common.cpp]); it
      refines a finite map, and before a snapshot changes all index members are marked.
    - [PlanStage]: the interface of [plan_stage.h] as a class, and the contract [produces] of
      a stage: however the rest of the working set is, a bounded number of calls hands out a
      given list of results and then reports the end or a failure, and touches only members
      that the stage owns.
    - [Stages], [StagesSpec]: queued data, limit, skip, fetch and OR; each keeps the contract
      when its children do, with results that are a function of theirs.
    - [AndSorted], [AndSortedSpec]: the sorted AND ([and_sorted.cpp], [and_common-inl.h])
      refines an algorithm on lists, which computes the intersection of the record ids.
    - [MergeSort], [MergeSortSpec]: the merge of sorted children ([merge_sort.cpp]) refines an
      algorithm on lists, which gives all results in the order of the pattern.
    - [IndexPlan]: the index scan as a stage, and the plan of an indexed query from the index
      to a page of documents.
    - [StageExamples], [PlanExamples]: the theorems on concrete inputs.

    ** The biggie storage engine ([db/storage/biggie])

    All data live in one [RadixStore], a path-compressed trie whose nodes are shared by the
    copies of the store and copied when one of them writes.  The [KVEngine] publishes a master
    store; a [RecoveryUnit] forks a working copy from it and merges what was published since
    into the copy when it commits; a [RecordStore] keeps the records of a collection under
    keys with its name, and cursors walk over them.
    - [RadixNode], [RadixStore], [RadixIterator], [RadixMerge]: the template of [store.h].  A
      memory maps addresses to nodes; [use_count] counts the pointers in nodes, in the other
      holders ([others]) and in local variables, and decides what is copied; what nobody
      points to is freed ([release]).
    - [RadixInv]: a subtree stands for the entries of a map below a prefix ([trie]);
      [RadixLookup], [RadixOwn], [RadixUpsert], [RadixModify], [RadixErase]: lookup and each
      modification, which changes nodes only where nobody else can reach them.
    - [RadixOrder], [RadixIteration], [RadixWalk], [RadixBounds], [RadixReverse]: the order of
      strings, the iterators in both directions, the bounds, comparison and distance.
    - [RadixMerging]: [merge3] takes the changes of both sides when no branch below the root
      was changed by both.
    - [RadixSpec]: the store is a map, copies are snapshots, and the other promises to clients.
    - [BiggieEngine]: the engine and its recovery units; [BiggieEngineOk]: each operation on
      the view of the state as maps; [BiggieSpec]: runs with any interleaving of the units
      refine transactions on maps, and units are isolated from each other.
    - [RecordKey]: the keys of records, with the part of [key_string.cpp] that makes them.
    - [BiggieRecords]: the record store and its cursors; [RecordRange], [BiggieRecordsOk],
      [BiggieCursor]: the range of keys of a store, and each operation.
    - [RecordSpec]: the record store is a map from numbers to records, scans are exact and
      restored cursors go on where they were; and what goes wrong outside of the conditions
      of these theorems.

    ** Conventions

    Definitions keep the names of the source; a prefix is added where two classes share a
    name.  A failed [invariant], an unreachable branch and a dangling pointer are the value
    [None], so that a theorem that gives [Some] also says that none of them happens.
    Pointers to requests are keys of a heap; mutable objects are records that are passed
    along; iterators are positions.  Integers are [Z], with 64-bit resource ids, 32-bit
    masks, 32-bit and 64-bit numbers and binary64 doubles at their width where it matters.

    Loops over lists are structural.  [run] of the index scan takes fuel, and more fuel than
    the index has entries is shown to be enough; [intersect_from] has as fuel the lengths of
    its two lists; the detector and the iterators of the map come with their bounds in the
    same way.  The contract of a stage counts the calls that it needs; the algorithms on lists
    of the sorted AND and of the merge have as fuel the lengths of the lists (three times
    these for the merge, which takes each result in and gives it out), and the path of
    [extract_with] gets shorter with each call.  Descents in the radix store have as fuel the
    length of the key, or [branch_fuel], one more than the longest stored key; loops over a
    store the number of its nodes.  What other threads do while a locker waits, and what
    happens to an index during a yield, is arbitrary.

    The theorems on the radix store ask for values below 2 GiB, because sizes pass through
    [int]; that an empty value is not updated and that no absent key is removed where stored
    keys part; and for the bounds that no stored key shares a byte [0xFF] with the bound
    ([unwrapped]).  Outside of these conditions the code goes wrong, as [erase_missing],
    [bound_wraps] and the examples of [RecordSpec] show.  Record numbers below [2 ^ 55] and
    names of stores without the bytes [0] and [0xFF] are enough for the bounds of a record
    store to be right.

    ** Not modelled

    Decimal128 numbers, collations and the BSON wire format; the translation of match
    expressions into intervals; reports and statistics in BSON form, log messages and the
    texts of errors; write conflict exceptions outside the fetch stage; the other query stages
    and the saving of stages other than the index scan; wall-clock time; and everything above
    the query stages: networking, commands, replication, sharding, planning and aggregation.

    Of the biggie engine: its index ([biggie_sorted_impl.cpp]), which nests encodings of
    arbitrary BSON values, and [dropIdent] and [validate], which depend on it or on a callback;
    the reference counts are read at single points of a sequential run of each operation, so
    races on them between threads are not modelled; the merge of branches that both sides
    changed is modelled and run on examples, but not characterized, because it loses updates;
    iterators that cursors hold are not counted as holders of nodes.  Other storage engines
    write to disk or wrap libraries, and are left out. *)

From Stdlib Require Import ZArith Lia.
From stdpp Require Import prelude gmap functions finite.

(** ** The failure monad

    The server aborts when an [invariant(...)] or [MONGO_UNREACHABLE] fires and the
    behaviour of dereferencing a dangling pointer is undefined.  All three are the
    value [None]; a theorem that an operation returns [Some] therefore says that
    none of them happens. *)

Definition invariant (b : bool) : option unit := if b then Some tt else None.

Definition MONGO_UNREACHABLE {A} : option A := None.

Lemma invariant_Some b : invariant b = Some tt <-> b = true.
Proof. by destruct b. Qed.

Lemma bind_Some_inv {A B} (m : option A) (f : A -> option B) y :
  m ≫= f = Some y -> exists x, m = Some x /\ f x = Some y.
Proof. destruct m; naive_solver. Qed.

Lemma invariant_bind {B} b (k : option B) :
  b = true -> (invariant b ;; k) = k.
Proof. by intros ->. Qed.

(** ** Tactics *)

(** [case_if] splits the innermost boolean test of the goal or of a hypothesis. *)
Ltac case_if :=
  match goal with
  | |- context [if ?b then _ else _] =>
      lazymatch b with context [if _ then _ else _] => fail | _ => destruct b eqn:? end
  | H : context [if ?b then _ else _] |- _ =>
      lazymatch b with context [if _ then _ else _] => fail | _ => destruct b eqn:? end
  end.

(** Turn boolean facts into propositional ones. *)
Ltac bprop :=
  repeat match goal with
  | H : _ && _ = true |- _ => apply andb_true_iff in H; destruct H
  | H : _ || _ = false |- _ => apply orb_false_iff in H; destruct H
  | H : _ || _ = true |- _ => apply orb_true_iff in H
  | H : _ && _ = false |- _ => apply andb_false_iff in H
  | H : negb _ = true |- _ => apply negb_true_iff in H
  | H : negb _ = false |- _ => apply negb_false_iff in H
  | H : Is_true _ |- _ => apply Is_true_true in H
  | H : bool_decide _ = true |- _ => apply bool_decide_eq_true in H
  | H : bool_decide _ = false |- _ => apply bool_decide_eq_false in H
  | H : (_ =? _)%nat = true |- _ => apply Nat.eqb_eq in H
  | H : (_ =? _)%nat = false |- _ => apply Nat.eqb_neq in H
  | H : (_ <? _)%nat = true |- _ => apply Nat.ltb_lt in H
  | H : (_ <? _)%nat = false |- _ => apply Nat.ltb_ge in H
  | H : (_ <=? _)%nat = true |- _ => apply Nat.leb_le in H
  | H : (_ <=? _)%nat = false |- _ => apply Nat.leb_gt in H
  | H : (_ =? _)%Z = true |- _ => apply Z.eqb_eq in H
  | H : (_ =? _)%Z = false |- _ => apply Z.eqb_neq in H
  | H : (_ <? _)%Z = true |- _ => apply Z.ltb_lt in H
  | H : (_ <? _)%Z = false |- _ => apply Z.ltb_ge in H
  | H : (_ <=? _)%Z = true |- _ => apply Z.leb_le in H
  | H : (_ <=? _)%Z = false |- _ => apply Z.leb_gt in H
  end.

(** Invert the binds of a run that returned [Some]. *)
Ltac inv_bind H :=
  let x := fresh "x" in let Hx := fresh "Hx" in
  apply bind_Some_inv in H; destruct H as (x & Hx & H).

(** ** Hint databases of the development *)

Create HintDb normous discriminated.

(** ** Lists *)

Lemma filter_all {A} (P : A -> Prop) `{forall x, Decision (P x)} (l : list A) :
  (forall x, x ∈ l -> P x) -> filter P l = l.
Proof.
  induction l as [|x l IH]; intros Hall; [done|].
  rewrite filter_cons_True by (apply Hall; set_solver). rewrite IH; set_solver.
Qed.

(** Filters with boolean predicates. *)
Lemma bfilter_nil {A} (P : A -> bool) l : (forall x, x ∈ l -> P x = false) -> List.filter P l = [].
Proof. induction l as [|x l IH]; intros H; [done|]. simpl. rewrite (H x) by by left. apply IH. intros y Hy. apply H. by right. Qed.

Lemma bfilter_all {A} (P : A -> bool) l : (forall x, x ∈ l -> P x = true) -> List.filter P l = l.
Proof.
  induction l as [|x l IH]; intros H; [done|]. simpl. rewrite (H x) by by left. f_equal. apply IH. intros y Hy. apply H. by right.
Qed.

Lemma bfilter_and {A} (P Q : A -> bool) l : List.filter (fun x => P x && Q x) l = List.filter Q (List.filter P l).
Proof. induction l as [|x l IH]; [done|]. simpl. destruct (P x); simpl; [|done]. destruct (Q x); by rewrite IH. Qed.

(** ** Sums over a list of keys of a map

    [tally w M l] adds up [w] over the values that the keys of [l] have in [M]. *)

Section tally.
Context `{Countable K} {V : Type}.
Implicit Types (M : gmap K V) (l : list K) (w : V -> nat).

Definition weight_at w M (k : K) : nat := from_option w 0%nat (M !! k).

Definition tally w M l : nat := sum_list_with (weight_at w M) l.

Lemma tally_nil w M : tally w M [] = 0%nat.
Proof. done. Qed.

Lemma tally_cons w M k l : tally w M (k :: l) = (weight_at w M k + tally w M l)%nat.
Proof. done. Qed.

Lemma tally_app w M l1 l2 : tally w M (l1 ++ l2) = (tally w M l1 + tally w M l2)%nat.
Proof. apply sum_list_with_app. Qed.

Lemma tally_ext w w' M M' l :
  (forall k, k ∈ l -> weight_at w M k = weight_at w' M' k) -> tally w M l = tally w' M' l.
Proof.
  induction l as [|k l IH]; intros Hk; [done|]. rewrite !tally_cons, IH, Hk; set_solver.
Qed.

Lemma tally_frame w M M' l :
  (forall k, k ∈ l -> M' !! k = M !! k) -> tally w M' l = tally w M l.
Proof. intros Hk. apply tally_ext. intros k Hin. unfold weight_at. by rewrite Hk. Qed.

Lemma tally_insert_notin w M l k v : k ∉ l -> tally w (<[k := v]> M) l = tally w M l.
Proof. intros Hk. apply tally_frame. intros k' ?. apply lookup_insert_ne. set_solver. Qed.

Lemma tally_split w M l k v :
  NoDup l -> k ∈ l -> M !! k = Some v ->
  tally w M l = (w v + tally w M (filter (fun x => x <> k) l))%nat.
Proof.
  intros Hnd Hin Hk. induction l as [|k' l IH]; [set_solver|].
  apply NoDup_cons in Hnd as [Hni Hnd]. rewrite tally_cons.
  destruct (decide (k' = k)) as [->|Hne].
  - rewrite filter_cons_False by naive_solver.
    rewrite filter_all by set_solver.
    unfold weight_at. by rewrite Hk.
  - rewrite filter_cons_True by naive_solver. rewrite tally_cons, IH by set_solver. lia.
Qed.

Lemma tally_insert_in w M l k v v' :
  NoDup l -> k ∈ l -> M !! k = Some v ->
  (tally w (<[k := v']> M) l + w v = tally w M l + w v')%nat.
Proof.
  intros Hnd Hin Hk. rewrite (tally_split w M l k v), (tally_split w (<[k := v']> M) l k v');
    [|done|done|apply lookup_insert_eq|done..].
  rewrite tally_insert_notin; [lia|]. rewrite list_elem_of_filter. naive_solver.
Qed.

Lemma tally_pos w M l :
  (0 < tally w M l)%nat <-> exists k v, k ∈ l /\ M !! k = Some v /\ (0 < w v)%nat.
Proof.
  induction l as [|k l IH].
  - rewrite tally_nil. split; [lia|]. set_solver.
  - rewrite tally_cons. split.
    + intros Hp. destruct (decide (0 < tally w M l)%nat) as [Hl|Hl].
      { apply IH in Hl as (k' & v & ? & ? & ?). exists k', v. set_solver. }
      unfold weight_at in Hp. destruct (M !! k) as [v|] eqn:Hk; simpl in Hp; [|lia].
      exists k, v. split_and!; [set_solver|done|lia].
    + intros (k' & v & [->|Hin]%elem_of_cons & Hk & Hw).
      * unfold weight_at. rewrite Hk. simpl. lia.
      * assert (0 < tally w M l)%nat by (apply IH; eauto). lia.
Qed.

Lemma tally_zero w M l :
  (forall k v, k ∈ l -> M !! k = Some v -> w v = 0%nat) -> tally w M l = 0%nat.
Proof.
  intros Hz. destruct (tally w M l) eqn:Ht; [done|].
  destruct (proj1 (tally_pos w M l)) as (k & v & ? & ? & Hw); [lia|].
  rewrite (Hz k v) in Hw by done. lia.
Qed.

End tally.
