(* ===== verification/TotalOrder.v ===== *)
(** * Three-way comparisons

    A comparison answers with the sign of an integer, as [memcmp] does.  [total_on P f] says
    that [f] is a total preorder on the elements satisfying [P]; the lemmas combine
    comparisons lexicographically, as the comparison functions of the server do. *)

From Stdlib Require Import ZArith Lia.
From stdpp Require Import prelude.
From S2P Require Import Prelude.

Open Scope Z_scope.

Record total_on {A} (P : A -> Prop) (f : A -> A -> Z) : Prop := mk_total_on {
  total_flip : forall x y, P x -> P y -> Z.sgn (f y x) = - Z.sgn (f x y);
  total_trans : forall x y z, P x -> P y -> P z -> f x y <= 0 -> f y z <= 0 -> f x z <= 0;
}.

Abbreviation total := (total_on (fun _ => True)) (only parsing).

(** First [f], then [g]. *)
Definition lex {A} (f g : A -> A -> Z) (x y : A) : Z := if f x y =? 0 then g x y else f x y.

Section total.
Context {A : Type} {P : A -> Prop} {f : A -> A -> Z} (Hf : total_on P f).

Lemma total_zero_flip x y : P x -> P y -> f x y = 0 -> f y x = 0.
Proof using Hf. intros Hx Hy E. pose proof (total_flip _ _ Hf x y Hx Hy). lia. Qed.

Lemma total_refl x : P x -> f x x = 0.
Proof using Hf. intros Hx. pose proof (total_flip _ _ Hf x x Hx Hx). lia. Qed.

Lemma total_trans_lt_l x y z : P x -> P y -> P z -> f x y < 0 -> f y z <= 0 -> f x z < 0.
Proof using Hf.
  intros Hx Hy Hz H1 H2. pose proof (total_trans _ _ Hf x y z Hx Hy Hz). destruct (decide (f x z = 0)) as [E|]; [|lia].
  pose proof (total_zero_flip x z Hx Hz E). pose proof (total_trans _ _ Hf y z x Hy Hz Hx).
  pose proof (total_flip _ _ Hf x y Hx Hy). lia.
Qed.

Lemma total_trans_lt_r x y z : P x -> P y -> P z -> f x y <= 0 -> f y z < 0 -> f x z < 0.
Proof using Hf.
  intros Hx Hy Hz H1 H2. pose proof (total_trans _ _ Hf x y z Hx Hy Hz). destruct (decide (f x z = 0)) as [E|]; [|lia].
  pose proof (total_zero_flip x z Hx Hz E). pose proof (total_trans _ _ Hf z x y Hz Hx Hy).
  pose proof (total_flip _ _ Hf y z Hy Hz). lia.
Qed.

(** Equal elements compare alike. *)
Lemma total_sgn_eq_l x x' y : P x -> P x' -> P y -> f x x' = 0 -> Z.sgn (f x y) = Z.sgn (f x' y).
Proof using Hf.
  intros Hx Hx' Hy E. pose proof (total_zero_flip _ _ Hx Hx' E) as E'.
  pose proof (total_flip _ _ Hf x y Hx Hy). pose proof (total_flip _ _ Hf x' y Hx' Hy).
  pose proof (total_trans _ _ Hf x x' y Hx Hx' Hy). pose proof (total_trans _ _ Hf x' x y Hx' Hx Hy).
  pose proof (total_trans _ _ Hf y x x' Hy Hx Hx'). pose proof (total_trans _ _ Hf y x' x Hy Hx' Hx). lia.
Qed.

Lemma total_sgn_eq_r x x' y : P x -> P x' -> P y -> f x x' = 0 -> Z.sgn (f y x) = Z.sgn (f y x').
Proof using Hf.
  intros Hx Hx' Hy E. pose proof (total_sgn_eq_l x x' y Hx Hx' Hy E).
  pose proof (total_flip _ _ Hf x y Hx Hy). pose proof (total_flip _ _ Hf x' y Hx' Hy). lia.
Qed.
End total.

Lemma total_sub : total Z.sub.
Proof. split; lia. Qed.

Lemma total_const {A} (P : A -> Prop) : total_on P (fun _ _ => 0).
Proof. by split. Qed.

Lemma total_map {A B} (P : B -> Prop) (g : A -> B) f : total_on P f -> total_on (fun x => P (g x)) (fun x y => f (g x) (g y)).
Proof. intros [H1 H2]. split; eauto. Qed.

Lemma total_weaken {A} (P Q : A -> Prop) f : (forall x, Q x -> P x) -> total_on P f -> total_on Q f.
Proof. intros HPQ [H1 H2]. split; eauto. Qed.

Lemma total_sgn {A} (P : A -> Prop) f g :
  (forall x y, P x -> P y -> Z.sgn (f x y) = Z.sgn (g x y)) -> total_on P g -> total_on P f.
Proof.
  intros E [H1 H2]. split.
  - intros x y Hx Hy. rewrite !E by done. auto.
  - intros x y z Hx Hy Hz Hxy Hyz. pose proof (E x y Hx Hy). pose proof (E y z Hy Hz). pose proof (E x z Hx Hz).
    assert (g x z <= 0) by (apply (H2 x y z); try done; lia). lia.
Qed.

(** The second comparison need only be total where the first says equal. *)
Lemma total_lex {A} (P : A -> Prop) f g :
  total_on P f ->
  (forall a, P a -> total_on (fun x => P x /\ f a x = 0) g) ->
  total_on P (lex f g).
Proof.
  intros Hf Hg. split.
  - intros x y Hx Hy. unfold lex. pose proof (total_flip _ _ Hf x y Hx Hy) as Hs.
    destruct (Z.eqb_spec (f x y) 0) as [E|N], (Z.eqb_spec (f y x) 0) as [E'|N']; try lia.
    apply (total_flip _ _ (Hg x Hx)); split; try done. by apply (total_refl Hf).
  - intros x y z Hx Hy Hz. unfold lex.
    destruct (Z.eqb_spec (f x y) 0) as [Exy|Nxy], (Z.eqb_spec (f y z) 0) as [Eyz|Nyz]; intros H1 H2.
    + pose proof (total_sgn_eq_l Hf x y z Hx Hy Hz Exy). assert (f x z = 0) as Exz by lia.
      rewrite Exz. simpl. apply (total_trans _ _ (Hg x Hx) x y z); try done; split; try done.
      by apply (total_refl Hf).
    + assert (f x z < 0) by (apply (total_trans_lt_r Hf x y z); lia || done).
      destruct (Z.eqb_spec (f x z) 0); lia.
    + assert (f x z < 0) by (apply (total_trans_lt_l Hf x y z); lia || done).
      destruct (Z.eqb_spec (f x z) 0); lia.
    + assert (f x z < 0) by (apply (total_trans_lt_l Hf x y z); lia || done).
      destruct (Z.eqb_spec (f x z) 0); lia.
Qed.

Lemma total_lex_all {A} (P : A -> Prop) f g : total_on P f -> total_on P g -> total_on P (lex f g).
Proof. intros Hf Hg. apply total_lex; [done|]. intros a _. by eapply total_weaken; [|exact Hg]; intros x []. Qed.

(** Lists, a proper prefix being smaller. *)
Fixpoint lex_list {A} (f : A -> A -> Z) (l1 l2 : list A) : Z :=
  match l1, l2 with
  | [], [] => 0
  | [], _ :: _ => -1
  | _ :: _, [] => 1
  | x :: l1, y :: l2 => if f x y =? 0 then lex_list f l1 l2 else f x y
  end.

Lemma total_lex_list {A} (P : A -> Prop) f : total_on P f -> total_on (Forall P) (lex_list f).
Proof.
  intros Hf. split.
  - intros l1 l2 H1. revert l2. induction H1 as [|x l1 Hx H1 IH]; intros l2 H2; destruct H2 as [|y l2 Hy H2]; simpl; try done.
    pose proof (total_flip _ _ Hf x y Hx Hy) as Hs.
    destruct (Z.eqb_spec (f x y) 0), (Z.eqb_spec (f y x) 0); try lia. by apply IH.
  - intros l1 l2 l3 H1. revert l2 l3.
    induction H1 as [|x l1 Hx H1 IH]; intros l2 l3 H2 H3; destruct H2 as [|y l2 Hy H2], H3 as [|z l3 Hz H3]; simpl; try lia.
    destruct (Z.eqb_spec (f x y) 0) as [Exy|Nxy], (Z.eqb_spec (f y z) 0) as [Eyz|Nyz]; intros Hxy Hyz.
    + pose proof (total_sgn_eq_l Hf x y z Hx Hy Hz Exy). replace (f x z =? 0) with true by (symmetry; apply Z.eqb_eq; lia).
      by apply (IH l2 l3).
    + assert (f x z < 0) by (apply (total_trans_lt_r Hf x y z); lia || done). destruct (Z.eqb_spec (f x z) 0); lia.
    + assert (f x z < 0) by (apply (total_trans_lt_l Hf x y z); lia || done). destruct (Z.eqb_spec (f x z) 0); lia.
    + assert (f x z < 0) by (apply (total_trans_lt_l Hf x y z); lia || done). destruct (Z.eqb_spec (f x z) 0); lia.
Qed.
