(* ===== verification/CompareNumbers.v ===== *)
(** * Comparison of numbers of different types

    Models [base/compare_numbers.h] for 32-bit and 64-bit integers and doubles.  The
    theorem says that every comparison agrees with the order of the exact values, with
    NaN below everything. *)

From Stdlib Require Import ZArith Lia.
From stdpp Require Import prelude.
From S2P Require Import Prelude.

Open Scope Z_scope.

(** ** Machine numbers *)

Definition int32_range (z : Z) : bool := (- 2 ^ 31 <=? z) && (z <? 2 ^ 31).
Definition int64_range (z : Z) : bool := (- 2 ^ 63 <=? z) && (z <? 2 ^ 63).

Record int32 := mkInt32 { i32 :> Z; i32_ok : int32_range i32 = true }.
Record int64 := mkInt64 { i64 :> Z; i64_ok : int64_range i64 = true }.

(** A floating point value: [DFin m e] is [m * 2 ^ e]. *)
Inductive dvalue := DNaN | DInf (negative : bool) | DFin (m e : Z).

Definition binary64 (d : dvalue) : bool :=
  match d with
  | DFin m e => (Z.abs m <? 2 ^ 53) && (-1074 <=? e) && (e <=? 971)
  | _ => true
  end.

Record double := mkDouble { dbl :> dvalue; dbl_ok : binary64 dbl = true }.

(** The value of a finite double is a multiple of [2 ^ -1074]; [scaled] counts them. *)
Definition unit_scale : Z := 2 ^ 1074.
Definition scaled (m e : Z) : Z := m * 2 ^ (e + 1074).

Definition isnan (d : dvalue) : bool := match d with DNaN => true | _ => false end.

(** The IEEE comparisons [==], [<] and [>=]. *)
Definition double_eq (l r : dvalue) : bool :=
  match l, r with
  | DFin m e, DFin m' e' => scaled m e =? scaled m' e'
  | DInf b, DInf b' => Bool.eqb b b'
  | _, _ => false
  end.

Definition double_lt (l r : dvalue) : bool :=
  match l, r with
  | DNaN, _ | _, DNaN => false
  | DInf b, DInf b' => b && negb b'
  | DInf b, DFin _ _ => b
  | DFin _ _, DInf b' => negb b'
  | DFin m e, DFin m' e' => scaled m e <? scaled m' e'
  end.

Definition double_ge (l r : dvalue) : bool := double_lt r l || double_eq l r.

(** Conversions: an integer of magnitude at most [2 ^ 53] to double, and a double in the range
    of a long to long, which truncates. *)
Definition double_of_long (z : Z) : dvalue := DFin z 0.

Definition long_of_double (d : dvalue) : Z :=
  match d with
  | DFin m e => if 0 <=? e then m * 2 ^ e else Z.quot m (2 ^ (- e))
  | _ => 0
  end.

(** ** The comparisons *)

Definition compareInts (lhs rhs : Z) : Z := if lhs =? rhs then 0 else if lhs <? rhs then -1 else 1.

Definition compareLongs (lhs rhs : Z) : Z := if lhs =? rhs then 0 else if lhs <? rhs then -1 else 1.

Definition compareDoubles (lhs rhs : dvalue) : Z :=
  if double_eq lhs rhs then 0
  else if double_lt lhs rhs then -1
  else if double_lt rhs lhs then 1
  else if isnan lhs then (if isnan rhs then 0 else -1)
  else 1.

Definition kEndOfPreciseDoubles : Z := Z.shiftl 1 53.
Definition kBoundOfLongRange : dvalue := DFin 1 63.
Definition minusBoundOfLongRange : dvalue := DFin (-1) 63.

Definition compareLongToDouble (lhs : Z) (rhs : dvalue) : Z :=
  if isnan rhs then 1
  else if (lhs <=? kEndOfPreciseDoubles) && (- kEndOfPreciseDoubles <=? lhs) then
    compareDoubles (double_of_long lhs) rhs
  else if double_ge rhs kBoundOfLongRange then -1
  else if double_lt rhs minusBoundOfLongRange then 1
  else compareLongs lhs (long_of_double rhs).

Definition compareDoubleToLong (lhs : dvalue) (rhs : Z) : Z := - compareLongToDouble rhs lhs.

(** ** The order of the exact values *)

(** NaN, minus infinity, the finite values and infinity, in this order. *)
Definition number_key (d : dvalue) : Z * Z :=
  match d with
  | DNaN => (0, 0)
  | DInf true => (1, 0)
  | DFin m e => (2, scaled m e)
  | DInf false => (3, 0)
  end.

Definition long_key (z : Z) : Z * Z := (2, z * unit_scale).

Definition key_compare (a b : Z * Z) : Z :=
  if a.1 =? b.1 then compareLongs a.2 b.2 else compareLongs a.1 b.1.

Lemma unit_scale_pos : 0 < unit_scale.
Proof. by apply Z.pow_pos_nonneg. Qed.

Lemma compareLongs_mono k a b : 0 < k -> compareLongs (a * k) (b * k) = compareLongs a b.
Proof. intros Hk. unfold compareLongs. repeat case_if; bprop; nia. Qed.

Lemma compareLongs_key a b : compareLongs a b = key_compare (long_key a) (long_key b).
Proof. unfold key_compare, long_key. simpl. symmetry. apply compareLongs_mono, unit_scale_pos. Qed.

Lemma compareDoubles_key l r : compareDoubles l r = key_compare (number_key l) (number_key r).
Proof.
  destruct l as [|[]|m e], r as [|[]|m' e']; try done.
  unfold compareDoubles, key_compare, number_key, double_eq, double_lt, compareLongs. simpl.
  generalize (scaled m e) (scaled m' e'). intros a b. repeat case_if; bprop; lia.
Qed.

Lemma double_of_long_key z : number_key (double_of_long z) = long_key z.
Proof. done. Qed.

(** The truncation of a double that is not precise to the unit stays within [2 ^ 53]. *)
Lemma trunc_small m e : Z.abs m < 2 ^ 53 -> e < 0 -> Z.abs (Z.quot m (2 ^ (- e))) < 2 ^ 53.
Proof.
  intros Hm He. apply Z.le_lt_trans with (Z.abs m); [|done].
  assert (1 <= 2 ^ (- e)) by (apply Z.pow_le_mono_r with (b := 0); lia).
  rewrite <- Z.quot_abs by lia. rewrite (Z.abs_eq (2 ^ _)) by lia.
  apply Z.quot_le_upper_bound; nia.
Qed.

Lemma scaled_small m e : Z.abs m < 2 ^ 53 -> -1074 <= e < 0 -> Z.abs (scaled m e) < 2 ^ 53 * unit_scale.
Proof.
  intros Hm He. unfold scaled, unit_scale. rewrite Z.abs_mul, (Z.abs_eq (2 ^ _)) by (apply Z.pow_nonneg; lia).
  assert (0 < 2 ^ (e + 1074) <= 2 ^ 1074) by (split; [apply Z.pow_pos_nonneg|apply Z.pow_le_mono_r]; lia).
  generalize dependent (2 ^ 1074). generalize dependent (2 ^ (e + 1074)). intros. nia.
Qed.

Lemma scaled_exact m e : 0 <= e -> scaled m e = m * 2 ^ e * unit_scale.
Proof. intros He. unfold scaled, unit_scale. rewrite Z.pow_add_r by lia. ring. Qed.

(** The last comparison of [compareLongToDouble]. *)
Lemma compareLongs_trunc l m e :
  2 ^ 53 < Z.abs l -> binary64 (DFin m e) = true ->
  compareLongs l (long_of_double (DFin m e)) = compareLongs (l * unit_scale) (scaled m e).
Proof.
  intros Hl Hd. unfold binary64 in Hd. bprop. unfold long_of_double. case_if; bprop.
  - rewrite scaled_exact, compareLongs_mono; [done|apply unit_scale_pos|done].
  - pose proof (trunc_small m e ltac:(done) ltac:(lia)) as Ht.
    pose proof (scaled_small m e ltac:(done) ltac:(lia)) as Hsc. pose proof unit_scale_pos.
    generalize dependent (scaled m e). generalize dependent (Z.quot m (2 ^ (- e))).
    generalize dependent unit_scale. intros. unfold compareLongs.
    destruct (Z.abs_spec l) as [[? E]|[? E]]; repeat case_if; bprop; try done; nia.
Qed.

Lemma scaled_bound l s : int64_range l = true ->
  (s >= scaled 1 63 -> l * unit_scale < s) /\ (s < scaled (-1) 63 -> s < l * unit_scale).
Proof.
  unfold int64_range. intros Hl. bprop. rewrite !scaled_exact by done. pose proof unit_scale_pos.
  generalize dependent unit_scale. intros. nia.
Qed.

(** [compareLongToDouble] is exact: it compares the values, not their conversions. *)
Lemma compareLongToDouble_key l r :
  int64_range l = true -> binary64 r = true ->
  compareLongToDouble l r = key_compare (long_key l) (number_key r).
Proof.
  intros Hl Hr. unfold compareLongToDouble. destruct r as [|b|m e]; [done| |]; simpl isnan; cbv iota.
  - case_if; [rewrite compareDoubles_key, double_of_long_key; done|]. by destruct b.
  - case_if; [rewrite compareDoubles_key, double_of_long_key; done|].
    change kEndOfPreciseDoubles with (2 ^ 53) in *.
    assert (2 ^ 53 < Z.abs l) by (bprop; lia).
    pose proof (scaled_bound l (scaled m e) Hl) as [Hb1 Hb2].
    unfold double_ge, double_lt, double_eq, kBoundOfLongRange, minusBoundOfLongRange, key_compare, long_key, number_key.
    cbn [fst snd Z.eqb Pos.eqb]. destruct (_ || _) eqn:E1.
    { assert (l * unit_scale < scaled m e) by (apply Hb1; bprop; lia).
      unfold compareLongs. repeat case_if; bprop; lia. }
    destruct (scaled m e <? scaled (-1) 63) eqn:E2; [|by apply compareLongs_trunc].
    bprop. assert (scaled m e < l * unit_scale) by (apply Hb2; lia).
    unfold compareLongs. repeat case_if; bprop; lia.
Qed.

(** The three kinds of numbers of a BSON element. *)
Inductive number := NumInt (z : int32) | NumLong (z : int64) | NumDouble (d : double).

(** The numeric cases of [compareElements]. *)
Definition compareNumbers (l r : number) : Z :=
  match l, r with
  | NumInt a, NumInt b => compareInts a b
  | NumInt a, NumLong b => compareLongs a b
  | NumInt a, NumDouble b => compareDoubles (double_of_long a) b
  | NumLong a, NumLong b => compareLongs a b
  | NumLong a, NumInt b => compareLongs a b
  | NumLong a, NumDouble b => compareLongToDouble a b
  | NumDouble a, NumDouble b => compareDoubles a b
  | NumDouble a, NumInt b => compareDoubles a (double_of_long b)
  | NumDouble a, NumLong b => compareDoubleToLong a b
  end.

(** The exact value of a number, as a place in the order of all numbers. *)
Definition exact_key (n : number) : Z * Z :=
  match n with
  | NumInt z => long_key z
  | NumLong z => long_key z
  | NumDouble d => number_key d
  end.

Lemma key_compare_opp a b : key_compare b a = - key_compare a b.
Proof. unfold key_compare, compareLongs. repeat case_if; bprop; lia. Qed.

Lemma compareNumbers_key l r : compareNumbers l r = key_compare (exact_key l) (exact_key r).
Proof.
  destruct l as [a|[a Ha]|[a Ha]], r as [b|[b Hb]|[b Hb]]; simpl.
  all: rewrite ?compareDoubles_key, ?double_of_long_key; try done; try apply compareLongs_key.
  - by apply compareLongToDouble_key.
  - unfold compareDoubleToLong. rewrite compareLongToDouble_key by done. by rewrite <- key_compare_opp.
Qed.

(** [C35] Numbers of any two types are compared by their exact values, NaN being the smallest;
    the answer is -1, 0 or 1, it is reversed when the operands are exchanged, and the order
    is transitive across the types. *)
Theorem number_comparison_exact l r n :
  compareNumbers l r = key_compare (exact_key l) (exact_key r) /\
  (compareNumbers l r = -1 \/ compareNumbers l r = 0 \/ compareNumbers l r = 1) /\
  compareNumbers r l = - compareNumbers l r /\
  (compareNumbers l r <= 0 -> compareNumbers r n <= 0 -> compareNumbers l n <= 0).
Proof.
  rewrite !compareNumbers_key. split; [done|]. split_and!.
  - unfold key_compare, compareLongs. repeat case_if; auto.
  - apply key_compare_opp.
  - unfold key_compare, compareLongs. repeat case_if; bprop; lia.
Qed.

(** [2 ^ 53 + 1] as a long lies between the doubles [2 ^ 53] and [2 ^ 53 + 2]; as a double it is
    rounded to the first. *)
Example long_between_doubles :
  compareLongToDouble (2 ^ 53 + 1) (DFin (2 ^ 52) 1) = 1 /\
  compareLongToDouble (2 ^ 53 + 1) (DFin (2 ^ 52 + 1) 1) = -1 /\
  compareLongToDouble (- 2 ^ 63) (DFin (-1) 63) = 0 /\
  compareLongToDouble 5 (DFin 11 (-1)) = -1.
Proof. by vm_compute. Qed.
