(* ===== verification/Bson.v ===== *)
(** * BSON elements and their order

    Models the comparison of BSON values: [canonicalizeBSONType] of [bson/bsontypes.h],
    [BSONElement::woCompare] and [compareElements] of [bson/bsonelement.cpp], [woCompare]
    of [bson/bsonobj.cpp] and [StringData::compare].  Values of type [NumberDecimal] (an
    external decimal library), collations and [kIgnoreFieldOrder] are not modelled. *)

From Stdlib Require Import ZArith Lia.
From stdpp Require Import prelude.
From S2P Require Import Prelude TotalOrder CompareNumbers.

Open Scope Z_scope.

(** ** Types *)

Inductive BSONType :=
| MinKey | EOO | NumberDouble | String | Object | Array | BinData | Undefined | jstOID | Bool
| Date | jstNULL | RegEx | DBRef | Code | Symbol | CodeWScope | NumberInt | bsonTimestamp
| NumberLong | MaxKey.

#[global] Instance BSONType_eq_dec : EqDecision BSONType.
Proof. solve_decision. Defined.

(** The numbers of the enumeration that [canonicalizeBSONType] returns. *)
Definition canonicalizeBSONType (type : BSONType) : Z :=
  match type with
  | MinKey => -1
  | MaxKey => 127
  | EOO | Undefined => 0
  | jstNULL => 5
  | NumberDouble | NumberInt | NumberLong => 10
  | String | Symbol => 15
  | Object => 20
  | Array => 25
  | BinData => 30
  | jstOID => 35
  | Bool => 40
  | Date => 45
  | bsonTimestamp => 47
  | RegEx => 50
  | DBRef => 55
  | Code => 60
  | CodeWScope => 65
  end.

(** ** Values *)

(** Strings are sequences of bytes. *)
Abbreviation bytes := (list Z) (only parsing).

(** The twelve bytes of an object id. *)
Record OID := mkOID { oid_bytes :> bytes; oid_ok : length oid_bytes = 12%nat }.

(** An unsigned 64-bit integer. *)
Record uint64 := mkUint64 { u64 :> Z; u64_ok : (0 <=? u64) && (u64 <? 2 ^ 64) = true }.

Inductive BSONValue :=
| vMinKey
| vEOO
| vNumber (n : number)
| vString (s : bytes)
| vObject (o : list (bytes * BSONValue))
| vArray (o : list (bytes * BSONValue))
| vBinData (subtype : Z) (data : bytes)
| vUndefined
| vOID (oid : OID)
| vBool (b : bool)
| vDate (millis : int64)
| vNull
| vRegEx (regex flags : bytes)
| vDBRef (value : bytes)
| vCode (s : bytes)
| vSymbol (s : bytes)
| vCodeWScope (code : bytes) (scope : list (bytes * BSONValue))
| vTimestamp (t : uint64)
| vMaxKey.

(** An element is a value with its field name; an object is a sequence of elements. *)
Abbreviation BSONElement := (list Z * BSONValue)%type (only parsing).
Abbreviation BSONObj := (list (list Z * BSONValue)) (only parsing).

Definition value_type (v : BSONValue) : BSONType :=
  match v with
  | vMinKey => MinKey
  | vEOO => EOO
  | vNumber (NumInt _) => NumberInt
  | vNumber (NumLong _) => NumberLong
  | vNumber (NumDouble _) => NumberDouble
  | vString _ => String
  | vObject _ => Object
  | vArray _ => Array
  | vBinData _ _ => BinData
  | vUndefined => Undefined
  | vOID _ => jstOID
  | vBool _ => Bool
  | vDate _ => Date
  | vNull => jstNULL
  | vRegEx _ _ => RegEx
  | vDBRef _ => DBRef
  | vCode _ => Code
  | vSymbol _ => Symbol
  | vCodeWScope _ _ => CodeWScope
  | vTimestamp _ => bsonTimestamp
  | vMaxKey => MaxKey
  end.

Definition canonicalType (v : BSONValue) : Z := canonicalizeBSONType (value_type v).

(** ** Comparing bytes *)

(** The sign of [memcmp] on the first [n] bytes. *)
Fixpoint memcmp (a b : bytes) (n : nat) : Z :=
  match n, a, b with
  | S n, x :: a, y :: b => if x =? y then memcmp a b n else if x <? y then -1 else 1
  | _, _, _ => 0
  end.

(** [strcmp] on strings without a zero byte. *)
Fixpoint strcmp (a b : bytes) : Z :=
  match a, b with
  | [], [] => 0
  | [], _ :: _ => -1
  | _ :: _, [] => 1
  | x :: a, y :: b => if x =? y then strcmp a b else if x <? y then -1 else 1
  end.

Definition size (s : bytes) : Z := Z.of_nat (length s).

(** [StringData::compare]. *)
Definition StringData_compare (a b : bytes) : Z :=
  let res := memcmp a b (Nat.min (length a) (length b)) in
  if negb (res =? 0) then (if 0 <? res then 1 else -1)
  else if size a =? size b then 0
  else if size b <? size a then 1 else -1.

(** The stored string with its terminating zero. *)
Definition valuestr (s : bytes) : bytes := s ++ [0].

Definition compareElementStringValues (leftStr rightStr : bytes) : Z :=
  let l := valuestr leftStr in
  let r := valuestr rightStr in
  let res := memcmp l r (Nat.min (length l) (length r)) in
  if negb (res =? 0) then res else size l - size r.

Definition compare_sized (l r : bytes) : Z :=
  if negb (size l - size r =? 0) then size l - size r else memcmp l r (length l).

(** ** Comparing elements *)

(** The sign comparison of the constant types. *)
Definition compareTypes (l r : Z) : Z := if l - r <? 0 then -1 else if l - r =? 0 then 0 else 1.

(** The loop of [compareObjects], without an index key. *)
Fixpoint compareObjects (cmp : BSONElement -> BSONElement -> Z) (a b : BSONObj) : Z :=
  match a, b with
  | [], [] => 0
  | [], _ :: _ => -1
  | _ :: _, [] => 1
  | l :: a, r :: b =>
      let x := cmp l r in
      if negb (x =? 0) then x else compareObjects cmp a b
  end.

(** [woCompare] over a comparison of values of the same canonical type. *)
Definition woCompareWith (cmp : BSONValue -> BSONValue -> Z) (considerFieldName : bool)
    (l r : BSONElement) : Z :=
  let diff := if bool_decide (value_type l.2 = value_type r.2) then 0
              else canonicalType l.2 - canonicalType r.2 in
  if negb (diff =? 0) then diff
  else
    let diff := if considerFieldName then StringData_compare l.1 r.1 else 0 in
    if negb (diff =? 0) then diff else cmp l.2 r.2.

(** [compareElements] on values of the same canonical type; other pairs, on which it is never
    called, are answered with 0. *)
Fixpoint compareElements (l r : BSONValue) : Z :=
  match l, r with
  | vEOO, _ | vUndefined, _ | vNull, _ | vMaxKey, _ | vMinKey, _ =>
      compareTypes (canonicalType l) (canonicalType r)
  | vBool a, vBool b => Z.b2z a - Z.b2z b
  | vTimestamp a, vTimestamp b => if a <? b then -1 else if a =? b then 0 else 1
  | vDate a, vDate b => if a <? b then -1 else if a =? b then 0 else 1
  | vNumber a, vNumber b => compareNumbers a b
  | vOID a, vOID b => memcmp a b 12
  | vCode a, vCode b => compareElementStringValues a b
  | (vString a | vSymbol a), (vString b | vSymbol b) => compareElementStringValues a b
  | vObject a, vObject b => compareObjects (woCompareWith compareElements true) a b
  | vArray a, vArray b => compareObjects (woCompareWith compareElements true) a b
  | vDBRef a, vDBRef b => compare_sized a b
  | vBinData t a, vBinData t' b =>
      if negb (size a - size b =? 0) then size a - size b
      else memcmp (t :: a) (t' :: b) (S (length a))
  | vRegEx p f, vRegEx p' f' =>
      let c := strcmp p p' in if negb (c =? 0) then c else strcmp f f'
  | vCodeWScope c s, vCodeWScope c' s' =>
      let cmp := StringData_compare c c' in
      if negb (cmp =? 0) then cmp else compareObjects (woCompareWith compareElements true) s s'
  | _, _ => 0
  end.

Definition woCompare (considerFieldName : bool) (l r : BSONElement) : Z :=
  woCompareWith compareElements considerFieldName l r.

(** [BSONObj::woCompare]; [descending] are the directions of the index key. *)
Fixpoint BSONObj_woCompare (considerFieldName : bool) (descending : list bool) (a b : BSONObj) : Z :=
  match a, b with
  | [], [] => 0
  | [], _ :: _ => -1
  | _ :: _, [] => 1
  | l :: a, r :: b =>
      let x := woCompare considerFieldName l r in
      let x := if hd false descending then - x else x in
      if negb (x =? 0) then x else BSONObj_woCompare considerFieldName (tl descending) a b
  end.

(** [BSONElement::computeSize]: the size of an element in bytes; [fieldNameSize] counts the
    terminating zero, and an object its length and its end. *)
Fixpoint computeSize (name : bytes) (v : BSONValue) : Z :=
  let fieldNameSize := size name + 1 in
  let objsize o := 4 + foldr Z.add 0 (map (fun e => computeSize e.1 e.2) o) + 1 in
  match v with
  | vEOO => 1
  | vMinKey | vMaxKey | vUndefined | vNull => 1 + fieldNameSize
  | vNumber (NumInt _) => 5 + fieldNameSize
  | vNumber (NumLong _) | vNumber (NumDouble _) | vDate _ | vTimestamp _ => 9 + fieldNameSize
  | vString s | vCode s | vSymbol s => 5 + fieldNameSize + size (valuestr s)
  | vObject o | vArray o => 1 + fieldNameSize + objsize o
  | vBinData _ data => 6 + fieldNameSize + size data
  | vOID _ => 13 + fieldNameSize
  | vBool _ => 2 + fieldNameSize
  | vRegEx p f => (size p + 1 + size f + 1) + fieldNameSize + 1
  | vDBRef value => 1 + fieldNameSize + size value
  | vCodeWScope c o => 1 + fieldNameSize + (4 + 4 + size (valuestr c) + objsize o)
  end.

(** [number() >= 0] and [number() < 0]; [number()] is 0 for a value that is not a number. *)
Definition number_nonneg (v : BSONValue) : bool :=
  match v with
  | vNumber (NumInt z) => 0 <=? z
  | vNumber (NumLong z) => 0 <=? z
  | vNumber (NumDouble d) => double_ge d (DFin 0 0)
  | _ => true
  end.

Definition number_neg (v : BSONValue) : bool :=
  match v with
  | vNumber (NumInt z) => z <? 0
  | vNumber (NumLong z) => z <? 0
  | vNumber (NumDouble d) => double_lt d (DFin 0 0)
  | _ => false
  end.

(** ** The comparisons of the parts are total *)

Lemma compareTypes_sgn l r : compareTypes l r = Z.sgn (l - r).
Proof. unfold compareTypes. repeat case_if; bprop; lia. Qed.

Lemma compareObjects_lex cmp a b : compareObjects cmp a b = lex_list cmp a b.
Proof. revert b. induction a as [|l a IH]; intros [|r b]; simpl; try done. rewrite IH. by destruct (_ =? 0). Qed.

(** [memcmp] on the common prefix, then the longer one is greater: the order of lists. *)
Lemma memcmp_common a b :
  Z.sgn (lex_list Z.sub a b) =
  let res := memcmp a b (Nat.min (length a) (length b)) in
  if res =? 0 then Z.sgn (size a - size b) else Z.sgn res.
Proof.
  revert b. induction a as [|x a IH]; intros [|y b]; simpl; unfold size; simpl length; try done; try lia.
  destruct (Z.eqb_spec x y) as [->|Hne].
  - rewrite Z.sub_diag. simpl. rewrite IH. simpl. unfold size. case_if; [f_equal; lia|done].
  - destruct (Z.eqb_spec (x - y) 0); [lia|]. case_if; bprop; simpl; lia.
Qed.

Lemma memcmp_same_length a b :
  length a = length b -> Z.sgn (memcmp a b (length a)) = Z.sgn (lex_list Z.sub a b).
Proof.
  intros E. rewrite memcmp_common. simpl. rewrite <- E, Nat.min_id. case_if; bprop; [|done].
  rewrite Heqb0. unfold size. rewrite E. lia.
Qed.

Lemma memcmp_total : total (fun a b => lex_list Z.sub a b).
Proof. eapply total_weaken; [|exact (total_lex_list _ _ total_sub)]. intros l _. by apply Forall_true. Qed.

Lemma StringData_compare_sgn a b : Z.sgn (StringData_compare a b) = Z.sgn (lex_list Z.sub a b).
Proof. rewrite memcmp_common. unfold StringData_compare. simpl. repeat case_if; bprop; lia. Qed.

Lemma StringData_compare_total : total StringData_compare.
Proof. eapply total_sgn; [|exact memcmp_total]. intros a b _ _. apply StringData_compare_sgn. Qed.

Lemma compareElementStringValues_total : total compareElementStringValues.
Proof.
  eapply total_sgn; [|exact (total_map _ valuestr _ memcmp_total)]. intros a b _ _. simpl.
  rewrite memcmp_common. unfold compareElementStringValues. simpl. repeat case_if; bprop; lia.
Qed.

Lemma size_length a b : size a - size b = 0 -> length a = length b.
Proof. unfold size. lia. Qed.

Lemma compare_sized_total : total compare_sized.
Proof.
  eapply (total_sgn _ _ (lex (fun a b => size a - size b) (lex_list Z.sub))).
  - intros a b _ _. unfold compare_sized, lex. destruct (Z.eqb_spec (size a - size b) 0) as [E|]; simpl; [|done].
    by apply memcmp_same_length, size_length.
  - apply total_lex_all; [exact (total_map _ size _ total_sub)|apply memcmp_total].
Qed.

Lemma strcmp_sgn a b : Z.sgn (strcmp a b) = Z.sgn (lex_list Z.sub a b).
Proof.
  revert b. induction a as [|x a IH]; intros [|y b]; simpl; try done.
  destruct (Z.eqb_spec x y) as [->|Hne]; [by rewrite Z.sub_diag|].
  destruct (Z.eqb_spec (x - y) 0); [lia|]. case_if; bprop; lia.
Qed.

Lemma strcmp_total : total strcmp.
Proof. eapply total_sgn; [|exact memcmp_total]. intros a b _ _. apply strcmp_sgn. Qed.

Lemma memcmp_oid_total : total (fun a b : OID => memcmp a b 12).
Proof.
  eapply total_sgn; [|exact (total_map _ oid_bytes _ memcmp_total)].
  intros [a Ha] [b Hb] _ _. simpl. rewrite <- memcmp_same_length by congruence. by rewrite Ha.
Qed.

Lemma compareNumbers_total : total compareNumbers.
Proof.
  eapply (total_sgn _ _ (fun l r => lex (fun a b => a.1 - b.1) (fun a b => a.2 - b.2) (exact_key l) (exact_key r))).
  - intros l r _ _. rewrite compareNumbers_key. generalize (exact_key l) (exact_key r). intros [a1 a2] [b1 b2].
    unfold key_compare, lex, compareLongs. simpl. repeat case_if; bprop; lia.
  - apply (total_map (fun _ => True) exact_key (lex (fun a b => a.1 - b.1) (fun a b => a.2 - b.2))).
    apply total_lex_all; [exact (total_map _ fst _ total_sub)|exact (total_map _ snd _ total_sub)].
Qed.

(** The other cases of [compareElements]. *)
Definition compare_ints (a b : Z) : Z := if a <? b then -1 else if a =? b then 0 else 1.

Lemma compare_ints_total : total compare_ints.
Proof. eapply total_sgn; [|exact total_sub]. intros a b _ _. unfold compare_ints. repeat case_if; bprop; lia. Qed.

Definition compare_bindata (x y : Z * list Z) : Z :=
  if negb (size x.2 - size y.2 =? 0) then size x.2 - size y.2
  else memcmp (x.1 :: x.2) (y.1 :: y.2) (S (length x.2)).

Lemma compare_bindata_total : total compare_bindata.
Proof.
  eapply (total_sgn _ _ (lex (fun x y => size x.2 - size y.2) (fun x y => lex_list Z.sub (x.1 :: x.2) (y.1 :: y.2)))).
  - intros [t a] [t' b] _ _. unfold compare_bindata, lex. cbn [fst snd].
    destruct (Z.eqb_spec (size a - size b) 0) as [E|]; simpl negb; cbv iota; [|done].
    apply (memcmp_same_length (t :: a) (t' :: b)). simpl. f_equal. by apply size_length.
  - apply total_lex_all; [exact (total_map _ (fun x : Z * list Z => size x.2) _ total_sub)|].
    exact (total_map _ (fun x : Z * list Z => x.1 :: x.2) _ memcmp_total).
Qed.

Definition compare_regex (x y : list Z * list Z) : Z :=
  let c := strcmp x.1 y.1 in if negb (c =? 0) then c else strcmp x.2 y.2.

Lemma compare_regex_total : total compare_regex.
Proof.
  eapply (total_sgn _ _ (lex (fun x y => strcmp x.1 y.1) (fun x y => strcmp x.2 y.2))).
  - intros x y _ _. unfold compare_regex, lex. by destruct (_ =? 0).
  - apply total_lex_all; [exact (total_map _ fst _ strcmp_total)|exact (total_map _ snd _ strcmp_total)].
Qed.

(** ** The order of elements is total *)

Fixpoint depth (v : BSONValue) : nat :=
  match v with
  | vObject o | vArray o | vCodeWScope _ o => S (foldr (fun e n => Nat.max (depth e.2) n) 0%nat o)
  | _ => 0%nat
  end.

Lemma depth_fields (o : BSONObj) n :
  (foldr (fun e n => Nat.max (depth e.2) n) 0 o <= n)%nat -> Forall (fun e : BSONElement => (depth e.2 <= n)%nat) o.
Proof. induction o as [|e o IH]; simpl; intros H; constructor; [lia|apply IH; lia]. Qed.

Lemma woCompareWith_lex cmp names l r :
  woCompareWith cmp names l r =
  lex (fun l r : BSONElement => canonicalType l.2 - canonicalType r.2)
    (lex (fun l r : BSONElement => if names then StringData_compare l.1 r.1 else 0) (fun l r : BSONElement => cmp l.2 r.2)) l r.
Proof.
  unfold woCompareWith, lex. destruct l as [nl vl], r as [nr vr]. cbn [fst snd].
  assert ((if bool_decide (value_type vl = value_type vr) then 0 else canonicalType vl - canonicalType vr) =
    canonicalType vl - canonicalType vr) as ->.
  { case_bool_decide as E; [|done]. unfold canonicalType. rewrite E. lia. }
  destruct (_ =? 0); simpl; [|done]. by destruct (_ =? 0).
Qed.

Definition class_depth (c : Z) (n : nat) (v : BSONValue) : Prop := canonicalType v = c /\ (depth v <= n)%nat.

(** Values of one canonical type, when the elements nested in them are compared totally. *)
Section one_class.
Context (n : nat) (c : Z).
Context (IH : total_on (fun e : BSONElement => (depth e.2 < n)%nat) (woCompareWith compareElements true)).

Lemma objects_total :
  total_on (fun o : BSONObj => (foldr (fun e n => Nat.max (depth e.2) n) 0 o < n)%nat)
    (compareObjects (woCompareWith compareElements true)).
Proof using IH.
  destruct n as [|n']; [split; lia|].
  eapply total_sgn; [by intros a b _ _; rewrite compareObjects_lex|].
  eapply total_weaken; [|exact (total_lex_list _ _ IH)]. intros o Ho.
  eapply Forall_impl; [apply (depth_fields o n'); lia|]. simpl. lia.
Qed.

Definition compare_code (x y : list Z * BSONObj) : Z :=
  let cmp := StringData_compare x.1 y.1 in
  if negb (cmp =? 0) then cmp else compareObjects (woCompareWith compareElements true) x.2 y.2.

Lemma code_total :
  total_on (fun x => (foldr (fun e n => Nat.max (depth e.2) n) 0 x.2 < n)%nat) compare_code.
Proof using IH.
  eapply (total_sgn _ _ (lex (fun x y => StringData_compare x.1 y.1)
    (fun x y => compareObjects (woCompareWith compareElements true) x.2 y.2))).
  - intros x y _ _. unfold compare_code, lex. by destruct (_ =? 0).
  - apply total_lex_all; [|exact (total_map _ snd _ objects_total)].
    eapply total_weaken; [|exact (total_map _ fst _ StringData_compare_total)]. done.
Qed.

Lemma class_number a : canonicalType (vNumber a) = 10.
Proof. by destruct a. Qed.

Lemma compareElements_flip x y :
  class_depth c n x -> class_depth c n y ->
  Z.sgn (compareElements y x) = - Z.sgn (compareElements x y).
Proof using IH.
  intros [Hx Dx] [Hy Dy]. rewrite <- Hx in Hy. clear Hx.
  destruct x; destruct y; rewrite ?class_number in Hy; try discriminate Hy; cbn [depth] in Dx, Dy; try done.
  all: cbn [compareElements].
  - by apply (total_flip _ _ compareNumbers_total).
  - by apply (total_flip _ _ compareElementStringValues_total).
  - by apply (total_flip _ _ compareElementStringValues_total).
  - apply (total_flip _ _ objects_total); lia.
  - apply (total_flip _ _ objects_total); lia.
  - by apply (total_flip _ _ compare_bindata_total (_, _) (_, _)).
  - by apply (total_flip _ _ memcmp_oid_total).
  - destruct b, b0; done.
  - by apply (total_flip _ _ compare_ints_total).
  - by apply (total_flip _ _ compare_regex_total (_, _) (_, _)).
  - by apply (total_flip _ _ compare_sized_total).
  - by apply (total_flip _ _ compareElementStringValues_total).
  - by apply (total_flip _ _ compareElementStringValues_total).
  - by apply (total_flip _ _ compareElementStringValues_total).
  - apply (total_flip _ _ code_total (_, _) (_, _)); simpl; lia.
  - by apply (total_flip _ _ compare_ints_total).
Qed.

Lemma compareElements_trans x y z :
  class_depth c n x -> class_depth c n y -> class_depth c n z ->
  compareElements x y <= 0 -> compareElements y z <= 0 -> compareElements x z <= 0.
Proof using IH.
  intros [Hx Dx] [Hy Dy] [Hz Dz]. rewrite <- Hx in Hy, Hz. clear Hx.
  destruct x; destruct y; rewrite ?class_number in Hy; try discriminate Hy;
    destruct z; rewrite ?class_number in Hz; try discriminate Hz; cbn [depth] in Dx, Dy, Dz; try (by intros _ _).
  all: cbn [compareElements].
  all: try by apply (total_trans _ _ compareElementStringValues_total).
  - by apply (total_trans _ _ compareNumbers_total).
  - apply (total_trans _ _ objects_total); lia.
  - apply (total_trans _ _ objects_total); lia.
  - by apply (total_trans _ _ compare_bindata_total (_, _) (_, _) (_, _)).
  - by apply (total_trans _ _ memcmp_oid_total).
  - destruct b, b0, b1; simpl; lia.
  - by apply (total_trans _ _ compare_ints_total).
  - by apply (total_trans _ _ compare_regex_total (_, _) (_, _) (_, _)).
  - by apply (total_trans _ _ compare_sized_total).
  - apply (total_trans _ _ code_total (_, _) (_, _) (_, _)); simpl; lia.
  - by apply (total_trans _ _ compare_ints_total).
Qed.

Lemma compareElements_total : total_on (class_depth c n) compareElements.
Proof using IH. split; [apply compareElements_flip|apply compareElements_trans]. Qed.
End one_class.

Lemma woCompare_total_depth n names : total_on (fun e : BSONElement => (depth e.2 < n)%nat) (woCompare names).
Proof.
  revert names. induction n as [|n IH]; intros names; [split; lia|].
  eapply total_sgn; [intros x y _ _; unfold woCompare; by rewrite woCompareWith_lex|].
  apply total_lex; [eapply total_weaken; [|exact (total_map _ (fun e : BSONElement => canonicalType e.2) _ total_sub)]; done|].
  intros a _. apply total_lex_all.
  - destruct names; [|apply total_const].
    eapply total_weaken; [|exact (total_map _ (fst : BSONElement -> _) _ StringData_compare_total)]. done.
  - eapply total_weaken; [|exact (total_map _ (snd : BSONElement -> _) _
      (compareElements_total n (canonicalType a.2) (IH true)))].
    simpl. intros x [Hd E]. split; [lia|]. lia.
Qed.

Lemma woCompare_total names : total (woCompare names).
Proof.
  split.
  - intros x y _ _. apply (total_flip _ _ (woCompare_total_depth (S (Nat.max (depth x.2) (depth y.2))) names)); simpl; lia.
  - intros x y z _ _ _.
    apply (total_trans _ _ (woCompare_total_depth (S (Nat.max (depth x.2) (Nat.max (depth y.2) (depth z.2)))) names)); simpl; lia.
Qed.

(** ** Extremes and objects *)

Lemma woCompare_class names l r :
  canonicalType l.2 <> canonicalType r.2 -> woCompare names l r = canonicalType l.2 - canonicalType r.2.
Proof. intros H. unfold woCompare. rewrite woCompareWith_lex. unfold lex. destruct (Z.eqb_spec (canonicalType l.2 - canonicalType r.2) 0); lia. Qed.

Lemma canonicalType_range v : -1 <= canonicalType v <= 127.
Proof. destruct v as [| |[]| | | | | | | | | | | | | | | |]; unfold canonicalType; simpl; lia. Qed.

Lemma woCompare_minKey n x : woCompare false (n, vMinKey) x <= 0.
Proof.
  destruct (decide (canonicalType x.2 = -1)) as [E|N].
  - destruct x as [nx vx]. destruct vx as [| |[]| | | | | | | | | | | | | | | |]; try discriminate E. done.
  - change (-1) with (canonicalType vMinKey) in N. rewrite woCompare_class by (simpl; congruence).
    pose proof (canonicalType_range x.2). change (canonicalType (n, vMinKey).2) with (-1). lia.
Qed.

Lemma woCompare_maxKey n x : woCompare false x (n, vMaxKey) <= 0.
Proof.
  destruct (decide (canonicalType x.2 = 127)) as [E|N].
  - destruct x as [nx vx]. destruct vx as [| |[]| | | | | | | | | | | | | | | |]; try discriminate E. done.
  - change 127 with (canonicalType vMaxKey) in N. rewrite woCompare_class by (simpl; congruence).
    pose proof (canonicalType_range x.2). change (canonicalType (n, vMaxKey).2) with 127. lia.
Qed.

(** No value lies strictly between undefined and null. *)
Lemma woCompare_undefined_null n n' x :
  woCompare false (n, vUndefined) x < 0 -> woCompare false x (n', vNull) < 0 -> False.
Proof.
  destruct x as [nx vx]. destruct vx as [| |[]| | | | | | | | | | | | | | | |]; vm_compute; congruence.
Qed.

Lemma woCompare_same_name l r : l.1 = r.1 -> woCompare true l r = woCompare false l r.
Proof.
  intros E. unfold woCompare. rewrite !woCompareWith_lex. unfold lex. rewrite E.
  by rewrite (total_refl StringData_compare_total).
Qed.

Lemma BSONObj_woCompare_total names descending : total (BSONObj_woCompare names descending).
Proof.
  pose proof (woCompare_total names) as Ht. split.
  - intros a b _ _. revert b descending. induction a as [|l a IH]; intros [|r b] desc; simpl; try done.
    pose proof (total_flip _ _ Ht l r I I) as Hs.
    assert (forall x y : Z, Z.sgn y = - Z.sgn x -> (x =? 0) = (y =? 0)) as Heq.
    { intros u v Huv. destruct (Z.eqb_spec u 0), (Z.eqb_spec v 0); lia. }
    destruct (hd false desc).
    + rewrite (Heq (- woCompare names l r) (- woCompare names r l)) by lia.
      destruct (_ =? 0); simpl; [apply IH|lia].
    + rewrite (Heq (woCompare names l r) (woCompare names r l)) by lia.
      destruct (_ =? 0); simpl; [apply IH|lia].
  - intros a b c _ _ _. revert b c descending.
    induction a as [|x a IH]; intros [|y b] [|z c] desc; simpl; try lia.
    pose proof (total_flip _ _ Ht x y I I). pose proof (total_flip _ _ Ht y z I I). pose proof (total_flip _ _ Ht x z I I).
    pose proof (total_sgn_eq_l Ht x y z I I I). pose proof (total_sgn_eq_r Ht y z x I I I).
    pose proof (total_trans_lt_l Ht x y z I I I). pose proof (total_trans_lt_l Ht z y x I I I).
    pose proof (IH b c (tl desc)).
    destruct (hd false desc); repeat (case_if; bprop); lia.
Qed.

(** The comparison of BSON elements is a total preorder, with or without field names, and
    so is the comparison of objects in any index direction.  [MinKey] and [MaxKey] are its
    ends and nothing lies between undefined and null. *)
Theorem BSON_order_total names descending :
  total (woCompare names) /\ total (BSONObj_woCompare names descending) /\
  (forall n x, woCompare false (n, vMinKey) x <= 0 /\ woCompare false x (n, vMaxKey) <= 0) /\
  (forall n n' x, ~ (woCompare false (n, vUndefined) x < 0 /\ woCompare false x (n', vNull) < 0)).
Proof.
  split_and!; [apply woCompare_total|apply BSONObj_woCompare_total| |].
  - intros n x. split; [apply woCompare_minKey|apply woCompare_maxKey].
  - intros n n' x [H1 H2]. by eapply woCompare_undefined_null.
Qed.
