(* ===== verification/ElementOrder.v ===== *)
(** * What the index bounds use of BSON elements

    The class [ElementOrder] states the operations on elements that intervals and index
    bounds call and the laws they rely on; BSON elements are an instance. *)

From Stdlib Require Import ZArith Lia.
From stdpp Require Import prelude.
From S2P Require Import Prelude TotalOrder CompareNumbers Bson.

Open Scope Z_scope.

Class ElementOrder (E : Type) := {
  elt_type : E -> BSONType;
  elt_name : E -> list Z;
  elt_compare : bool -> E -> E -> Z;
  elt_appendAs : E -> list Z -> E;
  elt_eoo : E;
  elt_minKey : E;
  elt_maxKey : E;
  elt_nonneg : E -> bool;
  elt_neg : E -> bool;
  elt_size : E -> Z;
  elt_total names : total (elt_compare names);
  elt_same_name x y : elt_name x = elt_name y -> elt_compare true x y = elt_compare false x y;
  elt_least x y : elt_type x = MinKey -> elt_compare false x y <= 0;
  elt_greatest x y : elt_type y = MaxKey -> elt_compare false x y <= 0;
  elt_undefined_null u n x : elt_type u = Undefined -> elt_type n = jstNULL ->
    elt_compare false u x < 0 -> elt_compare false x n < 0 -> False;
  elt_minKey_type : elt_type elt_minKey = MinKey;
  elt_maxKey_type : elt_type elt_maxKey = MaxKey;
  elt_minKey_name : elt_name elt_minKey = [];
  elt_maxKey_name : elt_name elt_maxKey = [];
  elt_appendAs_name x n : elt_name (elt_appendAs x n) = n;
  elt_appendAs_compare x y n : elt_compare false (elt_appendAs x n) y = elt_compare false x y;
}.

#[global, refine] Instance BSONElement_order : ElementOrder (list Z * BSONValue) := {
  elt_type e := value_type e.2;
  elt_name e := e.1;
  elt_compare := woCompare;
  elt_appendAs e n := (n, e.2);
  elt_eoo := ([], vEOO);
  elt_minKey := ([], vMinKey);
  elt_maxKey := ([], vMaxKey);
  elt_nonneg e := number_nonneg e.2;
  elt_neg e := number_neg e.2;
  elt_size e := computeSize e.1 e.2;
}.
Proof.
  - apply woCompare_total.
  - apply woCompare_same_name.
  - intros [n v] y Ht. destruct v as [| |[]| | | | | | | | | | | | | | | |]; try discriminate Ht. apply woCompare_minKey.
  - intros x [n v] Ht. destruct v as [| |[]| | | | | | | | | | | | | | | |]; try discriminate Ht. apply woCompare_maxKey.
  - intros [nu u] [nn n] x Hu Hn. destruct u as [| |[]| | | | | | | | | | | | | | | |]; try discriminate Hu.
    destruct n as [| |[]| | | | | | | | | | | | | | | |]; try discriminate Hn. apply woCompare_undefined_null.
  - done.
  - done.
  - done.
  - done.
  - done.
  - intros [nx x] [ny y] n. done.
Defined.

(** [BSONObj::woCompare] for objects of elements: [descending] are the directions of the index
    key, ascending where the list ends. *)
Fixpoint obj_woCompare `{ElementOrder E} (considerFieldName : bool) (descending : list bool) (a b : list E) : Z :=
  match a, b with
  | [], [] => 0
  | [], _ :: _ => -1
  | _ :: _, [] => 1
  | l :: a, r :: b =>
      let x := elt_compare considerFieldName l r in
      let x := if hd false descending then - x else x in
      if negb (x =? 0) then x else obj_woCompare considerFieldName (tl descending) a b
  end.

Lemma obj_woCompare_BSON names descending a b :
  obj_woCompare (E := list Z * BSONValue) names descending a b = BSONObj_woCompare names descending a b.
Proof. revert b descending. induction a as [|l a IH]; intros [|r b] desc; simpl; try done. by rewrite IH. Qed.

(** ** Consequences *)

Section laws.
Context `{ElementOrder E}.
Implicit Types x y z : E.

Abbreviation cmp := (elt_compare false) (only parsing).

Lemma cmp_flip x y : Z.sgn (cmp y x) = - Z.sgn (cmp x y).
Proof. by apply (total_flip _ _ (elt_total false)). Qed.

Lemma cmp_trans x y z : cmp x y <= 0 -> cmp y z <= 0 -> cmp x z <= 0.
Proof. by apply (total_trans _ _ (elt_total false)). Qed.

Lemma cmp_refl x : cmp x x = 0.
Proof. by apply (total_refl (elt_total false)). Qed.

(** Finitely many elements are ordered like integers: the rank of an element is the number of
    smaller ones. *)
Lemma ranks (l : list E) :
  exists rank : E -> Z, forall x y, x ∈ l -> y ∈ l -> Z.sgn (cmp x y) = Z.sgn (rank x - rank y).
Proof.
  set (below x l := length (filter (fun y => cmp y x < 0) l)).
  assert (forall x y l, cmp x y <= 0 -> (below x l <= below y l)%nat) as Hle.
  { intros x y k Hxy. unfold below. induction k as [|z k IH]; [done|]. rewrite !filter_cons.
    pose proof (total_trans_lt_l (elt_total false) z x y I I I). repeat case_decide; simpl; lia. }
  assert (forall x y l, cmp x y < 0 -> x ∈ l -> (below x l < below y l)%nat) as Hlt.
  { intros x y k Hxy. unfold below. induction k as [|z k IH]; [set_solver|]. intros Hin. rewrite !filter_cons.
    pose proof (Hle x y k ltac:(lia)) as Hk. unfold below in Hk. pose proof (cmp_refl x).
    pose proof (total_trans_lt_l (elt_total false) z x y I I I).
    apply elem_of_cons in Hin as [->|Hin]; [|specialize (IH Hin)]; repeat case_decide; simpl; lia. }
  exists (fun x => Z.of_nat (below x l)). intros x y Hx Hy. pose proof (cmp_flip x y).
  destruct (Z.lt_total (cmp x y) 0) as [H1|[H1|H1]].
  - pose proof (Hlt x y l H1 Hx). lia.
  - pose proof (Hle x y l ltac:(lia)). pose proof (Hle y x l ltac:(lia)). lia.
  - pose proof (Hlt y x l ltac:(lia) Hy). lia.
Qed.
End laws.

(** Membership in an explicit list. *)
Ltac in_list := first [apply list_elem_of_here | apply list_elem_of_further; in_list].

(** [order l] replaces the comparisons of the elements of [l] by those of their ranks, for
    linear arithmetic. *)
Ltac order l :=
  let rk := fresh "rk" in let Hrk := fresh "Hrk" in
  destruct (ranks l) as [rk Hrk];
  repeat match goal with
  | |- context [elt_compare false ?x ?y] =>
      generalize (Hrk x y ltac:(in_list) ltac:(in_list)); generalize (elt_compare false x y); intros
  | H : context [elt_compare false ?x ?y] |- _ =>
      lazymatch type of H with
      | forall _, _ => fail
      | _ => revert H; generalize (Hrk x y ltac:(in_list) ltac:(in_list)); generalize (elt_compare false x y); intros
      end
  end; clear Hrk.
