(* ===== verification/Interval.v ===== *)
(** * Intervals of one indexed field

    Models [struct Interval] of [db/query/interval.h] and [interval.cpp].  The theorems give
    the meaning of [compare], [intersect] and [combine] for the set of elements an
    interval contains. *)

From Stdlib Require Import ZArith Lia.
From stdpp Require Import prelude.
From S2P Require Import Prelude TotalOrder CompareNumbers Bson ElementOrder.

Open Scope Z_scope.

Section Interval.
Context `{EO : ElementOrder E}.
Implicit Types x y : E.

(** ** The structure *)

Record Interval := mkInterval {
  intervalData : list E;
  start : E;
  startInclusive : bool;
  iend : E;
  endInclusive : bool;
}.

(** The comparison without field names. *)
Definition cmpv (x y : E) : Z := elt_compare false x y.

Definition Interval_default : Interval := mkInterval [] elt_eoo false elt_eoo false.

(** [Interval::init], also the constructor. *)
Definition init (base : list E) (si ei : bool) : option Interval :=
  match base with
  | s :: e :: _ => Some (mkInterval base s si e ei)
  | _ => None
  end.

Definition isEmpty (i : Interval) : bool := (length (intervalData i) =? 0)%nat.

Definition isPoint (i : Interval) : bool :=
  startInclusive i && endInclusive i && (0 =? cmpv (start i) (iend i)).

Definition isNull (i : Interval) : bool :=
  (negb (startInclusive i) || negb (endInclusive i)) && (0 =? cmpv (start i) (iend i)).

Inductive Direction := kDirectionNone | kDirectionAscending | kDirectionDescending.

Definition getDirection (i : Interval) : option Direction :=
  if isEmpty i || isPoint i || isNull i then Some kDirectionNone
  else
    let res := cmpv (start i) (iend i) in
    invariant (negb (res =? 0));;
    Some (if res <? 0 then kDirectionAscending else kDirectionDescending).

(** ** Comparison *)

Definition equals (this other : Interval) : bool :=
  if negb (Bool.eqb (startInclusive this) (startInclusive other)) then false
  else if negb (Bool.eqb (endInclusive this) (endInclusive other)) then false
  else if negb (cmpv (start this) (start other) =? 0) then false
  else if negb (cmpv (iend this) (iend other) =? 0) then false
  else true.

(** Without the checks of the debug build. *)
Definition intersects (this other : Interval) : bool :=
  let res := cmpv (start this) (iend other) in
  if 0 <? res then false
  else if (res =? 0) && (negb (startInclusive this) || negb (endInclusive other)) then false
  else
    let res := cmpv (start other) (iend this) in
    if 0 <? res then false
    else if (res =? 0) && (negb (startInclusive other) || negb (endInclusive this)) then false
    else true.

Definition within (this other : Interval) : bool :=
  let res := cmpv (start this) (start other) in
  if res <? 0 then false
  else if (res =? 0) && startInclusive this && negb (startInclusive other) then false
  else
    let res := cmpv (iend this) (iend other) in
    if 0 <? res then false
    else if (res =? 0) && endInclusive this && negb (endInclusive other) then false
    else true.

Definition precedes (this other : Interval) : bool :=
  let res := cmpv (start this) (start other) in
  if res <? 0 then true
  else if (res =? 0) && startInclusive this && negb (startInclusive other) then true
  else false.

Definition isMinToMax (i : Interval) : bool :=
  bool_decide (elt_type (start i) = MinKey) && bool_decide (elt_type (iend i) = MaxKey).

Inductive IntervalComparison :=
| INTERVAL_EQUALS | INTERVAL_CONTAINS | INTERVAL_WITHIN
| INTERVAL_OVERLAPS_BEFORE | INTERVAL_OVERLAPS_AFTER
| INTERVAL_PRECEDES | INTERVAL_PRECEDES_COULD_UNION | INTERVAL_SUCCEEDS
| INTERVAL_UNKNOWN.

Definition compare (this other : Interval) : IntervalComparison :=
  if intersects this other then
    if equals this other then INTERVAL_EQUALS
    else if within this other then INTERVAL_WITHIN
    else if within other this then INTERVAL_CONTAINS
    else if precedes this other then INTERVAL_OVERLAPS_BEFORE
    else INTERVAL_OVERLAPS_AFTER
  else if precedes this other then
    if (endInclusive this || startInclusive other) && (0 =? cmpv (iend this) (start other))
    then INTERVAL_PRECEDES_COULD_UNION
    else INTERVAL_PRECEDES
  else INTERVAL_SUCCEEDS.

(** ** Union and intersection *)

(** [intersect] with the comparison passed in, or [INTERVAL_UNKNOWN]. *)
Definition intersect (this other : Interval) (cmp : IntervalComparison) : option Interval :=
  let cmp := match cmp with INTERVAL_UNKNOWN => compare this other | _ => cmp end in
  match cmp with
  | INTERVAL_EQUALS | INTERVAL_WITHIN => Some this
  | INTERVAL_CONTAINS => init [start other; iend other] (startInclusive other) (endInclusive other)
  | INTERVAL_OVERLAPS_AFTER => init [start this; iend other] (startInclusive this) (endInclusive other)
  | INTERVAL_OVERLAPS_BEFORE => init [start other; iend this] (startInclusive other) (endInclusive this)
  | INTERVAL_PRECEDES | INTERVAL_SUCCEEDS => Some Interval_default
  | _ => None
  end.

Definition combine (this other : Interval) (cmp : IntervalComparison) : option Interval :=
  let cmp := match cmp with INTERVAL_UNKNOWN => compare this other | _ => cmp end in
  match cmp with
  | INTERVAL_EQUALS | INTERVAL_CONTAINS => Some this
  | INTERVAL_WITHIN => init [start other; iend other] (startInclusive other) (endInclusive other)
  | INTERVAL_OVERLAPS_AFTER | INTERVAL_SUCCEEDS =>
      init [start other; iend this] (startInclusive other) (endInclusive this)
  | INTERVAL_OVERLAPS_BEFORE | INTERVAL_PRECEDES =>
      init [start this; iend other] (startInclusive this) (endInclusive other)
  | _ => None
  end.

(** [reverse] in place and [reverseClone]. *)
Definition reverse (i : Interval) : Interval :=
  mkInterval (intervalData i) (iend i) (endInclusive i) (start i) (startInclusive i).

Definition reverseClone (i : Interval) : Interval :=
  mkInterval (intervalData i) (iend i) (endInclusive i) (start i) (startInclusive i).

(** ** The elements of an interval *)

Definition after_start (i : Interval) x : bool :=
  (cmpv (start i) x <? 0) || (cmpv (start i) x =? 0) && startInclusive i.

Definition before_end (i : Interval) x : bool :=
  (cmpv x (iend i) <? 0) || (cmpv x (iend i) =? 0) && endInclusive i.

Definition contains (i : Interval) x : bool := after_start i x && before_end i x.

(** An interval with its ends in order that is not null. *)
Definition ascending (i : Interval) : bool := (cmpv (start i) (iend i) <? 0) || isPoint i.

(** ** The comparisons as formulas over ranks *)

Lemma if_false (b c : bool) : (if b then false else c) = negb b && c.
Proof. by destruct b. Qed.

Lemma if_true (b c : bool) : (if b then true else c) = b || c.
Proof. by destruct b. Qed.

Lemma ranks_bool (l : list E) :
  exists rank : E -> Z, forall x y, x ∈ l -> y ∈ l ->
    (cmpv x y <? 0) = (rank x <? rank y) /\ (cmpv x y =? 0) = (rank x =? rank y) /\
    (0 <? cmpv x y) = (rank y <? rank x) /\ (0 =? cmpv x y) = (rank x =? rank y).
Proof.
  destruct (ranks l) as [rk Hrk]. exists rk. intros x y Hx Hy. pose proof (Hrk x y Hx Hy). unfold cmpv in *. lia.
Qed.
End Interval.
Arguments Interval E : clear implicits.

(** [to_ranks l] rewrites the comparisons of the elements of [l] in the goal. *)
Ltac to_ranks l :=
  let rk := fresh "rk" in let Hrk := fresh "Hrk" in
  destruct (ranks_bool l) as [rk Hrk];
  repeat match goal with
  | |- context [cmpv ?x ?y] =>
      let H := fresh in
      pose proof (Hrk x y ltac:(in_list) ltac:(in_list)) as H;
      destruct H as (H1 & H2 & H3 & H4);
      progress rewrite ?H1, ?H2, ?H3, ?H4; clear H1 H2 H3 H4
  end; clear Hrk.

(** Decide a goal about the ends of intervals. *)
Ltac interval_order l :=
  rewrite ?if_false, ?if_true;
  to_ranks l;
  repeat match goal with
  | |- context [startInclusive ?i] => destruct (startInclusive i)
  | |- context [endInclusive ?i] => destruct (endInclusive i)
  end;
  cbn [negb andb orb Bool.eqb]; rewrite ?orb_false_r, ?andb_true_r, ?andb_false_r, ?orb_true_r; lia.

Ltac unfold_interval :=
  unfold ascending, isPoint, contains, after_start, before_end, intersects, equals, within, precedes.

(** Combine implications between the four tests on an element. *)
Ltac ends_cases a b x :=
  destruct (after_start a x), (before_end a x), (after_start b x), (before_end b x); simpl in *; intuition congruence.

Section meaning.
Context `{EO : ElementOrder E}.
Implicit Types (x y : E) (a b : Interval E).

Lemma disjoint_spec a b x :
  ascending a = true -> ascending b = true -> intersects a b = false -> contains a x && contains b x = false.
Proof. unfold_interval. interval_order [start a; iend a; start b; iend b; x]. Qed.

Lemma equals_spec a b x : equals a b = true -> contains a x = contains b x.
Proof. unfold_interval. interval_order [start a; iend a; start b; iend b; x]. Qed.

Lemma within_spec a b x : within a b = true -> contains a x = true -> contains b x = true.
Proof. unfold_interval. interval_order [start a; iend a; start b; iend b; x]. Qed.

(** Where the starts and the ends lie when neither interval contains the other. *)
Lemma overlap_spec a b x :
  within a b = false -> within b a = false ->
  (precedes a b = true -> (after_start b x = true -> after_start a x = true) /\
                          (before_end a x = true -> before_end b x = true)) /\
  (precedes a b = false -> (after_start a x = true -> after_start b x = true) /\
                           (before_end b x = true -> before_end a x = true)).
Proof. unfold_interval. interval_order [start a; iend a; start b; iend b; x]. Qed.

Lemma precedes_spec a b x y :
  ascending a = true -> ascending b = true -> intersects a b = false -> precedes a b = true ->
  contains a x = true -> contains b y = true -> (cmpv x y <? 0) = true.
Proof. unfold_interval. interval_order [start a; iend a; start b; iend b; x; y]. Qed.

Lemma succeeds_spec a b x y :
  ascending a = true -> ascending b = true -> intersects a b = false -> precedes a b = false ->
  contains a x = true -> contains b y = true -> (cmpv y x <? 0) = true.
Proof. unfold_interval. interval_order [start a; iend a; start b; iend b; x; y]. Qed.

Lemma default_contains_nothing x : contains Interval_default x = false.
Proof.
  unfold contains, after_start, before_end. simpl. rewrite !andb_false_r, !orb_false_r.
  to_ranks [elt_eoo; x]. lia.
Qed.

Lemma union_spec a b x :
  intersects a b = true -> ascending a = true -> ascending b = true ->
  (after_start a x || after_start b x) && (before_end a x || before_end b x) = contains a x || contains b x.
Proof. unfold_interval. interval_order [start a; iend a; start b; iend b; x]. Qed.

Lemma starts_ordered a b x : precedes a b = true -> after_start b x = true -> after_start a x = true.
Proof. unfold_interval. interval_order [start a; start b; x]. Qed.

Lemma starts_ordered' a b x : precedes a b = false -> after_start a x = true -> after_start b x = true.
Proof. unfold_interval. interval_order [start a; start b; x]. Qed.

(** The end of an interval that lies apart and first. *)
Lemma ends_ordered a b x :
  ascending a = true -> ascending b = true -> intersects a b = false -> precedes a b = true ->
  before_end a x = true -> before_end b x = true.
Proof. unfold_interval. interval_order [start a; iend a; start b; iend b; x]. Qed.

Lemma ends_ordered' a b x :
  ascending a = true -> ascending b = true -> intersects a b = false -> precedes a b = false ->
  before_end b x = true -> before_end a x = true.
Proof. unfold_interval. interval_order [start a; iend a; start b; iend b; x]. Qed.

Lemma within_ends a b x :
  within a b = true ->
  (after_start a x = true -> after_start b x = true) /\ (before_end a x = true -> before_end b x = true).
Proof. unfold_interval. interval_order [start a; iend a; start b; iend b; x]. Qed.

Lemma equals_ends a b x :
  equals a b = true -> after_start a x = after_start b x /\ before_end a x = before_end b x.
Proof. unfold_interval. interval_order [start a; iend a; start b; iend b; x]. Qed.

(** [compare] tells how the elements of two intervals lie: equal sets, inclusion in either
    direction, overlap with the first one starting and ending first or last, or separation
    with every element of one before every element of the other. *)
Theorem compare_meaning a b :
  ascending a = true -> ascending b = true ->
  match compare a b with
  | INTERVAL_EQUALS => forall x, contains a x = contains b x
  | INTERVAL_WITHIN => forall x, contains a x = true -> contains b x = true
  | INTERVAL_CONTAINS => forall x, contains b x = true -> contains a x = true
  | INTERVAL_OVERLAPS_BEFORE => forall x,
      (after_start b x = true -> after_start a x = true) /\ (before_end a x = true -> before_end b x = true)
  | INTERVAL_OVERLAPS_AFTER => forall x,
      (after_start a x = true -> after_start b x = true) /\ (before_end b x = true -> before_end a x = true)
  | INTERVAL_PRECEDES | INTERVAL_PRECEDES_COULD_UNION => forall x y,
      contains a x = true -> contains b y = true -> cmpv x y < 0
  | INTERVAL_SUCCEEDS => forall x y, contains a x = true -> contains b y = true -> cmpv y x < 0
  | INTERVAL_UNKNOWN => False
  end.
Proof.
  intros Ha Hb. unfold compare. destruct (intersects a b) eqn:Hi.
  - destruct (equals a b) eqn:He; [intros x; by apply equals_spec|].
    destruct (within a b) eqn:Hw; [intros x; by apply within_spec|].
    destruct (within b a) eqn:Hw'; [intros x; by apply within_spec|].
    destruct (precedes a b) eqn:Hp; intros x; by apply (overlap_spec a b x).
  - destruct (precedes a b) eqn:Hp; [case_if|]; intros x y Hx Hy; apply Z.ltb_lt;
      (by apply (precedes_spec a b)) || (by apply (succeeds_spec a b)).
Qed.

(** [intersect] computes the intersection of the two sets of elements.  The one comparison it
    does not handle, and aborts on, is that of adjacent intervals. *)
Theorem intersect_exact a b :
  ascending a = true -> ascending b = true ->
  match intersect a b INTERVAL_UNKNOWN with
  | Some i => forall x, contains i x = contains a x && contains b x
  | None => compare a b = INTERVAL_PRECEDES_COULD_UNION
  end.
Proof.
  intros Ha Hb. unfold intersect, compare. destruct (intersects a b) eqn:Hi.
  - destruct (equals a b) eqn:He.
    { intros x. pose proof (equals_ends a b x He). unfold contains. ends_cases a b x. }
    destruct (within a b) eqn:Hw.
    { intros x. pose proof (within_ends a b x Hw). unfold contains. ends_cases a b x. }
    destruct (within b a) eqn:Hw'.
    { intros x. pose proof (within_ends b a x Hw'). change (after_start b x && before_end b x = contains a x && contains b x).
      unfold contains. ends_cases a b x. }
    destruct (precedes a b) eqn:Hp; intros x; destruct (overlap_spec a b x Hw Hw') as [H1 H2].
    + specialize (H1 Hp). change (after_start b x && before_end a x = contains a x && contains b x).
      unfold contains. ends_cases a b x.
    + specialize (H2 Hp). change (after_start a x && before_end b x = contains a x && contains b x).
      unfold contains. ends_cases a b x.
  - destruct (precedes a b); [destruct (_ && _); [done|]|]; intros x;
      by rewrite default_contains_nothing, disjoint_spec.
Qed.

(** [combine] computes the smallest interval around both, which is their union when they
    intersect.  It aborts on adjacent intervals too. *)
Theorem combine_hull a b :
  ascending a = true -> ascending b = true ->
  match combine a b INTERVAL_UNKNOWN with
  | Some i => forall x,
      contains i x = (after_start a x || after_start b x) && (before_end a x || before_end b x) /\
      (intersects a b = true -> contains i x = contains a x || contains b x)
  | None => compare a b = INTERVAL_PRECEDES_COULD_UNION
  end.
Proof.
  intros Ha Hb.
  assert (match combine a b INTERVAL_UNKNOWN with
    | Some i => forall x, contains i x = (after_start a x || after_start b x) && (before_end a x || before_end b x)
    | None => compare a b = INTERVAL_PRECEDES_COULD_UNION end) as Hc.
  { unfold combine, compare. destruct (intersects a b) eqn:Hi.
    - destruct (equals a b) eqn:He.
      { intros x. pose proof (equals_ends a b x He). unfold contains. ends_cases a b x. }
      destruct (within a b) eqn:Hw.
      { intros x. pose proof (within_ends a b x Hw). change (contains _ x) with (after_start b x && before_end b x).
        ends_cases a b x. }
      destruct (within b a) eqn:Hw'.
      { intros x. pose proof (within_ends b a x Hw'). unfold contains. ends_cases a b x. }
      destruct (precedes a b) eqn:Hp; intros x; destruct (overlap_spec a b x Hw Hw') as [H1 H2].
      + specialize (H1 Hp). change (contains _ x) with (after_start a x && before_end b x). ends_cases a b x.
      + specialize (H2 Hp). change (contains _ x) with (after_start b x && before_end a x). ends_cases a b x.
    - destruct (precedes a b) eqn:Hp; [destruct (_ && _); [done|]|]; intros x.
      + pose proof (starts_ordered a b x Hp). pose proof (ends_ordered a b x Ha Hb Hi Hp).
        change (contains _ x) with (after_start a x && before_end b x). ends_cases a b x.
      + pose proof (starts_ordered' a b x Hp). pose proof (ends_ordered' a b x Ha Hb Hi Hp).
        change (contains _ x) with (after_start b x && before_end a x). ends_cases a b x. }
  destruct (combine a b INTERVAL_UNKNOWN) as [i|]; [|done]. intros x. split; [done|].
  intros Hi. rewrite Hc. by apply union_spec.
Qed.
End meaning.

(** ** Examples over BSON *)

Definition eltA : list Z * BSONValue := ([], vNumber (NumInt (mkInt32 3 eq_refl))).
Definition eltB : list Z * BSONValue := ([], vNumber (NumDouble (mkDouble (DFin 13 (-1)) eq_refl))).
Definition eltC : list Z * BSONValue := ([], vNumber (NumLong (mkInt64 8 eq_refl))).

(** [[3, 6.5)] and [[6.5, 8]]. *)
Definition ivAB : Interval (list Z * BSONValue) := mkInterval [eltA; eltB] eltA true eltB false.
Definition ivBC : Interval (list Z * BSONValue) := mkInterval [eltB; eltC] eltB true eltC true.
Definition ivAC : Interval (list Z * BSONValue) := mkInterval [eltA; eltC] eltA false eltC false.

Lemma compare_meaning_witness :
  compare ivAB ivBC = INTERVAL_PRECEDES_COULD_UNION /\
  forall x y, contains ivAB x = true -> contains ivBC y = true -> cmpv x y < 0.
Proof.
  assert (compare ivAB ivBC = INTERVAL_PRECEDES_COULD_UNION) as E by (vm_compute; reflexivity).
  pose proof (compare_meaning ivAB ivBC) as H. rewrite E in H.
  split; [exact E|apply H; vm_compute; reflexivity].
Defined.

Lemma intersect_exact_witness :
  intersect ivAC ivBC INTERVAL_UNKNOWN = Some (mkInterval [eltB; eltC] eltB true eltC false) /\
  forall x, contains (mkInterval [eltB; eltC] eltB true eltC false) x = contains ivAC x && contains ivBC x.
Proof.
  assert (intersect ivAC ivBC INTERVAL_UNKNOWN = Some (mkInterval [eltB; eltC] eltB true eltC false)) as E
    by (vm_compute; reflexivity).
  pose proof (intersect_exact ivAC ivBC) as H. rewrite E in H.
  split; [exact E|apply H; vm_compute; reflexivity].
Defined.

Lemma combine_hull_witness :
  combine ivAC ivBC INTERVAL_UNKNOWN = Some (mkInterval [eltA; eltC] eltA false eltC true) /\
  forall x, contains (mkInterval [eltA; eltC] eltA false eltC true) x = contains ivAC x || contains ivBC x.
Proof.
  assert (combine ivAC ivBC INTERVAL_UNKNOWN = Some (mkInterval [eltA; eltC] eltA false eltC true)) as E
    by (vm_compute; reflexivity).
  pose proof (combine_hull ivAC ivBC) as H. rewrite E in H.
  split; [exact E|]. intros x. apply H; vm_compute; reflexivity.
Defined.
