(* ===== verification/IndexBounds.v ===== *)
(** * Index bounds

    Models [struct OrderedIntervalList] and [struct IndexBounds] of [db/query/index_bounds.h]
    and [index_bounds.cpp].  The theorems show that [complement] computes the complement
    of a valid list and keeps it valid, and that reversing a list keeps its elements. *)

From Stdlib Require Import ZArith Lia.
From stdpp Require Import prelude.
From S2P Require Import Prelude TotalOrder CompareNumbers Bson ElementOrder Interval.

Open Scope Z_scope.

(** The sign of a comparison. *)
Definition sgn (i : Z) : Z := if i =? 0 then 0 else if 0 <? i then 1 else -1.

Lemma sgn_spec i : sgn i = Z.sgn i.
Proof. unfold sgn. repeat case_if; bprop; lia. Qed.

Lemma sgn_eqb i : (sgn i =? 0) = (i =? 0) /\ (sgn i =? 1) = (0 <? i) /\ (sgn i =? -1) = (i <? 0).
Proof. unfold sgn. repeat case_if; lia. Qed.

Lemma sgn_eqb_0 i : (sgn i =? 0) = (i =? 0).
Proof. apply sgn_eqb. Qed.

Lemma sgn_eqb_1 i : (sgn i =? 1) = (0 <? i).
Proof. apply sgn_eqb. Qed.

Lemma sgn_eqb_m1 i : (sgn i =? -1) = (i <? 0).
Proof. apply sgn_eqb. Qed.

Inductive BoundInclusion :=
| kExcludeBothStartAndEndKeys
| kIncludeStartKeyOnly
| kIncludeEndKeyOnly
| kIncludeBothStartAndEndKeys.

#[global] Instance BoundInclusion_eq_dec : EqDecision BoundInclusion.
Proof. solve_decision. Defined.

Definition isStartIncludedInBound (b : BoundInclusion) : bool :=
  bool_decide (b = kIncludeBothStartAndEndKeys) || bool_decide (b = kIncludeStartKeyOnly).

Definition isEndIncludedInBound (b : BoundInclusion) : bool :=
  bool_decide (b = kIncludeBothStartAndEndKeys) || bool_decide (b = kIncludeEndKeyOnly).

Definition makeBoundInclusionFromBoundBools (startKeyInclusive endKeyInclusive : bool) : BoundInclusion :=
  if startKeyInclusive then
    if endKeyInclusive then kIncludeBothStartAndEndKeys else kIncludeStartKeyOnly
  else
    if endKeyInclusive then kIncludeEndKeyOnly else kExcludeBothStartAndEndKeys.

Definition reverseBoundInclusion (b : BoundInclusion) : BoundInclusion :=
  match b with
  | kIncludeStartKeyOnly => kIncludeEndKeyOnly
  | kIncludeEndKeyOnly => kIncludeStartKeyOnly
  | kIncludeBothStartAndEndKeys | kExcludeBothStartAndEndKeys => b
  end.

Section IndexBounds.
Context `{EO : ElementOrder E}.
Implicit Types x y : E.

(** ** Ordered interval lists *)

Record OrderedIntervalList := mkOrderedIntervalList {
  intervals : list (Interval E);
  oil_name : list Z;
}.

(** [operator==]; [operator==] of intervals is [equals]. *)
Fixpoint intervals_eq (l l' : list (Interval E)) : bool :=
  match l, l' with
  | [], [] => true
  | i :: l, i' :: l' => if negb (equals i i') then false else intervals_eq l l'
  | _, _ => false
  end.

Definition oil_eq (this other : OrderedIntervalList) : bool :=
  if negb (bool_decide (oil_name this = oil_name other)) then false
  else if negb (length (intervals this) =? length (intervals other))%nat then false
  else intervals_eq (intervals this) (intervals other).

(** One turn of the loop of [reverse], at index [i]. *)
Definition reverse_step (l : list (Interval E)) (i : nat) : list (Interval E) :=
  let otherIdx := (length l - i - 1)%nat in
  let l := alter reverse i l in
  if (i =? otherIdx)%nat then l
  else
    let l := alter reverse otherIdx l in
    match l !! i, l !! otherIdx with
    | Some a, Some b => <[otherIdx := a]> (<[i := b]> l)
    | _, _ => l
    end.

Definition oil_reverse (oil : OrderedIntervalList) : OrderedIntervalList :=
  mkOrderedIntervalList
    (foldl reverse_step (intervals oil) (seq 0 ((length (intervals oil) + 1) / 2))) (oil_name oil).

Definition oil_reverseClone (oil : OrderedIntervalList) : OrderedIntervalList :=
  mkOrderedIntervalList (reverseClone <$> list.reverse (intervals oil)) (oil_name oil).

Fixpoint direction_of (l : list (Interval E)) : option Direction :=
  match l with
  | [] => Some kDirectionNone
  | iv :: l =>
      dir ← getDirection iv;
      match dir with
      | kDirectionNone => direction_of l
      | _ => Some dir
      end
  end.

Definition computeDirection (oil : OrderedIntervalList) : option Direction := direction_of (intervals oil).

(** An interval built from its two ends. *)
Definition make_interval (s : E) (si : bool) (e : E) (ei : bool) : Interval E := mkInterval [s; e] s si e ei.

(** The loop of [complement] with its two variables. *)
Fixpoint complement_from (curBoundary : E) (curInclusive : bool) (l : list (Interval E)) : list (Interval E) :=
  match l with
  | [] =>
      if negb (elt_compare true elt_maxKey curBoundary =? 0) || negb curInclusive
      then [make_interval curBoundary (negb curInclusive) elt_maxKey true] else []
  | curInt :: l =>
      let isProvablyEmptyRange :=
        bool_decide (elt_type curBoundary = Undefined) && curInclusive &&
        bool_decide (elt_type (start curInt) = jstNULL) && startInclusive curInt in
      let rest := complement_from (iend curInt) (endInclusive curInt) l in
      if (negb (elt_compare true (start curInt) curBoundary =? 0) ||
          (negb curInclusive && negb (startInclusive curInt))) && negb isProvablyEmptyRange
      then make_interval curBoundary (negb curInclusive) (start curInt) (negb (startInclusive curInt)) :: rest
      else rest
  end.

Definition complement (oil : OrderedIntervalList) : OrderedIntervalList :=
  mkOrderedIntervalList (complement_from elt_minKey false (intervals oil)) (oil_name oil).

(** [isValidFor]: each interval is oriented, and each starts where the one before ends or later. *)
Definition interval_valid (expectedOrientation : Z) (i : Interval E) : bool :=
  let cmp := sgn (cmpv (iend i) (start i)) in
  if (cmp =? 0) && startInclusive i && endInclusive i then true
  else cmp =? expectedOrientation.

Fixpoint neighbours_valid (expectedOrientation : Z) (l : list (Interval E)) : bool :=
  match l with
  | i :: ((j :: _) as l) =>
      let cmp := sgn (cmpv (start j) (iend i)) in
      if (cmp =? 0) || (cmp =? expectedOrientation) then neighbours_valid expectedOrientation l else false
  | _ => true
  end.

Definition oil_isValidFor (oil : OrderedIntervalList) (expectedOrientation : Z) : bool :=
  forallb (interval_valid expectedOrientation) (intervals oil) &&
  neighbours_valid expectedOrientation (intervals oil).

(** ** Bounds *)

Record IndexBounds := mkIndexBounds {
  fields : list OrderedIntervalList;
  isSimpleRange : bool;
  startKey : list E;
  endKey : list E;
  boundInclusion : BoundInclusion;
}.

Definition IndexBounds_default : IndexBounds := mkIndexBounds [] false [] [] kIncludeStartKeyOnly.

Fixpoint fields_eq (l l' : list OrderedIntervalList) : bool :=
  match l, l' with
  | [], [] => true
  | f :: l, f' :: l' => if negb (oil_eq f f') then false else fields_eq l l'
  | _, _ => false
  end.

Definition bounds_eq (this other : IndexBounds) : bool :=
  if negb (Bool.eqb (isSimpleRange this) (isSimpleRange other)) then false
  else if isSimpleRange this then
    (obj_woCompare true [] (startKey this) (startKey other) =? 0) &&
    (obj_woCompare true [] (endKey this) (endKey other) =? 0) &&
    bool_decide (boundInclusion this = boundInclusion other)
  else if negb (length (fields this) =? length (fields other))%nat then false
  else fields_eq (fields this) (fields other).

Definition getFieldName (b : IndexBounds) (i : nat) : list Z := from_option oil_name [] (fields b !! i).

Definition getNumIntervals (b : IndexBounds) (i : nat) : nat :=
  from_option (fun f => length (intervals f)) 0%nat (fields b !! i).

Definition getInterval (b : IndexBounds) (i j : nat) : Interval E :=
  default Interval_default (f ← fields b !! i; intervals f !! j).

(** The transformation of one field by [forwardize]. *)
Definition forwardize_field (oil : OrderedIntervalList) : option OrderedIntervalList :=
  dir ← computeDirection oil;
  Some (match dir with kDirectionDescending => oil_reverseClone oil | _ => oil end).

Definition forwardize (b : IndexBounds) : option IndexBounds :=
  if isSimpleRange b then
    let cmpRes := obj_woCompare true [] (startKey b) (endKey b) in
    Some (if cmpRes <=? 0
          then mkIndexBounds [] true (startKey b) (endKey b) (boundInclusion b)
          else mkIndexBounds [] true (endKey b) (startKey b) (reverseBoundInclusion (boundInclusion b)))
  else
    fs ← mapM forwardize_field (fields b);
    Some (mkIndexBounds fs false [] [] kIncludeStartKeyOnly).

Definition bounds_reverse (b : IndexBounds) : IndexBounds :=
  if isSimpleRange b
  then mkIndexBounds (fields b) true (endKey b) (startKey b) (reverseBoundInclusion (boundInclusion b))
  else mkIndexBounds (oil_reverse <$> fields b) false (startKey b) (endKey b) (boundInclusion b).

(** The loop of [IndexBounds::isValidFor] over the fields and the key pattern. *)
Fixpoint fields_valid (fs : list OrderedIntervalList) (keyPattern : list E) (direction : Z) : bool :=
  match fs, keyPattern with
  | [], [] => true
  | [], _ :: _ => false
  | _ :: _, [] => false
  | field :: fs, elt :: keyPattern =>
      if negb (bool_decide (oil_name field = elt_name elt)) then false
      else
        let expectedOrientation := direction * (if elt_nonneg elt then 1 else -1) in
        if negb (oil_isValidFor field expectedOrientation) then false
        else fields_valid fs keyPattern direction
  end.

Definition bounds_isValidFor (b : IndexBounds) (keyPattern : list E) (direction : Z) : bool :=
  if isSimpleRange b
  then direction =? sgn (obj_woCompare false (elt_neg <$> keyPattern) (endKey b) (startKey b))
  else fields_valid (fields b) keyPattern direction.

(** ** Complement *)

Definition oil_contains (oil : OrderedIntervalList) x : bool := existsb (fun i => contains i x) (intervals oil).

(** The elements after a boundary that the boundary's interval does not include. *)
Definition beyond (b : E) (inclusive : bool) x : bool := (cmpv b x <? 0) || (cmpv b x =? 0) && negb inclusive.

Definition unnamed (i : Interval E) : Prop := elt_name (start i) = [] /\ elt_name (iend i) = [].

(** A list of valid intervals that starts at [b] or later. *)
Fixpoint chain (b : E) (l : list (Interval E)) : Prop :=
  match l with
  | [] => True
  | i :: l => cmpv b (start i) <= 0 /\ interval_valid 1 i = true /\ unnamed i /\ chain (iend i) l
  end.

Lemma interval_valid_ascending i : interval_valid 1 i = ascending i.
Proof.
  unfold interval_valid, ascending, isPoint. rewrite sgn_eqb_0, sgn_eqb_1. interval_order [start i; iend i].
Qed.

Lemma interval_chain i x : interval_valid 1 i = true -> cmpv (iend i) x <= 0 -> after_start i x = true.
Proof.
  rewrite interval_valid_ascending. intros Hv Hx. apply Z.leb_le in Hx. revert Hv Hx.
  unfold_interval. replace (cmpv (iend i) x <=? 0) with (negb (0 <? cmpv (iend i) x)) by lia.
  interval_order [start i; iend i; x].
Qed.

Lemma chain_contains b l x : chain b l -> existsb (fun i => contains i x) l = true -> cmpv b x <= 0.
Proof.
  revert b. induction l as [|i l IH]; intros b; simpl; [done|]. intros (Hb & Hv & _ & Hl) Hx.
  apply orb_true_iff in Hx as [Hx|Hx].
  - unfold contains, after_start in Hx. unfold cmpv in *. order [b; start i; x]. bprop. lia.
  - pose proof (IH _ Hl Hx) as Hi. apply interval_chain in Hi; [|done]. unfold after_start in Hi.
    unfold cmpv in *. order [b; start i; x]. bprop. lia.
Qed.

(** The interval from a boundary to the start of [i]. *)
Lemma gap_contains b inc i x :
  contains (make_interval b (negb inc) (start i) (negb (startInclusive i))) x =
  beyond b inc x && negb (after_start i x).
Proof.
  unfold contains, beyond, after_start, before_end, make_interval. cbn [start startInclusive iend endInclusive].
  destruct inc; interval_order [b; start i; x].
Qed.

(** When [complement] adds no interval, there is nothing in between. *)
Lemma no_gap b inc i x :
  elt_name b = [] -> unnamed i ->
  ((negb (elt_compare true (start i) b =? 0) || (negb inc && negb (startInclusive i))) &&
   negb (bool_decide (elt_type b = Undefined) && inc &&
         bool_decide (elt_type (start i) = jstNULL) && startInclusive i)) = false ->
  beyond b inc x && negb (after_start i x) = false.
Proof.
  intros Hb [Hs _]. rewrite elt_same_name by congruence. change (elt_compare false (start i) b) with (cmpv (start i) b).
  destruct (bool_decide (elt_type b = Undefined) && inc && bool_decide (elt_type (start i) = jstNULL) && startInclusive i) eqn:Ep.
  - intros _. bprop. apply not_true_iff_false. intros Hx. unfold beyond, after_start, cmpv in Hx.
    rewrite H2, H0, andb_false_r, orb_false_r, andb_true_r in Hx. bprop.
    apply (elt_undefined_null b (start i) x); [done..|]. pose proof (cmp_flip (start i) x). lia.
  - rewrite andb_true_r. clear Ep. unfold beyond, after_start. destruct inc; interval_order [b; start i; x].
Qed.

(** Before its start nothing is past its end; past its end an element is beyond [b]. *)
Lemma valid_ends b inc i x :
  interval_valid 1 i = true -> cmpv b (start i) <= 0 ->
  (after_start i x = false -> before_end i x = true) /\
  (before_end i x = false -> beyond b inc x = true) /\
  beyond (iend i) (endInclusive i) x = negb (before_end i x).
Proof.
  rewrite interval_valid_ascending. intros Hv Hb. assert (negb (0 <? cmpv b (start i)) = true) as Hb' by lia.
  revert Hv Hb'. unfold_interval. unfold beyond. destruct inc; interval_order [b; start i; iend i; x].
Qed.

Lemma complement_from_contains b inc l x :
  chain b l -> elt_name b = [] ->
  existsb (fun i => contains i x) (complement_from b inc l) =
  beyond b inc x && negb (existsb (fun i => contains i x) l).
Proof.
  revert b inc. induction l as [|i l IH]; intros b inc Hc Hb.
  - cbn [complement_from]. rewrite elt_same_name by by rewrite Hb, elt_maxKey_name.
    change (elt_compare false elt_maxKey b) with (cmpv elt_maxKey b).
    pose proof (elt_greatest x elt_maxKey elt_maxKey_type) as Hmax.
    assert (negb (0 <? cmpv x elt_maxKey) = true) as Hmax' by (unfold cmpv; lia).
    assert (forall c : bool, existsb (fun i => contains i x) (if c then [make_interval b (negb inc) elt_maxKey true] else []) =
      c && contains (make_interval b (negb inc) elt_maxKey true) x) as -> by by intros []; simpl; rewrite ?orb_false_r.
    revert Hmax'. unfold contains, after_start, before_end, beyond, make_interval. simpl existsb.
    cbn [start startInclusive iend endInclusive]. destruct inc; interval_order [b; elt_maxKey; x].
  - destruct Hc as (Hle & Hv & Hu & Hc). cbn [complement_from existsb].
    destruct (valid_ends b inc i x Hv Hle) as (F1 & F3 & Eb).
    assert (existsb (fun i => contains i x) l = true -> after_start i x = true) as F2.
    { intros Hx. apply interval_chain; [done|]. by eapply chain_contains. }
    specialize (IH (iend i) (endInclusive i) Hc (proj2 Hu)). rewrite Eb in IH.
    case_if; cbn [existsb]; rewrite IH, ?gap_contains; [|apply no_gap with (x := x) in Heqb0; try done; revert Heqb0].
    all: unfold contains at 1 2; revert F1 F2 F3; try unfold contains at 1;
      destruct (after_start i x), (before_end i x), (beyond b inc x), (existsb _ l); simpl; intuition congruence.
Qed.

Lemma chain_weaken b b' l : cmpv b b' <= 0 -> chain b' l -> chain b l.
Proof.
  destruct l as [|i l]; [done|]. intros Hb (Hle & ?). split; [|done]. unfold cmpv in *. by eapply cmp_trans.
Qed.

Lemma valid_start_end i : interval_valid 1 i = true -> cmpv (start i) (iend i) <= 0.
Proof. rewrite interval_valid_ascending. unfold ascending, isPoint. intros H. bprop. destruct H; bprop; lia. Qed.

Lemma complement_from_chain b inc l : chain b l -> elt_name b = [] -> chain b (complement_from b inc l).
Proof.
  revert b inc. induction l as [|i l IH]; intros b inc Hc Hb.
  - cbn [complement_from]. rewrite elt_same_name by by rewrite Hb, elt_maxKey_name. case_if; [|done].
    pose proof (elt_greatest b elt_maxKey elt_maxKey_type). split_and!; [unfold cmpv; simpl; by rewrite cmp_refl| |split; [done|apply elt_maxKey_name]|done].
    rewrite interval_valid_ascending. unfold ascending, isPoint, make_interval, cmpv. cbn [start iend startInclusive endInclusive].
    pose proof (cmp_flip b elt_maxKey). destruct inc; cbn [negb andb orb] in *; rewrite ?orb_false_r, ?orb_true_r in *; lia.
  - destruct Hc as (Hle & Hv & [Hs He] & Hc). cbn [complement_from]. pose proof (valid_start_end i Hv).
    specialize (IH (iend i) (endInclusive i) Hc He).
    case_if; [|eapply chain_weaken; [|exact IH]; unfold cmpv in *; by eapply cmp_trans].
    split_and!; [unfold cmpv; simpl; by rewrite cmp_refl| |by split|by eapply chain_weaken].
    rewrite elt_same_name in Heqb0 by congruence. rewrite interval_valid_ascending.
    unfold ascending, isPoint, make_interval. cbn [start iend startInclusive endInclusive].
    apply andb_true_iff in Heqb0 as [Hgap _]. unfold cmpv in *.
    pose proof (cmp_flip b (start i)). destruct inc, (startInclusive i); cbn [negb andb orb] in *; rewrite ?orb_false_r, ?orb_true_r in *; lia.
Qed.

(** A valid ascending list of unnamed intervals, as a chain. *)
Lemma valid_chain oil :
  oil_isValidFor oil 1 = true -> Forall unnamed (intervals oil) -> chain elt_minKey (intervals oil).
Proof.
  unfold oil_isValidFor. destruct oil as [l n]. cbn [intervals]. intros [Hv Hn]%andb_true_iff Hu.
  assert (forall b, match l with [] => True | i :: _ => cmpv b (start i) <= 0 end -> chain b l) as Hch;
    [|apply Hch; destruct l as [|i l]; [done|]; apply elt_least, elt_minKey_type].
  induction Hu as [|i l Hi Hu IH]; intros b Hb; [done|].
  simpl in Hv. apply andb_true_iff in Hv as [Hvi Hv]. split_and!; [done|done|done|].
  destruct l as [|j l]; [done|]. cbn [neighbours_valid] in Hn.
  rewrite sgn_eqb_0, sgn_eqb_1 in Hn. case_if; [|done]. apply IH; [done|done|].
  unfold cmpv in *. pose proof (cmp_flip (start j) (iend i)). lia.
Qed.

Lemma chain_valid b oil : chain b (intervals oil) -> oil_isValidFor oil 1 = true /\ Forall unnamed (intervals oil).
Proof.
  unfold oil_isValidFor. destruct oil as [l n]. cbn [intervals]. revert b. induction l as [|i l IH]; intros b; [done|].
  intros (Hb & Hv & Hu & Hc). destruct (IH _ Hc) as [[H1 H2]%andb_true_iff H3]. split; [|by constructor].
  apply andb_true_iff. split; [by apply andb_true_iff|]. destruct l as [|j l]; [done|].
  cbn [neighbours_valid]. rewrite sgn_eqb_0, sgn_eqb_1. destruct Hc as (Hj & _). unfold cmpv in *.
  pose proof (cmp_flip (start j) (iend i)).
  replace ((elt_compare false (start j) (iend i) =? 0) || (0 <? elt_compare false (start j) (iend i))) with true by lia. done.
Qed.

(** [complement] of a valid ascending list of intervals contains exactly the elements the
    list does not contain, and it is again a valid ascending list. *)
Theorem complement_exact oil :
  oil_isValidFor oil 1 = true -> Forall unnamed (intervals oil) ->
  (forall x, oil_contains (complement oil) x = negb (oil_contains oil x)) /\
  oil_isValidFor (complement oil) 1 = true /\ Forall unnamed (intervals (complement oil)).
Proof.
  intros Hv Hu. pose proof (valid_chain oil Hv Hu) as Hc. split.
  - intros x. unfold oil_contains, complement. cbn [intervals].
    rewrite complement_from_contains by (done || apply elt_minKey_name).
    replace (beyond elt_minKey false x) with true; [done|]. symmetry. unfold beyond, cmpv.
    pose proof (elt_least elt_minKey x elt_minKey_type). lia.
  - apply (chain_valid elt_minKey). apply complement_from_chain; [done|apply elt_minKey_name].
Qed.

(** ** Reversing *)

(** The loop of [reverse] after [k] turns: the first and the last [k] places are done. *)
Definition reversed_upto (k : nat) (l0 l : list (Interval E)) : Prop :=
  length l = length l0 /\
  forall j, (j < length l0)%nat ->
    l !! j = if decide (j < k \/ length l0 - k <= j)%nat
             then reverse <$> l0 !! (length l0 - 1 - j)%nat else l0 !! j.

Lemma reverse_step_upto k l0 l :
  (2 * k < length l0)%nat -> reversed_upto k l0 l -> reversed_upto (S k) l0 (reverse_step l k).
Proof.
  intros Hk [Hlen Hl]. unfold reverse_step. rewrite Hlen.
  assert (l !! k = l0 !! k) as Ek by (rewrite Hl by lia; case_decide; [lia|done]).
  assert (l !! (length l0 - k - 1)%nat = l0 !! (length l0 - k - 1)%nat) as Eo
    by (rewrite Hl by lia; case_decide; [lia|done]).
  destruct (lookup_lt_is_Some_2 l0 k) as [a Ha]; [lia|].
  destruct (lookup_lt_is_Some_2 l0 (length l0 - k - 1)) as [b Hb]; [lia|].
  destruct (Nat.eqb_spec k (length l0 - k - 1)) as [Emid|Nmid].
  - split; [by rewrite length_alter|]. intros j Hj. destruct (decide (j = k)) as [->|Hne].
    + rewrite list_lookup_alter_eq, Ek. case_decide; [|lia]. by replace (length l0 - 1 - k)%nat with k by lia.
    + rewrite list_lookup_alter_ne, Hl by done. repeat case_decide; done || lia.
  - set (l1 := alter reverse (length l0 - k - 1)%nat (alter reverse k l)).
    assert (l1 !! k = Some (reverse a)) as H1.
    { unfold l1. rewrite list_lookup_alter_ne by done. rewrite list_lookup_alter_eq, Ek, Ha. done. }
    assert (l1 !! (length l0 - k - 1)%nat = Some (reverse b)) as H2.
    { unfold l1. rewrite list_lookup_alter_eq, list_lookup_alter_ne, Eo, Hb by done. done. }
    rewrite H1, H2. assert (length l1 = length l0) as Hl1 by (unfold l1; by rewrite !length_alter).
    split; [by rewrite !length_insert|]. intros j Hj.
    destruct (decide (j = length l0 - k - 1)%nat) as [->|N1].
    { rewrite list_lookup_insert_eq by (rewrite length_insert; lia). case_decide; [|lia].
      replace (length l0 - 1 - (length l0 - k - 1))%nat with k by lia. by rewrite Ha. }
    rewrite list_lookup_insert_ne by done. destruct (decide (j = k)) as [->|N2].
    { rewrite list_lookup_insert_eq by lia. case_decide; [|lia].
      replace (length l0 - 1 - k)%nat with (length l0 - k - 1)%nat by lia. by rewrite Hb. }
    rewrite list_lookup_insert_ne by done. unfold l1. rewrite !list_lookup_alter_ne, Hl by done.
    repeat case_decide; done || lia.
Qed.

Lemma reverse_loop k l0 :
  (2 * k <= length l0 + 1)%nat -> reversed_upto k l0 (foldl reverse_step l0 (seq 0 k)).
Proof.
  induction k as [|k IH]; intros Hk.
  - split; [done|]. intros j Hj. case_decide; [lia|done].
  - rewrite seq_S, foldl_app. simpl. apply reverse_step_upto; [lia|]. apply IH. lia.
Qed.

Lemma oil_reverse_clone oil : oil_reverse oil = oil_reverseClone oil.
Proof.
  destruct oil as [l n]. unfold oil_reverse, oil_reverseClone. cbn [intervals oil_name]. f_equal.
  pose proof (Nat.div_mod (length l + 1) 2 ltac:(lia)) as Hdm. pose proof (Nat.mod_upper_bound (length l + 1) 2 ltac:(lia)).
  destruct (reverse_loop ((length l + 1) / 2) l) as [Hlen Hl]; [lia|].
  apply list_eq. intros j. rewrite list_lookup_fmap.
  destruct (decide (j < length l)%nat) as [Hj|Hj].
  - rewrite Hl by done. rewrite reverse_lookup by done. case_decide; [|lia].
    by replace (length l - 1 - j)%nat with (length l - S j)%nat by lia.
  - rewrite (proj2 (lookup_ge_None _ _)) by lia. symmetry. apply fmap_None.
    apply lookup_ge_None. rewrite length_reverse. lia.
Qed.

Lemma interval_reverse_involutive (i : Interval E) : reverse (reverse i) = i.
Proof. by destruct i. Qed.

Lemma oil_reverseClone_involutive oil : oil_reverseClone (oil_reverseClone oil) = oil.
Proof.
  destruct oil as [l n]. unfold oil_reverseClone. cbn [intervals oil_name]. f_equal.
  rewrite (fmap_reverse reverseClone l), reverse_involutive, <- list_fmap_compose. rewrite <- (list_fmap_id l) at 2.
  apply list_fmap_ext. intros _ i _. apply interval_reverse_involutive.
Qed.

Definition neighbour_ok (d : Z) (i j : Interval E) : bool :=
  (sgn (cmpv (start j) (iend i)) =? 0) || (sgn (cmpv (start j) (iend i)) =? d).

Lemma neighbours_valid_lookup d l :
  neighbours_valid d l = true <->
  forall k i j, l !! k = Some i -> l !! S k = Some j -> neighbour_ok d i j = true.
Proof.
  induction l as [|i l IH]; [done|]. destruct l as [|j l].
  { split; [|done]. intros _ [|k] i' j' H1 H2; done. }
  change (neighbours_valid d (i :: j :: l)) with (if neighbour_ok d i j then neighbours_valid d (j :: l) else false).
  split.
  - intros Hv. destruct (neighbour_ok d i j) eqn:Hij; [|done]. rewrite IH in Hv.
    intros [|k] i' j' H1 H2; [by simplify_eq/=|]. by apply (Hv k).
  - intros Hv. rewrite (Hv 0%nat i j) by done. apply IH. intros k i' j' H1 H2. by apply (Hv (S k)).
Qed.

Lemma neighbour_ok_reverse d i j : neighbour_ok (- d) (reverse j) (reverse i) = neighbour_ok d i j.
Proof.
  unfold neighbour_ok. simpl. pose proof (cmp_flip (start j) (iend i)) as Hf. rewrite !sgn_spec. unfold cmpv in *.
  rewrite Hf. lia.
Qed.

Lemma interval_valid_reverse d i : interval_valid (- d) (reverse i) = interval_valid d i.
Proof.
  unfold interval_valid. cbn [reverse start iend startInclusive endInclusive]. rewrite !sgn_spec. unfold cmpv.
  pose proof (cmp_flip (start i) (iend i)) as Hf. rewrite Hf.
  replace (Z.sgn (elt_compare false (start i) (iend i)) =? 0) with
    (- Z.sgn (elt_compare false (start i) (iend i)) =? 0) by lia.
  destruct (startInclusive i), (endInclusive i); repeat case_if; lia.
Qed.

Lemma oil_reverse_valid d oil :
  oil_isValidFor oil d = true -> oil_isValidFor (oil_reverseClone oil) (- d) = true.
Proof.
  destruct oil as [l n]. unfold oil_isValidFor, oil_reverseClone. cbn [intervals].
  intros [Hv Hn]%andb_true_iff. apply andb_true_iff. split.
  - rewrite forallb_forall in *. intros i Hi. apply list_elem_of_In, list_elem_of_fmap in Hi as (j & -> & Hj).
    rewrite elem_of_reverse in Hj. change (reverseClone j) with (reverse j). rewrite interval_valid_reverse.
    by apply Hv, list_elem_of_In.
  - rewrite neighbours_valid_lookup in *. intros k i j. rewrite !list_lookup_fmap.
    intros (i0 & Hi & ->)%fmap_Some (j0 & Hj & ->)%fmap_Some.
    pose proof (lookup_lt_Some _ _ _ Hj) as Hlt. rewrite length_reverse in Hlt.
    rewrite reverse_lookup in Hi, Hj by lia.
    change (reverseClone i0) with (reverse i0). change (reverseClone j0) with (reverse j0).
    rewrite neighbour_ok_reverse. apply (Hn (length l - S (S k))%nat); [done|].
    by replace (S (length l - S (S k))) with (length l - S k)%nat by lia.
Qed.

(** The loop that reverses a list in place computes the reversed clone; reversing twice
    gives the list back, and a list valid in one direction becomes valid in the other. *)
Theorem oil_reverse_correct oil d :
  oil_reverse oil = oil_reverseClone oil /\ oil_reverse (oil_reverse oil) = oil /\
  oil_isValidFor (oil_reverse oil) (- d) = oil_isValidFor oil d.
Proof.
  rewrite !oil_reverse_clone. split_and!; [done|apply oil_reverseClone_involutive|].
  apply eq_true_iff_eq. split; [|apply oil_reverse_valid].
  intros H. apply oil_reverse_valid in H. by rewrite oil_reverseClone_involutive, Z.opp_involutive in H.
Qed.

(** ** Direction *)

(** The direction of an interval that is valid for [d]. *)
Lemma getDirection_valid d i :
  (d = 1 \/ d = -1) -> interval_valid d i = true ->
  getDirection i = Some kDirectionNone /\ (isEmpty i = false -> isPoint i = true) \/
  getDirection i = Some (if d =? 1 then kDirectionAscending else kDirectionDescending) /\
    isEmpty i = false /\ isPoint i = false.
Proof.
  intros Hd Hv. unfold getDirection. destruct (isEmpty i) eqn:He; [by left|].
  unfold interval_valid in Hv. rewrite sgn_spec in Hv. unfold isPoint, isNull, cmpv in *.
  pose proof (cmp_flip (start i) (iend i)) as Hf. rewrite Hf in Hv.
  destruct (startInclusive i), (endInclusive i), Hd as [-> | ->]; cbn [orb negb andb] in *;
    revert Hv; generalize (elt_compare false (start i) (iend i)); intros c Hv;
    (destruct (Z.eqb_spec 0 c) as [<-|Hc]; [try done; by left|right]);
    rewrite ?andb_false_r in *; simpl in *;
    assert (c <> 0) as Hc' by lia; apply Z.eqb_neq in Hc'; rewrite Hc'; simpl;
    (split; [|done]); repeat case_if; (done || lia).
Qed.

(** The direction of a list of intervals valid for [d] is [d] or none, and it is [d] when
    some interval is more than a point. *)
Lemma direction_of_valid d l :
  (d = 1 \/ d = -1) -> forallb (interval_valid d) l = true ->
  exists dir, direction_of l = Some dir /\
    (dir = kDirectionNone \/ dir = if d =? 1 then kDirectionAscending else kDirectionDescending) /\
    (existsb (fun i => negb (isEmpty i) && negb (isPoint i)) l = true -> dir <> kDirectionNone).
Proof.
  intros Hd. induction l as [|i l IH]; simpl; intros Hv; [by exists kDirectionNone; auto|].
  apply andb_true_iff in Hv as [Hi Hv]. destruct (IH Hv) as (dir & Hdir & Hcase & Hex).
  destruct (getDirection_valid d i Hd Hi) as [[Hg Hp]|(Hg & He & Hp)]; rewrite Hg; cbn [mbind option_bind].
  - exists dir. split_and!; [done|done|]. intros [Hx|Hx]%orb_true_iff; [|auto].
    apply andb_true_iff in Hx as [Hx1 Hx2]. apply negb_true_iff in Hx1, Hx2. by rewrite Hp in Hx2.
  - exists (if d =? 1 then kDirectionAscending else kDirectionDescending).
    split_and!; [by destruct (d =? 1)|by right|]. by destruct (d =? 1).
Qed.

(** [forwardize] makes every field ascending, provided a descending field has an interval
    that is more than a point. *)
Theorem forwardize_ascending b :
  isSimpleRange b = false ->
  Forall (fun f => oil_isValidFor f 1 = true \/
    (oil_isValidFor f (-1) = true /\
     existsb (fun i => negb (isEmpty i) && negb (isPoint i)) (intervals f) = true)) (fields b) ->
  exists b', forwardize b = Some b' /\ isSimpleRange b' = false /\
    Forall (fun f => oil_isValidFor f 1 = true) (fields b') /\
    Forall2 (fun f f' => f' = f \/ f' = oil_reverseClone f) (fields b) (fields b').
Proof.
  intros Hs Hf. unfold forwardize. rewrite Hs.
  assert (exists fs, mapM forwardize_field (fields b) = Some fs /\
    Forall (fun f => oil_isValidFor f 1 = true) fs /\
    Forall2 (fun f f' => f' = f \/ f' = oil_reverseClone f) (fields b) fs) as (fs & -> & H1 & H2);
    [|by eexists; split].
  induction Hf as [|f l Hv Hf IH]; [by exists []|]. destruct IH as (fs & Hrun & H1 & H2).
  assert (exists f', forwardize_field f = Some f' /\ oil_isValidFor f' 1 = true /\ (f' = f \/ f' = oil_reverseClone f))
    as (f' & Hf' & Hv' & Hc).
  { unfold forwardize_field, computeDirection. destruct Hv as [Hv|[Hv Hx]].
    - pose proof Hv as [Hvi _]%andb_true_iff.
      destruct (direction_of_valid 1 _ ltac:(by left) Hvi) as (dir & -> & [->| ->] & _); exists f; auto.
    - pose proof Hv as [Hvi _]%andb_true_iff.
      destruct (direction_of_valid (-1) _ ltac:(by right) Hvi) as (dir & -> & [->| ->] & Hex); [by destruct Hex|].
      exists (oil_reverseClone f). split_and!; [done| |auto]. by apply (oil_reverse_valid (-1)). }
  exists (f' :: fs). simpl. rewrite Hf', Hrun. auto.
Qed.
End IndexBounds.
Arguments OrderedIntervalList E : clear implicits.
Arguments IndexBounds E : clear implicits.

(** ** Examples over BSON *)

Definition point (e : list Z * BSONValue) : Interval (list Z * BSONValue) := make_interval e true e true.

(** [[8, 8], [3, 3]] in descending order. *)
Definition descending_points : OrderedIntervalList (list Z * BSONValue) :=
  mkOrderedIntervalList [point eltC; point eltA] [].

(** [[8, 6.5), (6.5, 3]]. *)
Definition descending_ranges : OrderedIntervalList (list Z * BSONValue) :=
  mkOrderedIntervalList [make_interval eltC true eltB false; make_interval eltB false eltA true] [].

Definition bounds_of (oil : OrderedIntervalList (list Z * BSONValue)) : IndexBounds (list Z * BSONValue) :=
  mkIndexBounds [oil] false [] [] kIncludeStartKeyOnly.

(** [forwardize] leaves a list of descending points as it is: the direction of a list is
    taken from its intervals alone, and a point has none. *)
Theorem forwardize_skips_points :
  oil_isValidFor descending_points (-1) = true /\
  forwardize (bounds_of descending_points) = Some (bounds_of descending_points) /\
  oil_isValidFor descending_points 1 = false.
Proof. split_and!; vm_compute; reflexivity. Qed.

Lemma forwardize_ascending_witness :
  exists b', forwardize (bounds_of descending_ranges) = Some b' /\
    Forall (fun f => oil_isValidFor f 1 = true) (fields b').
Proof.
  destruct (forwardize_ascending (bounds_of descending_ranges)) as (b' & Hrun & _ & Hv & _).
  - reflexivity.
  - constructor; [right; split; vm_compute; reflexivity|constructor].
  - exists b'. split; assumption.
Defined.

Lemma complement_exact_witness :
  oil_contains (complement (mkOrderedIntervalList [ivAB; point eltC] [])) eltB =
  negb (oil_contains (mkOrderedIntervalList [ivAB; point eltC] []) eltB).
Proof.
  refine (proj1 (complement_exact (mkOrderedIntervalList [ivAB; point eltC] []) _ _) eltB).
  - vm_compute; reflexivity.
  - repeat constructor.
Defined.
