(* ===== verification/IndexBoundsBuilder.v ===== *)
(** * Building index bounds

    Models the operations on interval lists of [db/query/index_bounds_builder.cpp]:
    intersection and union of lists, alignment with a key pattern and the test for a
    single range.  The translation of match expressions into intervals is not modelled. *)

From Stdlib Require Import ZArith Lia.
From stdpp Require Import prelude.
From S2P Require Import Prelude TotalOrder CompareNumbers Bson ElementOrder Interval IndexBounds.

Open Scope Z_scope.

Section IndexBoundsBuilder.
Context `{EO : ElementOrder E}.
Implicit Types (i j : Interval E) (oil : OrderedIntervalList E).

(** ** Intervals *)

Definition makeRangeInterval (obj : list E) (boundInclusion : BoundInclusion) : option (Interval E) :=
  match obj with
  | s :: e :: _ =>
      Some (mkInterval obj s (isStartIncludedInBound boundInclusion) e (isEndIncludedInBound boundInclusion))
  | _ => None
  end.

Definition makePointInterval (obj : list E) : Interval E :=
  let e := hd elt_eoo obj in mkInterval obj e true e true.

Definition allValues : option (Interval E) := makeRangeInterval [elt_minKey; elt_maxKey] kIncludeBothStartAndEndKeys.

Definition allValuesForField (elt : E) oil : option (OrderedIntervalList E) :=
  i ← makeRangeInterval [elt_minKey; elt_maxKey] kIncludeBothStartAndEndKeys;
  Some (mkOrderedIntervalList (intervals oil ++ [i]) (elt_name elt)).

Definition reverseInterval i : Interval E :=
  mkInterval (intervalData i) (iend i) (endInclusive i) (start i) (startInclusive i).

(** The order by which intervals are sorted. *)
Definition interval_less (lhs rhs : Interval E) : bool :=
  let wo := cmpv (start lhs) (start rhs) in
  if negb (wo =? 0) then wo <? 0
  else if Bool.eqb (startInclusive lhs) (startInclusive rhs) then false
  else startInclusive lhs.

(** ** Intersection *)

(** The loop of [intersectize] on the intervals that are left of both lists. *)
Fixpoint intersect_from (fuel : nat) (a b : list (Interval E)) : option (list (Interval E)) :=
  match fuel with
  | O => None
  | S fuel =>
      match a, b with
      | i :: a', j :: b' =>
          let cmp := compare i j in
          let push a b := n ← intersect i j cmp; r ← intersect_from fuel a b; Some (n :: r) in
          match cmp with
          | INTERVAL_PRECEDES | INTERVAL_PRECEDES_COULD_UNION => intersect_from fuel a' b
          | INTERVAL_SUCCEEDS => intersect_from fuel a b'
          | INTERVAL_EQUALS => push a' b'
          | INTERVAL_WITHIN => push a' b
          | INTERVAL_CONTAINS => push a b'
          | INTERVAL_OVERLAPS_BEFORE => push a' b
          | INTERVAL_OVERLAPS_AFTER => push a b'
          | INTERVAL_UNKNOWN => None
          end
      | _, _ => Some []
      end
  end.

(** The new value of [oilB]. *)
Definition intersectize (oilA oilB : OrderedIntervalList E) : option (OrderedIntervalList E) :=
  invariant (bool_decide (oil_name oilA = oil_name oilB));;
  r ← intersect_from (S (length (intervals oilA) + length (intervals oilB))) (intervals oilA) (intervals oilB);
  Some (mkOrderedIntervalList r (oil_name oilB)).

(** ** Union *)

(** [std::sort]; equivalent intervals stay in their order. *)
Fixpoint sort_insert (x : Interval E) (l : list (Interval E)) : list (Interval E) :=
  match l with
  | [] => [x]
  | y :: l => if interval_less y x then y :: sort_insert x l else x :: y :: l
  end.

Definition sort_intervals (l : list (Interval E)) : list (Interval E) := foldr sort_insert [] l.

(** The loop of [unionize]: [cur] is [iv[i]] and [rest] the intervals after it.  [None] when
    the check fails, and for [INTERVAL_OVERLAPS_AFTER], with which the loop never ends. *)
Fixpoint merge_from (cur : Interval E) (rest : list (Interval E)) : option (list (Interval E)) :=
  match rest with
  | [] => Some [cur]
  | nxt :: rest =>
      match compare cur nxt with
      | INTERVAL_PRECEDES => r ← merge_from nxt rest; Some (cur :: r)
      | INTERVAL_EQUALS | INTERVAL_WITHIN => merge_from nxt rest
      | INTERVAL_CONTAINS => merge_from cur rest
      | INTERVAL_OVERLAPS_BEFORE | INTERVAL_PRECEDES_COULD_UNION =>
          m ← makeRangeInterval [elt_appendAs (start cur) []; elt_appendAs (iend nxt) []]
                (makeBoundInclusionFromBoundBools (startInclusive cur) (endInclusive nxt));
          merge_from m rest
      | INTERVAL_SUCCEEDS | INTERVAL_OVERLAPS_AFTER | INTERVAL_UNKNOWN => None
      end
  end.

Definition merge_sorted (iv : list (Interval E)) : option (list (Interval E)) :=
  match iv with
  | [] => Some []
  | cur :: rest => merge_from cur rest
  end.

Definition unionize oil : option (OrderedIntervalList E) :=
  iv ← merge_sorted (sort_intervals (intervals oil)); Some (mkOrderedIntervalList iv (oil_name oil)).

(** ** Alignment *)

(** The loop of [alignBounds]. *)
Fixpoint align_fields (fs : list (OrderedIntervalList E)) (kp : list E) (scanDir : Z) : option (list (OrderedIntervalList E)) :=
  match kp with
  | [] => Some fs
  | elt :: kp =>
      let direction := (if elt_nonneg elt then 1 else -1) * scanDir in
      if -1 =? direction then
        match fs with
        | [] => None
        | f :: fs => r ← align_fields fs kp scanDir; Some (oil_reverse f :: r)
        end
      else
        match fs with
        | [] => align_fields [] kp scanDir
        | f :: fs => r ← align_fields fs kp scanDir; Some (f :: r)
        end
  end.

Definition alignBounds (b : IndexBounds E) (kp : list E) (scanDir : Z) : option (IndexBounds E) :=
  fs ← align_fields (fields b) kp scanDir;
  let b := {| b with fields := fs |} in
  invariant (bounds_isValidFor b kp scanDir);; Some b.

(** The loop of [allValuesBounds]; the fields are empty lists at first. *)
Fixpoint all_values_fields (fs : list (OrderedIntervalList E)) (kp : list E) : option (list (OrderedIntervalList E)) :=
  match kp, fs with
  | elt :: kp, f :: fs => f ← allValuesForField elt f; r ← all_values_fields fs kp; Some (f :: r)
  | _, _ => Some fs
  end.

Definition allValuesBounds (keyPattern : list E) (b : IndexBounds E) : option (IndexBounds E) :=
  let n := length keyPattern in
  let fs := take n (fields b) ++ replicate (n - length (fields b)) (mkOrderedIntervalList [] []) in
  fs ← all_values_fields fs keyPattern;
  alignBounds {| b with fields := fs |} keyPattern 1.

(** ** Single intervals *)

(** The loop over the point intervals: the keys built and the fields that are left. *)
Fixpoint skip_points (fs : list (OrderedIntervalList E)) : list E * list E * list (OrderedIntervalList E) :=
  match fs with
  | [] => ([], [], [])
  | oil :: fs' =>
      match intervals oil with
      | [i] =>
          if isPoint i then
            let '(s, e, rest) := skip_points fs' in (start i :: s, iend i :: e, rest)
          else ([], [], fs)
      | _ => ([], [], fs)
      end
  end.

(** The loop over the fields with all values; [None] when one has other intervals. *)
Fixpoint all_values_suffix (minMax maxMin : Interval E) (si ei : bool) (fs : list (OrderedIntervalList E))
    : option (list E * list E) :=
  match fs with
  | [] => Some ([], [])
  | oil :: fs =>
      match intervals oil with
      | [i] =>
          if equals i minMax then
            '(s, e) ← all_values_suffix minMax maxMin si ei fs;
            Some ((if negb si then elt_maxKey else elt_minKey) :: s, (if negb ei then elt_minKey else elt_maxKey) :: e)
          else if equals i maxMin then
            '(s, e) ← all_values_suffix minMax maxMin si ei fs;
            Some ((if negb si then elt_minKey else elt_maxKey) :: s, (if negb ei then elt_maxKey else elt_minKey) :: e)
          else None
      | _ => None
      end
  end.

(** What [isSingleInterval] returns and writes: whether it is one, the start key and whether
    it is included, and the end key and whether it is included. *)
Record SingleInterval := mkSingleInterval {
  single : bool;
  si_startKey : list E;
  si_startKeyInclusive : bool;
  si_endKey : list E;
  si_endKeyInclusive : bool;
}.

(** [startKey] and [endKey] are the values before the call. *)
Definition isSingleInterval (b : IndexBounds E) (startKey endKey : list E) : option SingleInterval :=
  let '(s, e, rest) := skip_points (fields b) in
  match rest with
  | [] => Some (mkSingleInterval true s true e true)
  | nonPoint :: rest =>
      match intervals nonPoint with
      | [i] =>
          minMax ← allValues;
          let maxMin := reverse minMax in
          match all_values_suffix minMax maxMin (startInclusive i) (endInclusive i) rest with
          | Some (s', e') =>
              Some (mkSingleInterval true (s ++ start i :: s') (startInclusive i) (e ++ iend i :: e') (endInclusive i))
          | None => Some (mkSingleInterval false startKey (startInclusive i) endKey (endInclusive i))
          end
      | _ => Some (mkSingleInterval false startKey true endKey true)
      end
  end.
End IndexBoundsBuilder.
Arguments SingleInterval E : clear implicits.
