(* ===== verification/BoundsBuilderSpec.v ===== *)
(** * Intersection and union of interval lists

    [intersectize] and [unionize] of [db/query/index_bounds_builder.cpp] compute the
    intersection and the union of sets of elements, and their results are valid lists;
    [alignBounds] makes such lists valid for a scan. *)

From Stdlib Require Import ZArith Lia.
From stdpp Require Import prelude.
From S2P Require Import Prelude TotalOrder CompareNumbers Bson ElementOrder Interval IndexBounds IndexBoundsBuilder.

Open Scope Z_scope.

Section builder.
Context `{EO : ElementOrder E}.
Implicit Types (x y p q : E) (i j n : Interval E) (a b l : list (Interval E)).

Abbreviation covers_elt l x := (existsb (fun i => contains i x) l) (only parsing).

(** ** Intersection *)

(** What lies past the end of an interval or starts where it ends. *)
Lemma chain_after i l x : interval_valid 1 i = true -> chain (iend i) l -> covers_elt l x = true -> after_start i x = true.
Proof. intros Hv Hl Hx. apply interval_chain; [done|]. by eapply chain_contains. Qed.

Lemma chain_head_after i l x : interval_valid 1 i = true -> chain (iend i) l -> covers_elt (i :: l) x = true -> after_start i x = true.
Proof.
  intros Hv Hl. simpl. intros [Hx|Hx]%orb_true_iff; [|by eapply chain_after]. unfold contains in Hx. by apply andb_true_iff in Hx as [? _].
Qed.

(** Disjoint intervals: the elements of the first come before the start of the other. *)
Lemma apart_before i j x :
  ascending i = true -> ascending j = true -> intersects i j = false -> precedes i j = true -> contains i x = true -> after_start j x = false.
Proof. unfold_interval. interval_order [start i; iend i; start j; iend j; x]. Qed.

Lemma apart_after i j x :
  ascending i = true -> ascending j = true -> intersects i j = false -> precedes i j = false -> contains j x = true -> after_start i x = false.
Proof. unfold_interval. interval_order [start i; iend i; start j; iend j; x]. Qed.

Lemma leb_ltb (z : Z) : (z <=? 0) = negb (0 <? z).
Proof. lia. Qed.

(** The ends of the intersection of two intervals that intersect. *)
Lemma overlap_ends i j :
  ascending i = true -> ascending j = true -> intersects i j = true ->
  ((cmpv (start j) (iend i) <? 0) || ((cmpv (start j) (iend i) =? 0) && startInclusive j && endInclusive i)) = true /\
  ((cmpv (start i) (iend j) <? 0) || ((cmpv (start i) (iend j) =? 0) && startInclusive i && endInclusive j)) = true.
Proof. unfold_interval. interval_order [start i; iend i; start j; iend j]. Qed.

Lemma within_order i j : within i j = true -> cmpv (start j) (start i) <= 0 /\ cmpv (iend i) (iend j) <= 0.
Proof.
  intros H. rewrite <- !Z.leb_le, !leb_ltb. revert H. unfold_interval. interval_order [start i; iend i; start j; iend j].
Qed.

Lemma equals_order i j : equals i j = true -> cmpv (start j) (start i) = 0 /\ cmpv (iend i) (iend j) = 0 /\ cmpv (iend j) (iend i) = 0.
Proof.
  intros H. rewrite <- !Z.eqb_eq. revert H. unfold_interval. interval_order [start i; iend i; start j; iend j].
Qed.

Lemma precedes_order i j : (precedes i j = true -> cmpv (start i) (start j) <= 0) /\ (precedes i j = false -> cmpv (start j) (start i) <= 0).
Proof.
  rewrite <- !Z.leb_le, !leb_ltb. unfold_interval. interval_order [start i; start j].
Qed.

Lemma overlap_order i j :
  within i j = false -> within j i = false ->
  (precedes i j = true -> cmpv (iend i) (iend j) <= 0) /\ (precedes i j = false -> cmpv (iend j) (iend i) <= 0).
Proof.
  rewrite <- !Z.leb_le, !leb_ltb. unfold_interval. interval_order [start i; iend i; start j; iend j].
Qed.

(** The intersection of [i] and [j], which ends where [i] ends, and after which [i] can be
    dropped: the part of [i] after the start of [j] is in [j]. *)
Definition cut_at i j n : Prop :=
  interval_valid 1 n = true /\ unnamed n /\ (forall x, contains n x = contains i x && contains j x) /\
  cmpv (start i) (start n) <= 0 /\ cmpv (start j) (start n) <= 0 /\ iend n = iend i /\
  (forall x, contains i x = true -> after_start j x = true -> contains j x = true).

Lemma cut_within i j : ascending i = true -> unnamed i -> within i j = true -> cut_at i j i.
Proof.
  intros Hi Hu Hw. destruct (within_order i j Hw). pose proof (cmp_refl (start i)). unfold cut_at. rewrite interval_valid_ascending.
  split_and!; [done|done| |unfold cmpv in *; lia|done|done|].
  - intros x. pose proof (within_spec i j x Hw). destruct (contains i x), (contains j x); intuition congruence.
  - intros x Hx _. by apply (within_spec i j x Hw).
Qed.

Lemma cut_overlap i j :
  ascending i = true -> ascending j = true -> unnamed i -> unnamed j -> intersects i j = true -> within i j = false -> within j i = false ->
  cmpv (start i) (start j) <= 0 ->
  (forall x, (after_start j x = true -> after_start i x = true) /\ (before_end i x = true -> before_end j x = true)) ->
  cut_at i j (mkInterval [start j; iend i] (start j) (startInclusive j) (iend i) (endInclusive i)).
Proof.
  intros Hi Hj [Hni Hei] [Hnj Hej] Hx Hw Hw' Hle Hends. destruct (overlap_ends i j Hi Hj Hx) as [Hasc _]. pose proof (cmp_refl (start j)).
  split_and!; [|done| |done|unfold cmpv in *; simpl; lia|done|].
  - rewrite interval_valid_ascending. unfold ascending, isPoint. cbn [start iend startInclusive endInclusive]. rewrite (Z.eqb_sym 0). revert Hasc.
    destruct (cmpv (start j) (iend i) <? 0), (cmpv (start j) (iend i) =? 0), (startInclusive j), (endInclusive i); done.
  - intros x. change (contains _ x) with (after_start j x && before_end i x) at 1. destruct (Hends x) as [H1 H2]. unfold contains.
    destruct (after_start i x), (before_end i x), (after_start j x), (before_end j x); simpl; intuition congruence.
  - intros x Hix Hjx. destruct (Hends x) as [_ H2]. unfold contains in *. apply andb_true_iff in Hix as [_ Hb]. by rewrite Hjx, (H2 Hb).
Qed.

Lemma intersects_sym i j : intersects i j = intersects j i.
Proof. unfold_interval. rewrite !if_false. rewrite andb_assoc, (andb_comm (_ && _)), <- andb_assoc. f_equal. rewrite !andb_true_r. rewrite andb_comm, <- andb_assoc. done. Qed.

(** What one turn of the loop does. *)
Lemma intersect_turn i j :
  ascending i = true -> ascending j = true -> unnamed i -> unnamed j ->
  match compare i j with
  | INTERVAL_PRECEDES | INTERVAL_PRECEDES_COULD_UNION => forall x, contains i x = true -> after_start j x = false
  | INTERVAL_SUCCEEDS => forall x, contains j x = true -> after_start i x = false
  | INTERVAL_EQUALS => intersect i j (compare i j) = Some i /\ cut_at i j i /\ cmpv (iend i) (iend j) <= 0 /\ forall x, contains i x = contains j x
  | INTERVAL_WITHIN | INTERVAL_OVERLAPS_BEFORE => exists n, intersect i j (compare i j) = Some n /\ cut_at i j n
  | INTERVAL_CONTAINS | INTERVAL_OVERLAPS_AFTER => exists n, intersect i j (compare i j) = Some n /\ cut_at j i n
  | INTERVAL_UNKNOWN => False
  end.
Proof.
  intros Hi Hj Hui Huj. unfold compare. destruct (intersects i j) eqn:Hx.
  2: { destruct (precedes i j) eqn:Hp; [case_if|]; intros x; (by apply apart_before) || (by apply apart_after). }
  destruct (equals i j) eqn:He.
  { destruct (equals_order i j He) as (H1 & H2 & H3). pose proof (fun x => equals_spec i j x He) as Heq. pose proof (cmp_refl (start i)).
    split_and!; [done| |lia|done]. unfold cut_at. rewrite interval_valid_ascending.
    split_and!; [done|done| |unfold cmpv; lia|lia|done|by intros x ?; rewrite Heq in *].
    intros x. rewrite <- Heq. by destruct (contains i x). }
  destruct (within i j) eqn:Hw; [exists i; split; [done|by apply cut_within]|].
  destruct (within j i) eqn:Hw'; [|destruct (precedes i j) eqn:Hp; destruct (precedes_order i j) as [Hp1 Hp2]].
  - eexists. split; [done|]. destruct (cut_within j i Hj Huj Hw') as (? & ? & ? & ? & ? & ? & ?). by split_and!.
  - eexists. split; [done|]. apply cut_overlap; try done; [by apply Hp1|]. intros x. by apply (overlap_spec i j x).
  - eexists. split; [done|]. apply cut_overlap; try done; [by rewrite intersects_sym|by apply Hp2|]. intros x. by apply (overlap_spec i j x).
Qed.

Lemma chain_tail_start p i l : chain p (i :: l) -> cmpv p (iend i) <= 0.
Proof. intros (Hb & Hv & _). pose proof (valid_start_end i Hv). unfold cmpv in *. by eapply cmp_trans. Qed.

(** Pushing the intersection [n], with the rest starting after the interval dropped. *)
Lemma push_chain p q i j n l :
  cmpv p (start i) <= 0 -> cmpv q (start j) <= 0 -> cut_at i j n -> chain (iend i) l -> chain p (n :: l) /\ chain q (n :: l).
Proof.
  intros Hp Hq (Hv & Hu & _ & Hsi & Hsj & He & _) Hl. rewrite <- He in Hl. split; (split_and!; [|done|done|done]); unfold cmpv in *; by eapply cmp_trans.
Qed.

(** Boolean reasoning on what the lists contain. *)
Ltac covers_cases :=
  repeat match goal with |- context [contains ?i ?x] => let H := fresh in destruct (contains i x) eqn:H end;
  repeat match goal with |- context [existsb ?f ?l] => let H := fresh in destruct (existsb f l) eqn:H end;
  simpl in *; intuition congruence.

Lemma drop_first i a j b x :
  interval_valid 1 j = true -> chain (iend j) b ->
  (contains i x = true -> after_start j x = false) ->
  covers_elt a x && covers_elt (j :: b) x = covers_elt (i :: a) x && covers_elt (j :: b) x.
Proof.
  intros Hv Hb Hd. pose proof (chain_head_after j b x Hv Hb) as Ha. cbn [existsb]. simpl in Ha.
  destruct (contains i x); [|done]. specialize (Hd eq_refl). destruct (contains j x || _); [|by rewrite !andb_false_r].
  rewrite Ha in Hd; done.
Qed.

(** Dropping [i] after the intersection has been pushed. *)
Lemma drop_cut i a j b n x :
  interval_valid 1 j = true -> chain (iend j) b -> cut_at i j n ->
  contains n x || covers_elt a x && covers_elt (j :: b) x = covers_elt (i :: a) x && covers_elt (j :: b) x.
Proof.
  intros Hv Hb (_ & _ & Hn & _ & _ & _ & Hd). pose proof (chain_head_after j b x Hv Hb) as Ha. rewrite Hn. cbn [existsb]. simpl in Ha. specialize (Hd x).
  destruct (contains i x), (contains j x), (existsb _ a), (existsb _ b); simpl in *; intuition congruence.
Qed.

(** The results of the rest of the loop, as a predicate on what it returns. *)
Definition meets p q a b (r : list (Interval E)) : Prop :=
  chain p r /\ chain q r /\ forall x, covers_elt r x = covers_elt a x && covers_elt b x.

Lemma meets_sym p q a b r : meets p q a b r -> meets q p b a r.
Proof. intros (H1 & H2 & H3). split_and!; [done|done|]. intros x. by rewrite H3, andb_comm. Qed.

Lemma push_meets p q i a j b n r :
  chain p (i :: a) -> chain q (j :: b) -> cut_at i j n -> meets (iend i) q a (j :: b) r -> meets p q (i :: a) (j :: b) (n :: r).
Proof.
  intros (Hp & _ & _ & _) (Hq & Hv & _ & Hb) Hcut (Hr & _ & Hx). destruct (push_chain p q i j n r Hp Hq Hcut Hr). split_and!; [done|done|].
  intros x. rewrite <- (drop_cut i a j b n x Hv Hb Hcut). change (covers_elt (n :: r) x) with (contains n x || covers_elt r x). by rewrite Hx.
Qed.

Lemma skip_meets p q i a j b r :
  chain p (i :: a) -> chain q (j :: b) -> (forall x, contains i x = true -> after_start j x = false) ->
  meets (iend i) q a (j :: b) r -> meets p q (i :: a) (j :: b) r.
Proof.
  intros Ha (_ & Hv & _ & Hb) Hd (Hr1 & Hr2 & Hx). split_and!; [|done|].
  - exact (chain_weaken _ _ _ (chain_tail_start _ _ _ Ha) Hr1).
  - intros x. rewrite Hx. exact (drop_first i a j b x Hv Hb (Hd x)).
Qed.

Lemma intersect_from_spec fuel a b p q :
  (length a + length b < fuel)%nat -> chain p a -> chain q b -> exists r, intersect_from fuel a b = Some r /\ meets p q a b r.
Proof.
  revert a b p q. induction fuel as [|fuel IH]; intros a b p q Hf Ha Hb; [lia|]. cbn [intersect_from].
  destruct a as [|i a]; [by exists []|]. destruct b as [|j b]; [exists []; split; [done|]; unfold meets; split_and!; [done|done|]; intros x; by rewrite andb_false_r|].
  pose proof Ha as (Hpi & Hvi & Hui & Ha'). pose proof Hb as (Hqj & Hvj & Huj & Hb').
  rewrite interval_valid_ascending in Hvi, Hvj. simpl in Hf. pose proof (intersect_turn i j Hvi Hvj Hui Huj) as Hturn.
  destruct (IH a (j :: b) (iend i) q ltac:(simpl; lia) Ha' Hb) as (r1 & Hr1 & Hm1).
  destruct (IH (i :: a) b p (iend j) ltac:(simpl; lia) Ha Hb') as (r2 & Hr2 & Hm2). apply meets_sym in Hm2.
  destruct (compare i j) eqn:Hcmp; try done.
  - destruct Hturn as (-> & Hcut & Hle & Heq).
    destruct (IH a b (iend i) (iend i) ltac:(lia) Ha' (chain_weaken _ _ _ Hle Hb')) as (r & -> & Hr & _ & Hx). cbn [mbind option_bind].
    exists (i :: r). split; [done|]. destruct (push_chain p q i j i r Hpi Hqj Hcut Hr). split_and!; [done|done|].
    intros x. cbn [existsb]. rewrite Hx, <- (Heq x). covers_cases.
  - destruct Hturn as (n & -> & Hcut). rewrite Hr2. exists (n :: r2). split; [done|]. by apply meets_sym, push_meets.
  - destruct Hturn as (n & -> & Hcut). rewrite Hr1. exists (n :: r1). split; [done|]. by apply push_meets.
  - destruct Hturn as (n & -> & Hcut). rewrite Hr1. exists (n :: r1). split; [done|]. by apply push_meets.
  - destruct Hturn as (n & -> & Hcut). rewrite Hr2. exists (n :: r2). split; [done|]. by apply meets_sym, push_meets.
  - exists r1. split; [done|]. by apply skip_meets.
  - exists r1. split; [done|]. by apply skip_meets.
  - exists r2. split; [done|]. by apply meets_sym, skip_meets.
Qed.

(** [C27] [intersectize] of two valid ascending lists for the same field ends, and gives a valid
    ascending list that contains exactly the elements both lists contain. *)
Theorem intersectize_exact (oilA oilB : OrderedIntervalList E) :
  oil_name oilA = oil_name oilB -> oil_isValidFor oilA 1 = true -> oil_isValidFor oilB 1 = true ->
  Forall unnamed (intervals oilA) -> Forall unnamed (intervals oilB) ->
  exists oil, intersectize oilA oilB = Some oil /\ oil_name oil = oil_name oilB /\ oil_isValidFor oil 1 = true /\
    forall x, oil_contains oil x = oil_contains oilA x && oil_contains oilB x.
Proof.
  intros Hn HA HB HuA HuB. unfold intersectize. rewrite invariant_bind by by apply bool_decide_eq_true.
  destruct (intersect_from_spec (S (length (intervals oilA) + length (intervals oilB))) (intervals oilA) (intervals oilB) elt_minKey elt_minKey
    ltac:(lia) (valid_chain _ HA HuA) (valid_chain _ HB HuB)) as (r & -> & Hr & _ & Hx). cbn [mbind option_bind].
  eexists. split_and!; [done|done|by apply (chain_valid elt_minKey)|done].
Qed.

(** ** Union *)

Definition same_start i j : Prop := cmpv (start i) (start j) = 0 /\ startInclusive i = startInclusive j.

(** A gap: the end of [i] is before the start of [j], or at it and in neither. *)
Definition apart i j : Prop :=
  cmpv (iend i) (start j) < 0 \/ (cmpv (iend i) (start j) = 0 /\ endInclusive i = false /\ startInclusive j = false).

Fixpoint separated l : Prop :=
  match l with
  | i :: ((j :: _) as l) => apart i j /\ separated l
  | _ => True
  end.

(** Sorted as [std::sort] leaves the list: no interval is less than one before it. *)
Fixpoint sorted_starts l : Prop :=
  match l with
  | [] => True
  | i :: l => Forall (fun j => interval_less j i = false) l /\ sorted_starts l
  end.

(** The interval that replaces two that are merged. *)
Definition merged i j : Interval E :=
  mkInterval [elt_appendAs (start i) []; elt_appendAs (iend j) []] (elt_appendAs (start i) []) (startInclusive i) (elt_appendAs (iend j) []) (endInclusive j).

Lemma makeRangeInterval_merged i j :
  makeRangeInterval [elt_appendAs (start i) []; elt_appendAs (iend j) []] (makeBoundInclusionFromBoundBools (startInclusive i) (endInclusive j)) = Some (merged i j).
Proof. unfold makeRangeInterval, merged. by destruct (startInclusive i), (endInclusive j). Qed.

Lemma merged_ends i j x :
  after_start (merged i j) x = after_start i x /\ before_end (merged i j) x = before_end j x /\ same_start i (merged i j) /\
  ascending (merged i j) = (cmpv (start i) (iend j) <? 0) || startInclusive i && endInclusive j && (cmpv (start i) (iend j) =? 0).
Proof.
  unfold after_start, before_end, same_start, ascending, isPoint, merged, cmpv. cbn [start iend startInclusive endInclusive].
  assert (forall y z, Z.sgn (elt_compare false y (elt_appendAs z [])) = Z.sgn (elt_compare false y z)) as Hr.
  { intros y z. pose proof (cmp_flip y (elt_appendAs z [])) as H1. pose proof (cmp_flip y z) as H2. rewrite elt_appendAs_compare in H1. lia. }
  rewrite !elt_appendAs_compare. pose proof (Hr x (iend j)). pose proof (Hr (start i) (start i)). pose proof (Hr (start i) (iend j)). pose proof (cmp_refl (start i)).
  rewrite (Z.eqb_sym 0). split_and!; [done| |lia|done|].
  - replace (elt_compare false x (elt_appendAs (iend j) []) <? 0) with (elt_compare false x (iend j) <? 0) by lia.
    by replace (elt_compare false x (elt_appendAs (iend j) []) =? 0) with (elt_compare false x (iend j) =? 0) by lia.
  - replace (elt_compare false (start i) (elt_appendAs (iend j) []) <? 0) with (elt_compare false (start i) (iend j) <? 0) by lia.
    by replace (elt_compare false (start i) (elt_appendAs (iend j) []) =? 0) with (elt_compare false (start i) (iend j) =? 0) by lia.
Qed.

Lemma less_false i j :
  interval_less j i = (cmpv (start j) (start i) <? 0) || (cmpv (start j) (start i) =? 0) && (startInclusive j && negb (startInclusive i)).
Proof.
  unfold interval_less. destruct (Z.eqb_spec (cmpv (start j) (start i)) 0) as [->|]; cbn [negb]; [|by rewrite orb_false_r].
  by destruct (startInclusive i), (startInclusive j).
Qed.

Lemma less_same_start i h j : same_start i h -> interval_less j h = interval_less j i.
Proof.
  intros [H0%Z.eqb_eq Hi]. rewrite !less_false, Hi. revert H0. interval_order [start i; start h; start j].
Qed.

Lemma same_start_test i j : (cmpv (start i) (start j) =? 0) && Bool.eqb (startInclusive i) (startInclusive j) = true -> same_start i j.
Proof. intros [H1%Z.eqb_eq H2%eqb_prop]%andb_true_iff. by split. Qed.

(** In a sorted list an interval that lies within the next one starts with it. *)
Lemma within_start i j : within i j = true -> interval_less j i = false -> same_start i j.
Proof.
  intros Hw Hl. apply same_start_test. revert Hw Hl. rewrite less_false. unfold_interval. interval_order [start i; iend i; start j; iend j].
Qed.

Lemma equals_start i j : equals i j = true -> same_start i j.
Proof. intros He. apply same_start_test. revert He. unfold_interval. interval_order [start i; iend i; start j; iend j]. Qed.

(** Sorted intervals that overlap are in order. *)
Lemma sorted_overlap i j : within i j = false -> within j i = false -> interval_less j i = false -> precedes i j = true.
Proof. rewrite less_false. unfold_interval. interval_order [start i; iend i; start j; iend j]. Qed.

Lemma sorted_apart i j : ascending i = true -> ascending j = true -> intersects i j = false -> interval_less j i = false -> precedes i j = true.
Proof. rewrite less_false. unfold_interval. interval_order [start i; iend i; start j; iend j]. Qed.

(** Adjacent intervals: nothing lies between them. *)
Lemma adjacent_union i j x :
  ascending i = true -> ascending j = true -> intersects i j = false -> precedes i j = true ->
  (endInclusive i || startInclusive j) && (0 =? cmpv (iend i) (start j)) = true ->
  after_start i x && before_end j x = contains i x || contains j x.
Proof. unfold_interval. interval_order [start i; iend i; start j; iend j; x]. Qed.

Lemma adjacent_ascending i j :
  ascending i = true -> ascending j = true -> intersects i j = false -> precedes i j = true ->
  (endInclusive i || startInclusive j) && (0 =? cmpv (iend i) (start j)) = true ->
  (cmpv (start i) (iend j) <? 0) || startInclusive i && endInclusive j && (cmpv (start i) (iend j) =? 0) = true.
Proof. unfold_interval. interval_order [start i; iend i; start j; iend j]. Qed.

Lemma overlap_ascending i j :
  ascending i = true -> ascending j = true -> intersects i j = true ->
  (cmpv (start i) (iend j) <? 0) || startInclusive i && endInclusive j && (cmpv (start i) (iend j) =? 0) = true.
Proof. unfold_interval. interval_order [start i; iend i; start j; iend j]. Qed.

Lemma not_adjacent_apart i j :
  ascending i = true -> ascending j = true -> intersects i j = false -> precedes i j = true ->
  (endInclusive i || startInclusive j) && (0 =? cmpv (iend i) (start j)) = false -> apart i j.
Proof.
  intros Hi Hj Hx Hp Ha.
  assert ((cmpv (iend i) (start j) <? 0) || (cmpv (iend i) (start j) =? 0) && (negb (endInclusive i) && negb (startInclusive j)) = true) as Hr.
  { revert Hi Hj Hx Hp Ha. unfold_interval. interval_order [start i; iend i; start j; iend j]. }
  apply orb_true_iff in Hr as [Hr%Z.ltb_lt|Hr]; [by left|]. rewrite !andb_true_iff, !negb_true_iff, Z.eqb_eq in Hr. right. tauto.
Qed.

(** What one turn of the loop does. *)
Lemma union_turn i j :
  ascending i = true -> ascending j = true -> interval_less j i = false ->
  match compare i j with
  | INTERVAL_PRECEDES => apart i j
  | INTERVAL_EQUALS | INTERVAL_WITHIN => same_start i j /\ forall x, contains i x = true -> contains j x = true
  | INTERVAL_CONTAINS => forall x, contains j x = true -> contains i x = true
  | INTERVAL_OVERLAPS_BEFORE | INTERVAL_PRECEDES_COULD_UNION =>
      ascending (merged i j) = true /\ same_start i (merged i j) /\ forall x, contains (merged i j) x = contains i x || contains j x
  | INTERVAL_SUCCEEDS | INTERVAL_OVERLAPS_AFTER | INTERVAL_UNKNOWN => False
  end.
Proof.
  intros Hi Hj Hl. unfold compare. destruct (intersects i j) eqn:Hx.
  - destruct (equals i j) eqn:He; [split; [by apply equals_start|intros x; by rewrite (equals_spec i j x He)]|].
    destruct (within i j) eqn:Hw; [split; [by apply within_start|intros x; by apply within_spec]|].
    destruct (within j i) eqn:Hw'; [intros x; by apply within_spec|].
    rewrite (sorted_overlap i j Hw Hw' Hl). split_and!.
    + destruct (merged_ends i j (start i)) as (_ & _ & _ & ->). by apply overlap_ascending.
    + by apply (merged_ends i j (start i)).
    + intros x. destruct (merged_ends i j x) as (Hs & He' & _). unfold contains at 1. rewrite Hs, He'.
      destruct (overlap_spec i j x Hw Hw') as [H1 _]. destruct (H1 (sorted_overlap i j Hw Hw' Hl)) as [H2 H3].
      rewrite <- (union_spec i j x Hx Hi Hj). destruct (after_start i x), (after_start j x), (before_end i x), (before_end j x); simpl; intuition congruence.
  - rewrite (sorted_apart i j Hi Hj Hx Hl). pose proof (sorted_apart i j Hi Hj Hx Hl) as Hp. destruct (_ && (0 =? _)) eqn:Ha; [split_and!|by apply not_adjacent_apart].
    + destruct (merged_ends i j (start i)) as (_ & _ & _ & ->). by apply adjacent_ascending.
    + by apply (merged_ends i j (start i)).
    + intros x. destruct (merged_ends i j x) as (Hs & He' & _). unfold contains at 1. rewrite Hs, He'. by apply adjacent_union.
Qed.

Lemma apart_same_start i j h : apart i j -> same_start j h -> apart i h.
Proof.
  intros Ha [H0 Hi]. unfold apart in *. rewrite <- Hi. pose proof (total_sgn_eq_r (elt_total false) (start j) (start h) (iend i) I I I H0). unfold cmpv in *. destruct Ha as [Ha|(Ha & ? & ?)]; [left; lia|right; split_and!; [lia|done|done]].
Qed.

Lemma same_start_trans i j h : same_start i j -> same_start j h -> same_start i h.
Proof.
  intros [H1 H1'] [H2 H2']. split; [|congruence]. pose proof (total_sgn_eq_r (elt_total false) (start j) (start h) (start i) I I I H2). unfold cmpv in *. lia.
Qed.

Lemma same_start_refl i : same_start i i.
Proof. split; [apply cmp_refl|done]. Qed.

Lemma merge_from_spec rest cur :
  Forall (fun i => ascending i = true) (cur :: rest) -> sorted_starts (cur :: rest) ->
  exists h r, merge_from cur rest = Some (h :: r) /\ same_start cur h /\ Forall (fun i => ascending i = true) (h :: r) /\ separated (h :: r) /\
    forall x, covers_elt (h :: r) x = covers_elt (cur :: rest) x.
Proof.
  revert cur. induction rest as [|nxt rest IH]; intros cur Hasc Hsort; cbn [merge_from].
  { exists cur, []. split_and!; [done|apply same_start_refl|done|done|done]. }
  apply Forall_cons in Hasc as [Hc Hasc]. pose proof Hasc as (Hn & Hrest)%Forall_cons.
  destruct Hsort as [Hlt Hsort]. pose proof Hlt as (Hl & Hlt')%Forall_cons. pose proof Hsort as [Hltn Hs].
  pose proof (union_turn cur nxt Hc Hn Hl) as Hturn. destruct (IH nxt Hasc Hsort) as (h & r & Hm & Hst & Ha & Hsep & Hx).
  assert (forall m, ascending m = true -> same_start cur m -> (forall x, contains m x = contains cur x || contains nxt x) ->
    exists h r, merge_from m rest = Some (h :: r) /\ same_start cur h /\ Forall (fun i => ascending i = true) (h :: r) /\ separated (h :: r) /\
      forall x, covers_elt (h :: r) x = covers_elt (cur :: nxt :: rest) x) as Hmerge.
  { intros m Hma Hms Hmx. destruct (IH m) as (h' & r' & -> & ? & ? & ? & Hx').
    - by constructor.
    - split; [|done]. eapply Forall_impl; [exact Hlt'|]. intros j Hj. simpl in Hj. by rewrite (less_same_start cur m j Hms).
    - exists h', r'. split_and!; [done|by eapply same_start_trans|done|done|]. intros x. rewrite Hx'. simpl. by rewrite Hmx, orb_assoc. }
  assert ((forall x, contains cur x = true -> contains nxt x = true) -> same_start cur nxt ->
    exists h r, merge_from nxt rest = Some (h :: r) /\ same_start cur h /\ Forall (fun i => ascending i = true) (h :: r) /\ separated (h :: r) /\
      forall x, covers_elt (h :: r) x = covers_elt (cur :: nxt :: rest) x) as Hdrop.
  { intros Hsub Hss. exists h, r. split_and!; [done|by eapply same_start_trans|done|done|]. intros x. rewrite Hx. simpl. specialize (Hsub x).
    destruct (contains cur x), (contains nxt x); simpl; intuition congruence. }
  destruct (compare cur nxt) eqn:Hcmp; try done.
  - destruct Hturn. by apply Hdrop.
  - apply Hmerge; [done|apply same_start_refl|]. intros x. specialize (Hturn x). destruct (contains cur x), (contains nxt x); intuition congruence.
  - destruct Hturn. by apply Hdrop.
  - rewrite makeRangeInterval_merged. cbn [mbind option_bind]. destruct Hturn as (? & ? & ?). by apply Hmerge.
  - rewrite Hm. cbn [mbind option_bind]. exists cur, (h :: r). split_and!; [done|apply same_start_refl|by constructor| |].
    + split; [by eapply apart_same_start|done].
    + intros x. specialize (Hx x). cbn [existsb] in *. by rewrite Hx.
  - rewrite makeRangeInterval_merged. cbn [mbind option_bind]. destruct Hturn as (? & ? & ?). by apply Hmerge.
Qed.

(** [interval_less] is a strict weak order, and sorting by it gives a sorted permutation. *)
Lemma less_trans i j n : interval_less j i = false -> interval_less n j = false -> interval_less n i = false.
Proof. rewrite !less_false. interval_order [start i; start j; start n]. Qed.

Lemma less_asym i j : interval_less i j = true -> interval_less j i = false.
Proof. rewrite !less_false. interval_order [start i; start j]. Qed.

Lemma sort_insert_perm i l : sort_insert i l ≡ₚ i :: l.
Proof. induction l as [|j l IH]; simpl; [done|]. case_match; [|done]. rewrite IH. constructor. Qed.

Lemma sort_insert_sorted i l : sorted_starts l -> sorted_starts (sort_insert i l).
Proof.
  induction l as [|j l IH]; [by repeat constructor|]. intros [Hj Hl]. simpl. destruct (interval_less j i) eqn:Hji.
  - split; [|by apply IH]. rewrite sort_insert_perm. constructor; [by apply less_asym|done].
  - split; [|by split]. constructor; [done|]. eapply Forall_impl; [exact Hj|]. intros n Hn. simpl in Hn. by apply (less_trans i j n).
Qed.

Lemma sort_intervals_spec l : sort_intervals l ≡ₚ l /\ sorted_starts (sort_intervals l).
Proof.
  induction l as [|i l [IHp IHs]]; [done|]. simpl. split; [by rewrite sort_insert_perm, IHp|by apply sort_insert_sorted].
Qed.

Lemma covers_perm l l' x : l ≡ₚ l' -> covers_elt l x = covers_elt l' x.
Proof.
  induction 1; simpl; [done|congruence| |congruence]. rewrite !orb_assoc. f_equal. apply orb_comm.
Qed.

Lemma separated_valid l : Forall (fun i => ascending i = true) l -> separated l -> forall name, oil_isValidFor (mkOrderedIntervalList l name) 1 = true.
Proof.
  intros Ha Hs name. unfold oil_isValidFor. cbn [intervals]. induction Ha as [|i l Hi Hl IH]; [done|].
  assert (separated l) as Hs' by (destruct l; [done|by destruct Hs]). apply IH in Hs' as [H1 H2]%andb_true_iff. apply andb_true_iff.
  split; [cbn [forallb]; by rewrite interval_valid_ascending, Hi|]. destruct l as [|j l]; [done|]. destruct Hs as [Hap _]. cbn [neighbours_valid].
  rewrite sgn_eqb_0, sgn_eqb_1. unfold apart in Hap. pose proof (cmp_flip (start j) (iend i)). unfold cmpv in *.
  replace ((_ =? 0) || (0 <? _)) with true by lia. done.
Qed.

Lemma merge_sorted_spec l :
  Forall (fun i => ascending i = true) l -> sorted_starts l ->
  exists r, merge_sorted l = Some r /\ Forall (fun i => ascending i = true) r /\ separated r /\ forall x, covers_elt r x = covers_elt l x.
Proof.
  intros Ha Hs. destruct l as [|cur rest]; [by exists []|]. destruct (merge_from_spec rest cur Ha Hs) as (h & r & Hm & _ & Ha' & Hsep & Hx). by exists (h :: r).
Qed.

(** [C28] [unionize] of any list of non-empty ascending intervals ends and gives a valid
    ascending list that contains exactly the elements that some interval of the list
    contains, with a gap between any two neighbours.  This does not depend on the order in
    which [std::sort] leaves equivalent intervals. *)
Theorem unionize_exact (oil : OrderedIntervalList E) :
  Forall (fun i => ascending i = true) (intervals oil) ->
  (exists oil', unionize oil = Some oil' /\ oil_name oil' = oil_name oil /\ oil_isValidFor oil' 1 = true /\ separated (intervals oil') /\
    forall x, oil_contains oil' x = oil_contains oil x) /\
  forall iv, iv ≡ₚ intervals oil -> sorted_starts iv ->
    exists r, merge_sorted iv = Some r /\ oil_isValidFor (mkOrderedIntervalList r (oil_name oil)) 1 = true /\ separated r /\
      forall x, oil_contains (mkOrderedIntervalList r (oil_name oil)) x = oil_contains oil x.
Proof.
  intros Ha.
  assert (forall iv, iv ≡ₚ intervals oil -> sorted_starts iv -> exists r, merge_sorted iv = Some r /\
    oil_isValidFor (mkOrderedIntervalList r (oil_name oil)) 1 = true /\ separated r /\ forall x, oil_contains (mkOrderedIntervalList r (oil_name oil)) x = oil_contains oil x) as Hany.
  { intros iv Hp Hs. destruct (merge_sorted_spec iv) as (r & Hr & Hra & Hsep & Hx); [by rewrite Hp|done|].
    exists r. split_and!; [done|by apply separated_valid|done|]. intros x. unfold oil_contains. cbn [intervals]. rewrite Hx. by apply covers_perm. }
  split; [|done]. unfold unionize. destruct (sort_intervals_spec (intervals oil)) as [Hp Hs].
  destruct (Hany _ Hp Hs) as (r & -> & Hv & Hsep & Hx). cbn [mbind option_bind]. eexists. by split_and!.
Qed.

(** ** Alignment with a key pattern *)

(** The list for a field in the direction of a scan. *)
Definition aligned (scanDir : Z) (f : OrderedIntervalList E) (elt : E) : OrderedIntervalList E :=
  if (if elt_nonneg elt then 1 else -1) * scanDir =? -1 then oil_reverseClone f else f.

(** A list of intervals as the builder makes it for a field of the key pattern. *)
Definition built_for (f : OrderedIntervalList E) (elt : E) : Prop := oil_name f = elt_name elt /\ oil_isValidFor f 1 = true.

Lemma aligned_valid scanDir f elt :
  scanDir = 1 \/ scanDir = -1 -> built_for f elt ->
  oil_name (aligned scanDir f elt) = elt_name elt /\ oil_isValidFor (aligned scanDir f elt) (scanDir * (if elt_nonneg elt then 1 else -1)) = true.
Proof.
  intros Hd [Hn Hv]. unfold aligned.
  destruct Hd as [-> | ->], (elt_nonneg elt); simpl; split; try done; by apply (oil_reverse_valid 1).
Qed.

Lemma align_fields_spec scanDir fs kp :
  scanDir = 1 \/ scanDir = -1 -> Forall2 built_for fs kp ->
  align_fields fs kp scanDir = Some (zip_with (aligned scanDir) fs kp) /\ fields_valid (zip_with (aligned scanDir) fs kp) kp scanDir = true.
Proof.
  intros Hd Hf. induction Hf as [|f elt fs kp Hfe Hfs [IH1 IH2]]; [done|]. destruct (aligned_valid scanDir f elt Hd Hfe) as [Hn Hv].
  cbn [align_fields zip_with fields_valid]. rewrite IH1, Hn, bool_decide_true, Hv by done. split; [|done].
  unfold aligned. rewrite Z.eqb_sym. destruct (_ =? -1); cbn [mbind option_bind]; [by rewrite oil_reverse_clone|done].
Qed.

Lemma all_values_oil elt : exists i, allValuesForField elt (mkOrderedIntervalList [] []) = Some (mkOrderedIntervalList [i] (elt_name elt)) /\
  ascending i = true /\ forall x, contains i x = true.
Proof.
  eexists. split; [done|]. split.
  - unfold ascending, isPoint, cmpv. cbn [start iend startInclusive endInclusive]. pose proof (elt_least elt_minKey elt_maxKey elt_minKey_type).
    destruct (elt_compare false elt_minKey elt_maxKey) eqn:Hc; try done; lia.
  - intros x. unfold contains, after_start, before_end, cmpv. cbn [start iend startInclusive endInclusive].
    pose proof (elt_least elt_minKey x elt_minKey_type). pose proof (elt_greatest x elt_maxKey elt_maxKey_type). rewrite !andb_true_r. lia.
Qed.

Lemma all_values_fields_spec kp :
  exists fs, all_values_fields (replicate (length kp) (mkOrderedIntervalList [] [])) kp = Some fs /\ Forall2 built_for fs kp /\
    forall x, Forall (fun f => oil_contains f x = true) fs.
Proof.
  induction kp as [|elt kp (fs & IH & Hb & Hx)]; [by exists []|]. destruct (all_values_oil elt) as (i & Hi & Ha & Hc).
  cbn [length replicate all_values_fields]. rewrite Hi. cbn [mbind option_bind]. rewrite IH. cbn [mbind option_bind].
  eexists. split_and!; [done| |].
  - constructor; [|done]. split; [done|]. unfold oil_isValidFor. cbn [intervals forallb neighbours_valid]. by rewrite interval_valid_ascending, Ha.
  - intros x. constructor; [|done]. unfold oil_contains. cbn [intervals existsb]. by rewrite Hc.
Qed.

(** [C33] [alignBounds] turns lists that the builder made, one for each field of the key
    pattern, into bounds that are valid for a scan in the given direction, reversing just
    the fields whose direction is descending; it never reaches its abort.  The bounds of
    [allValuesBounds] come out of it for every key pattern, and each field has every
    element. *)
Theorem alignBounds_valid (bds : IndexBounds E) kp scanDir :
  isSimpleRange bds = false -> Forall2 built_for (fields bds) kp -> scanDir = 1 \/ scanDir = -1 ->
  (exists bds', alignBounds bds kp scanDir = Some bds' /\ bounds_isValidFor bds' kp scanDir = true /\
     fields bds' = zip_with (aligned scanDir) (fields bds) kp) /\
  (exists fs bds', allValuesBounds kp IndexBounds_default = Some bds' /\ bounds_isValidFor bds' kp 1 = true /\
     fields bds' = zip_with (aligned 1) fs kp /\ forall x, Forall (fun f => oil_contains f x = true) fs).
Proof.
  intros Hs Hf Hd.
  assert (forall (b0 : IndexBounds E) d, isSimpleRange b0 = false -> Forall2 built_for (fields b0) kp -> d = 1 \/ d = -1 ->
    exists bds', alignBounds b0 kp d = Some bds' /\ bounds_isValidFor bds' kp d = true /\ fields bds' = zip_with (aligned d) (fields b0) kp) as Hal.
  { intros b0 d Hs0 Hf0 Hd0. unfold alignBounds. destruct (align_fields_spec d (fields b0) kp Hd0 Hf0) as [-> Hv]. cbn [mbind option_bind]. cbv zeta.
    assert (bounds_isValidFor {| b0 with fields := zip_with (aligned d) (fields b0) kp |} kp d = true) as Hb by (unfold bounds_isValidFor; simpl; by rewrite Hs0).
    rewrite invariant_bind by done. by eexists. }
  split; [by apply Hal|]. destruct (all_values_fields_spec kp) as (fs & Hfs & Hb & Hx).
  unfold allValuesBounds. cbn [fields IndexBounds_default length]. rewrite take_nil, Nat.sub_0_r, app_nil_l, Hfs. cbn [mbind option_bind].
  destruct (Hal {| (IndexBounds_default (E := E)) with fields := fs |} 1) as (bds' & Hbds' & Hv & Hfb); [done|done|by left|]. by exists fs, bds'.
Qed.
End builder.

(** ** Instances *)

(** [{a: 1, b: -1}], with a list for each field. *)
Lemma alignBounds_valid_witness :
  exists b', alignBounds {| (IndexBounds_default (E := list Z * BSONValue)) with
      fields := [mkOrderedIntervalList [ivAB] [97]; mkOrderedIntervalList [ivBC] [98]] |}
    [([97], vNumber (NumInt (mkInt32 1 eq_refl))); ([98], vNumber (NumInt (mkInt32 (-1) eq_refl)))] (-1) = Some b' /\
    fields b' = [mkOrderedIntervalList [reverse ivAB] [97]; mkOrderedIntervalList [ivBC] [98]].
Proof.
  destruct (alignBounds_valid {| (IndexBounds_default (E := list Z * BSONValue)) with
      fields := [mkOrderedIntervalList [ivAB] [97]; mkOrderedIntervalList [ivBC] [98]] |}
    [([97], vNumber (NumInt (mkInt32 1 eq_refl))); ([98], vNumber (NumInt (mkInt32 (-1) eq_refl)))] (-1)) as ((b' & Hb & _ & Hf) & _).
  - reflexivity.
  - repeat constructor.
  - right. reflexivity.
  - exists b'. split; [exact Hb|]. rewrite Hf. vm_compute. reflexivity.
Defined.

Lemma intersectize_exact_witness :
  exists oil, intersectize (mkOrderedIntervalList [ivAC] []) (mkOrderedIntervalList [ivBC] []) = Some oil /\
    oil_contains oil eltB = true /\ oil_contains oil eltC = false.
Proof.
  destruct (intersectize_exact (mkOrderedIntervalList [ivAC] []) (mkOrderedIntervalList [ivBC] [])) as (oil & Hr & _ & _ & Hx).
  - reflexivity.
  - vm_compute. reflexivity.
  - vm_compute. reflexivity.
  - repeat constructor.
  - repeat constructor.
  - exists oil. split; [exact Hr|]. rewrite !Hx. split; vm_compute; reflexivity.
Defined.

Lemma unionize_exact_witness :
  exists oil, unionize (mkOrderedIntervalList [point eltC; ivAC; ivAB] []) = Some oil /\ oil_isValidFor oil 1 = true /\ oil_contains oil eltC = true.
Proof.
  destruct (unionize_exact (mkOrderedIntervalList [point eltC; ivAC; ivAB] [])) as ((oil & Hr & _ & Hv & _ & Hx) & _).
  - repeat constructor; vm_compute; reflexivity.
  - exists oil. split; [exact Hr|]. split; [exact Hv|]. rewrite Hx. vm_compute. reflexivity.
Defined.
