(* ===== verification/IndexBoundsChecker.v ===== *)
(** * Navigating an index within bounds

    Models [class IndexBoundsChecker] of [db/query/index_bounds.h] and [index_bounds.cpp].
    The checker tells an index scan whether a key is within the bounds and, if not, where
    to go on. *)

From Stdlib Require Import ZArith Lia.
From stdpp Require Import prelude.
From S2P Require Import Prelude TotalOrder CompareNumbers Bson ElementOrder Interval IndexBounds.

Open Scope Z_scope.

Inductive Location := BEHIND | WITHIN | AHEAD.

#[global] Instance Location_eq_dec : EqDecision Location.
Proof. solve_decision. Defined.

Inductive KeyState := VALID | MUST_ADVANCE | DONE.

Section IndexBoundsChecker.
Context `{EO : ElementOrder E}.
Implicit Types (x k : E) (key : list E).

(** ** State *)

(** [keySuffix] holds pointers; [None] is a null pointer. *)
Record IndexSeekPoint := mkIndexSeekPoint {
  keyPrefix : list E;
  prefixLen : nat;
  prefixExclusive : bool;
  keySuffix : list (option E);
  suffixInclusive : list bool;
}.

Definition IndexSeekPoint_default : IndexSeekPoint := mkIndexSeekPoint [] 0 false [] [].

Record IndexBoundsChecker := mkIndexBoundsChecker {
  bounds : IndexBounds E;
  curInterval : list nat;
  expectedDirection : list Z;
}.

Definition IndexBoundsChecker_new (b : IndexBounds E) (keyPattern : list E) (scanDirection : Z)
    : IndexBoundsChecker :=
  mkIndexBoundsChecker b (replicate (length (fields b)) 0%nat)
    ((fun e => (if elt_nonneg e then 1 else -1) * scanDirection) <$> keyPattern).

(** ** Positions relative to intervals *)

Definition intervalCmp (interval : Interval E) (key : E) (expectedDirection : Z) : Location :=
  let cmp := sgn (cmpv key (start interval)) in
  let startOK := (cmp =? expectedDirection) || ((cmp =? 0) && startInclusive interval) in
  if negb startOK then BEHIND
  else
    let cmp := sgn (cmpv key (iend interval)) in
    let endOK := (cmp =? - expectedDirection) || ((cmp =? 0) && endInclusive interval) in
    if negb endOK then AHEAD else WITHIN.

Definition isKeyAheadOfInterval (interval : Interval E) (elt : E) (expectedDirection : Z) : bool :=
  bool_decide (intervalCmp interval elt expectedDirection = AHEAD).

(** [std::lower_bound] on [count] intervals from [first]. *)
Fixpoint lower_bound (fuel : nat) (l : list (Interval E)) (comp : Interval E -> bool) (first count : nat)
    : option nat :=
  match fuel with
  | O => None
  | S fuel =>
      if (count =? 0)%nat then Some first
      else
        let step := (count / 2)%nat in
        let it := (first + step)%nat in
        i ← l !! it;
        if comp i then lower_bound fuel l comp (S it) (count - (step + 1))%nat
        else lower_bound fuel l comp first step
  end.

(** The location and, unless the key is ahead of all intervals, the index of the interval. *)
Definition findIntervalForField (elt : E) (oil : OrderedIntervalList E) (expectedDirection : Z)
    : option (Location * nat) :=
  let l := intervals oil in
  i ← lower_bound (S (length l)) l (fun i => isKeyAheadOfInterval i elt expectedDirection) 0 (length l);
  if (i =? length l)%nat then Some (AHEAD, i)
  else
    iv ← l !! i;
    let where_ := intervalCmp iv elt expectedDirection in
    invariant (bool_decide (where_ = BEHIND) || bool_decide (where_ = WITHIN));;
    Some (where_, i).

(** ** Checking a key *)

(** The loop of [findLeftmostProblem] from field [i] on. *)
Fixpoint problem_from (i : nat) (fs : list (OrderedIntervalList E)) (cur : list nat) (dirs : list Z)
    (keyValues : list E) : option (option (nat * Location)) :=
  match cur with
  | [] => Some None
  | c :: cur =>
      match fs, dirs, keyValues with
      | field :: fs, d :: dirs, k :: keyValues =>
          currentInterval ← intervals field !! c;
          match intervalCmp currentInterval k d with
          | WITHIN => problem_from (S i) fs cur dirs keyValues
          | cmp => Some (Some (i, cmp))
          end
      | _, _, _ => None
      end
  end.

Definition findLeftmostProblem (ck : IndexBoundsChecker) (keyValues : list E)
    : option (option (nat * Location)) :=
  problem_from 0 (fields (bounds ck)) (curInterval ck) (expectedDirection ck) keyValues.

(** The loop of [spaceLeftToAdvance] over the first [n] fields. *)
Fixpoint space_left (n : nat) (fs : list (OrderedIntervalList E)) (cur : list nat) (dirs : list Z)
    (keyValues : list E) : option bool :=
  match n with
  | O => Some false
  | S n =>
      match fs, cur, dirs, keyValues with
      | field :: fs, c :: cur, d :: dirs, k :: keyValues =>
          if negb (c =? length (intervals field) - 1)%nat then Some true
          else
            ival ← intervals field !! c;
            if negb (endInclusive ival) then Some true
            else if - d =? sgn (cmpv k (iend ival)) then Some true
            else space_left n fs cur dirs keyValues
      | _, _, _, _ => None
      end
  end.

Definition spaceLeftToAdvance (ck : IndexBoundsChecker) (fieldsToCheck : nat) (keyValues : list E)
    : option bool :=
  space_left fieldsToCheck (fields (bounds ck)) (curInterval ck) (expectedDirection ck) keyValues.

(** The loop of [isValidKey]. *)
Fixpoint valid_from (fs : list (OrderedIntervalList E)) (dirs : list Z) (key : list E) : option bool :=
  match key with
  | [] => Some true
  | elt :: key =>
      match fs, dirs with
      | field :: fs, d :: dirs =>
          '(loc, _) ← findIntervalForField elt field d;
          if bool_decide (loc = WITHIN) then valid_from fs dirs key else Some false
      | _, _ => None
      end
  end.

Definition isValidKey (ck : IndexBoundsChecker) (key : list E) : option bool :=
  valid_from (fields (bounds ck)) (expectedDirection ck) key.

(** The assignments [_curInterval[i] = 0] for the fields from [i] on. *)
Definition reset_from (i : nat) (cur : list nat) : list nat := take i cur ++ replicate (length cur - i) 0%nat.

(** [vector::resize]. *)
Definition resize {A} (n : nat) (a : A) (l : list A) : list A := take n l ++ replicate (n - length l) a.

(** The assignments to [keySuffix] and [suffixInclusive] for the fields from [i] on. *)
Fixpoint fill_suffix (i : nat) (fs : list (OrderedIntervalList E)) (cur : list nat)
    (sfx : list (option E)) (incl : list bool) : option (list (option E) * list bool) :=
  match cur, fs, sfx, incl with
  | [], _, _, _ => Some (sfx, incl)
  | c :: cur, oil :: fs, s :: sfx, b :: incl =>
      '(s, b) ← match i with
                | O => iv ← intervals oil !! c; Some (Some (start iv), startInclusive iv)
                | S _ => Some (s, b)
                end;
      '(sfx, incl) ← fill_suffix (pred i) fs cur sfx incl;
      Some (s :: sfx, b :: incl)
  | _, _, _, _ => None
  end.

Definition with_cur (ck : IndexBoundsChecker) (cur : list nat) : IndexBoundsChecker :=
  {| ck with curInterval := cur |}.

(** Ask the caller to move to the starts of the current intervals of the fields from [f] on. *)
Definition advance_to_starts (ck : IndexBoundsChecker) (key : list E) (out : IndexSeekPoint) (f : nat)
    : option (IndexBoundsChecker * IndexSeekPoint * KeyState) :=
  '(sfx, incl) ← fill_suffix f (fields (bounds ck)) (curInterval ck) (keySuffix out) (suffixInclusive out);
  Some (ck, mkIndexSeekPoint key f false sfx incl, MUST_ADVANCE).

(** The loop that finds intervals for the fields from [f] on. *)
Fixpoint place_from (fuel : nat) (ck : IndexBoundsChecker) (key : list E) (out : IndexSeekPoint) (f : nat)
    : option (IndexBoundsChecker * IndexSeekPoint * KeyState) :=
  match fuel with
  | O => None
  | S fuel =>
      if (f <? length (curInterval ck))%nat then
        k ← key !! f;
        field ← fields (bounds ck) !! f;
        d ← expectedDirection ck !! f;
        '(loc, n) ← findIntervalForField k field d;
        match loc with
        | WITHIN => place_from fuel (with_cur ck (<[f := n]> (curInterval ck))) key out (S f)
        | BEHIND =>
            advance_to_starts (with_cur ck (reset_from (S f) (<[f := n]> (curInterval ck)))) key out f
        | AHEAD =>
            space ← spaceLeftToAdvance ck f key;
            if negb space then Some (ck, out, DONE)
            else Some (with_cur ck (reset_from f (curInterval ck)),
                       mkIndexSeekPoint key f true (keySuffix out) (suffixInclusive out), MUST_ADVANCE)
        end
      else Some (ck, out, VALID)
  end.

Definition checkKey (ck : IndexBoundsChecker) (key : list E) (out : IndexSeekPoint)
    : option (IndexBoundsChecker * IndexSeekPoint * KeyState) :=
  let n := length (curInterval ck) in
  invariant (0 <? n)%nat;;
  let out := {| out with keySuffix := resize n None (keySuffix out);
                         suffixInclusive := resize n false (suffixInclusive out) |} in
  invariant (length key =? n)%nat;;
  p ← findLeftmostProblem ck key;
  '(ck, p) ← match p with
             | Some (f, BEHIND) =>
                 let ck := with_cur ck (reset_from f (curInterval ck)) in
                 p ← findLeftmostProblem ck key; Some (ck, p)
             | _ => Some (ck, p)
             end;
  match p with
  | None => Some (ck, out, VALID)
  | Some (f, BEHIND) => advance_to_starts ck key out f
  | Some (f, _) => place_from (S n) ck key out f
  end.

(** The loop of [getStartSeekPoint]. *)
Fixpoint start_suffix (fs : list (OrderedIntervalList E)) : option (list (option E) * list bool) :=
  match fs with
  | [] => Some ([], [])
  | f :: fs =>
      match intervals f with
      | [] => None
      | iv :: _ => '(sfx, incl) ← start_suffix fs; Some (Some (start iv) :: sfx, startInclusive iv :: incl)
      end
  end.

(** The seek point to start from; [None] when the function returns false. *)
Definition getStartSeekPoint (ck : IndexBoundsChecker) (out : IndexSeekPoint) : option IndexSeekPoint :=
  '(sfx, incl) ← start_suffix (fields (bounds ck));
  Some (mkIndexSeekPoint (keyPrefix out) 0 false sfx incl).
End IndexBoundsChecker.
Arguments IndexSeekPoint E : clear implicits.
Arguments IndexBoundsChecker E : clear implicits.
