(* ===== verification/BoundsCheckerSpec.v ===== *)
(** * Correctness of the index bounds checker

    Keys are ordered field by field, each in the direction in which the scan moves through
    it.  [findIntervalForField] locates a value among valid intervals. *)

From Stdlib Require Import ZArith Lia.
From stdpp Require Import prelude.
From S2P Require Import Prelude TotalOrder CompareNumbers Bson ElementOrder Interval IndexBounds IndexBoundsChecker.

Open Scope Z_scope.

Section spec.
Context `{EO : ElementOrder E}.
Implicit Types (x k : E) (key : list E) (d : Z) (oil : OrderedIntervalList E).

(** ** One field *)

Definition direction (d : Z) : Prop := d = 1 \/ d = -1.

(** [x] is at or after [k] in the direction [d]. *)
Definition le_dir d k x : bool := 0 <=? d * cmpv x k.

Lemma le_dir_1 k x : le_dir 1 k x = negb (cmpv x k <? 0).
Proof. unfold le_dir. generalize (cmpv x k). intros c. lia. Qed.

Lemma le_dir_m1 k x : le_dir (-1) k x = negb (0 <? cmpv x k).
Proof. unfold le_dir. generalize (cmpv x k). intros c. lia. Qed.

Lemma intervalCmp_1 i k :
  intervalCmp i k 1 =
  if negb ((0 <? cmpv k (start i)) || (cmpv k (start i) =? 0) && startInclusive i) then BEHIND
  else if negb ((cmpv k (iend i) <? 0) || (cmpv k (iend i) =? 0) && endInclusive i) then AHEAD else WITHIN.
Proof. unfold intervalCmp. change (- (1)) with (-1). by rewrite !sgn_eqb_0, sgn_eqb_1, sgn_eqb_m1. Qed.

Lemma intervalCmp_m1 i k :
  intervalCmp i k (-1) =
  if negb ((cmpv k (start i) <? 0) || (cmpv k (start i) =? 0) && startInclusive i) then BEHIND
  else if negb ((0 <? cmpv k (iend i)) || (cmpv k (iend i) =? 0) && endInclusive i) then AHEAD else WITHIN.
Proof. unfold intervalCmp. change (- (-1)) with 1. by rewrite !sgn_eqb_0, sgn_eqb_1, sgn_eqb_m1. Qed.

Lemma interval_valid_1 i :
  interval_valid 1 i = (((cmpv (iend i) (start i) =? 0) && startInclusive i && endInclusive i) || (0 <? cmpv (iend i) (start i))).
Proof. unfold interval_valid. rewrite sgn_eqb_0, sgn_eqb_1. by destruct (_ && _). Qed.

Lemma interval_valid_m1 i :
  interval_valid (-1) i = (((cmpv (iend i) (start i) =? 0) && startInclusive i && endInclusive i) || (cmpv (iend i) (start i) <? 0)).
Proof. unfold interval_valid. rewrite sgn_eqb_0, sgn_eqb_m1. by destruct (_ && _). Qed.
End spec.

(** Decide a goal about the positions of elements relative to intervals, in both directions. *)
Ltac oriented := rewrite ?le_dir_1, ?le_dir_m1, ?intervalCmp_1, ?intervalCmp_m1, ?interval_valid_1, ?interval_valid_m1.

Ltac location_order l :=
  oriented; to_ranks l;
  repeat match goal with
  | |- context [startInclusive ?i] => destruct (startInclusive i)
  | |- context [endInclusive ?i] => destruct (endInclusive i)
  end;
  rewrite ?andb_true_r, ?andb_false_r, ?orb_false_r; repeat case_if; intros; (done || (exfalso; lia) || lia).

Section positions.
Context `{EO : ElementOrder E}.
Implicit Types (x k : E) (key : list E) (d : Z) (oil : OrderedIntervalList E).

Lemma ahead_later d i k x :
  direction d -> intervalCmp i k d = AHEAD -> le_dir d k x = true -> intervalCmp i x d = AHEAD.
Proof. intros [-> | ->]; location_order [start i; iend i; k; x]. Qed.

Lemma le_dir_trans d x y z : direction d -> le_dir d x y = true -> le_dir d y z = true -> le_dir d x z = true.
Proof. intros [-> | ->]; location_order [x; y; z]. Qed.

Lemma ahead_before d i j k :
  direction d -> interval_valid d i = true -> interval_valid d j = true -> le_dir d (iend i) (start j) = true ->
  intervalCmp j k d = AHEAD -> intervalCmp i k d = AHEAD.
Proof. intros [-> | ->]; location_order [start i; iend i; start j; iend j; k]. Qed.

Lemma behind_after d i j k :
  direction d -> interval_valid d i = true -> interval_valid d j = true -> le_dir d (iend i) (start j) = true ->
  intervalCmp i k d = BEHIND -> intervalCmp j k d = BEHIND.
Proof. intros [-> | ->]; location_order [start i; iend i; start j; iend j; k]. Qed.

Lemma valid_le_dir d i : direction d -> interval_valid d i = true -> le_dir d (start i) (iend i) = true.
Proof. intros [-> | ->]; location_order [start i; iend i]. Qed.

(** Every interval of a valid list ends before a later one starts. *)
Lemma valid_ordered d oil a b i j :
  direction d -> oil_isValidFor oil d = true -> (a < b)%nat ->
  intervals oil !! a = Some i -> intervals oil !! b = Some j -> le_dir d (iend i) (start j) = true.
Proof.
  intros Hd [Hv Hn]%andb_true_iff Hab Hi Hj. rewrite neighbours_valid_lookup in Hn. rewrite forallb_forall in Hv.
  assert (forall m i j, neighbour_ok m i j = true -> direction m -> le_dir m (iend i) (start j) = true) as Hok.
  { intros m i' j' Hm [-> | ->]; unfold neighbour_ok in Hm; revert Hm;
      rewrite ?sgn_eqb_0, ?sgn_eqb_1, ?sgn_eqb_m1; location_order [start j'; iend i']. }
  revert j Hj. induction Hab as [|b Hab IH]; intros j Hj; [by eapply Hok, Hd; eapply Hn|].
  destruct (lookup_lt_is_Some_2 (intervals oil) b) as [m Hm]; [apply lookup_lt_Some in Hj; lia|].
  eapply le_dir_trans; [done|exact (IH m Hm)|]. eapply le_dir_trans; [done| |eapply Hok, Hd; by eapply Hn].
  apply valid_le_dir; [done|]. apply Hv, list_elem_of_In. by eapply list_elem_of_lookup_2.
Qed.

Lemma valid_lookup d oil a i : oil_isValidFor oil d = true -> intervals oil !! a = Some i -> interval_valid d i = true.
Proof.
  intros [Hv _]%andb_true_iff Hi. rewrite forallb_forall in Hv. apply Hv, list_elem_of_In. by eapply list_elem_of_lookup_2.
Qed.

(** ** The binary search *)

Lemma lower_bound_spec l (comp : Interval E -> bool) fuel : forall first count,
  (count < fuel)%nat -> (first + count <= length l)%nat ->
  (forall a b i j, (a < b)%nat -> l !! a = Some i -> l !! b = Some j -> comp j = true -> comp i = true) ->
  exists p, lower_bound fuel l comp first count = Some p /\ (first <= p <= first + count)%nat /\
    (forall a i, (first <= a < p)%nat -> l !! a = Some i -> comp i = true) /\
    (forall a i, (p <= a < first + count)%nat -> l !! a = Some i -> comp i = false).
Proof.
  induction fuel as [|fuel IH]; intros first count Hfuel Hlen Hmono; [lia|]. cbn [lower_bound].
  destruct (Nat.eqb_spec count 0) as [->|Hc]; [exists first; split_and!; [done|lia|lia|lia..]|].
  pose proof (Nat.div_lt count 2 ltac:(lia) ltac:(lia)) as Hstep.
  destruct (lookup_lt_is_Some_2 l (first + count / 2)) as [m Hm]; [lia|]. rewrite Hm. cbn [mbind option_bind].
  destruct (comp m) eqn:Em.
  - destruct (IH (S (first + count / 2)) (count - (count / 2 + 1))%nat) as (p & Hp & Hr & H1 & H2); [lia|lia|done|].
    exists p. split_and!; [done|lia|lia| |].
    + intros a i Ha Hi. destruct (decide (a < S (first + count / 2))%nat); [|eapply H1; [|done]; lia].
      destruct (decide (a = first + count / 2)%nat) as [->|]; [congruence|]. eapply (Hmono a (first + count / 2)%nat); eauto; lia.
    + intros a i Ha Hi. eapply H2; [|done]. lia.
  - destruct (IH first (count / 2)%nat) as (p & Hp & Hr & H1 & H2); [lia|lia|done|].
    exists p. split_and!; [done|lia|lia|done|].
    intros a i Ha Hi. destruct (decide (a < first + count / 2)%nat); [eapply H2; [|done]; lia|].
    destruct (decide (a = first + count / 2)%nat) as [->|]; [congruence|].
    apply not_true_iff_false. intros Ha'. rewrite (Hmono (first + count / 2)%nat a m i) in Em; done || lia.
Qed.

(** ** Locating a value *)

(** [k] is in an interval of the list. *)
Definition in_field d oil k : bool := existsb (fun i => bool_decide (intervalCmp i k d = WITHIN)) (intervals oil).

(** All intervals before the [p]th are behind [k]. *)
Definition past d oil (p : nat) k : Prop := forall a i, (a < p)%nat -> intervals oil !! a = Some i -> intervalCmp i k d = AHEAD.

Lemma findInterval_run d oil k :
  direction d -> oil_isValidFor oil d = true ->
  exists loc p, findIntervalForField k oil d = Some (loc, p) /\ past d oil p k /\
    match loc with
    | AHEAD => p = length (intervals oil)
    | _ => exists i, intervals oil !! p = Some i /\ intervalCmp i k d = loc
    end.
Proof.
  intros Hd Hv. unfold findIntervalForField.
  destruct (lower_bound_spec (intervals oil) (fun i => isKeyAheadOfInterval i k d) (S (length (intervals oil))) 0
    (length (intervals oil))) as (p & -> & Hr & H1 & H2); [lia|lia| |].
  { intros a b i j Hab Hi Hj Hc. unfold isKeyAheadOfInterval in *. apply bool_decide_eq_true in Hc.
    apply bool_decide_eq_true. eapply (ahead_before d i j); eauto using valid_lookup, valid_ordered. }
  cbn [mbind option_bind].
  assert (past d oil p k) as Hp.
  { intros a i Ha Hi. specialize (H1 a i ltac:(lia) Hi). unfold isKeyAheadOfInterval in H1. by apply bool_decide_eq_true in H1. }
  destruct (Nat.eqb_spec p (length (intervals oil))) as [->|Hne]; [by eexists _, _|].
  destruct (lookup_lt_is_Some_2 (intervals oil) p) as [i Hi]; [lia|]. rewrite Hi. cbn [mbind option_bind].
  specialize (H2 p i ltac:(lia) Hi). unfold isKeyAheadOfInterval in H2. apply bool_decide_eq_false in H2.
  rewrite invariant_bind by (destruct (intervalCmp i k d); [done|done|by destruct H2]).
  exists (intervalCmp i k d), p. split_and!; [done|done|].
  destruct (intervalCmp i k d) eqn:El; [by exists i|by exists i|done].
Qed.

Lemma past_in_field d oil k : past d oil (length (intervals oil)) k -> in_field d oil k = false.
Proof.
  intros Hp. unfold in_field. apply not_true_iff_false. intros (i & Hi & Hw)%existsb_exists.
  apply list_elem_of_In, list_elem_of_lookup in Hi as [a Ha]. apply bool_decide_eq_true in Hw.
  rewrite (Hp a i) in Hw; [done|by eapply lookup_lt_Some|done].
Qed.

Lemma past_later d oil p k x : direction d -> past d oil p k -> le_dir d k x = true -> past d oil p x.
Proof. intros Hd Hp Hx a i Ha Hi. eapply ahead_later; eauto. Qed.

(** Between two intervals there is nothing. *)
Lemma behind_in_field d oil p i k :
  direction d -> oil_isValidFor oil d = true -> past d oil p k ->
  intervals oil !! p = Some i -> intervalCmp i k d = BEHIND -> in_field d oil k = false.
Proof.
  intros Hd Hv Hp Hi Hb. unfold in_field. apply not_true_iff_false. intros (j & Hj & Hw)%existsb_exists.
  apply list_elem_of_In, list_elem_of_lookup in Hj as [a Ha]. apply bool_decide_eq_true in Hw.
  destruct (Nat.lt_total a p) as [Hlt|[->|Hgt]]; [by rewrite (Hp a j) in Hw|congruence|].
  rewrite (behind_after d i j) in Hw; eauto using valid_lookup, valid_ordered. done.
Qed.

Lemma within_in_field d oil p i k :
  intervals oil !! p = Some i -> intervalCmp i k d = WITHIN -> in_field d oil k = true.
Proof.
  intros Hi Hw. apply existsb_exists. exists i. split; [|by apply bool_decide_eq_true].
  apply list_elem_of_In. by eapply list_elem_of_lookup_2.
Qed.

(** On a valid list of intervals the binary search of [findIntervalForField] answers
    [WITHIN] exactly for the values in some interval, with the index of one; otherwise it
    gives the first interval that is still to come, or [AHEAD] when there is none. *)
Theorem findIntervalForField_correct d oil k :
  direction d -> oil_isValidFor oil d = true ->
  exists loc p, findIntervalForField k oil d = Some (loc, p) /\
    (loc = WITHIN <-> in_field d oil k = true) /\
    (forall a i, intervals oil !! a = Some i -> (a < p)%nat -> intervalCmp i k d = AHEAD) /\
    match loc with
    | AHEAD => p = length (intervals oil)
    | _ => exists i, intervals oil !! p = Some i /\ intervalCmp i k d = loc
    end.
Proof.
  intros Hd Hv. destruct (findInterval_run d oil k Hd Hv) as (loc & p & Hf & Hp & Hl). exists loc, p.
  split_and!; [done| |by intros; eapply Hp|done]. destruct loc.
  - destruct Hl as (i & Hi & Hb). by rewrite (behind_in_field d oil p i k).
  - destruct Hl as (i & Hi & Hb). by rewrite (within_in_field d oil p i k).
  - subst p. by rewrite past_in_field.
Qed.
End positions.

(** ** An instance *)

Definition two_ranges : OrderedIntervalList (list Z * BSONValue) := mkOrderedIntervalList [ivAB; point eltC] [].

Lemma findIntervalForField_correct_witness :
  exists loc p, findIntervalForField eltC two_ranges 1 = Some (loc, p) /\ (loc = WITHIN <-> in_field 1 two_ranges eltC = true).
Proof.
  destruct (findIntervalForField_correct 1 two_ranges eltC) as (loc & p & Hf & Hw & _).
  - left. reflexivity.
  - vm_compute. reflexivity.
  - exists loc, p. split; assumption.
Defined.
