(* ===== verification/CheckKey.v ===== *)
(** * What [checkKey] tells an index scan

    A scan moves through the keys field by field, each field in its own direction.  The
    theorems say that a key that [checkKey] accepts is within the bounds, that no key from
    the current one up to the seek point it gives is, and that after [DONE] no later key
    is; and that [isValidKey] decides whether a key is within the bounds. *)

From Stdlib Require Import ZArith Lia.
From stdpp Require Import prelude.
From S2P Require Import Prelude TotalOrder CompareNumbers Bson ElementOrder Interval IndexBounds IndexBoundsChecker BoundsCheckerSpec.

Open Scope Z_scope.

Section keys.
Context `{EO : ElementOrder E}.
Implicit Types (x k : E) (key : list E) (d : Z) (dirs : list Z) (cur : list nat) (field : OrderedIntervalList E)
  (fs : list (OrderedIntervalList E)) (q : list (E * bool)).

(** ** The order of the scan, and the bounds *)

(** Compare two keys in the order of the scan. *)
Fixpoint scan_cmp dirs (a b : list E) : Z :=
  match dirs, a, b with
  | d :: dirs, x :: a, y :: b => if d * cmpv x y =? 0 then scan_cmp dirs a b else d * cmpv x y
  | _, _, _ => 0
  end.

Fixpoint in_bounds fs dirs key : bool :=
  match fs, dirs, key with
  | field :: fs, d :: dirs, k :: key => in_field d field k && in_bounds fs dirs key
  | _, _, _ => true
  end.

(** A position of the scan: values, each with whether an equal value is still to come. *)
Fixpoint before_query dirs q key : bool :=
  match dirs, q, key with
  | d :: dirs, (e, inclusive) :: q, k :: key =>
      if d * cmpv k e <? 0 then true
      else if 0 <? d * cmpv k e then false
      else if inclusive then before_query dirs q key else true
  | _, _, _ => false
  end.

(** A position that says, for a key of [n] fields, on which side it lies. *)
Fixpoint covers (n : nat) q : bool :=
  match n, q with
  | O, [] => true
  | S n, (_, inclusive) :: q => negb inclusive || covers n q
  | _, _ => false
  end.

(** The position that a seek point stands for. *)
Fixpoint prefix_query (exclusive : bool) (n : nat) key : option (list (E * bool)) :=
  match n, key with
  | O, _ => Some []
  | S n, k :: key =>
      q ← prefix_query exclusive n key;
      Some ((k, negb (exclusive && (n =? 0)%nat)) :: q)
  | S _, [] => None
  end.

Fixpoint suffix_query (sfx : list (option E)) (incl : list bool) : option (list (E * bool)) :=
  match sfx, incl with
  | [], [] => Some []
  | Some e :: sfx, b :: incl => q ← suffix_query sfx incl; Some ((e, b) :: q)
  | _, _ => None
  end.

Definition seek_query (sp : IndexSeekPoint E) : option (list (E * bool)) :=
  p ← prefix_query (prefixExclusive sp) (prefixLen sp) (keyPrefix sp);
  if prefixExclusive sp then (if (prefixLen sp =? 0)%nat then None else Some p)
  else
    s ← suffix_query (drop (prefixLen sp) (keySuffix sp)) (drop (prefixLen sp) (suffixInclusive sp));
    Some (p ++ s).

(** ** Well-formed checkers *)

Definition field_ok field d : Prop := direction d /\ oil_isValidFor field d = true.

Definition cur_ok fs cur : Prop := Forall2 (fun field c => (c < length (intervals field))%nat) fs cur.

Record checker_ok (ck : IndexBoundsChecker E) : Prop := {
  cko_some : (0 < length (fields (bounds ck)))%nat;
  cko_fields : Forall2 field_ok (fields (bounds ck)) (expectedDirection ck);
  cko_cur : cur_ok (fields (bounds ck)) (curInterval ck);
}.

(** The values of the first [f] fields are in the current intervals. *)
Fixpoint within_prefix (f : nat) fs cur dirs key : Prop :=
  match f with
  | O => True
  | S f =>
      match fs, cur, dirs, key with
      | field :: fs, c :: cur, d :: dirs, k :: key =>
          (exists iv, intervals field !! c = Some iv /\ intervalCmp iv k d = WITHIN) /\ within_prefix f fs cur dirs key
      | _, _, _, _ => False
      end
  end.

(** Field [f] of the key has the property [P] of its intervals, current interval, direction
    and value. *)
Fixpoint at_field (P : OrderedIntervalList E -> nat -> Z -> E -> Prop) (f : nat) fs cur dirs key : Prop :=
  match fs, cur, dirs, key with
  | field :: fs, c :: cur, d :: dirs, k :: key =>
      match f with O => P field c d k | S f => at_field P f fs cur dirs key end
  | _, _, _, _ => False
  end.
End keys.

(** Take the four lists of fields apart together. *)
Ltac fields_cases fs dirs cur key :=
  destruct fs as [|field fs], dirs as [|d dirs], cur as [|c cur], key as [|k key];
  repeat match goal with
  | H : Forall2 _ (_ :: _) [] |- _ => inversion H
  | H : Forall2 _ [] (_ :: _) |- _ => inversion H
  | H : cur_ok (_ :: _) [] |- _ => inversion H
  | H : cur_ok [] (_ :: _) |- _ => inversion H
  | H : Forall2 field_ok (_ :: _) (_ :: _) |- _ =>
      let Hd := fresh "Hd" in let Hv := fresh "Hv" in let Hfs := fresh "Hfs" in
      apply Forall2_cons in H as [[Hd Hv] Hfs]
  | H : cur_ok (_ :: _) (_ :: _) |- _ =>
      let Hc := fresh "Hc" in let Hcur := fresh "Hcur" in
      apply Forall2_cons in H as [Hc Hcur]; change (cur_ok fs cur) in Hcur
  | H : length (_ :: _) = length (_ :: _) |- _ => injection H as H
  | H : length _ = length _ |- _ => progress simpl in H; lia
  end.

Section lemmas.
Context `{EO : ElementOrder E}.
Implicit Types (x k : E) (key : list E) (d : Z) (dirs : list Z) (cur : list nat) (field : OrderedIntervalList E)
  (fs : list (OrderedIntervalList E)) (q : list (E * bool)).

(** ** One field *)

Lemma dir_flip d x y : direction d -> Z.sgn (d * cmpv y x) = - Z.sgn (d * cmpv x y).
Proof. pose proof (cmp_flip x y). intros [-> | ->]; unfold cmpv; lia. Qed.

Lemma scan_le_cases d dirs k x key key' :
  direction d -> scan_cmp (d :: dirs) (k :: key) (x :: key') <= 0 ->
  le_dir d k x = true /\ (0 < d * cmpv x k \/ (d * cmpv x k = 0 /\ scan_cmp dirs key key' <= 0)).
Proof.
  intros Hd. pose proof (dir_flip d k x Hd). unfold le_dir. cbn [scan_cmp].
  destruct (Z.eqb_spec (d * cmpv k x) 0); intros; lia.
Qed.

Lemma behind_start d iv x :
  direction d ->
  (intervalCmp iv x d = BEHIND <-> d * cmpv x (start iv) < 0 \/ (d * cmpv x (start iv) = 0 /\ startInclusive iv = false)).
Proof.
  intros [-> | ->]; oriented; generalize (cmpv x (start iv)) (cmpv x (iend iv)); intros a b;
    destruct (startInclusive iv), (endInclusive iv); rewrite ?andb_true_r, ?andb_false_r, ?orb_false_r;
    repeat case_if; split; intros; (done || (exfalso; lia) || lia).
Qed.

(** From the inclusive end of an interval on, there is only the end in it. *)
Lemma at_end_later d iv k x :
  direction d -> intervalCmp iv k d = WITHIN -> - d <> sgn (cmpv k (iend iv)) ->
  0 < d * cmpv x k -> intervalCmp iv x d = AHEAD.
Proof.
  intros [-> | ->] Hw Hne Hx; revert Hw.
  - assert ((cmpv k (iend iv) <? 0) = false) as Hk by (unfold sgn in Hne; repeat case_if; lia).
    assert ((0 <? cmpv x k) = true) as Hx' by lia. clear Hne Hx. revert Hk Hx'. location_order [start iv; iend iv; k; x].
  - assert ((0 <? cmpv k (iend iv)) = false) as Hk by (unfold sgn in Hne; repeat case_if; lia).
    assert ((cmpv x k <? 0) = true) as Hx' by lia. clear Hne Hx. revert Hk Hx'. location_order [start iv; iend iv; k; x].
Qed.

(** ** The position after which the scan goes on *)

Fixpoint starts_query fs cur : option (list (E * bool)) :=
  match fs, cur with
  | field :: fs, c :: cur =>
      iv ← intervals field !! c; q ← starts_query fs cur; Some ((start iv, startInclusive iv) :: q)
  | _, _ => Some []
  end.

(** Nothing comes before the starts of the first intervals. *)
Lemma before_first fs : forall dirs cur q key,
  Forall2 field_ok fs dirs -> Forall (eq 0%nat) cur -> starts_query fs cur = Some q ->
  before_query dirs q key = true -> in_bounds fs dirs key = false.
Proof.
  induction fs as [|field fs IH]; intros dirs cur q key Hok H0 Hq Hb.
  { inversion Hok; subst. by destruct q as [|[]], key. }
  inversion Hok as [|? d ? dirs' [Hd Hv] Hfs]; subst. destruct cur as [|c cur]; [simpl in Hq; by simplify_eq|].
  apply Forall_cons in H0 as [<- H0]. cbn [starts_query] in Hq.
  destruct (intervals field !! 0%nat) as [iv|] eqn:Hiv; [|done]. cbn [mbind option_bind] in Hq.
  destruct (starts_query fs cur) as [q'|] eqn:Hq'; [|done]. cbn [mbind option_bind] in Hq. simplify_eq.
  destruct key as [|k key]; [done|]. cbn [before_query] in Hb. cbn [in_bounds].
  destruct (decide (intervalCmp iv k d = BEHIND)) as [El|El].
  - rewrite (behind_in_field d field 0 iv k); [done|done|done| |done|done]. intros a i Ha. lia.
  - apply andb_false_iff. right. eapply IH; [done|done|done|]. rewrite (behind_start d iv k Hd) in El.
    destruct (Z.ltb_spec (d * cmpv k (start iv)) 0); [lia|]. destruct (Z.ltb_spec 0 (d * cmpv k (start iv))); [done|].
    destruct (startInclusive iv); [done|]. destruct El. right. split; [lia|done].
Qed.

Lemma starts_query_some fs cur : cur_ok fs cur -> exists q, starts_query fs cur = Some q.
Proof.
  induction 1 as [|field c fs cur Hc _ [q IH]]; [by exists []|]. cbn [starts_query].
  destruct (lookup_lt_is_Some_2 _ _ Hc) as [iv ->]. cbn [mbind option_bind]. rewrite IH. cbn [mbind option_bind]. by eexists.
Qed.

Lemma starts_query_covers fs cur q : cur_ok fs cur -> starts_query fs cur = Some q -> covers (length fs) q = true.
Proof.
  intros Hcur. revert q. induction Hcur as [|field c fs cur Hc Hcur IH]; intros q Hq; cbn [starts_query] in Hq; [by simplify_eq|].
  destruct (intervals field !! c); [|done]. cbn [mbind option_bind] in Hq.
  destruct (starts_query fs cur) as [q'|]; [|done]. cbn [mbind option_bind] in Hq. simplify_eq. simpl.
  rewrite (IH q' eq_refl). apply orb_true_r.
Qed.

(** Field [f] is before its current interval and after all earlier ones. *)
Definition between field (c : nat) d k : Prop :=
  past d field c k /\ exists iv, intervals field !! c = Some iv /\ intervalCmp iv k d = BEHIND.

(** A position after the current key with nothing of the bounds in between. *)
Definition skips fs dirs key q : Prop :=
  covers (length fs) q = true /\ before_query dirs q key = true /\
  (forall key', length key' = length fs -> scan_cmp dirs key key' <= 0 -> before_query dirs q key' = true ->
    in_bounds fs dirs key' = false).

Lemma skips_prefix field fs d dirs k key q :
  direction d -> skips fs dirs key q -> skips (field :: fs) (d :: dirs) (k :: key) ((k, true) :: q).
Proof.
  intros Hd (Hcov & Hb & Hk). split_and!; [done| |].
  - cbn [before_query]. unfold cmpv. rewrite cmp_refl, Z.mul_0_r. done.
  - intros [|x key'] Hlen Hle Hbq; [done|]. injection Hlen as Hlen.
    destruct (scan_le_cases _ _ _ _ _ _ Hd Hle) as [_ Hc]. cbn [before_query] in Hbq. cbn [in_bounds].
    destruct (Z.ltb_spec (d * cmpv x k) 0); [lia|]. destruct (Z.ltb_spec 0 (d * cmpv x k)); [done|].
    destruct Hc as [Hc|[_ Hle']]; [lia|]. rewrite (Hk key' Hlen Hle' Hbq). by rewrite andb_false_r.
Qed.

(** Seek to the starts of the current intervals from field [f] on. *)
Lemma seek_starts f : forall fs dirs cur key,
  Forall2 field_ok fs dirs -> length key = length fs -> cur_ok fs cur ->
  at_field between f fs cur dirs key -> Forall (eq 0%nat) (drop (S f) cur) ->
  exists p s, prefix_query false f key = Some p /\ starts_query (drop f fs) (drop f cur) = Some s /\ skips fs dirs key (p ++ s).
Proof.
  induction f as [|f IH]; intros fs dirs cur key Hok Hlen Hcur Hat H0; fields_cases fs dirs cur key; try done.
  - cbn [drop] in H0. rewrite drop_0 in H0. destruct Hat as (Hp & iv & Hiv & Hb).
    destruct (starts_query_some fs cur) as [s Hs]; [done|].
    exists [], ((start iv, startInclusive iv) :: s). rewrite !drop_0. cbn [starts_query]. rewrite Hiv, Hs.
    split_and!; [done|done|]. split_and!.
    + simpl. rewrite (starts_query_covers fs cur s) by done. apply orb_true_r.
    + apply (behind_start d iv k Hd) in Hb. cbn [app before_query].
      destruct (Z.ltb_spec (d * cmpv k (start iv)) 0); [done|]. destruct Hb as [Hb|[Hb ->]]; [lia|]. by rewrite Hb.
    + intros [|x key'] Hlen' Hle Hbq; [done|]. injection Hlen' as Hlen'.
      destruct (scan_le_cases _ _ _ _ _ _ Hd Hle) as [Hkx _]. cbn [in_bounds].
      destruct (decide (intervalCmp iv x d = BEHIND)) as [El|El].
      { rewrite (behind_in_field d field c iv x); [done|done|done| |done|done]. by eapply past_later. }
      apply andb_false_iff. right. rewrite (behind_start d iv x Hd) in El. cbn [app before_query] in Hbq.
      destruct (Z.ltb_spec (d * cmpv x (start iv)) 0); [lia|]. destruct (Z.ltb_spec 0 (d * cmpv x (start iv))); [done|].
      destruct (startInclusive iv); [by eapply before_first|]. destruct El. right. split; [lia|done].
  - destruct (IH fs dirs cur key) as (p & s & Hp & Hs & Hsk); [done..|].
    exists ((k, true) :: p), s. cbn [prefix_query drop]. rewrite Hp. split_and!; [done|done|].
    by apply (skips_prefix field fs d dirs k key (p ++ s)).
Qed.

(** The value of a field is after all its intervals. *)
Definition beyond field (c : nat) d k : Prop := past d field (length (intervals field)) k.

Lemma beyond_later fs dirs cur key key' :
  Forall2 field_ok fs dirs -> length key' = length fs -> scan_cmp dirs key key' <= 0 ->
  at_field beyond 0 fs cur dirs key -> in_bounds fs dirs key' = false.
Proof.
  intros Hok Hlen Hle Hat. fields_cases fs dirs cur key; try done. destruct key' as [|x key']; [done|].
  destruct (scan_le_cases _ _ _ _ _ _ Hd Hle) as [Hkx _]. cbn [in_bounds].
  rewrite past_in_field; [done|]. by eapply past_later.
Qed.

(** Seek past all keys with the same values in the first [f] fields. *)
Lemma seek_past f : forall fs dirs cur key,
  Forall2 field_ok fs dirs -> length key = length fs -> cur_ok fs cur ->
  at_field beyond (S f) fs cur dirs key ->
  exists p, prefix_query true (S f) key = Some p /\ skips fs dirs key p.
Proof.
  induction f as [|f IH]; intros fs dirs cur key Hok Hlen Hcur Hat; fields_cases fs dirs cur key; try done.
  - exists [(k, false)]. cbn [prefix_query]. split; [done|]. split_and!; [done| |].
    + cbn [before_query]. unfold cmpv. by rewrite cmp_refl, Z.mul_0_r.
    + intros [|x key'] Hlen' Hle Hbq; [done|]. injection Hlen' as Hlen'.
      destruct (scan_le_cases _ _ _ _ _ _ Hd Hle) as [_ Hc']. cbn [before_query] in Hbq. cbn [in_bounds].
      destruct Hc' as [Hgt|[_ Hle']].
      * destruct (Z.ltb_spec (d * cmpv x k) 0); [lia|]. destruct (Z.ltb_spec 0 (d * cmpv x k)); [done|lia].
      * rewrite (beyond_later fs dirs cur key key'); [by rewrite andb_false_r|done..].
  - destruct (IH fs dirs cur key) as (p & Hp & Hsk); [done..|].
    exists ((k, true) :: p). cbn [prefix_query] in Hp |- *. rewrite Hp. split; [done|]. by apply skips_prefix.
Qed.

(** With no space left in the first [f] fields, nothing is to come. *)
Lemma nothing_left f : forall fs dirs cur key,
  Forall2 field_ok fs dirs -> length key = length fs -> cur_ok fs cur ->
  within_prefix f fs cur dirs key -> at_field beyond f fs cur dirs key -> space_left f fs cur dirs key = Some false ->
  forall key', length key' = length fs -> scan_cmp dirs key key' <= 0 -> in_bounds fs dirs key' = false.
Proof.
  induction f as [|f IH]; intros fs dirs cur key Hok Hlen Hcur Hw Hat Hsp key' Hlen' Hle.
  { by eapply beyond_later. }
  fields_cases fs dirs cur key; try done. destruct key' as [|x key']; [done|]. injection Hlen' as Hlen'.
  destruct (scan_le_cases _ _ _ _ _ _ Hd Hle) as [_ Hc']. cbn [in_bounds]. cbn [space_left] in Hsp.
  destruct Hw as [(iv & Hiv & Hwi) Hw]. rewrite Hiv in Hsp. cbn [mbind option_bind] in Hsp.
  destruct (Nat.eqb_spec c (length (intervals field) - 1)) as [Hlast|]; [|done]. cbn [negb] in Hsp.
  destruct (endInclusive iv); [|done]. cbn [negb] in Hsp. destruct (Z.eqb_spec (- d) (sgn (cmpv k (iend iv)))); [done|].
  destruct Hc' as [Hgt|[_ Hle']].
  - rewrite past_in_field; [done|]. assert (intervalCmp iv x d = AHEAD) as Hx by by eapply at_end_later.
    intros a i Ha Hi. destruct (decide (a = c)) as [->|]; [congruence|].
    eapply (ahead_before d i iv); [done|by eapply valid_lookup|by eapply valid_lookup| |done].
    eapply (valid_ordered d field a c); [done|done|lia|done|done].
  - rewrite (IH fs dirs cur key) by done. by rewrite andb_false_r.
Qed.
End lemmas.

(** ** The loops of the checker *)

Section loops.
Context `{EO : ElementOrder E}.
Implicit Types (x k : E) (key : list E) (d : Z) (dirs : list Z) (cur : list nat) (field : OrderedIntervalList E)
  (fs : list (OrderedIntervalList E)) (q : list (E * bool)).

(** The current interval of the field has location [loc] relative to the value. *)
Definition located (loc : Location) field (c : nat) d k : Prop :=
  exists iv, intervals field !! c = Some iv /\ intervalCmp iv k d = loc.

Lemma at_field_lookup (P : OrderedIntervalList E -> nat -> Z -> E -> Prop) f fs cur dirs key :
  at_field P f fs cur dirs key <->
  exists field c d k, fs !! f = Some field /\ cur !! f = Some c /\ dirs !! f = Some d /\ key !! f = Some k /\ P field c d k.
Proof.
  revert fs cur dirs key. induction f as [|f IH]; intros [|field fs] [|c cur] [|d dirs] [|k key]; simpl; try naive_solver.
Qed.

Lemma within_prefix_ext f : forall fs cur cur' dirs key,
  take f cur' = take f cur -> within_prefix f fs cur dirs key -> within_prefix f fs cur' dirs key.
Proof.
  induction f as [|f IH]; intros fs cur cur' dirs key Ht Hw; [done|].
  destruct fs, cur as [|c cur], dirs, key; try done. destruct cur' as [|c' cur']; [done|].
  injection Ht as -> Ht. destruct Hw as [Hc Hw]. split; [done|]. by eapply IH.
Qed.

Lemma within_prefix_snoc f : forall fs cur dirs key,
  within_prefix f fs cur dirs key -> at_field (located WITHIN) f fs cur dirs key -> within_prefix (S f) fs cur dirs key.
Proof.
  induction f as [|f IH]; intros fs cur dirs key Hw Hat; destruct fs, cur as [|c cur], dirs, key; try done.
  destruct Hw as [Hc Hw]. split; [done|]. by apply IH.
Qed.

Lemma within_prefix_in_bounds fs : forall cur dirs key,
  within_prefix (length fs) fs cur dirs key -> in_bounds fs dirs key = true.
Proof.
  induction fs as [|field fs IH]; intros cur dirs key Hw; [done|]. destruct cur, dirs, key; try done.
  destruct Hw as [(iv & Hiv & Hw) Hrest]. cbn [in_bounds]. rewrite (within_in_field _ _ _ _ _ Hiv Hw). simpl. by eapply IH.
Qed.

Lemma problem_from_spec fs : forall i cur dirs key,
  Forall2 field_ok fs dirs -> length key = length fs -> cur_ok fs cur ->
  exists r, problem_from i fs cur dirs key = Some r /\
    match r with
    | None => within_prefix (length fs) fs cur dirs key
    | Some (j, loc) => loc <> WITHIN /\ exists f, j = (i + f)%nat /\ (f < length fs)%nat /\
        within_prefix f fs cur dirs key /\ at_field (located loc) f fs cur dirs key
    end.
Proof.
  induction fs as [|field fs IH]; intros i cur dirs key Hok Hlen Hcur.
  { inversion Hcur; subst. by exists None. }
  inversion Hok as [|? d ? dirs' [Hd Hv] Hfs]; subst. inversion Hcur as [|? c ? cur' Hc Hcur']; subst.
  destruct key as [|k key]; [done|]. injection Hlen as Hlen. cbn [problem_from].
  destruct (lookup_lt_is_Some_2 _ _ Hc) as [iv Hiv]. rewrite Hiv. cbn [mbind option_bind].
  destruct (intervalCmp iv k d) eqn:El.
  - exists (Some (i, BEHIND)). split_and!; [done|done|]. exists 0%nat. split_and!; [lia|simpl; lia|done|by exists iv].
  - destruct (IH (S i) cur' dirs' key) as (r & Hr & Hspec); [done..|]. exists r. split; [done|].
    destruct r as [[j loc]|]; [|by split; [exists iv|]]. destruct Hspec as (Hne & f & -> & Hf & Hw & Hat).
    split; [done|]. exists (S f). split_and!; [lia|simpl; lia|by split; [exists iv|]|done].
  - exists (Some (i, AHEAD)). split_and!; [done|done|]. exists 0%nat. split_and!; [lia|simpl; lia|done|by exists iv].
Qed.

Lemma fill_suffix_spec fs : forall f cur sfx incl,
  cur_ok fs cur -> length sfx = length fs -> length incl = length fs ->
  exists sfx' incl', fill_suffix f fs cur sfx incl = Some (sfx', incl') /\ length sfx' = length incl' /\
    suffix_query (drop f sfx') (drop f incl') = starts_query (drop f fs) (drop f cur).
Proof.
  induction fs as [|field fs IH]; intros f cur sfx incl Hcur Hs Hi; inversion Hcur as [|? c ? cur' Hc Hcur']; subst.
  { destruct sfx, incl; try done. exists [], []. by rewrite !drop_nil. }
  destruct sfx as [|s sfx], incl as [|b incl]; try done. injection Hs as Hs. injection Hi as Hi. cbn [fill_suffix].
  destruct (IH (pred f) cur' sfx incl) as (sfx' & incl' & Hfill & Hll & Hq); [done..|].
  destruct f as [|f]; [|by exists (s :: sfx'), (b :: incl'); simpl in *; rewrite Hfill, Hll].
  destruct (lookup_lt_is_Some_2 _ _ Hc) as [iv Hiv]. rewrite Hiv. cbn [mbind option_bind pred] in *. rewrite Hfill.
  exists (Some (start iv) :: sfx'), (startInclusive iv :: incl'). split_and!; [done|by simpl; rewrite Hll|]. rewrite !drop_0 in *.
  cbn [suffix_query starts_query]. rewrite Hiv, Hq. done.
Qed.

(** ** Resetting intervals *)

Lemma reset_from_take f cur : (f <= length cur)%nat -> take f (reset_from f cur) = take f cur.
Proof. intros Hf. unfold reset_from. rewrite take_app_le by (rewrite length_take; lia). rewrite take_take. f_equal. lia. Qed.

Lemma reset_from_drop f cur : (f <= length cur)%nat -> Forall (eq 0%nat) (drop f (reset_from f cur)).
Proof.
  intros Hf. unfold reset_from. rewrite drop_app_length' by (rewrite length_take; lia). apply Forall_replicate. done.
Qed.

Lemma reset_from_ok f fs cur : cur_ok fs cur -> cur_ok fs (reset_from f cur).
Proof.
  intros Hcur. revert f. induction Hcur as [|field c fs cur Hc Hcur IH]; intros f; [destruct f; constructor|].
  destruct f as [|f].
  - constructor; [lia|]. specialize (IH 0%nat). unfold reset_from in IH. by rewrite Nat.sub_0_r in IH.
  - constructor; [done|]. apply (IH f).
Qed.

Lemma insert_cur_ok f fs cur field n :
  cur_ok fs cur -> fs !! f = Some field -> (n < length (intervals field))%nat -> cur_ok fs (<[f:=n]> cur).
Proof.
  intros Hcur. revert f. induction Hcur as [|field' c fs cur Hc Hcur IH]; intros [|f] Hf Hn; simplify_eq/=; constructor; auto.
  by apply IH.
Qed.
End loops.

(** ** Checking a key *)

Section checkKey.
Context `{EO : ElementOrder E}.
Implicit Types (x k : E) (key : list E) (ck : IndexBoundsChecker E) (out sp : IndexSeekPoint E).

Abbreviation fields_of ck := (fields (bounds ck)) (only parsing).
Abbreviation dirs_of ck := (expectedDirection ck) (only parsing).

(** What an answer for [key] promises. *)
Definition answer_ok ck key sp (st : KeyState) : Prop :=
  match st with
  | VALID => in_bounds (fields_of ck) (dirs_of ck) key = true
  | MUST_ADVANCE => length (keySuffix sp) = length (suffixInclusive sp) /\
      exists q, seek_query sp = Some q /\ skips (fields_of ck) (dirs_of ck) key q
  | DONE => forall key', length key' = length (fields_of ck) -> scan_cmp (dirs_of ck) key key' <= 0 ->
      in_bounds (fields_of ck) (dirs_of ck) key' = false
  end.

(** The checker after a call: the same bounds, with current intervals in range. *)
Definition same_bounds ck ck' : Prop :=
  checker_ok ck' /\ bounds ck' = bounds ck /\ expectedDirection ck' = expectedDirection ck.

Lemma with_cur_ok ck cur : checker_ok ck -> cur_ok (fields_of ck) cur -> same_bounds ck (with_cur ck cur).
Proof. intros [Hs Hf _] Hcur. split; [|done]. by constructor. Qed.

Lemma advance_to_starts_spec ck key out f :
  checker_ok ck -> length key = length (fields_of ck) ->
  length (keySuffix out) = length (fields_of ck) -> length (suffixInclusive out) = length (fields_of ck) ->
  at_field between f (fields_of ck) (curInterval ck) (dirs_of ck) key -> Forall (eq 0%nat) (drop (S f) (curInterval ck)) ->
  exists sp, advance_to_starts ck key out f = Some (ck, sp, MUST_ADVANCE) /\ answer_ok ck key sp MUST_ADVANCE.
Proof.
  intros [Hn Hf Hcur] Hlen Hs Hi Hat H0. unfold advance_to_starts.
  destruct (fill_suffix_spec (fields_of ck) f (curInterval ck) (keySuffix out) (suffixInclusive out))
    as (sfx & incl & -> & Hll & Hq); [done..|]. cbn [mbind option_bind]. eexists. split; [done|]. split; [done|].
  destruct (seek_starts f (fields_of ck) (dirs_of ck) (curInterval ck) key) as (p & s & Hp & Hst & Hsk); [done..|].
  exists (p ++ s). split; [|done]. unfold seek_query. cbn [prefixExclusive prefixLen keyPrefix keySuffix suffixInclusive].
  rewrite Hp. cbn [mbind option_bind]. by rewrite Hq, Hst.
Qed.

Lemma space_left_some f : forall fs cur dirs key,
  Forall2 field_ok fs dirs -> length key = length fs -> cur_ok fs cur -> (f <= length fs)%nat ->
  exists b, space_left f fs cur dirs key = Some b.
Proof.
  induction f as [|f IH]; intros fs cur dirs key Hok Hlen Hcur Hf; [by eexists|].
  fields_cases fs dirs cur key; try (simpl in Hf; lia). cbn [space_left].
  destruct (lookup_lt_is_Some_2 _ _ Hc) as [iv Hiv]. rewrite Hiv. cbn [mbind option_bind].
  destruct (IH fs cur dirs key) as [b ->]; [done..|simpl in Hf; lia|]. repeat case_match; by eexists.
Qed.

Lemma past_nil d (field : OrderedIntervalList E) k : past d field 0 k.
Proof. intros a i Ha. lia. Qed.

(** A field that cannot be placed: everything is done, or the fields before it must move. *)
Lemma place_beyond ck key out f :
  checker_ok ck -> length key = length (fields_of ck) -> (f < length (fields_of ck))%nat ->
  length (keySuffix out) = length (suffixInclusive out) ->
  within_prefix f (fields_of ck) (curInterval ck) (dirs_of ck) key ->
  at_field beyond f (fields_of ck) (curInterval ck) (dirs_of ck) key ->
  exists ck' sp st,
    (space ← spaceLeftToAdvance ck f key;
     if negb space then Some (ck, out, DONE)
     else Some (with_cur ck (reset_from f (curInterval ck)),
                mkIndexSeekPoint key f true (keySuffix out) (suffixInclusive out), MUST_ADVANCE)) = Some (ck', sp, st) /\
    same_bounds ck ck' /\ answer_ok ck key sp st.
Proof.
  intros Hck Hlen Hf Hll Hw Hat. pose proof Hck as [Hn Hfs Hcur]. unfold spaceLeftToAdvance.
  destruct (space_left_some f (fields_of ck) (curInterval ck) (dirs_of ck) key) as [b Hb]; [done..|lia|].
  rewrite Hb. cbn [mbind option_bind]. destruct b; cbn [negb].
  - eexists _, _, _. split_and!; [done|by apply with_cur_ok, reset_from_ok|].
    destruct f as [|f]; [done|]. split; [done|].
    destruct (seek_past f (fields_of ck) (dirs_of ck) (curInterval ck) key) as (p & Hp & Hsk); [done..|].
    exists p. split; [|done]. unfold seek_query. cbn [prefixExclusive prefixLen keyPrefix]. by rewrite Hp.
  - eexists _, _, _. split_and!; [done|by split|]. intros key' Hlen' Hle. exact (nothing_left f (fields (bounds ck)) (expectedDirection ck) (curInterval ck) key Hfs Hlen Hcur Hw Hat Hb key' Hlen' Hle).
Qed.

Lemma at_field_intro (P : OrderedIntervalList E -> nat -> Z -> E -> Prop) f fs cur dirs key field c d k :
  fs !! f = Some field -> cur !! f = Some c -> dirs !! f = Some d -> key !! f = Some k -> P field c d k ->
  at_field P f fs cur dirs key.
Proof. intros. apply at_field_lookup. by eexists _, _, _, _. Qed.

Lemma cur_ok_length fs cur : cur_ok fs cur -> length cur = length (A := OrderedIntervalList E) fs.
Proof. intros H. by rewrite (Forall2_length _ _ _ H). Qed.

Lemma reset_insert_lookup f p cur : (f < length cur)%nat -> reset_from (S f) (<[f:=p]> cur) !! f = Some p.
Proof.
  intros Hf. rewrite <- (lookup_take_lt (reset_from (S f) _) (S f) f) by lia.
  rewrite reset_from_take by (rewrite length_insert; lia). rewrite lookup_take_lt by lia. apply list_lookup_insert_eq. lia.
Qed.

Lemma place_from_spec key out fuel : forall ck f,
  checker_ok ck -> length key = length (fields_of ck) ->
  length (keySuffix out) = length (fields_of ck) -> length (suffixInclusive out) = length (fields_of ck) ->
  within_prefix f (fields_of ck) (curInterval ck) (dirs_of ck) key -> (f <= length (fields_of ck))%nat ->
  (length (fields_of ck) - f < fuel)%nat ->
  exists ck' sp st, place_from fuel ck key out f = Some (ck', sp, st) /\ same_bounds ck ck' /\ answer_ok ck key sp st.
Proof.
  induction fuel as [|fuel IH]; intros ck f Hck Hlen Hs Hi Hw Hf Hfuel; [lia|]. cbn [place_from].
  pose proof Hck as [Hn Hfs Hcur]. pose proof (cur_ok_length _ _ Hcur) as Hlc. rewrite Hlc.
  destruct (Nat.ltb_spec f (length (fields_of ck))) as [Hlt|Hge].
  2: { assert (f = length (fields_of ck)) as -> by lia. exists ck, out, VALID. split_and!; [done|done|].
       by eapply within_prefix_in_bounds. }
  destruct (lookup_lt_is_Some_2 key f ltac:(lia)) as [k Hk]. destruct (lookup_lt_is_Some_2 _ _ Hlt) as [field Hfield].
  destruct (lookup_lt_is_Some_2 (curInterval ck) f ltac:(lia)) as [c Hc].
  destruct (Forall2_lookup_l _ _ _ _ _ Hfs Hfield) as (d & Hd & Hdir & Hv). rewrite Hk, Hfield, Hd. cbn [mbind option_bind].
  destruct (findInterval_run d field k Hdir Hv) as (loc & p & -> & Hp & Hl). cbn [mbind option_bind].
  assert (forall p, take f (<[f:=p]> (curInterval ck)) = take f (curInterval ck)) as Htake.
  { intros p'. apply take_insert_ge. lia. }
  destruct loc.
  - destruct Hl as (iv & Hiv & Hb). set (cur' := reset_from (S f) (<[f:=p]> (curInterval ck))).
    assert (cur_ok (fields_of ck) cur') as Hcur'.
    { apply reset_from_ok. eapply insert_cur_ok; [done|done|]. by eapply lookup_lt_Some. }
    destruct (with_cur_ok ck cur' Hck Hcur') as [Hck' _].
    destruct (advance_to_starts_spec (with_cur ck cur') key out f) as (sp & -> & Hans); [done..| | |].
    + apply (at_field_intro _ _ _ _ _ _ field p d k); [done| |done|done|by split; [|exists iv]].
      apply reset_insert_lookup. lia.
    + apply reset_from_drop. rewrite length_insert. lia.
    + eexists _, _, _. split_and!; [done|by split|done].
  - destruct Hl as (iv & Hiv & Hb).
    assert (cur_ok (fields_of ck) (<[f:=p]> (curInterval ck))) as Hcur'.
    { eapply insert_cur_ok; [done|done|]. by eapply lookup_lt_Some. }
    destruct (with_cur_ok ck _ Hck Hcur') as [Hck' _].
    destruct (IH (with_cur ck (<[f:=p]> (curInterval ck))) (S f)) as (ck' & sp & st & Hrun & Hsame & Hans); [done..| |done|simpl; lia|].
    { apply within_prefix_snoc; [refine (within_prefix_ext f _ _ _ _ _ (Htake p) Hw)|].
      apply (at_field_intro _ _ _ _ _ _ field p d k); [done| |done|done|by exists iv]. apply list_lookup_insert_eq. lia. }
    by exists ck', sp, st.
  - apply place_beyond; [done..|congruence|done|]. subst p. by apply (at_field_intro _ _ _ _ _ _ field c d k).
Qed.

Lemma length_resize {A} n (a : A) l : length (resize n a l) = n.
Proof. unfold resize. rewrite length_app, length_take, length_replicate. lia. Qed.

(** Behind the first interval, a value is before all of them. *)
Lemma behind_first f ck key :
  (f <= length (curInterval ck))%nat -> Forall (eq 0%nat) (drop f (curInterval ck)) ->
  at_field (located BEHIND) f (fields_of ck) (curInterval ck) (dirs_of ck) key ->
  at_field between f (fields_of ck) (curInterval ck) (dirs_of ck) key.
Proof.
  intros Hf H0 (field & c & d & k & Hfi & Hc & Hd & Hk & Hl)%at_field_lookup.
  apply (at_field_intro _ _ _ _ _ _ field c d k); [done..|].
  assert (c = 0%nat) as ->. { symmetry. apply (proj1 (Forall_lookup _ _) H0 0%nat c). by rewrite lookup_drop, Nat.add_0_r. }
  split; [apply past_nil|done].
Qed.

(** A problem [AHEAD] starts the search for intervals. *)
Lemma ahead_places ck key out f :
  checker_ok ck -> length key = length (fields_of ck) ->
  length (keySuffix out) = length (fields_of ck) -> length (suffixInclusive out) = length (fields_of ck) ->
  (f < length (fields_of ck))%nat -> within_prefix f (fields_of ck) (curInterval ck) (dirs_of ck) key ->
  exists ck' sp st, place_from (S (length (curInterval ck))) ck key out f = Some (ck', sp, st) /\
    same_bounds ck ck' /\ answer_ok ck key sp st.
Proof.
  intros Hck Hlen Hs Hi Hf Hw. pose proof (cur_ok_length _ _ (cko_cur _ Hck)).
  apply place_from_spec; [done..|lia|lia].
Qed.

Lemma within_prefix_at n : forall f fs cur dirs key,
  within_prefix n fs cur dirs key -> (f < n)%nat -> at_field (located WITHIN) f fs cur dirs key.
Proof.
  induction n as [|n IH]; intros f fs cur dirs key Hw Hf; [lia|]. destruct fs, cur, dirs, key; try done.
  destruct Hw as [Hc Hw]. destruct f as [|f]; [exact Hc|]. exact (IH f fs cur dirs key Hw ltac:(lia)).
Qed.

Lemma located_agree f fs cur dirs key loc loc' :
  at_field (located loc) f fs cur dirs key -> at_field (located loc') f fs cur dirs key -> loc = loc'.
Proof.
  intros (fi & c & d & k & Hfi & Hc & Hd & Hk & iv & Hiv & <-)%at_field_lookup
    (fi' & c' & d' & k' & Hfi' & Hc' & Hd' & Hk' & iv' & Hiv' & <-)%at_field_lookup. congruence.
Qed.

Lemma Forall_drop_le {A} (P : A -> Prop) f g l : Forall P (drop f l) -> (f <= g)%nat -> Forall P (drop g l).
Proof. intros H Hle. replace g with (f + (g - f))%nat by lia. rewrite <- drop_drop. by apply Forall_drop. Qed.

(** The second look after the intervals from [f] on have been reset. *)
Lemma reset_answers ck key out f :
  checker_ok ck -> length key = length (fields_of ck) ->
  length (keySuffix out) = length (fields_of ck) -> length (suffixInclusive out) = length (fields_of ck) ->
  (f < length (fields_of ck))%nat -> within_prefix f (fields_of ck) (curInterval ck) (dirs_of ck) key ->
  let ck0 := with_cur ck (reset_from f (curInterval ck)) in
  exists p, findLeftmostProblem ck0 key = Some p /\
  exists ck' sp st,
    match p with
    | None => Some (ck0, out, VALID)
    | Some (f, BEHIND) => advance_to_starts ck0 key out f
    | Some (f, _) => place_from (S (length (curInterval ck))) ck0 key out f
    end = Some (ck', sp, st) /\ same_bounds ck ck' /\ answer_ok ck key sp st.
Proof.
  intros Hck Hlen Hs Hi Hf Hw ck0. pose proof (cur_ok_length _ _ (cko_cur _ Hck)) as Hlc.
  destruct (with_cur_ok ck (reset_from f (curInterval ck)) Hck) as [Hck0 _]; [by apply reset_from_ok; destruct Hck|].
  fold ck0 in Hck0. pose proof (cur_ok_length _ _ (cko_cur _ Hck0)) as Hlc0. change (fields_of ck0) with (fields_of ck) in Hlc0.
  unfold findLeftmostProblem.
  destruct (problem_from_spec (fields_of ck0) 0 (curInterval ck0) (dirs_of ck0) key) as (p & Hp & Hspec); [by destruct Hck0..|].
  exists p. split; [done|]. destruct p as [[j loc]|].
  2: { exists ck0, out, VALID. split_and!; [done|by split|]. by eapply (within_prefix_in_bounds _ (curInterval ck0)). }
  destruct Hspec as (Hne & f' & -> & Hf' & Hw' & Hat). cbn [Nat.add]. destruct loc; [|done|].
  - assert (f <= f')%nat as Hff'.
    { destruct (decide (f <= f')%nat); [done|]. exfalso. apply Hne. refine (located_agree _ _ _ _ _ _ _ Hat _).
      apply (within_prefix_at f); [|lia]. refine (within_prefix_ext f _ _ _ _ _ _ Hw). apply reset_from_take. lia. }
    pose proof (reset_from_drop f (curInterval ck) ltac:(lia)) as H0.
    destruct (advance_to_starts_spec ck0 key out f') as (sp & -> & Hans); [done..| | |].
    + apply behind_first; [change (fields_of ck0) with (fields_of ck) in Hf'; lia| |done]. by eapply Forall_drop_le.
    + eapply Forall_drop_le; [exact H0|lia].
    + by exists ck0, sp, MUST_ADVANCE.
  - rewrite <- (eq_trans Hlc0 (eq_sym Hlc)).
    destruct (ahead_places ck0 key out f') as (ck' & sp & st & Hr & Hsame & Hans); [done..|]. by exists ck', sp, st.
Qed.

Lemma checkKey_spec ck key out :
  checker_ok ck -> length key = length (fields_of ck) ->
  exists ck' sp st, checkKey ck key out = Some (ck', sp, st) /\ same_bounds ck ck' /\ answer_ok ck key sp st.
Proof.
  intros Hck Hlen. pose proof (cur_ok_length _ _ (cko_cur _ Hck)) as Hlc. unfold checkKey.
  rewrite invariant_bind by (apply Nat.ltb_lt; destruct Hck; lia).
  rewrite invariant_bind by (apply Nat.eqb_eq; lia).
  set (out' := {| out with keySuffix := _; suffixInclusive := _ |}).
  assert (length (keySuffix out') = length (fields_of ck)) as Hs by (rewrite <- Hlc; apply length_resize).
  assert (length (suffixInclusive out') = length (fields_of ck)) as Hi by (rewrite <- Hlc; apply length_resize).
  destruct (problem_from_spec (fields_of ck) 0 (curInterval ck) (dirs_of ck) key) as (p & Hp & Hspec); [by destruct Hck..|].
  change (findLeftmostProblem ck key = Some p) in Hp. rewrite Hp. cbn [mbind option_bind]. destruct p as [[j loc]|].
  2: { exists ck, out', VALID. split_and!; [done|by split|]. by eapply within_prefix_in_bounds. }
  destruct Hspec as (Hne & f & -> & Hf & Hw & Hat). cbn [Nat.add]. destruct loc; [|done|].
  - destruct (reset_answers ck key out' f) as (p & -> & ck' & sp & st & Hr & Hsame & Hans); [done..|].
    cbn [mbind option_bind]. by exists ck', sp, st.
  - cbn [mbind option_bind]. by apply ahead_places.
Qed.

(** ** The start of the scan *)

Lemma start_suffix_spec fs dirs :
  Forall2 field_ok fs dirs ->
  match start_suffix fs with
  | None => forall key, length key = length fs -> in_bounds fs dirs key = false
  | Some (sfx, incl) =>
      Forall (fun field => (0 < length (intervals field))%nat) fs /\
      length sfx = length incl /\ exists q, suffix_query sfx incl = Some q /\ starts_query fs (replicate (length fs) 0%nat) = Some q
  end.
Proof.
  induction 1 as [|field d fs dirs [Hd Hv] Hfs IH]; [by split_and!; [| |exists []]|]. cbn [start_suffix].
  destruct (intervals field) as [|iv ivs] eqn:Hiv.
  { intros [|k key] Hlen; [done|]. cbn [in_bounds]. unfold in_field. by rewrite Hiv. }
  destruct (start_suffix fs) as [[sfx incl]|]; cbn [mbind option_bind].
  - destruct IH as (Hne & Hll & q & Hq & Hsq). split_and!; [constructor; [rewrite Hiv; simpl; lia|done]|simpl; lia|].
    exists ((start iv, startInclusive iv) :: q). cbn [suffix_query length replicate starts_query]. rewrite Hq, Hiv, Hsq. done.
  - intros [|k key] Hlen; [done|]. injection Hlen as Hlen. cbn [in_bounds]. rewrite (IH key Hlen). by rewrite andb_false_r.
Qed.

Lemma cur_ok_start (fs : list (OrderedIntervalList E)) : Forall (fun field => (0 < length (intervals field))%nat) fs -> cur_ok fs (replicate (length fs) 0%nat).
Proof. induction 1; simpl; by constructor. Qed.

(** Nothing of the bounds is before the start of the scan. *)
Lemma getStartSeekPoint_spec ck out :
  Forall2 field_ok (fields_of ck) (dirs_of ck) ->
  match getStartSeekPoint ck out with
  | None => forall key, length key = length (fields_of ck) -> in_bounds (fields_of ck) (dirs_of ck) key = false
  | Some sp =>
      Forall (fun field => (0 < length (intervals field))%nat) (fields_of ck) /\
      length (keySuffix sp) = length (suffixInclusive sp) /\
      exists q, seek_query sp = Some q /\ covers (length (fields_of ck)) q = true /\
        forall key, before_query (dirs_of ck) q key = true -> in_bounds (fields_of ck) (dirs_of ck) key = false
  end.
Proof.
  intros Hok. pose proof (start_suffix_spec _ _ Hok) as Hspec. unfold getStartSeekPoint.
  destruct (start_suffix (fields_of ck)) as [[sfx incl]|]; cbn [mbind option_bind]; [|done].
  destruct Hspec as (Hne & Hll & q & Hq & Hsq). split_and!; [done|done|]. exists q. split_and!.
  - unfold seek_query. cbn [prefixLen prefix_query prefixExclusive keyPrefix keySuffix suffixInclusive mbind option_bind].
    rewrite !drop_0, Hq. done.
  - by eapply starts_query_covers, Hsq; apply cur_ok_start.
  - intros key Hb. eapply before_first; [done| |done|done]. by apply Forall_replicate.
Qed.

(** ** Properties *)

(** [C11] The answer of [checkKey] is right, whatever the current intervals are: a key it
    declares valid is within the bounds; after [MUST_ADVANCE] the seek point lies after the
    key and no key of the bounds is from the key up to the seek point; after [DONE] no key
    of the bounds is at or after the key in the order of the scan.  No check fails, and the
    checker keeps its bounds and stays well-formed. *)
Theorem checkKey_correct ck key out :
  checker_ok ck -> length key = length (fields (bounds ck)) ->
  exists ck' sp st, checkKey ck key out = Some (ck', sp, st) /\
    checker_ok ck' /\ bounds ck' = bounds ck /\ expectedDirection ck' = expectedDirection ck /\
    match st with
    | VALID => in_bounds (fields (bounds ck)) (expectedDirection ck) key = true
    | MUST_ADVANCE => length (keySuffix sp) = length (suffixInclusive sp) /\
        exists q, seek_query sp = Some q /\ covers (length (fields (bounds ck))) q = true /\
        before_query (expectedDirection ck) q key = true /\
        forall key', length key' = length (fields (bounds ck)) -> scan_cmp (expectedDirection ck) key key' <= 0 ->
          before_query (expectedDirection ck) q key' = true -> in_bounds (fields (bounds ck)) (expectedDirection ck) key' = false
    | DONE => forall key', length key' = length (fields (bounds ck)) -> scan_cmp (expectedDirection ck) key key' <= 0 ->
        in_bounds (fields (bounds ck)) (expectedDirection ck) key' = false
    end.
Proof.
  intros Hck Hlen. destruct (checkKey_spec ck key out Hck Hlen) as (ck' & sp & st & Hr & (Hck' & Hb & Hd) & Hans).
  by exists ck', sp, st.
Qed.

(** [isValidKey] decides whether every field of a key is in one of its intervals. *)
Theorem isValidKey_correct ck key :
  Forall2 field_ok (fields (bounds ck)) (expectedDirection ck) -> length key = length (fields (bounds ck)) ->
  isValidKey ck key = Some (in_bounds (fields (bounds ck)) (expectedDirection ck) key).
Proof.
  unfold isValidKey. intros Hok. revert key. induction Hok as [|field d fs dirs [Hd Hv] Hfs IH]; intros [|k key] Hlen; try done.
  injection Hlen as Hlen. cbn [valid_from in_bounds].
  destruct (findInterval_run d field k Hd Hv) as (loc & p & -> & Hp & Hl). cbn [mbind option_bind]. destruct loc.
  - destruct Hl as (i & Hi & Hb). by rewrite (behind_in_field d field p i k).
  - destruct Hl as (i & Hi & Hb). rewrite (within_in_field d field p i k) by done. by apply IH.
  - subst p. by rewrite past_in_field.
Qed.
End checkKey.

(** ** Instances *)

Definition demo_bounds : IndexBounds (list Z * BSONValue) :=
  {| (IndexBounds_default (E := list Z * BSONValue)) with fields := [two_ranges; mkOrderedIntervalList [point eltB] []] |}.

Definition demo_checker : IndexBoundsChecker (list Z * BSONValue) := mkIndexBoundsChecker demo_bounds [0; 0]%nat [1; -1].

Lemma demo_checker_ok : checker_ok demo_checker.
Proof.
  constructor; [vm_compute; lia| |repeat constructor].
  repeat (constructor; [split; [vm_compute; auto|vm_compute; reflexivity]|]). constructor.
Qed.

Lemma checkKey_correct_witness :
  exists ck' sp st, checkKey demo_checker [eltB; eltA] IndexSeekPoint_default = Some (ck', sp, st) /\ checker_ok ck'.
Proof.
  destruct (checkKey_correct demo_checker [eltB; eltA] IndexSeekPoint_default) as (ck' & sp & st & Hr & Hok & _).
  - exact demo_checker_ok.
  - reflexivity.
  - exists ck', sp, st. split; assumption.
Defined.

Lemma isValidKey_correct_witness : isValidKey demo_checker [eltC; eltB] = Some true.
Proof.
  rewrite (isValidKey_correct demo_checker [eltC; eltB] (cko_fields _ demo_checker_ok) eq_refl). vm_compute. reflexivity.
Defined.
