(* ===== verification/IndexEntryComparison.v ===== *)
(** * Entries of an index and queries for them

    Models [db/record_id.h], [bson/ordering.h] and [db/storage/index_entry_comparison.cpp].
    An index stores pairs of a key and a record id.  A query for a position is encoded as
    a key whose field names say what to do when a field is equal. *)

From Stdlib Require Import ZArith Lia.
From stdpp Require Import prelude.
From S2P Require Import Prelude TotalOrder CompareNumbers Bson ElementOrder Interval IndexBounds IndexBoundsChecker BoundsCheckerSpec CheckKey.

Open Scope Z_scope.

(** ** Record ids *)

Definition kNullRepr : Z := 0.
Definition kMinRepr : Z := - 2 ^ 63.
Definition kMaxRepr : Z := 2 ^ 63 - 1.
Definition kMinReservedRepr : Z := kMaxRepr - 1024 * 1024.

Definition RecordId_isNull (repr : Z) : bool := repr =? 0.
Definition isNormal (repr : Z) : bool := (0 <? repr) && (repr <? kMinReservedRepr).
Definition isReserved (repr : Z) : bool := (kMinReservedRepr <=? repr) && (repr <? kMaxRepr).
Definition isValid (repr : Z) : bool := isNormal repr || isReserved repr.
Definition RecordId_compare (repr rhs : Z) : Z := if repr =? rhs then 0 else if repr <? rhs then -1 else 1.

Section IndexEntryComparison.
Context `{EO : ElementOrder E}.

(** ** Orderings *)

(** The bits of an [Ordering]; a set bit marks a descending field. *)
Definition descending (bits mask : Z) : bool := negb (Z.land bits mask =? 0).

Definition kMaxCompoundIndexKeys : nat := 32.

(** The loop of [Ordering::make]; [None] is the error for too many fields. *)
Fixpoint make_from (b : Z) (n : nat) (obj : list E) : option Z :=
  match obj with
  | [] => Some b
  | e :: obj =>
      if (n <? kMaxCompoundIndexKeys)%nat then
        make_from (if elt_neg e then Z.lor b (Z.shiftl 1 (Z.of_nat n)) else b) (S n) obj
      else None
  end.

Definition Ordering_make (obj : list E) : option Z := make_from 0 0 obj.

(** [mask <<= 1] on a 32-bit integer. *)
Definition next_mask (mask : Z) : Z := Z.land (Z.shiftl mask 1) (2 ^ 32 - 1).

(** ** Comparing entries *)

Record IndexKeyEntry := mkIndexKeyEntry { ikey : list E; loc : Z }.

Definition behavior_normal : Z := 0.
Definition behavior_less : Z := 108.
Definition behavior_greater : Z := 103.

(** The first byte of the field name. *)
Definition eqBehavior (e : E) : Z := hd 0 (elt_name e).

(** The loop of [compare]: [Some None] when the keys are equal, the outer [None] when an
    invariant fails. *)
Fixpoint compare_keys (order mask : Z) (lhs rhs : list E) : option (option Z) :=
  match lhs, rhs with
  | [], [] => Some None
  | [], _ :: _ => Some (Some (-1))
  | _ :: _, [] => Some (Some (if descending order mask then -1 else 1))
  | l :: lhs, r :: rhs =>
      let cmp := elt_compare false l r in
      if negb (cmp =? 0) then
        let cmp := if cmp =? - 2 ^ 31 then -1 else cmp in
        Some (Some (if descending order mask then - cmp else cmp))
      else
        let lEqBehavior := eqBehavior l in
        let rEqBehavior := eqBehavior r in
        if negb (lEqBehavior =? 0) then
          invariant (rEqBehavior =? behavior_normal);;
          Some (Some (if lEqBehavior =? behavior_less then -1 else 1))
        else if negb (rEqBehavior =? 0) then
          invariant (lEqBehavior =? behavior_normal);;
          Some (Some (if rEqBehavior =? behavior_less then 1 else -1))
        else compare_keys order (next_mask mask) lhs rhs
  end.

Definition entry_compare (order : Z) (lhs rhs : IndexKeyEntry) : option Z :=
  c ← compare_keys order 1 (ikey lhs) (ikey rhs);
  match c with
  | Some c => Some c
  | None =>
      if RecordId_isNull (loc lhs) || RecordId_isNull (loc rhs) then Some 0
      else Some (RecordId_compare (loc lhs) (loc rhs))
  end.

(** [IndexEntryComparison::operator()]. *)
Definition entry_less (order : Z) (lhs rhs : IndexKeyEntry) : option bool :=
  c ← entry_compare order lhs rhs; Some (c <? 0).

(** ** Query objects *)

(** The loop over the prefix, [i] fields before its end. *)
Fixpoint append_prefix (prefixExclusive : bool) (exclusiveFieldName : list Z) (n : nat) (keyPrefix : list E)
    : option (list E) :=
  match n with
  | O => Some []
  | S n =>
      match keyPrefix with
      | [] => None
      | e :: keyPrefix =>
          rest ← append_prefix prefixExclusive exclusiveFieldName n keyPrefix;
          Some (elt_appendAs e (if prefixExclusive && (n =? 0)%nat then exclusiveFieldName else []) :: rest)
      end
  end.

(** The loop over the suffix. *)
Fixpoint append_suffix (exclusiveFieldName : list Z) (keySuffix : list (option E)) (suffixInclusive : list bool)
    : option (list E) :=
  match keySuffix, suffixInclusive with
  | [], _ => Some []
  | Some e :: keySuffix, true :: suffixInclusive =>
      rest ← append_suffix exclusiveFieldName keySuffix suffixInclusive; Some (elt_appendAs e [] :: rest)
  | Some e :: keySuffix, false :: suffixInclusive => Some [elt_appendAs e exclusiveFieldName]
  | _, _ => None
  end.

Definition makeQueryObject (seekPoint : IndexSeekPoint E) (isForward : bool) : option (list E) :=
  let exclusiveFieldName := [if isForward then behavior_greater else behavior_less] in
  bb ← append_prefix (prefixExclusive seekPoint) exclusiveFieldName (prefixLen seekPoint) (keyPrefix seekPoint);
  if prefixExclusive seekPoint then invariant (0 <? prefixLen seekPoint)%nat;; Some bb
  else
    invariant (length (keySuffix seekPoint) =? length (suffixInclusive seekPoint))%nat;;
    rest ← append_suffix exclusiveFieldName (drop (prefixLen seekPoint) (keySuffix seekPoint))
             (drop (prefixLen seekPoint) (suffixInclusive seekPoint));
    Some (bb ++ rest).
End IndexEntryComparison.
Arguments IndexKeyEntry E : clear implicits.
