(* ===== verification/IndexEntryOrder.v ===== *)
(** * The order of index entries

    The comparison of [IndexEntryComparison] on stored entries is a total order, the
    lexicographic one of the fields in their directions and then the record id; a query
    object made from a seek point separates the entries before the position from the
    others. *)

From Stdlib Require Import ZArith Lia.
From stdpp Require Import prelude.
From S2P Require Import Prelude TotalOrder CompareNumbers Bson ElementOrder Interval IndexBounds IndexBoundsChecker BoundsCheckerSpec CheckKey IndexEntryComparison.

Open Scope Z_scope.

Section order.
Context `{EO : ElementOrder E}.
Implicit Types (e x y : E) (k l r kp : list E) (q : list (E * bool)) (dirs : list Z) (order : Z).

(** ** Orderings *)

(** The mask of field [i]: beyond 32 fields the bit has been shifted out. *)
Definition mask_at (i : nat) : Z := if (i <? 32)%nat then 2 ^ Z.of_nat i else 0.

Lemma next_mask_at i : next_mask (mask_at i) = mask_at (S i).
Proof.
  unfold mask_at, next_mask. destruct (Nat.ltb_spec i 32) as [Hi|Hi], (Nat.ltb_spec (S i) 32) as [Hj|Hj]; try lia; [|by replace i with 31%nat by lia|done].
  rewrite Z.shiftl_mul_pow2 by lia. change (2 ^ 32 - 1) with (Z.ones 32). rewrite Z.land_ones by lia.
  replace (Z.of_nat (S i)) with (Z.of_nat i + 1) by lia. rewrite Z.pow_add_r by lia.
  apply Z.mod_small. split; [nia|]. change (2 ^ 32) with (2 ^ 31 * 2 ^ 1).
  assert (2 ^ Z.of_nat i < 2 ^ 31); [|nia]. apply Z.pow_lt_mono_r; lia.
Qed.

Lemma descending_mask order i : descending order (mask_at i) = (i <? 32)%nat && Z.testbit order (Z.of_nat i).
Proof.
  unfold descending, mask_at. destruct (i <? 32)%nat; [|by rewrite Z.land_0_r].
  simpl. rewrite Z.land_comm, <- (Z.mul_1_l (2 ^ _)), <- Z.shiftl_mul_pow2 by lia.
  destruct (Z.testbit order (Z.of_nat i)) eqn:Ht.
  - apply negb_true_iff, Z.eqb_neq. intros H0. assert (Z.testbit (Z.land (1 ≪ Z.of_nat i) order) (Z.of_nat i) = true) as Hb.
    { rewrite Z.land_spec, Z.shiftl_spec, Ht by lia. by rewrite Z.sub_diag. }
    by rewrite H0, Z.testbit_0_l in Hb.
  - apply negb_false_iff, Z.eqb_eq, Z.bits_inj'. intros n Hn. rewrite Z.land_spec, Z.shiftl_spec, Z.testbit_0_l by lia.
    destruct (decide (n = Z.of_nat i)) as [->|Hne]; [by rewrite Ht, andb_false_r|].
    destruct (decide (n < Z.of_nat i)); [by rewrite Z.testbit_neg_r by lia|].
    by rewrite (Z.bits_above_log2 1) by (simpl; lia).
Qed.

(** Whether field [i] of the key pattern is descending. *)
Definition neg_at kp (i : nat) : bool := from_option elt_neg false (kp !! i).

Lemma make_from_bits obj : forall b n bits,
  make_from b n obj = Some bits ->
  (n + length obj <= Nat.max n 32)%nat /\
  forall i, Z.testbit bits (Z.of_nat i) = Z.testbit b (Z.of_nat i) || ((n <=? i)%nat && neg_at obj (i - n)).
Proof.
  induction obj as [|e obj IH]; intros b n bits Hm; cbn [make_from] in Hm.
  - simplify_eq. split; [simpl; lia|]. intros i. unfold neg_at. rewrite lookup_nil. simpl. by rewrite andb_false_r, orb_false_r.
  - destruct (Nat.ltb_spec n kMaxCompoundIndexKeys) as [Hn|]; [|done]. unfold kMaxCompoundIndexKeys in Hn.
    apply IH in Hm as [Hlen Hbits]. split; [simpl; lia|]. intros i. rewrite Hbits.
    assert (Z.testbit (if elt_neg e then Z.lor b (1 ≪ Z.of_nat n) else b) (Z.of_nat i) =
            Z.testbit b (Z.of_nat i) || ((i =? n)%nat && elt_neg e)) as ->.
    { destruct (elt_neg e); [|by rewrite andb_false_r, orb_false_r].
      rewrite Z.lor_spec, Z.shiftl_spec, andb_true_r by lia. f_equal. destruct (Nat.eqb_spec i n) as [->|Hne]; [by rewrite Z.sub_diag|].
      destruct (decide (i < n)%nat); [apply Z.testbit_neg_r; lia|]. apply Z.bits_above_log2; simpl; lia. }
    rewrite <- orb_assoc. f_equal. unfold neg_at.
    destruct (Nat.eqb_spec i n) as [->|Hne].
    + rewrite Nat.sub_diag, Nat.leb_refl. destruct (Nat.leb_spec (S n) n); [lia|]. simpl. by rewrite orb_false_r.
    + destruct (Nat.leb_spec n i), (Nat.leb_spec (S n) i); try lia.
      replace (i - n)%nat with (S (i - S n)) by lia. done.
Qed.

(** The bits of an ordering are the signs of the key pattern. *)
Definition orders order kp : Prop := forall i, descending order (mask_at i) = neg_at kp i.

Lemma Ordering_make_orders kp order : Ordering_make kp = Some order -> orders order kp.
Proof.
  intros [Hlen Hb]%make_from_bits i. rewrite descending_mask, Hb, Z.testbit_0_l, Nat.sub_0_r. simpl.
  destruct (Nat.ltb_spec i 32); [done|]. unfold neg_at. rewrite lookup_ge_None_2 by lia. done.
Qed.

(** ** Stored keys *)

(** The direction of each field in the index. *)
Definition index_dirs kp : list Z := (fun e => if elt_neg e then -1 else 1) <$> kp.

(** A key as it is stored has no field names. *)
Definition plain k : Prop := Forall (fun x => eqBehavior x = 0) k.

Definition orders_from order (i : nat) kp : Prop := forall j, descending order (mask_at (i + j)) = neg_at kp j.

Lemma orders_from_cons order i e kp :
  orders_from order i (e :: kp) -> descending order (mask_at i) = elt_neg e /\ orders_from order (S i) kp.
Proof.
  intros H. split; [rewrite <- (Nat.add_0_r i); apply H|]. intros j. rewrite Nat.add_succ_l, <- Nat.add_succ_r. apply H.
Qed.

Lemma index_dirs_direction kp : Forall direction (index_dirs kp).
Proof. apply Forall_fmap, Forall_true. intros e. simpl. destruct (elt_neg e); [by right|by left]. Qed.

Lemma compare_keys_plain order kp : forall i l r,
  orders_from order i kp -> length l = length kp -> length r = length kp -> plain l -> plain r ->
  exists c, compare_keys order (mask_at i) l r = Some c /\
    match c with
    | Some c => c <> 0 /\ Z.sgn c = Z.sgn (scan_cmp (index_dirs kp) l r)
    | None => scan_cmp (index_dirs kp) l r = 0
    end.
Proof.
  induction kp as [|e kp IH]; intros i [|x l] [|y r] Hord Hl Hr Hpl Hpr; try done; [by exists None|].
  injection Hl as Hl. injection Hr as Hr. apply orders_from_cons in Hord as [Hd Hord].
  apply Forall_cons in Hpl as [Hx Hpl]. apply Forall_cons in Hpr as [Hy Hpr]. cbn [compare_keys]. rewrite Hd, Hx, Hy.
  cbn [index_dirs fmap list_fmap scan_cmp]. change (list_fmap _ _ _ kp) with (index_dirs kp). unfold cmpv.
  destruct (Z.eqb_spec (elt_compare false x y) 0) as [->|Hne].
  - cbn [negb]. change (0 =? 0) with true. cbn [negb]. rewrite Z.mul_0_r. simpl. rewrite next_mask_at. by apply IH.
  - cbn [negb]. eexists. split; [done|]. generalize dependent (elt_compare false x y). intros c Hne.
    destruct (elt_neg e); repeat case_if; lia.
Qed.

(** [scan_cmp] orders the keys with one value for each field. *)
Lemma scan_cmp_total dirs : Forall direction dirs -> total_on (fun k => length k = length dirs) (scan_cmp (E := E) dirs).
Proof.
  induction 1 as [|d dirs Hd Hdirs IH]; [apply total_const|].
  pose proof (total_map _ (fun k => tail k) _ IH) as Htail.
  set (head k := hd elt_eoo k).
  assert (total_on (fun k => length k = S (length dirs)) (fun a b => d * cmpv (head a) (head b))) as Hhead.
  { split.
    - intros x y _ _. apply dir_flip. done.
    - intros x y z _ _ _. destruct Hd as [-> | ->].
      + intros H1 H2. pose proof (cmp_trans (head x) (head y) (head z)). unfold cmpv in *. lia.
      + intros H1 H2. pose proof (cmp_trans (head z) (head y) (head x)). unfold cmpv in *.
        pose proof (cmp_flip (head x) (head y)). pose proof (cmp_flip (head y) (head z)). pose proof (cmp_flip (head x) (head z)). lia. }
  eapply (total_sgn _ _ (lex (fun a b => d * cmpv (head a) (head b)) (fun a b => scan_cmp dirs (tail a) (tail b)))).
  - intros [|x a] [|y b] Ha Hb; done.
  - apply total_lex_all; [done|]. eapply total_weaken; [|exact Htail]. intros [|x a] Hx; [done|]. by injection Hx.
Qed.

(** ** Entries *)

Definition stored kp (e : IndexKeyEntry E) : Prop :=
  length (ikey e) = length kp /\ plain (ikey e) /\ isValid (loc e) = true.

(** The order of entries: the key, then the record id. *)
Definition entry_order kp (a b : IndexKeyEntry E) : Z :=
  lex (fun a b => scan_cmp (index_dirs kp) (ikey a) (ikey b)) (fun a b => loc a - loc b) a b.

Lemma entry_order_total kp : total_on (stored kp) (entry_order kp).
Proof.
  apply total_lex_all.
  - eapply total_weaken; [|apply (total_map _ ikey _ (scan_cmp_total _ (index_dirs_direction kp)))].
    intros e (Hlen & _). unfold index_dirs. by rewrite length_fmap.
  - split; lia.
Qed.

Lemma valid_not_null (r : Z) : isValid r = true -> RecordId_isNull r = false /\ 0 < r < kMaxRepr.
Proof. unfold isValid, isNormal, isReserved, RecordId_isNull, kMinReservedRepr, kMaxRepr. lia. Qed.

Lemma RecordId_compare_sgn a b : Z.sgn (RecordId_compare a b) = Z.sgn (a - b).
Proof. unfold RecordId_compare. repeat case_if; lia. Qed.

Lemma orders_start order kp : orders order kp -> orders_from order 0 kp.
Proof. done. Qed.

Lemma mask_at_0 : mask_at 0 = 1.
Proof. done. Qed.

(** On stored entries the comparison is the order of entries. *)
Lemma entry_compare_stored order kp a b :
  orders order kp -> stored kp a -> stored kp b ->
  exists c, entry_compare order a b = Some c /\ Z.sgn c = Z.sgn (entry_order kp a b).
Proof.
  intros Hord (Hla & Hpa & Hva) (Hlb & Hpb & Hvb). unfold entry_compare. rewrite <- mask_at_0.
  destruct (compare_keys_plain order kp 0 (ikey a) (ikey b)) as (c & -> & Hc); [by apply orders_start|done..|].
  cbn [mbind option_bind]. unfold entry_order, lex. destruct c as [c|].
  - destruct Hc as [Hne Hc]. exists c. split; [done|]. destruct (Z.eqb_spec (scan_cmp (index_dirs kp) (ikey a) (ikey b)) 0); lia.
  - rewrite Hc. apply valid_not_null in Hva as [-> _], Hvb as [-> _]. simpl. eexists. split; [done|]. apply RecordId_compare_sgn.
Qed.

(** ** Queries *)

(** The directions in which a cursor moves through the fields. *)
Definition scan_dirs (isForward : bool) kp : list Z := (fun d => (if isForward then 1 else -1) * d) <$> index_dirs kp.

(** The query object for a position. *)
Fixpoint query_object (exclusiveFieldName : list Z) q : list E :=
  match q with
  | [] => []
  | (e, true) :: q => elt_appendAs e [] :: query_object exclusiveFieldName q
  | (e, false) :: _ => [elt_appendAs e exclusiveFieldName]
  end.

Definition query_element (name : list Z) (p : E * bool) : E := elt_appendAs p.1 (if p.2 then [] else name).

Lemma append_prefix_query ex name n k :
  append_prefix ex name n k = (fun q => query_element name <$> q) <$> prefix_query ex n k.
Proof.
  revert k. induction n as [|n IH]; intros [|x k]; try done. cbn [append_prefix prefix_query]. rewrite IH.
  destruct (prefix_query ex n k) as [q|]; [|done]. simpl. by destruct (ex && (n =? 0)%nat).
Qed.

Lemma prefix_query_inclusive n k q : prefix_query false n k = Some q -> Forall (fun p : E * bool => p.2 = true) q.
Proof.
  revert k q. induction n as [|n IH]; intros [|x k] q Hq; cbn [prefix_query] in Hq; simplify_eq; [constructor..|].
  destruct (prefix_query false n k) as [q'|] eqn:Hq'; simplify_eq/=. constructor; [done|]. by eapply IH.
Qed.

Lemma prefix_query_exclusive name n k q :
  prefix_query true (S n) k = Some q -> query_element name <$> q = query_object name q.
Proof.
  revert k q. induction n as [|n IH]; intros [|x k] q Hq; try done; [by simplify_eq/=|].
  change (prefix_query true (S (S n)) (x :: k)) with (q' ← prefix_query true (S n) k; Some ((x, true) :: q')) in Hq.
  destruct (prefix_query true (S n) k) as [q'|] eqn:Hq'; [|done]. injection Hq as <-. rewrite fmap_cons, (IH k q' Hq'). done.
Qed.

Lemma append_suffix_query name sfx incl q :
  suffix_query sfx incl = Some q -> append_suffix name sfx incl = Some (query_object name q).
Proof.
  revert incl q. induction sfx as [|[e|] sfx IH]; intros [|b incl] q Hq; simplify_eq/=; [done|].
  destruct (suffix_query sfx incl) as [q'|] eqn:Hq'; simplify_eq/=. destruct b; [|done]. by rewrite (IH incl q').
Qed.

Lemma query_object_app name p q :
  Forall (fun p : E * bool => p.2 = true) p ->
  query_object name (p ++ q) = (query_element name <$> p) ++ query_object name q.
Proof. induction 1 as [|[e b] p Hb Hp IH]; [done|]. simpl in *. subst b. by rewrite IH. Qed.

Definition exclusive_name (isForward : bool) : list Z := [if isForward then behavior_greater else behavior_less].

(** The query object that is made for a seek point is the one of its position. *)
Lemma makeQueryObject_spec sp isForward q :
  seek_query sp = Some q -> length (keySuffix sp) = length (suffixInclusive sp) ->
  makeQueryObject sp isForward = Some (query_object (exclusive_name isForward) q).
Proof.
  unfold seek_query, makeQueryObject. intros Hq Hlen. fold (exclusive_name isForward). rewrite append_prefix_query.
  destruct (prefix_query (prefixExclusive sp) (prefixLen sp) (keyPrefix sp)) as [p|] eqn:Hp; [|done].
  cbn [mbind option_bind fmap option_fmap option_map] in *. destruct (prefixExclusive sp).
  - destruct (prefixLen sp) as [|n] eqn:Hn; [done|]. simpl in Hq. simplify_eq. simpl. f_equal.
    by eapply prefix_query_exclusive.
  - rewrite invariant_bind by (apply Nat.eqb_eq; lia).
    destruct (suffix_query _ _) as [s|] eqn:Hs; [|done]. cbn [mbind option_bind] in Hq. simplify_eq.
    rewrite (append_suffix_query _ _ _ _ Hs). cbn [mbind option_bind]. f_equal.
    by rewrite query_object_app by by eapply prefix_query_inclusive.
Qed.

Lemma elt_appendAs_compare_r x y n : Z.sgn (elt_compare false x (elt_appendAs y n)) = Z.sgn (elt_compare false x y).
Proof. rewrite cmp_flip, elt_appendAs_compare, <- cmp_flip. done. Qed.

Lemma eqBehavior_appendAs x n : eqBehavior (elt_appendAs x n) = hd 0 n.
Proof. unfold eqBehavior. by rewrite elt_appendAs_name. Qed.

(** A stored key is on one side of a query object. *)
Lemma compare_keys_query order isForward kp : forall i k q,
  orders_from order i kp -> length k = length kp -> plain k -> covers (length kp) q = true ->
  exists c, compare_keys order (mask_at i) k (query_object (exclusive_name isForward) q) = Some c /\
    before_query (scan_dirs isForward kp) q k =
      match c with Some c => (if isForward then c <? 0 else 0 <? c) | None => false end /\ c <> Some 0.
Proof.
  induction kp as [|e kp IH]; intros i [|x k] [|[y b] q] Hord Hl Hpl Hcov; try done; [by exists None|].
  injection Hl as Hl. apply orders_from_cons in Hord as [Hd Hord]. apply Forall_cons in Hpl as [Hx Hpl].
  cbn [scan_dirs index_dirs fmap list_fmap before_query]. unfold cmpv. change (list_fmap _ _ _ (list_fmap _ _ _ kp)) with (scan_dirs isForward kp).
  assert (query_object (exclusive_name isForward) ((y, b) :: q) =
    elt_appendAs y (if b then [] else exclusive_name isForward) ::
    (if b then query_object (exclusive_name isForward) q else [])) as -> by by destruct b.
  cbn [compare_keys]. rewrite Hd, Hx, eqBehavior_appendAs.
  pose proof (elt_appendAs_compare_r x y (if b then [] else exclusive_name isForward)) as Hc.
  generalize dependent (elt_compare false x (elt_appendAs y (if b then [] else exclusive_name isForward))).
  generalize (elt_compare false x y). intros c c' Hc.
  destruct (Z.eqb_spec c' 0) as [->|Hne].
  - assert (c = 0) as -> by lia. rewrite Z.mul_0_r. change (0 <? 0) with false. change (0 =? 0) with true. cbn [negb]. destruct b.
    + simpl. rewrite next_mask_at. by apply IH.
    + unfold exclusive_name. destruct isForward; simpl; eexists; done.
  - cbn [negb]. eexists. split; [done|]. destruct isForward, (elt_neg e); repeat case_if; (split; [try lia|intros [=]; lia]).
Qed.

(** An entry with a valid record id is strictly on one side of the query of a cursor. *)
Lemma entry_compare_query order isForward kp (e : IndexKeyEntry E) q :
  orders order kp -> stored kp e -> covers (length kp) q = true ->
  exists c, entry_compare order e
      (mkIndexKeyEntry (query_object (exclusive_name isForward) q) (if isForward then kMinRepr else kMaxRepr)) = Some c /\
    c <> 0 /\ (if isForward then c <? 0 else 0 <? c) = before_query (scan_dirs isForward kp) q (ikey e).
Proof.
  intros Hord (Hlen & Hpl & Hv) Hcov. unfold entry_compare. cbn [ikey loc]. rewrite <- mask_at_0.
  destruct (compare_keys_query order isForward kp 0 (ikey e) q) as (c & -> & Hb & Hne); [by apply orders_start|done..|].
  rewrite Hb. cbn [mbind option_bind]. destruct c as [c|]; [by exists c; split_and!; [|congruence|]|].
  apply valid_not_null in Hv as [-> Hr]. unfold kMaxRepr in Hr. simpl. destruct isForward.
  - exists 1. split_and!; [|done|done]. f_equal. unfold RecordId_compare, kMinRepr. repeat case_if; lia.
  - exists (-1). split_and!; [|done|done]. f_equal. unfold RecordId_compare, kMaxRepr. repeat case_if; lia.
Qed.

(** ** Properties *)

(** With the ordering of a key pattern, the comparison of two stored entries never fails
    and is a total order: field by field in the directions of the key pattern, then by
    record id. *)
Theorem entry_comparison_total kp order :
  Ordering_make kp = Some order ->
  (forall a b, stored kp a -> stored kp b ->
    exists c, entry_compare order a b = Some c /\
      Z.sgn c = Z.sgn (if scan_cmp (index_dirs kp) (ikey a) (ikey b) =? 0 then loc a - loc b
                       else scan_cmp (index_dirs kp) (ikey a) (ikey b))) /\
  total_on (stored kp) (fun a b => from_option id 0 (entry_compare order a b)).
Proof.
  intros Hord%Ordering_make_orders. split.
  - intros a b Ha Hb. by apply (entry_compare_stored order kp a b).
  - eapply total_sgn; [|apply (entry_order_total kp)]. intros a b Ha Hb.
    destruct (entry_compare_stored order kp a b Hord Ha Hb) as (c & -> & Hc). done.
Qed.

(** The query object for a seek point separates the entries: compared with the query that
    a cursor uses, an entry is before it in the direction of the cursor exactly when its key
    is before the position of the seek point, and it is never equal. *)
Theorem query_object_separates kp order isForward sp q :
  Ordering_make kp = Some order -> seek_query sp = Some q -> covers (length kp) q = true ->
  length (keySuffix sp) = length (suffixInclusive sp) ->
  exists query, makeQueryObject sp isForward = Some query /\
    forall e : IndexKeyEntry E, stored kp e ->
      exists c, entry_compare order e (mkIndexKeyEntry query (if isForward then kMinRepr else kMaxRepr)) = Some c /\
        c <> 0 /\ (if isForward then c <? 0 else 0 <? c) = before_query (scan_dirs isForward kp) q (ikey e).
Proof.
  intros Hord%Ordering_make_orders Hq Hcov Hlen. exists (query_object (exclusive_name isForward) q).
  split; [by apply makeQueryObject_spec|]. intros e He. by apply entry_compare_query.
Qed.
End order.
