(* ===== verification/SortedDataInterface.v ===== *)
(** * What an index promises to the stages that read it

    [db/storage/sorted_data_interface.h] describes cursors over sorted data.  The class
    [SortedDataInterface] states this contract: the entries of an index are sorted, a seek
    goes to the first entry at or after a position in the direction of the cursor, [next]
    moves on, and nothing at or past the end position is returned.  A restored cursor goes
    on with the entries after the last one it returned, whatever happened to the data. *)

From Stdlib Require Import ZArith Lia.
From stdpp Require Import prelude.
From S2P Require Import Prelude TotalOrder CompareNumbers Bson ElementOrder Interval IndexBounds IndexBoundsChecker BoundsCheckerSpec CheckKey IndexEntryComparison IndexEntryOrder.

Open Scope Z_scope.

(** ** Positions and the entries after them *)

Section positions.
Context `{EO : ElementOrder E}.
Variable kp : list E.
Implicit Types (e : IndexKeyEntry E) (q : list (E * bool)) (key : list E).

(** The position of a key: before or after the entries with that key. *)
Fixpoint key_query key (inclusive : bool) : list (E * bool) :=
  match key with
  | [] => []
  | [k] => [(k, inclusive)]
  | k :: key => (k, true) :: key_query key inclusive
  end.

(** The entry comes before the position for a cursor in this direction. *)
Definition before (isForward : bool) q e : bool := before_query (scan_dirs isForward kp) q (ikey e).

(** The entry comes before the end position. *)
Definition within_end (isForward : bool) (endq : option (list (E * bool))) e : bool :=
  match endq with None => true | Some q => before isForward q e end.

(** The entries in the order of the cursor. *)
Definition scan_list (isForward : bool) (d : list (IndexKeyEntry E)) : list (IndexKeyEntry E) :=
  if isForward then d else rev d.

(** The entries that satisfy [P], in the order of the cursor and before its end. *)
Definition upto_end (isForward : bool) (endq : option (list (E * bool))) (P : IndexKeyEntry E -> bool)
    (d : list (IndexKeyEntry E)) : list (IndexKeyEntry E) :=
  List.filter (fun e => P e && within_end isForward endq e) (scan_list isForward d).

(** [e'] comes after [e] for a cursor; a unique index has one entry for a key. *)
Definition after (isForward unique : bool) e e' : bool :=
  if unique then scan_cmp (scan_dirs isForward kp) (ikey e) (ikey e') <? 0
  else (if isForward then entry_order kp e e' else entry_order kp e' e) <? 0.

(** Entries as an index holds them: sorted, and in a unique index with different keys. *)
Definition data_ok (unique : bool) (d : list (IndexKeyEntry E)) : Prop :=
  Forall (stored kp) d /\
  (forall i j a b, (i < j)%nat -> d !! i = Some a -> d !! j = Some b -> entry_order kp a b < 0) /\
  (unique = true -> forall a b, a ∈ d -> b ∈ d -> scan_cmp (index_dirs kp) (ikey a) (ikey b) = 0 -> a = b).
End positions.

(** ** Order and positions *)

Section order.
Context `{EO : ElementOrder E}.
Implicit Types (kp key a b : list E) (q : list (E * bool)) (dirs : list Z).

Lemma dir_total d : direction d -> total (fun x y : E => d * cmpv x y).
Proof.
  intros Hd. split.
  - intros x y _ _. by apply dir_flip.
  - intros x y z _ _ _. pose proof (cmp_flip x y). pose proof (cmp_flip y z). pose proof (cmp_flip x z).
    pose proof (cmp_trans x y z). pose proof (cmp_trans z y x). unfold cmpv. destruct Hd as [-> | ->]; lia.
Qed.

(** What comes before a key that is before a position is before it, too. *)
Lemma before_query_mono dirs : forall q a b,
  Forall direction dirs -> length a = length dirs -> length b = length dirs ->
  scan_cmp dirs a b <= 0 -> before_query dirs q b = true -> before_query dirs q a = true.
Proof.
  induction dirs as [|d dirs IH]; intros [|[e i] q] [|x a] [|y b] Hd Ha Hb Hle Hbef; try done.
  apply Forall_cons in Hd as [Hd Hdirs]. injection Ha as Ha. injection Hb as Hb. cbn [scan_cmp before_query] in *.
  pose proof (dir_total d Hd) as Ht. pose proof (total_trans_lt_l Ht x y e I I I) as H1.
  pose proof (total_trans_lt_r Ht x y e I I I) as H2. pose proof (total_sgn_eq_l Ht x y e I I I) as H3. cbn beta in H1, H2, H3.
  destruct (Z.eqb_spec (d * cmpv x y) 0) as [E0|E0].
  - specialize (H3 E0). destruct (Z.ltb_spec (d * cmpv y e) 0), (Z.ltb_spec (d * cmpv x e) 0); try lia; try done.
    destruct (Z.ltb_spec 0 (d * cmpv y e)); [done|]. destruct (Z.ltb_spec 0 (d * cmpv x e)); [lia|].
    destruct i; [|done]. by eapply IH.
  - destruct (Z.ltb_spec (d * cmpv x e) 0) as [|Hx]; [done|].
    destruct (Z.ltb_spec (d * cmpv y e) 0); [lia|]. destruct (Z.ltb_spec 0 (d * cmpv y e)); [done|lia].
Qed.

Lemma scan_cmp_dirs isForward kp a b :
  scan_cmp (scan_dirs isForward kp) a b = (if isForward then 1 else -1) * scan_cmp (index_dirs kp) a b.
Proof.
  unfold scan_dirs. generalize (index_dirs kp). intros dirs. revert a b.
  induction dirs as [|d dirs IH]; intros [|x a] [|y b]; rewrite ?fmap_cons; cbn [fmap list_fmap scan_cmp]; try lia.
  rewrite IH. rewrite <- Z.mul_assoc. generalize (d * cmpv x y) (scan_cmp dirs a b). intros u v.
  destruct isForward; repeat case_if; lia.
Qed.

Lemma scan_dirs_direction isForward kp : Forall direction (scan_dirs isForward kp).
Proof.
  apply Forall_fmap. eapply Forall_impl; [apply index_dirs_direction|]. intros d Hd. unfold direction in *. simpl.
  destruct isForward; lia.
Qed.

Lemma length_scan_dirs isForward kp : length (scan_dirs isForward kp) = length kp.
Proof. unfold scan_dirs, index_dirs. by rewrite !length_fmap. Qed.

(** Earlier entries of the cursor are before a position when a later one is. *)
Lemma before_mono kp (fwd : bool) q (x y : IndexKeyEntry E) :
  stored kp x -> stored kp y -> (if fwd then entry_order kp x y else entry_order kp y x) < 0 ->
  before kp fwd q y = true -> before kp fwd q x = true.
Proof.
  intros (Hx & _) (Hy & _) Hlt. unfold before.
  apply before_query_mono; [apply scan_dirs_direction|by rewrite length_scan_dirs|by rewrite length_scan_dirs|].
  rewrite scan_cmp_dirs. unfold entry_order, lex in Hlt.
  pose proof (total_flip _ _ (scan_cmp_total _ (index_dirs_direction kp)) (ikey x) (ikey y)) as Hf.
  unfold index_dirs in Hf at 1 2. rewrite length_fmap in Hf. specialize (Hf Hx Hy).
  revert Hlt. destruct fwd; case_if; lia.
Qed.

(** ** Positions of keys *)

Lemma covers_key_query key inclusive : covers (length key) (key_query key inclusive) = true.
Proof. induction key as [|k [|k' key] IH]; [done|by destruct inclusive|]. exact IH. Qed.

Lemma before_key_query dirs key inclusive a :
  key <> [] -> length key = length dirs -> length a = length dirs ->
  before_query dirs (key_query key inclusive) a =
  (scan_cmp dirs a key <? 0) || (negb inclusive && (scan_cmp dirs a key =? 0)).
Proof.
  revert key a. induction dirs as [|d dirs IH]; intros [|k key] [|x a] Hne Hk Ha; try done.
  injection Hk as Hk. injection Ha as Ha. cbn [scan_cmp].
  destruct key as [|k' key].
  - destruct dirs; [|done]. cbn [key_query before_query scan_cmp]. destruct a; [|done]. cbn [before_query].
    generalize (d * cmpv x k). intros c. destruct inclusive; repeat case_if; lia.
  - change (key_query (k :: k' :: key) inclusive) with ((k, true) :: key_query (k' :: key) inclusive). cbn [before_query].
    rewrite (IH (k' :: key) a) by done. generalize (d * cmpv x k) (scan_cmp dirs a (k' :: key)). intros c c'.
    destruct inclusive; repeat case_if; lia.
Qed.
End order.

(** ** The order of a cursor *)

Section cursor_order.
Context `{EO : ElementOrder E}.
Variable kp : list E.
Implicit Types (e : IndexKeyEntry E) (d : list (IndexKeyEntry E)) (fwd unique : bool).

Lemma data_stored unique d i e : data_ok kp unique d -> d !! i = Some e -> stored kp e.
Proof. intros [Hst _] He. by apply (proj1 (Forall_lookup _ _) Hst i). Qed.

Definition scan_order fwd (a b : IndexKeyEntry E) : Z := if fwd then entry_order kp a b else entry_order kp b a.

Definition scan_key fwd (a b : IndexKeyEntry E) : Z := scan_cmp (scan_dirs fwd kp) (ikey a) (ikey b).

(** What tells two positions of a cursor apart: in a unique index only the key. *)
Definition pos_order fwd unique (a b : IndexKeyEntry E) : Z := if unique then scan_key fwd a b else scan_order fwd a b.

Lemma scan_order_total fwd : total_on (stored kp) (scan_order fwd).
Proof.
  pose proof (entry_order_total kp) as Ht. destruct fwd; [exact Ht|]. split.
  - intros x y Hx Hy. apply (total_flip _ _ Ht); done.
  - intros x y z Hx Hy Hz H1 H2. by apply (total_trans _ _ Ht z y x).
Qed.

Lemma pos_order_total fwd unique : total_on (stored kp) (pos_order fwd unique).
Proof.
  destruct unique; [|apply scan_order_total].
  eapply total_weaken; [|apply (total_map _ ikey _ (scan_cmp_total _ (scan_dirs_direction fwd kp)))].
  intros e (Hlen & _). by rewrite length_scan_dirs.
Qed.

Lemma after_pos fwd unique a b : after kp fwd unique a b = (pos_order fwd unique a b <? 0).
Proof. unfold after, pos_order, scan_order, scan_key. by destruct unique. Qed.

Lemma scan_order_key fwd a b :
  stored kp a -> stored kp b -> (scan_order fwd a b <= 0 -> scan_key fwd a b <= 0) /\ (scan_key fwd a b < 0 -> scan_order fwd a b < 0).
Proof.
  intros (Ha & _) (Hb & _). unfold scan_key, scan_order, entry_order, lex. rewrite scan_cmp_dirs.
  pose proof (total_flip _ _ (scan_cmp_total _ (index_dirs_direction kp)) (ikey a) (ikey b)) as Hf.
  unfold index_dirs in Hf at 1 2. rewrite length_fmap in Hf. specialize (Hf Ha Hb). destruct fwd; case_if; lia.
Qed.

Lemma scan_pos_le fwd unique a b : stored kp a -> stored kp b -> scan_order fwd a b <= 0 -> pos_order fwd unique a b <= 0.
Proof. intros Ha Hb. destruct unique; [|done]. by apply scan_order_key. Qed.

Lemma pos_scan_lt fwd unique a b : stored kp a -> stored kp b -> pos_order fwd unique a b < 0 -> scan_order fwd a b < 0.
Proof. intros Ha Hb. destruct unique; [|done]. by apply scan_order_key. Qed.

(** Different entries of an index are at different positions. *)
Lemma data_pos_lt unique fwd d i j a b :
  data_ok kp unique d -> d !! i = Some a -> d !! j = Some b -> (if fwd then i < j else j < i)%nat -> pos_order fwd unique a b < 0.
Proof.
  intros Hok Ha Hb Hij. pose proof Hok as (_ & Hs & Hu). pose proof (data_stored _ _ _ _ Hok Ha) as Hsa.
  pose proof (data_stored _ _ _ _ Hok Hb) as Hsb.
  assert (scan_order fwd a b < 0) as Hlt by (destruct fwd; [apply (Hs i j)|apply (Hs j i)]; done).
  destruct unique; [|done]. destruct (scan_order_key fwd a b Hsa Hsb) as [Hle _]. specialize (Hle ltac:(lia)). simpl.
  destruct (decide (scan_key fwd a b = 0)) as [H0|]; [|lia]. unfold scan_key in H0. rewrite scan_cmp_dirs in H0.
  assert (a = b) as ->.
  { apply Hu; [done|by eapply list_elem_of_lookup_2|by eapply list_elem_of_lookup_2|]. destruct fwd; lia. }
  pose proof (total_refl (scan_order_total fwd) b Hsb). lia.
Qed.

End cursor_order.

(** ** The contract *)

Section contract.
Context `{EO : ElementOrder E}.

Class SortedDataInterface (kp : list E) (D C : Type) := {
  sd_entries : D -> list (IndexKeyEntry E);
  sd_unique : D -> bool;
  sd_newCursor : D -> bool -> C;
  sd_setEndPosition : D -> C -> list E -> bool -> option C;
  sd_seek : D -> C -> list E -> bool -> option (C * option (IndexKeyEntry E));
  sd_seekPoint : D -> C -> IndexSeekPoint E -> option (C * option (IndexKeyEntry E));
  sd_next : D -> C -> option (C * option (IndexKeyEntry E));
  sd_save : D -> C -> option C;
  sd_saveUnpositioned : C -> C;
  sd_restore : D -> C -> option C;

  (** A cursor of an index with a direction and an end position. *)
  sd_cursor : D -> bool -> option (list (E * bool)) -> C -> Prop;
  (** The cursor has returned the entry last and will return the list; [None] at the end. *)
  sd_upcoming : D -> bool -> option (list (E * bool)) -> C -> option (IndexKeyEntry E) -> list (IndexKeyEntry E) -> Prop;
  (** The cursor has been saved; with the entry when it is positioned. *)
  sd_saved : bool -> bool -> C -> option (IndexKeyEntry E) -> option (list (E * bool)) -> Prop;

  sd_new t fwd : data_ok kp (sd_unique t) (sd_entries t) -> sd_cursor t fwd None (sd_newCursor t fwd);
  sd_end t fwd endq c key inclusive :
    data_ok kp (sd_unique t) (sd_entries t) -> sd_cursor t fwd endq c -> key <> [] -> length key = length kp ->
    exists c', sd_setEndPosition t c key inclusive = Some c' /\ sd_cursor t fwd (Some (key_query key (negb inclusive))) c';
  sd_seek_key t fwd endq c key inclusive :
    data_ok kp (sd_unique t) (sd_entries t) -> sd_cursor t fwd endq c -> key <> [] -> length key = length kp ->
    let l := upto_end kp fwd endq (fun e => negb (before kp fwd (key_query key inclusive) e)) (sd_entries t) in
    exists c', sd_seek t c key inclusive = Some (c', head l) /\ sd_upcoming t fwd endq c' (head l) (tail l);
  sd_seek_point t fwd endq c sp q :
    data_ok kp (sd_unique t) (sd_entries t) -> sd_cursor t fwd endq c ->
    seek_query sp = Some q -> covers (length kp) q = true -> length (keySuffix sp) = length (suffixInclusive sp) ->
    let l := upto_end kp fwd endq (fun e => negb (before kp fwd q e)) (sd_entries t) in
    exists c', sd_seekPoint t c sp = Some (c', head l) /\ sd_upcoming t fwd endq c' (head l) (tail l);
  sd_next_entry t fwd endq c o l :
    sd_upcoming t fwd endq c o l ->
    exists c', sd_next t c = Some (c', head l) /\ sd_upcoming t fwd endq c' (head l) (tail l);
  sd_upcoming_cursor t fwd endq c o l : sd_upcoming t fwd endq c o l -> sd_cursor t fwd endq c;
  sd_save_entry t fwd endq c o l :
    sd_upcoming t fwd endq c o l -> exists c', sd_save t c = Some c' /\ sd_saved fwd (sd_unique t) c' o endq;
  sd_save_unpositioned t fwd endq c :
    sd_cursor t fwd endq c -> sd_saved fwd (sd_unique t) (sd_saveUnpositioned c) None endq;
  sd_restore_entry t fwd endq c o :
    data_ok kp (sd_unique t) (sd_entries t) -> sd_saved fwd (sd_unique t) c o endq ->
    let l := match o with
             | Some e => upto_end kp fwd endq (after kp fwd (sd_unique t) e) (sd_entries t)
             | None => []
             end in
    exists c', sd_restore t c = Some c' /\ sd_upcoming t fwd endq c' o l;
}.
End contract.
