(* ===== verification/IndexScan.v ===== *)
(** * The index scan stage

    Models [db/exec/index_scan.cpp]: the stage that reads an index within bounds, over any
    index that keeps the contract of [SortedDataInterface].  The filter on index keys is an
    argument; write conflicts, owned copies of keys and the debug assertions are left out. *)

From Stdlib Require Import ZArith Lia.
From stdpp Require Import prelude gmap.
From S2P Require Import Prelude TotalOrder CompareNumbers Bson ElementOrder Interval IndexBounds IndexBoundsBuilder IndexBoundsChecker IndexEntryComparison SortedDataInterface.

Open Scope Z_scope.

Inductive ScanState := INITIALIZING | NEED_SEEK | GETTING_NEXT | HIT_END.

(** The result of a call of [work]; a member of the working set has a record id and a key. *)
Inductive StageState (M : Type) := ADVANCED (m : M) | NEED_TIME | IS_EOF.
Arguments ADVANCED {M} m.
Arguments NEED_TIME {M}.
Arguments IS_EOF {M}.

Record IndexScanStats := mkStats { seeks : Z; keysExamined : Z; dupsTested : Z; dupsDropped : Z }.

Section IndexScan.
Context `{EO : ElementOrder E}.

Record IndexScanParams := mkParams {
  keyPattern : list E;
  pbounds : IndexBounds E;
  pdirection : Z;
  shouldDedup : bool;
}.

Section stage.
Context {D C : Type} (params : IndexScanParams) {SD : SortedDataInterface (keyPattern params) D C}.

(** The filter, if there is one. *)
Variable filter : option (list E -> bool).

Record IndexScan := mkIndexScan {
  scanState : ScanState;
  indexCursor : option C;
  checker : option (IndexBoundsChecker E);
  seek_point : IndexSeekPoint E;
  is_startKey : list E;
  is_endKey : list E;
  startKeyInclusive : bool;
  endKeyInclusive : bool;
  returned : gset Z;
  stats : IndexScanStats;
  commonIsEOF : bool;
}.

Definition IndexScan_new : IndexScan :=
  mkIndexScan INITIALIZING None None IndexSeekPoint_default [] []
    (isStartIncludedInBound (boundInclusion (pbounds params)))
    (isEndIncludedInBound (boundInclusion (pbounds params))) ∅ (mkStats 0 0 0 0) false.

Definition is_forward : bool := pdirection params =? 1.

Definition count_seek (s : IndexScan) : IndexScan :=
  {| s with stats := {| (stats s) with seeks := seeks (stats s) + 1 |} |}.

Definition initIndexScan (t : D) (s : IndexScan) : option (IndexScan * option (IndexKeyEntry E)) :=
  let c := sd_newCursor t is_forward in
  let s := count_seek s in
  let b := pbounds params in
  if isSimpleRange b then
    c ← sd_setEndPosition t c (endKey b) (endKeyInclusive s);
    '(c, kv) ← sd_seek t c (startKey b) (startKeyInclusive s);
    Some ({| s with indexCursor := Some c; is_startKey := startKey b; is_endKey := endKey b |}, kv)
  else
    r ← isSingleInterval b (is_startKey s) (is_endKey s);
    let s := {| s with is_startKey := si_startKey r; startKeyInclusive := si_startKeyInclusive r;
                       is_endKey := si_endKey r; endKeyInclusive := si_endKeyInclusive r |} in
    if single r then
      c ← sd_setEndPosition t c (is_endKey s) (endKeyInclusive s);
      '(c, kv) ← sd_seek t c (is_startKey s) (startKeyInclusive s);
      Some ({| s with indexCursor := Some c |}, kv)
    else
      let ck := IndexBoundsChecker_new b (keyPattern params) (pdirection params) in
      let s := {| s with checker := Some ck; indexCursor := Some c |} in
      match getStartSeekPoint ck (seek_point s) with
      | None => Some (s, None)
      | Some sp =>
          '(c, kv) ← sd_seekPoint t c sp;
          Some ({| s with seek_point := sp; indexCursor := Some c |}, kv)
      end.

(** The next entry of the index, as the state of the scan says. *)
Definition fetch (t : D) (s : IndexScan) : option (IndexScan * option (IndexKeyEntry E)) :=
  match scanState s with
  | INITIALIZING => initIndexScan t s
  | GETTING_NEXT =>
      c ← indexCursor s;
      '(c, kv) ← sd_next t c;
      Some ({| s with indexCursor := Some c |}, kv)
  | NEED_SEEK =>
      c ← indexCursor s;
      '(c, kv) ← sd_seekPoint t c (seek_point s);
      Some ({| (count_seek s) with indexCursor := Some c |}, kv)
  | HIT_END => Some (s, None)
  end.

(** No entry, or no later one can be in the bounds. *)
Definition hit_end (s : IndexScan) : IndexScan :=
  {| s with scanState := HIT_END; commonIsEOF := true; indexCursor := None |}.

(** The entry is in the bounds: drop it or return it. *)
Definition emit (s : IndexScan) (kv : IndexKeyEntry E) : IndexScan * StageState (Z * list E) :=
  let s := {| s with scanState := GETTING_NEXT |} in
  let pass s :=
    match filter with
    | Some passes => if negb (passes (ikey kv)) then (s, NEED_TIME) else (s, ADVANCED (loc kv, ikey kv))
    | None => (s, ADVANCED (loc kv, ikey kv))
    end in
  if shouldDedup params then
    let st := stats s in
    let st := {| st with dupsTested := dupsTested st + 1 |} in
    if bool_decide (loc kv ∈ returned s) then
      ({| s with stats := {| st with dupsDropped := dupsDropped st + 1 |} |}, NEED_TIME)
    else pass {| s with stats := st; returned := {[ loc kv ]} ∪ returned s |}
  else pass s.

(** Check an entry that has been read against the bounds. *)
Definition examine (s : IndexScan) (kv : IndexKeyEntry E) : option (IndexScan * StageState (Z * list E)) :=
  let s := {| s with stats := {| (stats s) with keysExamined := keysExamined (stats s) + 1 |} |} in
  match checker s with
  | None => Some (emit s kv)
  | Some ck =>
      '(ck, sp, st) ← checkKey ck (ikey kv) (seek_point s);
      let s := {| s with checker := Some ck; seek_point := sp |} in
      match st with
      | VALID => Some (emit s kv)
      | DONE => Some (hit_end s, IS_EOF)
      | MUST_ADVANCE => Some ({| s with scanState := NEED_SEEK |}, NEED_TIME)
      end
  end.

Definition doWork (t : D) (s : IndexScan) : option (IndexScan * StageState (Z * list E)) :=
  match scanState s with
  | HIT_END => Some (s, IS_EOF)
  | _ =>
      '(s, kv) ← fetch t s;
      match kv with
      | None => Some (hit_end s, IS_EOF)
      | Some kv => examine s kv
      end
  end.

Definition doSaveState (t : D) (s : IndexScan) : option IndexScan :=
  match indexCursor s with
  | None => Some s
  | Some c =>
      match scanState s with
      | NEED_SEEK => Some {| s with indexCursor := Some (sd_saveUnpositioned c) |}
      | _ => c ← sd_save t c; Some {| s with indexCursor := Some c |}
      end
  end.

Definition doRestoreState (t : D) (s : IndexScan) : option IndexScan :=
  match indexCursor s with
  | None => Some s
  | Some c => c ← sd_restore t c; Some {| s with indexCursor := Some c |}
  end.

(** Call [doWork] until the end, collecting what it returns. *)
Fixpoint run (fuel : nat) (t : D) (s : IndexScan) : option (list (Z * list E)) :=
  match fuel with
  | O => None
  | S fuel =>
      '(s, r) ← doWork t s;
      match r with
      | IS_EOF => Some []
      | NEED_TIME => run fuel t s
      | ADVANCED m => l ← run fuel t s; Some (m :: l)
      end
  end.
End stage.
End IndexScan.
Arguments IndexScanParams E : clear implicits.
Arguments IndexScan E C : clear implicits.
