(* ===== verification/SingleInterval.v ===== *)
(** * Bounds that are one range

    When [isSingleInterval] says that bounds are a single interval, the keys within the
    bounds are those from the start key to the end key. *)

From Stdlib Require Import ZArith Lia.
From stdpp Require Import prelude.
From S2P Require Import Prelude TotalOrder CompareNumbers Bson ElementOrder Interval IndexBounds IndexBoundsBuilder IndexBoundsChecker BoundsCheckerSpec CheckKey IndexEntryComparison IndexEntryOrder SortedDataInterface.

Open Scope Z_scope.

Section single.
Context `{EO : ElementOrder E}.
Implicit Types (x : E) (k s e : list E) (d : Z) (dirs : list Z) (fs : list (OrderedIntervalList E)) (i : Interval E) (si ei : bool).

(** [k] is from [s] on, and up to [e]. *)
Definition from_start dirs si s k : bool := if si then 0 <=? scan_cmp dirs k s else 0 <? scan_cmp dirs k s.
Definition to_end dirs ei e k : bool := if ei then scan_cmp dirs k e <=? 0 else scan_cmp dirs k e <? 0.

(** A value is in an interval when it is after its start and before its end. *)
Lemma within_oriented d i x :
  direction d ->
  bool_decide (intervalCmp i x d = WITHIN) =
  (if startInclusive i then 0 <=? d * cmpv x (start i) else 0 <? d * cmpv x (start i)) &&
  (if endInclusive i then d * cmpv x (iend i) <=? 0 else d * cmpv x (iend i) <? 0).
Proof.
  intros [-> | ->]; oriented; generalize (cmpv x (start i)) (cmpv x (iend i)); intros a b;
    destruct (startInclusive i), (endInclusive i); rewrite ?andb_true_r, ?andb_false_r, ?orb_false_r;
    repeat case_if; rewrite ?bool_decide_true, ?bool_decide_false by done; lia.
Qed.

Lemma in_field_one d i n x :
  direction d ->
  in_field d (mkOrderedIntervalList [i] n) x =
  (if startInclusive i then 0 <=? d * cmpv x (start i) else 0 <? d * cmpv x (start i)) &&
  (if endInclusive i then d * cmpv x (iend i) <=? 0 else d * cmpv x (iend i) <? 0).
Proof. intros Hd. unfold in_field. simpl. by rewrite orb_false_r, within_oriented. Qed.

(** ** Fields with all values *)

Lemma all_values_ends x : 0 <= cmpv x elt_minKey /\ cmpv x elt_maxKey <= 0.
Proof.
  pose proof (elt_least elt_minKey x elt_minKey_type). pose proof (elt_greatest x elt_maxKey elt_maxKey_type).
  pose proof (cmp_flip elt_minKey x). unfold cmpv. lia.
Qed.

(** If the greatest value is not above the least one, all values are equal. *)
Lemma all_values_equal x : cmpv elt_maxKey elt_minKey <= 0 -> cmpv x elt_minKey = 0 /\ cmpv x elt_maxKey = 0.
Proof.
  intros Hm. destruct (all_values_ends x) as [H1 H2]. unfold cmpv in *. pose proof (cmp_flip x elt_minKey). pose proof (cmp_flip x elt_maxKey).
  pose proof (cmp_trans x elt_maxKey elt_minKey). pose proof (cmp_trans elt_maxKey elt_minKey x). lia.
Qed.

(** In a valid field the interval goes from the first value to the last in its direction. *)
Lemma all_values_valid d i n x lo hi :
  field_ok (mkOrderedIntervalList [i] n) d ->
  cmpv (start i) lo = 0 -> cmpv (iend i) hi = 0 -> startInclusive i = true -> endInclusive i = true ->
  (lo = elt_minKey /\ hi = elt_maxKey \/ lo = elt_maxKey /\ hi = elt_minKey) ->
  0 <= d * cmpv x lo /\ d * cmpv x hi <= 0 /\ in_field d (mkOrderedIntervalList [i] n) x = true.
Proof.
  intros [Hd Hv] Hs He Hsi Hei Hlh. rewrite in_field_one by done. rewrite Hsi, Hei. pose proof (elt_total false) as Ht.
  pose proof (total_sgn_eq_r Ht (start i) lo x I I I Hs) as Exs. pose proof (total_sgn_eq_r Ht (iend i) hi x I I I He) as Exe.
  pose proof (total_sgn_eq_r Ht (start i) lo (iend i) I I I Hs) as E1. pose proof (total_sgn_eq_l Ht (iend i) hi lo I I I He) as E2.
  assert (0 <= d * cmpv hi lo) as Hhl.
  { unfold oil_isValidFor in Hv. simpl in Hv. rewrite !andb_true_r in Hv. unfold cmpv in *.
    destruct Hd as [-> | ->]; [rewrite interval_valid_1 in Hv|rewrite interval_valid_m1 in Hv]; rewrite Hsi, Hei in Hv; unfold cmpv in Hv; lia. }
  assert (0 <= d * cmpv x lo /\ d * cmpv x hi <= 0) as [Hlo Hhi].
  { destruct (all_values_ends x) as [H1 H2]. pose proof (all_values_equal x) as Heq. pose proof (cmp_flip elt_minKey elt_maxKey) as Hf.
    unfold cmpv in *. destruct Hlh as [[-> ->]|[-> ->]], Hd as [-> | ->]; lia. }
  unfold cmpv in *. split_and!; [done|done|]. destruct Hd as [-> | ->]; lia.
Qed.

Lemma allValues_minMax : allValues = Some (mkInterval [elt_minKey; elt_maxKey] elt_minKey true elt_maxKey true).
Proof. done. Qed.

Lemma equals_same_ends i j :
  equals i j = true ->
  startInclusive i = startInclusive j /\ endInclusive i = endInclusive j /\ cmpv (start i) (start j) = 0 /\ cmpv (iend i) (iend j) = 0.
Proof.
  unfold equals. intros H. destruct (Bool.eqb (startInclusive i) (startInclusive j)) eqn:E1; [|done].
  destruct (Bool.eqb (endInclusive i) (endInclusive j)) eqn:E2; [|done]. simpl in H.
  apply eqb_prop in E1, E2. split_and!; [done|done|..]; repeat case_if; lia.
Qed.

(** All keys are after the start and before the end of the fields with all values. *)
Lemma all_values_suffix_spec minMax si ei fs : forall dirs s e k,
  allValues = Some minMax -> Forall2 field_ok fs dirs -> length k = length fs ->
  all_values_suffix minMax (reverse minMax) si ei fs = Some (s, e) ->
  in_bounds fs dirs k = true /\
  (if si then 0 <= scan_cmp dirs k s else scan_cmp dirs k s <= 0) /\
  (if ei then scan_cmp dirs k e <= 0 else 0 <= scan_cmp dirs k e).
Proof.
  rewrite allValues_minMax. intros dirs s e k [= <-] Hok. revert s e k.
  induction Hok as [|field d fs dirs Hf Hfs IH]; intros s e [|x k] Hlen Hav; try done.
  { simpl in Hav. simplify_eq. by destruct si, ei. }
  injection Hlen as Hlen. cbn [all_values_suffix] in Hav.
  destruct field as [ivs nm]. cbn [intervals] in Hav. destruct ivs as [|i [|]]; [done| |done].
  assert (forall lo hi s' e', all_values_suffix (mkInterval [elt_minKey; elt_maxKey] elt_minKey true elt_maxKey true)
      (reverse (mkInterval [elt_minKey; elt_maxKey] elt_minKey true elt_maxKey true)) si ei fs = Some (s', e') ->
    s = (if negb si then hi else lo) :: s' -> e = (if negb ei then lo else hi) :: e' ->
    0 <= d * cmpv x lo /\ d * cmpv x hi <= 0 /\ in_field d (mkOrderedIntervalList [i] nm) x = true ->
    in_bounds (mkOrderedIntervalList [i] nm :: fs) (d :: dirs) (x :: k) = true /\
    (if si then 0 <= scan_cmp (d :: dirs) (x :: k) s else scan_cmp (d :: dirs) (x :: k) s <= 0) /\
    (if ei then scan_cmp (d :: dirs) (x :: k) e <= 0 else 0 <= scan_cmp (d :: dirs) (x :: k) e)) as Hstep.
  { intros lo hi s' e' Hrec -> -> (Hlo & Hhi & Hin). destruct (IH s' e' k Hlen Hrec) as (Hb & Hs & He).
    cbn [in_bounds scan_cmp]. rewrite Hin, Hb. split; [done|]. clear -Hlo Hhi Hs He.
    destruct si, ei; cbn [negb]; revert Hlo Hhi Hs He;
      generalize (scan_cmp dirs k s') (scan_cmp dirs k e') (d * cmpv x lo) (d * cmpv x hi); intros u v a b ? ? ? ?;
      repeat case_if; lia. }
  destruct (equals i (mkInterval [elt_minKey; elt_maxKey] elt_minKey true elt_maxKey true)) eqn:E1.
  - destruct (all_values_suffix _ _ si ei fs) as [[s' e']|] eqn:Hrec; [|done]. cbn [mbind option_bind] in Hav. injection Hav as <- <-.
    apply equals_same_ends in E1 as (Hsi & Hei & Hs & He). simpl in Hsi, Hei, Hs, He.
    eapply (Hstep elt_minKey elt_maxKey s' e'); [done|done|done|]. apply all_values_valid; [done|done|done|done|done|by left].
  - destruct (equals i (reverse _)) eqn:E2; [|done].
    destruct (all_values_suffix _ _ si ei fs) as [[s' e']|] eqn:Hrec; [|done]. cbn [mbind option_bind] in Hav. injection Hav as <- <-.
    apply equals_same_ends in E2 as (Hsi & Hei & Hs & He). simpl in Hsi, Hei, Hs, He.
    eapply (Hstep elt_maxKey elt_minKey s' e'); [done|done|done|]. apply all_values_valid; [done|done|done|done|done|by right].
Qed.

(** ** Points, then a range *)

(** The keys within [fs] are those from [s] to [e]. *)
Definition range_of fs dirs si ei s e : Prop :=
  length s = length fs /\ length e = length fs /\
  forall k, length k = length fs -> in_bounds fs dirs k = from_start dirs si s k && to_end dirs ei e k.

Lemma range_point i n fs d dirs si ei s e :
  direction d -> isPoint i = true -> range_of fs dirs si ei s e ->
  range_of (mkOrderedIntervalList [i] n :: fs) (d :: dirs) si ei (start i :: s) (iend i :: e).
Proof.
  intros Hd Hp (Hs & He & Hk). split_and!; [simpl; lia..|]. intros [|x k] Hlen; [done|]. injection Hlen as Hlen.
  cbn [in_bounds]. rewrite (Hk k Hlen). unfold isPoint in Hp. apply andb_true_iff in Hp as [[Hsi Hei]%andb_true_iff Hse].
  rewrite in_field_one, Hsi, Hei by done. unfold from_start, to_end. cbn [scan_cmp].
  apply Z.eqb_eq in Hse. symmetry in Hse. pose proof (total_sgn_eq_r (elt_total false) (start i) (iend i) x I I I Hse) as Hx.
  unfold cmpv. revert Hx. generalize (elt_compare false x (start i)) (elt_compare false x (iend i)) (scan_cmp dirs k s) (scan_cmp dirs k e).
  intros a b u v Hab. destruct Hd as [-> | ->], si, ei; repeat case_if; lia.
Qed.

Lemma range_nil : range_of [] [] true true [] [].
Proof. split_and!; [done|done|]. by intros []. Qed.

Lemma all_values_suffix_length minMax maxMin si ei fs s e :
  all_values_suffix minMax maxMin si ei fs = Some (s, e) -> length s = length fs /\ length e = length fs.
Proof.
  revert s e. induction fs as [|f fs IH]; intros s e Hav; simpl in Hav; [by simplify_eq|].
  destruct (intervals f) as [|i [|]]; [done| |done]. repeat case_match; try done.
  all: destruct (all_values_suffix minMax maxMin si ei fs) as [[s' e']|]; [|done]; simpl in *; simplify_eq; destruct (IH s' e'); [done|simpl; lia].
Qed.

Lemma range_all_values i n fs d dirs minMax s e :
  allValues = Some minMax -> Forall2 field_ok fs dirs -> direction d ->
  all_values_suffix minMax (reverse minMax) (startInclusive i) (endInclusive i) fs = Some (s, e) ->
  range_of (mkOrderedIntervalList [i] n :: fs) (d :: dirs) (startInclusive i) (endInclusive i) (start i :: s) (iend i :: e).
Proof.
  intros Hmm Hok Hd Hav. destruct (all_values_suffix_length _ _ _ _ _ _ _ Hav) as [Hs He].
  split_and!; [simpl; lia..|]. intros [|x k] Hlen; [done|]. injection Hlen as Hlen.
  destruct (all_values_suffix_spec minMax _ _ fs dirs s e k Hmm Hok Hlen Hav) as (Hb & H1 & H2).
  cbn [in_bounds]. rewrite Hb, andb_true_r, in_field_one by done. unfold from_start, to_end. cbn [scan_cmp].
  revert H1 H2. generalize (d * cmpv x (start i)) (d * cmpv x (iend i)) (scan_cmp dirs k s) (scan_cmp dirs k e).
  intros a b u v. destruct (startInclusive i), (endInclusive i); intros; repeat case_if; lia.
Qed.

Lemma skip_points_range fs : forall dirs s e rest si ei s' e',
  Forall2 field_ok fs dirs -> skip_points fs = (s, e, rest) ->
  (forall dirs', Forall2 field_ok rest dirs' -> range_of rest dirs' si ei s' e') ->
  range_of fs dirs si ei (s ++ s') (e ++ e').
Proof.
  induction fs as [|[ivs n] fs IH]; intros dirs s e rest si ei s' e' Hok Hsk Hr; cbn [skip_points intervals] in Hsk.
  { simplify_eq. by apply Hr. }
  destruct ivs as [|i [|j ivs]]; [simplify_eq; by apply Hr| |simplify_eq; by apply Hr].
  destruct (isPoint i) eqn:Hp; [|simplify_eq; by apply Hr].
  destruct (skip_points fs) as [[s0 e0] rest0] eqn:Hsk'. simplify_eq.
  inversion Hok as [|? d ? dirs' [Hd _] Hfs]; subst. apply range_point; [done|done|]. by eapply IH.
Qed.

(** The keys and flags of a single interval describe the bounds. *)
Lemma isSingleInterval_range b sk ek r dirs :
  isSingleInterval b sk ek = Some r -> single r = true -> Forall2 field_ok (fields b) dirs ->
  range_of (fields b) dirs (si_startKeyInclusive r) (si_endKeyInclusive r) (si_startKey r) (si_endKey r).
Proof.
  unfold isSingleInterval. intros Hr Hs Hok. destruct (skip_points (fields b)) as [[s e] rest] eqn:Hsk.
  destruct rest as [|[ivs n] rest]; [|cbn [intervals] in Hr; destruct ivs as [|i [|j ivs]]].
  - simplify_eq. rewrite <- (app_nil_r s), <- (app_nil_r e). cbn. eapply skip_points_range; [done|done|].
    intros dirs' Hd. inversion Hd. apply range_nil.
  - by simplify_eq.
  - destruct allValues as [minMax|] eqn:Hmm; [|done]. cbn [mbind option_bind] in Hr.
    destruct (all_values_suffix _ _ _ _ rest) as [[s' e']|] eqn:Hav; simplify_eq. cbn.
    eapply skip_points_range; [done|done|]. intros dirs' Hd. inversion Hd as [|? d ? dirs'' [Hdd _] Hrest]; subst.
    by eapply range_all_values.
  - by simplify_eq.
Qed.

Lemma isSingleInterval_some b sk ek : exists r, isSingleInterval b sk ek = Some r.
Proof.
  unfold isSingleInterval. destruct (skip_points (fields b)) as [[s e] rest]. destruct rest as [|nonPoint rest]; [by eexists|].
  destruct (intervals nonPoint) as [|i [|]]; [by eexists| |by eexists]. rewrite allValues_minMax. cbn [mbind option_bind].
  destruct (all_values_suffix _ _ _ _ rest) as [[]|]; by eexists.
Qed.
End single.
