(* ===== verification/IndexScanSpec.v ===== *)
(** * An index scan returns the entries within its bounds

    Over any index that keeps the contract of [SortedDataInterface], the stage returns
    exactly the entries within the bounds, in the order of the scan, without the record ids
    it has seen before and the keys that the filter rejects; and it ends. *)

From Stdlib Require Import ZArith Lia.
From stdpp Require Import prelude gmap.
From S2P Require Import Prelude TotalOrder CompareNumbers Bson ElementOrder Interval IndexBounds IndexBoundsBuilder IndexBoundsChecker BoundsCheckerSpec CheckKey IndexEntryComparison IndexEntryOrder SortedDataInterface IndexScan SingleInterval.

Open Scope Z_scope.

Section scan.
Context `{EO : ElementOrder E} {D C : Type} (params : IndexScanParams E) {SD : SortedDataInterface (keyPattern params) D C}.
Variable filter : option (list E -> bool).

Abbreviation kp := (keyPattern params) (only parsing).
Abbreviation fwd := (is_forward params) (only parsing).
Abbreviation entry := (IndexKeyEntry E) (only parsing).

(** ** What a scan should return *)

Definition wanted (e : entry) : bool :=
  let b := pbounds params in
  if isSimpleRange b then
    negb (before kp fwd (key_query (startKey b) (isStartIncludedInBound (boundInclusion b))) e) &&
    before kp fwd (key_query (endKey b) (negb (isEndIncludedInBound (boundInclusion b)))) e
  else in_bounds (fields b) (scan_dirs fwd kp) (ikey e).

Definition passes (k : list E) : bool := match filter with Some f => f k | None => true end.

(** The entries that are left after duplicates, when [seen] are the record ids returned. *)
Fixpoint outputs (seen : gset Z) (l : list entry) : list (Z * list E) :=
  match l with
  | [] => []
  | e :: l =>
      if shouldDedup params && bool_decide (loc e ∈ seen) then outputs seen l
      else
        let seen := if shouldDedup params then {[ loc e ]} ∪ seen else seen in
        if passes (ikey e) then (loc e, ikey e) :: outputs seen l else outputs seen l
  end.

(** Parameters for which a scan makes sense: a direction, a key pattern of numbers other than
    NaN, and bounds that are valid for them. *)
Record params_ok : Prop := {
  pok_direction : pdirection params = 1 \/ pdirection params = -1;
  pok_pattern : kp <> [];
  pok_signs : Forall (fun e => elt_nonneg e = negb (elt_neg e)) kp;
  pok_bounds :
    if isSimpleRange (pbounds params)
    then length (startKey (pbounds params)) = length kp /\ length (endKey (pbounds params)) = length kp
    else bounds_isValidFor (pbounds params) kp (pdirection params) = true;
}.

(** ** Directions *)

Lemma expected_scan_dirs b :
  params_ok -> expectedDirection (IndexBoundsChecker_new b kp (pdirection params)) = scan_dirs fwd kp.
Proof.
  intros [Hd _ Hs _]. unfold scan_dirs, index_dirs, is_forward. simpl. rewrite <- list_fmap_compose.
  apply list_fmap_ext. intros i e He. simpl. rewrite (proj1 (Forall_lookup _ _) Hs i e He).
  destruct Hd as [-> | ->], (elt_neg e); done.
Qed.

Lemma fields_valid_ok fs keys :
  (pdirection params = 1 \/ pdirection params = -1) -> Forall (fun e => elt_nonneg e = negb (elt_neg e)) keys ->
  fields_valid fs keys (pdirection params) = true -> Forall2 field_ok fs (scan_dirs fwd keys).
Proof.
  intros Hd. revert fs. induction keys as [|e keys IH]; intros [|f fs] Hs Hv; cbn [fields_valid] in Hv; try done.
  apply Forall_cons in Hs as [He Hs]. destruct (bool_decide _); [|done]. cbn [negb] in Hv.
  destruct (oil_isValidFor f _) eqn:Hf; [|done]. constructor; [|by apply IH]. rewrite He in Hf.
  unfold is_forward, field_ok, direction. destruct Hd as [Hd | Hd]; rewrite Hd in *; destruct (elt_neg e); (split; [cbn; auto|exact Hf]).
Qed.

Lemma fields_valid_length fs keys dir : fields_valid fs keys dir = true -> length fs = length keys.
Proof.
  revert keys. induction fs as [|f fs IH]; intros [|e keys] Hv; try done. cbn [fields_valid] in Hv.
  destruct (bool_decide _); [|done]. destruct (oil_isValidFor _ _); [|done]. simpl. f_equal. by apply IH.
Qed.

(** ** Positions of a scan *)

(** Where a scan is: before everything, after an entry, at a seek point, or at the end. *)
Inductive position := AtStart | AfterEntry (e : entry) | AtQuery (q : list (E * bool)) | AtEnd.

(** The entries that are still to come. *)
Definition remains (unique : bool) (p : position) (e : entry) : bool :=
  match p with
  | AtStart => true
  | AfterEntry e0 => after kp fwd unique e0 e
  | AtQuery q => negb (before kp fwd q e)
  | AtEnd => false
  end.

(** What the scan relies on for the entries that satisfy [P]: the end position of its cursor
    is that of the bounds, or it has a checker. *)
Definition checked (endq : option (list (E * bool))) (s : IndexScan E C) (P : entry -> bool) : Prop :=
  match checker s with
  | None => forall e, stored kp e -> P e = true -> within_end kp fwd endq e = wanted e
  | Some ck => endq = None /\ isSimpleRange (pbounds params) = false /\ checker_ok ck /\
      bounds ck = pbounds params /\ expectedDirection ck = scan_dirs fwd kp
  end.

(** The state of a scan at a position of an index. *)
Definition at_position (t : D) (s : IndexScan E C) (p : position) : Prop :=
  match p with
  | AtStart => s = IndexScan_new params
  | AfterEntry e => scanState s = GETTING_NEXT /\ stored kp e /\ exists c endq, indexCursor s = Some c /\
      sd_upcoming t fwd endq c (Some e) (upto_end kp fwd endq (after kp fwd (sd_unique t) e) (sd_entries t)) /\
      checked endq s (after kp fwd (sd_unique t) e)
  | AtQuery q => scanState s = NEED_SEEK /\ checker s <> None /\ checked None s (fun _ => true) /\ exists c, indexCursor s = Some c /\
      sd_cursor t fwd None c /\ seek_query (seek_point s) = Some q /\ covers (length kp) q = true /\
      length (keySuffix (seek_point s)) = length (suffixInclusive (seek_point s))
  | AtEnd => scanState s = HIT_END /\ indexCursor s = None
  end.

(** Closed under later entries. *)
Definition upward (P : entry -> bool) : Prop :=
  forall x y, stored kp x -> stored kp y -> scan_order kp fwd x y < 0 -> P x = true -> P y = true.

Lemma upward_after unique e : stored kp e -> upward (after kp fwd unique e).
Proof.
  intros He x y Hx Hy Hxy. rewrite !after_pos, !Z.ltb_lt. intros Hex.
  apply (total_trans_lt_l (pos_order_total kp fwd unique) e x y); [done..|]. apply scan_pos_le; [done|done|lia].
Qed.

Lemma upward_query q : upward (fun e => negb (before kp fwd q e)).
Proof.
  intros x y Hx Hy Hxy Hnx. apply negb_true_iff in Hnx. apply negb_true_iff, not_true_iff_false. intros Hby.
  by rewrite (before_mono kp fwd q x y) in Hnx.
Qed.

(** ** The entries in scan order *)

Section run.
Variable t : D.
Hypothesis Hok : data_ok kp (sd_unique t) (sd_entries t).
Hypothesis Hparams : params_ok.

Abbreviation scan := (scan_list fwd (sd_entries t)) (only parsing).
Abbreviation earlier a b := (scan_order kp fwd a b < 0) (only parsing).
Abbreviation unique := (sd_unique t) (only parsing).

Lemma scan_stored e : e ∈ scan -> stored kp e.
Proof.
  intros He. destruct Hok as (Hst & _). apply (proj1 (Forall_forall _ _) Hst). unfold scan_list in He.
  destruct fwd; [done|]. apply list_elem_of_In, in_rev, list_elem_of_In in He. done.
Qed.

Lemma rev_lookup {A} (l : list A) i x : rev l !! i = Some x -> l !! (length l - S i)%nat = Some x /\ (i < length l)%nat.
Proof. rewrite List.rev_alt. apply reverse_lookup_Some. Qed.

Lemma scan_sorted i j a b : (i < j)%nat -> scan !! i = Some a -> scan !! j = Some b -> earlier a b.
Proof.
  intros Hij Ha Hb. destruct Hok as (_ & Hs & _). unfold scan_list, scan_order in *. destruct fwd; [by apply (Hs i j)|].
  apply rev_lookup in Ha as [Ha Hi], Hb as [Hb Hj].
  apply (Hs (length (sd_entries t) - S j)%nat (length (sd_entries t) - S i)%nat); [lia|done|done].
Qed.

Lemma scan_split pre e l x : scan = pre ++ e :: l -> (x ∈ pre -> earlier x e) /\ (x ∈ l -> earlier e x).
Proof.
  intros Hs. split.
  - intros (i & Hi)%list_elem_of_lookup. pose proof (lookup_lt_Some _ _ _ Hi).
    apply (scan_sorted i (length pre)); [done|rewrite Hs; by rewrite lookup_app_l|rewrite Hs; by apply list_lookup_middle].
  - intros (i & Hi)%list_elem_of_lookup.
    apply (scan_sorted (length pre) (length pre + S i)%nat); [lia|rewrite Hs; by apply list_lookup_middle|].
    rewrite Hs, lookup_app_r by lia. by replace (length pre + S i - length pre)%nat with (S i) by lia.
Qed.

(** Later entries are at later positions. *)
Lemma scan_after pre e l x : scan = pre ++ e :: l -> (x ∈ pre -> after kp fwd unique e x = false) /\ after kp fwd unique e e = false /\ (x ∈ l -> after kp fwd unique e x = true).
Proof.
  intros Hs. assert (stored kp e) as He by (apply scan_stored; rewrite Hs; set_solver). rewrite !after_pos.
  pose proof (total_refl (pos_order_total kp fwd unique) e He) as Hr. split_and!; [|lia|].
  - intros Hx. assert (stored kp x) as Hsx by (apply scan_stored; rewrite Hs; set_solver).
    destruct (scan_split pre e l x Hs) as [Hlt _]. specialize (Hlt Hx). apply Z.ltb_ge.
    pose proof (scan_pos_le kp fwd unique x e Hsx He ltac:(lia)). pose proof (total_flip _ _ (pos_order_total kp fwd unique) x e Hsx He). lia.
  - intros Hx. assert (stored kp x) as Hsx by (apply scan_stored; rewrite Hs; set_solver).
    destruct (scan_split pre e l x Hs) as [_ Hlt]. specialize (Hlt Hx). apply Z.ltb_lt.
    pose proof (scan_pos_le kp fwd unique e x He Hsx ltac:(lia)) as Hle. destruct (decide (pos_order kp fwd unique e x = 0)) as [H0|]; [|lia].
    destruct unique eqn:Hu; [|unfold pos_order in H0; lia]. destruct Hok as (_ & _ & Huq).
    assert (e = x) as <-; [|pose proof (total_refl (scan_order_total kp fwd) e He); lia]. simpl in H0. unfold scan_key in H0. rewrite scan_cmp_dirs in H0.
    assert (forall y, y ∈ scan -> y ∈ sd_entries t) as Hin.
    { intros y Hy. unfold scan_list in Hy. destruct fwd; [done|]. by apply list_elem_of_In, in_rev, list_elem_of_In in Hy. }
    apply Huq; [done|apply Hin; rewrite Hs; set_solver|apply Hin; rewrite Hs; set_solver|]. destruct fwd; lia.
Qed.

(** The first entry of a filtered list. *)
Lemma bfilter_cons_inv {A} (R : A -> bool) (l : list A) e l2 :
  List.filter R l = e :: l2 -> exists pre post, l = pre ++ e :: post /\ List.filter R pre = [] /\ R e = true /\ l2 = List.filter R post.
Proof.
  induction l as [|x l IH]; simpl; [done|]. destruct (R x) eqn:Hx.
  - intros [= -> <-]. by exists [], l.
  - intros H. destruct (IH H) as (pre & post & -> & Hp & He & ->). exists (x :: pre), post. simpl. by rewrite Hx.
Qed.

Lemma tail_after endq (P : entry -> bool) e l :
  upward P -> upto_end kp fwd endq P (sd_entries t) = e :: l ->
  stored kp e /\ e ∈ scan /\ P e = true /\ within_end kp fwd endq e = true /\ l = upto_end kp fwd endq (after kp fwd unique e) (sd_entries t).
Proof.
  intros Hup (pre & post & Hs & Hpre & [HP Hw]%andb_true_iff & ->)%bfilter_cons_inv.
  assert (e ∈ scan) as Hin by (rewrite Hs; set_solver). pose proof (scan_stored e Hin) as He. split_and!; [done|done|done|done|].
  unfold upto_end. rewrite Hs, List.filter_app. cbn [List.filter]. rewrite (bfilter_nil _ pre).
  2: { intros x Hx. cbn beta. by rewrite (proj1 (scan_after pre e post x Hs)). }
  destruct (scan_after pre e post e Hs) as (_ & -> & _). simpl. apply List.filter_ext_in. intros x Hx%list_elem_of_In.
  destruct (scan_after pre e post x Hs) as (_ & _ & Ha). rewrite Ha by done.
  assert (stored kp x) as Hsx by (apply scan_stored; rewrite Hs; set_solver). destruct (scan_split pre e post x Hs) as [_ Hlt]. by rewrite (Hup e x He Hsx (Hlt Hx) HP).
Qed.

(** ** Reading the next entry *)

Implicit Types (s : IndexScan E C) (p : position) (endq : option (list (E * bool))).

(** The wanted entries that are still to come. *)
Definition todo p : list entry := List.filter wanted (List.filter (remains unique p) scan).

Lemma wanted_in_bounds e : isSimpleRange (pbounds params) = false -> wanted e = in_bounds (fields (pbounds params)) (scan_dirs fwd kp) (ikey e).
Proof. intros Hs. unfold wanted. by rewrite Hs. Qed.

(** The cursor gives all wanted entries that satisfy [P]. *)
Lemma checked_todo endq s (P : entry -> bool) :
  checked endq s P -> List.filter wanted (upto_end kp fwd endq P (sd_entries t)) = List.filter wanted (List.filter P scan).
Proof.
  intros Hck. unfold upto_end. rewrite <- !bfilter_and. apply List.filter_ext_in. intros e He%list_elem_of_In.
  apply scan_stored in He. unfold checked in Hck. destruct (checker s) as [ck|].
  - destruct Hck as (-> & _). simpl. by rewrite andb_true_r.
  - destruct (P e) eqn:HP; [|done]. rewrite (Hck e He HP). simpl. by destruct (wanted e).
Qed.

(** The result of reading at a position: the first of the entries that satisfy [P]. *)
Definition fetches s p (r : option (IndexScan E C * option entry)) : Prop :=
  exists s1 endq P, let l := upto_end kp fwd endq P (sd_entries t) in
    r = Some (s1, head l) /\ returned s1 = returned s /\ upward P /\
    (forall e, stored kp e -> P e = true -> remains unique p e = true) /\ List.filter wanted l = todo p /\
    (l <> [] -> checked endq s1 P /\ exists c, indexCursor s1 = Some c /\ sd_upcoming t fwd endq c (head l) (tail l)).

Lemma kp_length : (0 < length kp)%nat.
Proof. destruct (Nat.eq_0_gt_0_cases (length kp)) as [Hz|]; [|done]. apply nil_length_inv in Hz. by destruct (pok_pattern Hparams). Qed.

Lemma fetch_next s e : at_position t s (AfterEntry e) -> fetches s (AfterEntry e) (fetch params t s).
Proof.
  intros (Hs & He & c & endq & Hc & Hup & Hck). unfold fetch. rewrite Hs, Hc. cbn [mbind option_bind].
  destruct (sd_next_entry t fwd endq c _ _ Hup) as (c' & -> & Hup'). cbn [mbind option_bind].
  eexists _, endq, (after kp fwd unique e). split_and!; [done|done|by apply upward_after|done|by eapply checked_todo|].
  intros _. split; [exact Hck|]. by exists c'.
Qed.

Lemma fetch_seek s q : at_position t s (AtQuery q) -> fetches s (AtQuery q) (fetch params t s).
Proof.
  intros (Hs & Hsome & Hck & c & Hc & Hcur & Hq & Hcov & Hlen). unfold fetch. rewrite Hs, Hc. cbn [mbind option_bind].
  destruct (sd_seek_point t fwd None c (seek_point s) q Hok Hcur Hq Hcov Hlen) as (c' & -> & Hup). cbn [mbind option_bind].
  assert (checked None s (fun e => negb (before kp fwd q e))) as Hck'.
  { unfold checked in *. by destruct (checker s). }
  eexists _, None, (fun e => negb (before kp fwd q e)). split_and!; [done|done|apply upward_query|done|by eapply (checked_todo None s)|].
  intros _. split; [exact Hck'|]. by exists c'.
Qed.

(** ** The first call *)

Abbreviation new_scan := (IndexScan_new params : IndexScan E C) (only parsing).

(** The state in which the first seek is made, with the keys of the range. *)
Definition with_range s sk si ek ei : IndexScan E C :=
  {| (count_seek s) with is_startKey := sk; startKeyInclusive := si; is_endKey := ek; endKeyInclusive := ei |}.

Lemma todo_start : todo AtStart = List.filter wanted scan.
Proof. unfold todo. by rewrite (bfilter_all (remains unique AtStart)). Qed.

Lemma starts_range sk si ek ei :
  length sk = length kp -> length ek = length kp ->
  (forall e, stored kp e -> wanted e = negb (before kp fwd (key_query sk si) e) && before kp fwd (key_query ek (negb ei)) e) ->
  fetches new_scan AtStart
    (c ← sd_setEndPosition t (sd_newCursor t fwd) ek ei;
     '(c, kv) ← sd_seek t c sk si;
     Some ({| (with_range new_scan sk si ek ei) with indexCursor := Some c |}, kv)).
Proof.
  intros Hls Hle Hw. pose proof kp_length as Hkp.
  destruct (sd_end t fwd None _ ek ei Hok (sd_new t fwd Hok)) as (c1 & -> & Hc1); [intros ->; simpl in Hle; lia|done|].
  cbn [mbind option_bind].
  destruct (sd_seek_key t fwd _ c1 sk si Hok Hc1) as (c2 & -> & Hup); [intros ->; simpl in Hls; lia|done|]. cbn [mbind option_bind].
  set (s1 := {| (with_range new_scan sk si ek ei) with indexCursor := Some c2 |}).
  assert (checked (Some (key_query ek (negb ei))) s1 (fun e => negb (before kp fwd (key_query sk si) e))) as Hck.
  { intros e He HP. simpl. rewrite (Hw e He), HP. done. }
  exists s1, (Some (key_query ek (negb ei))), (fun e => negb (before kp fwd (key_query sk si) e)).
  split_and!; [done|done|apply upward_query|done| |].
  - rewrite (checked_todo _ _ _ Hck), todo_start, <- bfilter_and. apply List.filter_ext_in. intros e He%list_elem_of_In.
    rewrite (Hw e (scan_stored e He)). by destruct (before kp fwd (key_query sk si) e).
  - intros _. split; [done|]. by exists c2.
Qed.

Lemma range_positions fs sk ek si ei e :
  range_of fs (scan_dirs fwd kp) si ei sk ek -> length fs = length kp -> stored kp e ->
  in_bounds fs (scan_dirs fwd kp) (ikey e) =
  negb (before kp fwd (key_query sk si) e) && before kp fwd (key_query ek (negb ei)) e.
Proof.
  intros (Hs & He & Hk) Hlen (Hle & _). rewrite Hk by lia. unfold before.
  pose proof kp_length.
  rewrite (before_key_query _ sk), (before_key_query _ ek); rewrite ?length_scan_dirs; try lia; try (intros ->; simpl in *; lia).
  unfold from_start, to_end. generalize (scan_cmp (scan_dirs fwd kp) (ikey e) sk) (scan_cmp (scan_dirs fwd kp) (ikey e) ek).
  intros a b. destruct si, ei; simpl; lia.
Qed.

(** The scan starts with the checker. *)
Lemma starts_checker s :
  isSimpleRange (pbounds params) = false -> returned s = ∅ ->
  let ck := IndexBoundsChecker_new (pbounds params) kp (pdirection params) in
  let s1 := {| s with checker := Some ck; indexCursor := Some (sd_newCursor t fwd) |} in
  fetches new_scan AtStart
    (match getStartSeekPoint ck (seek_point s1) with
     | None => Some (s1, None)
     | Some sp =>
         '(c, kv) ← sd_seekPoint t (sd_newCursor t fwd) sp;
         Some ({| s1 with seek_point := sp; indexCursor := Some c |}, kv)
     end).
Proof.
  intros Hsr Hret ck s1. pose proof (pok_bounds Hparams) as Hv. rewrite Hsr in Hv. unfold bounds_isValidFor in Hv. rewrite Hsr in Hv.
  pose proof (fields_valid_ok _ _ (pok_direction Hparams) (pok_signs Hparams) Hv) as Hf.
  pose proof (fields_valid_length _ _ _ Hv) as Hlf. pose proof (expected_scan_dirs (pbounds params) Hparams) as Hd. fold ck in Hd.
  pose proof (getStartSeekPoint_spec ck (seek_point s1)) as Hspec. rewrite Hd in Hspec. specialize (Hspec Hf).
  destruct (getStartSeekPoint ck (seek_point s1)) as [sp|].
  - destruct Hspec as (Hne & Hll & q & Hq & Hcov & Hb). simpl in Hcov, Hb. rewrite Hlf in Hcov.
    destruct (sd_seek_point t fwd None _ sp q Hok (sd_new t fwd Hok) Hq Hcov Hll) as (c' & -> & Hup). cbn [mbind option_bind].
    set (s2 := {| s1 with seek_point := sp; indexCursor := Some c' |}).
    assert (checked None s2 (fun e => negb (before kp fwd q e))) as Hck.
    { split_and!; [done|done| |done|done]. split; [simpl; rewrite Hlf; apply kp_length|by rewrite Hd|by apply cur_ok_start]. }
    exists s2, None, (fun e => negb (before kp fwd q e)). split_and!; [done|done|apply upward_query|done| |].
    + rewrite (checked_todo _ _ _ Hck), todo_start, <- bfilter_and. apply List.filter_ext_in. intros e He%list_elem_of_In.
      destruct (before kp fwd q e) eqn:Hbe; [|done]. simpl. rewrite wanted_in_bounds by done. symmetry. by apply Hb.
    + intros _. split; [done|]. by exists c'.
  - assert (upto_end kp fwd None (fun _ => false) (sd_entries t) = []) as Hnil by (by apply bfilter_nil).
    exists s1, None, (fun _ => false). rewrite Hnil. split_and!; [done|done|done|done| |done].
    rewrite todo_start. symmetry. apply bfilter_nil. intros e He. rewrite wanted_in_bounds by done. apply Hspec. simpl. destruct (scan_stored e He). lia.
Qed.

Lemma fetch_start : fetches new_scan AtStart (fetch params t new_scan).
Proof.
  change (fetch params t new_scan) with (initIndexScan params t new_scan). unfold initIndexScan.
  pose proof (pok_bounds Hparams) as Hb. destruct (isSimpleRange (pbounds params)) eqn:Hsr.
  { destruct Hb as [Hls Hle].
    apply (starts_range (startKey (pbounds params)) (isStartIncludedInBound (boundInclusion (pbounds params)))
      (endKey (pbounds params)) (isEndIncludedInBound (boundInclusion (pbounds params))) Hls Hle).
    intros e He. unfold wanted. by rewrite Hsr. }
  unfold bounds_isValidFor in Hb. rewrite Hsr in Hb. pose proof (fields_valid_ok _ _ (pok_direction Hparams) (pok_signs Hparams) Hb) as Hfo.
  pose proof (fields_valid_length _ _ _ Hb) as Hlf. cbn [count_seek is_startKey is_endKey IndexScan_new].
  destruct (isSingleInterval_some (pbounds params) [] []) as [r Hr]. rewrite Hr. cbn [mbind option_bind].
  destruct (single r) eqn:Hsi.
  - pose proof (isSingleInterval_range _ _ _ _ _ Hr Hsi Hfo) as Hrange. pose proof Hrange as (Hls & Hle & _).
    apply (starts_range (si_startKey r) (si_startKeyInclusive r) (si_endKey r) (si_endKeyInclusive r)); [lia|lia|].
    intros e He. rewrite wanted_in_bounds by done. by apply range_positions.
  - apply (starts_checker (with_range new_scan (si_startKey r) (si_startKeyInclusive r) (si_endKey r) (si_endKeyInclusive r)) Hsr eq_refl).
Qed.

(** ** One call of [doWork] *)

(** What a scan that has returned the record ids [seen] does with a wanted entry. *)
Definition emit_result (seen : gset Z) (e : entry) : gset Z * StageState (Z * list E) :=
  if shouldDedup params && bool_decide (loc e ∈ seen) then (seen, NEED_TIME)
  else (if shouldDedup params then {[ loc e ]} ∪ seen else seen,
        if passes (ikey e) then ADVANCED (loc e, ikey e) else NEED_TIME).

Lemma emit_spec s e :
  exists s', emit params filter s e = (s', snd (emit_result (returned s) e)) /\ returned s' = fst (emit_result (returned s) e) /\
    scanState s' = GETTING_NEXT /\ indexCursor s' = indexCursor s /\ checker s' = checker s.
Proof.
  unfold emit, emit_result, passes. destruct (shouldDedup params); cbn [andb returned stats].
  - destruct (bool_decide (loc e ∈ returned s)); [eexists _; split_and!; done|].
    destruct filter as [f|]; [destruct (f (ikey e))|]; eexists _; split_and!; done.
  - destruct filter as [f|]; [destruct (f (ikey e))|]; eexists _; split_and!; done.
Qed.

Lemma outputs_emit seen e l :
  outputs seen (e :: l) =
  match snd (emit_result seen e) with ADVANCED m => m :: outputs (fst (emit_result seen e)) l | _ => outputs (fst (emit_result seen e)) l end.
Proof. cbn [outputs]. unfold emit_result. destruct (shouldDedup params && _); [done|]. simpl. by destruct (passes (ikey e)). Qed.

(** The result of a call at the position [p]: the scan is at a later position; at the end
    nothing wanted is left; else it has passed an entry, and either nothing wanted has been
    passed or just the entry that has been emitted. *)
Definition worked s p (r : option (IndexScan E C * StageState (Z * list E))) : Prop :=
  exists s' o p', r = Some (s', o) /\ at_position t s' p' /\ (forall x, stored kp x -> remains unique p' x = true -> remains unique p x = true) /\
    match o with
    | IS_EOF => p' = AtEnd /\ todo p = []
    | _ => exists e, e ∈ scan /\ remains unique p e = true /\ remains unique p' e = false /\
        ((o = NEED_TIME /\ returned s' = returned s /\ todo p = todo p') \/
         (p' = AfterEntry e /\ (returned s', o) = emit_result (returned s) e /\ todo p = e :: todo p' /\ wanted e = true))
    end.

(** Passing an entry that the checker accepts, or that the cursor gives without a checker. *)
Lemma emit_worked s p s1 c endq (P : entry -> bool) e l :
  returned s1 = returned s -> indexCursor s1 = Some c -> upward P -> upto_end kp fwd endq P (sd_entries t) = e :: l ->
  (forall x, stored kp x -> P x = true -> remains unique p x = true) -> List.filter wanted (e :: l) = todo p ->
  sd_upcoming t fwd endq c (Some e) l -> checked endq s1 P -> wanted e = true ->
  worked s p (Some (emit params filter s1 e)).
Proof.
  intros Hret Hc HP Hl Hsub Htodo Hup Hck Hw. destruct (tail_after endq P e l HP Hl) as (He & Hin & HPe & Hwe & Hl2).
  destruct (emit_spec s1 e) as (s' & -> & Hr' & Hs' & Hc' & Hk'). rewrite Hret in Hr'.
  apply list_elem_of_lookup in Hin as Hin'. destruct Hin' as [i Hi]. apply list_elem_of_split_length in Hi as (pre & post & Hs & _).
  assert (checked endq s' (after kp fwd unique e)) as Hck'.
  { unfold checked in *. rewrite Hk'. destruct (checker s1); [done|]. intros x Hx Hax. apply Hck; [done|].
    apply (HP e x); [done|done| |done]. rewrite after_pos in Hax. apply Z.ltb_lt in Hax. by eapply pos_scan_lt. }
  exists s', (snd (emit_result (returned s1) e)), (AfterEntry e). rewrite Hret.
  assert (todo p = e :: todo (AfterEntry e)) as Ht.
  { rewrite <- Htodo. cbn [List.filter]. rewrite Hw, Hl2. f_equal. by eapply checked_todo. }
  split_and!; [done| | |].
  - split_and!; [done|done|]. exists c, endq. split_and!; [congruence| |done]. by rewrite <- Hl2.
  - intros x Hx Hax. apply Hsub; [done|]. simpl in Hax. rewrite after_pos, Z.ltb_lt in Hax. apply (HP e x); [done|done| |done]. by eapply pos_scan_lt.
  - assert (forall A B : Prop, A -> match snd (emit_result (returned s) e) with IS_EOF => B | _ => A end) as Hm.
    { intros A B HA. unfold emit_result. destruct (shouldDedup params && _); [done|]. simpl. by destruct (passes (ikey e)). }
    apply Hm. exists e. split_and!; [done|by apply Hsub|simpl; by destruct (scan_after pre e post e Hs) as (_ & ? & _)|].
    right. split_and!; [done| |done|done]. rewrite Hr'. by destruct (emit_result (returned s) e).
Qed.

(** What is left is at or after the current entry. *)
Lemma upto_le endq (P : entry -> bool) e l x :
  upward P -> upto_end kp fwd endq P (sd_entries t) = e :: l -> x ∈ e :: l ->
  length (ikey x) = length kp /\ scan_cmp (scan_dirs fwd kp) (ikey e) (ikey x) <= 0.
Proof.
  intros HP Hl Hx. destruct (tail_after endq P e l HP Hl) as (He & Hin & _ & _ & Hl2).
  assert (stored kp x) as Hsx.
  { apply scan_stored. rewrite <- Hl in Hx. apply list_elem_of_In, List.filter_In in Hx as [Hx _]. by apply list_elem_of_In. }
  split; [apply Hsx|]. apply elem_of_cons in Hx as [->|Hx].
  - rewrite (total_refl (scan_cmp_total _ (scan_dirs_direction fwd kp))); [done|]. rewrite length_scan_dirs. apply He.
  - rewrite Hl2 in Hx. apply list_elem_of_In, List.filter_In in Hx as [_ [Hx _]%andb_true_iff]. rewrite after_pos, Z.ltb_lt in Hx.
    apply pos_scan_lt in Hx; [|done|done]. apply (scan_order_key kp fwd e x He Hsx). lia.
Qed.

(** The checker has answered with a seek point [q]. *)
Lemma seek_worked s p s2 (P : entry -> bool) e l q :
  upward P -> upto_end kp fwd None P (sd_entries t) = e :: l ->
  (forall x, stored kp x -> P x = true -> remains unique p x = true) -> List.filter wanted (e :: l) = todo p ->
  isSimpleRange (pbounds params) = false -> length (fields (pbounds params)) = length kp ->
  skips (fields (pbounds params)) (scan_dirs fwd kp) (ikey e) q -> returned s2 = returned s -> at_position t s2 (AtQuery q) ->
  worked s p (Some (s2, NEED_TIME)).
Proof.
  intros HP Hl Hsub Htodo Hsr Hlf (_ & Hbe & Hskip) Hret Hat. destruct (tail_after None P e l HP Hl) as (He & Hin & HPe & _ & Hl2).
  assert (forall x, stored kp x -> before kp fwd q x = false -> P x = true) as Hq.
  { intros x Hx Hbx. apply (HP e x); [done|done| |done]. destruct (decide (scan_order kp fwd e x < 0)) as [|Hge]; [done|].
    pose proof (total_flip _ _ (scan_order_total kp fwd) e x He Hx). assert (before kp fwd q x = true); [|congruence].
    destruct (decide (scan_order kp fwd x e < 0)) as [Hlt|]; [by apply (before_mono kp fwd q x e)|].
    pose proof (proj1 (scan_order_key kp fwd x e Hx He) ltac:(lia)). unfold before, scan_key in *.
    eapply before_query_mono; [apply scan_dirs_direction|rewrite length_scan_dirs; apply Hx|rewrite length_scan_dirs; apply He|done|exact Hbe]. }
  exists s2, NEED_TIME, (AtQuery q). split_and!; [done|done| |].
  - intros x Hx Hrx. apply negb_true_iff in Hrx. apply Hsub; [done|by apply Hq].
  - exists e. split_and!; [done|by apply Hsub|simpl; change (before_query _ _ _) with (before kp fwd q e) in Hbe; by rewrite Hbe|]. left. split_and!; [done|done|].
    rewrite <- Htodo, <- Hl. unfold todo, upto_end. rewrite <- !bfilter_and. apply List.filter_ext_in. intros x Hx%list_elem_of_In.
    pose proof (scan_stored x Hx) as Hsx. simpl. rewrite andb_true_r. destruct (before kp fwd q x) eqn:Hbx; simpl; [|by rewrite (Hq x Hsx Hbx)].
    destruct (P x) eqn:HPx; [|done]. simpl. rewrite wanted_in_bounds by done.
    assert (x ∈ e :: l) as Hxl by (rewrite <- Hl; apply list_elem_of_In, List.filter_In; split; [by apply list_elem_of_In|by rewrite HPx]).
    destruct (upto_le None P e l x HP Hl Hxl) as [Hlx Hle]. apply Hskip; [lia|done|done].
Qed.

Lemma doWork_worked s p : at_position t s p -> worked s p (doWork params filter t s).
Proof.
  intros Hat. assert (p = AtEnd \/ p <> AtEnd) as [->|Hne] by (destruct p; naive_solver).
  { destruct Hat as [Hs Hc]. unfold doWork. rewrite Hs. exists s, IS_EOF, AtEnd. split_and!; [done|done|done|done|].
    unfold todo. by rewrite (bfilter_nil (remains unique AtEnd)). }
  assert (fetches s p (fetch params t s) /\ scanState s <> HIT_END) as [(s1 & endq & P & Hf & Hret & HP & Hsub & Htodo & Hup) Hst].
  { destruct p as [|e|q|]; [| | |done].
    - rewrite Hat. split; [apply fetch_start|done].
    - split; [by apply fetch_next|]. by destruct Hat as (-> & _).
    - split; [by apply fetch_seek|]. by destruct Hat as (-> & _). }
  assert (doWork params filter t s = match head (upto_end kp fwd endq P (sd_entries t)) with
    | None => Some (hit_end s1, IS_EOF) | Some kv => examine params filter s1 kv end) as ->.
  { unfold doWork. rewrite Hf. by destruct (scanState s). }
  clear Hf. destruct (upto_end kp fwd endq P (sd_entries t)) as [|e l] eqn:Hl; cbn [head tail] in *.
  { exists (hit_end s1), IS_EOF, AtEnd. split_and!; try done. }
  destruct (Hup ltac:(done)) as (Hck & c & Hc & Hupc). unfold examine. cbn [checker seek_point].
  set (s2 := {| s1 with stats := _ |}). unfold checked in Hck. destruct (checker s1) as [ck|] eqn:Hk.
  2: { apply (emit_worked s p s2 c endq P e l); try done.
       destruct (tail_after endq P e l HP Hl) as (He & _ & HPe & Hwe & _). by rewrite <- (Hck e He HPe). }
  destruct Hck as (-> & Hsr & Hcok & Hb & Hd).
  assert (length (fields (pbounds params)) = length kp) as Hlf.
  { rewrite <- Hb, (Forall2_length _ _ _ (cko_fields _ Hcok)), Hd. apply length_scan_dirs. }
  destruct (upto_le None P e l e HP Hl ltac:(by left)) as [Hse _].
  destruct (checkKey_spec ck (ikey e) (seek_point s1) Hcok) as (ck' & sp & st & -> & (Hck' & Hb' & Hd') & Hans); [rewrite Hb; lia|].
  cbn [mbind option_bind]. unfold answer_ok in Hans. rewrite Hb, Hd in Hans. rewrite Hb in Hb'. rewrite Hd in Hd'. destruct st.
  - apply (emit_worked s p _ c None P e l); try done. by rewrite wanted_in_bounds.
  - destruct Hans as (Hll & q & Hq & Hsk). pose proof Hsk as (Hcov & _). rewrite Hlf in Hcov.
    apply (seek_worked s p _ P e l q); try done. split_and!; [done|done|done|]. exists c. split_and!; try done. by eapply sd_upcoming_cursor.
  - eexists _, IS_EOF, AtEnd. split_and!; [done|done|done|done|]. rewrite <- Htodo. apply bfilter_nil. intros x Hx.
    rewrite wanted_in_bounds by done. destruct (upto_le None P e l x HP Hl Hx) as [Hsx Hle]. apply Hans; [lia|done].
Qed.

(** ** Running to the end *)

(** Passing an entry leaves fewer to come. *)
Lemma remains_shrinks p p' e :
  (forall x, stored kp x -> remains unique p' x = true -> remains unique p x = true) -> e ∈ scan -> remains unique p e = true -> remains unique p' e = false ->
  (length (List.filter (remains unique p') scan) < length (List.filter (remains unique p) scan))%nat.
Proof.
  intros Hsub (pre & post & Hs)%list_elem_of_split Hp Hp'.
  assert (forall l : list entry, (forall x, x ∈ l -> x ∈ scan) -> (length (List.filter (remains unique p') l) <= length (List.filter (remains unique p) l))%nat) as Hle.
  { induction l as [|x l IH]; intros Hin; [done|]. specialize (IH ltac:(intros y Hy; apply Hin; by right)). simpl.
    pose proof (Hsub x (scan_stored x (Hin x ltac:(by left)))). destruct (remains unique p' x), (remains unique p x); simpl; intuition (congruence || lia). }
  pose proof (Hle pre ltac:(rewrite Hs; set_solver)). pose proof (Hle post ltac:(rewrite Hs; set_solver)).
  rewrite Hs, !List.filter_app, !length_app. cbn [List.filter]. rewrite Hp, Hp'. simpl. lia.
Qed.

Lemma run_position n : forall s p,
  at_position t s p -> (length (List.filter (remains unique p) scan) < n)%nat -> run params filter n t s = Some (outputs (returned s) (todo p)).
Proof.
  induction n as [|n IH]; intros s p Hat Hn; [lia|]. cbn [run]. destruct (doWork_worked s p Hat) as (s' & o & p' & -> & Hat' & Hsub & Hres).
  cbn [mbind option_bind].
  assert (o <> IS_EOF -> run params filter n t s' = Some (outputs (returned s') (todo p'))) as Hrun.
  { intros Ho. assert (exists e, e ∈ scan /\ remains unique p e = true /\ remains unique p' e = false) as (e & He & Hp & Hp') by (destruct o; naive_solver).
    pose proof (remains_shrinks p p' e Hsub He Hp Hp'). apply IH; [done|lia]. }
  destruct o as [m| |].
  - destruct Hres as (e & _ & _ & _ & [[? _]|(-> & Hem & -> & _)]); [done|]. rewrite Hrun by done. rewrite outputs_emit, <- Hem. done.
  - destruct Hres as (e & _ & _ & _ & [(_ & Hr & ->)|(-> & Hem & -> & _)]); rewrite Hrun by done; [by rewrite Hr|]. rewrite outputs_emit, <- Hem. done.
  - destruct Hres as [_ ->]. done.
Qed.

(** [C1] An index scan ends and returns exactly the entries of the index that are within its
    bounds, in the order and direction of the scan, without the duplicates of a record id
    and the keys that the filter rejects; this covers the three ways in which it reads the
    index (a start and an end key, a single interval, and the bounds checker with seeks). *)
Theorem index_scan_exact n :
  (length (sd_entries t) < n)%nat ->
  run params filter n t (IndexScan_new params) = Some (outputs ∅ (List.filter wanted (scan_list fwd (sd_entries t)))).
Proof.
  intros Hn. rewrite (run_position n (IndexScan_new params) AtStart); [by rewrite todo_start|done|].
  rewrite bfilter_all by done. unfold scan_list. destruct fwd; [done|]. by rewrite List.length_rev.
Qed.
End run.
End scan.
