(* ===== verification/IndexScanYield.v ===== *)
(** * Index scans that yield

    A query gives up its locks now and then: the stage saves its state, other operations
    change the index, and the stage restores its state.  The theorem says what a scan
    guarantees over a changing index: it returns entries in order and none twice, each of
    them an entry of the index at that time that is within the bounds, and it misses no
    entry that is in the index throughout. *)

From Stdlib Require Import ZArith Lia.
From stdpp Require Import prelude gmap.
From S2P Require Import Prelude TotalOrder CompareNumbers Bson ElementOrder Interval IndexBounds IndexBoundsBuilder IndexBoundsChecker BoundsCheckerSpec CheckKey IndexEntryComparison IndexEntryOrder SortedDataInterface IndexScan SingleInterval IndexScanSpec.

Open Scope Z_scope.

(** A call of [doWork], or a yield during which the index becomes [t]. *)
Inductive ScanStep (D : Type) := Work | Yield (t : D).
Arguments Work {D}.
Arguments Yield {D} t.

Section yield.
Context `{EO : ElementOrder E} {D C : Type} (params : IndexScanParams E) {SD : SortedDataInterface (keyPattern params) D C}.
Variable filter : option (list E -> bool).
Implicit Types (t : D) (s : IndexScan E C) (steps : list (ScanStep D)) (e x : IndexKeyEntry E).

Abbreviation kp := (keyPattern params) (only parsing).
Abbreviation fwd := (is_forward params) (only parsing).

(** The steps of a scan over the index [t]; the result is the list of the results of [doWork]. *)
Fixpoint run_steps steps t s : option (list (StageState (Z * list E))) :=
  match steps with
  | [] => Some []
  | Work :: steps => '(s, r) ← doWork params filter t s; rs ← run_steps steps t s; Some (r :: rs)
  | Yield t' :: steps => s ← doSaveState params t s; s ← doRestoreState params t' s; run_steps steps t' s
  end.

(** What the scan has returned. *)
Fixpoint advanced (rs : list (StageState (Z * list E))) : list (Z * list E) :=
  match rs with
  | [] => []
  | ADVANCED m :: rs => m :: advanced rs
  | _ :: rs => advanced rs
  end.

(** The states of the index during the steps. *)
Fixpoint versions steps t : list D :=
  t :: match steps with
       | [] => []
       | Work :: steps => tail (versions steps t)
       | Yield t' :: steps => versions steps t'
       end.

(** An index in a good state, unique or not. *)
Definition version_ok (unique : bool) t : Prop := data_ok kp unique (sd_entries t) /\ sd_unique t = unique.

(** ** Saving and restoring *)

Lemma yield_position unique t t' s p :
  version_ok unique t -> version_ok unique t' -> at_position params t s p ->
  exists s1 s2, doSaveState params t s = Some s1 /\ doRestoreState params t' s1 = Some s2 /\ at_position params t' s2 p /\ returned s2 = returned s.
Proof.
  intros [Hok Hu] [Hok' Hu'] Hat. unfold doSaveState, doRestoreState. destruct p as [|e|q|].
  - rewrite Hat. by eexists _, _.
  - destruct Hat as (Hs & He & c & endq & Hc & Hup & Hck). rewrite Hc, Hs.
    destruct (sd_save_entry t fwd endq c _ _ Hup) as (c1 & -> & Hsv). cbn [mbind option_bind]. rewrite Hu, <- Hu' in Hsv.
    rewrite <- Hu' in Hok'. destruct (sd_restore_entry t' fwd endq c1 _ Hok' Hsv) as (c2 & Hr & Hup'). eexists _, _. split; [done|]. cbn [indexCursor].
    rewrite Hr. cbn [mbind option_bind]. split; [done|]. split; [|done]. unfold at_position. split_and!; [done|done|]. exists c2, endq. split_and!; [done|done|]. rewrite Hu'. rewrite Hu in Hck. exact Hck.
  - destruct Hat as (Hs & Hsome & Hck & c & Hc & Hcur & Hq). rewrite Hc, Hs. pose proof (sd_save_unpositioned t fwd None c Hcur) as Hsv. rewrite Hu, <- Hu' in Hsv.
    rewrite <- Hu' in Hok'. destruct (sd_restore_entry t' fwd None _ None Hok' Hsv) as (c2 & Hr & Hup'). eexists _, _. split; [done|]. cbn [indexCursor].
    rewrite Hr. cbn [mbind option_bind]. split; [done|]. split; [|done]. unfold at_position. split_and!; [done|done|exact Hck|]. exists c2. split_and!; [done|by eapply sd_upcoming_cursor|apply Hq..].
  - destruct Hat as [Hs Hc]. rewrite Hc. exists s, s. rewrite Hc. by split_and!.
Qed.

(** ** What a scan guarantees *)

Definition as_entry (m : Z * list E) : IndexKeyEntry E := mkIndexKeyEntry (snd m) (fst m).

(** The results [rs] of a scan that was at [p] and had seen the record ids [seen], over the
    states [ts] of the index. *)
Record promises (unique : bool) (p : position) (seen : gset Z) (ts : list D) (rs : list (StageState (Z * list E))) : Prop := {
  prom_later : forall m, m ∈ advanced rs -> stored kp (as_entry m) /\ remains params unique p (as_entry m) = true;
  prom_sorted : forall i j m m', (i < j)%nat -> advanced rs !! i = Some m -> advanced rs !! j = Some m' -> after kp fwd unique (as_entry m) (as_entry m') = true;
  prom_sound : forall m, m ∈ advanced rs -> wanted params (as_entry m) = true /\ passes filter (snd m) = true /\ exists t, t ∈ ts /\ as_entry m ∈ sd_entries t;
  prom_complete : IS_EOF ∈ rs -> forall x, (forall t, t ∈ ts -> x ∈ sd_entries t) -> wanted params x = true -> remains params unique p x = true ->
    (shouldDedup params = false -> passes filter (ikey x) = true -> (loc x, ikey x) ∈ advanced rs) /\
    (filter = None -> loc x ∈ seen \/ exists k, (loc x, k) ∈ advanced rs);
  prom_dedup : shouldDedup params = true -> NoDup (fst <$> advanced rs) /\ forall m, m ∈ advanced rs -> fst m ∉ seen;
}.

Lemma versions_work steps t : versions (Work :: steps) t = versions steps t.
Proof. destruct steps as [|[|t'] steps]; done. Qed.

Lemma versions_head steps t : t ∈ versions steps t.
Proof. destruct steps; by left. Qed.

Lemma as_entry_eta e : as_entry (loc e, ikey e) = e.
Proof. by destruct e. Qed.

Lemma elem_of_scan t x : x ∈ scan_list fwd (sd_entries t) <-> x ∈ sd_entries t.
Proof. unfold scan_list. destruct fwd; [done|]. rewrite !list_elem_of_In. symmetry. apply in_rev. Qed.

Lemma elem_of_todo t p x :
  x ∈ todo params t p <-> x ∈ sd_entries t /\ remains params (sd_unique t) p x = true /\ wanted params x = true.
Proof. unfold todo. rewrite list_elem_of_In, !List.filter_In, <- list_elem_of_In, elem_of_scan. tauto. Qed.

(** A call that returns nothing new. *)
Lemma promises_skip unique t p p' seen ts o rs :
  version_ok unique t -> t ∈ ts -> o <> IS_EOF -> advanced (o :: rs) = advanced rs ->
  (forall x, stored kp x -> remains params unique p' x = true -> remains params unique p x = true) ->
  todo params t p = todo params t p' -> promises unique p' seen ts rs -> promises unique p seen ts (o :: rs).
Proof.
  intros [_ Hu] Ht Ho Had Hsub Htodo [H1 H2 H3 H4 H5]. split; rewrite ?Had; [|done|done| |done].
  - intros m Hm. destruct (H1 m Hm) as [Hs Hr]. split; [done|by apply Hsub].
  - intros [Heof|Heof]%elem_of_cons x Hx Hw Hr; [congruence|]. apply (H4 Heof); [done|done|].
    assert (x ∈ todo params t p) as Hin by (apply elem_of_todo; rewrite Hu; split_and!; [by apply Hx|done|done]).
    rewrite Htodo in Hin. apply elem_of_todo in Hin as (_ & Hr' & _). by rewrite Hu in Hr'.
Qed.

(** The scan has reached its end. *)
Lemma promises_eof unique t p seen seen' ts rs :
  version_ok unique t -> t ∈ ts -> todo params t p = [] -> promises unique AtEnd seen' ts rs -> promises unique p seen ts (IS_EOF :: rs).
Proof.
  intros [_ Hu] Ht Htodo [H1 _ _ _ _].
  assert (advanced rs = []) as Hnil.
  { destruct (advanced rs) as [|m l] eqn:Ha; [done|]. by destruct (H1 m) as [_ ?]; [by left|]. }
  split; cbn [advanced]; rewrite Hnil.
  - intros m Hm. by apply elem_of_nil in Hm.
  - intros i j m m' _ Hm. by rewrite lookup_nil in Hm.
  - intros m Hm. by apply elem_of_nil in Hm.
  - intros _ x Hx Hw Hr. assert (x ∈ todo params t p) as Hin by (apply elem_of_todo; rewrite Hu; split_and!; [by apply Hx|done|done]).
    rewrite Htodo in Hin. by apply elem_of_nil in Hin.
  - intros _. split; [constructor|]. intros m Hm. by apply elem_of_nil in Hm.
Qed.

(** The scan has passed the wanted entry [e]. *)
Lemma promises_emit unique t p e seen seen' ts o rs :
  version_ok unique t -> t ∈ ts -> (seen', o) = emit_result params filter seen e ->
  remains params unique p e = true -> (forall x, stored kp x -> remains params unique (AfterEntry e) x = true -> remains params unique p x = true) ->
  todo params t p = e :: todo params t (AfterEntry e) -> promises unique (AfterEntry e) seen' ts rs -> promises unique p seen ts (o :: rs).
Proof.
  intros [Hok Hu] Ht Hem Hpe Hsub Htodo [H1 H2 H3 H4 H5].
  assert (e ∈ todo params t p) as He by (rewrite Htodo; by left). apply elem_of_todo in He as (Hine & _ & Hwe).
  assert (stored kp e) as Hse by (destruct Hok as (Hst & _); by apply (proj1 (Forall_forall _ _) Hst)).
  assert (forall x, x ∈ todo params t p -> x = e \/ remains params unique (AfterEntry e) x = true) as Htd.
  { intros x. rewrite Htodo. intros [->|Hx]%elem_of_cons; [by left|right]. apply elem_of_todo in Hx as (_ & Hx & _). by rewrite Hu in Hx. }
  assert (IS_EOF ∈ o :: rs -> IS_EOF ∈ rs) as Heof.
  { intros [Hx|Hx]%elem_of_cons; [|done]. unfold emit_result in Hem. destruct (shouldDedup params && _); [congruence|]. destruct (passes filter (ikey e)); congruence. }
  assert (forall x, (forall t', t' ∈ ts -> x ∈ sd_entries t') -> wanted params x = true -> remains params unique p x = true ->
    x = e \/ remains params unique (AfterEntry e) x = true) as Hx.
  { intros x Hx Hw Hr. apply Htd, elem_of_todo. rewrite Hu. split_and!; [by apply Hx|done|done]. }
  unfold emit_result in Hem. destruct (shouldDedup params && bool_decide (loc e ∈ seen)) eqn:Hd; [|destruct (passes filter (ikey e)) eqn:Hpass]; injection Hem as -> ->.
  - apply andb_true_iff in Hd as [Hdd Hd%bool_decide_eq_true]. split; [|done|done| |done]; cbn [advanced].
    + intros m Hm. destruct (H1 m Hm) as [Hs Hr]. split; [done|by apply Hsub].
    + intros Hin x Hxt Hw Hr. destruct (Hx x Hxt Hw Hr) as [->|Hr']; [|by apply (H4 (Heof Hin))]. split; [congruence|by left].
  - split; cbn [advanced].
    + intros m [->|Hm]%elem_of_cons; [by rewrite as_entry_eta|]. destruct (H1 m Hm) as [Hs Hr]. split; [done|by apply Hsub].
    + intros [|i] [|j] m m' Hij Hm Hm'; [lia| |lia|apply (H2 i j); [lia|done|done]]. simplify_eq/=. rewrite as_entry_eta. by apply (H1 m' (list_elem_of_lookup_2 _ _ _ Hm')).
    + intros m [->|Hm]%elem_of_cons; [|by apply H3]. rewrite as_entry_eta. split_and!; [done|done|by exists t].
    + intros Hin x Hxt Hw Hr. destruct (Hx x Hxt Hw Hr) as [->|Hr']; [split; [intros; by left|right; exists (ikey e); by left]|].
      destruct (H4 (Heof Hin) x Hxt Hw Hr') as [Hc1 Hc2]. split; [intros; right; by apply Hc1|]. intros Hf. destruct (Hc2 Hf) as [Hin'|[k Hk]]; [|right; exists k; by right].
      destruct (shouldDedup params); [|by left]. apply elem_of_union in Hin' as [->%elem_of_singleton|Hin']; [right; exists (ikey e); by left|by left].
    + intros Hdd. destruct (H5 Hdd) as [Hnd Hns]. rewrite Hdd in Hns, Hd. simpl in Hd. apply bool_decide_eq_false in Hd. split.
      * rewrite fmap_cons. constructor; [|done]. intros (m & Hm1 & Hm2)%list_elem_of_fmap. simpl in Hm1. apply (Hns m Hm2). set_solver.
      * intros m [->|Hm]%elem_of_cons; [done|]. specialize (Hns m Hm). set_solver.
  - split; [|done|done| |]; cbn [advanced].
    + intros m Hm. destruct (H1 m Hm) as [Hs Hr]. split; [done|by apply Hsub].
    + intros Hin x Hxt Hw Hr. destruct (Hx x Hxt Hw Hr) as [->|Hr'].
      { split; [congruence|]. intros Hf. unfold passes in Hpass. by rewrite Hf in Hpass. }
      destruct (H4 (Heof Hin) x Hxt Hw Hr') as [Hc1 Hc2]. split; [done|]. intros Hf. unfold passes in Hpass. by rewrite Hf in Hpass.
    + intros Hdd. destruct (H5 Hdd) as [Hnd Hns]. split; [done|]. intros m Hm. specialize (Hns m Hm). rewrite Hdd in Hns. set_solver.
Qed.

Hypothesis Hparams : params_ok params.

Lemma run_steps_promises unique steps : forall t s p,
  Forall (version_ok unique) (versions steps t) -> at_position params t s p ->
  exists rs, run_steps steps t s = Some rs /\ promises unique p (returned s) (versions steps t) rs.
Proof.
  induction steps as [|[|t'] steps IH]; intros t s p Hv Hat.
  - exists []. split; [done|]. split; [intros m Hm; by apply elem_of_nil in Hm|intros ? ? ? ? _ Hm; cbn [advanced] in Hm; by rewrite lookup_nil in Hm|intros m Hm; by apply elem_of_nil in Hm|intros Hm; by apply elem_of_nil in Hm|].
    intros _. split; [constructor|]. intros m Hm. by apply elem_of_nil in Hm.
  - rewrite versions_work in *. pose proof (proj1 (Forall_forall _ _) Hv t (versions_head steps t)) as Ht. pose proof Ht as [Hok Hu]. cbn [run_steps].
    rewrite <- Hu in Hok. destruct (doWork_worked params filter t Hok Hparams s p Hat) as (s' & o & p' & -> & Hat' & Hsub & Hres). cbn [mbind option_bind]. rewrite Hu in *.
    destruct (IH t s' p' Hv Hat') as (rs & -> & Hprom). cbn [mbind option_bind]. exists (o :: rs). split; [done|]. pose proof (versions_head steps t) as Hin.
    destruct o as [m| |].
    + destruct Hres as (e & _ & Hpe & _ & [[? _]|(-> & Hem & Htodo & _)]); [done|]. by apply (promises_emit unique t p e _ (returned s')).
    + destruct Hres as (e & _ & Hpe & _ & [(_ & Hr & Htodo)|(-> & Hem & Htodo & _)]); [|by apply (promises_emit unique t p e _ (returned s'))].
      rewrite Hr in Hprom. by apply (promises_skip unique t p p').
    + destruct Hres as [-> Htodo]. by apply (promises_eof unique t p _ (returned s')).
  - cbn [run_steps versions] in *. apply Forall_cons in Hv as [Ht Hv]. pose proof (proj1 (Forall_forall _ _) Hv t' (versions_head steps t')) as Ht'.
    destruct (yield_position unique t t' s p Ht Ht' Hat) as (s1 & s2 & -> & Hr & Hat2 & Hret). cbn [mbind option_bind]. rewrite Hr. cbn [mbind option_bind].
    destruct (IH t' s2 p Hv Hat2) as (rs & -> & [H1 H2 H3 H4 H5]). exists rs. split; [done|]. rewrite Hret in *. split; [done|done| | |done].
    + intros m Hm. destruct (H3 m Hm) as (? & ? & t0 & ? & ?). split_and!; [done|done|]. exists t0. split; [by right|done].
    + intros Hin x Hx. apply (H4 Hin). intros t0 Ht0. apply Hx. by right.
Qed.

(** [C2] An index scan over an index that other operations change while the scan yields, at any
    points and in any way that keeps the index sorted: no call fails; the entries returned
    are in strictly increasing scan order, so none is returned twice; each is within the
    bounds, passes the filter and was in the index at some time of the scan; with
    deduplication no record id is returned twice; and when the scan has reported its end,
    every entry within the bounds that was in the index all the time has been returned
    (with deduplication and no filter: its record id has). *)
Theorem yielding_scan_correct unique steps t :
  Forall (version_ok unique) (versions steps t) ->
  exists rs, run_steps steps t (IndexScan_new params) = Some rs /\
    (forall i j m m', (i < j)%nat -> advanced rs !! i = Some m -> advanced rs !! j = Some m' -> after kp fwd unique (as_entry m) (as_entry m') = true) /\
    (forall m, m ∈ advanced rs -> wanted params (as_entry m) = true /\ passes filter (snd m) = true /\ exists t', t' ∈ versions steps t /\ as_entry m ∈ sd_entries t') /\
    (shouldDedup params = true -> NoDup (fst <$> advanced rs)) /\
    (IS_EOF ∈ rs -> forall x, (forall t', t' ∈ versions steps t -> x ∈ sd_entries t') -> wanted params x = true ->
      (shouldDedup params = false -> passes filter (ikey x) = true -> (loc x, ikey x) ∈ advanced rs) /\
      (filter = None -> exists k, (loc x, k) ∈ advanced rs)).
Proof.
  intros Hv. destruct (run_steps_promises unique steps t (IndexScan_new params) AtStart Hv eq_refl) as (rs & Hrun & [H1 H2 H3 H4 H5]).
  exists rs. split_and!; [done|done|done|intros Hd; by apply H5|]. intros Heof x Hx Hw. destruct (H4 Heof x Hx Hw eq_refl) as [Hc1 Hc2].
  split; [done|]. intros Hf. destruct (Hc2 Hf) as [Hin|Hk]; [|done]. by apply not_elem_of_empty in Hin.
Qed.
End yield.
