(* ===== verification/EphemeralBtree.v ===== *)
(** * The in-memory index

    Models [db/storage/ephemeral_for_test/ephemeral_for_test_btree_impl.cpp]: an index over
    [std::set<IndexKeyEntry, IndexEntryComparison>], its bulk builder, the changes it
    registers for rollback (with [ephemeral_for_test_recovery_unit.cpp]).
    The set is the list of its entries in order, an iterator a position in it, the end its
    length.  The comparator aborts when two query objects are compared, so that the
    operations of the set are partial. *)

From Stdlib Require Import ZArith Lia.
From stdpp Require Import prelude.
From S2P Require Import Prelude TotalOrder CompareNumbers Bson ElementOrder Interval IndexBounds IndexBoundsChecker IndexEntryComparison.

Open Scope Z_scope.

Section EphemeralBtree.
Context `{EO : ElementOrder E}.

Abbreviation Entry := (IndexKeyEntry E) (only parsing).

Definition hasFieldNames (obj : list E) : bool := existsb (fun e => negb (eqBehavior e =? 0)) obj.

Definition stripFieldNames (query : list E) : list E :=
  if negb (hasFieldNames query) then query else (fun e => elt_appendAs e []) <$> query.

Definition objsize (obj : list E) : Z := 4 + foldr Z.add 0 (elt_size <$> obj) + 1.

(** ** [std::set] *)

Section IndexSet.
Variable order : Z.

(** The first position whose entry is not less than [query]. *)
Fixpoint set_lower_bound (data : list Entry) (query : Entry) : option nat :=
  match data with
  | [] => Some 0%nat
  | e :: data =>
      b ← entry_less order e query;
      if (b : bool) then S <$> set_lower_bound data query else Some 0%nat
  end.

(** The first position whose entry is greater than [query]. *)
Fixpoint set_upper_bound (data : list Entry) (query : Entry) : option nat :=
  match data with
  | [] => Some 0%nat
  | e :: data =>
      b ← entry_less order query e;
      if (b : bool) then Some 0%nat else S <$> set_upper_bound data query
  end.

(** The position of an equivalent entry, or the end. *)
Definition set_find (data : list Entry) (query : Entry) : option nat :=
  it ← set_lower_bound data query;
  match data !! it with
  | None => Some (length data)
  | Some e => b ← entry_less order query e; Some (if (b : bool) then length data else it)
  end.

(** The set after the insertion and whether the entry is new. *)
Definition set_insert (data : list Entry) (e : Entry) : option (list Entry * bool) :=
  it ← set_find data e;
  if (it =? length data)%nat then
    p ← set_lower_bound data e; Some (take p data ++ e :: drop p data, true)
  else Some (data, false).

(** The set after the removal of the equivalent entries and their number. *)
Definition set_erase (data : list Entry) (query : Entry) : option (list Entry * nat) :=
  first ← set_lower_bound data query;
  last ← set_upper_bound data query;
  Some (take first data ++ drop last data, (last - first)%nat).

(** ** The index *)

Definition isDup (data : list Entry) (key : list E) (loc' : Z) : option bool :=
  it ← set_find data (mkIndexKeyEntry key kNullRepr);
  match data !! it with
  | None => Some false
  | Some e => Some (negb (loc e =? loc'))
  end.

(** A change registered for rollback. *)
Record IndexChange := mkIndexChange { change_entry : Entry; change_insert : bool }.

Record EphemeralForTestBtreeImpl := mkBtree {
  data : list Entry;
  currentKeySize : Z;
  isUnique : bool;
}.

Inductive BtreeStatus := BtreeOK | DuplicateKey | InternalError.

(** [insert]; the list of changes is the one of the recovery unit. *)
Definition btree_insert (t : EphemeralForTestBtreeImpl) (changes : list IndexChange) (key : list E) (loc' : Z)
    (dupsAllowed : bool) : option (EphemeralForTestBtreeImpl * list IndexChange * BtreeStatus) :=
  invariant (isValid loc');;
  invariant (negb (hasFieldNames key));;
  dup ← (if negb dupsAllowed then isDup (data t) key loc' else Some false);
  if (dup : bool) then Some (t, changes, DuplicateKey)
  else
    let entry := mkIndexKeyEntry key loc' in
    '(d, inserted) ← set_insert (data t) entry;
    if (inserted : bool) then
      Some ({| t with data := d; currentKeySize := currentKeySize t + objsize key |},
            changes ++ [mkIndexChange entry true], BtreeOK)
    else Some ({| t with data := d |}, changes, BtreeOK).

Definition unindex (t : EphemeralForTestBtreeImpl) (changes : list IndexChange) (key : list E) (loc' : Z)
    : option (EphemeralForTestBtreeImpl * list IndexChange) :=
  invariant (isValid loc');;
  invariant (negb (hasFieldNames key));;
  let entry := mkIndexKeyEntry key loc' in
  '(d, numDeleted) ← set_erase (data t) entry;
  invariant (numDeleted <=? 1)%nat;;
  if (numDeleted =? 1)%nat then
    Some ({| t with data := d; currentKeySize := currentKeySize t - objsize key |},
          changes ++ [mkIndexChange entry false])
  else Some ({| t with data := d |}, changes).

Definition fullValidate (t : EphemeralForTestBtreeImpl) : Z := Z.of_nat (length (data t)).

Definition dupKeyCheck (t : EphemeralForTestBtreeImpl) (key : list E) (loc' : Z) : option BtreeStatus :=
  invariant (negb (hasFieldNames key));;
  dup ← isDup (data t) key loc';
  Some (if (dup : bool) then DuplicateKey else BtreeOK).

Definition btree_isEmpty (t : EphemeralForTestBtreeImpl) : bool := bool_decide (data t = []).

(** ** Rollback *)

Definition change_rollback (d : list Entry) (c : IndexChange) : option (list Entry) :=
  if change_insert c then fst <$> set_erase d (change_entry c) else fst <$> set_insert d (change_entry c).

(** [abortUnitOfWork] rolls the changes back in reverse order. *)
Fixpoint rollback_all (d : list Entry) (changes : list IndexChange) : option (list Entry) :=
  match changes with
  | [] => Some d
  | c :: changes => d ← rollback_all d changes; change_rollback d c
  end.

Definition abortUnitOfWork (t : EphemeralForTestBtreeImpl) (changes : list IndexChange)
    : option (EphemeralForTestBtreeImpl * list IndexChange) :=
  d ← rollback_all (data t) changes; Some ({| t with data := d |}, []).

Definition commitUnitOfWork (t : EphemeralForTestBtreeImpl) (changes : list IndexChange)
    : EphemeralForTestBtreeImpl * list IndexChange := (t, []).

(** ** The bulk builder *)

(** [lastEntry] is the entry that [_last] points to. *)
Record Builder := mkBuilder { builder_btree : EphemeralForTestBtreeImpl; builder_dupsAllowed : bool; lastEntry : option Entry }.

Definition getBulkBuilder (t : EphemeralForTestBtreeImpl) (dupsAllowed : bool) : option Builder :=
  invariant (btree_isEmpty t);; Some (mkBuilder t dupsAllowed None).

Definition addKey (b : Builder) (key : list E) (loc' : Z) : option (Builder * BtreeStatus) :=
  invariant (isValid loc');;
  invariant (negb (hasFieldNames key));;
  let t := builder_btree b in
  status ←
    (if negb (btree_isEmpty t) then
       last ← lastEntry b;
       cmp ← entry_compare order (mkIndexKeyEntry key kNullRepr) last;
       if (cmp <? 0) || (builder_dupsAllowed b && (cmp =? 0) && (loc' <? loc last)) then Some InternalError
       else if negb (builder_dupsAllowed b) && (cmp =? 0) && negb (loc' =? loc last) then Some DuplicateKey
       else Some BtreeOK
     else Some BtreeOK);
  match status with
  | BtreeOK =>
      let entry := mkIndexKeyEntry key loc' in
      '(d, _) ← set_insert (data t) entry;
      it ← set_find d entry;
      last ← d !! it;
      Some (mkBuilder {| t with data := d; currentKeySize := currentKeySize t + objsize key |}
              (builder_dupsAllowed b) (Some last), BtreeOK)
  | s => Some (b, s)
  end.
End IndexSet.
End EphemeralBtree.
Arguments IndexChange E : clear implicits.
Arguments EphemeralForTestBtreeImpl E : clear implicits.
Arguments Builder E : clear implicits.
