(* ===== verification/EphemeralCursor.v ===== *)
(** * Cursors of the in-memory index

    Models the class [Cursor] of [EphemeralForTestBtreeImpl].  The data is an argument of
    each operation, as it may change between [save] and [restore]; the debug assertions
    are left out. *)

From Stdlib Require Import ZArith Lia.
From stdpp Require Import prelude.
From S2P Require Import Prelude TotalOrder CompareNumbers Bson ElementOrder Interval IndexBounds IndexBoundsChecker IndexEntryComparison EphemeralBtree.

Open Scope Z_scope.

Section Cursor.
Context `{EO : ElementOrder E}.
Variable order : Z.

Abbreviation Entry := (IndexKeyEntry E) (only parsing).

(** [end_it] is [None] while it has not been set. *)
Record EndState := mkEndState { end_query : Entry; end_it : option nat }.

Record Cursor := mkCursor {
  cforward : bool;
  cunique : bool;
  isEOF : bool;
  it : nat;
  endState : option EndState;
  lastMoveWasRestore : bool;
  savedAtEnd : bool;
  savedKey : list E;
  savedLoc : Z;
}.

Definition newCursor (t : EphemeralForTestBtreeImpl E) (isForward : bool) : Cursor :=
  mkCursor isForward (isUnique t) true (length (data t)) None false false [] kNullRepr.

Definition atEndPoint (c : Cursor) : bool :=
  match endState c with
  | None => false
  | Some es => bool_decide (end_it es = Some (it c))
  end.

Definition advance (d : list Entry) (c : Cursor) : Cursor :=
  if isEOF c then c
  else if cforward c then
    let c := if negb (it c =? length d)%nat then {| c with it := S (it c) |} else c in
    if (it c =? length d)%nat || atEndPoint c then {| c with isEOF := true |} else c
  else
    let c := if (it c =? 0)%nat || bool_decide (d = []) then {| c with isEOF := true |}
             else {| c with it := pred (it c) |} in
    if atEndPoint c then {| c with isEOF := true |} else c.

Definition atOrPastEndPointAfterSeeking (d : list Entry) (c : Cursor) : option bool :=
  if isEOF c then Some true
  else
    match endState c with
    | None => Some false
    | Some es =>
        e ← d !! it c;
        cmp ← entry_compare order e (end_query es);
        Some (if cforward c then 0 <? cmp else cmp <? 0)
    end.

Definition locate (d : list Entry) (c : Cursor) (key : list E) (loc' : Z) : option Cursor :=
  let query := mkIndexKeyEntry key loc' in
  i ← set_lower_bound order d query;
  let c := {| c with isEOF := false; it := i |} in
  c ← (if cforward c then
         Some (if (it c =? length d)%nat then {| c with isEOF := true |} else c)
       else
         match d !! it c with
         | None => Some (advance d c)
         | Some e => cmp ← entry_compare order e query; Some (if 0 <? cmp then advance d c else c)
         end);
  past ← atOrPastEndPointAfterSeeking d c;
  Some (if (past : bool) then {| c with isEOF := true |} else c).

Definition seekEndCursor (d : list Entry) (c : Cursor) : option Cursor :=
  match endState c with
  | None => Some c
  | Some es =>
      if bool_decide (d = []) then Some c
      else
        i ← set_lower_bound order d (end_query es);
        i ← (if negb (cforward c) then
               match d !! i with
               | None => Some (if (i =? 0)%nat then length d else pred i)
               | Some e =>
                   cmp ← entry_compare order e (end_query es);
                   Some (if 0 <? cmp then (if (i =? 0)%nat then length d else pred i) else i)
               end
             else Some i);
        Some {| c with endState := Some {| es with end_it := Some i |} |}
  end.

(** What the methods that move the cursor return: the entry of the position, or nothing at the
    end. *)
Definition current (d : list Entry) (c : Cursor) : option (option Entry) :=
  if isEOF c then Some None else e ← d !! it c; Some (Some e).

Definition next (d : list Entry) (c : Cursor) : option (Cursor * option Entry) :=
  let c :=
    if lastMoveWasRestore c then {| c with lastMoveWasRestore := false |}
    else
      let c := advance d c in
      if atEndPoint c then {| c with isEOF := true |} else c in
  r ← current d c; Some (c, r).

Definition setEndPosition (d : list Entry) (c : Cursor) (key : list E) (inclusive : bool) : option Cursor :=
  if bool_decide (key = []) then Some {| c with endState := None |}
  else
    seekEndCursor d
      {| c with endState := Some (mkEndState (mkIndexKeyEntry (stripFieldNames key)
           (if Bool.eqb (cforward c) inclusive then kMaxRepr else kMinRepr)) None) |}.

Definition seek (d : list Entry) (c : Cursor) (key : list E) (inclusive : bool) : option (Cursor * option Entry) :=
  if bool_decide (key = []) then
    let c := {| c with it := if inclusive then 0%nat else length d |} in
    let c := {| c with isEOF := (it c =? length d)%nat |} in
    r ← current d c; Some (c, r)
  else
    let query := stripFieldNames key in
    c ← locate d c query (if Bool.eqb (cforward c) inclusive then kMinRepr else kMaxRepr);
    let c := {| c with lastMoveWasRestore := false |} in
    r ← current d c; Some (c, r).

(** [seek] to a seek point. *)
Definition seekPoint (d : list Entry) (c : Cursor) (sp : IndexSeekPoint E) : option (Cursor * option Entry) :=
  query ← makeQueryObject sp (cforward c);
  c ← locate d c query (if cforward c then kMinRepr else kMaxRepr);
  let c := {| c with lastMoveWasRestore := false |} in
  r ← current d c; Some (c, r).

Definition saveUnpositioned (c : Cursor) : Cursor := {| c with savedAtEnd := true |}.

Definition save (d : list Entry) (c : Cursor) : option Cursor :=
  if lastMoveWasRestore c then Some c
  else if isEOF c then Some (saveUnpositioned c)
  else
    e ← d !! it c;
    Some {| c with savedAtEnd := false; savedKey := ikey e; savedLoc := loc e |}.

Definition restore (d : list Entry) (c : Cursor) : option Cursor :=
  c ← seekEndCursor d c;
  if savedAtEnd c then Some {| c with isEOF := true |}
  else
    c ← locate d c (savedKey c) (savedLoc c);
    if isEOF c then Some {| c with lastMoveWasRestore := true |}
    else
      let savedLocToUse := if cunique c then kNullRepr else savedLoc c in
      e ← d !! it c;
      cmp ← entry_compare order e (mkIndexKeyEntry (savedKey c) savedLocToUse);
      Some {| c with lastMoveWasRestore := negb (cmp =? 0) |}.

(** [SortedDataInterface::Cursor::seekExact]. *)
Definition seekExact (d : list Entry) (c : Cursor) (key : list E) : option (Cursor * option Entry) :=
  '(c, kv) ← seek d c key true;
  Some (c, match kv with
           | Some e => if obj_woCompare false [] (ikey e) key =? 0 then Some e else None
           | None => None
           end).
End Cursor.
Arguments EndState E : clear implicits.
Arguments Cursor E : clear implicits.
