(* ===== verification/EphemeralCursorSpec.v ===== *)
(** * The cursors of the in-memory index keep the contract

    The cursor of [EphemeralForTestBtreeImpl] is an instance of [SortedDataInterface]. *)

From Stdlib Require Import ZArith Lia.
From stdpp Require Import prelude.
From S2P Require Import Prelude TotalOrder CompareNumbers Bson ElementOrder Interval IndexBounds IndexBoundsChecker BoundsCheckerSpec CheckKey IndexEntryComparison IndexEntryOrder SortedDataInterface EphemeralBtree EphemeralCursor.

Open Scope Z_scope.

Section cuts.
Context `{EO : ElementOrder E}.
Variables (order : Z) (kp : list E).
Hypothesis Hord : orders order kp.
Implicit Types (e : IndexKeyEntry E) (d : list (IndexKeyEntry E)) (q : list (E * bool)) (key : list E) (fwd : bool).

(** ** Queries that divide the entries *)

(** [cq] is the comparison of the entries with the query. *)
Record cuts d (query : IndexKeyEntry E) (cq : IndexKeyEntry E -> Z) : Prop := {
  cut_compare : forall i e, d !! i = Some e -> entry_compare order e query = Some (cq e);
  cut_mono : forall i j a b, (i < j)%nat -> d !! i = Some a -> d !! j = Some b -> cq b <= 0 -> cq a < 0;
}.

Lemma cuts_tail e d query cq : cuts (e :: d) query cq -> cuts d query cq.
Proof.
  intros [Hc Hm]. split; [intros i e'; apply (Hc (S i))|]. intros i j a b Hij Ha Hb. by apply (Hm (S i) (S j) a b ltac:(lia)).
Qed.

Lemma set_lower_bound_cut d query cq :
  cuts d query cq ->
  exists p, set_lower_bound order d query = Some p /\ (p <= length d)%nat /\
    forall i e, d !! i = Some e -> ((i < p)%nat <-> cq e < 0).
Proof.
  induction d as [|e d IH]; intros Hcut; [by exists 0%nat|]. cbn [set_lower_bound]. unfold entry_less.
  rewrite (cut_compare _ _ _ Hcut 0%nat e eq_refl). cbn [mbind option_bind].
  destruct (Z.ltb_spec (cq e) 0) as [Hlt|Hge].
  - destruct (IH (cuts_tail _ _ _ _ Hcut)) as (p & -> & Hp & Hspec). exists (S p). split_and!; [done|simpl; lia|].
    intros [|i] e' He; [simplify_eq/=; lia|]. rewrite <- (Hspec i e' He). lia.
  - exists 0%nat. split_and!; [done|lia|]. intros [|i] e' He; [simplify_eq/=; lia|].
    split; [lia|]. intros Hlt. pose proof (cut_mono _ _ _ Hcut 0%nat (S i) e e' ltac:(lia) eq_refl He ltac:(lia)). lia.
Qed.

(** The query stands for the position [q] of a cursor. *)
Definition separates fwd q (query : IndexKeyEntry E) : Prop :=
  forall e, stored kp e -> exists c, entry_compare order e query = Some c /\ c <> 0 /\
    (if fwd then c <? 0 else 0 <? c) = before kp fwd q e.

Definition compare_with (query : IndexKeyEntry E) e : Z := from_option id 0 (entry_compare order e query).

Lemma separates_value fwd q query e :
  separates fwd q query -> stored kp e ->
  entry_compare order e query = Some (compare_with query e) /\ compare_with query e <> 0 /\
  (if fwd then compare_with query e <? 0 else 0 <? compare_with query e) = before kp fwd q e.
Proof. intros Hs He. destruct (Hs e He) as (c & Hc & Hne & Hb). unfold compare_with. by rewrite Hc. Qed.

Lemma separates_cuts unique d fwd q query :
  data_ok kp unique d -> separates fwd q query -> cuts d query (compare_with query).
Proof.
  intros Hok Hsep. pose proof Hok as (Hst & Hs & _). split.
  - intros i e He. by destruct (separates_value fwd q query e Hsep (data_stored kp _ _ _ _ Hok He)).
  - intros i j a b Hij Ha Hb Hle.
    pose proof (data_stored kp _ _ _ _ Hok Ha) as Hsa. pose proof (data_stored kp _ _ _ _ Hok Hb) as Hsb.
    destruct (separates_value fwd q query a Hsep Hsa) as (_ & Hna & Hba). destruct (separates_value fwd q query b Hsep Hsb) as (_ & Hnb & Hbb).
    specialize (Hs i j a b Hij Ha Hb). destruct fwd; cbv iota in Hba, Hbb.
    + assert (before kp true q a = true) as Ea; [|rewrite Ea in Hba; lia].
      apply (before_mono kp true q a b); [done..|]. rewrite <- Hbb. lia.
    + destruct (before kp false q a) eqn:Ea; [|lia].
      assert (before kp false q b = true) as Eb by by apply (before_mono kp false q b a). rewrite Eb in Hbb. lia.
Qed.

(** The two kinds of positions. *)
Lemma separates_query fwd q :
  covers (length kp) q = true ->
  separates fwd q (mkIndexKeyEntry (query_object (exclusive_name fwd) q) (if fwd then kMinRepr else kMaxRepr)).
Proof. intros Hcov e He. by apply entry_compare_query. Qed.

Lemma plain_strip key : plain (stripFieldNames key).
Proof.
  unfold stripFieldNames. destruct (hasFieldNames key) eqn:Hh; simpl.
  - apply Forall_fmap, Forall_true. intros e. simpl. apply eqBehavior_appendAs.
  - apply Forall_forall. intros e He. destruct (Z.eq_dec (eqBehavior e) 0) as [|Hne]; [done|].
    assert (hasFieldNames key = true); [|congruence]. apply existsb_exists. exists e.
    split; [by apply list_elem_of_In|]. destruct (Z.eqb_spec (eqBehavior e) 0); done.
Qed.

Lemma length_strip key : length (stripFieldNames key) = length key.
Proof. unfold stripFieldNames. case_match; [done|]. by rewrite length_fmap. Qed.

Lemma scan_cmp_strip dirs a key : Forall direction dirs -> Z.sgn (scan_cmp dirs a (stripFieldNames key)) = Z.sgn (scan_cmp dirs a key).
Proof.
  intros Hd. unfold stripFieldNames. destruct (negb _); [done|].
  revert a key. induction Hd as [|d dirs Hd Hdirs IH]; intros [|x a] [|y key]; try done. rewrite fmap_cons. cbn [scan_cmp].
  pose proof (elt_appendAs_compare_r x y []) as Hc. unfold cmpv.
  specialize (IH a key). revert IH Hc. generalize (elt_compare false x (elt_appendAs y [])) (elt_compare false x y).
  intros c c' IH Hc. destruct Hd as [-> | ->]; repeat case_if; lia.
Qed.

Lemma separates_key fwd key inclusive :
  key <> [] -> length key = length kp ->
  separates fwd (key_query key inclusive)
    (mkIndexKeyEntry (stripFieldNames key) (if Bool.eqb fwd inclusive then kMinRepr else kMaxRepr)).
Proof.
  intros Hne Hlen e (Hl & Hp & Hv). unfold entry_compare. cbn [ikey loc]. rewrite <- mask_at_0.
  destruct (compare_keys_plain order kp 0 (ikey e) (stripFieldNames key)) as (c & -> & Hc);
    [by apply orders_start|done|by rewrite length_strip|done|apply plain_strip|].
  unfold before. rewrite before_key_query by (done || by rewrite length_scan_dirs). rewrite scan_cmp_dirs.
  pose proof (scan_cmp_strip (index_dirs kp) (ikey e) key (index_dirs_direction kp)) as Hs.
  revert Hc Hs. generalize (scan_cmp (index_dirs kp) (ikey e) (stripFieldNames key)) (scan_cmp (index_dirs kp) (ikey e) key).
  intros x y Hc Hs. cbn [mbind option_bind]. destruct c as [c|].
  - destruct Hc as [Hc0 Hc]. exists c. split_and!; [done|done|]. destruct fwd, inclusive; simpl; lia.
  - apply valid_not_null in Hv as [-> Hr]. unfold kMaxRepr in Hr. assert (y = 0) as -> by lia.
    destruct fwd, inclusive; simpl; eexists; (split; [done|]); unfold RecordId_compare, kMinRepr, kMaxRepr; repeat case_if; lia.
Qed.
End cuts.

(** ** Positions of the cursor *)

Section cursor.
Context `{EO : ElementOrder E}.
Variables (order : Z) (kp : list E).
Hypothesis Hord : orders order kp.
Implicit Types (e : IndexKeyEntry E) (d : list (IndexKeyEntry E)) (q : list (E * bool)) (key : list E) (fwd : bool)
  (c : Cursor E) (endq : option (list (E * bool))) (i m : nat) (unique : bool).

Abbreviation within := (within_end kp) (only parsing).

(** The entries from position [i] on, in the direction of the cursor. *)
Definition ahead fwd d i : list (IndexKeyEntry E) := if fwd then drop i d else rev (take (S i) d).

(** The entries after position [i]. *)
Definition beyond_pos fwd d i : list (IndexKeyEntry E) := if fwd then drop (S i) d else rev (take i d).

Lemma ahead_cons fwd d i e : d !! i = Some e -> ahead fwd d i = e :: beyond_pos fwd d i.
Proof.
  intros He. unfold ahead, beyond_pos. destruct fwd; [by apply drop_S|].
  rewrite (take_S_r _ _ _ He). by rewrite rev_app_distr.
Qed.

Lemma ahead_lookup fwd d i e : e ∈ ahead fwd d i -> exists j, d !! j = Some e /\ (if fwd then i <= j else j <= i)%nat.
Proof.
  unfold ahead. destruct fwd.
  - intros (j & Hj)%list_elem_of_lookup. rewrite lookup_drop in Hj. exists (i + j)%nat. split; [done|lia].
  - intros He. apply list_elem_of_In, in_rev, list_elem_of_In, list_elem_of_lookup in He as (j & Hj).
    apply lookup_take_Some in Hj as [Hj Hlt]. exists j. split; [done|lia].
Qed.

(** Position [i] is before the end of the cursor, and [l] are the entries from there on; or the
    cursor is at the end. *)
Definition at_pos d fwd endq (eof : bool) i (l : list (IndexKeyEntry E)) : Prop :=
  if eof then l = []
  else exists e, d !! i = Some e /\ within fwd endq e = true /\ l = List.filter (within fwd endq) (ahead fwd d i).

(** The end state of a cursor: its query stands for the end position, and its iterator is on
    the first entry at or after it. *)
Definition end_query_ok fwd endq (es : option (EndState E)) : Prop :=
  match es, endq with
  | None, None => True
  | Some es, Some q => separates order kp fwd q (end_query es)
  | _, _ => False
  end.

Definition end_it_ok fwd endq d (es : option (EndState E)) : Prop :=
  match es with
  | None => True
  | Some es => d <> [] -> exists m, end_it es = Some m /\
      forall i e, d !! i = Some e -> within fwd endq e = if fwd then (i <? m)%nat else (m <? i)%nat || (m =? length d)%nat
  end.

Record cursor_inv d fwd unique endq c : Prop := {
  ci_forward : cforward c = fwd;
  ci_unique : cunique c = unique;
  ci_query : end_query_ok fwd endq (endState c);
  ci_it : end_it_ok fwd endq d (endState c);
}.

(** After an entry past the end there are only such entries. *)
Lemma past_end_ahead unique d fwd endq i e :
  data_ok kp unique d -> d !! i = Some e -> within fwd endq e = false -> List.filter (within fwd endq) (ahead fwd d i) = [].
Proof.
  intros Hok He Hw. apply bfilter_nil. intros e' (j & Hj & Hij)%ahead_lookup. destruct endq as [q|]; [|done]. simpl in *.
  destruct (decide (i = j)) as [->|Hne]; [congruence|]. apply not_true_iff_false. intros Hb.
  pose proof Hok as (_ & Hs & _). pose proof (data_stored _ _ _ _ _ Hok He). pose proof (data_stored _ _ _ _ _ Hok Hj).
  assert (before kp fwd q e = true); [|congruence]. apply (before_mono kp fwd q e e'); [done|done| |done].
  destruct fwd; [apply (Hs i j)|apply (Hs j i)]; done || lia.
Qed.

Lemma atEndPoint_within d fwd unique endq c e :
  cursor_inv d fwd unique endq c -> d !! it c = Some e -> atEndPoint c = true -> within fwd endq e = false.
Proof.
  intros [_ _ Hq Hi] He Ha. unfold atEndPoint in Ha. destruct (endState c) as [es|]; [|done].
  destruct endq as [q|]; [|done]. apply bool_decide_eq_true in Ha.
  destruct Hi as (m & Hm & Hspec); [by intros ->|]. rewrite (Hspec _ _ He). rewrite Ha in Hm. injection Hm as <-.
  pose proof (lookup_lt_Some _ _ _ He). destruct fwd; [apply Nat.ltb_ge; lia|].
  rewrite (proj2 (Nat.ltb_ge _ _)) by lia. apply Nat.eqb_neq. lia.
Qed.

(** The cursor at position [i], the rest unchanged. *)
Definition moved c (eof : bool) i : Cursor E := {| c with isEOF := eof; it := i |}.

Lemma cursor_inv_moved d fwd unique endq c eof i : cursor_inv d fwd unique endq c -> cursor_inv d fwd unique endq (moved c eof i).
Proof. intros [H1 H2 H3 H4]. by split. Qed.

Lemma atEndPoint_moved c eof i : atEndPoint (moved c eof i) = atEndPoint (moved c false i).
Proof. done. Qed.

Lemma advance_forward d c :
  isEOF c = false -> cforward c = true -> (it c < length d)%nat ->
  advance d c = moved c ((S (it c) =? length d)%nat || atEndPoint (moved c false (S (it c)))) (S (it c)).
Proof.
  intros Heof Hf Hlt. destruct c as [cf cu ce ci ces clr csa csk csl]; simpl in *; subst. unfold advance. cbn [isEOF cforward it].
  rewrite (proj2 (Nat.eqb_neq ci (length d))) by lia. cbn [negb it].
  unfold atEndPoint, moved. cbn [it endState]. destruct (_ || _); reflexivity.
Qed.

Lemma advance_reverse d c :
  isEOF c = false -> cforward c = false ->
  advance d c = if (it c =? 0)%nat || bool_decide (d = []) then moved c true (it c)
                else moved c (atEndPoint (moved c false (pred (it c)))) (pred (it c)).
Proof.
  intros Heof Hf. destruct c; simpl in *; subst. unfold advance. simpl. unfold atEndPoint, moved. simpl.
  destruct (_ || _); simpl; by case_match.
Qed.

(** One step of the cursor. *)
Lemma advance_moved unique d fwd endq c :
  data_ok kp unique d -> cursor_inv d fwd unique endq c -> isEOF c = false ->
  (if fwd then it c < length d else it c <= length d)%nat ->
  exists eof i', advance d c = moved c eof i' /\
    if eof then List.filter (within fwd endq) (beyond_pos fwd d (it c)) = []
    else ahead fwd d i' = beyond_pos fwd d (it c) /\ (exists e, d !! i' = Some e) /\ atEndPoint (moved c false i') = false /\
      (if fwd then i' = S (it c) else S i' = it c).
Proof.
  intros Hok Hinv Heof Hlen. pose proof Hinv as [Hf _ _ _]. destruct fwd; cbv iota in Hlen.
  - rewrite advance_forward by done. exists ((S (it c) =? length d)%nat || atEndPoint (moved c false (S (it c)))), (S (it c)).
    split; [done|]. destruct (Nat.eqb_spec (S (it c)) (length d)) as [Hend|Hne]; cbn [orb].
    { unfold beyond_pos. by rewrite drop_ge by lia. }
    destruct (lookup_lt_is_Some_2 d (S (it c))) as [e He]; [lia|].
    destruct (atEndPoint (moved c false (S (it c)))) eqn:Ha; [|by split_and!; [|exists e| |]].
    change (beyond_pos true d (it c)) with (ahead true d (S (it c))). refine (past_end_ahead unique d true endq _ e Hok He _).
    by apply (atEndPoint_within d true unique endq (moved c false (S (it c))) e (cursor_inv_moved _ _ _ _ _ _ _ Hinv)).
  - rewrite advance_reverse by done. destruct (Nat.eqb_spec (it c) 0) as [H0|H0]; cbn [orb].
    { exists true, (it c). by rewrite H0. }
    rewrite bool_decide_false by (intros ->; simpl in Hlen; lia). eexists _, _. split; [done|].
    destruct (lookup_lt_is_Some_2 d (pred (it c))) as [e He]; [lia|].
    assert (ahead false d (pred (it c)) = beyond_pos false d (it c)) as Hah.
    { unfold ahead, beyond_pos. do 2 f_equal. lia. }
    destruct (atEndPoint (moved c false (pred (it c)))) eqn:Ha; [|split_and!; [done|by exists e|done|lia]].
    rewrite <- Hah. refine (past_end_ahead unique d false endq _ e Hok He _).
    by apply (atEndPoint_within d false unique endq (moved c false (pred (it c))) e (cursor_inv_moved _ _ _ _ _ _ _ Hinv)).
Qed.

(** From an entry before the end, the next one is at the end position or still before it. *)
Lemma advance_within unique d fwd endq c e :
  data_ok kp unique d -> cursor_inv d fwd unique endq c -> isEOF c = false ->
  d !! it c = Some e -> within fwd endq e = true ->
  exists eof i', advance d c = moved c eof i' /\
    at_pos d fwd endq eof i' (List.filter (within fwd endq) (beyond_pos fwd d (it c))) /\
    (eof = false -> atEndPoint (moved c false i') = false).
Proof.
  intros Hok Hinv Heof He Hw. pose proof (lookup_lt_Some _ _ _ He) as Hlt.
  destruct (advance_moved unique d fwd endq c) as (eof & i' & Hadv & Hspec); [done..|destruct fwd; lia|].
  exists eof, i'. split; [done|]. destruct eof; [done|]. destruct Hspec as (Hah & (e' & He') & Ha & Hi').
  split; [|done]. exists e'. split_and!; [done| |by rewrite Hah].
  destruct Hinv as [Hf _ Hq Hit]. unfold atEndPoint in Ha. simpl in Ha. destruct (endState c) as [es|]; [|by destruct endq].
  destruct Hit as (m & Hm & Hspec); [by intros ->|]. rewrite (Hspec _ _ He) in Hw. rewrite (Hspec _ _ He').
  rewrite Hm in Ha. apply bool_decide_eq_false in Ha. assert (m <> i') by congruence.
  destruct fwd; [apply Nat.ltb_lt in Hw; apply Nat.ltb_lt; lia|].
  apply orb_true_iff in Hw as [Hw|Hw]; apply orb_true_iff; [left|by right]. apply Nat.ltb_lt in Hw. apply Nat.ltb_lt. lia.
Qed.

(** ** Seeking *)

(** A predicate that holds from position [p] on, or up to it, in the direction of the cursor. *)
Lemma filter_scan (P : IndexKeyEntry E -> bool) fwd d p :
  (forall i e, d !! i = Some e -> P e = if fwd then (p <=? i)%nat else (i <? p)%nat) ->
  List.filter P (scan_list fwd d) = if fwd then drop p d else rev (take p d).
Proof.
  intros HP. unfold scan_list.
  assert (forall e, e ∈ take p d -> P e = negb fwd) as Htake.
  { intros e (i & Hi)%list_elem_of_lookup. apply lookup_take_Some in Hi as [Hi Hlt]. rewrite (HP _ _ Hi).
    destruct fwd; [apply Nat.leb_gt; lia|apply Nat.ltb_lt; lia]. }
  assert (forall e, e ∈ drop p d -> P e = fwd) as Hdrop.
  { intros e (i & Hi)%list_elem_of_lookup. rewrite lookup_drop in Hi. rewrite (HP _ _ Hi).
    destruct fwd; [apply Nat.leb_le; lia|apply Nat.ltb_ge; lia]. }
  rewrite <- (take_drop p d) at 1. destruct fwd.
  - rewrite List.filter_app. rewrite (bfilter_nil P (take p d)) by done. by rewrite (bfilter_all P (drop p d)).
  - rewrite <- (take_drop p d) at 1. rewrite rev_app_distr, List.filter_app.
    rewrite (bfilter_nil P (rev (drop p d))), (bfilter_all P (rev (take p d))); [done| |];
      intros e He; apply list_elem_of_In, in_rev, list_elem_of_In in He; auto.
Qed.

(** The part of [locate] that moves the iterator. *)
Definition locate_move d c (query : IndexKeyEntry E) : option (Cursor E) :=
  i ← set_lower_bound order d query;
  let c := {| c with isEOF := false; it := i |} in
  if cforward c then
    Some (if (it c =? length d)%nat then {| c with isEOF := true |} else c)
  else
    match d !! it c with
    | None => Some (advance d c)
    | Some e => cmp ← entry_compare order e query; Some (if 0 <? cmp then advance d c else c)
    end.

Lemma locate_move_spec unique d fwd endq c query cq :
  data_ok kp unique d -> cursor_inv d fwd unique endq c -> cuts order d query cq ->
  let l := List.filter (fun e => if fwd then 0 <=? cq e else cq e <=? 0) (scan_list fwd d) in
  exists eof i, locate_move d c query = Some (moved c eof i) /\
    if eof then List.filter (within fwd endq) l = [] else ahead fwd d i = l /\ exists e, d !! i = Some e.
Proof.
  intros Hok Hinv Hcut l. unfold locate_move. destruct (set_lower_bound_cut order d query cq Hcut) as (p & -> & Hp & Hspec).
  cbn [mbind option_bind]. pose proof Hinv as [Hf _ _ _].
  destruct c as [cf cu ce ci ces clr csa csk csl]. simpl in Hf. subst cf. set (c := mkCursor fwd cu ce ci ces clr csa csk csl) in *.
  change ({| c with isEOF := false; it := p |}) with (moved c false p).
  cbn [moved cforward it c]. destruct fwd.
  - assert (l = drop p d) as Hl.
    { apply (filter_scan _ true d p). intros i e He. pose proof (Hspec i e He).
      destruct (Nat.leb_spec p i); [apply Z.leb_le|apply Z.leb_gt]; lia. }
    rewrite Hl. destruct (Nat.eqb_spec p (length d)) as [->|Hne].
    + exists true, (length d). split; [done|]. by rewrite drop_all.
    + exists false, p. split; [done|]. split; [done|]. apply lookup_lt_is_Some_2. lia.
  - assert (forall p', (forall i e, d !! i = Some e -> (cq e <=? 0) = (i <? p')%nat) -> l = rev (take p' d)) as Hl.
    { intros p' Hp'. by apply (filter_scan _ false d p'). }
    assert ((forall e, d !! p = Some e -> 0 < cq e) -> exists eof i, Some (advance d (moved c false p)) = Some (moved c eof i) /\
      if eof then List.filter (within false endq) l = [] else ahead false d i = l /\ exists e, d !! i = Some e) as Hadv.
    { intros Hgt. rewrite (Hl p).
      2: { intros i e He. pose proof (Hspec i e He). destruct (Nat.ltb_spec i p); [apply Z.leb_le; lia|]. apply Z.leb_gt.
           destruct (decide (i = p)) as [->|]; [by apply Hgt|]. destruct (lookup_lt_is_Some_2 d p) as [e0 He0]; [apply lookup_lt_Some in He; lia|].
           destruct (decide (0 < cq e)); [done|]. specialize (Hgt e0 He0).
           pose proof (cut_mono _ _ _ _ Hcut p i e0 e ltac:(lia) He0 He ltac:(lia)). lia. }
      destruct (advance_moved unique d false endq (moved c false p) Hok (cursor_inv_moved _ _ _ _ _ _ _ Hinv) eq_refl Hp)
        as (eof & i & -> & Hres). exists eof, i. split; [done|]. destruct eof; [done|]. by destruct Hres as (? & ? & _). }
    destruct (d !! p) as [e|] eqn:Hep; [|by apply Hadv].
    rewrite (cut_compare _ _ _ _ Hcut p e Hep). cbn [mbind option_bind].
    destruct (Z.ltb_spec 0 (cq e)) as [Hgt|Hle]; [apply Hadv; congruence|].
    exists false, p. split; [done|]. split; [|by exists e]. symmetry. apply Hl. intros i e' He'. pose proof (Hspec i e' He').
    destruct (Nat.ltb_spec i (S p)); [|apply Z.leb_gt].
    + apply Z.leb_le. destruct (decide (i = p)) as [->|]; [|lia]. congruence.
    + destruct (decide (0 < cq e')); [done|]. pose proof (cut_mono _ _ _ _ Hcut p i e e' ltac:(lia) Hep He' ltac:(lia)). 
      pose proof (Hspec p e Hep). lia.
Qed.

Lemma locate_unfold d c key loc' :
  locate order d c key loc' =
  (c ← locate_move d c (mkIndexKeyEntry key loc');
   past ← atOrPastEndPointAfterSeeking order d c;
   Some (if (past : bool) then {| c with isEOF := true |} else c)).
Proof. unfold locate, locate_move. by destruct (set_lower_bound order d _). Qed.

Lemma past_end_check unique d fwd endq c i e :
  data_ok kp unique d -> cursor_inv d fwd unique endq c -> d !! i = Some e ->
  atOrPastEndPointAfterSeeking order d (moved c false i) = Some (negb (within fwd endq e)).
Proof.
  intros Hok [Hf _ Hq _] He. unfold atOrPastEndPointAfterSeeking. cbn [moved isEOF endState it cforward].
  destruct (endState c) as [es|], endq as [q|]; try done. rewrite He. cbn [mbind option_bind].
  destruct (separates_value order kp fwd q (end_query es) e Hq (data_stored _ _ _ _ _ Hok He)) as (-> & Hne & Hb).
  cbn [mbind option_bind within_end]. rewrite <- Hb, Hf. f_equal. destruct fwd; lia.
Qed.

(** [locate] finds the first entry at or after the query, before the end. *)
Lemma locate_spec unique d fwd endq c key loc' cq :
  data_ok kp unique d -> cursor_inv d fwd unique endq c -> cuts order d (mkIndexKeyEntry key loc') cq ->
  exists eof i, locate order d c key loc' = Some (moved c eof i) /\
    at_pos d fwd endq eof i (upto_end kp fwd endq (fun e => if fwd then 0 <=? cq e else cq e <=? 0) d).
Proof.
  intros Hok Hinv Hcut. rewrite locate_unfold. unfold upto_end. rewrite bfilter_and.
  destruct (locate_move_spec unique d fwd endq c (mkIndexKeyEntry key loc') cq Hok Hinv Hcut) as (eof & i & -> & Hres).
  cbn [mbind option_bind]. destruct eof.
  - exists true, i. split; [done|]. exact Hres.
  - destruct Hres as (<- & e & He). rewrite (past_end_check unique d fwd endq c i e Hok Hinv He). cbn [mbind option_bind].
    exists (negb (within fwd endq e)), i. split; [by destruct (negb _)|].
    destruct (within fwd endq e) eqn:Hw; simpl; [by exists e|]. by eapply past_end_ahead.
Qed.

(** The end cursor is set to the first entry at or past the end. *)
Lemma seekEndCursor_spec unique d fwd endq c :
  data_ok kp unique d -> cforward c = fwd -> cunique c = unique -> end_query_ok fwd endq (endState c) ->
  exists es, seekEndCursor order d c = Some {| c with endState := es |} /\ cursor_inv d fwd unique endq {| c with endState := es |}.
Proof.
  intros Hok Hf Hu Hq. unfold seekEndCursor. destruct (endState c) as [es|] eqn:Hes.
  2: { exists None. split; [by destruct c; simpl in *; subst|]. by split. }
  destruct endq as [q|]; [|done]. cbn [end_query_ok] in Hq. destruct (decide (d = [])) as [->|Hne].
  { rewrite bool_decide_true by done. exists (Some es). split; [by destruct c; simpl in *; subst|]. split; [done|done|done|]. intros Hn. by destruct Hn. }
  rewrite bool_decide_false by done.
  pose proof (separates_cuts order kp unique d fwd q _ Hok Hq) as Hcut.
  destruct (set_lower_bound_cut order d _ _ Hcut) as (p & -> & Hp & Hspec). cbn [mbind option_bind].
  assert (forall i e, d !! i = Some e -> within fwd (Some q) e = if fwd then (i <? p)%nat else (p <=? i)%nat) as Hw.
  { intros i e He. destruct (separates_value order kp fwd q _ e Hq (data_stored _ _ _ _ _ Hok He)) as (_ & Hn & Hb).
    pose proof (Hspec i e He). simpl. rewrite <- Hb. destruct fwd; [destruct (Nat.ltb_spec i p)|destruct (Nat.leb_spec p i)]; lia. }
  rewrite Hf. destruct fwd; cbn [negb].
  - eexists. split; [done|]. split; [done|done|done|]. intros _. exists p. split; [done|]. exact Hw.
  - assert (length d <> 0%nat) as Hlen by (destruct d; done).
    assert ((match d !! p with
      | None => Some (if (p =? 0)%nat then length d else pred p)
      | Some e => cmp ← entry_compare order e (end_query es); Some (if 0 <? cmp then (if (p =? 0)%nat then length d else pred p) else p)
      end) = Some (if (p =? 0)%nat then length d else pred p)) as ->.
    { destruct (d !! p) as [e|] eqn:He; [|done]. rewrite (cut_compare _ _ _ _ Hcut p e He). cbn [mbind option_bind].
      destruct (separates_value order kp false q _ e Hq (data_stored _ _ _ _ _ Hok He)) as (_ & Hn & _).
      pose proof (Hspec p e He). by rewrite (proj2 (Z.ltb_lt _ _)) by lia. }
    cbn [mbind option_bind]. eexists. split; [done|]. split; [done|done|done|]. intros _. eexists. split; [done|].
    intros i e He. rewrite (Hw i e He). pose proof (lookup_lt_Some _ _ _ He).
    destruct (Nat.eqb_spec p 0) as [->|Hp0].
    + rewrite Nat.eqb_refl, orb_true_r. done.
    + rewrite (proj2 (Nat.eqb_neq (pred p) _)), orb_false_r by lia. destruct (Nat.leb_spec p i), (Nat.ltb_spec (pred p) i); lia.
Qed.

Lemma beyond_lookup fwd d i e : e ∈ beyond_pos fwd d i -> exists j, d !! j = Some e /\ (if fwd then i < j else j < i)%nat.
Proof.
  unfold beyond_pos. destruct fwd.
  - intros (j & Hj)%list_elem_of_lookup. rewrite lookup_drop in Hj. exists (S i + j)%nat. split; [done|lia].
  - intros He. apply list_elem_of_In, in_rev, list_elem_of_In, list_elem_of_lookup in He as (j & Hj).
    apply lookup_take_Some in Hj as [Hj Hlt]. exists j. split; [done|lia].
Qed.

(** ** What a cursor will return *)

Definition saved_entry c : IndexKeyEntry E := mkIndexKeyEntry (savedKey c) (savedLoc c).

(** [e'] is at the position of [e]. *)
Definition same_pos fwd unique e e' : Prop := stored kp e /\ stored kp e' /\ pos_order kp fwd unique e e' = 0.

Definition upcoming d unique fwd endq c (o : option (IndexKeyEntry E)) l : Prop :=
  data_ok kp unique d /\ cursor_inv d fwd unique endq c /\
  if lastMoveWasRestore c then
    match o with
    | Some e => savedAtEnd c = false /\ same_pos fwd unique e (saved_entry c) /\ at_pos d fwd endq (isEOF c) (it c) l
    | None => savedAtEnd c = true /\ isEOF c = true /\ l = []
    end
  else
    match o with
    | Some e => isEOF c = false /\ exists e', d !! it c = Some e' /\ within fwd endq e' = true /\ same_pos fwd unique e e' /\
        l = List.filter (within fwd endq) (beyond_pos fwd d (it c))
    | None => isEOF c = true /\ l = []
    end.

Definition saved fwd unique c (o : option (IndexKeyEntry E)) endq : Prop :=
  cforward c = fwd /\ cunique c = unique /\ end_query_ok fwd endq (endState c) /\
  match o with
  | Some e => savedAtEnd c = false /\ same_pos fwd unique e (saved_entry c)
  | None => savedAtEnd c = true
  end.

(** A cursor that has just moved returns the entry of its position. *)
Lemma current_upcoming unique d fwd endq c l :
  data_ok kp unique d -> cursor_inv d fwd unique endq c -> lastMoveWasRestore c = false ->
  at_pos d fwd endq (isEOF c) (it c) l ->
  current d c = Some (head l) /\ upcoming d unique fwd endq c (head l) (tail l).
Proof.
  intros Hok Hinv Hr Hat. unfold current, upcoming, at_pos in *. rewrite Hr. destruct (isEOF c); [by subst l|].
  destruct Hat as (e & He & Hw & ->). rewrite (ahead_cons _ _ _ _ He). simpl. rewrite Hw, He. simpl.
  split; [done|]. split_and!; [done|done|done|]. exists e. split_and!; [done|done| |done].
  pose proof (data_stored _ _ _ _ _ Hok He) as Hst. split_and!; [done|done|]. by apply (total_refl (pos_order_total kp fwd unique)).
Qed.

Lemma cursor_next_spec unique d fwd endq c o l :
  upcoming d unique fwd endq c o l ->
  exists c', next d c = Some (c', head l) /\ upcoming d unique fwd endq c' (head l) (tail l).
Proof.
  intros (Hok & Hinv & Hup). unfold next. destruct (lastMoveWasRestore c) eqn:Hr.
  - assert (at_pos d fwd endq (isEOF c) (it c) l) as Hat.
    { destruct o; [by destruct Hup as (_ & _ & ?)|]. by destruct Hup as (_ & -> & ->). }
    set (c' := {| c with lastMoveWasRestore := false |}).
    destruct (current_upcoming unique d fwd endq c' l Hok) as [Hc Hu]; [|done|done|].
    { destruct Hinv as [H1 H2 H3 H4]. by split. }
    rewrite Hc. by exists c'.
  - destruct o as [e|].
    + destruct Hup as (Heof & e' & He & Hw & Hsp & ->).
      destruct (advance_within unique d fwd endq c e' Hok Hinv Heof He Hw) as (eof & i' & -> & Hat & Hend).
      assert ((if atEndPoint (moved c eof i') then {| (moved c eof i') with isEOF := true |} else moved c eof i') = moved c eof i') as ->.
      { destruct eof; [by destruct (atEndPoint _)|]. by rewrite Hend. }
      destruct (current_upcoming unique d fwd endq (moved c eof i') _ Hok (cursor_inv_moved _ _ _ _ _ _ _ Hinv) Hr Hat) as [Hc Hu].
      rewrite Hc. by exists (moved c eof i').
    + destruct Hup as [Heof ->].
      assert (advance d c = c) as -> by (unfold advance; by rewrite Heof).
      assert ((if atEndPoint c then {| c with isEOF := true |} else c) = c) as ->.
      { destruct (atEndPoint c); [|done]. destruct c; simpl in *; by subst. }
      unfold current. rewrite Heof. exists c. split; [done|]. unfold upcoming. rewrite Hr. done.
Qed.

(** A seek to a query that stands for a position. *)
Lemma locate_position unique d fwd endq c q key loc' :
  data_ok kp unique d -> cursor_inv d fwd unique endq c -> separates order kp fwd q (mkIndexKeyEntry key loc') ->
  let l := upto_end kp fwd endq (fun e => negb (before kp fwd q e)) d in
  exists c' r, locate order d c key loc' = Some c' /\
    current d {| c' with lastMoveWasRestore := false |} = Some r /\ r = head l /\
    upcoming d unique fwd endq {| c' with lastMoveWasRestore := false |} (head l) (tail l).
Proof.
  intros Hok Hinv Hsep l.
  destruct (locate_spec unique d fwd endq c key loc' _ Hok Hinv (separates_cuts order kp unique d fwd q _ Hok Hsep))
    as (eof & i & Hloc & Hat).
  assert (upto_end kp fwd endq (fun e => if fwd then 0 <=? compare_with order (mkIndexKeyEntry key loc') e
            else compare_with order (mkIndexKeyEntry key loc') e <=? 0) d = l) as Hl.
  { unfold l, upto_end. apply List.filter_ext_in. intros e He. f_equal.
    assert (stored kp e) as Hst.
    { destruct Hok as (Hst & _). apply (proj1 (Forall_forall _ _) Hst). apply list_elem_of_In.
      unfold scan_list in He. destruct fwd; [done|]. by apply in_rev. }
    destruct (separates_value order kp fwd q _ e Hsep Hst) as (_ & Hne & Hb). rewrite <- Hb. destruct fwd; lia. }
  rewrite Hl in Hat. exists (moved c eof i), (head l). split; [done|].
  destruct (current_upcoming unique d fwd endq {| (moved c eof i) with lastMoveWasRestore := false |} l Hok) as [Hc Hu]; [|done|done|done].
  destruct Hinv as [H1 H2 H3 H4]. by split.
Qed.

(** ** Saving and restoring *)

Lemma compare_with_stored s e :
  stored kp s -> stored kp e ->
  entry_compare order e s = Some (compare_with order s e) /\ Z.sgn (compare_with order s e) = Z.sgn (entry_order kp e s).
Proof.
  intros Hs He. destruct (entry_compare_stored order kp e s Hord He Hs) as (c & Hc & Hsg). unfold compare_with. by rewrite Hc.
Qed.

Lemma stored_cuts unique d s : data_ok kp unique d -> stored kp s -> cuts order d s (compare_with order s).
Proof.
  intros Hok Hs. pose proof Hok as (_ & Hsort & _). split.
  - intros i e He. apply compare_with_stored; [done|]. by eapply data_stored.
  - intros i j a b Hij Ha Hb Hle. pose proof (data_stored _ _ _ _ _ Hok Ha) as Hsa. pose proof (data_stored _ _ _ _ _ Hok Hb) as Hsb.
    destruct (compare_with_stored s a Hs Hsa) as [_ H1]. destruct (compare_with_stored s b Hs Hsb) as [_ H2].
    specialize (Hsort i j a b Hij Ha Hb). pose proof (total_trans_lt_l (entry_order_total kp) a b s Hsa Hsb Hs Hsort). lia.
Qed.

(** The entry with the null record id is compared by its key alone. *)
Lemma compare_saved fwd unique s e :
  stored kp s -> stored kp e ->
  exists c : Z, entry_compare order e (mkIndexKeyEntry (ikey s) (if unique then kNullRepr else loc s)) = Some c /\
    (c = 0 <-> pos_order kp fwd unique s e = 0).
Proof.
  intros Hs He. destruct unique.
  - destruct Hs as (Hls & Hps & Hvs), He as (Hle & Hpe & Hve). unfold entry_compare. cbn [ikey loc]. rewrite <- mask_at_0.
    destruct (compare_keys_plain order kp 0 (ikey e) (ikey s)) as (c & -> & Hc); [by apply orders_start|done..|].
    simpl. unfold scan_key. rewrite scan_cmp_dirs.
    pose proof (total_flip _ _ (scan_cmp_total _ (index_dirs_direction kp)) (ikey s) (ikey e)) as Hf.
    unfold index_dirs in Hf at 1 2. rewrite length_fmap in Hf. specialize (Hf Hls Hle).
    destruct c as [c|]; [|rewrite orb_true_r]; eexists; (split; [done|]); destruct fwd; lia.
  - destruct s as [k l]. cbn [ikey loc]. destruct (compare_with_stored (mkIndexKeyEntry k l) e Hs He) as [-> Hsg].
    eexists. split; [done|]. simpl. unfold scan_order.
    pose proof (total_flip _ _ (entry_order_total kp) _ _ Hs He). destruct fwd; lia.
Qed.

Lemma upto_after unique d fwd endq s :
  data_ok kp unique d -> stored kp s ->
  let T e := if fwd then 0 <=? compare_with order s e else compare_with order s e <=? 0 in
  upto_end kp fwd endq (after kp fwd unique s) d = List.filter (after kp fwd unique s) (upto_end kp fwd endq T d) /\
  (forall e, stored kp e -> T e = true <-> scan_order kp fwd s e <= 0).
Proof.
  intros Hok Hs T.
  assert (forall e, stored kp e -> T e = true <-> scan_order kp fwd s e <= 0) as HT.
  { intros e He. destruct (compare_with_stored s e Hs He) as [_ Hsg]. unfold T, scan_order.
    pose proof (total_flip _ _ (entry_order_total kp) _ _ Hs He). destruct fwd; rewrite Z.leb_le; lia. }
  split; [|done]. unfold upto_end. rewrite <- bfilter_and. apply List.filter_ext_in. intros e He.
  assert (stored kp e) as Hst.
  { destruct Hok as (Hst & _). apply (proj1 (Forall_forall _ _) Hst). apply list_elem_of_In.
    unfold scan_list in He. destruct fwd; [done|]. by apply in_rev. }
  rewrite after_pos. destruct (Z.ltb_spec (pos_order kp fwd unique s e) 0) as [Hlt|]; simpl; [|by rewrite andb_false_r].
  apply pos_scan_lt in Hlt; [|done|done]. rewrite (proj2 (HT e Hst)) by lia. by rewrite andb_true_r.
Qed.

Lemma after_same_pos fwd unique e s x :
  same_pos fwd unique e s -> stored kp x -> after kp fwd unique e x = after kp fwd unique s x.
Proof.
  intros (He & Hs & H0) Hx. rewrite !after_pos. pose proof (total_sgn_eq_l (pos_order_total kp fwd unique) e s x He Hs Hx H0).
  destruct (Z.ltb_spec (pos_order kp fwd unique e x) 0), (Z.ltb_spec (pos_order kp fwd unique s x) 0); lia.
Qed.

(** The entries after the saved one, seen from where the cursor is restored. *)
Lemma restore_position unique d fwd endq s eof i :
  data_ok kp unique d -> stored kp s ->
  at_pos d fwd endq eof i (upto_end kp fwd endq (fun e => if fwd then 0 <=? compare_with order s e else compare_with order s e <=? 0) d) ->
  let l := upto_end kp fwd endq (after kp fwd unique s) d in
  if eof then l = []
  else exists e, d !! i = Some e /\ within fwd endq e = true /\
    if decide (pos_order kp fwd unique s e = 0) then l = List.filter (within fwd endq) (beyond_pos fwd d i)
    else l = List.filter (within fwd endq) (ahead fwd d i).
Proof.
  intros Hok Hs Hat l. destruct (upto_after unique d fwd endq s Hok Hs) as [Hl HT]. fold l in Hl. rewrite Hl. clear Hl.
  unfold at_pos in Hat. destruct eof; [by rewrite Hat|]. destruct Hat as (e & He & Hw & HL). exists e. split_and!; [done|done|].
  pose proof (data_stored _ _ _ _ _ Hok He) as Hst.
  assert (scan_order kp fwd s e <= 0) as Hle.
  { apply HT; [done|]. assert (e ∈ List.filter (within fwd endq) (ahead fwd d i)) as Hin.
    { rewrite (ahead_cons _ _ _ _ He). simpl. rewrite Hw. by left. }
    rewrite <- HL in Hin. unfold upto_end in Hin. apply list_elem_of_In, List.filter_In in Hin as [_ Hin].
    by apply andb_true_iff in Hin as [Hin _]. }
  apply (scan_pos_le kp fwd unique) in Hle; [|done|done]. rewrite HL. rewrite (ahead_cons _ _ _ _ He). simpl. rewrite Hw.
  assert (forall x, x ∈ List.filter (within fwd endq) (beyond_pos fwd d i) -> after kp fwd unique s x = true) as Hall.
  { intros x Hx. apply list_elem_of_In, List.filter_In in Hx as [Hx _]. apply list_elem_of_In in Hx.
    destruct (beyond_lookup _ _ _ _ Hx) as (j & Hj & Hij). rewrite after_pos. apply Z.ltb_lt.
    pose proof (data_pos_lt kp unique fwd d i j e x Hok He Hj Hij) as Hlt. pose proof (data_stored _ _ _ _ _ Hok Hj) as Hsx.
    by apply (total_trans_lt_r (pos_order_total kp fwd unique) s e x). }
  simpl. rewrite (bfilter_all _ _ Hall). rewrite after_pos. destruct (decide (pos_order kp fwd unique s e = 0)) as [->|Hne]; [done|].
  by rewrite (proj2 (Z.ltb_lt _ _)) by lia.
Qed.

Lemma restore_spec unique d fwd endq c o :
  data_ok kp unique d -> saved fwd unique c o endq ->
  let l := match o with Some e => upto_end kp fwd endq (after kp fwd unique e) d | None => [] end in
  exists c', restore order d c = Some c' /\ upcoming d unique fwd endq c' o l.
Proof.
  intros Hok (Hf & Hu & Hq & Hsv) l. unfold restore.
  destruct (seekEndCursor_spec unique d fwd endq c Hok Hf Hu Hq) as (es & -> & Hinv). cbn [mbind option_bind savedAtEnd].
  set (c1 := {| c with endState := es |}) in *. destruct o as [e|].
  2: { rewrite Hsv. eexists. split; [done|]. unfold upcoming. split_and!; [done| |].
       - destruct Hinv as [H1 H2 H3 H4]. by split.
       - simpl. by destruct (lastMoveWasRestore c). }
  destruct Hsv as [Hend Hsp]. rewrite Hend. cbn [savedKey savedLoc c1]. pose proof Hsp as (He & Hs & H0).
  destruct (locate_spec unique d fwd endq c1 (savedKey c) (savedLoc c) _ Hok Hinv (stored_cuts unique d (saved_entry c) Hok Hs))
    as (eof & i & -> & Hat). cbn [mbind option_bind].
  assert (l = upto_end kp fwd endq (after kp fwd unique (saved_entry c)) d) as Hl.
  { unfold l, upto_end. apply List.filter_ext_in. intros x Hx. f_equal. apply after_same_pos; [done|].
    destruct Hok as (Hst & _). apply (proj1 (Forall_forall _ _) Hst). apply list_elem_of_In.
    unfold scan_list in Hx. destruct fwd; [done|]. by apply in_rev. }
  pose proof (restore_position unique d fwd endq (saved_entry c) eof i Hok Hs Hat) as Hpos. cbn zeta in Hpos. rewrite <- Hl in Hpos.
  assert (forall r, cursor_inv d fwd unique endq {| (moved c1 eof i) with lastMoveWasRestore := r |}) as Hinv'.
  { intros r. destruct Hinv as [H1 H2 H3 H4]. by split. }
  cbn [moved isEOF]. destruct eof.
  { eexists. split; [done|]. split_and!; [done|apply Hinv'|]. simpl. by split_and!. }
  destruct Hpos as (e' & He' & Hw & Hpos). cbn [moved it cunique savedKey savedLoc c1]. rewrite He'. cbn [mbind option_bind]. rewrite Hu.
  destruct (compare_saved fwd unique (saved_entry c) e' Hs (data_stored _ _ _ _ _ Hok He')) as (cmp & Hcmp & Hz).
  cbn [ikey loc saved_entry] in Hcmp. rewrite Hcmp. cbn [mbind option_bind]. eexists. split; [done|].
  split_and!; [done|by pose proof (Hinv' (negb (cmp =? 0))) as Hi; cbn [moved cunique c1] in Hi; rewrite Hu in Hi|].
  cbn [lastMoveWasRestore isEOF it savedAtEnd moved].
  destruct (Z.eqb_spec cmp 0) as [->|Hne]; cbn [negb].
  - rewrite decide_True in Hpos by tauto. split; [done|]. exists e'. split_and!; [done|done| |done].
    pose proof (data_stored _ _ _ _ _ Hok He'). split_and!; [done|done|].
    pose proof (total_sgn_eq_l (pos_order_total kp fwd unique) e (saved_entry c) e') as Heq. tauto || (specialize (Heq He Hs ltac:(done) H0); lia).
  - rewrite decide_False in Hpos by tauto. split_and!; [done|done|]. by exists e'.
Qed.

Lemma save_spec unique d fwd endq c o l :
  upcoming d unique fwd endq c o l -> exists c', save d c = Some c' /\ saved fwd unique c' o endq.
Proof.
  intros (Hok & [Hf Hu Hq _] & Hup). unfold save. destruct (lastMoveWasRestore c).
  { exists c. split; [done|]. destruct o; split_and!; try done; naive_solver. }
  destruct o as [e|].
  - destruct Hup as (-> & e' & He & Hw & Hsp & _). rewrite He. cbn [mbind option_bind]. eexists. split; [done|].
    split_and!; [done|done|done|done|]. unfold saved_entry. simpl. by destruct e'.
  - destruct Hup as [-> _]. eexists. split; [done|]. by split_and!.
Qed.

(** ** The instance *)

#[refine] Instance EphemeralForTest_SortedData : SortedDataInterface kp (EphemeralForTestBtreeImpl E) (Cursor E) := {
  sd_entries := data;
  sd_unique := isUnique;
  sd_newCursor := newCursor;
  sd_setEndPosition t := setEndPosition order (data t);
  sd_seek t := seek order (data t);
  sd_seekPoint t := seekPoint order (data t);
  sd_next t := next (data t);
  sd_save t := save (data t);
  sd_saveUnpositioned := saveUnpositioned;
  sd_restore t := restore order (data t);
  sd_cursor t fwd endq c := cursor_inv (data t) fwd (isUnique t) endq c;
  sd_upcoming t fwd endq c o l := upcoming (data t) (isUnique t) fwd endq c o l;
  sd_saved := saved;
}.
Proof.
  - intros t fwd Hok. by split.
  - intros t fwd endq c key inclusive Hok [Hf Hu _ _] Hne Hlen. unfold setEndPosition. rewrite bool_decide_false by done. rewrite Hf.
    destruct (seekEndCursor_spec (isUnique t) (data t) fwd (Some (key_query key (negb inclusive)))
      {| c with endState := Some (mkEndState (mkIndexKeyEntry (stripFieldNames key) (if Bool.eqb fwd inclusive then kMaxRepr else kMinRepr)) None) |})
      as (es & Hs & Hinv); [done|done|done| |].
    { cbn [end_query_ok endState end_query]. pose proof (separates_key order kp Hord fwd key (negb inclusive) Hne Hlen) as Hsep.
      by destruct fwd, inclusive. }
    cbn [endState] in Hs. rewrite Hf in Hs. rewrite Hs. eexists. split; [done|]. by rewrite Hf in Hinv.
  - intros t fwd endq c key inclusive Hok Hinv Hne Hlen. unfold seek. rewrite bool_decide_false by done. rewrite (ci_forward _ _ _ _ _ Hinv).
    destruct (locate_position (isUnique t) (data t) fwd endq c (key_query key inclusive) _ _ Hok Hinv (separates_key order kp Hord fwd key inclusive Hne Hlen))
      as (c' & r & -> & Hc & -> & Hup). cbn [mbind option_bind]. rewrite Hc. by eexists.
  - intros t fwd endq c sp q Hok Hinv Hq Hcov Hlen. unfold seekPoint. rewrite (ci_forward _ _ _ _ _ Hinv).
    rewrite (makeQueryObject_spec sp fwd q Hq Hlen). cbn [mbind option_bind].
    destruct (locate_position (isUnique t) (data t) fwd endq c q _ _ Hok Hinv (separates_query order kp Hord fwd q Hcov))
      as (c' & r & -> & Hc & -> & Hup). cbn [mbind option_bind]. rewrite Hc. by eexists.
  - intros t fwd endq c o l. apply cursor_next_spec.
  - intros t fwd endq c o l (_ & Hinv & _). done.
  - intros t fwd endq c o l. apply save_spec.
  - intros t fwd endq c [Hf Hu Hq _]. by split_and!.
  - intros t fwd endq c o Hok. apply restore_spec. done.
Defined.
End cursor.
