(* ===== verification/EphemeralBtreeSpec.v ===== *)
(** * The in-memory index holds what was inserted

    The data of the index stays sorted, and unique where it should be; [insert] and
    [unindex] add and remove exactly one entry; aborting a unit of work brings the data
    back; the bulk builder builds the same set. *)

From Stdlib Require Import ZArith Lia.
From stdpp Require Import prelude.
From S2P Require Import Prelude TotalOrder CompareNumbers Bson ElementOrder Interval IndexBounds IndexBoundsChecker BoundsCheckerSpec CheckKey IndexEntryComparison IndexEntryOrder SortedDataInterface EphemeralBtree EphemeralCursor EphemeralCursorSpec.

Open Scope Z_scope.

Section sets.
Context `{EO : ElementOrder E}.
Variables (order : Z) (kp : list E).
Hypothesis Hord : orders order kp.
Implicit Types (e x y : IndexKeyEntry E) (d : list (IndexKeyEntry E)) (key : list E) (unique : bool).

Abbreviation cmp := (entry_order kp) (only parsing).

(** ** Searching *)

Lemma order_flip x y : stored kp x -> stored kp y -> Z.sgn (cmp y x) = - Z.sgn (cmp x y).
Proof. apply (total_flip _ _ (entry_order_total kp)). Qed.

Lemma set_lower_bound_stored unique d e :
  data_ok kp unique d -> stored kp e ->
  exists p, set_lower_bound order d e = Some p /\ (p <= length d)%nat /\ forall i x, d !! i = Some x -> ((i < p)%nat <-> cmp x e < 0).
Proof.
  intros Hok He. destruct (set_lower_bound_cut order d e _ (stored_cuts order kp Hord unique d e Hok He)) as (p & Hp & Hle & Hspec).
  exists p. split_and!; [done|done|]. intros i x Hx. rewrite (Hspec i x Hx).
  destruct (compare_with_stored order kp Hord e x He (data_stored kp unique d i x Hok Hx)) as [_ Hsg]. lia.
Qed.

Lemma entry_less_stored x y : stored kp x -> stored kp y -> entry_less order x y = Some (cmp x y <? 0).
Proof.
  intros Hx Hy. unfold entry_less. destruct (entry_compare_stored order kp x y Hord Hx Hy) as (c & -> & Hc). cbn [mbind option_bind].
  f_equal. lia.
Qed.

Lemma set_find_spec unique d e :
  data_ok kp unique d -> stored kp e ->
  exists i, set_find order d e = Some i /\
    ((i = length d /\ forall x, x ∈ d -> cmp x e <> 0) \/ exists x, d !! i = Some x /\ cmp x e = 0).
Proof.
  intros Hok He. unfold set_find. destruct (set_lower_bound_stored unique d e Hok He) as (p & -> & Hp & Hspec). cbn [mbind option_bind].
  destruct (d !! p) as [y|] eqn:Hy.
  - pose proof (data_stored kp unique d p y Hok Hy) as Hst. rewrite entry_less_stored by done. cbn [mbind option_bind].
    pose proof (Hspec p y Hy). pose proof (order_flip e y He Hst). destruct (Z.ltb_spec (cmp e y) 0).
    + eexists. split; [done|]. left. split; [done|]. intros x (i & Hx)%list_elem_of_lookup Hz. pose proof (Hspec i x Hx).
      destruct (Nat.lt_total i p) as [Hlt|[->|Hgt]]; [lia|congruence || (simplify_eq; lia)|].
      pose proof Hok as (_ & Hs & _). specialize (Hs p i y x Hgt Hy Hx).
      pose proof (data_stored kp unique d i x Hok Hx) as Hstx. pose proof (total_trans_lt_l (entry_order_total kp) y x e Hst Hstx He Hs). lia.
    + eexists. split; [done|]. right. exists y. split; [done|lia].
  - eexists. split; [done|]. left. split; [done|]. intros x (i & Hx)%list_elem_of_lookup Hz. pose proof (Hspec i x Hx).
    apply lookup_ge_None in Hy. apply lookup_lt_Some in Hx. lia.
Qed.

(** ** Inserting *)

Lemma take_insert_lookup d p e i x :
  (p <= length d)%nat -> (take p d ++ e :: drop p d) !! i = Some x ->
  (i < p)%nat /\ d !! i = Some x \/ i = p /\ x = e \/ (p < i)%nat /\ d !! pred i = Some x.
Proof.
  intros Hp Hx. destruct (decide (i < p)%nat) as [Hlt|Hge].
  - left. rewrite lookup_app_l in Hx by (rewrite length_take; lia). by rewrite lookup_take_lt in Hx by done.
  - right. rewrite lookup_app_r in Hx by (rewrite length_take; lia). rewrite length_take, Nat.min_l in Hx by lia.
    destruct (decide (i = p)) as [->|Hne]; [left; rewrite Nat.sub_diag in Hx; by simplify_eq/=|]. right. split; [lia|].
    replace (i - p)%nat with (S (i - p - 1)) in Hx by lia. simpl in Hx. rewrite lookup_drop in Hx. rewrite <- Hx. f_equal. lia.
Qed.

Lemma insert_sorted d p e :
  data_ok kp false d -> stored kp e -> (p <= length d)%nat ->
  (forall i x, d !! i = Some x -> ((i < p)%nat <-> cmp x e < 0)) -> (forall x, x ∈ d -> cmp x e <> 0) ->
  data_ok kp false (take p d ++ e :: drop p d).
Proof.
  intros (Hst & Hs & _) He Hp Hspec Hne. split_and!; [| |done].
  - apply Forall_app. split; [by apply Forall_take|]. constructor; [done|by apply Forall_drop].
  - intros i j a b Hij Ha Hb. apply take_insert_lookup in Ha, Hb; [|done|done].
    assert (forall k x, d !! k = Some x -> stored kp x /\ ((k < p)%nat -> cmp x e < 0) /\ ((p <= k)%nat -> cmp e x < 0)) as Hx.
    { intros k x Hx. pose proof (proj1 (Forall_lookup _ _) Hst k x Hx) as Hsx. pose proof (order_flip e x He Hsx). pose proof (Hspec k x Hx).
      pose proof (Hne x ltac:(by eapply list_elem_of_lookup_2)). split_and!; [done|lia|lia]. }
    destruct Ha as [[? Ha]|[[-> ->]|[? Ha]]], Hb as [[? Hb]|[[-> ->]|[? Hb]]]; try lia.
    + by apply (Hs i j).
    + by apply (Hx i a Ha).
    + apply (Hs i (pred j)); [lia|done|done].
    + apply (Hx _ b Hb). lia.
    + apply (Hs (pred i) (pred j)); [lia|done|done].
Qed.

(** The set with one more entry, unless it has an equal one. *)
Lemma set_insert_spec d e :
  data_ok kp false d -> stored kp e ->
  exists d' b, set_insert order d e = Some (d', b) /\ data_ok kp false d' /\
    if (b : bool) then (forall x, x ∈ d -> cmp x e <> 0) /\ exists p, (p <= length d)%nat /\ (forall i x, d !! i = Some x -> ((i < p)%nat <-> cmp x e < 0)) /\ d' = take p d ++ e :: drop p d
    else d' = d /\ exists x, x ∈ d /\ cmp x e = 0.
Proof.
  intros Hok He. unfold set_insert. destruct (set_find_spec false d e Hok He) as (i & -> & Hi). cbn [mbind option_bind].
  destruct Hi as [[-> Hne]|(x & Hx & H0)].
  - rewrite Nat.eqb_refl. destruct (set_lower_bound_stored false d e Hok He) as (p & -> & Hp & Hspec). cbn [mbind option_bind].
    eexists _, true. split_and!; [done|by apply insert_sorted|done|by exists p; split_and!].
  - pose proof (lookup_lt_Some _ _ _ Hx). rewrite (proj2 (Nat.eqb_neq _ _)) by lia. eexists _, false.
    split_and!; [done|done|done|]. exists x. split; [by eapply list_elem_of_lookup_2|done].
Qed.

(** ** Removing *)

Lemma set_upper_bound_stored d e :
  Forall (stored kp) d -> (forall i j a b, (i < j)%nat -> d !! i = Some a -> d !! j = Some b -> cmp a b < 0) -> stored kp e ->
  exists p, set_upper_bound order d e = Some p /\ (p <= length d)%nat /\ forall i x, d !! i = Some x -> ((i < p)%nat <-> cmp x e <= 0).
Proof.
  intros Hst Hs He. induction d as [|y d IH]; [by exists 0%nat|]. apply Forall_cons in Hst as [Hy Hst]. cbn [set_upper_bound].
  rewrite entry_less_stored by done. cbn [mbind option_bind]. pose proof (order_flip e y He Hy) as Hf.
  destruct (Z.ltb_spec (cmp e y) 0) as [Hlt|Hge].
  - exists 0%nat. split_and!; [done|lia|]. intros [|i] x Hx; [simplify_eq/=; lia|]. split; [lia|]. intros Hle.
    pose proof (proj1 (Forall_lookup _ _) Hst i x Hx) as Hsx. specialize (Hs 0%nat (S i) y x ltac:(lia) eq_refl Hx).
    pose proof (total_trans _ _ (entry_order_total kp) y x e Hy Hsx He). lia.
  - destruct IH as (p & -> & Hp & Hspec); [done|intros i j a b Hij; apply (Hs (S i) (S j)); lia|]. exists (S p). split_and!; [done|simpl; lia|].
    intros [|i] x Hx; [simplify_eq/=; lia|]. rewrite <- (Hspec i x Hx). lia.
Qed.

Lemma delete_sorted unique d i : data_ok kp unique d -> data_ok kp unique (take i d ++ drop (S i) d).
Proof.
  intros (Hst & Hs & Hu). rewrite <- delete_take_drop.
  assert (forall j x, delete i d !! j = Some x -> d !! (if decide (j < i)%nat then j else S j) = Some x) as Hlk.
  { intros j x Hx. case_decide; [by rewrite list_lookup_delete_lt in Hx by done|]. by rewrite list_lookup_delete_ge in Hx by lia. }
  split_and!.
  - apply Forall_lookup. intros j x Hx. apply Hlk in Hx. by eapply (proj1 (Forall_lookup _ _) Hst).
  - intros j k a b Hjk Ha Hb. apply Hlk in Ha, Hb. eapply Hs; [|done|done]. repeat case_decide; lia.
  - intros Hun a b Ha Hb. apply list_elem_of_lookup in Ha as [j Ha], Hb as [k Hb]. apply Hlk in Ha, Hb.
    apply Hu; [done|by eapply list_elem_of_lookup_2..].
Qed.

(** The set without the entry, if it has one that is equal. *)
Lemma set_erase_spec unique d e :
  data_ok kp unique d -> stored kp e ->
  exists d' n, set_erase order d e = Some (d', n) /\ data_ok kp unique d' /\
    ((n = 0%nat /\ d' = d /\ forall x, x ∈ d -> cmp x e <> 0) \/
     (n = 1%nat /\ exists i x, d !! i = Some x /\ cmp x e = 0 /\ d' = take i d ++ drop (S i) d)).
Proof.
  intros Hok He. pose proof Hok as (Hst & Hs & _). unfold set_erase.
  destruct (set_lower_bound_stored unique d e Hok He) as (p & -> & Hp & Hlo). cbn [mbind option_bind].
  destruct (set_upper_bound_stored d e Hst Hs He) as (p2 & -> & Hp2 & Hhi). cbn [mbind option_bind].
  assert ((exists x, d !! p = Some x /\ cmp x e = 0) \/ ~ (exists x, d !! p = Some x /\ cmp x e = 0)) as [(x & Hx & H0)|Hno].
  { destruct (d !! p) as [x|]; [|right; naive_solver]. destruct (decide (cmp x e = 0)); [left|right]; naive_solver. }
  - assert (p2 = S p) as ->.
    { pose proof (Hhi p x Hx). destruct (decide (S p < p2)%nat) as [Hlt|]; [|lia].
      destruct (lookup_lt_is_Some_2 d (S p)) as [y Hy]; [lia|]. pose proof (Hhi (S p) y Hy).
      pose proof (proj1 (Forall_lookup _ _) Hst _ _ Hx) as Hsx. pose proof (proj1 (Forall_lookup _ _) Hst _ _ Hy) as Hsy.
      pose proof (total_trans_lt_l (entry_order_total kp) x y e Hsx Hsy He (Hs p (S p) x y ltac:(lia) Hx Hy)). lia. }
    eexists _, _. split; [done|]. split; [by apply delete_sorted|]. right. split; [lia|]. by exists p, x.
  - assert (forall i x, d !! i = Some x -> cmp x e <> 0) as Hne.
    { intros i x Hx H0. pose proof (Hlo i x Hx). pose proof (proj1 (Forall_lookup _ _) Hst _ _ Hx) as Hsx.
      destruct (decide (i = p)) as [->|Hip]; [apply Hno; by exists x|].
      destruct (lookup_lt_is_Some_2 d p) as [y Hy]; [apply lookup_lt_Some in Hx; lia|].
      pose proof (proj1 (Forall_lookup _ _) Hst _ _ Hy) as Hsy. pose proof (Hlo p y Hy).
      pose proof (total_trans_lt_l (entry_order_total kp) y x e Hsy Hsx He (Hs p i y x ltac:(lia) Hy Hx)). lia. }
    assert (p2 = p) as ->.
    { destruct (Nat.lt_total p2 p) as [Hlt|[->|Hlt]]; [|done|].
      - destruct (lookup_lt_is_Some_2 d p2) as [y Hy]; [lia|]. pose proof (Hlo p2 y Hy). pose proof (Hhi p2 y Hy). lia.
      - destruct (lookup_lt_is_Some_2 d p) as [y Hy]; [lia|]. pose proof (Hlo p y Hy). pose proof (Hhi p y Hy). pose proof (Hne p y Hy). lia. }
    eexists _, _. split; [done|]. rewrite take_drop. split; [done|]. left. split_and!; [lia|done|].
    intros x (i & Hx)%list_elem_of_lookup. by apply (Hne i).
Qed.

(** ** Duplicate keys *)

Abbreviation keycmp := (scan_cmp (index_dirs kp)) (only parsing).

Definition key_ok key : Prop := length key = length kp /\ plain key.

Lemma keycmp_flip a b : length a = length kp -> length b = length kp -> Z.sgn (keycmp b a) = - Z.sgn (keycmp a b).
Proof.
  intros Ha Hb. pose proof (total_flip _ _ (scan_cmp_total _ (index_dirs_direction kp)) a b) as Hf.
  unfold index_dirs in Hf at 1 2. rewrite length_fmap in Hf. by apply Hf.
Qed.

(** An entry with the null record id stands for all entries with its key. *)
Lemma compare_null key x :
  key_ok key -> stored kp x ->
  exists c c', entry_compare order x (mkIndexKeyEntry key kNullRepr) = Some c /\ entry_compare order (mkIndexKeyEntry key kNullRepr) x = Some c' /\
    Z.sgn c = Z.sgn (keycmp (ikey x) key) /\ Z.sgn c' = Z.sgn (keycmp key (ikey x)).
Proof.
  intros [Hlk Hpk] (Hlx & Hpx & Hvx). unfold entry_compare. cbn [ikey loc]. rewrite <- mask_at_0.
  destruct (compare_keys_plain order kp 0 (ikey x) key) as (c & -> & Hc); [by apply orders_start|done..|].
  destruct (compare_keys_plain order kp 0 key (ikey x)) as (c' & -> & Hc'); [by apply orders_start|done..|].
  cbn [mbind option_bind RecordId_isNull kNullRepr]. change (0 =? 0) with true. rewrite orb_true_r. simpl.
  destruct c as [c|], c' as [c'|]; eexists _, _; split_and!; try done; naive_solver lia.
Qed.

Lemma isDup_spec d key loc' :
  data_ok kp true d -> key_ok key ->
  exists b, isDup order d key loc' = Some b /\ (b = true <-> exists x, x ∈ d /\ keycmp (ikey x) key = 0 /\ loc x <> loc').
Proof.
  intros Hok Hkey. pose proof Hok as (Hst & Hs & Hu). set (q := mkIndexKeyEntry key kNullRepr).
  assert (cuts order d q (compare_with order q)) as Hcut.
  { split.
    - intros i x Hx. destruct (compare_null key x Hkey (data_stored _ _ _ _ _ Hok Hx)) as (c & c' & Hc & _). unfold compare_with, q. by rewrite Hc.
    - intros i j a b Hij Ha Hb Hle. pose proof (data_stored _ _ _ _ _ Hok Ha) as Hsa. pose proof (data_stored _ _ _ _ _ Hok Hb) as Hsb.
      destruct (compare_null key a Hkey Hsa) as (ca & _ & Hca & _ & Hga & _). destruct (compare_null key b Hkey Hsb) as (cb & _ & Hcb & _ & Hgb & _).
      unfold compare_with, q in *. rewrite Hca, Hcb in *. simpl in *.
      pose proof (data_pos_lt kp true true d i j a b Hok Ha Hb Hij) as Hlt. simpl in Hlt. unfold scan_key in Hlt. rewrite scan_cmp_dirs in Hlt.
      pose proof (total_trans_lt_l (scan_cmp_total _ (index_dirs_direction kp)) (ikey a) (ikey b) key) as Htr.
      unfold index_dirs in Htr at 1 2 3. rewrite length_fmap in Htr. destruct Hsa as (Hla & _), Hsb as (Hlb & _), Hkey as [Hlk _].
      specialize (Htr Hla Hlb Hlk). lia. }
  unfold isDup, set_find. fold q. destruct (set_lower_bound_cut order d q _ Hcut) as (p & -> & Hp & Hspec). cbn [mbind option_bind].
  assert (forall i x, d !! i = Some x -> keycmp (ikey x) key = 0 -> i = p) as Honly.
  { intros i x Hx H0. pose proof (data_stored _ _ _ _ _ Hok Hx) as Hsx. destruct (compare_null key x Hkey Hsx) as (c & _ & Hc & _ & Hg & _).
    pose proof (Hspec i x Hx) as Hsp. unfold compare_with, q in Hsp. rewrite Hc in Hsp. simpl in Hsp.
    destruct (Nat.lt_total i p) as [Hlt|[->|Hgt]]; [lia|done|]. destruct (lookup_lt_is_Some_2 d p) as [y Hy]; [apply lookup_lt_Some in Hx; lia|].
    pose proof (cut_mono _ _ _ _ Hcut p i y x Hgt Hy Hx) as Hm. unfold compare_with, q in Hm. rewrite Hc in Hm. simpl in Hm.
    pose proof (Hspec p y Hy) as Hy'. unfold compare_with, q in Hy'. lia. }
  destruct (d !! p) as [y|] eqn:Hy.
  2: { cbn [mbind option_bind]. rewrite lookup_ge_None_2 by lia. eexists. split; [done|]. split; [done|].
       intros (x & Hx & H0 & _). apply list_elem_of_lookup in Hx as [i Hx]. rewrite (Honly i x Hx H0) in Hx. congruence. }
  pose proof (data_stored _ _ _ _ _ Hok Hy) as Hsy. destruct (compare_null key y Hkey Hsy) as (c & c' & Hc & Hc' & Hg & Hg').
  unfold entry_less. fold q in Hc'. rewrite Hc'. cbn [mbind option_bind].
  destruct Hsy as (Hly & _). pose proof (keycmp_flip (ikey y) key Hly (proj1 Hkey)) as Hfl. pose proof (Hspec p y Hy) as Hyp.
  unfold compare_with in Hyp. fold q in Hc. rewrite Hc in Hyp. simpl in Hyp.
  destruct (Z.ltb_spec c' 0).
  - rewrite lookup_ge_None_2 by lia. eexists. split; [done|]. split; [done|]. intros (x & Hx & H0 & _).
    apply list_elem_of_lookup in Hx as [i Hx]. rewrite (Honly i x Hx H0) in Hx. simplify_eq. lia.
  - rewrite Hy. eexists. split; [done|]. rewrite negb_true_iff, Z.eqb_neq. split.
    + intros Hne. exists y. split_and!; [by eapply list_elem_of_lookup_2|lia|done].
    + intros (x & Hx & H0 & Hne). apply list_elem_of_lookup in Hx as [i Hx]. rewrite (Honly i x Hx H0) in Hx. by simplify_eq.
Qed.
(** ** The operations of the index *)

Implicit Types (t : EphemeralForTestBtreeImpl E) (ch : list (IndexChange E)).

Definition btree_ok t : Prop := data_ok kp (isUnique t) (data t).

Lemma plain_names key : plain key -> hasFieldNames key = false.
Proof.
  intros Hp. unfold hasFieldNames. apply not_true_iff_false. intros (x & Hx & Hne)%existsb_exists.
  apply list_elem_of_In in Hx. rewrite (proj1 (Forall_forall _ _) Hp x Hx) in Hne. done.
Qed.

Lemma elem_of_inserted d p e x : x ∈ take p d ++ e :: drop p d <-> x = e \/ x ∈ d.
Proof. rewrite elem_of_app, elem_of_cons. rewrite <- (take_drop p d) at 3. rewrite elem_of_app. tauto. Qed.

Lemma data_ok_weaken unique d : data_ok kp unique d -> data_ok kp false d.
Proof. intros (H1 & H2 & _). by split_and!. Qed.

(** The data after an insertion that does not violate uniqueness. *)
Lemma inserted_ok unique d p e :
  data_ok kp unique d -> data_ok kp false (take p d ++ e :: drop p d) ->
  (unique = true -> forall x, x ∈ d -> keycmp (ikey x) (ikey e) <> 0) -> stored kp e -> data_ok kp unique (take p d ++ e :: drop p d).
Proof.
  intros (Hst & _ & Hu) (H1 & H2 & _) Hnew He. split_and!; [done|done|]. intros Hun a b Ha Hb Hab.
  apply elem_of_inserted in Ha, Hb.
  assert (forall x, x ∈ d -> length (ikey x) = length kp) as Hlen by (intros x Hx; by apply (proj1 (Forall_forall _ _) Hst x Hx)).
  destruct Ha as [->|Ha], Hb as [->|Hb]; [done| | |by apply Hu].
  - exfalso. apply (Hnew Hun b Hb). pose proof (keycmp_flip (ikey e) (ikey b) (proj1 He) (Hlen b Hb)). lia.
  - exfalso. by apply (Hnew Hun a Ha).
Qed.

(** A step of the data of an index and the change that undoes it. *)
Inductive data_step : list (IndexKeyEntry E) -> list (IndexKeyEntry E) -> list (IndexChange E) -> Prop :=
| step_none d : data_step d d []
| step_insert d p e : stored kp e -> (forall x, x ∈ d -> cmp x e <> 0) -> (p <= length d)%nat ->
    (forall i x, d !! i = Some x -> ((i < p)%nat <-> cmp x e < 0)) ->
    data_step d (take p d ++ e :: drop p d) [mkIndexChange e true]
| step_erase d i x e : stored kp e -> d !! i = Some x -> cmp x e = 0 ->
    data_step d (take i d ++ drop (S i) d) [mkIndexChange e false].

Definition added (t t' : EphemeralForTestBtreeImpl E) e : Prop :=
  exists p, data t' = take p (data t) ++ e :: drop p (data t) /\ currentKeySize t' = currentKeySize t + objsize (ikey e).

Lemma btree_insert_run t ch key loc' :
  btree_ok t -> key_ok key -> isValid loc' = true ->
  let e := mkIndexKeyEntry key loc' in
  exists t' ch' st, btree_insert order t ch key loc' (negb (isUnique t)) = Some (t', ch ++ ch', st) /\
    btree_ok t' /\ isUnique t' = isUnique t /\ data_step (data t) (data t') ch' /\
    match st with
    | DuplicateKey => t' = t /\ ch' = [] /\ isUnique t = true /\ exists x, x ∈ data t /\ keycmp (ikey x) key = 0 /\ loc x <> loc'
    | BtreeOK => (isUnique t = true -> forall x, x ∈ data t -> keycmp (ikey x) key = 0 -> loc x = loc') /\
        (t' = t /\ ch' = [] /\ (exists x, x ∈ data t /\ cmp x e = 0) \/
         (forall x, x ∈ data t -> cmp x e <> 0) /\ ch' = [mkIndexChange e true] /\ added t t' e)
    | InternalError => False
    end.
Proof.
  intros Hok Hkey Hv e. unfold btree_insert. rewrite invariant_bind by done.
  rewrite invariant_bind by (rewrite plain_names; [done|apply Hkey]).
  assert (stored kp e) as He by (destruct Hkey; by split_and!).
  assert (exists b, (if negb (negb (isUnique t)) then isDup order (data t) key loc' else Some false) = Some b /\
    (b = true <-> isUnique t = true /\ exists x, x ∈ data t /\ keycmp (ikey x) key = 0 /\ loc x <> loc')) as (b & -> & Hb).
  { unfold btree_ok in Hok. destruct (isUnique t); simpl; [|by exists false; naive_solver].
    destruct (isDup_spec (data t) key loc' Hok Hkey) as (b & -> & Hb). exists b. naive_solver. }
  cbn [mbind option_bind]. destruct b.
  { exists t, [], DuplicateKey. rewrite app_nil_r. split_and!; [done|done|done|constructor|done|done|by apply Hb|by apply Hb]. }
  assert (isUnique t = true -> forall x, x ∈ data t -> keycmp (ikey x) key = 0 -> loc x = loc') as Hsame.
  { intros Hu x Hx H0. destruct (decide (loc x = loc')); [done|]. assert (false = true); [|done]. apply Hb. split; [done|]. by exists x. }
  cbv zeta. fold e. destruct (set_insert_spec (data t) e (data_ok_weaken _ _ Hok) He) as (d' & b & -> & Hd' & Hres). cbn [mbind option_bind]. destruct b.
  - destruct Hres as [Hne (p & Hp & Hspec & ->)].
    eexists _, _, BtreeOK. split; [done|]. split_and!; [|done|by apply step_insert|done|right; split_and!; [done|done|by exists p]].
    apply inserted_ok; [done|done| |done]. intros Hu x Hx H0. apply (Hne x Hx). unfold entry_order, lex.
    change (ikey e) with key in *. rewrite H0. simpl. rewrite (Hsame Hu x Hx H0). lia.
  - destruct Hres as [-> Hx]. exists t, [], BtreeOK. rewrite app_nil_r. split_and!; [by destruct t|done|done|constructor|done|by left].
Qed.

Lemma unindex_run t ch key loc' :
  btree_ok t -> key_ok key -> isValid loc' = true ->
  let e := mkIndexKeyEntry key loc' in
  exists t' ch', unindex order t ch key loc' = Some (t', ch ++ ch') /\
    btree_ok t' /\ isUnique t' = isUnique t /\ data_step (data t) (data t') ch' /\
    ((t' = t /\ ch' = [] /\ forall x, x ∈ data t -> cmp x e <> 0) \/
     (ch' = [mkIndexChange e false] /\ exists i x, data t !! i = Some x /\ cmp x e = 0 /\ data t' = take i (data t) ++ drop (S i) (data t) /\
       currentKeySize t' = currentKeySize t - objsize key)).
Proof.
  intros Hok Hkey Hv e. unfold unindex. rewrite invariant_bind by done.
  rewrite invariant_bind by (rewrite plain_names; [done|apply Hkey]).
  assert (stored kp e) as He by (destruct Hkey; by split_and!).
  cbv zeta. fold e. destruct (set_erase_spec (isUnique t) (data t) e Hok He) as (d' & n & -> & Hd' & Hres). cbn [mbind option_bind].
  destruct Hres as [(-> & -> & Hne)|(-> & i & x & Hx & H0 & ->)].
  - rewrite invariant_bind by done. exists t, []. rewrite app_nil_r. split_and!; [by destruct t|done|done|constructor|by left].
  - rewrite invariant_bind by done. eexists _, _. split; [done|]. split_and!; [done|done|by eapply step_erase|right; split; [done|by exists i, x]].
Qed.

(** ** Rollback *)

(** The same entries in the order of the index. *)
Definition same_data d d' : Prop := Forall2 (fun a b => stored kp a /\ stored kp b /\ cmp a b = 0) d d'.

Lemma same_data_lookup d d' i x' :
  same_data d d' -> d' !! i = Some x' -> exists x, d !! i = Some x /\ stored kp x /\ stored kp x' /\ cmp x x' = 0.
Proof. intros Hs Hx. destruct (Forall2_lookup_r _ _ _ _ _ Hs Hx) as (x & Hx' & H). by exists x. Qed.

Lemma cmp_eqv x x' y : stored kp x -> stored kp x' -> stored kp y -> cmp x x' = 0 ->
  Z.sgn (cmp x y) = Z.sgn (cmp x' y) /\ Z.sgn (cmp y x) = Z.sgn (cmp y x').
Proof.
  intros Hx Hx' Hy H0. split; [by apply (total_sgn_eq_l (entry_order_total kp))|by apply (total_sgn_eq_r (entry_order_total kp))].
Qed.

Lemma same_data_ok d d' : same_data d d' -> data_ok kp false d -> data_ok kp false d'.
Proof.
  intros Hs (_ & Hsort & _). split_and!; [| |done].
  - apply Forall_lookup. intros i x Hx. by destruct (same_data_lookup d d' i x Hs Hx) as (? & ? & ? & ? & ?).
  - intros i j a b Hij Ha Hb. destruct (same_data_lookup d d' i a Hs Ha) as (a0 & Ha0 & Hsa0 & Hsa & Hea).
    destruct (same_data_lookup d d' j b Hs Hb) as (b0 & Hb0 & Hsb0 & Hsb & Heb). specialize (Hsort i j a0 b0 Hij Ha0 Hb0).
    destruct (cmp_eqv a0 a b0 Hsa0 Hsa Hsb0 Hea). destruct (cmp_eqv b0 b a Hsb0 Hsb Hsa Heb). lia.
Qed.

Lemma same_data_refl d : Forall (stored kp) d -> same_data d d.
Proof.
  intros Hst. apply Forall_Forall2_diag. eapply Forall_impl; [exact Hst|]. intros x Hx. split_and!; [done|done|].
  by apply (total_refl (entry_order_total kp)).
Qed.

(** The position of an entry in sorted data is determined. *)
Lemma position_unique d e p p' :
  (p <= length d)%nat -> (p' <= length d)%nat ->
  (forall i x, d !! i = Some x -> ((i < p)%nat <-> cmp x e < 0)) -> (forall i x, d !! i = Some x -> ((i < p')%nat <-> cmp x e < 0)) -> p = p'.
Proof.
  intros Hp Hp' H H'. destruct (Nat.lt_total p p') as [Hlt|[->|Hlt]]; [|done|].
  - destruct (lookup_lt_is_Some_2 d p) as [x Hx]; [lia|]. pose proof (H p x Hx). pose proof (H' p x Hx). lia.
  - destruct (lookup_lt_is_Some_2 d p') as [x Hx]; [lia|]. pose proof (H p' x Hx). pose proof (H' p' x Hx). lia.
Qed.

(** Undoing an insertion. *)
Lemma undo_insert d p e d2 :
  data_ok kp false d -> stored kp e -> (p <= length d)%nat -> same_data (take p d ++ e :: drop p d) d2 ->
  data_ok kp false (take p d ++ e :: drop p d) ->
  exists d1, change_rollback order d2 (mkIndexChange e true) = Some d1 /\ same_data d d1.
Proof.
  intros Hok He Hp Hsame Hok'. pose proof (same_data_ok _ _ Hsame Hok') as Hok2. unfold change_rollback. cbn [change_insert change_entry].
  destruct (set_erase_spec false d2 e Hok2 He) as (d1 & n & -> & _ & Hres).
  assert ((take p d ++ e :: drop p d) !! p = Some e) as Hep by (apply list_lookup_middle; rewrite length_take; lia).
  destruct (Forall2_lookup_l _ _ _ _ _ Hsame Hep) as (e2 & He2 & _ & Hs2 & H0). pose proof (order_flip e e2 He Hs2).
  destruct Hres as [(_ & _ & Hne)|(-> & i & x & Hx & Hxe & ->)].
  { exfalso. apply (Hne e2); [by eapply list_elem_of_lookup_2|lia]. }
  assert (i = p) as ->.
  { pose proof Hok2 as (Hst2 & Hs & _). pose proof (proj1 (Forall_lookup _ _) Hst2 i x Hx) as Hsx.
    destruct (cmp_eqv e e2 x He Hs2 Hsx H0). pose proof (order_flip x e2 Hsx Hs2).
    destruct (Nat.lt_total i p) as [Hlt|[->|Hlt]]; [specialize (Hs i p x e2 Hlt Hx He2); lia|done|specialize (Hs p i e2 x Hlt He2 Hx); lia]. }
  eexists. split; [done|]. unfold same_data in *. rewrite <- (take_drop p d) at 1. apply Forall2_app.
  - apply (Forall2_take _ _ _ p) in Hsame. rewrite take_app_le in Hsame by (rewrite length_take; lia). by rewrite take_take, Nat.min_id in Hsame.
  - apply (Forall2_drop _ _ _ (S p)) in Hsame. rewrite drop_app_ge in Hsame by (rewrite length_take; lia).
    rewrite length_take, Nat.min_l in Hsame by lia. replace (S p - p)%nat with 1%nat in Hsame by lia. done.
Qed.

(** Undoing a removal. *)
Lemma undo_erase d i x e d2 :
  data_ok kp false d -> stored kp e -> d !! i = Some x -> cmp x e = 0 -> same_data (take i d ++ drop (S i) d) d2 ->
  exists d1, change_rollback order d2 (mkIndexChange e false) = Some d1 /\ same_data d d1.
Proof.
  intros Hok He Hx H0 Hsame. pose proof (same_data_ok _ _ Hsame (delete_sorted false d i Hok)) as Hok2.
  unfold change_rollback. cbn [change_insert change_entry]. destruct (set_insert_spec d2 e Hok2 He) as (d1 & b & -> & _ & Hres).
  pose proof Hok as (Hst & Hs & _). pose proof (proj1 (Forall_lookup _ _) Hst i x Hx) as Hsx. pose proof (lookup_lt_Some _ _ _ Hx) as Hlt.
  assert (length d2 = (length d - 1)%nat) as Hlen2.
  { pose proof (Forall2_length _ _ _ Hsame) as Hl. rewrite length_app, length_take, length_drop in Hl. lia. }
  assert (forall j y, d2 !! j = Some y -> ((j < i)%nat <-> cmp y e < 0) /\ cmp y e <> 0) as Hpos.
  { intros j y Hy. destruct (same_data_lookup _ _ _ _ Hsame Hy) as (y0 & Hy0 & Hsy0 & Hsy & Hyy).
    rewrite <- delete_take_drop in Hy0. destruct (cmp_eqv y0 y e Hsy0 Hsy He Hyy) as [Hc1 _]. destruct (cmp_eqv x e y0 Hsx He Hsy0 H0) as [_ Hc2].
    destruct (decide (j < i)%nat) as [Hji|Hji].
    - rewrite list_lookup_delete_lt in Hy0 by done. specialize (Hs j i y0 x Hji Hy0 Hx). lia.
    - rewrite list_lookup_delete_ge in Hy0 by lia. specialize (Hs i (S j) x y0 ltac:(lia) Hx Hy0). pose proof (order_flip x y0 Hsx Hsy0). lia. }
  destruct b.
  2: { destruct Hres as [_ (y & Hy & Hye)]. apply list_elem_of_lookup in Hy as [j Hy]. by destruct (Hpos j y Hy). }
  destruct Hres as [_ (p & Hp & Hspec & ->)]. assert (p = i) as ->.
  { apply (position_unique d2 e); [done|lia|done|]. intros j y Hy. by destruct (Hpos j y Hy). }
  eexists. split; [done|]. unfold same_data in *. rewrite <- (take_drop_middle d i x Hx). apply Forall2_app; [|constructor].
  - apply (Forall2_take _ _ _ i) in Hsame. rewrite take_app_le in Hsame by (rewrite length_take; lia). by rewrite take_take, Nat.min_id in Hsame.
  - by split_and!.
  - apply (Forall2_drop _ _ _ i) in Hsame. rewrite drop_app_ge in Hsame by (rewrite length_take; lia).
    rewrite length_take, Nat.min_l in Hsame by lia. by rewrite Nat.sub_diag, drop_0 in Hsame.
Qed.
End sets.
