(* ===== verification/UnitOfWork.v ===== *)
(** * Units of work on the in-memory index

    A unit of work is a sequence of [insert] and [unindex] calls that share the list of
    changes of the recovery unit.  The invariant of the index holds throughout, every call
    has its set-theoretic effect, and [abortUnitOfWork] brings the entries back.  The bulk
    builder builds the index that the same insertions build. *)

From Stdlib Require Import ZArith Lia.
From stdpp Require Import prelude.
From S2P Require Import Prelude TotalOrder CompareNumbers Bson ElementOrder Interval IndexBounds IndexBoundsChecker BoundsCheckerSpec CheckKey IndexEntryComparison IndexEntryOrder SortedDataInterface EphemeralBtree EphemeralCursor EphemeralCursorSpec EphemeralBtreeSpec.

Open Scope Z_scope.

(** ** Sequences of operations *)

Section operations.
Context `{EO : ElementOrder E}.

Inductive IndexOp := OpInsert (key : list E) (l : Z) | OpUnindex (key : list E) (l : Z).

(** One call; a unique index is filled without duplicates. *)
Definition run_op (order : Z) (t : EphemeralForTestBtreeImpl E) (ch : list (IndexChange E)) (op : IndexOp)
    : option (EphemeralForTestBtreeImpl E * list (IndexChange E)) :=
  match op with
  | OpInsert key l => '(t, ch, _) ← btree_insert order t ch key l (negb (isUnique t)); Some (t, ch)
  | OpUnindex key l => unindex order t ch key l
  end.

Fixpoint run_ops (order : Z) t ch (ops : list IndexOp) : option (EphemeralForTestBtreeImpl E * list (IndexChange E)) :=
  match ops with
  | [] => Some (t, ch)
  | op :: ops => '(t, ch) ← run_op order t ch op; run_ops order t ch ops
  end.

(** The loop of an index build over the sorted keys: it stops at the first error. *)
Fixpoint bulk_load (order : Z) (b : Builder E) (ks : list (IndexKeyEntry E)) : option (Builder E * BtreeStatus) :=
  match ks with
  | [] => Some (b, BtreeOK)
  | e :: ks =>
      '(b, st) ← addKey order b (ikey e) (loc e);
      match st with BtreeOK => bulk_load order b ks | _ => Some (b, st) end
  end.
End operations.
Arguments IndexOp E : clear implicits.

Section uow.
Context `{EO : ElementOrder E}.
Variables (order : Z) (kp : list E).
Hypothesis Hord : orders order kp.
Implicit Types (e x y : IndexKeyEntry E) (d : list (IndexKeyEntry E)) (key : list E) (t : EphemeralForTestBtreeImpl E) (ch : list (IndexChange E)).

Definition op_ok (op : IndexOp E) : Prop :=
  match op with OpInsert key l | OpUnindex key l => key_ok kp key /\ isValid l = true end.

Lemma run_op_spec t ch op :
  btree_ok kp t -> op_ok op ->
  exists t' ch', run_op order t ch op = Some (t', ch ++ ch') /\ btree_ok kp t' /\ isUnique t' = isUnique t /\ data_step kp (data t) (data t') ch'.
Proof.
  intros Hok Hop.
  destruct op as [key l|key l], Hop as [Hkey Hv]; cbn [run_op].
  - destruct (btree_insert_run order kp Hord t ch key l Hok Hkey Hv) as (t' & ch' & st & -> & ? & ? & ? & _). by exists t', ch'.
  - destruct (unindex_run order kp Hord t ch key l Hok Hkey Hv) as (t' & ch' & -> & ? & ? & ? & _). by exists t', ch'.
Qed.

(** Undoing one step. *)
Lemma undo_step d d' ch d2 :
  data_ok kp false d -> data_ok kp false d' -> data_step kp d d' ch -> same_data kp d' d2 ->
  exists d1, rollback_all order d2 ch = Some d1 /\ same_data kp d d1.
Proof.
  intros Hok Hok' Hst Hs. destruct Hst as [d|d p e He Hne Hp Hspec|d i x e He Hx H0]; cbn [rollback_all mbind option_bind].
  - by exists d2.
  - by apply undo_insert with p.
  - by apply undo_erase with i x.
Qed.

Lemma rollback_app d ch ch' : rollback_all order d (ch ++ ch') = (d' ← rollback_all order d ch'; rollback_all order d' ch).
Proof. induction ch as [|c ch IH]; simpl; [by destruct (rollback_all order d ch')|]. rewrite IH. by destruct (rollback_all order d ch'). Qed.

Lemma run_ops_spec ops t ch :
  btree_ok kp t -> Forall op_ok ops ->
  exists t' ch', run_ops order t ch ops = Some (t', ch ++ ch') /\ btree_ok kp t' /\ isUnique t' = isUnique t /\
    forall d2, same_data kp (data t') d2 -> exists d1, rollback_all order d2 ch' = Some d1 /\ same_data kp (data t) d1.
Proof.
  intros Hok Hops. revert t ch Hok. induction Hops as [|op ops Hop _ IH]; intros t ch Hok; cbn [run_ops].
  { exists t, []. rewrite app_nil_r. split_and!; [done|done|done|]. intros d2 Hd2. by exists d2. }
  destruct (run_op_spec t ch op Hok Hop) as (t1 & ch1 & -> & Hok1 & Hu1 & Hst). cbn [mbind option_bind].
  destruct (IH t1 (ch ++ ch1) Hok1) as (t2 & ch2 & -> & Hok2 & Hu2 & Hback). exists t2, (ch1 ++ ch2).
  rewrite app_assoc. split_and!; [done|done|congruence|]. intros d2 Hd2. rewrite rollback_app.
  destruct (Hback d2 Hd2) as (d1 & -> & Hd1). cbn [mbind option_bind].
  exact (undo_step _ _ ch1 d1 (data_ok_weaken kp _ _ Hok) (data_ok_weaken kp _ _ Hok1) Hst Hd1).
Qed.


(** ** Reachable states *)

(** An index in use: operations of a unit of work, commits and aborts in any order; [d] is
    the content at the start of the unit of work. *)
Inductive reachable (unique : bool) : EphemeralForTestBtreeImpl E -> list (IndexChange E) -> list (IndexKeyEntry E) -> Prop :=
| reach_empty : reachable unique (mkBtree [] 0 unique) [] []
| reach_op t ch d op t' ch' : reachable unique t ch d -> op_ok op -> run_op order t ch op = Some (t', ch') -> reachable unique t' ch' d
| reach_commit t ch d t' ch' : reachable unique t ch d -> commitUnitOfWork t ch = (t', ch') -> reachable unique t' ch' (data t')
| reach_abort t ch d t' ch' : reachable unique t ch d -> abortUnitOfWork order t ch = Some (t', ch') -> reachable unique t' ch' d.

Lemma same_data_unique unique d d' : same_data kp d d' -> data_ok kp unique d -> data_ok kp unique d'.
Proof.
  intros Hs Hok. destruct (same_data_ok kp d d' Hs (data_ok_weaken kp unique d Hok)) as (H1 & H2 & _). split_and!; [done|done|].
  intros Hu a b (i & Ha)%list_elem_of_lookup (j & Hb)%list_elem_of_lookup H0. pose proof Hok as (_ & Hsort & Huniq).
  destruct (same_data_lookup kp d d' i a Hs Ha) as (a0 & Ha0 & Hsa0 & Hsa & Hea). destruct (same_data_lookup kp d d' j b Hs Hb) as (b0 & Hb0 & Hsb0 & Hsb & Heb).
  assert (forall x y, entry_order kp x y = 0 -> scan_cmp (index_dirs kp) (ikey x) (ikey y) = 0) as Hk.
  { intros x y. unfold entry_order, lex. case_match; lia. }
  assert (scan_cmp (index_dirs kp) (ikey a0) (ikey b0) = 0) as H00.
  { pose proof (scan_cmp_total _ (index_dirs_direction kp)) as Ht. assert (length (index_dirs kp) = length kp) as Hd by (unfold index_dirs; by rewrite length_fmap).
    destruct Hsa0 as (Hla0 & ?), Hsa as (Hla & ?), Hsb0 as (Hlb0 & ?), Hsb as (Hlb & ?). rewrite <- Hd in Hla0, Hla, Hlb0, Hlb.
    pose proof (total_sgn_eq_l Ht _ _ (ikey b0) Hla0 Hla Hlb0 (Hk a0 a Hea)).
    pose proof (total_sgn_eq_r Ht _ _ (ikey a) Hlb0 Hlb Hla (Hk b0 b Heb)). lia. }
  assert (a0 = b0) as -> by (apply (Huniq Hu); [by eapply list_elem_of_lookup_2..|done]).
  pose proof (total_refl (entry_order_total kp) b0 Hsb0). destruct (Nat.lt_total i j) as [Hlt|[->|Hlt]]; [|congruence|].
  - specialize (Hsort i j b0 b0 Hlt Ha0 Hb0). lia.
  - specialize (Hsort j i b0 b0 Hlt Hb0 Ha0). lia.
Qed.

(** Rolling the changes back gives [d], also from data with the same entries. *)
Definition undoes ch d d' : Prop := forall d2, same_data kp d' d2 -> exists d1, rollback_all order d2 ch = Some d1 /\ same_data kp d d1.

Lemma undoes_run t ch d op t' ch' :
  btree_ok kp t -> op_ok op -> undoes ch d (data t) -> run_op order t ch op = Some (t', ch') ->
  btree_ok kp t' /\ isUnique t' = isUnique t /\ undoes ch' d (data t').
Proof.
  intros Hok Hop Hun Hrun. destruct (run_op_spec t ch op Hok Hop) as (t1 & ch1 & Hrun' & Hok1 & Hu & Hst). simplify_eq.
  split_and!; [done|done|]. intros d2 Hd2. rewrite rollback_app.
  destruct (undo_step _ _ ch1 d2 (data_ok_weaken kp _ _ Hok) (data_ok_weaken kp _ _ Hok1) Hst Hd2) as (d1 & -> & Hd1). by apply Hun.
Qed.



(** [unindex] removes exactly the entry with that key and record id, takes the size of
    the key from the total and registers one change; when there is none it changes
    nothing.  It keeps the invariant of the index and never aborts. *)
Theorem unindex_correct t ch key l :
  btree_ok kp t -> key_ok kp key -> isValid l = true ->
  let e := mkIndexKeyEntry key l in
  exists t' ch', unindex order t ch key l = Some (t', ch ++ ch') /\ btree_ok kp t' /\
    ((t' = t /\ ch' = [] /\ forall x, x ∈ data t -> entry_order kp x e <> 0) \/
     (ch' = [mkIndexChange e false] /\ currentKeySize t' = currentKeySize t - objsize key /\
      exists d1 x d2, data t = d1 ++ x :: d2 /\ data t' = d1 ++ d2 /\ entry_order kp x e = 0)).
Proof.
  intros Hok Hkey Hv e. destruct (unindex_run order kp Hord t ch key l Hok Hkey Hv) as (t' & ch' & -> & Hok' & _ & _ & Hres).
  exists t', ch'. split_and!; [done|done|]. destruct Hres as [Hnone|(-> & i & x & Hx & H0 & Hd & Hsz)]; [by left|]. right.
  split_and!; [done|done|]. exists (take i (data t)), x, (drop (S i) (data t)). split_and!; [by rewrite take_drop_middle|done|done].
Qed.

(** ** The bulk builder *)

Implicit Type b : Builder E.

Definition builder_ok b : Prop :=
  data_ok kp (negb (builder_dupsAllowed b)) (data (builder_btree b)) /\ lastEntry b = last (data (builder_btree b)).

Lemma last_greatest unique d x y : data_ok kp unique d -> last d = Some x -> y ∈ d -> entry_order kp y x < 0 \/ y = x.
Proof.
  intros (_ & Hs & _) Hx Hy. rewrite last_lookup in Hx. apply list_elem_of_lookup in Hy as [i Hy]. pose proof (lookup_lt_Some _ _ _ Hy).
  destruct (decide (i = pred (length d))) as [->|]; [right; congruence|]. left. apply (Hs i (pred (length d))); [lia|done|done].
Qed.

(** An entry after the last one goes to the end. *)
Lemma set_insert_end d e :
  data_ok kp false d -> stored kp e -> (forall x, last d = Some x -> entry_order kp x e < 0) ->
  set_insert order d e = Some (d ++ [e], true) /\ data_ok kp false (d ++ [e]).
Proof.
  intros Hok He Hlast. pose proof Hok as (Hst & _ & _). assert (forall x, x ∈ d -> entry_order kp x e < 0) as Hall.
  { intros y Hy. destruct (last d) as [x|] eqn:Hx; [|apply last_None in Hx as ->; by apply elem_of_nil in Hy].
    assert (x ∈ d) as Hxd by (rewrite last_lookup in Hx; by eapply list_elem_of_lookup_2).
    pose proof (proj1 (Forall_forall _ _) Hst x Hxd). pose proof (proj1 (Forall_forall _ _) Hst y Hy).
    destruct (last_greatest false d x y Hok Hx Hy) as [Hlt| ->]; [|by apply Hlast].
    pose proof (total_trans_lt_l (entry_order_total kp) y x e). specialize (Hlast x eq_refl). intuition lia. }
  destruct (set_insert_spec order kp Hord d e Hok He) as (d' & b & -> & Hd' & Hres). destruct b.
  2: { destruct Hres as [_ (x & Hx & H0)]. specialize (Hall x Hx). lia. }
  destruct Hres as [_ (p & Hp & Hspec & ->)]. assert (p = length d) as ->.
  { destruct (decide (p < length d)%nat) as [Hlt|]; [|lia]. apply lookup_lt_is_Some_2 in Hlt as [x Hx].
    pose proof (Hspec p x Hx). pose proof (Hall x ltac:(by eapply list_elem_of_lookup_2)). lia. }
  rewrite firstn_all, drop_all in *. done.
Qed.

Lemma set_find_end unique d e : data_ok kp unique d -> stored kp e -> (exists x, x ∈ d /\ entry_order kp x e = 0) ->
  exists i x, set_find order d e = Some i /\ d !! i = Some x /\ entry_order kp x e = 0.
Proof.
  intros Hok He (x & Hx & H0). destruct (set_find_spec order kp Hord unique d e Hok He) as (i & -> & [[_ Hne]|(y & Hy & Hy0)]).
  - by destruct (Hne x Hx).
  - by exists i, y.
Qed.

Lemma entry_order_keys x y : stored kp x -> stored kp y ->
  (scan_cmp (index_dirs kp) (ikey x) (ikey y) < 0 -> entry_order kp x y < 0) /\
  (scan_cmp (index_dirs kp) (ikey x) (ikey y) = 0 -> entry_order kp x y = loc x - loc y) /\
  (0 < scan_cmp (index_dirs kp) (ikey x) (ikey y) -> 0 < entry_order kp x y).
Proof. intros _ _. unfold entry_order, lex. repeat case_match; lia. Qed.

(** The entries before the last one have smaller keys than a key after the last one. *)
Lemma key_after_last d x e y :
  data_ok kp false d -> stored kp e -> last d = Some x -> y ∈ d ->
  scan_cmp (index_dirs kp) (ikey x) (ikey e) < 0 -> scan_cmp (index_dirs kp) (ikey y) (ikey e) < 0.
Proof.
  intros Hok He Hx Hy Hlt. pose proof Hok as (Hst & _ & _).
  assert (x ∈ d) as Hxd by (rewrite last_lookup in Hx; by eapply list_elem_of_lookup_2).
  pose proof (proj1 (Forall_forall _ _) Hst x Hxd) as Hsx. pose proof (proj1 (Forall_forall _ _) Hst y Hy) as Hsy.
  destruct (last_greatest false d x y Hok Hx Hy) as [Hyx| ->]; [|done].
  destruct (entry_order_keys y x Hsy Hsx) as (_ & _ & Hgt).
  pose proof (total_trans_lt_r (scan_cmp_total _ (index_dirs_direction kp)) (ikey y) (ikey x) (ikey e)) as Htr.
  unfold index_dirs in Htr at 1 2 3. rewrite length_fmap in Htr. apply Htr; [apply Hsy|apply Hsx|apply He|lia|done].
Qed.

(** The two ways in which [addKey] accepts an entry. *)
Definition appended b b' e : Prop :=
  data (builder_btree b') = data (builder_btree b) ++ [e] \/
  data (builder_btree b') = data (builder_btree b) /\ exists x, last (data (builder_btree b)) = Some x /\ entry_order kp x e = 0.

Definition accept b e : option (Builder E * BtreeStatus) :=
  '(d, _) ← set_insert order (data (builder_btree b)) e;
  it ← set_find order d e;
  last ← d !! it;
  Some (mkBuilder (mkBtree d (currentKeySize (builder_btree b) + objsize (ikey e)) (isUnique (builder_btree b)))
          (builder_dupsAllowed b) (Some last), BtreeOK).

Lemma accept_spec b e :
  builder_ok b -> stored kp e ->
  (forall x, last (data (builder_btree b)) = Some x -> entry_order kp x e <= 0) ->
  (forall x, last (data (builder_btree b)) = Some x -> builder_dupsAllowed b = false -> entry_order kp x e < 0 -> scan_cmp (index_dirs kp) (ikey x) (ikey e) < 0) ->
  exists b', accept b e = Some (b', BtreeOK) /\ builder_ok b' /\ appended b b' e /\ builder_dupsAllowed b' = builder_dupsAllowed b /\
    currentKeySize (builder_btree b') = currentKeySize (builder_btree b) + objsize (ikey e).
Proof.
  intros [Hok Hlast] He Hle Hun. unfold accept. destruct b as [[d sz u] dups l]. cbn [data builder_btree builder_dupsAllowed currentKeySize isUnique lastEntry] in *. subst l.
  assert (data_ok kp false d) as Hok' by by eapply data_ok_weaken.
  assert ((exists x, last d = Some x /\ entry_order kp x e = 0) \/ forall x, last d = Some x -> entry_order kp x e < 0) as [(x & Hx & H0)|Hlt].
  { destruct (last d) as [x|]; [|by right]. specialize (Hle x eq_refl).
    destruct (decide (entry_order kp x e = 0)); [left; by exists x|right; intros ? [= <-]; lia]. }
  - assert (x ∈ d) as Hxd by (rewrite last_lookup in Hx; by eapply list_elem_of_lookup_2).
    destruct (set_insert_spec order kp Hord d e Hok' He) as (d' & n & -> & _ & Hres). destruct n; [by destruct (proj1 Hres x Hxd)|].
    destruct Hres as [-> _]. cbn [mbind option_bind].
    destruct (set_find_end _ d e Hok He ltac:(by exists x)) as (i & y & -> & Hy & Hy0). cbn [mbind option_bind]. rewrite Hy. cbn [mbind option_bind].
    eexists. split; [done|]. assert (y = x) as ->.
    { destruct (last_greatest _ d x y Hok Hx ltac:(by eapply list_elem_of_lookup_2)) as [Hlt|]; [|done].
      pose proof Hok as (Hst & _ & _). pose proof (proj1 (Forall_forall _ _) Hst x Hxd) as Hsx. pose proof (proj1 (Forall_lookup _ _) Hst i y Hy) as Hsy.
      pose proof (total_trans_lt_l (entry_order_total kp) y x e Hsy Hsx He). lia. }
    split_and!; [by split; [|symmetry]|right; split; [done|by exists x]|done|done].
  - destruct (set_insert_end d e Hok' He Hlt) as [-> Hok2]. cbn [mbind option_bind].
    assert (data_ok kp (negb dups) (d ++ [e])) as Hok3.
    { pose proof (inserted_ok kp (negb dups) d (length d) e Hok) as Hins. rewrite firstn_all, drop_all in Hins. apply Hins; [done| |done].
      intros Hd%negb_true_iff y Hy. destruct (last d) as [x|] eqn:Hx; [|apply last_None in Hx as ->; by apply elem_of_nil in Hy].
      pose proof (key_after_last d x e y Hok' He Hx Hy (Hun x eq_refl Hd (Hlt x eq_refl))). lia. }
    destruct (set_find_end _ (d ++ [e]) e Hok3 He) as (i & y & -> & Hy & Hy0).
    { exists e. split; [by apply elem_of_app; right; apply list_elem_of_singleton|by apply (total_refl (entry_order_total kp))]. }
    cbn [mbind option_bind]. rewrite Hy. cbn [mbind option_bind].
    eexists. split; [done|]. assert (y = e) as ->.
    { destruct (last_greatest _ (d ++ [e]) e y Hok3 ltac:(apply last_snoc) ltac:(by eapply list_elem_of_lookup_2)); [lia|done]. }
    split_and!; [by split; [|symmetry; apply last_snoc]|by left|done|done].
Qed.

(** What [addKey] answers and does. *)
Definition addKey_result b b' e (st : BtreeStatus) : Prop :=
  let d := data (builder_btree b) in
  match st with
  | BtreeOK => appended b b' e /\ currentKeySize (builder_btree b') = currentKeySize (builder_btree b) + objsize (ikey e) /\
      (forall x, last d = Some x -> entry_order kp x e <= 0) /\
      (builder_dupsAllowed b = false -> forall x, last d = Some x -> scan_cmp (index_dirs kp) (ikey x) (ikey e) = 0 -> loc x = loc e)
  | DuplicateKey => b' = b /\ builder_dupsAllowed b = false /\
      exists x, last d = Some x /\ scan_cmp (index_dirs kp) (ikey x) (ikey e) = 0 /\ loc x <> loc e
  | InternalError => b' = b /\ exists x, last d = Some x /\ entry_order kp e x < 0
  end.

(** The entry is accepted when it is not before the last one, and not a duplicate. *)
Lemma addKey_accepts b e :
  builder_ok b -> stored kp e ->
  (forall x, last (data (builder_btree b)) = Some x -> entry_order kp x e <= 0) ->
  (builder_dupsAllowed b = false -> forall x, last (data (builder_btree b)) = Some x -> scan_cmp (index_dirs kp) (ikey x) (ikey e) = 0 -> loc x = loc e) ->
  exists b' st, accept b e = Some (b', st) /\ builder_ok b' /\ builder_dupsAllowed b' = builder_dupsAllowed b /\ addKey_result b b' e st.
Proof.
  intros Hok He Hle Hun. destruct (accept_spec b e Hok He Hle) as (b' & -> & Hok' & Happ & Hd & Hsz).
  - intros x Hx Hdup Hlt. specialize (Hun Hdup x Hx). unfold entry_order, lex in Hlt. case_match; lia.
  - exists b', BtreeOK. split_and!; done.
Qed.

Lemma addKey_run b key l :
  builder_ok b -> key_ok kp key -> isValid l = true ->
  exists b' st, addKey order b key l = Some (b', st) /\ builder_ok b' /\ builder_dupsAllowed b' = builder_dupsAllowed b /\
    addKey_result b b' (mkIndexKeyEntry key l) st.
Proof.
  intros Hok Hkey Hv. set (e := mkIndexKeyEntry key l). assert (stored kp e) as He by (destruct Hkey; by split_and!).
  pose proof (addKey_accepts b e Hok He) as Hacc.
  unfold addKey. rewrite invariant_bind by done. rewrite invariant_bind by (rewrite plain_names; [done|apply Hkey]). cbv zeta.
  pose proof Hok as [Hd Hl]. pose proof Hd as (Hst & _ & _). unfold addKey_result in *. set (d := data (builder_btree b)) in *.
  destruct (last d) as [x|] eqn:Hx.
  2: { unfold btree_isEmpty. fold d. apply last_None in Hx. rewrite bool_decide_eq_true_2 by done. cbn [negb mbind option_bind]. by apply Hacc. }
  unfold btree_isEmpty. fold d. rewrite bool_decide_eq_false_2 by (intros Hn; by rewrite Hn in Hx). cbn [negb]. rewrite Hl. cbn [mbind option_bind].
  assert (x ∈ d) as Hxd by (rewrite last_lookup in Hx; by eapply list_elem_of_lookup_2).
  pose proof (proj1 (Forall_forall _ _) Hst x Hxd) as Hsx.
  destruct (compare_null order kp Hord key x Hkey Hsx) as (_ & c & _ & -> & _ & Hc). cbn [mbind option_bind].
  destruct (entry_order_keys x e Hsx He) as (Hk1 & Hk2 & Hk3). destruct (entry_order_keys e x He Hsx) as (Hk4 & Hk5 & Hk6).
  pose proof (keycmp_flip kp (ikey x) key (proj1 Hsx) (proj1 Hkey)) as Hfl. pose proof (order_flip kp x e Hsx He) as Hfe.
  change (ikey e) with key in *. change (loc e) with l in *.
  destruct (Z.ltb_spec c 0); cbn [orb].
  { exists b, InternalError. split_and!; [done|done|done|done|]. exists x. split; [done|]. apply Hk4. lia. }
  destruct (builder_dupsAllowed b && (c =? 0) && (l <? loc x)) eqn:H1.
  { rewrite !andb_true_iff, Z.eqb_eq, Z.ltb_lt in H1. exists b, InternalError. split_and!; [done|done|done|done|]. exists x. split; [done|]. lia. }
  destruct (negb (builder_dupsAllowed b) && (c =? 0) && negb (l =? loc x)) eqn:H2; cbn [mbind option_bind].
  { rewrite !andb_true_iff, !negb_true_iff, Z.eqb_eq, Z.eqb_neq in H2. destruct H2 as [[H2 ?] ?]. exists b, DuplicateKey. split_and!; try done.
    exists x. split_and!; [done|lia|lia]. }
  apply Hacc.
  - intros ? [= <-]. destruct (decide (c = 0)); [|lia]. destruct (builder_dupsAllowed b); simpl in *; lia.
  - intros Hdup ? [= <-] H0. rewrite Hdup in H2. simpl in H2. lia.
Qed.

Lemma data_ok_before unique d e ks x : data_ok kp unique (d ++ e :: ks) -> last d = Some x ->
  entry_order kp x e < 0 /\ (unique = true -> scan_cmp (index_dirs kp) (ikey x) (ikey e) <> 0).
Proof.
  intros (Hst & Hs & Hu) Hx. rewrite last_lookup in Hx. pose proof (lookup_lt_Some _ _ _ Hx).
  assert (entry_order kp x e < 0) as Hlt.
  { apply (Hs (pred (length d)) (length d)); [lia|by rewrite lookup_app_l by lia|by apply list_lookup_middle]. }
  split; [done|]. intros Hun H0. assert (stored kp e) as He by (apply Forall_app in Hst as [_ Hst]; by apply Forall_cons in Hst as [? _]).
  assert (x = e) as ->; [|pose proof (total_refl (entry_order_total kp) e He); lia].
  apply (Hu Hun); [apply elem_of_app; left; by eapply list_elem_of_lookup_2|apply elem_of_app; right; by left|done].
Qed.

Lemma bulk_load_sorted ks b :
  builder_ok b -> data_ok kp (negb (builder_dupsAllowed b)) (data (builder_btree b) ++ ks) ->
  exists b', bulk_load order b ks = Some (b', BtreeOK) /\ data (builder_btree b') = data (builder_btree b) ++ ks /\
    currentKeySize (builder_btree b') = currentKeySize (builder_btree b) + foldr Z.add 0 ((fun e => objsize (ikey e)) <$> ks).
Proof.
  revert b. induction ks as [|e ks IH]; intros b Hok Hd; cbn [bulk_load].
  { exists b. rewrite app_nil_r. split_and!; [done|done|simpl; lia]. }
  assert (stored kp e) as (Hlen & Hpl & Hv) by (destruct Hd as (Hst & _); apply Forall_app in Hst as [_ Hst]; by apply Forall_cons in Hst as [? _]).
  destruct (addKey_run b (ikey e) (loc e) Hok (conj Hlen Hpl) Hv) as (b1 & st & -> & Hok1 & Hdup1 & Hres). cbn [mbind option_bind].
  pose proof (fun x => data_ok_before _ (data (builder_btree b)) e ks x Hd) as Hb. unfold addKey_result in Hres.
  assert (mkIndexKeyEntry (ikey e) (loc e) = e) as He by (by destruct e). rewrite He in Hres. destruct st.
  - destruct Hres as (Happ & Hsz & _ & _). destruct Happ as [Happ|[_ (x & Hx & H0)]]; [|destruct (Hb x Hx); lia].
    destruct (IH b1 Hok1) as (b' & -> & Hdata & Hsz'); [by rewrite Happ, Hdup1, <- app_assoc|].
    exists b'. split_and!; [done|by rewrite Hdata, Happ, <- app_assoc|]. rewrite Hsz', Hsz, fmap_cons. simpl. lia.
  - destruct Hres as (_ & Hdup & x & Hx & H0 & _). destruct (Hb x Hx) as [_ Hne]. by destruct Hne; [rewrite Hdup|].
  - destruct Hres as (_ & x & Hx & Hlt). destruct (Hb x Hx) as [Hlt' _].
    assert (stored kp x) as Hsx.
    { destruct Hok as ((Hst & _) & _). rewrite last_lookup in Hx. by eapply (proj1 (Forall_lookup _ _) Hst). }
    pose proof (order_flip kp x e Hsx ltac:(by split_and!)). lia.
Qed.

Lemma bulk_load_builds ks b :
  builder_ok b -> Forall (stored kp) ks ->
  exists b' st, bulk_load order b ks = Some (b', st) /\ builder_ok b' /\ builder_dupsAllowed b' = builder_dupsAllowed b /\
    data (builder_btree b) `prefix_of` data (builder_btree b') /\
    (st = BtreeOK -> forall e, e ∈ ks -> exists x, x ∈ data (builder_btree b') /\ entry_order kp x e = 0).
Proof.
  intros Hok Hks. revert b Hok. induction Hks as [|e ks He Hks IH]; intros b Hok; cbn [bulk_load].
  { exists b, BtreeOK. split_and!; [done..|]. intros _ e He. by apply elem_of_nil in He. }
  destruct (addKey_run b (ikey e) (loc e) Hok ltac:(split; apply He) ltac:(apply He)) as (b1 & st & -> & Hok1 & Hdup1 & Hres). cbn [mbind option_bind].
  assert (mkIndexKeyEntry (ikey e) (loc e) = e) as Hee by (by destruct e). rewrite Hee in Hres.
  destruct st; [|destruct Hres as [-> _]; by eexists b, _..].
  destruct (IH b1 Hok1) as (b' & st & -> & Hok' & Hdup' & Hpre & Hin). exists b', st. destruct Hres as [Happ _].
  assert (data (builder_btree b) `prefix_of` data (builder_btree b1)) as Hpre1.
  { destruct Happ as [->|[-> _]]; [by apply prefix_app_r|done]. }
  split_and!; [done|done|congruence|by etrans|]. intros Hst e' [->|He']%elem_of_cons; [|by apply Hin].
  destruct Happ as [Happ|[Happ (x & Hx & H0)]].
  - exists e. split; [|by apply (total_refl (entry_order_total kp))]. eapply elem_of_prefix; [|done]. rewrite Happ. apply elem_of_app; right; by left.
  - exists x. split; [|done]. eapply elem_of_prefix; [|done]. rewrite Happ. rewrite last_lookup in Hx. by eapply list_elem_of_lookup_2.
Qed.


(** [addKey] on every branch: the entry is appended, or is the last entry again and
    nothing is added, exactly when it is not before the last entry and, without
    duplicates, does not repeat its key for another record; a repeated key gives
    [DuplicateKey] and an entry out of order [InternalError], both leaving the builder as
    it was.  The call never aborts. *)
Theorem addKey_correct b key l :
  builder_ok b -> key_ok kp key -> isValid l = true ->
  exists b' st, addKey order b key l = Some (b', st) /\ builder_ok b' /\ addKey_result b b' (mkIndexKeyEntry key l) st.
Proof. intros Hok Hkey Hv. destruct (addKey_run b key l Hok Hkey Hv) as (b' & st & ? & ? & _ & ?). by exists b', st. Qed.
End uow.
