(* ===== verification/EphemeralScan.v ===== *)
(** * Cursors and scans of the in-memory index

    The in-memory index keeps the contract of [SortedDataInterface], so that what is proved
    of the contract holds of it: a cursor returns what lies between its start and its end,
    goes on in the same place after the data has changed, and an index scan returns what is
    within its bounds.  The instances at the end evaluate on an index over BSON elements. *)

From Stdlib Require Import ZArith Lia.
From stdpp Require Import prelude gmap.
From S2P Require Import Prelude TotalOrder CompareNumbers Bson ElementOrder Interval IndexBounds IndexBoundsBuilder IndexBoundsChecker BoundsCheckerSpec CheckKey IndexEntryComparison IndexEntryOrder SortedDataInterface IndexScan SingleInterval IndexScanSpec IndexScanYield EphemeralBtree EphemeralCursor EphemeralCursorSpec EphemeralBtreeSpec UnitOfWork.

Open Scope Z_scope.

(** ** Reading with a cursor *)

Section read.
Context `{EO : ElementOrder E}.
Variable order : Z.
Implicit Type d : list (IndexKeyEntry E).

(** [n] calls of [next]; the result is what the calls returned. *)
Fixpoint read (n : nat) d (c : Cursor E) : option (Cursor E * list (option (IndexKeyEntry E))) :=
  match n with
  | O => Some (c, [])
  | S n => '(c, r) ← next d c; '(c, l) ← read n d c; Some (c, r :: l)
  end.

(** A new cursor with an end position that seeks to a start. *)
Definition open (t : EphemeralForTestBtreeImpl E) (fwd : bool) (startKey endKey : list E) (startInclusive endInclusive : bool)
    : option (Cursor E * option (IndexKeyEntry E)) :=
  c ← setEndPosition order (data t) (newCursor t fwd) endKey endInclusive;
  seek order (data t) c startKey startInclusive.

(** Save the cursor, let the data change, and restore it. *)
Definition yield d d' (c : Cursor E) : option (Cursor E) := c ← save d c; restore order d' c.
End read.

Section cursor.
Context `{EO : ElementOrder E}.
Variables (order : Z) (kp : list E).
Hypothesis Hord : orders order kp.

Lemma lookup_tail' {A} (l : list A) i : tail l !! i = l !! S i.
Proof. by destruct l. Qed.

Lemma read_upcoming n unique d fwd endq c o l :
  upcoming order kp d unique fwd endq c o l ->
  exists c', read n d c = Some (c', (fun i => l !! i) <$> seq 0 n) /\
    upcoming order kp d unique fwd endq c' (match n with O => o | S m => l !! m end) (drop n l).
Proof.
  revert c o l. induction n as [|n IH]; intros c o l Hup; cbn [read].
  { exists c. split; [done|]. by rewrite drop_0. }
  destruct (cursor_next_spec order kp unique d fwd endq c o l Hup) as (c1 & -> & Hup1). cbn [mbind option_bind].
  destruct (IH c1 _ _ Hup1) as (c2 & -> & Hup2). cbn [mbind option_bind]. exists c2. split.
  - do 2 f_equal. cbn [seq]. rewrite fmap_cons. f_equal; [by destruct l|]. rewrite <- fmap_S_seq, <- list_fmap_compose.
    apply list_fmap_ext. intros i j _. apply lookup_tail'.
  - assert (drop n (tail l) = drop (S n) l) as <- by (destruct l; simpl; [by rewrite drop_nil|done]).
    destruct n; [by destruct l|]. by rewrite lookup_tail' in Hup2.
Qed.

(** [C6] A cursor of the in-memory index, in either direction: with a start and an end, the
    seek and the calls of [next] return exactly the entries between them, in the order of
    the cursor, and then nothing.  When it is saved after any number of calls and restored
    after the data has changed in any way, it returns exactly the entries of the new data
    that come after the last entry it returned and before its end; a cursor that was at its
    end stays there. *)
Theorem cursor_scan_resumes t t' fwd startKey endKey startInclusive endInclusive n m :
  btree_ok kp t -> btree_ok kp t' -> isUnique t' = isUnique t ->
  startKey <> [] -> length startKey = length kp -> endKey <> [] -> length endKey = length kp ->
  let endq := Some (key_query endKey (negb endInclusive)) in
  let l := upto_end kp fwd endq (fun e => negb (before kp fwd (key_query startKey startInclusive) e)) (data t) in
  let l' := match l !! n with
            | Some e => upto_end kp fwd endq (after kp fwd (isUnique t) e) (data t')
            | None => []
            end in
  exists c r c1 c2 c3,
    open order t fwd startKey endKey startInclusive endInclusive = Some (c, l !! 0%nat) /\
    read n (data t) c = Some (c1, r) /\ l !! 0%nat :: r = (fun i => l !! i) <$> seq 0 (S n) /\
    yield order (data t) (data t') c1 = Some c2 /\
    read m (data t') c2 = Some (c3, (fun i => l' !! i) <$> seq 0 m).
Proof.
  intros Hok Hok' Hu Hs Hsl He Hel endq l l'. set (SD := EphemeralForTest_SortedData order kp Hord).
  destruct (sd_end (SortedDataInterface := SD) t fwd None _ endKey endInclusive Hok (sd_new (SortedDataInterface := SD) t fwd Hok) He Hel) as (c0 & Hc0 & Hinv).
  destruct (sd_seek_key (SortedDataInterface := SD) t fwd _ c0 startKey startInclusive Hok Hinv Hs Hsl) as (c & Hc & Hup).
  fold endq in Hc, Hup. change (sd_entries t) with (data t) in Hc, Hup. fold l in Hc, Hup.
  destruct (read_upcoming n (isUnique t) (data t) fwd endq c (head l) (tail l) Hup) as (c1 & Hr & Hup1).
  assert (match n with O => head l | S k => tail l !! k end = l !! n) as Hn by (destruct n, l; done). rewrite Hn in Hup1.
  destruct (save_spec order kp _ _ _ _ _ _ _ Hup1) as (c2 & Hsv & Hsaved).
  destruct (restore_spec order kp Hord (isUnique t) (data t') fwd endq c2 (l !! n)) as (c3 & Hres & Hup3).
  { unfold btree_ok in Hok'. by rewrite Hu in Hok'. }
  { done. }
  fold l' in Hup3. destruct (read_upcoming m _ _ _ _ _ _ _ Hup3) as (c4 & Hr' & _).
  exists c. eexists _, c1, c3, c4. split_and!; [|exact Hr| | |exact Hr'].
  - unfold open. change (sd_setEndPosition t (sd_newCursor t fwd) endKey endInclusive) with (setEndPosition order (data t) (newCursor t fwd) endKey endInclusive) in Hc0.
    rewrite Hc0. cbn [mbind option_bind]. change (sd_seek t c0 startKey startInclusive) with (seek order (data t) c0 startKey startInclusive) in Hc.
    rewrite Hc. by destruct l.
  - cbn [seq]. rewrite fmap_cons. f_equal. rewrite <- fmap_S_seq, <- list_fmap_compose. apply list_fmap_ext. intros i j _. apply lookup_tail'.
  - unfold yield. by rewrite Hsv.
Qed.
End cursor.

(** ** Instances *)

Abbreviation Elt := (list Z * BSONValue)%type (only parsing).

Definition num (z : int32) : Elt := ([], vNumber (NumInt z)).

(** The key pattern [{a: 1, b: -1}] and its ordering. *)
Definition demo_pattern : list Elt :=
  [([97], vNumber (NumInt (mkInt32 1 eq_refl))); ([98], vNumber (NumInt (mkInt32 (-1) eq_refl)))].

Definition demo_order : Z := 2.

Lemma demo_orders : orders demo_order demo_pattern.
Proof. apply Ordering_make_orders. vm_compute. reflexivity. Qed.

Definition demo_empty (unique : bool) : EphemeralForTestBtreeImpl Elt := mkBtree [] 0 unique.

Lemma demo_empty_ok unique : btree_ok demo_pattern (demo_empty unique).
Proof.
  split_and!; [constructor|intros i j a b _ H; simpl in H; by rewrite lookup_nil in H|intros _ a b H; by apply elem_of_nil in H].
Qed.

Lemma key_ok_pair (x y : Elt) : eqBehavior x = 0 -> eqBehavior y = 0 -> key_ok demo_pattern [x; y].
Proof. intros Hx Hy. split; [done|]. by repeat constructor. Qed.

Lemma demo_op_ok (x y : Elt) l ins :
  eqBehavior x = 0 -> eqBehavior y = 0 -> isValid l = true ->
  op_ok demo_pattern (if (ins : bool) then OpInsert [x; y] l else OpUnindex [x; y] l).
Proof. intros Hx Hy Hl. destruct ins; split; try done; by apply key_ok_pair. Qed.

(** Four keys, two of them equal, inserted out of order, and one that is removed again. *)
Definition demo_ops : list (IndexOp Elt) :=
  [OpInsert [eltB; eltA] 7; OpInsert [eltA; eltA] 5; OpInsert [eltA; eltC] 9; OpInsert [eltC; eltB] 2;
   OpInsert [eltA; eltA] 4; OpInsert [eltB; eltB] 6; OpUnindex [eltB; eltA] 7].

Lemma demo_ops_ok : Forall (op_ok demo_pattern) demo_ops.
Proof.
  repeat constructor; vm_compute; try reflexivity; repeat constructor.
Qed.

Definition demo_index : EphemeralForTestBtreeImpl Elt :=
  Eval vm_compute in from_option fst (demo_empty false) (run_ops demo_order (demo_empty false) [] demo_ops).

Lemma demo_index_ok : btree_ok demo_pattern demo_index.
Proof.
  destruct (run_ops_spec demo_order demo_pattern demo_orders demo_ops (demo_empty false) [] (demo_empty_ok false) demo_ops_ok)
    as (t' & ch' & Hrun & Hok & _).
  assert (t' = demo_index) as <-; [|done].
  assert (from_option fst (demo_empty false) (run_ops demo_order (demo_empty false) [] demo_ops) = demo_index) as <- by (vm_compute; reflexivity).
  by rewrite Hrun.
Qed.


Definition unique_index : EphemeralForTestBtreeImpl Elt :=
  Eval vm_compute in from_option fst (demo_empty true) (run_ops demo_order (demo_empty true) [] demo_ops).

Lemma unique_index_ok : btree_ok demo_pattern unique_index.
Proof.
  destruct (run_ops_spec demo_order demo_pattern demo_orders demo_ops (demo_empty true) [] (demo_empty_ok true) demo_ops_ok)
    as (t' & ch' & Hrun & Hok & _).
  assert (t' = unique_index) as <-; [|done].
  assert (from_option fst (demo_empty true) (run_ops demo_order (demo_empty true) [] demo_ops) = unique_index) as <- by (vm_compute; reflexivity).
  by rewrite Hrun.
Qed.


Lemma unindex_correct_witness :
  exists t' ch', unindex demo_order demo_index [] [eltA; eltA] 5 = Some (t', ch') /\ btree_ok demo_pattern t'.
Proof.
  destruct (unindex_correct demo_order demo_pattern demo_orders demo_index [] [eltA; eltA] 5) as (t' & ch' & Hrun & Hok & _).
  - exact demo_index_ok.
  - apply key_ok_pair; vm_compute; reflexivity.
  - vm_compute. reflexivity.
  - exists t', ch'. split; [exact Hrun|exact Hok].
Defined.


Definition demo_builder : Builder Elt :=
  mkBuilder (mkBtree [mkIndexKeyEntry [eltA; eltA] 5] 17 true) false (Some (mkIndexKeyEntry [eltA; eltA] 5)).

Lemma addKey_correct_witness :
  exists b' st, addKey demo_order demo_builder [eltA; eltA] 6 = Some (b', st) /\
    addKey_result demo_pattern demo_builder b' (mkIndexKeyEntry [eltA; eltA] 6) st.
Proof.
  destruct (addKey_correct demo_order demo_pattern demo_orders demo_builder [eltA; eltA] 6) as (b' & st & Hrun & _ & Hres).
  - split; [|reflexivity]. split_and!.
    + repeat constructor; vm_compute; try reflexivity; repeat constructor.
    + intros [|i] [|j] a b Hij Ha Hb; simplify_eq/=; lia.
    + intros _ a b Ha Hb _. apply list_elem_of_singleton in Ha, Hb. congruence.
  - apply key_ok_pair; vm_compute; reflexivity.
  - vm_compute. reflexivity.
  - exists b', st. split; [exact Hrun|exact Hres].
Defined.

Lemma cursor_scan_resumes_witness :
  exists c r c1 c2 c3,
    open demo_order demo_index false [eltC; eltA] [eltA; eltC] true false = Some (c, r) /\ read 1 (data demo_index) c = Some c1 /\
    yield demo_order (data demo_index) [] (fst c1) = Some c2 /\ read 2 [] c2 = Some c3.
Proof.
  destruct (cursor_scan_resumes demo_order demo_pattern demo_orders demo_index (demo_empty false) false [eltC; eltA] [eltA; eltC] true false 1 2)
    as (c & r & c1 & c2 & c3 & H1 & H2 & _ & H3 & H4).
  - exact demo_index_ok.
  - exact (demo_empty_ok false).
  - reflexivity.
  - discriminate.
  - reflexivity.
  - discriminate.
  - reflexivity.
  - eexists c, _, _, c2, _. split; [exact H1|]. split; [exact H2|]. split; [exact H3|exact H4].
Defined.

(** A scan with two intervals in each field. *)
Definition demo_params : IndexScanParams Elt :=
  mkParams demo_pattern
    {| (IndexBounds_default (E := Elt)) with
       fields := [mkOrderedIntervalList [ivAB; point eltC] [97]; mkOrderedIntervalList [point eltB; point eltA] [98]] |} 1 true.

Lemma demo_params_ok : params_ok demo_params.
Proof. split; [by left|done|by repeat constructor|]. vm_compute. reflexivity. Qed.

Lemma index_scan_exact_witness :
  run (SD := EphemeralForTest_SortedData demo_order demo_pattern demo_orders) demo_params None 10 demo_index (IndexScan_new demo_params) =
  Some (outputs demo_params None ∅ (List.filter (wanted demo_params) (data demo_index))).
Proof.
  refine (index_scan_exact (SD := EphemeralForTest_SortedData demo_order demo_pattern demo_orders) demo_params None demo_index _ demo_params_ok 10 _).
  - exact demo_index_ok.
  - vm_compute. lia.
Defined.

(** The total of the key sizes, from which the index reports the space it uses, drifts
    from the entries: after an insertion that is rolled back the index is empty but the
    total is not zero; a removal with a key that is equal in value but of another numeric
    type takes more than was added; and the bulk builder counts a repeated entry twice. *)
Theorem key_size_drift :
  ('(t, ch) ← run_ops demo_order (demo_empty false) [] [OpInsert [eltA; eltA] 5]; abortUnitOfWork demo_order t ch) =
    Some (mkBtree [] 17 false, []) /\
  ('(t, _) ← run_ops demo_order (demo_empty false) [] [OpInsert [num (mkInt32 8 eq_refl); eltA] 5; OpUnindex [eltC; eltA] 5]; Some t) =
    Some (mkBtree [] (-4) false) /\
  (b ← getBulkBuilder (demo_empty false) true;
   '(b', st) ← bulk_load demo_order b [mkIndexKeyEntry [eltA; eltA] 5; mkIndexKeyEntry [eltA; eltA] 5];
   Some (builder_btree b', st)) = Some (mkBtree [mkIndexKeyEntry [eltA; eltA] 5] 34 false, BtreeOK).
Proof. split_and!; vm_compute; reflexivity. Qed.

Lemma demo_pair_stored (x y : Elt) l : eqBehavior x = 0 -> eqBehavior y = 0 -> isValid l = true -> stored demo_pattern (mkIndexKeyEntry [x; y] l).
Proof. intros Hx Hy Hl. destruct (key_ok_pair x y Hx Hy). by split_and!. Qed.

Lemma entry_comparison_total_witness :
  exists c, entry_compare demo_order (mkIndexKeyEntry [eltA; eltA] 5) (mkIndexKeyEntry [eltA; eltC] 9) = Some c /\ 0 < c.
Proof.
  destruct (entry_comparison_total demo_pattern demo_order) as [Hcmp _]; [vm_compute; reflexivity|].
  destruct (Hcmp (mkIndexKeyEntry [eltA; eltA] 5) (mkIndexKeyEntry [eltA; eltC] 9)) as (c & Hc & Hsg).
  - apply demo_pair_stored; vm_compute; reflexivity.
  - apply demo_pair_stored; vm_compute; reflexivity.
  - exists c. split; [exact Hc|]. apply Z.sgn_pos_iff. rewrite Hsg. vm_compute. reflexivity.
Defined.

(** After the keys that start with 3, that is, at the keys that start with 6.5. *)
Definition demo_seek_point : IndexSeekPoint Elt :=
  {| (IndexSeekPoint_default (E := Elt)) with keyPrefix := [eltA]; prefixLen := 1%nat; prefixExclusive := true |}.

Lemma query_object_separates_witness :
  exists query, makeQueryObject demo_seek_point true = Some query /\
    exists c, entry_compare demo_order (mkIndexKeyEntry [eltA; eltA] 5) (mkIndexKeyEntry query kMinRepr) = Some c /\ c < 0.
Proof.
  destruct (query_object_separates demo_pattern demo_order true demo_seek_point [(eltA, false)]) as (query & Hq & Hall).
  - vm_compute. reflexivity.
  - vm_compute. reflexivity.
  - vm_compute. reflexivity.
  - vm_compute. reflexivity.
  - exists query. split; [exact Hq|]. destruct (Hall (mkIndexKeyEntry [eltA; eltA] 5)) as (c & Hc & _ & Hlt).
    + apply demo_pair_stored; vm_compute; reflexivity.
    + exists c. split; [exact Hc|]. apply Z.ltb_lt. rewrite Hlt. vm_compute. reflexivity.
Defined.


(** The index after an entry has been removed and another one inserted. *)
Definition changed_index : EphemeralForTestBtreeImpl Elt :=
  Eval vm_compute in from_option fst demo_index (run_ops demo_order demo_index [] [OpUnindex [eltA; eltA] 5; OpInsert [eltA; eltB] 8]).

Lemma changed_index_ok : btree_ok demo_pattern changed_index.
Proof.
  destruct (run_ops_spec demo_order demo_pattern demo_orders [OpUnindex [eltA; eltA] 5; OpInsert [eltA; eltB] 8] demo_index [] demo_index_ok) as (t' & ch' & Hrun & Hok & _).
  { repeat constructor; vm_compute; try reflexivity; repeat constructor. }
  assert (t' = changed_index) as <-; [|done].
  assert (from_option fst demo_index (run_ops demo_order demo_index [] [OpUnindex [eltA; eltA] 5; OpInsert [eltA; eltB] 8]) = changed_index) as <- by (vm_compute; reflexivity).
  by rewrite Hrun.
Qed.

Lemma yielding_scan_correct_witness :
  exists rs, run_steps (SD := EphemeralForTest_SortedData demo_order demo_pattern demo_orders) demo_params None
    [Work; Work; Yield changed_index; Work; Work; Work; Work] demo_index (IndexScan_new demo_params) = Some rs /\ NoDup (fst <$> advanced rs).
Proof.
  destruct (yielding_scan_correct (SD := EphemeralForTest_SortedData demo_order demo_pattern demo_orders) demo_params None demo_params_ok false
    [Work; Work; Yield changed_index; Work; Work; Work; Work] demo_index) as (rs & Hrun & _ & _ & Hnd & _).
  - constructor; [split; [exact demo_index_ok|reflexivity]|]. constructor; [split; [exact changed_index_ok|reflexivity]|constructor].
  - exists rs. split; [exact Hrun|]. apply Hnd. reflexivity.
Defined.
