(* ===== verification/WorkingSet.v ===== *)
(** * The working set

    Models [db/exec/working_set.h] and [working_set.cpp], the computed data of
    [working_set_computed_data.h], and of [working_set_common.cpp] the status members, the
    fetch of a document and the step taken before a snapshot changes.

    Stages pass query results to each other as ids of the working set.  The members are in a
    vector; the freed ones are linked in a free list.  [WorkingSet_refines_map] shows that this
    is a finite map from ids to members. *)

From Stdlib Require Import ZArith Lia.
From stdpp Require Import prelude gmap.
From S2P Require Import Prelude TotalOrder CompareNumbers Bson ElementOrder.

Open Scope Z_scope.

(** ** Members *)

Abbreviation Element := (list Z * BSONValue)%type (only parsing).
Abbreviation Object := (list (list Z * BSONValue)) (only parsing).

(** An object with the buffer it owns or does not own. *)
Record Buffer := mkBuffer { contents : list (list Z * BSONValue); isOwned : bool }.

Definition getOwned (o : Buffer) : Buffer := if isOwned o then o else {| o with isOwned := true |}.

(** A value and the snapshot it was read in; 0 is the null id. *)
Record Snapshotted := mkSnapshotted { snapshotId : Z; value : Buffer }.

Definition Snapshotted_new : Snapshotted := mkSnapshotted 0 (mkBuffer [] false).

(** [index] identifies the access method of the index. *)
Record IndexKeyDatum := mkIndexKeyDatum {
  indexKeyPattern : list (list Z * BSONValue);
  datumKey : list (list Z * BSONValue);
  index : nat;
}.

Inductive WorkingSetComputedData :=
| TextScoreComputedData (score : double)
| GeoDistanceComputedData (dist : double)
| IndexKeyComputedData (key : Buffer)
| GeoNearPointComputedData (point : Buffer)
| SortKeyComputedData (sortKey : Buffer).

Definition WSM_COMPUTED_NUM_TYPES : nat := 5.

Definition computed_type (d : WorkingSetComputedData) : nat :=
  match d with
  | TextScoreComputedData _ => 0
  | GeoDistanceComputedData _ => 1
  | IndexKeyComputedData _ => 2
  | GeoNearPointComputedData _ => 3
  | SortKeyComputedData _ => 4
  end.

(** The constructors of the data that hold objects take owned copies. *)
Definition clone (d : WorkingSetComputedData) : WorkingSetComputedData :=
  match d with
  | TextScoreComputedData s => TextScoreComputedData s
  | GeoDistanceComputedData x => GeoDistanceComputedData x
  | IndexKeyComputedData k => IndexKeyComputedData (getOwned k)
  | GeoNearPointComputedData p => GeoNearPointComputedData (getOwned p)
  | SortKeyComputedData k => SortKeyComputedData (getOwned k)
  end.

Inductive MemberState := INVALID | RID_AND_IDX | RID_AND_OBJ | OWNED_OBJ.

#[global] Instance MemberState_eq_dec : EqDecision MemberState.
Proof. solve_decision. Defined.

(** The null record id is 0; [computed] has one slot for each type of computed data. *)
Record WorkingSetMember := mkMember {
  mstate : MemberState;
  recordId : Z;
  obj : Snapshotted;
  keyData : list IndexKeyDatum;
  isSuspicious : bool;
  computed : list (option WorkingSetComputedData);
}.

Definition no_computed : list (option WorkingSetComputedData) := replicate WSM_COMPUTED_NUM_TYPES None.

Definition WorkingSetMember_new : WorkingSetMember :=
  mkMember INVALID 0 Snapshotted_new [] false no_computed.

Definition member_clear (m : WorkingSetMember) : WorkingSetMember :=
  {| m with mstate := INVALID; obj := Snapshotted_new; keyData := []; computed := no_computed |}.

Definition hasRecordId (m : WorkingSetMember) : bool :=
  bool_decide (mstate m = RID_AND_IDX) || bool_decide (mstate m = RID_AND_OBJ).

Definition hasObj (m : WorkingSetMember) : bool :=
  bool_decide (mstate m = OWNED_OBJ) || bool_decide (mstate m = RID_AND_OBJ).

Definition hasOwnedObj (m : WorkingSetMember) : bool :=
  bool_decide (mstate m = OWNED_OBJ) || bool_decide (mstate m = RID_AND_OBJ) && isOwned (value (obj m)).

Definition member_transitionToOwnedObj (m : WorkingSetMember) : option WorkingSetMember :=
  invariant (isOwned (value (obj m)));;
  Some {| m with mstate := OWNED_OBJ |}.

Definition makeObjOwnedIfNeeded (m : WorkingSetMember) : WorkingSetMember :=
  if bool_decide (mstate m = RID_AND_OBJ) && negb (isOwned (value (obj m))) then
    {| m with obj := {| (obj m) with value := getOwned (value (obj m)) |} |}
  else m.

Definition getComputed (m : WorkingSetMember) (type : nat) : option WorkingSetComputedData :=
  mjoin (computed m !! type).

Definition hasComputed (m : WorkingSetMember) (type : nat) : bool := bool_decide (is_Some (getComputed m type)).

Definition addComputed (m : WorkingSetMember) (d : WorkingSetComputedData) : option WorkingSetMember :=
  invariant (negb (hasComputed m (computed_type d)));;
  Some {| m with computed := <[computed_type d := Some d]> (computed m) |}.

(** ** Fields of objects *)

Definition getField (o : Object) (name : list Z) : Element :=
  match List.find (fun e => bool_decide (e.1 = name)) o with
  | Some e => e
  | None => elt_eoo
  end.

Definition is_eoo (e : Element) : bool := match e.2 with vEOO => true | _ => false end.

Definition getObjectField (o : Object) (name : list Z) : Object :=
  match (getField o name).2 with vObject sub | vArray sub => sub | _ => [] end.

(** The part of a path before and after its first dot. *)
Fixpoint split_dot (path : list Z) : option (list Z * list Z) :=
  match path with
  | [] => None
  | c :: path => if c =? 46 then Some ([], path) else '(l, r) ← split_dot path; Some (c :: l, r)
  end.

Fixpoint extract_with (fuel : nat) (o : Object) (path : list Z) : Element :=
  let e := getField o path in
  match fuel with
  | O => e
  | S fuel =>
      if is_eoo e then
        match split_dot path with
        | Some (prefix, suffix) =>
            let sub := getObjectField o prefix in
            if bool_decide (sub = []) then elt_eoo else extract_with fuel sub suffix
        | None => e
        end
      else e
  end.

(** Each step takes a dot off the path. *)
Definition extractElementAtPath (o : Object) (path : list Z) : Element := extract_with (length path) o path.

(** The element of the key at the position of [field] in the pattern. *)
Fixpoint key_field (field : list Z) (pattern key : Object) : option (option Element) :=
  match pattern with
  | [] => Some None
  | p :: pattern =>
      match key with
      | [] => None
      | k :: key => if bool_decide (field = p.1) then Some (Some k) else key_field field pattern key
      end
  end.

Fixpoint keys_field (field : list Z) (l : list IndexKeyDatum) : option (option Element) :=
  match l with
  | [] => Some None
  | d :: l =>
      r ← key_field field (indexKeyPattern d) (datumKey d);
      match r with Some e => Some (Some e) | None => keys_field field l end
  end.

(** The inner option is the boolean that the function returns with its out parameter. *)
Definition getFieldDotted (m : WorkingSetMember) (field : list Z) : option (option Element) :=
  if hasObj m then Some (Some (extractElementAtPath (contents (value (obj m))) field))
  else keys_field field (keyData m).

(** ** The working set *)

(** [INVALID_ID] is [None]. *)
Record MemberHolder := mkHolder { nextFreeOrSelf : option nat; member : WorkingSetMember }.

Record WorkingSet := mkWorkingSet {
  data : list MemberHolder;
  freeList : option nat;
  yieldSensitiveIds : list nat;
}.

Definition WorkingSet_new : WorkingSet := mkWorkingSet [] None [].

Definition allocate (ws : WorkingSet) : option (WorkingSet * nat) :=
  match freeList ws with
  | None =>
      let id := length (data ws) in
      Some ({| ws with data := data ws ++ [mkHolder (Some id) WorkingSetMember_new] |}, id)
  | Some id =>
      h ← data ws !! id;
      Some ({| ws with freeList := nextFreeOrSelf h;
                       data := <[id := {| h with nextFreeOrSelf := Some id |}]> (data ws) |}, id)
  end.

(** With the assertions of a debug build: a freed member is not to be used. *)
Definition get (ws : WorkingSet) (i : nat) : option WorkingSetMember :=
  h ← data ws !! i;
  invariant (bool_decide (nextFreeOrSelf h = Some i));;
  Some (member h).

Definition isFree (ws : WorkingSet) (i : nat) : option bool :=
  h ← data ws !! i;
  Some (negb (bool_decide (nextFreeOrSelf h = Some i))).

Definition free (ws : WorkingSet) (i : nat) : option WorkingSet :=
  h ← data ws !! i;
  invariant (bool_decide (nextFreeOrSelf h = Some i));;
  Some {| ws with data := <[i := mkHolder (freeList ws) (member_clear (member h))]> (data ws);
                  freeList := Some i |}.

Definition clear (ws : WorkingSet) : WorkingSet := mkWorkingSet [] None [].

(** Writing through the pointer that [get] returns. *)
Definition put (ws : WorkingSet) (i : nat) (m : WorkingSetMember) : WorkingSet :=
  {| ws with data := alter (fun h => {| h with member := m |}) i (data ws) |}.

Definition transitionToRecordIdAndIdx (ws : WorkingSet) (id : nat) : option WorkingSet :=
  m ← get ws id;
  let ws := put ws id {| m with mstate := RID_AND_IDX |} in
  Some {| ws with yieldSensitiveIds := yieldSensitiveIds ws ++ [id] |}.

Definition transitionToRecordIdAndObj (ws : WorkingSet) (id : nat) : option WorkingSet :=
  m ← get ws id;
  Some (put ws id {| m with mstate := RID_AND_OBJ |}).

Definition transitionToOwnedObj (ws : WorkingSet) (id : nat) : option WorkingSet :=
  m ← get ws id;
  m ← member_transitionToOwnedObj m;
  Some (put ws id m).

Definition getAndClearYieldSensitiveIds (ws : WorkingSet) : WorkingSet * list nat :=
  ({| ws with yieldSensitiveIds := [] |}, yieldSensitiveIds ws).

(** ** The operations shared by the stages *)

(** The loop of [prepareForSnapshotChange]. *)
Fixpoint suspect (ws : WorkingSet) (ids : list nat) : option WorkingSet :=
  match ids with
  | [] => Some ws
  | id :: ids =>
      b ← isFree ws id;
      if (b : bool) then suspect ws ids
      else
        m ← get ws id;
        let ws := if bool_decide (mstate m = RID_AND_IDX) then put ws id {| m with isSuspicious := true |} else ws in
        suspect ws ids
  end.

Definition prepareForSnapshotChange (ws : WorkingSet) : option WorkingSet :=
  let '(ws, ids) := getAndClearYieldSensitiveIds ws in suspect ws ids.

(** The bytes of ok, code and errmsg. *)
Definition field_ok : list Z := [111; 107].
Definition field_code : list Z := [99; 111; 100; 101].
Definition field_errmsg : list Z := [101; 114; 114; 109; 115; 103].

(** A status: its code, 0 when it is ok, and its reason, without extra information. *)
Record Status := mkStatus { scode : int32; reason : list Z }.

Definition double_0 : double := mkDouble (DFin 0 0) eq_refl.
Definition double_1 : double := mkDouble (DFin 1 0) eq_refl.

Definition buildMemberStatusObject (s : Status) : Object :=
  [(field_ok, vNumber (NumDouble (if i32 (scode s) =? 0 then double_1 else double_0)));
   (field_code, vNumber (NumInt (scode s)));
   (field_errmsg, vString (reason s))].

Definition allocateStatusMember (ws : WorkingSet) (s : Status) : option (WorkingSet * nat) :=
  '(ws, wsid) ← allocate ws;
  m ← get ws wsid;
  m ← member_transitionToOwnedObj {| m with obj := mkSnapshotted 0 (mkBuffer (buildMemberStatusObject s) true) |};
  Some (put ws wsid m, wsid).

Definition isValidStatusMemberObject (o : Object) : bool :=
  negb (is_eoo (getField o field_ok)) &&
  match (getField o field_code).2 with vNumber (NumInt _) => true | _ => false end &&
  match (getField o field_errmsg).2 with vString _ => true | _ => false end.

(** The inner option is the object that is assigned to the out parameter, if any. *)
Definition getStatusMemberObject (ws : WorkingSet) (wsid : option nat) : option (option Object) :=
  match wsid with
  | None => Some None
  | Some id =>
      m ← get ws id;
      if negb (hasOwnedObj m) then Some None
      else
        let o := contents (value (obj m)) in
        if negb (isValidStatusMemberObject o) then Some None else Some (Some o)
  end.

Definition getMemberObjectStatus (o : Object) : option Status :=
  invariant (isValidStatusMemberObject o);;
  match (getField o field_code).2, (getField o field_errmsg).2 with
  | vNumber (NumInt c), vString r => Some (mkStatus c r)
  | _, _ => None
  end.

Definition getMemberStatus (m : WorkingSetMember) : option Status :=
  invariant (hasObj m);;
  getMemberObjectStatus (contents (value (obj m))).

(** What a record cursor finds for a record id. *)
Inductive SeekResult := Found (doc : Buffer) | NotFound | WriteConflict.

(** The result of a fetch: whether the document is to be considered, or a write conflict. *)
Inductive FetchResult := Fetched | Gone | FetchConflict.

(** Keys are compared as [SimpleBSONObjComparator] compares them. *)
Definition same_object (a b : Object) : bool := BSONObj_woCompare true [] a b =? 0.

Definition keys_valid (getKeys : nat -> Object -> list Object) (doc : Object) (l : list IndexKeyDatum) : bool :=
  forallb (fun d => existsb (same_object (datumKey d)) (getKeys (index d) doc)) l.

(** The member after the cursor has returned [r]; [snapshot] is the id of the current snapshot
    and [getKeys] gives the keys of a document in an index. *)
Definition fetch_member (r : SeekResult) (snapshot : Z) (getKeys : nat -> Object -> list Object)
    (m : WorkingSetMember) : option (WorkingSetMember * FetchResult) :=
  let m := {| m with obj := Snapshotted_new |} in
  match r with
  | WriteConflict => Some (m, FetchConflict)
  | NotFound => Some (m, Gone)
  | Found doc =>
      let m := {| m with obj := mkSnapshotted snapshot doc |} in
      if isSuspicious m then
        invariant (negb (bool_decide (keyData m = [])));;
        if keys_valid getKeys (contents doc) (keyData m) then
          Some ({| m with isSuspicious := false; keyData := []; mstate := RID_AND_OBJ |}, Fetched)
        else Some (m, Gone)
      else Some ({| m with keyData := []; mstate := RID_AND_OBJ |}, Fetched)
  end.

Definition fetch {Cur} (seekExact : Cur -> Z -> Cur * SeekResult) (snapshot : Z) (getKeys : nat -> Object -> list Object)
    (ws : WorkingSet) (c : Cur) (id : nat) : option (WorkingSet * Cur * FetchResult) :=
  m ← get ws id;
  invariant (hasRecordId m);;
  let '(c, r) := seekExact c (recordId m) in
  '(m, f) ← fetch_member r snapshot getKeys m;
  Some (put ws id m, c, f).
