(* ===== verification/WorkingSetSpec.v ===== *)
(** * The working set is a finite map

    The invariant of the free list and the abstraction of a working set to the map of its
    members in use; what each operation does to the map; the marking of index members before a
    snapshot changes; and the splitting of the map between the stages that own the members. *)

From Stdlib Require Import ZArith Lia.
From stdpp Require Import prelude gmap.
From S2P Require Import Prelude TotalOrder CompareNumbers Bson ElementOrder WorkingSet.

Open Scope Z_scope.

Abbreviation heap := (gmap nat WorkingSetMember) (only parsing).

(** ** Abstraction and invariant *)

Definition in_use (i : nat) (h : MemberHolder) : option WorkingSetMember :=
  if bool_decide (nextFreeOrSelf h = Some i) then Some (member h) else None.

(** The members in use. *)
Definition live (ws : WorkingSet) : heap := map_imap in_use (map_seq 0 (data ws)).

Lemma live_lookup ws i : live ws !! i = data ws !! i ≫= in_use i.
Proof. unfold live. by rewrite map_lookup_imap, lookup_map_seq_0. Qed.

Lemma get_live ws i : get ws i = live ws !! i.
Proof.
  rewrite live_lookup. unfold get. destruct (data ws !! i) as [h|]; [|done]. cbn. unfold in_use.
  by destruct (bool_decide _).
Qed.

(** A member as it is after it has been freed: the record id and the mark of a yield stay. *)
Definition emptied (m : WorkingSetMember) : Prop :=
  mstate m = INVALID /\ obj m = Snapshotted_new /\ keyData m = [] /\ computed m = no_computed.

(** The links from [first] go through [l]. *)
Inductive free_chain (d : list MemberHolder) : option nat -> list nat -> Prop :=
| chain_nil : free_chain d None []
| chain_cons i h l : d !! i = Some h -> nextFreeOrSelf h <> Some i -> emptied (member h) ->
    free_chain d (nextFreeOrSelf h) l -> free_chain d (Some i) (i :: l).

Record ws_ok (ws : WorkingSet) : Prop := {
  ok_chain : exists l, free_chain (data ws) (freeList ws) l /\ NoDup l /\
    (forall i, (i < length (data ws))%nat -> live ws !! i = None -> i ∈ l);
  ok_sensitive : forall i, i ∈ yieldSensitiveIds ws -> (i < length (data ws))%nat;
}.

Lemma chain_free d f l i : free_chain d f l -> i ∈ l -> exists h, d !! i = Some h /\ nextFreeOrSelf h <> Some i.
Proof.
  induction 1 as [|j h l Hj Hn He Hc IH]; intros Hi; [by apply not_elem_of_nil in Hi|].
  apply elem_of_cons in Hi as [->|Hi]; [by exists h|by apply IH].
Qed.

Lemma chain_frame d d' f l : (forall i, i ∈ l -> d' !! i = d !! i) -> free_chain d f l -> free_chain d' f l.
Proof.
  intros Hd. induction 1 as [|j h l Hj Hn He Hc IH]; [constructor|].
  econstructor; [rewrite Hd; [done|set_solver]|done|done|]. apply IH. set_solver.
Qed.

Lemma chain_not_live ws l i : free_chain (data ws) (freeList ws) l -> i ∈ l -> live ws !! i = None.
Proof.
  intros Hc Hi. destruct (chain_free _ _ _ _ Hc Hi) as (h & Hh & Hn). rewrite live_lookup, Hh. cbn. unfold in_use.
  by rewrite bool_decide_eq_false_2.
Qed.

Lemma live_data ws i m : live ws !! i = Some m -> exists h, data ws !! i = Some h /\ nextFreeOrSelf h = Some i /\ member h = m.
Proof.
  rewrite live_lookup. destruct (data ws !! i) as [h|] eqn:Hh; [|done]. cbn. unfold in_use.
  destruct (decide (nextFreeOrSelf h = Some i)) as [Hs|Hs]; [rewrite bool_decide_eq_true_2 by done|by rewrite bool_decide_eq_false_2].
  intros [= <-]. by exists h.
Qed.

(** Replacing one holder changes the map at that id only. *)
Lemma live_insert ws d' i h : d' = <[i := h]> (data ws) -> (i < length (data ws))%nat ->
  forall f y, live (mkWorkingSet d' f y) = partial_alter (fun _ => in_use i h) i (live ws).
Proof.
  intros -> Hi f y. apply map_eq. intros j. rewrite live_lookup. cbn [data].
  destruct (decide (j = i)) as [->|Hne].
  - by rewrite list_lookup_insert_eq, lookup_partial_alter_eq.
  - by rewrite list_lookup_insert_ne, lookup_partial_alter_ne, live_lookup.
Qed.

Lemma in_use_self i h : nextFreeOrSelf h = Some i -> in_use i h = Some (member h).
Proof. intros Hs. unfold in_use. by rewrite bool_decide_eq_true_2. Qed.

Lemma in_use_other i h : nextFreeOrSelf h <> Some i -> in_use i h = None.
Proof. intros Hs. unfold in_use. by rewrite bool_decide_eq_false_2. Qed.

(** ** The operations on the map *)

Lemma new_ok : ws_ok WorkingSet_new /\ live WorkingSet_new = ∅.
Proof.
  split; [|done]. split; [|intros i Hi; by apply not_elem_of_nil in Hi].
  exists []. split_and!; [constructor|constructor|]. simpl. lia.
Qed.

(** The vector grows when the free list is empty. *)
Lemma grow_live ws n :
  n = length (data ws) ->
  forall f y, live (mkWorkingSet (data ws ++ [mkHolder (Some n) WorkingSetMember_new]) f y) = <[n := WorkingSetMember_new]> (live ws).
Proof.
  intros -> f y. apply map_eq. intros j. rewrite live_lookup. cbn [data]. destruct (decide (j = length (data ws))) as [->|Hne].
  - rewrite list_lookup_middle, lookup_insert_eq by done. cbn. by rewrite in_use_self.
  - rewrite lookup_insert_ne, live_lookup by done. destruct (decide (j < length (data ws))%nat); [by rewrite lookup_app_l|].
    rewrite (lookup_ge_None_2 (data ws)) by lia. rewrite lookup_ge_None_2; [done|]. rewrite length_app. simpl. lia.
Qed.

Definition allocates (ws : WorkingSet) (r : option (WorkingSet * nat)) : Prop :=
  exists ws' id m, r = Some (ws', id) /\ ws_ok ws' /\ live ws !! id = None /\ emptied m /\
    live ws' = <[id := m]> (live ws) /\ yieldSensitiveIds ws' = yieldSensitiveIds ws.

Lemma allocate_grow ws : ws_ok ws -> freeList ws = None -> allocates ws (allocate ws).
Proof.
  intros [(l & Hc & Hnd & Hall) Hy] Hf. unfold allocate. rewrite Hf in *. inversion Hc; subst l.
  set (n := length (data ws)). pose proof (grow_live ws n eq_refl) as Hlive.
  eexists _, n, WorkingSetMember_new. split_and!; [done| |by rewrite live_lookup, lookup_ge_None_2|done|apply Hlive|done].
  split; cbn [data yieldSensitiveIds freeList].
  - exists []. split_and!; [constructor|constructor|]. rewrite Hlive, length_app. intros j Hj. simpl in Hj.
    destruct (decide (j = n)) as [->|Hne]; [by rewrite lookup_insert_eq|]. rewrite lookup_insert_ne by done. apply Hall. lia.
  - intros j Hj. rewrite length_app. specialize (Hy j Hj). lia.
Qed.

Lemma allocate_recycle ws i : ws_ok ws -> freeList ws = Some i -> allocates ws (allocate ws).
Proof.
  intros [(l & Hc & Hnd & Hall) Hy] Hf. unfold allocate.
  assert (forall j, j ∈ l -> live ws !! j = None) as Hfree by (intros j; by apply chain_not_live).
  rewrite Hf in *. inversion Hc as [|i' h l' Hi Hn He Hc' Hi' Hl]; subst l i'.
  assert (i < length (data ws))%nat as Hlt by by eapply lookup_lt_Some.
  rewrite Hi. cbn [mbind option_bind]. set (h' := {| h with nextFreeOrSelf := Some i |}).
  assert (forall f y, live (mkWorkingSet (<[i := h']> (data ws)) f y) = <[i := member h]> (live ws)) as Hlive.
  { intros f y. rewrite (live_insert ws _ i h') by done. by rewrite in_use_self. }
  apply NoDup_cons in Hnd as [Hni Hnd].
  eexists _, i, (member h). split_and!; [done| |apply Hfree; set_solver|done|apply Hlive|done].
  split; cbn [data yieldSensitiveIds freeList].
  - exists l'. split_and!; [|done|].
    + apply (chain_frame (data ws)); [|done]. intros j Hj. apply list_lookup_insert_ne. by intros ->.
    + rewrite Hlive, length_insert. intros j Hj. destruct (decide (j = i)) as [->|Hne]; [by rewrite lookup_insert_eq|].
      rewrite lookup_insert_ne by done. intros Hn'. specialize (Hall j Hj Hn'). set_solver.
  - intros j Hj. rewrite length_insert. by apply Hy.
Qed.

Lemma allocate_spec ws : ws_ok ws -> allocates ws (allocate ws).
Proof. intros Hok. destruct (freeList ws) eqn:Hf; [by eapply allocate_recycle|by apply allocate_grow]. Qed.

Lemma free_spec ws i m :
  ws_ok ws -> live ws !! i = Some m ->
  exists ws', free ws i = Some ws' /\ ws_ok ws' /\ live ws' = delete i (live ws) /\ yieldSensitiveIds ws' = yieldSensitiveIds ws.
Proof.
  intros [(l & Hc & Hnd & Hall) Hy] (h & Hh & Hs & Hm)%live_data. unfold free. rewrite Hh. cbn [mbind option_bind].
  rewrite invariant_bind by by apply bool_decide_eq_true_2.
  assert (i < length (data ws))%nat as Hlt by by eapply lookup_lt_Some.
  assert (forall j, j ∈ l -> live ws !! j = None) as Hfree by (intros j; by apply chain_not_live).
  assert (i ∉ l) as Hni by (intros Hi; apply Hfree in Hi; rewrite live_lookup, Hh in Hi; cbn in Hi; by rewrite in_use_self in Hi).
  set (h' := mkHolder (freeList ws) (member_clear (member h))).
  assert (nextFreeOrSelf h' <> Some i) as Hn' by (intros Hf; simpl in Hf; rewrite Hf in Hc; inversion Hc; set_solver).
  assert (forall f y, live (mkWorkingSet (<[i := h']> (data ws)) f y) = delete i (live ws)) as Hlive.
  { intros f y. rewrite (live_insert ws _ i h') by done. by rewrite in_use_other. }
  eexists _. split_and!; [done| |apply Hlive|done]. split; cbn [data yieldSensitiveIds freeList].
  - exists (i :: l). split_and!; [|by apply NoDup_cons|].
    + apply (chain_cons _ i h'); [by apply list_lookup_insert_eq|done|done|]. apply (chain_frame (data ws)); [|done].
      intros j Hj. apply list_lookup_insert_ne. by intros ->.
    + rewrite Hlive, length_insert. intros j Hj. destruct (decide (j = i)) as [->|Hne]; [set_solver|].
      rewrite lookup_delete_ne by done. intros Hn. specialize (Hall j Hj Hn). set_solver.
  - intros j Hj. rewrite length_insert. by apply Hy.
Qed.

Lemma free_dead ws i : live ws !! i = None -> free ws i = None.
Proof.
  rewrite <- get_live. unfold get, free. destruct (data ws !! i) as [h|]; [|done]. cbn. by destruct (bool_decide _).
Qed.

Lemma put_data ws i m h : data ws !! i = Some h -> data (put ws i m) = <[i := {| h with member := m |}]> (data ws).
Proof. intros Hh. cbn. apply list_eq. intros j. destruct (decide (j = i)) as [->|Hne].
  - rewrite list_lookup_alter_eq, Hh, list_lookup_insert_eq; [done|by eapply lookup_lt_Some].
  - by rewrite list_lookup_alter_ne, list_lookup_insert_ne.
Qed.

Lemma put_spec ws i m0 m :
  ws_ok ws -> live ws !! i = Some m0 ->
  ws_ok (put ws i m) /\ live (put ws i m) = <[i := m]> (live ws).
Proof.
  intros [(l & Hc & Hnd & Hall) Hy] Hlive0. pose proof (live_data _ _ _ Hlive0) as (h & Hh & Hs & Hm).
  assert (i < length (data ws))%nat as Hlt by by eapply lookup_lt_Some.
  assert (live (put ws i m) = <[i := m]> (live ws)) as Hlive.
  { pose proof (live_insert ws _ i _ (put_data ws i m h Hh) Hlt) as Hins. unfold put in *. cbn [data] in Hins. rewrite Hins. by rewrite in_use_self. }
  split; [|done]. split; rewrite (put_data ws i m h Hh).
  - exists l. rewrite Hlive, length_insert. split_and!; [|done|].
    + apply (chain_frame (data ws)); [|done]. intros j Hj. apply list_lookup_insert_ne. intros ->.
      by rewrite (chain_not_live ws l j) in Hlive0.
    + intros j Hj Hn. apply Hall; [done|]. destruct (decide (j = i)) as [->|]; [by rewrite lookup_insert_eq in Hn|by rewrite lookup_insert_ne in Hn].
  - intros j Hj. rewrite length_insert. by apply Hy.
Qed.

(** [C26] The free list and the vector implement a finite map from ids to members: an id that
    is allocated is not in use and gets a member without data, an id can be freed exactly when
    it is in use and is then gone, reading an id that is not in use fails, a write changes that
    member only, and the invariant of the free list is kept; the working set is empty at the
    start and after it is cleared. *)
Theorem WorkingSet_refines_map ws :
  ws_ok ws ->
  (forall i, get ws i = live ws !! i) /\
  (exists ws' id m, allocate ws = Some (ws', id) /\ ws_ok ws' /\ live ws !! id = None /\ emptied m /\ live ws' = <[id := m]> (live ws)) /\
  (forall i, if decide (is_Some (live ws !! i))
     then exists ws', free ws i = Some ws' /\ ws_ok ws' /\ live ws' = delete i (live ws)
     else free ws i = None) /\
  (forall i m, is_Some (live ws !! i) -> ws_ok (put ws i m) /\ live (put ws i m) = <[i := m]> (live ws)) /\
  ws_ok (clear ws) /\ live (clear ws) = ∅ /\ ws_ok WorkingSet_new /\ live WorkingSet_new = ∅.
Proof.
  intros Hok. pose proof new_ok as [Hn Hl]. split_and!; try done.
  - apply get_live.
  - destruct (allocate_spec ws Hok) as (ws' & id & m & ? & ? & ? & ? & ? & _). by exists ws', id, m.
  - intros i. destruct (decide _) as [[m Hm]|Hm].
    + destruct (free_spec ws i m Hok Hm) as (ws' & ? & ? & ? & _). by exists ws'.
    + apply free_dead. by apply eq_None_not_Some.
  - intros i m [m0 Hm]. by eapply put_spec.
Qed.

(** ** Runs of the working set and snapshot changes *)

(** What a stage does to the working set.  An edit changes the data of a member but neither
    its state nor the mark of a yield. *)
Inductive WsOp :=
| OpAllocate
| OpFree (i : nat)
| OpEdit (i : nat) (f : WorkingSetMember -> WorkingSetMember)
| OpToIdx (i : nat)
| OpToObj (i : nat)
| OpToOwned (i : nat)
| OpFetch (i : nat) (r : SeekResult) (snapshot : Z) (getKeys : nat -> Object -> list Object)
| OpPrepare
| OpClear.

Definition edit (f : WorkingSetMember -> WorkingSetMember) (m : WorkingSetMember) : WorkingSetMember :=
  {| (f m) with mstate := mstate m; isSuspicious := isSuspicious m |}.

Definition run_op (ws : WorkingSet) (o : WsOp) : option WorkingSet :=
  match o with
  | OpAllocate => fst <$> allocate ws
  | OpFree i => free ws i
  | OpEdit i f => m ← get ws i; Some (put ws i (edit f m))
  | OpToIdx i => transitionToRecordIdAndIdx ws i
  | OpToObj i => transitionToRecordIdAndObj ws i
  | OpToOwned i => transitionToOwnedObj ws i
  | OpFetch i r snapshot getKeys => '(ws, _, _) ← fetch (fun (_ : unit) _ => ((), r)) snapshot getKeys ws () i; Some ws
  | OpPrepare => prepareForSnapshotChange ws
  | OpClear => Some (clear ws)
  end.

Fixpoint run_ops (ws : WorkingSet) (l : list WsOp) : option WorkingSet :=
  match l with [] => Some ws | o :: l => ws ← run_op ws o; run_ops ws l end.

(** A member with index data that is not marked will be looked at before the snapshot changes. *)
Definition flagged (ws : WorkingSet) : Prop :=
  forall i m, live ws !! i = Some m -> mstate m = RID_AND_IDX -> isSuspicious m = false -> i ∈ yieldSensitiveIds ws.

Definition mark (ids : list nat) (i : nat) (m : WorkingSetMember) : WorkingSetMember :=
  if bool_decide (i ∈ ids) && bool_decide (mstate m = RID_AND_IDX) then {| m with isSuspicious := true |} else m.

(** The members after the marking. *)
Definition marked (ids : list nat) (H : heap) : heap := map_imap (fun i m => Some (mark ids i m)) H.

Lemma marked_lookup ids H i : marked ids H !! i = mark ids i <$> H !! i.
Proof. unfold marked. rewrite map_lookup_imap. by destruct (H !! i). Qed.

Lemma isFree_live ws i : (i < length (data ws))%nat -> isFree ws i = Some (bool_decide (live ws !! i = None)).
Proof.
  intros [h Hh]%lookup_lt_is_Some. rewrite live_lookup. unfold isFree. rewrite Hh. cbn. unfold in_use.
  by destruct (bool_decide _).
Qed.

Lemma mark_twice ids i j m : mark ids j (mark [i] j m) = mark (i :: ids) j m.
Proof.
  unfold mark. destruct (decide (mstate m = RID_AND_IDX)) as [Hs|Hs].
  - rewrite (bool_decide_eq_true_2 _ Hs), !andb_true_r. destruct (decide (j = i)) as [->|Hne].
    + rewrite (bool_decide_eq_true_2 (i ∈ [i])), (bool_decide_eq_true_2 (i ∈ i :: ids)) by set_solver. simpl. by case_if.
    + rewrite (bool_decide_eq_false_2 (j ∈ [i])) by set_solver. rewrite (bool_decide_eq_true_2 _ Hs), andb_true_r.
      by rewrite (bool_decide_ext (j ∈ i :: ids) (j ∈ ids)) by set_solver.
  - rewrite (bool_decide_eq_false_2 _ Hs), !andb_false_r. by rewrite (bool_decide_eq_false_2 _ Hs), andb_false_r.
Qed.

Lemma marked_one i m (H : heap) :
  H !! i = Some m -> mstate m = RID_AND_IDX -> marked [i] H = <[i := {| m with isSuspicious := true |}]> H.
Proof.
  intros Hm Hs. apply map_eq. intros j. rewrite marked_lookup. unfold mark. destruct (decide (j = i)) as [->|Hne].
  - rewrite lookup_insert_eq, Hm. simpl. by rewrite !bool_decide_eq_true_2 by (done || apply list_elem_of_here).
  - rewrite lookup_insert_ne by done. rewrite bool_decide_eq_false_2 by set_solver. by destruct (H !! j).
Qed.

Lemma marked_none ids (H : heap) : (forall i m, i ∈ ids -> H !! i = Some m -> mstate m <> RID_AND_IDX) -> marked ids H = H.
Proof.
  intros Hs. apply map_eq. intros j. rewrite marked_lookup. unfold mark. destruct (H !! j) as [m|] eqn:Hm; [|done]. simpl.
  destruct (bool_decide (j ∈ ids)) eqn:Hj; [|done]. apply bool_decide_eq_true in Hj.
  by rewrite (bool_decide_eq_false_2 _ (Hs j m Hj Hm)).
Qed.

(** One step of the loop. *)
Lemma suspect_cons i ids ws :
  ws_ok ws -> (i < length (data ws))%nat ->
  exists ws1, suspect ws (i :: ids) = suspect ws1 ids /\ ws_ok ws1 /\ live ws1 = marked [i] (live ws) /\
    yieldSensitiveIds ws1 = yieldSensitiveIds ws /\ length (data ws1) = length (data ws).
Proof.
  intros Hok Hi. simpl. rewrite isFree_live by done. cbn [mbind option_bind]. destruct (live ws !! i) as [m|] eqn:Hm.
  - rewrite bool_decide_eq_false_2 by done. rewrite get_live, Hm. cbn [mbind option_bind]. eexists. split; [done|].
    destruct (decide (mstate m = RID_AND_IDX)) as [Hs|Hs].
    + rewrite bool_decide_eq_true_2 by done. destruct (put_spec ws i m {| m with isSuspicious := true |} Hok Hm) as [Hok' Hl'].
      rewrite Hl', (marked_one i m) by done. split_and!; try done. unfold put. cbn [data]. by rewrite length_alter.
    + rewrite bool_decide_eq_false_2 by done. rewrite marked_none by set_solver. done.
  - rewrite bool_decide_eq_true_2 by done. exists ws. rewrite marked_none by set_solver. done.
Qed.

Lemma suspect_spec ids ws :
  ws_ok ws -> (forall i, i ∈ ids -> (i < length (data ws))%nat) ->
  exists ws', suspect ws ids = Some ws' /\ ws_ok ws' /\ live ws' = marked ids (live ws) /\ yieldSensitiveIds ws' = yieldSensitiveIds ws.
Proof.
  revert ws. induction ids as [|i ids IH]; intros ws Hok Hids.
  { exists ws. rewrite marked_none by set_solver. done. }
  destruct (suspect_cons i ids ws Hok) as (ws1 & Heq & Hok1 & Hl1 & Hy1 & Hlen); [apply Hids; set_solver|].
  destruct (IH ws1 Hok1) as (ws' & Hs' & Hok' & Hl' & Hy'); [intros j Hj; rewrite Hlen; apply Hids; set_solver|].
  exists ws'. rewrite Heq. split_and!; try done; [|by rewrite Hy'].
  rewrite Hl', Hl1. apply map_eq. intros j. rewrite !marked_lookup. destruct (live ws !! j); [|done]. simpl. by rewrite mark_twice.
Qed.

Lemma sensitive_live ws y : live {| ws with yieldSensitiveIds := y |} = live ws.
Proof. done. Qed.

Lemma sensitive_ok ws y : ws_ok ws -> (forall i, i ∈ y -> (i < length (data ws))%nat) -> ws_ok {| ws with yieldSensitiveIds := y |}.
Proof. intros [Hc Hy] H. by split. Qed.

Lemma prepare_spec ws :
  ws_ok ws -> exists ws', prepareForSnapshotChange ws = Some ws' /\ ws_ok ws' /\
    live ws' = marked (yieldSensitiveIds ws) (live ws) /\ yieldSensitiveIds ws' = [].
Proof.
  intros Hok. unfold prepareForSnapshotChange, getAndClearYieldSensitiveIds.
  apply (suspect_spec (yieldSensitiveIds ws) {| ws with yieldSensitiveIds := [] |}); [|apply (ok_sensitive _ Hok)].
  apply sensitive_ok; [done|]. intros i Hi. by apply not_elem_of_nil in Hi.
Qed.

Definition ws_inv (ws : WorkingSet) : Prop := ws_ok ws /\ flagged ws.

(** Writing a member that is not new to the state with index data. *)
Lemma put_inv ws i m0 m :
  ws_inv ws -> live ws !! i = Some m0 ->
  (mstate m = RID_AND_IDX -> isSuspicious m = false -> mstate m0 = RID_AND_IDX /\ isSuspicious m0 = false) ->
  ws_inv (put ws i m).
Proof.
  intros [Hok Hfl] Hm Hst. destruct (put_spec ws i m0 m Hok Hm) as [Hok' Hl']. split; [done|]. intros j mj. rewrite Hl'.
  destruct (decide (j = i)) as [->|Hne].
  - rewrite lookup_insert_eq. intros [= <-] Hs Hu. destruct (Hst Hs Hu). by apply (Hfl i m0).
  - rewrite lookup_insert_ne by done. apply Hfl.
Qed.

Lemma fetch_member_state r snapshot getKeys m m' f :
  fetch_member r snapshot getKeys m = Some (m', f) ->
  mstate m' = RID_AND_IDX -> isSuspicious m' = false -> mstate m = RID_AND_IDX /\ isSuspicious m = false.
Proof.
  unfold fetch_member. intros H. destruct r as [doc| |]; [|by injection H as <- _..].
  cbn [isSuspicious keyData] in H. destruct (isSuspicious m) eqn:Hs; [inv_bind H; case_if|]; by injection H as <- _.
Qed.

Lemma toIdx_spec ws i m :
  ws_ok ws -> live ws !! i = Some m ->
  exists ws', transitionToRecordIdAndIdx ws i = Some ws' /\ ws_ok ws' /\
    live ws' = <[i := {| m with mstate := RID_AND_IDX |}]> (live ws) /\ yieldSensitiveIds ws' = yieldSensitiveIds ws ++ [i].
Proof.
  intros Hok Hm. unfold transitionToRecordIdAndIdx. rewrite get_live, Hm. cbn [mbind option_bind].
  destruct (put_spec ws i m {| m with mstate := RID_AND_IDX |} Hok Hm) as [Hok' Hl'].
  eexists. split_and!; [done| |by rewrite sensitive_live|done]. apply sensitive_ok; [done|].
  intros j [Hj|Hj]%elem_of_app; [by apply (ok_sensitive _ Hok')|]. apply list_elem_of_singleton in Hj as ->.
  apply live_data in Hm as (h & Hh & _). unfold put. cbn [data]. rewrite length_alter. by eapply lookup_lt_Some.
Qed.

Lemma toIdx_inv ws i ws' : ws_inv ws -> transitionToRecordIdAndIdx ws i = Some ws' -> ws_inv ws'.
Proof.
  intros [Hok Hfl] H. destruct (live ws !! i) as [m|] eqn:Hm; [|unfold transitionToRecordIdAndIdx in H; by rewrite get_live, Hm in H].
  destruct (toIdx_spec ws i m Hok Hm) as (ws1 & H1 & Hok1 & Hl & Hy). rewrite H in H1. injection H1 as <-. split; [done|].
  intros j mj. rewrite Hl, Hy. destruct (decide (j = i)) as [->|Hne]; [intros; set_solver|].
  rewrite lookup_insert_ne by done. intros. apply elem_of_app. left. by eapply Hfl.
Qed.

(** Every operation keeps the invariant. *)
Lemma run_op_inv ws o ws' : ws_inv ws -> run_op ws o = Some ws' -> ws_inv ws'.
Proof.
  intros [Hok Hfl]. destruct o as [|i|i f|i|i|i|i r snapshot getKeys| |]; simpl.
  - destruct (allocate_spec ws Hok) as (ws1 & id & m & -> & Hok1 & Hn & He & Hl & Hy). intros [= <-]. split; [done|].
    intros j mj. rewrite Hl, Hy. destruct (decide (j = id)) as [->|Hne]; [|rewrite lookup_insert_ne by done; apply Hfl].
    rewrite lookup_insert_eq. intros [= <-]. by destruct He as (-> & _).
  - intros Hf. destruct (live ws !! i) as [m|] eqn:Hm; [|by rewrite free_dead in Hf].
    destruct (free_spec ws i m Hok Hm) as (ws1 & Hf1 & Hok1 & Hl & Hy). rewrite Hf in Hf1. injection Hf1 as <-. split; [done|].
    intros j mj. rewrite Hl, Hy. intros [_ Hj]%lookup_delete_Some. by apply (Hfl j mj).
  - intros H. inv_bind H. rewrite get_live in Hx. injection H as <-. by eapply put_inv.
  - by apply toIdx_inv.
  - intros H. unfold transitionToRecordIdAndObj in H. inv_bind H. rewrite get_live in Hx. injection H as <-. by eapply put_inv.
  - intros H. unfold transitionToOwnedObj in H. inv_bind H. rewrite get_live in Hx. inv_bind H. injection H as <-.
    eapply put_inv; [done|done|]. unfold member_transitionToOwnedObj in Hx0. inv_bind Hx0. by injection Hx0 as <-.
  - intros H. inv_bind H. destruct x as [[ws1 c] f]. injection H as <-. unfold fetch in Hx. inv_bind Hx. inv_bind Hx.
    inv_bind Hx. destruct x1 as [m f']. injection Hx as <- _ _. rewrite get_live in Hx0. eapply put_inv; [done|done|]. by eapply fetch_member_state.
  - intros H. destruct (prepare_spec ws Hok) as (ws1 & Hp & Hok1 & Hl & Hy). rewrite Hp in H. injection H as <-. split; [done|].
    intros j mj. rewrite Hl, marked_lookup. destruct (live ws !! j) as [m|] eqn:Hm; [|done]. intros [= <-]. unfold mark.
    destruct (decide (mstate m = RID_AND_IDX)) as [Hs|Hs]; [|by rewrite (bool_decide_eq_false_2 _ Hs), andb_false_r].
    rewrite (bool_decide_eq_true_2 _ Hs), andb_true_r. case_if; [done|]. bprop. intros _ Hu. by pose proof (Hfl j m Hm Hs Hu).
  - intros [= <-]. split; [apply new_ok|]. intros j mj. done.
Qed.

Lemma run_ops_inv l ws ws' : ws_inv ws -> run_ops ws l = Some ws' -> ws_inv ws'.
Proof.
  revert ws. induction l as [|o l IH]; intros ws Hinv; simpl; [by intros [= <-]|]. intros H. inv_bind H.
  eapply IH; [|done]. by eapply run_op_inv.
Qed.

Lemma new_inv : ws_inv WorkingSet_new.
Proof. split; [apply new_ok|]. intros i m. by rewrite (proj2 new_ok). Qed.

(** Whatever the stages have done with the working set, the step before a snapshot changes
    succeeds, marks every member in use that only has index data as suspicious, although it
    looks only at the ids that were noted since the last change and some of these have been
    freed or used again, and changes nothing else. *)
Theorem snapshot_change_marks_index_members l ws :
  run_ops WorkingSet_new l = Some ws ->
  exists ws', prepareForSnapshotChange ws = Some ws' /\ ws_ok ws' /\
    live ws' = (fun m => if bool_decide (mstate m = RID_AND_IDX) then {| m with isSuspicious := true |} else m) <$> live ws.
Proof.
  intros Hrun. destruct (run_ops_inv _ _ _ new_inv Hrun) as [Hok Hfl]. destruct (prepare_spec ws Hok) as (ws' & Hp & Hok' & Hl & _).
  exists ws'. split_and!; try done. rewrite Hl. apply map_eq. intros i. rewrite marked_lookup, lookup_fmap.
  destruct (live ws !! i) as [m|] eqn:Hm; [|done]. simpl. f_equal. unfold mark.
  destruct (decide (mstate m = RID_AND_IDX)) as [Hs|Hs]; [|by rewrite (bool_decide_eq_false_2 _ Hs), andb_false_r].
  rewrite (bool_decide_eq_true_2 _ Hs), andb_true_r. case_if; [done|]. bprop.
  destruct (isSuspicious m) eqn:Hu; [|by pose proof (Hfl i m Hm Hs Hu)]. destruct m. simpl in *. by subst.
Qed.

(** A status survives the way through the working set: the member that is allocated for it
    is new, its object is found under its id, and the status read from the object is the
    original; the other members stay. *)
Theorem status_member_roundtrip ws st :
  ws_ok ws ->
  exists ws' id m, allocateStatusMember ws st = Some (ws', id) /\ ws_ok ws' /\ live ws !! id = None /\ live ws' = <[id := m]> (live ws) /\
    getStatusMemberObject ws' (Some id) = Some (Some (buildMemberStatusObject st)) /\ getMemberStatus m = Some st.
Proof.
  intros Hok. unfold allocateStatusMember. destruct (allocate_spec ws Hok) as (ws1 & id & m & -> & Hok1 & Hn & He & Hl & _).
  cbn [mbind option_bind]. rewrite get_live, Hl, lookup_insert_eq. cbn [mbind option_bind]. unfold member_transitionToOwnedObj. cbn [obj value isOwned invariant mbind option_bind].
  set (m' := {| mstate := OWNED_OBJ |}). destruct (put_spec ws1 id m m' Hok1) as [Hok2 Hl2]; [by rewrite Hl, lookup_insert_eq|].
  exists (put ws1 id m'), id, m'. rewrite Hl2, Hl, insert_insert_eq. split_and!; try done.
  - unfold getStatusMemberObject. rewrite get_live, Hl2, lookup_insert_eq. done.
  - unfold getMemberStatus, getMemberObjectStatus. simpl. by destruct st.
Qed.
