(* ===== verification/PlanStage.v ===== *)
(** * Plan stages and their contract

    Models the interface of [db/exec/plan_stage.h].  A stage is asked for a unit of work; it
    reads and changes the shared working set and may hand out the id of a member.  The class
    [PlanStage] has the operations.  [produces] is what a stage promises to the stage above
    it: however the rest of the working set is, a bounded number of calls hands out a given
    list of results and then reports the end or a failure; the stage touches only members that
    it owns, and the results that it hands out become the property of the caller.

    The counters of [work], the clock, and the saving and restoring of stages are left out. *)

From Stdlib Require Import ZArith Lia.
From stdpp Require Import prelude gmap.
From S2P Require Import Prelude TotalOrder CompareNumbers Bson ElementOrder WorkingSet WorkingSetSpec.

Open Scope Z_scope.

Inductive StageState := ADVANCED | IS_EOF | NEED_TIME | NEED_YIELD | DEAD | FAILURE.

#[global] Instance StageState_eq_dec : EqDecision StageState.
Proof. solve_decision. Defined.

(** The result of [work]: the working set, the stage, the state and the out parameter. *)
Abbreviation Worked St := (WorkingSet * St * StageState * option nat)%type (only parsing).

Class PlanStage (St : Type) := {
  work : WorkingSet -> St -> option (WorkingSet * St * StageState * option nat);
  isEOF : St -> bool;
}.

Lemma insert_middle {A} (l1 l2 : list A) x y : <[length l1 := y]> (l1 ++ x :: l2) = l1 ++ y :: l2.
Proof. replace (length l1) with (length l1 + 0)%nat by lia. by rewrite insert_app_r. Qed.

(** ** Splitting the members between owners *)

(** [H] consists of the disjoint parts [Os]. *)
Fixpoint splits (H : heap) (Os : list heap) : Prop :=
  match Os with
  | [] => H = ∅
  | P :: Os => exists F, P ##ₘ F /\ H = P ∪ F /\ splits F Os
  end.

Lemma splits_swap H O1 O2 Os : splits H (O1 :: O2 :: Os) -> splits H (O2 :: O1 :: Os).
Proof.
  intros (F1 & Hd1 & -> & F2 & Hd2 & -> & Hs). apply map_disjoint_union_r in Hd1 as [Hd12 Hd1].
  exists (O1 ∪ F2). split_and!.
  - apply map_disjoint_union_r. by split.
  - rewrite !map_union_assoc. f_equal. by apply map_union_comm.
  - by exists F2.
Qed.

#[global] Instance splits_Proper : Proper (eq ==> (≡ₚ) ==> iff) splits.
Proof.
  intros H ? <-. assert (forall Os Os', Os ≡ₚ Os' -> forall H, splits H Os -> splits H Os') as Hperm.
  { induction 1 as [|O Os Os' _ IH|O1 O2 Os|Os1 Os2 Os3 _ IH1 _ IH2]; intros H'; [done| |apply splits_swap|naive_solver].
    intros (F & ? & -> & HF). exists F. split_and!; try done. by apply IH. }
  intros Os Os' Hp. split; by apply Hperm.
Qed.

(** The parts of a part. *)
Lemma splits_expand H O Os Fs : splits O Os -> splits H (O :: Fs) -> splits H (Os ++ Fs).
Proof.
  revert H O. induction Os as [|P Os IH]; intros H O; simpl.
  - intros -> (F & _ & -> & HF). by rewrite map_empty_union.
  - intros (Q & HPQ & -> & HQ) (F & Hd & -> & HF). apply map_disjoint_union_l in Hd as [HPF HQF].
    exists (Q ∪ F). split_and!; [by apply map_disjoint_union_r|by rewrite map_union_assoc|].
    apply (IH _ Q); [done|]. by exists F.
Qed.

Lemma splits_collapse H Os Fs : splits H (Os ++ Fs) -> exists O, splits O Os /\ splits H (O :: Fs).
Proof.
  revert H. induction Os as [|P Os IH]; intros H; simpl.
  - intros HF. exists ∅. split; [done|]. exists H. split_and!; [apply map_disjoint_empty_l|by rewrite map_empty_union|done].
  - intros (F & Hd & -> & HF). destruct (IH _ HF) as (O & HO & F' & HdO & -> & HF').
    apply map_disjoint_union_r in Hd as [HPO HPF]. exists (P ∪ O). split.
    + by exists O.
    + exists F'. split_and!; [by apply map_disjoint_union_l|by rewrite map_union_assoc|done].
Qed.

Lemma splits_empty H Os : splits H (∅ :: Os) <-> splits H Os.
Proof.
  split.
  - intros (F & _ & -> & HF). by rewrite map_empty_union.
  - intros HF. exists H. split_and!; [apply map_disjoint_empty_l|by rewrite map_empty_union|done].
Qed.

Lemma splits_one P : splits P [P].
Proof. exists ∅. split_and!; [apply map_disjoint_empty_r|by rewrite map_union_empty|done]. Qed.

Lemma splits_join H P Q Os : splits H (P :: Q :: Os) -> splits H (P ∪ Q :: Os).
Proof.
  intros (F1 & Hd1 & -> & F2 & Hd2 & -> & HF). apply map_disjoint_union_r in Hd1 as [??].
  exists F2. rewrite map_union_assoc. split_and!; [by apply map_disjoint_union_l|done|done].
Qed.

Lemma splits_lookup H i m Os : splits H ({[i := m]} :: Os) -> H !! i = Some m.
Proof. intros (F & _ & -> & _). apply lookup_union_Some_l. by rewrite lookup_singleton_eq. Qed.

Lemma splits_insert H i m Os : H !! i = None -> splits H Os -> splits (<[i := m]> H) ({[i := m]} :: Os).
Proof.
  intros Hi Hs. exists H. split_and!; [by apply map_disjoint_singleton_l|by rewrite insert_union_singleton_l|done].
Qed.

Lemma splits_delete H i m Os : splits H ({[i := m]} :: Os) -> splits (delete i H) Os.
Proof.
  intros (F & Hd & -> & HF). apply map_disjoint_singleton_l in Hd. rewrite <- insert_union_singleton_l.
  by rewrite delete_insert_id.
Qed.

Lemma splits_update H i m m' Os : splits H ({[i := m]} :: Os) -> splits (<[i := m']> H) ({[i := m']} :: Os).
Proof.
  intros (F & Hd & -> & HF). exists F. apply map_disjoint_singleton_l in Hd as Hd'. split_and!; [by apply map_disjoint_singleton_l| |done].
  by rewrite <- !insert_union_singleton_l, insert_insert_eq.
Qed.

(** Give a part to a child and take back what the child leaves; [Q] is handed out. *)

Lemma splits_focus H O P l1 l2 Fs : splits O (l1 ++ P :: l2) -> splits H (O :: Fs) -> splits H (P :: l1 ++ l2 ++ Fs).
Proof.
  intros HO Hs. pose proof (splits_expand _ _ _ _ HO Hs) as Hx. rewrite <- app_assoc in Hx. simpl in Hx.
  by rewrite <- Permutation_middle in Hx.
Qed.

Lemma splits_defocus H Q P l1 l2 Fs :
  splits H (Q ++ P :: l1 ++ l2 ++ Fs) -> exists O, splits O (l1 ++ P :: l2) /\ splits H (Q ++ O :: Fs).
Proof.
  intros Hs. destruct (splits_collapse H (l1 ++ P :: l2) (Q ++ Fs)) as (O & HO & HH).
  - revert Hs. apply splits_Proper; [done|]. solve_Permutation.
  - exists O. split; [done|]. by rewrite <- Permutation_middle.
Qed.

(** The operations of the working set on owned members. *)

Lemma get_owned ws i m Fs : splits (live ws) ({[i := m]} :: Fs) -> get ws i = Some m.
Proof. intros Hs. rewrite get_live. by eapply splits_lookup. Qed.

Lemma free_owned ws i m Fs :
  ws_ok ws -> splits (live ws) ({[i := m]} :: Fs) ->
  exists ws', free ws i = Some ws' /\ ws_ok ws' /\ splits (live ws') Fs.
Proof.
  intros Hok Hs. destruct (free_spec ws i m Hok (splits_lookup _ _ _ _ Hs)) as (ws' & Hf & Hok' & Hl & _).
  exists ws'. rewrite Hl. split_and!; [done|done|]. by eapply splits_delete.
Qed.

Lemma put_owned ws i m m' Fs :
  ws_ok ws -> splits (live ws) ({[i := m]} :: Fs) ->
  ws_ok (put ws i m') /\ splits (live (put ws i m')) ({[i := m']} :: Fs).
Proof.
  intros Hok Hs. destruct (put_spec ws i m m' Hok (splits_lookup _ _ _ _ Hs)) as [Hok' ->].
  split; [done|]. by eapply splits_update.
Qed.

Lemma allocate_owned ws Fs :
  ws_ok ws -> splits (live ws) Fs ->
  exists ws' i m, allocate ws = Some (ws', i) /\ ws_ok ws' /\ emptied m /\ splits (live ws') ({[i := m]} :: Fs).
Proof.
  intros Hok Hs. destruct (allocate_spec ws Hok) as (ws' & i & m & Ha & Hok' & Hn & He & Hl & _).
  exists ws', i, m. rewrite Hl. split_and!; [done|done|done|]. by apply splits_insert.
Qed.

Lemma toIdx_owned ws i m Fs :
  ws_ok ws -> splits (live ws) ({[i := m]} :: Fs) ->
  exists ws', transitionToRecordIdAndIdx ws i = Some ws' /\ ws_ok ws' /\ splits (live ws') ({[i := {| m with mstate := RID_AND_IDX |}]} :: Fs).
Proof.
  intros Hok Hs. destruct (toIdx_spec ws i m Hok (splits_lookup _ _ _ _ Hs)) as (ws' & Ht & Hok' & Hl & _).
  exists ws'. rewrite Hl. split_and!; [done|done|]. by eapply splits_update.
Qed.

(** The details of a failure are a new member with the object of the status. *)
Lemma status_owned ws st Fs :
  ws_ok ws -> splits (live ws) Fs ->
  exists ws' i m, allocateStatusMember ws st = Some (ws', i) /\ ws_ok ws' /\ splits (live ws') ({[i := m]} :: Fs) /\
    mstate m = OWNED_OBJ /\ contents (value (obj m)) = buildMemberStatusObject st.
Proof.
  intros Hok Hs. unfold allocateStatusMember. destruct (allocate_owned ws Fs Hok Hs) as (ws1 & i & m & -> & Hok1 & He & Hs1).
  cbn [mbind option_bind]. rewrite (get_owned _ _ _ _ Hs1). cbn [mbind option_bind]. unfold member_transitionToOwnedObj. cbn.
  eexists _, i, _. split_and!; [done|by eapply put_owned..|done|done].
Qed.

(** ** The contract *)

(** What can be seen of a result: not the mark of a yield, which a recycled member may still
    have from its last use. *)
Definition view (m : WorkingSetMember) : WorkingSetMember := {| m with isSuspicious := false |}.

Lemma view_owned m : makeObjOwnedIfNeeded (view m) = view (makeObjOwnedIfNeeded m).
Proof. unfold makeObjOwnedIfNeeded. simpl. by case_if. Qed.

Lemma recordId_owned m : recordId (makeObjOwnedIfNeeded m) = recordId m.
Proof. unfold makeObjOwnedIfNeeded. by case_if. Qed.

(** How a stage ends: at the end of its results, or with a failure whose details are an object. *)
Inductive ending := AtEOF | Failed (r : StageState) (details : list (list Z * BSONValue)).

Section contract.
Context {St : Type} `{PlanStage St}.

(** One call: a stage that owns [P] and is still to hand out members that look like [l] and
    then to report [e] leaves a stage as [R] says. *)
Definition steps_to (R : heap -> St -> list WorkingSetMember -> ending -> Prop)
    (P : heap) (s : St) (l : list WorkingSetMember) (e : ending) : Prop :=
  (isEOF s = true -> l = [] /\ e = AtEOF) /\
  forall ws Fs, ws_ok ws -> splits (live ws) (P :: Fs) ->
  exists ws' s' r out P', work ws s = Some (ws', s', r, out) /\ ws_ok ws' /\
    match r with
    | ADVANCED => exists id m l', out = Some id /\ l = view m :: l' /\
        splits (live ws') ({[id := m]} :: P' :: Fs) /\ R P' s' l' e
    | NEED_TIME | NEED_YIELD => splits (live ws') (P' :: Fs) /\ R P' s' l e
    | IS_EOF => l = [] /\ e = AtEOF /\ isEOF s' = true /\ splits (live ws') (P' :: Fs)
    | FAILURE | DEAD => exists id m, out = Some id /\ l = [] /\ e = Failed r (contents (value (obj m))) /\
        splits (live ws') ({[id := m]} :: P' :: Fs)
    end.

(** At most [n] calls hand out members that look like [l] and then report [e]; [P] are the
    members that the stage owns. *)
Fixpoint produces (n : nat) : heap -> St -> list WorkingSetMember -> ending -> Prop :=
  match n with
  | O => fun _ _ _ _ => False
  | S n => steps_to (produces n)
  end.

Lemma produces_S n P s l e : produces (S n) P s l e <-> steps_to (produces n) P s l e.
Proof. done. Qed.

Lemma produces_more n n' O s l e : (n <= n')%nat -> produces n O s l e -> produces n' O s l e.
Proof.
  revert n' O s l. induction n as [|n IH]; intros n' O s l Hle; [done|]. destruct n' as [|n']; [lia|].
  rewrite !produces_S. intros [Heof Hw]. split; [done|]. intros ws Fs Hok Hs. destruct (Hw ws Fs Hok Hs) as (ws' & s' & r & out & O' & Hwork & Hok' & Hr).
  exists ws', s', r, out, O'. split_and!; try done.
  destruct r; naive_solver (eauto with lia).
Qed.

(** Call [work] until the end and take the results out of the working set. *)
Fixpoint drain (n : nat) (ws : WorkingSet) (s : St) : option (WorkingSet * list WorkingSetMember * ending) :=
  match n with
  | O => None
  | S n =>
      '(ws, s, r, out) ← work ws s;
      match r with
      | ADVANCED =>
          id ← out; m ← get ws id; ws ← free ws id;
          '(ws, l, e) ← drain n ws s;
          Some (ws, view m :: l, e)
      | NEED_TIME | NEED_YIELD => drain n ws s
      | IS_EOF => Some (ws, [], AtEOF)
      | FAILURE | DEAD => id ← out; m ← get ws id; ws ← free ws id; Some (ws, [], Failed r (contents (value (obj m))))
      end
  end.

(** The contract is about what a caller gets. *)
Lemma produces_drain n O s l e ws Fs :
  produces n O s l e -> ws_ok ws -> splits (live ws) (O :: Fs) ->
  exists ws' O', drain n ws s = Some (ws', l, e) /\ ws_ok ws' /\ splits (live ws') (O' :: Fs).
Proof.
  revert O s l ws. induction n as [|n IH]; intros O s l ws; [done|]. rewrite produces_S. intros [_ Hw] Hok Hs. simpl.
  destruct (Hw ws Fs Hok Hs) as (ws1 & s1 & r & out & O1 & -> & Hok1 & Hr). cbn [mbind option_bind].
  destruct r.
  - destruct Hr as (id & m & l' & -> & -> & Hs1 & Hp). destruct (free_owned _ _ _ _ Hok1 Hs1) as (ws2 & Hf & Hok2 & Hs2).
    cbn [mbind option_bind]. rewrite (get_owned _ _ _ _ Hs1). cbn [mbind option_bind]. rewrite Hf. cbn [mbind option_bind].
    destruct (IH O1 s1 l' ws2 Hp Hok2 Hs2) as (ws' & O' & -> & Hok' & Hs'). by exists ws', O'.
  - destruct Hr as (-> & -> & _ & Hs1). by exists ws1, O1.
  - destruct Hr as (Hs1 & Hp). by apply (IH O1).
  - destruct Hr as (Hs1 & Hp). by apply (IH O1).
  - destruct Hr as (id & m & -> & -> & -> & Hs1). destruct (free_owned _ _ _ _ Hok1 Hs1) as (ws2 & Hf & Hok2 & Hs2).
    cbn [mbind option_bind]. rewrite (get_owned _ _ _ _ Hs1). cbn [mbind option_bind]. rewrite Hf. by exists ws2, O1.
  - destruct Hr as (id & m & -> & -> & -> & Hs1). destruct (free_owned _ _ _ _ Hok1 Hs1) as (ws2 & Hf & Hok2 & Hs2).
    cbn [mbind option_bind]. rewrite (get_owned _ _ _ _ Hs1). cbn [mbind option_bind]. rewrite Hf. by exists ws2, O1.
Qed.
End contract.

(** A call whose result is known: the stage owns [P] afterwards. *)
Ltac call_returns P := eexists _, _, _, _, P; split; [reflexivity|split; [assumption|cbn beta iota]].
