(* ===== verification/Stages.v ===== *)
(** * The stages with one input and the OR stage

    Models [queued_data_stage.cpp], [limit.cpp], [skip.cpp], [fetch.cpp] and [or.cpp] of
    [db/exec].  A stage is a record with its children in it; children are of any type that
    has the operations of a stage.  Of the statistics only the counters of duplicates are kept. *)

From Stdlib Require Import ZArith Lia.
From stdpp Require Import prelude gmap.
From S2P Require Import Prelude TotalOrder CompareNumbers Bson ElementOrder WorkingSet WorkingSetSpec PlanStage.

Open Scope Z_scope.

(** ** Filters *)

(** What a match expression reads of a member: its document, or its index keys. *)
Inductive WorkingSetMatchableDocument :=
| MatchObject (doc : list (list Z * BSONValue))
| MatchKeys (keys : list IndexKeyDatum).

Definition matchable (m : WorkingSetMember) : WorkingSetMatchableDocument :=
  if hasObj m then MatchObject (contents (value (obj m))) else MatchKeys (keyData m).

(** A match expression is the function it computes. *)
Abbreviation MatchExpression := (WorkingSetMatchableDocument -> bool) (only parsing).

Definition passes (m : WorkingSetMember) (filter : option MatchExpression) : bool :=
  match filter with None => true | Some matches => matches (matchable m) end.

(** ** The queued data stage *)

Record QueuedDataStage := mkQueued { results : list StageState; members : list nat }.

(** The bytes of the message; the code of an internal error is 1. *)
Definition queued_failure : Status :=
  mkStatus (mkInt32 1 eq_refl)
    [81; 117; 101; 117; 101; 100; 32; 100; 97; 116; 97; 32; 115; 116; 97; 103; 101; 32; 102; 97; 105; 108; 117; 114; 101].

Definition QueuedDataStage_doWork (ws : WorkingSet) (s : QueuedDataStage) : option (Worked QueuedDataStage) :=
  match results s with
  | [] => Some (ws, s, IS_EOF, None)
  | state :: rest =>
      let s := {| s with results := rest |} in
      match state with
      | ADVANCED =>
          id ← head (members s);
          Some (ws, {| s with members := tail (members s) |}, state, Some id)
      | DEAD | FAILURE =>
          '(ws, id) ← allocateStatusMember ws queued_failure;
          Some (ws, s, state, Some id)
      | _ => Some (ws, s, state, None)
      end
  end.

Definition pushBack_state (s : QueuedDataStage) (state : StageState) : option QueuedDataStage :=
  invariant (negb (bool_decide (ADVANCED = state)));;
  Some {| s with results := results s ++ [state] |}.

Definition pushBack_id (s : QueuedDataStage) (id : nat) : QueuedDataStage :=
  mkQueued (results s ++ [ADVANCED]) (members s ++ [id]).

#[global] Instance QueuedDataStage_stage : PlanStage QueuedDataStage := {
  work := QueuedDataStage_doWork;
  isEOF s := bool_decide (results s = []);
}.

(** ** Record cursors *)

(** What a fetch relies on: a seek finds the record that is stored, or meets a write conflict;
    the number of conflicts to come is bounded. *)
Class SeekableRecordCursor (Cur : Type) := {
  seekExact : Cur -> Z -> Cur * SeekResult;
  stored_record : Z -> option Buffer;
  conflicts_left : Cur -> nat;
  seek_found c r :
    match (seekExact c r).2 with
    | WriteConflict => (conflicts_left (seekExact c r).1 < conflicts_left c)%nat
    | Found d => stored_record r = Some d /\ (conflicts_left (seekExact c r).1 <= conflicts_left c)%nat
    | NotFound => stored_record r = None /\ (conflicts_left (seekExact c r).1 <= conflicts_left c)%nat
    end;
}.

Section stages.
Context {St : Type} `{!PlanStage St}.

(** ** The limit *)

Record LimitStage := mkLimit { numToReturn : Z; limit_child : St }.

Definition LimitStage_isEOF (s : LimitStage) : bool := (0 =? numToReturn s) || isEOF (limit_child s).

Definition LimitStage_doWork (ws : WorkingSet) (s : LimitStage) : option (Worked LimitStage) :=
  if 0 =? numToReturn s then Some (ws, s, IS_EOF, None)
  else
    '(ws, child, status, id) ← work ws (limit_child s);
    let s := {| s with limit_child := child |} in
    match status with
    | ADVANCED => Some (ws, {| s with numToReturn := numToReturn s - 1 |}, status, id)
    | FAILURE | DEAD => invariant (bool_decide (is_Some id));; Some (ws, s, status, id)
    | NEED_YIELD => Some (ws, s, status, id)
    | _ => Some (ws, s, status, None)
    end.

(** ** Skipping *)

Record SkipStage := mkSkip { toSkip : Z; skip_child : St }.

Definition SkipStage_doWork (ws : WorkingSet) (s : SkipStage) : option (Worked SkipStage) :=
  '(ws, child, status, id) ← work ws (skip_child s);
  let s := {| s with skip_child := child |} in
  match status with
  | ADVANCED =>
      if toSkip s >? 0 then
        id ← id;
        ws ← free ws id;
        Some (ws, {| s with toSkip := toSkip s - 1 |}, NEED_TIME, None)
      else Some (ws, s, ADVANCED, id)
  | FAILURE | DEAD => invariant (bool_decide (is_Some id));; Some (ws, s, status, id)
  | NEED_YIELD => Some (ws, s, status, id)
  | _ => Some (ws, s, status, None)
  end.

(** ** Fetching documents *)

(** The cursor of the collection, the snapshot and the keys of documents are arguments. *)
Record FetchStage (Cur : Type) := mkFetch { idRetrying : option nat; cursor : Cur; fetch_child : St }.
#[local] Arguments mkFetch {Cur}.
#[local] Arguments idRetrying {Cur}.
#[local] Arguments cursor {Cur}.
#[local] Arguments fetch_child {Cur}.

Section fetch.
Context `{SeekableRecordCursor Cur} (snapshot : Z) (getKeys : nat -> Object -> list Object).
Variable filter : option MatchExpression.

Definition FetchStage_isEOF (s : FetchStage Cur) : bool :=
  match idRetrying s with Some _ => false | None => isEOF (fetch_child s) end.

Definition returnIfMatches (ws : WorkingSet) (s : FetchStage Cur) (m : WorkingSetMember) (id : nat) : option (Worked (FetchStage Cur)) :=
  if passes m filter then Some (ws, s, ADVANCED, Some id)
  else ws ← free ws id; Some (ws, s, NEED_TIME, None).

(** A member to fetch. *)
Definition fetch_advanced (ws : WorkingSet) (s : FetchStage Cur) (id : nat) : option (Worked (FetchStage Cur)) :=
  m ← get ws id;
  if hasObj m then returnIfMatches ws s m id
  else
    invariant (bool_decide (RID_AND_IDX = mstate m));;
    '(ws, c, f) ← fetch seekExact snapshot getKeys ws (cursor s) id;
    let s := {| s with cursor := c |} in
    match f with
    | Gone => ws ← free ws id; Some (ws, s, NEED_TIME, None)
    | FetchConflict =>
        m ← get ws id;
        Some (put ws id (makeObjOwnedIfNeeded m), {| s with idRetrying := Some id |}, NEED_YIELD, None)
    | Fetched => m ← get ws id; returnIfMatches ws s m id
    end.

Definition FetchStage_doWork (ws : WorkingSet) (s : FetchStage Cur) : option (Worked (FetchStage Cur)) :=
  if FetchStage_isEOF s then Some (ws, s, IS_EOF, None)
  else
    match idRetrying s with
    | Some id => fetch_advanced ws {| s with idRetrying := None |} id
    | None =>
        '(ws, child, status, id) ← work ws (fetch_child s);
        let s := {| s with fetch_child := child |} in
        match status with
        | ADVANCED => id ← id; fetch_advanced ws s id
        | FAILURE | DEAD => invariant (bool_decide (is_Some id));; Some (ws, s, status, id)
        | NEED_YIELD => Some (ws, s, status, id)
        | _ => Some (ws, s, status, None)
        end
    end.
End fetch.

(** ** The OR stage *)

Record OrStage := mkOr {
  or_children : list St;
  currentChild : nat;
  or_dedup : bool;
  or_filter : option MatchExpression;
  seen : gset Z;
  dupsTested : Z;
  dupsDropped : Z;
}.

Definition OrStage_new (dedup : bool) (filter : option MatchExpression) : OrStage := mkOr [] 0 dedup filter ∅ 0 0.

Definition or_addChild (s : OrStage) (c : St) : OrStage := {| s with or_children := or_children s ++ [c] |}.

Definition or_addChildren (s : OrStage) (l : list St) : OrStage := {| s with or_children := or_children s ++ l |}.

Definition OrStage_isEOF (s : OrStage) : bool := (length (or_children s) <=? currentChild s)%nat.

(** The filter at the end of the handling of a result. *)
Definition or_return (ws : WorkingSet) (s : OrStage) (m : WorkingSetMember) (id : nat) : option (Worked OrStage) :=
  if passes m (or_filter s) then Some (ws, s, ADVANCED, Some id)
  else ws ← free ws id; Some (ws, s, NEED_TIME, None).

Definition or_advanced (ws : WorkingSet) (s : OrStage) (id : nat) : option (Worked OrStage) :=
  m ← get ws id;
  if or_dedup s && hasRecordId m then
    let s := {| s with dupsTested := dupsTested s + 1 |} in
    if bool_decide (recordId m ∈ seen s) then
      ws ← free ws id;
      Some (ws, {| s with dupsDropped := dupsDropped s + 1 |}, NEED_TIME, None)
    else or_return ws {| s with seen := {[ recordId m ]} ∪ seen s |} m id
  else or_return ws s m id.

Definition OrStage_doWork (ws : WorkingSet) (s : OrStage) : option (Worked OrStage) :=
  if OrStage_isEOF s then Some (ws, s, IS_EOF, None)
  else
    c ← or_children s !! currentChild s;
    '(ws, c, childStatus, id) ← work ws c;
    let s := {| s with or_children := <[currentChild s := c]> (or_children s) |} in
    match childStatus with
    | ADVANCED => id ← id; or_advanced ws s id
    | IS_EOF =>
        let s := {| s with currentChild := S (currentChild s) |} in
        Some (ws, s, if OrStage_isEOF s then IS_EOF else NEED_TIME, None)
    | FAILURE | DEAD => invariant (bool_decide (is_Some id));; Some (ws, s, childStatus, id)
    | NEED_YIELD => Some (ws, s, childStatus, id)
    | NEED_TIME => Some (ws, s, childStatus, None)
    end.

#[global] Instance LimitStage_stage : PlanStage LimitStage := { work := LimitStage_doWork; isEOF := LimitStage_isEOF }.

#[global] Instance SkipStage_stage : PlanStage SkipStage := { work := SkipStage_doWork; isEOF s := isEOF (skip_child s) }.

#[global] Instance OrStage_stage : PlanStage OrStage := { work := OrStage_doWork; isEOF := OrStage_isEOF }.

Definition FetchStage_stage `{SeekableRecordCursor Cur} snapshot getKeys filter : PlanStage (FetchStage Cur) :=
  {| work := FetchStage_doWork snapshot getKeys filter; isEOF := FetchStage_isEOF |}.
End stages.
Arguments LimitStage St : clear implicits.
Arguments SkipStage St : clear implicits.
Arguments FetchStage St Cur : clear implicits.
Arguments OrStage St : clear implicits.
Arguments mkFetch {St Cur}.
Arguments idRetrying {St Cur}.
Arguments cursor {St Cur}.
Arguments fetch_child {St Cur}.
