(* ===== verification/StagesSpec.v ===== *)
(** * What the stages produce

    Each stage keeps the contract of [PlanStage] when its children do, and its results are a
    function of theirs: the limit a prefix, skipping a suffix, the OR stage the first
    occurrences that pass the filter, fetching the stored documents.  Failures of children
    are passed up with their details. *)

From Stdlib Require Import ZArith Lia.
From stdpp Require Import prelude gmap.
From S2P Require Import Prelude TotalOrder CompareNumbers Bson ElementOrder WorkingSet WorkingSetSpec PlanStage Stages.

Open Scope Z_scope.

Lemma produces_eof `{PlanStage St} n P s l e : produces n P s l e -> isEOF s = true -> l = [] /\ e = AtEOF.
Proof. destruct n; [done|]. rewrite produces_S. by intros [? _]. Qed.

(** ** Queued data *)

(** What a queue of states and members stands for. *)
Fixpoint queue_output (l : list StageState) (ms : list WorkingSetMember) : list WorkingSetMember * ending :=
  match l with
  | [] => ([], AtEOF)
  | ADVANCED :: l =>
      match ms with
      | [] => ([], AtEOF)
      | m :: ms => let '(out, e) := queue_output l ms in (view m :: out, e)
      end
  | ((DEAD | FAILURE) as r) :: _ => ([], Failed r (buildMemberStatusObject queued_failure))
  | _ :: l => queue_output l ms
  end.

(** A queue can be worked through when each of its results has a member and the end is not
    announced before the queue is empty. *)
Fixpoint queue_ok (l : list StageState) (n : nat) : Prop :=
  match l with
  | [] => True
  | ADVANCED :: l => match n with O => False | S n => queue_ok l n end
  | IS_EOF :: _ => False
  | (DEAD | FAILURE) :: _ => True
  | _ :: l => queue_ok l n
  end.

Lemma queued_produces rs ids ms P :
  length ids = length ms -> queue_ok rs (length ms) -> splits P (zip_with (fun i m => {[i := m]}) ids ms) ->
  produces (S (length rs)) P (mkQueued rs ids) (queue_output rs ms).1 (queue_output rs ms).2.
Proof.
  revert ids ms P. induction rs as [|r rs IH]; intros ids ms P Hlen Hq HP.
  { apply produces_S. split; [done|]. intros ws Fs Hok Hs. by exists ws, (mkQueued [] ids), IS_EOF, None, P. }
  apply produces_S. split; [done|]. intros ws Fs Hok Hs. cbn [work QueuedDataStage_stage]. unfold QueuedDataStage_doWork. cbn [results members].
  destruct r; simpl in Hq; [|done|by call_returns P; split; [|exact (IH ids ms P Hlen Hq HP)]|by call_returns P; split; [|exact (IH ids ms P Hlen Hq HP)]| |].
  - destruct ids as [|i ids], ms as [|m ms]; try done. simpl in HP. destruct HP as (Q & Hd & -> & HQ).
    call_returns Q. exists i, m, (queue_output rs ms).1. split_and!; [done|simpl; by destruct (queue_output rs ms)| |].
    + apply (splits_expand _ ({[i := m]} ∪ Q) [{[i := m]}; Q] Fs); [|done]. exists Q. split_and!; try done.
      exists ∅. split_and!; [apply map_disjoint_empty_r|by rewrite map_union_empty|done].
    + replace (queue_output (ADVANCED :: rs) (m :: ms)).2 with (queue_output rs ms).2 by (simpl; by destruct (queue_output rs ms)).
      apply IH; [by injection Hlen|done|done].
  - destruct (status_owned ws queued_failure _ Hok Hs) as (ws' & i & m & -> & Hok' & Hs' & _ & Hc).
    call_returns P. exists i, m. by rewrite Hc.
  - destruct (status_owned ws queued_failure _ Hok Hs) as (ws' & i & m & -> & Hok' & Hs' & _ & Hc).
    call_returns P. exists i, m. by rewrite Hc.
Qed.

Section stages.
Context {St : Type} `{!PlanStage St}.

(** ** Limit and skip *)

Definition limit_ending (k : Z) (l : list WorkingSetMember) (e : ending) : ending :=
  if k <=? Z.of_nat (length l) then AtEOF else e.

Lemma limit_produces n k P (s : St) l e :
  0 <= k -> produces n P s l e ->
  produces n P (mkLimit k s) (take (Z.to_nat k) l) (limit_ending k l e).
Proof.
  revert k P s l. induction n as [|n IH]; intros k P s l Hk Hp; [done|]. pose proof (produces_eof _ _ _ _ _ Hp) as Heof.
  apply produces_S in Hp as [_ Hw]. apply produces_S. unfold limit_ending. destruct (decide (k = 0)) as [->|Hne].
  { rewrite (proj2 (Z.leb_le _ _)) by lia. split; [done|]. intros ws Fs Hok Hs. by exists ws, (mkLimit 0 s), IS_EOF, None, P. }
  split.
  { cbn [isEOF LimitStage_stage]. unfold LimitStage_isEOF. cbn [numToReturn limit_child]. rewrite (proj2 (Z.eqb_neq 0 k)) by lia. intros He. destruct (Heof He) as [-> ->].
    rewrite take_nil. split; [done|]. by case_if. }
  intros ws Fs Hok Hs. cbn [work LimitStage_stage]. unfold LimitStage_doWork. cbn [numToReturn limit_child].
  rewrite (proj2 (Z.eqb_neq 0 k)) by lia. destruct (Hw ws Fs Hok Hs) as (ws' & s' & r & out & P' & -> & Hok' & Hr).
  cbn [mbind option_bind]. destruct r.
  - destruct Hr as (id & m & l' & -> & -> & Hs' & Hp'). call_returns P'.
    exists id, m, (take (Z.to_nat (k - 1)) l'). split_and!; [done| |done|].
    + replace (Z.to_nat k) with (S (Z.to_nat (k - 1))) by lia. done.
    + specialize (IH (k - 1) P' s' l'). unfold limit_ending in IH. simpl length.
      replace (k <=? Z.of_nat (S (length l'))) with (k - 1 <=? Z.of_nat (length l')) by (apply eq_true_iff_eq; rewrite !Z.leb_le; lia). apply IH; [lia|done].
  - destruct Hr as (-> & -> & He & Hs'). call_returns P'. rewrite take_nil. split_and!; try done; [by case_if|].
    cbn [isEOF LimitStage_stage]. unfold LimitStage_isEOF. cbn [numToReturn limit_child]. by rewrite He, orb_true_r.
  - destruct Hr as (Hs' & Hp'). call_returns P'. split; [done|]. by apply IH.
  - destruct Hr as (Hs' & Hp'). call_returns P'. split; [done|]. by apply IH.
  - destruct Hr as (id & m & -> & -> & -> & Hs'). call_returns P'. exists id, m.
    rewrite take_nil. split_and!; try done. simpl. by rewrite (proj2 (Z.leb_gt _ _)) by lia.
  - destruct Hr as (id & m & -> & -> & -> & Hs'). call_returns P'. exists id, m.
    rewrite take_nil. split_and!; try done. simpl. by rewrite (proj2 (Z.leb_gt _ _)) by lia.
Qed.

Lemma skip_produces n k P (s : St) l e :
  produces n P s l e -> produces n P (mkSkip k s) (drop (Z.to_nat k) l) e.
Proof.
  revert k P s l. induction n as [|n IH]; intros k P s l Hp; [done|]. pose proof (produces_eof _ _ _ _ _ Hp) as Heof.
  apply produces_S in Hp as [_ Hw]. apply produces_S. split.
  { cbn. intros He. destruct (Heof He) as [-> ->]. by rewrite drop_nil. }
  intros ws Fs Hok Hs. cbn [work SkipStage_stage]. unfold SkipStage_doWork. cbn [toSkip skip_child].
  destruct (Hw ws Fs Hok Hs) as (ws' & s' & r & out & P' & -> & Hok' & Hr). cbn [mbind option_bind]. destruct r.
  - destruct Hr as (id & m & l' & -> & -> & Hs' & Hp'). cbn [mbind option_bind]. destruct (k >? 0) eqn:Hk.
    + destruct (free_owned _ _ _ _ Hok' Hs') as (ws2 & -> & Hok2 & Hs2). call_returns P'. split; [done|].
      replace (Z.to_nat k) with (S (Z.to_nat (k - 1))) by lia. by apply IH.
    + call_returns P'. exists id, m, l'. replace (Z.to_nat k) with 0%nat by lia. split_and!; [done..|].
      specialize (IH k P' s' l' Hp'). by replace (Z.to_nat k) with 0%nat in IH by lia.
  - destruct Hr as (-> & -> & He & Hs'). call_returns P'. by rewrite drop_nil.
  - destruct Hr as (Hs' & Hp'). call_returns P'. split; [done|]. by apply IH.
  - destruct Hr as (Hs' & Hp'). call_returns P'. split; [done|]. by apply IH.
  - destruct Hr as (id & m & -> & -> & -> & Hs'). call_returns P'. exists id, m. by rewrite drop_nil.
  - destruct Hr as (id & m & -> & -> & -> & Hs'). call_returns P'. exists id, m. by rewrite drop_nil.
Qed.

(** ** The OR stage *)

(** What a child promises. *)
Record promise := mkPromise { pr_calls : nat; pr_owns : heap; pr_list : list WorkingSetMember; pr_end : ending }.

Definition keeps `{PlanStage T} (c : T) (p : promise) : Prop := produces (pr_calls p) (pr_owns p) c (pr_list p) (pr_end p).

Lemma delete_insert_same {A} (l : list A) i x : delete i (<[i := x]> l) = delete i l.
Proof. revert i. induction l as [|y l IH]; intros [|i]; simpl; try done. by rewrite IH. Qed.

Lemma insert_Permutation {A} (l : list A) i x y : l !! i = Some x -> <[i := y]> l ≡ₚ y :: delete i l.
Proof.
  intros Hi. rewrite <- (delete_insert_same l i y). apply delete_Permutation, list_lookup_insert_eq. by eapply lookup_lt_Some.
Qed.

Lemma sum_insert {A} (f : A -> nat) l i x y :
  l !! i = Some x -> (sum_list_with f (<[i := y]> l) + f x = sum_list_with f l + f y)%nat.
Proof.
  intros Hi. rewrite <- (take_drop_middle l i x Hi) at 2. rewrite insert_take_drop by by eapply lookup_lt_Some.
  rewrite !sum_list_with_app. simpl. lia.
Qed.

(** Work on child [i]; [T] are the other parts of a stage. *)
Lemma child_focus H P T ps i p Fs :
  ps !! i = Some p -> splits P (T ++ map pr_owns ps) -> splits H (P :: Fs) ->
  splits H (pr_owns p :: T ++ map pr_owns (delete i ps) ++ Fs).
Proof.
  intros Hi HP Hs. rewrite (delete_Permutation _ _ _ Hi) in HP. by apply (splits_focus _ P).
Qed.

Lemma child_unfocus H Q T ps i p p' Fs :
  ps !! i = Some p -> splits H (Q ++ pr_owns p' :: T ++ map pr_owns (delete i ps) ++ Fs) ->
  exists P, splits P (T ++ map pr_owns (<[i := p']> ps)) /\ splits H (Q ++ P :: Fs).
Proof.
  intros Hi (P & HP & Hs)%splits_defocus. exists P. split; [|done]. by rewrite (insert_Permutation _ _ _ _ Hi).
Qed.

(** The results of the children one after the other, up to a failure. *)
Fixpoint chained (ps : list promise) : list WorkingSetMember * ending :=
  match ps with
  | [] => ([], AtEOF)
  | p :: ps =>
      match pr_end p with
      | AtEOF => (pr_list p ++ (chained ps).1, (chained ps).2)
      | e => (pr_list p, e)
      end
  end.

(** The first occurrences of the record ids that are not in [seen]. *)
Fixpoint firsts (seen : gset Z) (l : list WorkingSetMember) : list WorkingSetMember :=
  match l with
  | [] => []
  | m :: l =>
      if hasRecordId m then
        if bool_decide (recordId m ∈ seen) then firsts seen l else m :: firsts ({[ recordId m ]} ∪ seen) l
      else m :: firsts seen l
  end.

Definition or_output (dedup : bool) (filter : option MatchExpression) (seen : gset Z) (l : list WorkingSetMember) : list WorkingSetMember :=
  List.filter (fun m => passes m filter) (if dedup then firsts seen l else l).

Lemma or_return_spec ws id m Fs (s : OrStage St) l :
  let passing := List.filter (fun m => passes m (or_filter s)) in
  ws_ok ws -> splits (live ws) ({[id := m]} :: Fs) ->
  exists ws' r out, or_return ws s m id = Some (ws', s, r, out) /\ ws_ok ws' /\
    (r = NEED_TIME /\ splits (live ws') Fs /\ passing (view m :: l) = passing l \/
     r = ADVANCED /\ out = Some id /\ splits (live ws') ({[id := m]} :: Fs) /\ passing (view m :: l) = view m :: passing l).
Proof.
  intros passing Hok Hs. unfold or_return, passing. simpl. change (passes (view m)) with (passes m).
  destruct (passes m (or_filter s)); [eexists _, _, _; split_and!; [done|done|by right]|].
  destruct (free_owned _ _ _ _ Hok Hs) as (ws1 & -> & Hok1 & Hs1). eexists _, _, _; split_and!; [done|done|by left].
Qed.

(** Handling a result that a child has handed out. *)
Lemma or_advanced_spec ws id m Fs (s : OrStage St) l :
  ws_ok ws -> splits (live ws) ({[id := m]} :: Fs) ->
  exists ws' r out sn t d, or_advanced ws s id = Some (ws', mkOr (or_children s) (currentChild s) (or_dedup s) (or_filter s) sn t d, r, out) /\
    ws_ok ws' /\
    (r = NEED_TIME /\ splits (live ws') Fs /\
       or_output (or_dedup s) (or_filter s) (seen s) (view m :: l) = or_output (or_dedup s) (or_filter s) sn l \/
     r = ADVANCED /\ out = Some id /\ splits (live ws') ({[id := m]} :: Fs) /\
       or_output (or_dedup s) (or_filter s) (seen s) (view m :: l) = view m :: or_output (or_dedup s) (or_filter s) sn l).
Proof.
  intros Hok Hs. unfold or_advanced. rewrite (get_owned _ _ _ _ Hs). cbn [mbind option_bind].
  destruct s as [cs i dedup filter sn t d]. unfold or_output. cbn [or_dedup or_filter seen or_children currentChild dupsTested dupsDropped firsts].
  change (hasRecordId (view m)) with (hasRecordId m). change (recordId (view m)) with (recordId m).
  destruct dedup; cbn [andb]; [destruct (hasRecordId m); [destruct (bool_decide (recordId m ∈ sn))|]|].
  { destruct (free_owned _ _ _ _ Hok Hs) as (ws1 & -> & Hok1 & Hs1). eexists _, _, _, _, _, _. split_and!; [done|done|]. by left. }
  - destruct (or_return_spec ws id m Fs (mkOr cs i true filter ({[recordId m]} ∪ sn) (t + 1) d) (firsts ({[recordId m]} ∪ sn) l) Hok Hs)
      as (ws1 & r & out & Ho & Hok1 & Hr). rewrite Ho. by eexists ws1, r, out, _, _, _.
  - destruct (or_return_spec ws id m Fs (mkOr cs i true filter sn t d) (firsts sn l) Hok Hs) as (ws1 & r & out & -> & Hok1 & Hr).
    by eexists ws1, r, out, _, _, _.
  - destruct (or_return_spec ws id m Fs (mkOr cs i false filter sn t d) l Hok Hs) as (ws1 & r & out & -> & Hok1 & Hr).
    by eexists ws1, r, out, sn, _, _.
Qed.

Lemma chained_cons n P m l e n' P' ps :
  chained (mkPromise n P (m :: l) e :: ps) =
  (m :: (chained (mkPromise n' P' l e :: ps)).1, (chained (mkPromise n' P' l e :: ps)).2).
Proof. simpl. by destruct e. Qed.

Lemma or_output_nil dedup filter sn : or_output dedup filter sn [] = [].
Proof. unfold or_output. by destruct dedup. Qed.

Lemma or_produces N ps : forall past rest G P dedup filter sn t d,
  (sum_list_with pr_calls ps < N)%nat -> Forall2 keeps rest ps -> splits P (G :: map pr_owns ps) ->
  produces N P (mkOr (past ++ rest) (length past) dedup filter sn t d) (or_output dedup filter sn (chained ps).1) (chained ps).2.
Proof.
  revert ps. induction N as [|N IH]; intros ps past rest G P dedup filter sn t d HN Hk HP; [lia|]. apply produces_S. split.
  { cbn [isEOF OrStage_stage]. unfold OrStage_isEOF. cbn [or_children currentChild]. rewrite length_app. intros He. bprop.
    destruct Hk as [|c p rest ps]; [|simpl in He; lia]. split; [|done]. apply or_output_nil. }
  intros ws Fs Hok Hs. cbn [work OrStage_stage]. unfold OrStage_doWork, OrStage_isEOF. cbn [or_children currentChild].
  destruct Hk as [|c p rest ps Hc Hk].
  { rewrite app_nil_r, Nat.leb_refl. call_returns P. split_and!; try done; [apply or_output_nil|].
    cbn. unfold OrStage_isEOF. cbn. apply Nat.leb_refl. }
  rewrite (proj2 (Nat.leb_gt _ _)) by (rewrite length_app; simpl; lia). rewrite list_lookup_middle by done. cbn [mbind option_bind].
  destruct p as [n Pc lc ec]. unfold keeps in Hc. cbn [pr_calls pr_owns pr_list pr_end] in *. destruct n as [|n]; [done|].
  apply produces_S in Hc as [_ Hw]. pose proof (splits_focus _ _ Pc [G] (map pr_owns ps) Fs HP Hs) as Hs1.
  destruct (Hw ws _ Hok Hs1) as (ws' & c' & r & out & Pc' & -> & Hok' & Hr). cbn [mbind option_bind or_dedup or_filter seen].
  rewrite insert_middle. simpl sum_list_with in HN.
  assert (forall P' P1 l1 sn t d, let q := mkPromise n P1 l1 ec in
    splits P' ([G] ++ P1 :: map pr_owns ps) -> produces n P1 c' l1 ec ->
    produces N P' (mkOr (past ++ c' :: rest) (length past) dedup filter sn t d) (or_output dedup filter sn (chained (q :: ps)).1) (chained (q :: ps)).2) as Hnext.
  { intros P' P1 l1 sn' t' d' q HP' Hp. apply (IH (q :: ps) past (c' :: rest) G); [simpl; lia|by constructor|done]. }
  destruct r.
  - destruct Hr as (id & m & l' & -> & -> & Hs' & Hp'). cbn [mbind option_bind]. rewrite (chained_cons _ _ _ _ _ n Pc').
    match goal with |- context [or_advanced ws' ?s id] =>
      destruct (or_advanced_spec ws' id m _ s (chained (mkPromise n Pc' l' ec :: ps)).1 Hok' Hs') as (ws2 & r & out & sn' & t' & d' & -> & Hok2 & Hr) end.
    destruct Hr as [(-> & Hs2 & Heq)|(-> & -> & Hs2 & Heq)]; cbn [or_dedup or_filter seen] in Heq.
    + destruct (splits_defocus _ [] _ [G] _ _ Hs2) as (P' & HP' & Hs3). call_returns P'. split; [done|]. cbn [fst snd]. rewrite Heq.
      by apply (Hnext P' Pc').
    + destruct (splits_defocus _ [_] _ [G] _ _ Hs2) as (P' & HP' & Hs3). call_returns P'. eexists id, m, _. split_and!; [done|exact Heq|done|].
      by apply (Hnext P' Pc').
  - destruct Hr as (-> & -> & _ & Hs'). cbn [chained pr_end pr_list fst snd app].
    assert (exists P', splits P' (G ∪ Pc' :: map pr_owns ps) /\ splits (live ws') (P' :: Fs)) as (P' & HP' & Hs2).
    { apply splits_collapse. by apply splits_join, splits_swap. }
    specialize (IH ps (past ++ [c']) rest (G ∪ Pc') P' dedup filter sn t d). rewrite <- app_assoc, length_app, Nat.add_comm in IH. simpl in IH.
    call_returns P'. unfold OrStage_isEOF. cbn [or_children currentChild]. rewrite length_app. destruct Hk as [|c2 p2 rest ps Hc2 Hk].
    + rewrite (proj2 (Nat.leb_le _ _)) by (simpl; lia). split_and!; [apply or_output_nil|done| |done]. apply Nat.leb_le. cbn. rewrite length_app. simpl. lia.
    + rewrite (proj2 (Nat.leb_gt _ _)) by (simpl; lia). split; [done|]. apply IH; [simpl in *; lia|by constructor|done].
  - destruct Hr as (Hs' & Hp'). destruct (splits_defocus _ [] _ [G] _ _ Hs') as (P' & HP' & Hs3). call_returns P'. split; [done|]. by eapply Hnext.
  - destruct Hr as (Hs' & Hp'). destruct (splits_defocus _ [] _ [G] _ _ Hs') as (P' & HP' & Hs3). call_returns P'. split; [done|]. by eapply Hnext.
  - destruct Hr as (id & m & -> & -> & -> & Hs'). destruct (splits_defocus _ [_] _ [G] _ _ Hs') as (P' & HP' & Hs3).
    call_returns P'. exists id, m. by rewrite or_output_nil.
  - destruct Hr as (id & m & -> & -> & -> & Hs'). destruct (splits_defocus _ [_] _ [G] _ _ Hs') as (P' & HP' & Hs3).
    call_returns P'. exists id, m. by rewrite or_output_nil.
Qed.
(** The record ids of first occurrences. *)
Lemma firsts_ids sn l :
  Forall (fun m => hasRecordId m = true) l ->
  NoDup (recordId <$> firsts sn l) /\ forall r, r ∈ recordId <$> firsts sn l <-> r ∈ recordId <$> l /\ r ∉ sn.
Proof.
  intros Hl. revert sn. induction Hl as [|m l Hm Hl IH]; intros sn; simpl; [split; [constructor|set_solver]|].
  rewrite Hm. case_if; bprop.
  - destruct (IH sn) as [Hnd Hin]. split; [done|]. intros r. rewrite Hin, elem_of_cons. split; [tauto|]. intros [[->|?] ?]; [done|tauto].
  - destruct (IH ({[recordId m]} ∪ sn)) as [Hnd Hin]. rewrite fmap_cons. split.
    + apply NoDup_cons. split; [|done]. rewrite Hin. set_solver.
    + intros r. rewrite !elem_of_cons, Hin. destruct (decide (r = recordId m)); set_solver.
Qed.

Lemma firsts_sublist sn l : firsts sn l `sublist_of` l.
Proof.
  revert sn. induction l as [|m l IH]; intros sn; simpl; [done|]. repeat case_if; try (by apply sublist_skip); by apply sublist_cons.
Qed.

(** [C25] The OR stage calls its children one after the other and ends after at most as many
    calls as they need together and one more.  Its results are those of the children up to the
    first failure, which it passes on with its details.  With deduplication it returns of each
    record id the first occurrence only, and a result is returned when it passes the filter.
    The members that it drops are freed and no other member is touched. *)
Theorem or_stage_unions ps cs P (dedup : bool) filter :
  Forall2 keeps cs ps -> splits P (map pr_owns ps) ->
  let input := (chained ps).1 in
  let candidates := if dedup then firsts ∅ input else input in
  produces (S (sum_list_with pr_calls ps)) P (or_addChildren (OrStage_new dedup filter) cs)
    (List.filter (fun m => passes m filter) candidates) (chained ps).2 /\
  candidates `sublist_of` input /\
  (dedup = true -> Forall (fun m => hasRecordId m = true) input ->
     NoDup (recordId <$> candidates) /\ forall r, r ∈ recordId <$> candidates <-> r ∈ recordId <$> input).
Proof.
  intros Hk HP. split_and!.
  - apply (or_produces _ _ [] cs ∅); [lia|done|by apply splits_empty].
  - destruct dedup; [apply firsts_sublist|done].
  - intros -> Hl. destruct (firsts_ids ∅ _ Hl) as [Hnd Hin]. split; [done|]. intros r. rewrite Hin. set_solver.
Qed.
End stages.

(** A limit over a skip returns a page of the results of the stage below: those after the
    first [j], at most [k] of them.  A failure below is passed on with its details unless the
    page was full before. *)
Theorem skip_limit_pages `{PlanStage St} n j k P (s : St) l e :
  0 <= k -> produces n P s l e ->
  produces n P (mkLimit k (mkSkip j s)) (take (Z.to_nat k) (drop (Z.to_nat j) l)) (limit_ending k (drop (Z.to_nat j) l) e).
Proof. intros Hk Hp. apply limit_produces; [done|]. by apply skip_produces. Qed.

(** ** Fetching *)

Section fetching.
Context {St : Type} `{!PlanStage St} `{!SeekableRecordCursor Cur} (snapshot : Z) (getKeys : nat -> Object -> list Object).
Variable filter : option MatchExpression.

#[local] Instance fetch_stage : PlanStage (FetchStage St Cur) := FetchStage_stage snapshot getKeys filter.

(** A result with its document, if it is still stored. *)
Definition fetched (m : WorkingSetMember) : option WorkingSetMember :=
  if hasObj m then Some m
  else
    doc ← stored_record (recordId m);
    Some {| m with mstate := RID_AND_OBJ; obj := mkSnapshotted snapshot doc; keyData := [] |}.

(** A result that has a document, or index keys that are those of the stored document. *)
Definition fetchable (m : WorkingSetMember) : Prop :=
  hasObj m = true \/
  mstate m = RID_AND_IDX /\ keyData m <> [] /\
    forall doc, stored_record (recordId m) = Some doc -> keys_valid getKeys (contents doc) (keyData m) = true.

Definition fetch_output (l : list WorkingSetMember) : list WorkingSetMember :=
  List.filter (fun m => passes m filter) (omap fetched l).

(** The fetch of a member that only has index data. *)
Lemma fetch_member_spec m r :
  fetchable (view m) -> hasObj m = false ->
  match r with Found doc => stored_record (recordId m) = Some doc | NotFound => stored_record (recordId m) = None | WriteConflict => True end ->
  exists m' f, fetch_member r snapshot getKeys m = Some (m', f) /\
    match r with
    | Found _ => f = Fetched /\ fetched (view m) = Some (view m') /\ hasObj m' = true
    | NotFound => f = Gone /\ fetched (view m) = None
    | WriteConflict => f = FetchConflict /\ m' = {| m with obj := Snapshotted_new |}
    end.
Proof.
  intros [Hf|(Hst & Hne & Hk)] Ho Hr; [change (hasObj (view m)) with (hasObj m) in Hf; congruence|].
  unfold fetch_member, fetched. change (hasObj (view m)) with (hasObj m). change (recordId (view m)) with (recordId m). rewrite Ho.
  destruct r as [doc| |]; [|by rewrite Hr; eexists _, _|by eexists _, _]. rewrite Hr. cbn [isSuspicious keyData mbind option_bind].
  destruct (isSuspicious m) eqn:Hs.
  - change (keyData (view m)) with (keyData m) in *. rewrite invariant_bind by by rewrite bool_decide_eq_false_2.
    rewrite (Hk doc Hr). eexists _, _. split_and!; [done|done| |done]. done.
  - eexists _, _. split_and!; [done|done| |done]. done.
Qed.

Lemma fetched_obj m o : hasObj m = false -> fetched (view {| m with obj := o |}) = fetched (view m).
Proof.
  intros Ho. unfold fetched. change (hasObj (view m)) with (hasObj m).
  change (hasObj (view {| m with obj := o |})) with (hasObj m). by rewrite Ho.
Qed.

Lemma returnIfMatches_spec ws id m Fs (s : FetchStage St Cur) l :
  let passing := List.filter (fun m => passes m filter) in
  ws_ok ws -> splits (live ws) ({[id := m]} :: Fs) ->
  exists ws' r out, returnIfMatches filter ws s m id = Some (ws', s, r, out) /\ ws_ok ws' /\
    (r = NEED_TIME /\ splits (live ws') Fs /\ passing (view m :: l) = passing l \/
     r = ADVANCED /\ out = Some id /\ splits (live ws') ({[id := m]} :: Fs) /\ passing (view m :: l) = view m :: passing l).
Proof.
  intros passing Hok Hs. unfold returnIfMatches, passing. simpl. change (passes (view m)) with (passes m).
  destruct (passes m filter); [eexists _, _, _; split_and!; [done|done|by right]|].
  destruct (free_owned _ _ _ _ Hok Hs) as (ws1 & -> & Hok1 & Hs1). eexists _, _, _; split_and!; [done|done|by left].
Qed.

(** What the handling of a result of the child leads to: it is dropped, returned, or kept to
    be tried again. *)
Definition fetch_handled (m : WorkingSetMember) (Fs : list heap) (id : nat) (c : Cur) (child : St) (l : list WorkingSetMember)
    (res : option (Worked (FetchStage St Cur))) : Prop :=
  exists ws' s' r out c', res = Some (ws', s', r, out) /\ ws_ok ws' /\
    ((conflicts_left c' <= conflicts_left c)%nat /\ s' = mkFetch None c' child /\
       (r = NEED_TIME /\ splits (live ws') Fs /\ fetch_output (view m :: l) = fetch_output l \/
        exists m', r = ADVANCED /\ out = Some id /\ splits (live ws') ({[id := m']} :: Fs) /\ fetch_output (view m :: l) = view m' :: fetch_output l) \/
     exists m', (conflicts_left c' < conflicts_left c)%nat /\ s' = mkFetch (Some id) c' child /\ r = NEED_YIELD /\
       splits (live ws') ({[id := m']} :: Fs) /\ fetchable (view m') /\ fetch_output (view m' :: l) = fetch_output (view m :: l)).

Lemma fetch_return ws id m m0 Fs c0 c child l :
  ws_ok ws -> splits (live ws) ({[id := m]} :: Fs) -> fetched (view m0) = Some (view m) -> (conflicts_left c <= conflicts_left c0)%nat ->
  fetch_handled m0 Fs id c0 child l (returnIfMatches filter ws (mkFetch None c child) m id).
Proof.
  intros Hok Hs Hf Hc. destruct (returnIfMatches_spec ws id m Fs (mkFetch None c child) (omap fetched l) Hok Hs) as (ws' & r & out & -> & Hok' & Hr).
  eexists ws', _, r, out, c. split_and!; [done|done|]. left. split_and!; [done|done|]. unfold fetch_output at 1 3. cbn [omap list_omap]. rewrite Hf.
  destruct Hr as [(-> & Hs' & Heq)|(-> & -> & Hs' & Heq)]; [by left|right; by exists m].
Qed.

Lemma fetch_advanced_spec ws id m Fs c child l :
  ws_ok ws -> splits (live ws) ({[id := m]} :: Fs) -> fetchable (view m) ->
  fetch_handled m Fs id c child l (fetch_advanced snapshot getKeys filter ws (mkFetch None c child) id).
Proof.
  intros Hok Hs Hf. unfold fetch_advanced. rewrite (get_owned _ _ _ _ Hs). cbn [mbind option_bind]. destruct (hasObj m) eqn:Ho.
  { apply fetch_return; try done. unfold fetched. change (hasObj (view m)) with (hasObj m). by rewrite Ho. }
  pose proof Hf as [Hf'|(Hst & Hne & _)]; [change (hasObj (view m)) with (hasObj m) in Hf'; congruence|]. simpl in Hst.
  rewrite invariant_bind by by apply bool_decide_eq_true_2. unfold fetch. rewrite (get_owned _ _ _ _ Hs). cbn [mbind option_bind cursor].
  rewrite invariant_bind by (unfold hasRecordId; by rewrite Hst). pose proof (seek_found c (recordId m)) as Hseek.
  destruct (seekExact c (recordId m)) as [c' r]. cbn [fst snd] in Hseek.
  destruct (fetch_member_spec m r Hf Ho) as (m' & f & -> & Hm'); [destruct r; naive_solver|]. cbn [mbind option_bind].
  destruct (put_owned ws id m m' Fs Hok Hs) as [Hok1 Hs1]. destruct r as [doc| |].
  - destruct Hm' as (-> & Hfe & _), Hseek as [_ Hle]. rewrite (get_owned _ _ _ _ Hs1). cbn [mbind option_bind]. by apply fetch_return.
  - destruct Hm' as (-> & Hfe), Hseek as [_ Hle]. destruct (free_owned _ _ _ _ Hok1 Hs1) as (ws2 & -> & Hok2 & Hs2).
    eexists ws2, _, _, _, c'. split_and!; [done|done|]. left. split_and!; [done|done|]. left. split_and!; [done|done|].
    unfold fetch_output. cbn [omap list_omap]. by rewrite Hfe.
  - destruct Hm' as (-> & ->). rewrite (get_owned _ _ _ _ Hs1). cbn [mbind option_bind].
    destruct (put_owned _ id _ (makeObjOwnedIfNeeded {| m with obj := Snapshotted_new |}) Fs Hok1 Hs1) as [Hok2 Hs2].
    assert (makeObjOwnedIfNeeded {| m with obj := Snapshotted_new |} = {| m with obj := Snapshotted_new |}) as Hmk by (unfold makeObjOwnedIfNeeded; simpl; by rewrite Hst).
    rewrite Hmk in *. eexists _, _, _, _, c'. split_and!; [done|done|]. right. eexists. split_and!; [done|done|done|exact Hs2| |].
    + right. by destruct Hf as [Hf'|Hf']; [change (hasObj (view m)) with (hasObj m) in Hf'; congruence|].
    + unfold fetch_output. cbn [omap list_omap]. by rewrite fetched_obj.
Qed.

(** The members that a fetch stage owns: those of its child, and one that is tried again. *)
Definition retry_owned (retry : option (nat * WorkingSetMember)) : list heap :=
  match retry with Some (id, m) => [{[id := m]}] | None => [] end.

Definition retry_first (retry : option (nat * WorkingSetMember)) (l : list WorkingSetMember) : list WorkingSetMember :=
  match retry with Some (_, m) => view m :: l | None => l end.

(** One call handles a result as the contract says, given what later calls do. *)
Lemma fetch_advanced_step N ws id m Fs n Pc c child l e :
  (forall n Pc P c child retry l, (n + conflicts_left c + length (retry_owned retry) <= N)%nat -> produces n Pc child l e ->
     Forall fetchable (retry_first retry l) -> splits P (retry_owned retry ++ [Pc]) ->
     produces N P (mkFetch (fst <$> retry) c child) (fetch_output (retry_first retry l)) e) ->
  ws_ok ws -> splits (live ws) ({[id := m]} :: Pc :: Fs) ->
  (n + conflicts_left c <= N)%nat -> produces n Pc child l e -> Forall fetchable (view m :: l) ->
  exists ws' s' r out P', fetch_advanced snapshot getKeys filter ws (mkFetch None c child) id = Some (ws', s', r, out) /\ ws_ok ws' /\
    match r with
    | ADVANCED => exists id m0 l', out = Some id /\ fetch_output (view m :: l) = view m0 :: l' /\
        splits (live ws') ({[id := m0]} :: P' :: Fs) /\ produces N P' s' l' e
    | NEED_TIME | NEED_YIELD => splits (live ws') (P' :: Fs) /\ produces N P' s' (fetch_output (view m :: l)) e
    | _ => False
    end.
Proof.
  intros IH Hok Hs HN Hp [Hm Hl]%Forall_cons.
  destruct (fetch_advanced_spec ws id m _ c child l Hok Hs Hm) as (ws' & s' & r & out & c' & -> & Hok' & Hr).
  destruct Hr as [(Hc & -> & [(-> & Hs' & Heq)|(m' & -> & -> & Hs' & Heq)])|(m' & Hc & -> & -> & Hs' & Hm' & Heq)].
  - call_returns Pc. split; [done|]. rewrite Heq. apply (IH n Pc Pc c' child None); [simpl; lia|done|done|by apply splits_one].
  - call_returns Pc. eexists _, _, _. split_and!; [done|exact Heq|done|]. apply (IH n Pc Pc c' child None); [simpl; lia|done|done|by apply splits_one].
  - apply (splits_collapse _ [_; _]) in Hs' as (P' & HP' & Hs'). call_returns P'. split; [done|]. rewrite <- Heq.
    apply (IH n Pc P' c' child (Some (id, m'))); [simpl; lia|done|by constructor|done].
Qed.

Lemma fetch_produces N e : forall n Pc P c child retry l,
  (n + conflicts_left c + length (retry_owned retry) <= N)%nat -> produces n Pc child l e -> Forall fetchable (retry_first retry l) ->
  splits P (retry_owned retry ++ [Pc]) ->
  produces N P (mkFetch (fst <$> retry) c child) (fetch_output (retry_first retry l)) e.
Proof.
  induction N as [|N IH]; intros n Pc P c child retry l HN Hp Hall HP; [destruct n; [done|lia]|].
  pose proof (produces_eof _ _ _ _ _ Hp) as Heof. apply produces_S. split.
  { destruct retry as [[id m]|]; [done|]. cbn. intros He. by destruct (Heof He) as [-> ->]. }
  intros ws Fs Hok Hs. cbn [work fetch_stage FetchStage_stage]. unfold FetchStage_doWork, FetchStage_isEOF. cbn [idRetrying fetch_child].
  destruct retry as [[id m]|]; cbn [fmap option_fmap option_map fst]; simpl in HN.
  { pose proof (splits_expand _ _ _ _ HP Hs) as Hs1.
    destruct (fetch_advanced_step N ws id m Fs n Pc c child l e IH Hok Hs1) as (ws' & s' & r & out & P' & Hf & Hok' & Hr); [lia|done|done|].
    eexists _, _, _, _, P'. split_and!; [exact Hf|done|]. by destruct r. }
  simpl in HP, Hall. destruct HP as (F & _ & -> & ->). rewrite map_union_empty in Hs. destruct (isEOF child) eqn:He.
  { destruct (Heof eq_refl) as [-> ->]. call_returns Pc. done. }
  destruct n as [|n]; [done|]. apply produces_S in Hp as [_ Hw].
  destruct (Hw ws Fs Hok Hs) as (ws' & child' & r & out & P' & -> & Hok' & Hr). cbn [mbind option_bind].
  assert (forall l', l' = l -> produces n P' child' l' e -> produces N P' (mkFetch None c child') (fetch_output l) e) as Hnext.
  { intros l' -> Hp. apply (IH n P' P' c child' None l); [simpl; lia|done|done|apply splits_one]. }
  destruct r.
  - destruct Hr as (id & m & l' & -> & -> & Hs' & Hp'). cbn [mbind option_bind].
    destruct (fetch_advanced_step N ws' id m Fs n P' c child' l' e IH Hok' Hs') as (ws2 & s2 & r & out & P2 & Hf & Hok2 & Hr); [lia|done|done|].
    eexists _, _, _, _, P2. split_and!; [exact Hf|done|]. by destruct r.
  - destruct Hr as (-> & -> & He' & Hs'). call_returns P'. done.
  - destruct Hr as (Hs' & Hp'). call_returns P'. split; [done|]. by eapply Hnext.
  - destruct Hr as (Hs' & Hp'). call_returns P'. split; [done|]. by eapply Hnext.
  - destruct Hr as (id & m & -> & -> & -> & Hs'). call_returns P'. by exists id, m.
  - destruct Hr as (id & m & -> & -> & -> & Hs'). call_returns P'. by exists id, m.
Qed.

(** Fetching: for each result of the child that has no document yet, the stored document
    with its record id takes the place of the index keys, and a result whose document is gone
    is dropped; the filter then decides.  Write conflicts are tried again after a yield, so
    the results do not depend on them and the number of calls grows by at most theirs.
    Marked members are checked against the keys of the document, which changes nothing when
    the index agrees with the collection. *)
Theorem fetch_stage_documents n P c (child : St) l e :
  produces n P child l e -> Forall fetchable l ->
  produces (n + conflicts_left c) P (mkFetch None c child) (List.filter (fun m => passes m filter) (omap fetched l)) e.
Proof. intros Hp Hl. apply (fetch_produces _ e n P P c child None l); [simpl; lia|done|done|apply splits_one]. Qed.
End fetching.
