(* ===== verification/AndSorted.v ===== *)
(** * The sorted intersection of children

    Models [AndCommon::mergeFrom] of [and_common-inl.h] and the stage of [and_sorted.cpp], that
    intersects the results of children which return them in the order of their record ids.
    The counters of failed targets are left out. *)

From Stdlib Require Import ZArith Lia.
From stdpp Require Import prelude gmap.
From S2P Require Import Prelude TotalOrder CompareNumbers Bson ElementOrder WorkingSet WorkingSetSpec PlanStage Stages StagesSpec.

Open Scope Z_scope.

(** ** Merging members *)

Fixpoint merge_computed (types : list nat) (dest src : WorkingSetMember) : option WorkingSetMember :=
  match types with
  | [] => Some dest
  | i :: types =>
      if negb (hasComputed dest i) && hasComputed src i then
        d ← getComputed src i;
        dest ← addComputed dest (clone d);
        merge_computed types dest src
      else merge_computed types dest src
  end.

(** The keys of [src] whose pattern is not yet among those of [dest]. *)
Fixpoint merge_keys (dest src : list IndexKeyDatum) : list IndexKeyDatum :=
  match src with
  | [] => dest
  | d :: src =>
      if existsb (fun k => same_object (indexKeyPattern k) (indexKeyPattern d)) dest then merge_keys dest src
      else merge_keys (dest ++ [d]) src
  end.

Definition merge_member (dest src : WorkingSetMember) : option WorkingSetMember :=
  invariant (hasRecordId dest);;
  invariant (hasRecordId src);;
  invariant (recordId dest =? recordId src);;
  dest ← merge_computed (seq 0 WSM_COMPUTED_NUM_TYPES) dest src;
  if hasObj dest then Some dest
  else if hasObj src then
    invariant (bool_decide (mstate src = RID_AND_OBJ));;
    let dest := makeObjOwnedIfNeeded {| dest with obj := obj src |} in
    Some {| dest with keyData := []; mstate := RID_AND_OBJ |}
  else
    let dest := {| dest with keyData := merge_keys (keyData dest) (keyData src) |} in
    Some (if isSuspicious src then {| dest with isSuspicious := true |} else dest).

Definition mergeFrom (ws : WorkingSet) (destId : nat) (src : WorkingSetMember) : option WorkingSet :=
  dest ← get ws destId;
  dest ← merge_member dest src;
  Some (put ws destId dest).

(** ** The stage *)

Section stage.
Context {St : Type} `{!PlanStage St}.

(** The numbers and ids that are not set are [None]; the null record id is 0. *)
Record AndSortedStage := mkAnd {
  and_children : list St;
  targetNode : option nat;
  targetId : option nat;
  targetRecordId : Z;
  workingTowardRep : list nat;
  and_isEOF : bool;
}.

Definition AndSortedStage_new : AndSortedStage := mkAnd [] None None 0 [] false.

Definition and_addChild (s : AndSortedStage) (c : St) : AndSortedStage := {| s with and_children := and_children s ++ [c] |}.

(** The bytes of the message for a first child that fails without details. *)
Definition and_failure : Status :=
  mkStatus (mkInt32 1 eq_refl)
    [115; 111; 114; 116; 101; 100; 32; 65; 78; 68; 32; 115; 116; 97; 103; 101; 32; 102; 97; 105; 108; 101; 100; 32; 116; 111; 32;
     114; 101; 97; 100; 32; 105; 110; 32; 114; 101; 115; 117; 108; 116; 115; 32; 102; 114; 111; 109; 32; 102; 105; 114; 115; 116; 32;
     99; 104; 105; 108; 100].

(** The children to work towards a target of child [i]. *)
Definition others (n i : nat) : list nat := List.filter (fun j => negb (i =? j)%nat) (seq 0 n).

(** Take the member [id] of child [i] as the target. *)
Definition set_target (ws : WorkingSet) (s : AndSortedStage) (i id : nat) (m : WorkingSetMember) : WorkingSet * AndSortedStage :=
  (put ws id (makeObjOwnedIfNeeded m),
   {| s with targetNode := Some i; targetId := Some id; targetRecordId := recordId m;
             workingTowardRep := others (length (and_children s)) i |}).

Definition getTargetRecordId (ws : WorkingSet) (s : AndSortedStage) : option (Worked AndSortedStage) :=
  invariant (bool_decide (targetNode s = None));;
  invariant (bool_decide (targetId s = None));;
  invariant (targetRecordId s =? 0);;
  c ← and_children s !! 0%nat;
  '(ws, c, state, id) ← work ws c;
  let s := {| s with and_children := <[0%nat := c]> (and_children s) |} in
  match state with
  | ADVANCED =>
      id ← id;
      m ← get ws id;
      invariant (hasRecordId m);;
      let '(ws, s) := set_target ws s 0 id m in
      Some (ws, s, NEED_TIME, None)
  | IS_EOF => Some (ws, {| s with and_isEOF := true |}, state, None)
  | FAILURE =>
      '(ws, id) ← match id with None => '(ws, id) ← allocateStatusMember ws and_failure; Some (ws, Some id) | _ => Some (ws, id) end;
      Some (ws, {| s with and_isEOF := true |}, state, id)
  | NEED_YIELD => Some (ws, s, state, id)
  | _ => Some (ws, s, state, None)
  end.

(** A result of child [i] while there is a target. *)
Definition toward_advanced (ws : WorkingSet) (s : AndSortedStage) (i id target : nat) : option (Worked AndSortedStage) :=
  m ← get ws id;
  invariant (hasRecordId m);;
  if recordId m =? targetRecordId s then
    let s := {| s with workingTowardRep := tail (workingTowardRep s) |} in
    ws ← mergeFrom ws target m;
    ws ← free ws id;
    match workingTowardRep s with
    | [] => Some (ws, {| s with targetNode := None; targetId := None; targetRecordId := 0 |}, ADVANCED, Some target)
    | _ => Some (ws, s, NEED_TIME, None)
    end
  else if recordId m <? targetRecordId s then
    ws ← free ws id;
    Some (ws, s, NEED_TIME, None)
  else
    ws ← free ws target;
    let '(ws, s) := set_target ws s i id m in
    Some (ws, s, NEED_TIME, None).

Definition moveTowardTargetRecordId (ws : WorkingSet) (s : AndSortedStage) : option (Worked AndSortedStage) :=
  invariant (bool_decide (is_Some (targetNode s)));;
  target ← targetId s;
  i ← head (workingTowardRep s);
  c ← and_children s !! i;
  '(ws, c, state, id) ← work ws c;
  let s := {| s with and_children := <[i := c]> (and_children s) |} in
  match state with
  | ADVANCED => id ← id; toward_advanced ws s i id target
  | IS_EOF => ws ← free ws target; Some (ws, {| s with and_isEOF := true |}, state, None)
  | FAILURE | DEAD =>
      invariant (bool_decide (is_Some id));;
      ws ← free ws target;
      Some (ws, {| s with and_isEOF := true |}, state, id)
  | NEED_YIELD => Some (ws, s, state, id)
  | NEED_TIME => Some (ws, s, state, None)
  end.

Definition AndSortedStage_doWork (ws : WorkingSet) (s : AndSortedStage) : option (Worked AndSortedStage) :=
  if and_isEOF s then Some (ws, s, IS_EOF, None)
  else
    match workingTowardRep s with
    | [] => getTargetRecordId ws s
    | _ => moveTowardTargetRecordId ws s
    end.

#[global] Instance AndSortedStage_stage : PlanStage AndSortedStage := { work := AndSortedStage_doWork; isEOF := and_isEOF }.
End stage.
Arguments AndSortedStage St : clear implicits.
