(* ===== verification/AndSortedSpec.v ===== *)
(** * The sorted intersection is the intersection

    The stage of [AndSorted] runs an algorithm on the lists of its children's results
    ([and_run]); that algorithm returns the record ids that all lists have, in order. *)

From Stdlib Require Import ZArith Lia Sorted.
From stdpp Require Import prelude gmap.
From S2P Require Import Prelude TotalOrder CompareNumbers Bson ElementOrder WorkingSet WorkingSetSpec PlanStage Stages StagesSpec AndSorted.

Open Scope Z_scope.

(** ** Merging *)

(** Computed data is in the slot of its type. *)
Definition typed_slots (c : list (option WorkingSetComputedData)) : Prop := forall i d, mjoin (c !! i) = Some d -> computed_type d = i.

Definition mergeable (m : WorkingSetMember) : Prop := hasRecordId m = true /\ typed_slots (computed m).

Lemma computed_type_clone d : computed_type (clone d) = computed_type d.
Proof. by destruct d. Qed.

Lemma typed_slots_insert c d : typed_slots c -> typed_slots (<[computed_type d := Some d]> c).
Proof.
  intros Hc i x. destruct (decide (i = computed_type d)) as [->|Hne]; [|rewrite list_lookup_insert_ne by done; apply Hc].
  destruct (decide (computed_type d < length c)%nat) as [Hlt|Hge].
  - rewrite list_lookup_insert_eq by done. by intros [= <-].
  - rewrite list_insert_ge by lia. apply Hc.
Qed.

(** The merged data depends on the computed data only. *)
Lemma merge_computed_ok ts cd cs :
  typed_slots cd -> typed_slots cs ->
  exists c, typed_slots c /\ forall d s, computed d = cd -> computed s = cs -> merge_computed ts d s = Some {| d with computed := c |}.
Proof.
  intros Hd Hs. revert cd Hd. induction ts as [|i ts IH]; intros cd Hd.
  { exists cd. split; [done|]. intros [] s <- _. done. }
  simpl. unfold hasComputed, getComputed. destruct (bool_decide (is_Some (mjoin (cd !! i)))) eqn:Hdi.
  { destruct (IH cd Hd) as (c & Hc & Heq). exists c. split; [done|]. intros d s Hcd Hcs. rewrite Hcd, Hdi. by apply Heq. }
  destruct (mjoin (cs !! i)) as [x|] eqn:Hsi.
  - pose proof (Hs i x Hsi) as Hty. destruct (IH (<[i := Some (clone x)]> cd)) as (c & Hc & Heq).
    { rewrite <- Hty, <- (computed_type_clone x). by apply typed_slots_insert. }
    exists c. split; [done|]. intros d s Hcd Hcs. rewrite Hcd, Hcs, Hdi, Hsi. cbn [negb andb mbind option_bind]. rewrite bool_decide_eq_true_2 by done.
    unfold addComputed, hasComputed, getComputed. rewrite computed_type_clone, Hty, Hcd, Hdi. cbn [negb invariant mbind option_bind].
    by rewrite (Heq {| d with computed := <[i := Some (clone x)]> cd |} s).
  - destruct (IH cd Hd) as (c & Hc & Heq). exists c. split; [done|]. intros d s Hcd Hcs. rewrite Hcd, Hcs, Hdi, Hsi. simpl. by apply Heq.
Qed.

Lemma merge_member_ok d s :
  mergeable d -> mergeable s -> recordId d = recordId s ->
  exists m, merge_member d s = Some m /\ merge_member (view d) (view s) = Some (view m) /\ mergeable m /\ recordId m = recordId d /\
    hasObj m = hasObj d || hasObj s.
Proof.
  intros [Hd Hcd] [Hs Hcs] Hr. destruct (merge_computed_ok (seq 0 WSM_COMPUTED_NUM_TYPES) _ _ Hcd Hcs) as (c & Hc & Heq).
  unfold merge_member. change (hasRecordId (view d)) with (hasRecordId d). change (hasRecordId (view s)) with (hasRecordId s).
  change (recordId (view d)) with (recordId d). change (recordId (view s)) with (recordId s). change (hasObj (view s)) with (hasObj s).
  rewrite !invariant_bind by (done || by apply Z.eqb_eq). rewrite (Heq d s), (Heq (view d) (view s)) by done. cbn [mbind option_bind].
  change (hasObj {| (view d) with computed := c |}) with (hasObj d). change (hasObj {| d with computed := c |}) with (hasObj d).
  destruct (hasObj d) eqn:Hod; [by eexists|]. destruct (hasObj s) eqn:Hos.
  - assert (mstate s = RID_AND_OBJ) as Hst by (destruct (mstate s) eqn:E; try done; unfold hasRecordId, hasObj in *; by rewrite E in *).
    assert (mstate d = RID_AND_IDX) as Hdt by (destruct (mstate d) eqn:E; try done; unfold hasRecordId, hasObj in *; by rewrite E in *).
    rewrite !invariant_bind by by apply bool_decide_eq_true_2. unfold makeObjOwnedIfNeeded. cbn [mstate view]. rewrite Hdt. cbn. by eexists.
  - cbn [isSuspicious view]. destruct (isSuspicious s); by eexists.
Qed.

Lemma mergeable_owned m : mergeable m -> mergeable (makeObjOwnedIfNeeded m).
Proof. unfold makeObjOwnedIfNeeded. by case_if. Qed.

(** When a member with index keys is merged with one that has a document, the document is
    taken over before the state changes, and so it is not copied: the merged member has a
    document that it does not own, although the code asks for an owned one. *)
Theorem mergeFrom_leaves_document_unowned dest src :
  mergeable dest -> mergeable src -> recordId dest = recordId src ->
  mstate dest = RID_AND_IDX -> mstate src = RID_AND_OBJ -> isOwned (value (obj src)) = false ->
  exists m, merge_member dest src = Some m /\ mstate m = RID_AND_OBJ /\ obj m = obj src /\ hasOwnedObj m = false.
Proof.
  intros [Hd Hcd] [Hs Hcs] Hr Hdt Hst Ho. destruct (merge_computed_ok (seq 0 WSM_COMPUTED_NUM_TYPES) _ _ Hcd Hcs) as (c & Hc & Heq).
  unfold merge_member. rewrite !invariant_bind by (done || by apply Z.eqb_eq). rewrite (Heq dest src) by done. cbn [mbind option_bind].
  unfold hasObj, makeObjOwnedIfNeeded, hasOwnedObj. cbn [mstate]. rewrite Hdt, Hst. cbn. eexists. split_and!; [done..|]. simpl. by rewrite Ho.
Qed.

(** ** The algorithm on lists *)

(** The run of the stage on the results of its children: [target] is the target and [W] are
    the children to work towards it.  Each step takes one result from a list. *)
Fixpoint and_run (fuel : nat) (ls : list (list WorkingSetMember)) (target : WorkingSetMember) (W : list nat) : list WorkingSetMember :=
  match fuel with
  | O => []
  | S fuel =>
      match W with
      | [] =>
          match ls !! 0%nat with
          | Some (m :: l) => and_run fuel (<[0%nat := l]> ls) (makeObjOwnedIfNeeded m) (others (length ls) 0)
          | _ => []
          end
      | i :: W' =>
          match ls !! i with
          | Some (m :: l) =>
              let ls' := <[i := l]> ls in
              if recordId m =? recordId target then
                match merge_member target m, W' with
                | Some t, [] => t :: and_run fuel ls' t []
                | Some t, _ => and_run fuel ls' t W'
                | None, _ => []
                end
              else if recordId m <? recordId target then and_run fuel ls' target W
              else and_run fuel ls' (makeObjOwnedIfNeeded m) (others (length ls) i)
          | _ => []
          end
      end
  end.

Definition ids (l : list WorkingSetMember) : list Z := recordId <$> l.

(** The results of the children are in the strict order of their record ids. *)
Definition ascending (l : list WorkingSetMember) : Prop := StronglySorted Z.lt (ids l).

(** A record id that is still to be returned. *)
Definition expected (ls : list (list WorkingSetMember)) (t : Z) (W : list nat) (r : Z) : Prop :=
  match W with
  | [] => forall i l, ls !! i = Some l -> r ∈ ids l
  | _ => r = t /\ (forall i l, i ∈ W -> ls !! i = Some l -> t ∈ ids l) \/
         t < r /\ (forall i l, ls !! i = Some l -> r ∈ ids l)
  end.

(** The children that are not in [W] are past the target. *)
Definition and_state (ls : list (list WorkingSetMember)) (t : Z) (W : list nat) : Prop :=
  (2 <= length ls)%nat /\ Forall ascending ls /\ NoDup W /\ (forall i, i ∈ W -> (i < length ls)%nat) /\
  (W <> [] -> forall i l r, i ∉ W -> ls !! i = Some l -> r ∈ ids l -> t < r).

Lemma ascending_cons m l : ascending (m :: l) <-> ascending l /\ forall r, r ∈ ids l -> recordId m < r.
Proof.
  unfold ascending, ids. rewrite fmap_cons. split.
  - intros [Hl Hm]%StronglySorted_inv. split; [done|]. by rewrite <- Forall_forall.
  - intros [Hl Hm]. constructor; [done|]. by rewrite Forall_forall.
Qed.

Lemma elem_of_others n i j : j ∈ others n i <-> (j < n)%nat /\ j <> i.
Proof.
  unfold others. rewrite list_elem_of_In, List.filter_In, List.in_seq, negb_true_iff, Nat.eqb_neq. naive_solver lia.
Qed.

Lemma others_NoDup n i : NoDup (others n i).
Proof. unfold others. apply NoDup_ListNoDup, List.NoDup_filter, List.seq_NoDup. Qed.

Lemma others_ne n i : (2 <= n)%nat -> others n i <> [].
Proof.
  intros Hn He. assert ((if decide (i = 0%nat) then 1%nat else 0%nat) ∈ others n i) as Hin by (apply elem_of_others; case_decide; lia).
  rewrite He in Hin. by apply not_elem_of_nil in Hin.
Qed.

Lemma ids_cons m l r : r ∈ ids (m :: l) <-> r = recordId m \/ r ∈ ids l.
Proof. unfold ids. rewrite fmap_cons. apply elem_of_cons. Qed.

Section step.
Context (ls : list (list WorkingSetMember)) (i : nat) (m : WorkingSetMember) (l : list WorkingSetMember).
Context (Hi : ls !! i = Some (m :: l)) (Hasc : Forall ascending ls).

Lemma step_lookup j lj : <[i := l]> ls !! j = Some lj -> j = i /\ lj = l \/ j <> i /\ ls !! j = Some lj.
Proof. intros [(<- & <- & _)|[Hne Hj]]%list_lookup_insert_Some; [by left|right; by split]. Qed.

Lemma step_here : <[i := l]> ls !! i = Some l.
Proof. apply list_lookup_insert_eq. by eapply lookup_lt_Some. Qed.

Lemma step_ascending : Forall ascending (<[i := l]> ls) /\ forall r, r ∈ ids l -> recordId m < r.
Proof.
  pose proof (Forall_lookup_1 _ _ _ _ Hasc Hi) as [Hl Hm]%ascending_cons. split; [|done]. by apply Forall_insert.
Qed.

Lemma step_all r : (forall j lj, <[i := l]> ls !! j = Some lj -> r ∈ ids lj) \/ r = recordId m /\ (forall j lj, j <> i -> ls !! j = Some lj -> r ∈ ids lj) <->
  forall j lj, ls !! j = Some lj -> r ∈ ids lj.
Proof.
  split.
  - intros [Hall|[-> Hall]] j lj Hj.
    + destruct (decide (j = i)) as [->|Hne].
      * rewrite Hi in Hj. injection Hj as <-. apply ids_cons. right. apply (Hall i). apply step_here.
      * apply (Hall j). by rewrite list_lookup_insert_ne.
    + destruct (decide (j = i)) as [->|Hne]; [|by eapply Hall]. rewrite Hi in Hj. injection Hj as <-. apply ids_cons. by left.
  - intros Hall. pose proof (Hall i _ Hi) as [->|Hr]%ids_cons.
    + right. split; [done|]. intros j lj _. apply Hall.
    + left. intros j lj [[-> ->]|[_ Hj]]%step_lookup; [done|]. by apply (Hall j).
Qed.

(** Child [i] is the only one that is past the new target. *)
Lemma retarget_state :
  (2 <= length ls)%nat -> and_state (<[i := l]> ls) (recordId m) (others (length ls) i).
Proof.
  intros Hn. destruct step_ascending as [Hasc' Hm]. unfold and_state. rewrite length_insert. split_and!; [done|done|apply others_NoDup| |].
  - intros j Hj. apply elem_of_others in Hj. lia.
  - intros _ j lj r Hj Hlj Hr. apply step_lookup in Hlj as [[-> ->]|[Hne Hlj]]; [by apply Hm|].
    destruct Hj. apply elem_of_others. split; [by eapply lookup_lt_Some|done].
Qed.

Lemma retarget_expected r :
  (2 <= length ls)%nat ->
  expected (<[i := l]> ls) (recordId m) (others (length ls) i) r <-> forall j lj, ls !! j = Some lj -> r ∈ ids lj.
Proof.
  intros Hn. rewrite <- step_all. unfold expected. destruct (others (length ls) i) eqn:Ho; [by apply others_ne in Ho|]. rewrite <- Ho. clear Ho. split.
  - intros [[-> Hall]|[Hlt Hall]]; [right|by left]. split; [done|]. intros j lj Hne Hj. apply (Hall j).
    + apply elem_of_others. split; [by eapply lookup_lt_Some|done].
    + by rewrite list_lookup_insert_ne.
  - intros [Hall|[-> Hall]].
    + right. split; [|done]. apply step_ascending. apply (Hall i), step_here.
    + left. split; [done|]. intros j lj [_ Hne]%elem_of_others [[-> _]|[_ Hj]]%step_lookup; [done|]. by apply (Hall j).
Qed.

(** A result before the target says nothing. *)
Lemma skip_expected t W r :
  i ∈ W -> recordId m < t -> expected (<[i := l]> ls) t W r <-> expected ls t W r.
Proof.
  intros HiW Hlt. unfold expected. destruct W as [|w W]; [by apply not_elem_of_nil in HiW|].
  assert (forall r, t <= r -> (forall j lj, <[i := l]> ls !! j = Some lj -> r ∈ ids lj) <-> forall j lj, ls !! j = Some lj -> r ∈ ids lj) as Hall.
  { intros x Hx. rewrite <- step_all. split; [by left|]. intros [?|[-> _]]; [done|lia]. }
  assert ((forall j lj, j ∈ w :: W -> <[i := l]> ls !! j = Some lj -> t ∈ ids lj) <-> forall j lj, j ∈ w :: W -> ls !! j = Some lj -> t ∈ ids lj) as ->.
  { split; intros H j lj Hj.
    - intros Hlj. destruct (decide (j = i)) as [->|Hne]; [|apply (H j); [done|by rewrite list_lookup_insert_ne]].
      rewrite Hi in Hlj. injection Hlj as <-. apply ids_cons. right. apply (H i); [done|apply step_here].
    - intros [[-> ->]|[_ Hlj]]%step_lookup; [|by apply (H j)]. destruct (proj1 (ids_cons m l t) (H i _ HiW Hi)); [lia|done]. }
  split; (intros [?|[??]]; [by left|right; split; [done|]; apply Hall; [lia|done]]).
Qed.

(** A child that has reached the target. *)
Lemma reach_expected W r :
  i ∉ W -> (forall j lj x, j ∉ i :: W -> ls !! j = Some lj -> x ∈ ids lj -> recordId m < x) ->
  expected ls (recordId m) (i :: W) r <->
  match W with
  | [] => r = recordId m \/ expected (<[i := l]> ls) (recordId m) [] r
  | _ => expected (<[i := l]> ls) (recordId m) W r
  end.
Proof.
  intros HiW Hpast. destruct step_ascending as [_ Hm].
  assert (recordId m < r /\ (forall j lj, ls !! j = Some lj -> r ∈ ids lj) <-> recordId m < r /\ forall j lj, <[i := l]> ls !! j = Some lj -> r ∈ ids lj) as Hall.
  { rewrite <- step_all. split; intros [Hlt H]; (split; [done|]); [destruct H as [?|[? _]]; [done|lia]|by left]. }
  assert (r = recordId m /\ (forall j lj, j ∈ i :: W -> ls !! j = Some lj -> recordId m ∈ ids lj) <->
    r = recordId m /\ forall j lj, j ∈ W -> <[i := l]> ls !! j = Some lj -> recordId m ∈ ids lj) as Hhere.
  { split; intros [-> H]; (split; [done|]); intros j lj Hj.
    - intros [[-> _]|[_ Hlj]]%step_lookup; [done|]. apply (H j); [by right|done].
    - intros Hlj. destruct (decide (j = i)) as [->|Hne]; [rewrite Hi in Hlj; injection Hlj as <-; apply ids_cons; by left|].
      apply elem_of_cons in Hj as [->|Hj]; [done|]. apply (H j); [done|by rewrite list_lookup_insert_ne]. }
  unfold expected at 1. rewrite Hall, Hhere. destruct W as [|w W]; [|done]. simpl. split.
  - intros [[-> _]|[_ ?]]; [by left|by right].
  - intros [->|H]; [left; split; [done|]; intros j lj Hj; by apply not_elem_of_nil in Hj|right]. split; [|done].
    apply Hm, (H i), step_here.
Qed.

(** A child that is past the target. *)
Lemma pass_expected t W r :
  i ∈ W -> t < recordId m -> expected ls t W r <-> forall j lj, ls !! j = Some lj -> r ∈ ids lj.
Proof.
  intros HiW Hlt. destruct step_ascending as [_ Hm]. unfold expected. destruct W as [|w W]; [by apply not_elem_of_nil in HiW|]. split.
  - intros [[-> He]|[_ He]]; [|done]. destruct (proj1 (ids_cons m l t) (He i _ HiW Hi)) as [->|Ht]; [lia|]. apply Hm in Ht. lia.
  - intros He. right. split; [|done]. destruct (proj1 (ids_cons m l r) (He i _ Hi)) as [->|Hr]; [done|]. apply Hm in Hr. lia.
Qed.

Lemma reach_state W :
  and_state ls (recordId m) (i :: W) -> and_state (<[i := l]> ls) (recordId m) W.
Proof.
  intros (Hn & _ & [HiW Hnd]%NoDup_cons & HW & Hpast). destruct step_ascending as [Hasc' Hm]. unfold and_state. rewrite length_insert.
  split_and!; [done|done|done|intros j Hj; apply HW; by right|]. intros _ j lj r Hj Hlj.
  apply step_lookup in Hlj as [[-> ->]|[Hne Hlj]]; [apply Hm|]. apply (Hpast ltac:(done) j); [|done]. by intros [->|?]%elem_of_cons.
Qed.
End step.

Lemma total_insert {A} (ls : list (list A)) i m l :
  ls !! i = Some (m :: l) -> sum_list_with length ls = S (sum_list_with length (<[i := l]> ls)).
Proof. intros Hi. pose proof (sum_insert length ls i (m :: l) l Hi). simpl in *. lia. Qed.

(** The target stays behind the results that all children still have. *)
Lemma ascending_target ls t l :
  (forall i lj r, ls !! i = Some lj -> r ∈ ids lj -> recordId t < r) -> (2 <= length ls)%nat ->
  ascending l -> (forall r, r ∈ ids l <-> expected ls (recordId t) [] r) -> ascending (t :: l).
Proof.
  intros Hpast Hn Hl He. apply ascending_cons. split; [done|]. intros r Hr%He.
  destruct (lookup_lt_is_Some_2 ls 0) as [l0 Hl0]; [lia|]. eapply Hpast; [done|]. by apply (Hr 0%nat).
Qed.

(** What the run has to return. *)
Definition returns (out : list WorkingSetMember) (E : Z -> Prop) : Prop := ascending out /\ forall r, r ∈ ids out <-> E r.

Lemma returns_iff out E E' : (forall r, E r <-> E' r) -> returns out E -> returns out E'.
Proof. intros HE [Ho Hr]. split; [done|]. intros r. by rewrite Hr. Qed.

Lemma returns_nil E : (forall r, ~ E r) -> returns [] E.
Proof. intros HE. split; [constructor|]. intros r. split; [by intros ?%not_elem_of_nil|]. intros Hr. by destruct (HE r). Qed.

(** The run after child [i] has reached the target. *)
Lemma and_run_reach fuel ls t t' W i m l :
  ls !! i = Some (m :: l) -> and_state ls (recordId t) (i :: W) -> recordId m = recordId t -> recordId t' = recordId t ->
  returns (and_run fuel (<[i := l]> ls) t' W) (expected (<[i := l]> ls) (recordId t') W) ->
  returns (match W with [] => t' :: and_run fuel (<[i := l]> ls) t' [] | _ => and_run fuel (<[i := l]> ls) t' W end) (expected ls (recordId t) (i :: W)).
Proof.
  intros Hi Hst Hmt Ht'. rewrite Ht', <- Hmt in *. pose proof (reach_state ls i m l Hi (proj1 (proj2 Hst)) W Hst) as Hst'.
  destruct Hst as (Hn & Hasc & [HiW Hnd]%NoDup_cons & HW & Hpast). destruct (step_ascending ls i m l Hi Hasc) as [_ Hm].
  intros [Ho Hr]. eapply returns_iff; [intros r; symmetry; apply (reach_expected ls i m l Hi Hasc W r HiW), (Hpast ltac:(done))|].
  destruct W as [|w W]; [|done]. split.
  - eapply (ascending_target (<[i := l]> ls)); [|by rewrite length_insert|done|by rewrite Ht'].
    rewrite Ht'. intros j lj x [[-> ->]|[Hne Hj]]%step_lookup; [apply Hm|]. eapply (Hpast ltac:(done) j); [|done]. by intros ->%list_elem_of_singleton.
  - intros r. rewrite ids_cons, Hr, Ht'. done.
Qed.

(** The run when the next result of child [i] becomes the target. *)
Lemma and_run_retarget fuel ls i m l :
  ls !! i = Some (m :: l) -> Forall ascending ls -> (2 <= length ls)%nat ->
  returns (and_run fuel (<[i := l]> ls) (makeObjOwnedIfNeeded m) (others (length ls) i))
    (expected (<[i := l]> ls) (recordId (makeObjOwnedIfNeeded m)) (others (length ls) i)) ->
  returns (and_run fuel (<[i := l]> ls) (makeObjOwnedIfNeeded m) (others (length ls) i)) (fun r => forall j lj, ls !! j = Some lj -> r ∈ ids lj).
Proof. intros Hi Hasc Hn. rewrite recordId_owned. apply returns_iff. intros r. by apply retarget_expected. Qed.

Lemma and_run_ids fuel : forall ls t W,
  (sum_list_with length ls < fuel)%nat -> and_state ls (recordId t) W -> Forall (Forall mergeable) ls -> (W <> [] -> mergeable t) ->
  returns (and_run fuel ls t W) (expected ls (recordId t) W).
Proof.
  induction fuel as [|fuel IH]; intros ls t W Hfuel Hst Hmg Ht; [lia|]. pose proof Hst as (Hn & Hasc & Hnd & HW & Hpast). simpl.
  assert (forall i m l t' W', ls !! i = Some (m :: l) -> and_state (<[i := l]> ls) (recordId t') W' -> (W' <> [] -> mergeable t') ->
    returns (and_run fuel (<[i := l]> ls) t' W') (expected (<[i := l]> ls) (recordId t') W')) as Hnext.
  { intros i m l t' W' Hi Hst' Ht'. rewrite (total_insert _ _ _ _ Hi) in Hfuel. apply IH; [lia|done| |done].
    apply Forall_insert; [done|]. by apply (Forall_lookup_1 _ _ _ _ Hmg), Forall_cons in Hi as [_ ?]. }
  assert (forall i m l, ls !! i = Some (m :: l) -> mergeable m) as Hm.
  { intros i m l Hi. by apply (Forall_lookup_1 _ _ _ _ Hmg), Forall_cons in Hi as [? _]. }
  assert (forall i m l, ls !! i = Some (m :: l) ->
    returns (and_run fuel (<[i := l]> ls) (makeObjOwnedIfNeeded m) (others (length ls) i)) (fun r => forall j lj, ls !! j = Some lj -> r ∈ ids lj)) as Hretarget.
  { intros i m l Hi. apply and_run_retarget; [done|done|done|]. eapply Hnext; [done|rewrite recordId_owned; by apply retarget_state|].
    intros _. by eapply mergeable_owned, Hm. }
  destruct W as [|i W].
  { destruct (lookup_lt_is_Some_2 ls 0) as [l0 Hl0]; [lia|]. rewrite Hl0. destruct l0 as [|m l]; [|by apply Hretarget].
    apply returns_nil. intros r He. exact (not_elem_of_nil _ (He 0%nat [] Hl0)). }
  destruct (lookup_lt_is_Some_2 ls i) as [li Hli]; [apply HW; by left|]. rewrite Hli. destruct li as [|m l].
  { apply returns_nil. intros r. simpl. intros [[_ He]|[_ He]]; [|exact (not_elem_of_nil _ (He i [] Hli))].
    exact (not_elem_of_nil _ (He i [] (list_elem_of_here _ _) Hli)). }
  destruct (recordId m =? recordId t) eqn:Heq; [|destruct (recordId m <? recordId t) eqn:Hlt]; bprop.
  - destruct (merge_member_ok t m) as (t' & -> & _ & Hmg' & Hr' & _); [by apply Ht|by eapply Hm|done|].
    eapply (and_run_reach fuel ls t t' W i m l) in Hst as Hreach; [by destruct W|done|done|done|]. eapply Hnext; [done|rewrite Hr', <- Heq|done].
    apply reach_state; [done|done|]. by rewrite Heq.
  - eapply returns_iff; [intros r; apply (skip_expected ls i m l Hli); [by left|done]|]. eapply Hnext; [done| |done].
    destruct (step_ascending ls i m l Hli Hasc) as [Hasc' _]. unfold and_state. rewrite length_insert. split_and!; try done.
    intros Hne j lj r Hj Hlj. apply (Hpast Hne j); [done|]. apply step_lookup in Hlj as [[-> _]|[_ ?]]; [|done]. by destruct Hj; left.
  - eapply returns_iff; [intros r; symmetry; apply (pass_expected ls i m l Hli Hasc); [by left|lia]|]. by apply Hretarget.
Qed.

(** ** The stage runs the algorithm *)

Section stage.
Context {St : Type} `{!PlanStage St}.

(** A result of a child while there is a target [tm]; [R] is the rest of the working set. *)
Lemma toward_advanced_spec ws (s : AndSortedStage St) i W id m tid tm R :
  ws_ok ws -> splits (live ws) ({[id := m]} :: {[tid := tm]} :: R) -> mergeable m -> mergeable tm ->
  targetRecordId s = recordId tm -> workingTowardRep s = i :: W ->
  exists ws', ws_ok ws' /\
    if recordId m =? recordId tm then
      exists t, merge_member (view tm) (view m) = Some (view t) /\ mergeable t /\ recordId t = recordId tm /\
        splits (live ws') ({[tid := t]} :: R) /\
        toward_advanced ws s i id tid = Some
          match W with
          | [] => (ws', mkAnd (and_children s) None None 0 [] (and_isEOF s), ADVANCED, Some tid)
          | _ => (ws', mkAnd (and_children s) (targetNode s) (targetId s) (targetRecordId s) W (and_isEOF s), NEED_TIME, None)
          end
    else if recordId m <? recordId tm then
      splits (live ws') ({[tid := tm]} :: R) /\ toward_advanced ws s i id tid = Some (ws', s, NEED_TIME, None)
    else
      splits (live ws') ({[id := makeObjOwnedIfNeeded m]} :: R) /\
      toward_advanced ws s i id tid = Some (ws',
        mkAnd (and_children s) (Some i) (Some id) (recordId m) (others (length (and_children s)) i) (and_isEOF s), NEED_TIME, None).
Proof.
  intros Hok Hs Hm Htm Ht HW. unfold toward_advanced. rewrite (get_owned _ _ _ _ Hs). cbn [mbind option_bind].
  rewrite invariant_bind by apply Hm. rewrite Ht, HW. destruct (recordId m =? recordId tm) eqn:Heq; [|destruct (recordId m <? recordId tm)].
  - apply Z.eqb_eq in Heq. destruct (merge_member_ok tm m Htm Hm) as (t & Hmerge & Hview & Hmg & Hrid & _); [done|].
    pose proof (splits_swap _ _ _ _ Hs) as Hs1. unfold mergeFrom. rewrite (get_owned _ _ _ _ Hs1). cbn [mbind option_bind]. rewrite Hmerge. cbn [mbind option_bind].
    destruct (put_owned _ _ _ t _ Hok Hs1) as [Hok2 Hs2]. apply splits_swap in Hs2.
    destruct (free_owned _ _ _ _ Hok2 Hs2) as (ws3 & -> & Hok3 & Hs3). cbn [mbind option_bind tail workingTowardRep]. exists ws3. split; [done|].
    exists t. split_and!; try done. by destruct W.
  - destruct (free_owned _ _ _ _ Hok Hs) as (ws' & -> & Hok' & Hs'). by exists ws'.
  - apply splits_swap in Hs. destruct (free_owned _ _ _ _ Hok Hs) as (ws' & -> & Hok' & Hs'). cbn [mbind option_bind].
    destruct (put_owned _ _ _ (makeObjOwnedIfNeeded m) _ Hok' Hs') as [Hok2 Hs2]. by eexists.
Qed.

(** The target: the child it is from, its id and the member. *)
Abbreviation target := (option (nat * nat * WorkingSetMember)) (only parsing).

Definition stage_with (cs : list St) (t : target) (W : list nat) : AndSortedStage St :=
  match t with
  | None => mkAnd cs None None 0 W false
  | Some (i, id, tm) => mkAnd cs (Some i) (Some id) (recordId tm) W false
  end.

Definition target_owned (t : target) : list heap := match t with None => [] | Some (_, id, tm) => [{[id := tm]}] end.

Definition target_view (t : target) : WorkingSetMember := match t with None => WorkingSetMember_new | Some (_, _, tm) => view tm end.

Definition target_ok (t : target) (W : list nat) : Prop :=
  match t with None => W = [] | Some (_, _, tm) => W <> [] /\ mergeable tm end.

(** What the stage relies on. *)
Record and_inv (ps : list promise) (cs : list St) (t : target) (W : list nat) (P : heap) : Prop := {
  ai_keeps : Forall2 keeps cs ps;
  ai_end : Forall (fun p => pr_end p = AtEOF) ps;
  ai_mergeable : Forall (Forall mergeable) (map pr_list ps);
  ai_children : (2 <= length ps)%nat;
  ai_target : target_ok t W;
  ai_range : forall i, i ∈ W -> (i < length ps)%nat;
  ai_owns : splits P (target_owned t ++ map pr_owns ps);
}.

(** A call of child [i] leaves a new promise [p'] and a new target. *)
Lemma and_inv_step ps cs t W P i p c' p' t' W' P' :
  and_inv ps cs t W P -> ps !! i = Some p -> keeps c' p' -> pr_end p' = AtEOF -> Forall mergeable (pr_list p') ->
  target_ok t' W' -> (forall i, i ∈ W' -> (i < length ps)%nat) -> splits P' (target_owned t' ++ map pr_owns (<[i := p']> ps)) ->
  and_inv (<[i := p']> ps) (<[i := c']> cs) t' W' P'.
Proof.
  intros [Hk He Hm Hc Ht HW HP] Hi Hk' He' Hm' Ht' HW' HP'. split; try done.
  - by apply Forall2_insert.
  - by apply Forall_insert.
  - rewrite list_fmap_insert. by apply Forall_insert.
  - by rewrite length_insert.
  - intros j Hj. rewrite length_insert. by apply HW'.
Qed.

(** A child and its promise. *)
Lemma and_inv_child ps cs t W P i :
  and_inv ps cs t W P -> (i < length ps)%nat ->
  exists c p, cs !! i = Some c /\ ps !! i = Some p /\ keeps c p /\ pr_end p = AtEOF /\ Forall mergeable (pr_list p) /\ map pr_list ps !! i = Some (pr_list p).
Proof.
  intros [Hk He Hm Hc Ht HW HP] [p Hp]%lookup_lt_is_Some. destruct (Forall2_lookup_r _ _ _ _ _ Hk Hp) as (c & Hc' & Hcp).
  exists c, p. split_and!; try done; [by apply (Forall_lookup_1 _ _ _ _ He Hp)| |by rewrite list_lookup_fmap, Hp].
  apply (Forall_lookup_1 _ _ i _ Hm). by rewrite list_lookup_fmap, Hp.
Qed.

(** Later calls do as the algorithm says. *)
Definition and_later (N : nat) : Prop := forall ps cs t W P fuel,
  (sum_list_with pr_calls ps < N)%nat -> (sum_list_with length (map pr_list ps) < fuel)%nat -> and_inv ps cs t W P ->
  produces N P (stage_with cs t W) (and_run fuel (map pr_list ps) (target_view t) W) AtEOF.

Lemma and_later_step N ps cs t W P i n Pc lc c' P1 l1 t' W' P' fuel :
  and_later N -> (sum_list_with pr_calls ps < S N)%nat -> and_inv ps cs t W P -> ps !! i = Some (mkPromise (S n) Pc lc AtEOF) ->
  produces n P1 c' l1 AtEOF -> Forall mergeable l1 -> target_ok t' W' -> (forall i, i ∈ W' -> (i < length ps)%nat) ->
  splits P' (target_owned t' ++ map pr_owns (<[i := mkPromise n P1 l1 AtEOF]> ps)) ->
  (sum_list_with length (<[i := l1]> (map pr_list ps)) < fuel)%nat ->
  produces N P' (stage_with (<[i := c']> cs) t' W') (and_run fuel (<[i := l1]> (map pr_list ps)) (target_view t') W') AtEOF.
Proof.
  intros Hlater HN Hinv Hi Hp Hm Ht' HW' HP' Hfuel. pose proof (sum_insert pr_calls ps i _ (mkPromise n P1 l1 AtEOF) Hi) as Hsum. cbn [pr_calls] in Hsum.
  assert (<[i := l1]> (map pr_list ps) = map pr_list (<[i := mkPromise n P1 l1 AtEOF]> ps)) as Heq by (symmetry; apply (list_fmap_insert pr_list)).
  rewrite Heq in Hfuel |- *.
  apply Hlater; [lia|done|]. by eapply and_inv_step.
Qed.

(** A call that gets no target: the first child is worked. *)
Lemma and_find_target N ps cs P fuel :
  and_later N -> (sum_list_with pr_calls ps < S N)%nat -> (sum_list_with length (map pr_list ps) < fuel)%nat -> and_inv ps cs None [] P ->
  produces (S N) P (stage_with cs None []) (and_run fuel (map pr_list ps) (target_view None) []) AtEOF.
Proof.
  intros Hlater HN Hfuel Hinv. pose proof (ai_children _ _ _ _ _ Hinv) as Hn.
  destruct (and_inv_child _ _ _ _ _ 0 Hinv) as (c & p & Hc & Hp & Hk & He & Hm & Hl); [lia|].
  apply produces_S. split; [done|]. intros ws Fs Hok Hs. cbn [work AndSortedStage_stage stage_with]. unfold AndSortedStage_doWork, getTargetRecordId. cbn.
  rewrite Hc. cbn [mbind option_bind]. pose proof (child_focus _ _ _ _ _ _ Fs Hp (ai_owns _ _ _ _ _ Hinv) Hs) as Hs1.
  destruct p as [n Pc lc ec]. unfold keeps in Hk. cbn [pr_calls pr_owns pr_list pr_end] in *. subst ec. destruct n as [|n]; [done|].
  apply produces_S in Hk as [_ Hw]. destruct (Hw ws _ Hok Hs1) as (ws' & c' & r & out & Pc' & -> & Hok' & Hr). cbn [mbind option_bind].
  assert (forall t' W' P' fuel', target_ok t' W' -> (forall i, i ∈ W' -> (i < length ps)%nat) -> forall l1, produces n Pc' c' l1 AtEOF -> Forall mergeable l1 ->
    splits P' (target_owned t' ++ map pr_owns (<[0%nat := mkPromise n Pc' l1 AtEOF]> ps)) -> (sum_list_with length (<[0%nat := l1]> (map pr_list ps)) < fuel')%nat ->
    produces N P' (stage_with (<[0%nat := c']> cs) t' W') (and_run fuel' (<[0%nat := l1]> (map pr_list ps)) (target_view t') W') AtEOF) as Hnext.
  { intros. by eapply and_later_step. }
  destruct fuel as [|fuel]; [lia|]. destruct r; try (destruct Hr as (id & m & _ & _ & ? & _); done).
  - destruct Hr as (id & m & l' & -> & -> & Hs' & Hp'). apply Forall_cons in Hm as [Hm Hml]. cbn [mbind option_bind].
    rewrite (get_owned _ _ _ _ Hs'). cbn [mbind option_bind]. rewrite invariant_bind by apply Hm.
    destruct (put_owned _ _ _ (makeObjOwnedIfNeeded m) _ Hok' Hs') as [Hok2 Hs2]. apply splits_swap in Hs2.
    destruct (child_unfocus _ [] [{[id := makeObjOwnedIfNeeded m]}] _ 0 _ (mkPromise n Pc' l' AtEOF) _ Hp Hs2) as (P' & HP' & Hs3).
    call_returns P'. split; [done|]. cbn [and_run]. rewrite Hl, view_owned.
    rewrite length_insert, (Forall2_length _ _ _ (ai_keeps _ _ _ _ _ Hinv)), length_map, <- (recordId_owned m).
    rewrite (total_insert _ _ _ _ Hl) in Hfuel. apply (Hnext (Some (0%nat, id, makeObjOwnedIfNeeded m))); try done; [|by intros i [? _]%elem_of_others|lia].
    split; [by apply others_ne|by apply mergeable_owned].
  - destruct Hr as (-> & _ & Heof & Hs'). destruct (child_unfocus _ [] [] _ 0 _ (mkPromise n Pc' [] AtEOF) _ Hp Hs') as (P' & HP' & Hs3).
    call_returns P'. cbn [and_run]. by rewrite Hl.
  - destruct Hr as (Hs' & Hp'). destruct (child_unfocus _ [] [] _ 0 _ (mkPromise n Pc' lc AtEOF) _ Hp Hs') as (P' & HP' & Hs3).
    call_returns P'. split; [done|]. rewrite <- (list_insert_id _ _ _ Hl). apply (Hnext None []); try done; [by intros ? ?%not_elem_of_nil|by rewrite (list_insert_id _ _ _ Hl)].
  - destruct Hr as (Hs' & Hp'). destruct (child_unfocus _ [] [] _ 0 _ (mkPromise n Pc' lc AtEOF) _ Hp Hs') as (P' & HP' & Hs3).
    call_returns P'. split; [done|]. rewrite <- (list_insert_id _ _ _ Hl). apply (Hnext None []); try done; [by intros ? ?%not_elem_of_nil|by rewrite (list_insert_id _ _ _ Hl)].
Qed.

Lemma and_run_no_target fuel ls t t' : and_run fuel ls t [] = and_run fuel ls t' [].
Proof. by destruct fuel. Qed.

(** The child has handed out a result. *)
Lemma and_move_advanced N ps cs nd tid tm i W P fuel n Pc c' Pc' id m l' ws Fs :
  let l := and_run fuel (map pr_list ps) (view tm) (i :: W) in
  and_later N -> (sum_list_with pr_calls ps < S N)%nat -> (sum_list_with length (map pr_list ps) < fuel)%nat ->
  and_inv ps cs (Some (nd, tid, tm)) (i :: W) P -> ps !! i = Some (mkPromise (S n) Pc (view m :: l') AtEOF) -> produces n Pc' c' l' AtEOF ->
  ws_ok ws -> splits (live ws) ({[id := m]} :: Pc' :: {[tid := tm]} :: map pr_owns (delete i ps) ++ Fs) ->
  exists ws' s' r out P',
    toward_advanced ws (mkAnd (<[i := c']> cs) (Some nd) (Some tid) (recordId tm) (i :: W) false) i id tid = Some (ws', s', r, out) /\ ws_ok ws' /\
    match r with
    | ADVANCED => exists id m l', out = Some id /\ l = view m :: l' /\ splits (live ws') ({[id := m]} :: P' :: Fs) /\ produces N P' s' l' AtEOF
    | NEED_TIME => splits (live ws') (P' :: Fs) /\ produces N P' s' l AtEOF
    | _ => False
    end.
Proof.
  intros l Hlater HN Hfuel Hinv Hp Hp' Hok Hs. destruct (ai_target _ _ _ _ _ Hinv) as [_ Htm]. pose proof (ai_children _ _ _ _ _ Hinv) as Hn.
  assert (map pr_list ps !! i = Some (view m :: l')) as Hl by by rewrite list_lookup_fmap, Hp.
  pose proof (Forall_lookup_1 _ _ _ _ (ai_mergeable _ _ _ _ _ Hinv) Hl) as [Hm Hml]%Forall_cons.
  assert (splits (live ws) ({[id := m]} :: {[tid := tm]} :: Pc' :: map pr_owns (delete i ps) ++ Fs)) as Hs2 by (revert Hs; apply splits_Proper; [done|solve_Permutation]).
  assert (forall t' W' P' fuel', target_ok t' W' -> (forall i, i ∈ W' -> (i < length ps)%nat) ->
    splits P' (target_owned t' ++ map pr_owns (<[i := mkPromise n Pc' l' AtEOF]> ps)) -> (sum_list_with length (<[i := l']> (map pr_list ps)) < fuel')%nat ->
    produces N P' (stage_with (<[i := c']> cs) t' W') (and_run fuel' (<[i := l']> (map pr_list ps)) (target_view t') W') AtEOF) as Hnext.
  { intros. by eapply and_later_step. }
  destruct fuel as [|fuel]; [lia|]. rewrite (total_insert _ _ _ _ Hl) in Hfuel. unfold l. cbn [and_run]. rewrite Hl.
  change (recordId (view m)) with (recordId m). change (recordId (view tm)) with (recordId tm).
  destruct (toward_advanced_spec ws (mkAnd (<[i := c']> cs) (Some nd) (Some tid) (recordId tm) (i :: W) false) i W id m tid tm _ Hok Hs2) as (ws2 & Hok2 & Hr); try done.
  destruct (recordId m =? recordId tm); [|destruct (recordId m <? recordId tm)].
  - destruct Hr as (t & Hmerge & Hmt & Hrt & Hs3 & ->). rewrite Hmerge. destruct W as [|w W].
    + destruct (child_unfocus _ [_] [] _ i _ (mkPromise n Pc' l' AtEOF) _ Hp Hs3) as (P' & HP' & Hs4).
      call_returns P'. eexists tid, t, _. split_and!; [done|done|done|]. rewrite (and_run_no_target _ _ _ (target_view None)).
      apply (Hnext None []); [done|by intros ? ?%not_elem_of_nil|done|lia].
    + apply splits_swap in Hs3. destruct (child_unfocus _ [] [_] _ i _ (mkPromise n Pc' l' AtEOF) _ Hp Hs3) as (P' & HP' & Hs4).
      call_returns P'. split; [done|]. cbn [and_children targetNode targetId targetRecordId and_isEOF]. rewrite <- Hrt.
      apply (Hnext (Some (nd, tid, t)) (w :: W)); [done| |done|lia]. intros j Hj. apply (ai_range _ _ _ _ _ Hinv). by right.
  - destruct Hr as (Hs3 & ->). apply splits_swap in Hs3. destruct (child_unfocus _ [] [_] _ i _ (mkPromise n Pc' l' AtEOF) _ Hp Hs3) as (P' & HP' & Hs4).
    call_returns P'. split; [done|]. apply (Hnext (Some (nd, tid, tm)) (i :: W)); [done|by apply Hinv|done|lia].
  - destruct Hr as (Hs3 & ->). apply splits_swap in Hs3. destruct (child_unfocus _ [] [_] _ i _ (mkPromise n Pc' l' AtEOF) _ Hp Hs3) as (P' & HP' & Hs4).
    call_returns P'. split; [done|]. cbn [and_children and_isEOF]. rewrite length_insert, (Forall2_length _ _ _ (ai_keeps _ _ _ _ _ Hinv)), length_map, <- (recordId_owned m), view_owned.
    apply (Hnext (Some (i, id, makeObjOwnedIfNeeded m))); [|by intros j [? _]%elem_of_others|done|lia]. split; [by apply others_ne|by apply mergeable_owned].
Qed.

(** A call that works a child towards the target. *)
Lemma and_move_target N ps cs nd tid tm i W P fuel :
  and_later N -> (sum_list_with pr_calls ps < S N)%nat -> (sum_list_with length (map pr_list ps) < fuel)%nat ->
  and_inv ps cs (Some (nd, tid, tm)) (i :: W) P ->
  produces (S N) P (stage_with cs (Some (nd, tid, tm)) (i :: W)) (and_run fuel (map pr_list ps) (view tm) (i :: W)) AtEOF.
Proof.
  intros Hlater HN Hfuel Hinv. pose proof (ai_children _ _ _ _ _ Hinv) as Hn. pose proof (ai_range _ _ _ _ _ Hinv) as HW. destruct (ai_target _ _ _ _ _ Hinv) as [_ Htm].
  destruct (and_inv_child _ _ _ _ _ i Hinv) as (c & p & Hc & Hp & Hk & He & Hm & Hl); [apply HW; by left|].
  apply produces_S. split; [done|]. intros ws Fs Hok Hs. cbn [work AndSortedStage_stage stage_with]. unfold AndSortedStage_doWork, moveTowardTargetRecordId. cbn.
  rewrite Hc. cbn [mbind option_bind]. pose proof (child_focus _ _ _ _ _ _ Fs Hp (ai_owns _ _ _ _ _ Hinv) Hs) as Hs1. cbn [target_owned app] in Hs1.
  destruct p as [n Pc lc ec]. unfold keeps in Hk. cbn [pr_calls pr_owns pr_list pr_end] in *. subst ec. destruct n as [|n]; [done|].
  apply produces_S in Hk as [_ Hw]. destruct (Hw ws _ Hok Hs1) as (ws' & c' & r & out & Pc' & -> & Hok' & Hr). cbn [mbind option_bind].
  assert (forall t' W' P' fuel', target_ok t' W' -> (forall i, i ∈ W' -> (i < length ps)%nat) -> forall l1, produces n Pc' c' l1 AtEOF -> Forall mergeable l1 ->
    splits P' (target_owned t' ++ map pr_owns (<[i := mkPromise n Pc' l1 AtEOF]> ps)) -> (sum_list_with length (<[i := l1]> (map pr_list ps)) < fuel')%nat ->
    produces N P' (stage_with (<[i := c']> cs) t' W') (and_run fuel' (<[i := l1]> (map pr_list ps)) (target_view t') W') AtEOF) as Hnext.
  { intros. by eapply and_later_step. }
  assert (splits (live ws') (Pc' :: {[tid := tm]} :: map pr_owns (delete i ps) ++ Fs) -> produces n Pc' c' lc AtEOF ->
    exists P', splits (live ws') (P' :: Fs) /\ produces N P' (stage_with (<[i := c']> cs) (Some (nd, tid, tm)) (i :: W)) (and_run fuel (map pr_list ps) (view tm) (i :: W)) AtEOF) as Hwait.
  { intros Hs' Hp'. destruct (child_unfocus _ [] [_] _ i _ (mkPromise n Pc' lc AtEOF) _ Hp Hs') as (P' & HP' & Hs3). exists P'. split; [done|].
    rewrite <- (list_insert_id _ _ _ Hl) at 1. apply (Hnext (Some (nd, tid, tm)) (i :: W)); try done. by rewrite (list_insert_id _ _ _ Hl). }
  destruct r; try (destruct Hr as (id & m & _ & _ & ? & _); done).
  - destruct Hr as (id & m & l' & -> & -> & Hs' & Hp'). apply Forall_cons in Hm as [Hm Hml]. cbn [mbind option_bind].
    destruct (and_move_advanced N ps cs nd tid tm i W P fuel n Pc c' Pc' id m l' ws' Fs) as (ws2 & s2 & r & out & P' & Hta & Hok2 & Hr); try done.
    eexists _, _, _, _, P'. split_and!; [exact Hta|done|]. by destruct r.
  - destruct Hr as (-> & _ & Heof & Hs'). apply splits_swap in Hs'. destruct (free_owned _ _ _ _ Hok' Hs') as (ws2 & -> & Hok2 & Hs2).
    destruct (child_unfocus _ [] [] _ i _ (mkPromise n Pc' [] AtEOF) _ Hp Hs2) as (P' & HP' & Hs3).
    call_returns P'. destruct fuel; [lia|]. cbn [and_run]. by rewrite Hl.
  - destruct Hr as (Hs' & Hp'). destruct (Hwait Hs' Hp') as (P' & HP' & Hp2). by call_returns P'.
  - destruct Hr as (Hs' & Hp'). destruct (Hwait Hs' Hp') as (P' & HP' & Hp2). by call_returns P'.
Qed.

Lemma and_produces N : and_later N.
Proof.
  induction N as [|N IH]; intros ps cs t W P fuel HN Hfuel Hinv; [lia|]. pose proof (ai_target _ _ _ _ _ Hinv) as Ht.
  destruct t as [[[nd tid] tm]|]; [|simpl in Ht; subst W; by apply and_find_target].
  destruct W as [|i W]; [by destruct Ht|]. by apply and_move_target.
Qed.

Lemma and_children_added (l cs : list St) :
  foldl and_addChild (mkAnd l None None 0 [] false) cs = mkAnd (l ++ cs) None None 0 [] false.
Proof. revert l. induction cs as [|c cs IH]; intros l; simpl; [by rewrite app_nil_r|]. etrans; [apply IH|]. by rewrite <- app_assoc. Qed.

(** [C17] The sorted AND of at least two children whose results have record ids in ascending
    order returns exactly the record ids that all children return, in ascending order, and
    ends after at most as many calls as the children need together and one more.  The results
    become the property of the caller, and no member of another owner is touched. *)
Theorem and_sorted_intersects ps cs P :
  Forall2 keeps cs ps -> splits P (map pr_owns ps) -> (2 <= length ps)%nat ->
  Forall (fun p => pr_end p = AtEOF /\ Forall mergeable (pr_list p) /\ ascending (pr_list p)) ps ->
  exists out, produces (S (sum_list_with pr_calls ps)) P (foldl and_addChild AndSortedStage_new cs) out AtEOF /\
    ascending out /\ forall r, r ∈ ids out <-> Forall (fun p => r ∈ ids (pr_list p)) ps.
Proof.
  intros Hk HP Hn Hps. set (fuel := S (sum_list_with length (map pr_list ps))).
  assert (Forall (Forall mergeable) (map pr_list ps) /\ Forall ascending (map pr_list ps)) as [Hm Hasc].
  { split; apply Forall_fmap; eapply Forall_impl; try done; naive_solver. }
  exists (and_run fuel (map pr_list ps) (target_view None) []). split.
  - unfold AndSortedStage_new. rewrite and_children_added. apply (and_produces _ ps cs None []); [lia|lia|]. split; try done.
    + eapply Forall_impl; [done|]. naive_solver.
    + by intros i ?%not_elem_of_nil.
  - destruct (and_run_ids fuel (map pr_list ps) (target_view None) []) as [Ho Hr]; [unfold fuel; lia| |done|done|].
    + unfold and_state. rewrite length_map. split_and!; [done|done|constructor|by intros i ?%not_elem_of_nil|done].
    + split; [done|]. intros r. rewrite Hr. simpl. rewrite Forall_lookup. setoid_rewrite list_lookup_fmap. setoid_rewrite fmap_Some. naive_solver.
Qed.

End stage.

(** When the first child of a sorted AND reports that it is dead, the stage passes the state
    on but not the id of the member with the details; a limit above it then fails its
    assertion that there is one. *)
Theorem and_sorted_drops_dead_details `{PlanStage St} ws ws' (c c' : St) cs id k :
  work ws c = Some (ws', c', DEAD, Some id) -> k <> 0 ->
  work ws (foldl and_addChild AndSortedStage_new (c :: cs)) = Some (ws', mkAnd (c' :: cs) None None 0 [] false, DEAD, None) /\
  work ws (mkLimit k (foldl and_addChild AndSortedStage_new (c :: cs))) = None.
Proof.
  intros Hw Hk. unfold AndSortedStage_new. rewrite and_children_added. simpl app.
  assert (work ws (mkAnd (c :: cs) None None 0 [] false) = Some (ws', mkAnd (c' :: cs) None None 0 [] false, DEAD, None)) as Hand.
  { cbn. unfold AndSortedStage_doWork, getTargetRecordId. cbn. by rewrite Hw. }
  split; [done|]. cbn [work LimitStage_stage]. unfold LimitStage_doWork. cbn [numToReturn limit_child].
  rewrite (proj2 (Z.eqb_neq 0 k)) by lia. by rewrite Hand.
Qed.
