(* ===== verification/MergeSort.v ===== *)
(** * Merging sorted children

    Models [db/exec/merge_sort.h] and [merge_sort.cpp] for the simple collation.  A child is
    known by its number instead of a pointer.  The list of buffered results and the priority
    queue of references into it are one list; of several results that are first in the order
    the top is the one found first, a choice that the standard library leaves open. *)

From Stdlib Require Import ZArith Lia.
From stdpp Require Import prelude gmap.
From S2P Require Import Prelude TotalOrder CompareNumbers Bson ElementOrder WorkingSet WorkingSetSpec PlanStage Stages StagesSpec.

Open Scope Z_scope.

(** ** The comparison *)

(** [number()] is [-1]; it is 0 for an element that is not a number. *)
Definition is_minus_one (e : Element) : bool :=
  match e.2 with
  | vNumber (NumInt z) => i32 z =? -1
  | vNumber (NumLong z) => i64 z =? -1
  | vNumber (NumDouble d) => double_eq d (DFin (-1) 0)
  | _ => false
  end.

(** Whether the first member comes after the second in the order of the pattern. *)
Fixpoint comes_after (pattern : Object) (lhs rhs : WorkingSetMember) : option bool :=
  match pattern with
  | [] => Some false
  | patternElt :: pattern =>
      l ← getFieldDotted lhs patternElt.1;
      lhsElt ← l;
      r ← getFieldDotted rhs patternElt.1;
      rhsElt ← r;
      let x := woCompare false lhsElt rhsElt in
      let x := if is_minus_one patternElt then - x else x in
      if negb (x =? 0) then Some (x >? 0) else comes_after pattern lhs rhs
  end.

(** Take the top off a priority queue that is not empty: [x] is the best so far. *)
Fixpoint pop_top {A} (after : A -> A -> option bool) (x : A) (l : list A) : option (A * list A) :=
  match l with
  | [] => Some (x, [])
  | y :: l =>
      b ← after x y;
      if (b : bool) then '(t, r) ← pop_top after y l; Some (t, x :: r)
      else '(t, r) ← pop_top after x l; Some (t, y :: r)
  end.

(** ** The stage *)

Record StageWithValue := mkValue { sv_id : nat; sv_stage : nat }.

Definition StageWithValueComparison (ws : WorkingSet) (pattern : Object) (lhs rhs : StageWithValue) : option bool :=
  lhsMember ← get ws (sv_id lhs);
  rhsMember ← get ws (sv_id rhs);
  comes_after pattern lhsMember rhsMember.

Section stage.
Context {St : Type} `{!PlanStage St}.

Record MergeSortStage := mkMergeSort {
  ms_children : list St;
  ms_pattern : list (list Z * BSONValue);
  ms_dedup : bool;
  ms_seen : gset Z;
  noResultToMerge : list nat;
  merging : list StageWithValue;
  ms_dupsTested : Z;
  ms_dupsDropped : Z;
}.

Definition MergeSortStage_new (pattern : Object) (dedup : bool) : MergeSortStage := mkMergeSort [] pattern dedup ∅ [] [] 0 0.

Definition ms_addChild (s : MergeSortStage) (c : St) : MergeSortStage :=
  {| s with ms_children := ms_children s ++ [c]; noResultToMerge := noResultToMerge s ++ [length (ms_children s)] |}.

Definition MergeSortStage_isEOF (s : MergeSortStage) : bool :=
  bool_decide (merging s = []) && bool_decide (noResultToMerge s = []).

(** Buffer a result of child [i]. *)
Definition ms_store (ws : WorkingSet) (s : MergeSortStage) (i id : nat) (m : WorkingSetMember) : option (Worked MergeSortStage) :=
  Some (put ws id (makeObjOwnedIfNeeded m),
        {| s with noResultToMerge := tail (noResultToMerge s); merging := mkValue id i :: merging s |}, NEED_TIME, None).

Definition ms_advanced (ws : WorkingSet) (s : MergeSortStage) (i id : nat) : option (Worked MergeSortStage) :=
  m ← get ws id;
  if ms_dedup s && hasRecordId m then
    let s := {| s with ms_dupsTested := ms_dupsTested s + 1 |} in
    if bool_decide (recordId m ∈ ms_seen s) then
      ws ← free ws id;
      Some (ws, {| s with ms_dupsDropped := ms_dupsDropped s + 1 |}, NEED_TIME, None)
    else ms_store ws {| s with ms_seen := {[ recordId m ]} ∪ ms_seen s |} i id m
  else ms_store ws s i id m.

Definition MergeSortStage_doWork (ws : WorkingSet) (s : MergeSortStage) : option (Worked MergeSortStage) :=
  if MergeSortStage_isEOF s then Some (ws, s, IS_EOF, None)
  else
    match noResultToMerge s with
    | i :: queue =>
        c ← ms_children s !! i;
        '(ws, c, code, id) ← work ws c;
        let s := {| s with ms_children := <[i := c]> (ms_children s) |} in
        match code with
        | ADVANCED => id ← id; ms_advanced ws s i id
        | IS_EOF => Some (ws, {| s with noResultToMerge := queue |}, NEED_TIME, None)
        | FAILURE | DEAD => invariant (bool_decide (is_Some id));; Some (ws, s, code, id)
        | NEED_YIELD => Some (ws, s, code, id)
        | NEED_TIME => Some (ws, s, code, None)
        end
    | [] =>
        match merging s with
        | [] => None
        | x :: l =>
            '(top, rest) ← pop_top (StageWithValueComparison ws (ms_pattern s)) x l;
            Some (ws, {| s with merging := rest; noResultToMerge := noResultToMerge s ++ [sv_stage top] |}, ADVANCED, Some (sv_id top))
        end
    end.

#[global] Instance MergeSortStage_stage : PlanStage MergeSortStage := { work := MergeSortStage_doWork; isEOF := MergeSortStage_isEOF }.
End stage.
Arguments MergeSortStage St : clear implicits.
