(* ===== verification/MergeSortSpec.v ===== *)
(** * The merge is sorted and complete

    The stage of [MergeSort] runs an algorithm on the lists of its children's results
    ([merge_run]); that algorithm returns all results, or one for each record id, in the order
    of the pattern. *)

From Stdlib Require Import ZArith Lia Sorted.
From stdpp Require Import prelude gmap.
From S2P Require Import Prelude TotalOrder CompareNumbers Bson ElementOrder WorkingSet WorkingSetSpec PlanStage Stages StagesSpec MergeSort.

Open Scope Z_scope.

(** ** The order of the pattern *)

Definition sort_field (m : WorkingSetMember) (p : Element) : Element :=
  match getFieldDotted m p.1 with Some (Some e) => e | _ => elt_eoo end.

(** The values of the fields of the pattern, compared like objects. *)
Definition sort_cmp (pattern : Object) (a b : WorkingSetMember) : Z :=
  BSONObj_woCompare false (map is_minus_one pattern) (map (sort_field a) pattern) (map (sort_field b) pattern).

(** A member that can give each field of the pattern. *)
Definition sortable (pattern : Object) (m : WorkingSetMember) : Prop :=
  Forall (fun p => exists e, getFieldDotted m p.1 = Some (Some e)) pattern.

Lemma comes_after_cmp pattern a b :
  sortable pattern a -> sortable pattern b -> comes_after pattern a b = Some (sort_cmp pattern a b >? 0).
Proof.
  intros Ha Hb. induction pattern as [|p pattern IH]; [done|].
  apply Forall_cons in Ha as [[x Hx] Ha], Hb as [[y Hy] Hb].
  assert (sort_field a p = x /\ sort_field b p = y) as [Hfa Hfb] by (unfold sort_field; by rewrite Hx, Hy).
  specialize (IH Ha Hb). unfold sort_cmp in *. cbn [map BSONObj_woCompare hd tl comes_after]. rewrite Hx, Hy, Hfa, Hfb, IH. cbn [mbind option_bind].
  by destruct (negb _).
Qed.

Lemma sort_cmp_total pattern : total (sort_cmp pattern).
Proof.
  pose proof (BSONObj_woCompare_total false (map is_minus_one pattern)) as Ht. split.
  - intros a b _ _. by apply Ht.
  - intros a b c _ _ _. by apply Ht.
Qed.

(** The owned copy of a document has the same fields. *)
Lemma getFieldDotted_owned m f : getFieldDotted (makeObjOwnedIfNeeded m) f = getFieldDotted m f.
Proof.
  unfold makeObjOwnedIfNeeded. case_if; [|done]. unfold getFieldDotted, getOwned. simpl. change (hasObj {| m with obj := _ |}) with (hasObj m).
  by destruct (isOwned (value (obj m))).
Qed.

Lemma sort_cmp_ext pattern a a' b b' :
  (forall f, getFieldDotted a f = getFieldDotted a' f) -> (forall f, getFieldDotted b f = getFieldDotted b' f) ->
  sort_cmp pattern a b = sort_cmp pattern a' b'.
Proof.
  intros Ha Hb. unfold sort_cmp. f_equal; apply map_ext; intros p; unfold sort_field; by rewrite ?Ha, ?Hb.
Qed.

(** ** The top of the queue *)

Lemma pop_top_spec {A} (after : A -> A -> option bool) (cmp : A -> A -> Z) x l :
  total cmp -> (forall a b, a ∈ x :: l -> b ∈ x :: l -> after a b = Some (cmp a b >? 0)) ->
  exists t r, pop_top after x l = Some (t, r) /\ t :: r ≡ₚ x :: l /\ forall y, y ∈ x :: l -> cmp t y <= 0.
Proof.
  intros Ht. revert x. induction l as [|y l IH]; intros x Hafter.
  { exists x, []. split_and!; [done|done|]. intros y ->%list_elem_of_singleton. by rewrite (total_refl Ht). }
  simpl. rewrite Hafter by set_solver. cbn [mbind option_bind].
  pose proof (fun a b c => total_trans _ _ Ht a b c I I I) as Htrans. pose proof (total_flip _ _ Ht x y I I) as Hflip.
  destruct (cmp x y >? 0) eqn:Hxy.
  - destruct (IH y) as (t & r & -> & Hperm & Hmin); [intros; apply Hafter; set_solver|]. exists t, (x :: r). cbn [mbind option_bind].
    split_and!; [done|by rewrite Permutation_swap, Hperm|]. intros z [->|Hz]%elem_of_cons; [|by apply Hmin].
    apply (Htrans t y x); [apply Hmin; by left|lia].
  - destruct (IH x) as (t & r & -> & Hperm & Hmin); [intros; apply Hafter; set_solver|]. exists t, (y :: r). cbn [mbind option_bind].
    split_and!; [done|by rewrite Permutation_swap, Hperm, Permutation_swap|]. intros z Hz.
    assert (z = y \/ z ∈ x :: l) as [->|Hz'] by set_solver; [|by apply Hmin]. apply (Htrans t x y); [apply Hmin; by left|lia].
Qed.

(** Renaming the elements of a queue. *)
Lemma pop_top_map {A B} (f : A -> B) after after' x l :
  (forall a b, a ∈ x :: l -> b ∈ x :: l -> after a b = after' (f a) (f b)) ->
  pop_top after' (f x) (map f l) = (fun '(t, r) => (f t, map f r)) <$> pop_top after x l.
Proof.
  revert x. induction l as [|y l IH]; intros x Hafter; [done|]. simpl. rewrite <- Hafter by set_solver.
  destruct (after x y) as [[]|]; cbn [mbind option_bind]; [| |done].
  - rewrite (IH y) by (intros; apply Hafter; set_solver). by destruct (pop_top after y l) as [[]|].
  - rewrite (IH x) by (intros; apply Hafter; set_solver). by destruct (pop_top after x l) as [[]|].
Qed.

(** ** The algorithm on lists *)

Section algorithm.
Variables (pattern : list (list Z * BSONValue)) (dedup : bool).

Definition buffer_after (a b : WorkingSetMember * nat) : option bool := comes_after pattern a.1 b.1.

(** The run of the stage on the results of its children: [Q] are the children without a
    buffered result and [B] are the buffered results with their children. *)
Fixpoint merge_run (fuel : nat) (ls : list (list WorkingSetMember)) (sn : gset Z) (Q : list nat) (B : list (WorkingSetMember * nat)) : list WorkingSetMember :=
  match fuel with
  | O => []
  | S fuel =>
      match Q with
      | i :: Q' =>
          match ls !! i with
          | Some (m :: l) =>
              let ls' := <[i := l]> ls in
              if dedup && hasRecordId m then
                if bool_decide (recordId m ∈ sn) then merge_run fuel ls' sn Q B
                else merge_run fuel ls' ({[ recordId m ]} ∪ sn) Q' ((makeObjOwnedIfNeeded m, i) :: B)
              else merge_run fuel ls' sn Q' ((makeObjOwnedIfNeeded m, i) :: B)
          | _ => merge_run fuel ls sn Q' B
          end
      | [] =>
          match B with
          | [] => []
          | x :: l =>
              match pop_top buffer_after x l with
              | Some (t, r) => t.1 :: merge_run fuel ls sn [t.2] r
              | None => []
              end
          end
      end
  end.

(** The results that are used, when [l] are those of the children in the order in which they come. *)
Definition chosen (sn : gset Z) (l : list WorkingSetMember) : list WorkingSetMember := if dedup then firsts sn l else l.

Definition sorts_before (a b : WorkingSetMember) : Prop := sort_cmp pattern a b <= 0.

Record merge_inv (ls : list (list WorkingSetMember)) (Q : list nat) (B : list (WorkingSetMember * nat)) : Prop := {
  mi_sorted : Forall (StronglySorted sorts_before) ls;
  mi_sortable : Forall (Forall (sortable pattern)) ls;
  mi_buffer : forall b i, (b, i) ∈ B -> sortable pattern b /\ forall l x, ls !! i = Some l -> x ∈ l -> sorts_before b x;
  mi_active : forall i l, ls !! i = Some l -> l <> [] -> i ∈ Q \/ i ∈ B.*2;
}.

Definition merge_measure (ls : list (list WorkingSetMember)) (Q : list nat) (B : list (WorkingSetMember * nat)) : nat :=
  3 * sum_list_with length ls + 2 * length B + length Q.

(** All results are used, and they are in order. *)
Definition merges (ls : list (list WorkingSetMember)) (sn : gset Z) (B : list (WorkingSetMember * nat)) (out : list WorkingSetMember) : Prop :=
  StronglySorted sorts_before out /\
  exists l, l ≡ₚ concat ls /\ out ≡ₚ B.*1 ++ (makeObjOwnedIfNeeded <$> chosen sn l).

Lemma concat_insert {A} (ls : list (list A)) i m l : ls !! i = Some (m :: l) -> m :: concat (<[i := l]> ls) ≡ₚ concat ls.
Proof.
  intros Hi. rewrite <- (take_drop_middle ls i _ Hi) at 2. rewrite insert_take_drop by by eapply lookup_lt_Some.
  rewrite !concat_app. simpl. by rewrite Permutation_middle.
Qed.

Lemma chosen_subset sn l m : m ∈ chosen sn l -> m ∈ l.
Proof. unfold chosen. destruct dedup; [|done]. intros Hm. by eapply sublist_subseteq in Hm; [|apply firsts_sublist]. Qed.

Lemma sorts_before_owned a b : sorts_before a (makeObjOwnedIfNeeded b) <-> sorts_before a b.
Proof. unfold sorts_before. by rewrite (sort_cmp_ext _ a a (makeObjOwnedIfNeeded b) b) by (done || apply getFieldDotted_owned). Qed.

Lemma owned_sorts_before a b : sorts_before (makeObjOwnedIfNeeded a) b <-> sorts_before a b.
Proof. unfold sorts_before. by rewrite (sort_cmp_ext _ (makeObjOwnedIfNeeded a) a b b) by (done || apply getFieldDotted_owned). Qed.

Lemma sortable_owned m : sortable pattern (makeObjOwnedIfNeeded m) <-> sortable pattern m.
Proof. unfold sortable. rewrite !Forall_forall. by setoid_rewrite getFieldDotted_owned. Qed.

(** Taking a result from child [i]. *)
Lemma merge_inv_take ls i m l Q B :
  merge_inv ls (i :: Q) B -> ls !! i = Some (m :: l) ->
  merge_inv (<[i := l]> ls) (i :: Q) B /\ merge_inv (<[i := l]> ls) Q ((makeObjOwnedIfNeeded m, i) :: B).
Proof.
  intros [Hs Hb HB Ha] Hi. pose proof (Forall_lookup_1 _ _ _ _ Hs Hi) as [Hsl Hm]%StronglySorted_inv. rewrite Forall_forall in Hm.
  pose proof (Forall_lookup_1 _ _ _ _ Hb Hi) as [Hbm Hbl]%Forall_cons.
  assert (forall b j, (b, j) ∈ B -> sortable pattern b /\ forall lj x, <[i := l]> ls !! j = Some lj -> x ∈ lj -> sorts_before b x) as HB'.
  { intros b j Hbj. destruct (HB b j Hbj) as [Hsb Hx]. split; [done|]. intros lj x Hlj Hxj.
    apply list_lookup_insert_Some in Hlj as [(<- & <- & _)|[_ Hlj]]; [apply (Hx _ x Hi); by right|by apply (Hx lj)]. }
  split; split; try (by apply Forall_insert); try done.
  - intros j lj Hlj Hne. apply list_lookup_insert_Some in Hlj as [(<- & _ & _)|[_ Hlj]]; [left; by left|by apply (Ha j lj)].
  - intros b j [[= -> ->]|Hbj]%elem_of_cons; [|by apply HB']. split; [by apply sortable_owned|]. intros lj x Hlj Hx. apply owned_sorts_before, Hm.
    apply list_lookup_insert_Some in Hlj as [(_ & <- & _)|[? _]]; done.
  - intros j lj Hlj Hne. rewrite fmap_cons, elem_of_cons. simpl.
    apply list_lookup_insert_Some in Hlj as [(<- & _ & _)|[Hji Hlj]]; [by auto|]. destruct (Ha j lj Hlj Hne) as [[->|?]%elem_of_cons|?]; by auto.
Qed.

(** A child that is at its end leaves the queue. *)
Lemma merge_inv_pop ls i Q B :
  merge_inv ls (i :: Q) B -> (forall m l, ls !! i <> Some (m :: l)) -> merge_inv ls Q B.
Proof.
  intros [Hs Hb HB Ha] Hi. split; try done. intros j lj Hlj Hne. destruct (Ha j lj Hlj Hne) as [[->|?]%elem_of_cons|?]; [|by left|by right].
  destruct lj; [done|by apply Hi in Hlj].
Qed.

(** The smallest buffered result leaves the buffer, its child goes to the queue. *)
Lemma merge_inv_top ls B t r : merge_inv ls [] B -> t :: r ≡ₚ B -> merge_inv ls [t.2] r.
Proof.
  intros [Hs Hb HB Ha] Hperm. split; try done.
  - intros b i Hbi. apply HB. rewrite <- Hperm. by right.
  - intros i l Hl Hne. destruct (Ha i l Hl Hne) as [?%not_elem_of_nil|Hi]; [done|]. rewrite <- Hperm in Hi.
    apply elem_of_cons in Hi as [->|?]; [left; by left|by right].
Qed.

(** The smallest buffered result comes before all that is still to come. *)
Lemma top_before_rest ls sn B t r out :
  merge_inv ls [] B -> t :: r ≡ₚ B -> (forall y, y ∈ B -> sort_cmp pattern t.1 y.1 <= 0) -> merges ls sn r out ->
  Forall (sorts_before t.1) out.
Proof.
  intros [Hs Hb HB Ha] Hperm Hmin (_ & l & Hl & Hout). rewrite Hout, Forall_app, !Forall_forall. split.
  - intros x ([b i] & -> & Hbi)%list_elem_of_fmap. apply (Hmin (b, i)). rewrite <- Hperm. by right.
  - intros x (m & -> & Hm%chosen_subset)%list_elem_of_fmap. apply sorts_before_owned. rewrite Hl in Hm.
    apply list_elem_of_In, List.in_concat in Hm as (lj & [j Hj]%list_elem_of_In%list_elem_of_lookup & Hm%list_elem_of_In).
    destruct (Ha j lj Hj) as [?%not_elem_of_nil|([b i] & -> & Hbj)%list_elem_of_fmap]; [by intros ->; apply not_elem_of_nil in Hm|done|].
    simpl in Hj. apply (total_trans _ _ (sort_cmp_total pattern) t.1 b m I I I); [by apply (Hmin (b, i))|]. by apply (proj2 (HB b i Hbj) lj).
Qed.

Lemma merges_take ls i m l sn B out :
  ls !! i = Some (m :: l) ->
  (dedup && hasRecordId m && bool_decide (recordId m ∈ sn) = true -> merges (<[i := l]> ls) sn B out -> merges ls sn B out) /\
  (dedup && hasRecordId m && bool_decide (recordId m ∈ sn) = false ->
   merges (<[i := l]> ls) (if dedup && hasRecordId m then {[ recordId m ]} ∪ sn else sn) ((makeObjOwnedIfNeeded m, i) :: B) out -> merges ls sn B out).
Proof.
  intros Hi. split.
  - intros Hdup (Hs & I & HI & Hout). split; [done|]. exists (m :: I). split; [rewrite HI; by apply concat_insert|]. rewrite Hout. f_equiv. f_equiv.
    unfold chosen. destruct dedup; [|done]. simpl in *. destruct (hasRecordId m); [|done]. simpl in Hdup. by rewrite Hdup.
  - intros Hdup (Hs & I & HI & Hout). split; [done|]. exists (m :: I). split; [rewrite HI; by apply concat_insert|]. rewrite Hout. simpl.
    assert (chosen sn (m :: I) = m :: chosen (if dedup && hasRecordId m then {[recordId m]} ∪ sn else sn) I) as ->.
    { unfold chosen. destruct dedup; [|done]. simpl in *. destruct (hasRecordId m); [|done]. simpl in Hdup. by rewrite Hdup. }
    rewrite fmap_cons. by rewrite <- Permutation_middle.
Qed.

Lemma merge_run_spec fuel : forall ls sn Q B,
  (merge_measure ls Q B < fuel)%nat -> merge_inv ls Q B -> merges ls sn B (merge_run fuel ls sn Q B).
Proof.
  induction fuel as [|fuel IH]; intros ls sn Q B Hfuel Hinv; [lia|]. unfold merge_measure in *. simpl. destruct Q as [|i Q].
  - destruct B as [|x l].
    { split; [constructor|]. exists []. split; [|unfold chosen; by destruct dedup]. destruct (concat ls) as [|m l0] eqn:Hc; [done|].
      assert (m ∈ concat ls) as Hm by (rewrite Hc; by left).
      apply list_elem_of_In, List.in_concat in Hm as (lj & [j Hj]%list_elem_of_In%list_elem_of_lookup & Hm%list_elem_of_In).
      destruct (mi_active _ _ _ Hinv j lj Hj) as [?%not_elem_of_nil|?%not_elem_of_nil]; [by intros ->; apply not_elem_of_nil in Hm|done..]. }
    destruct (pop_top_spec buffer_after (fun a b => sort_cmp pattern a.1 b.1) x l) as (t & r & -> & Hperm & Hmin).
    + apply (total_map _ fst _ (sort_cmp_total pattern)).
    + intros [a ia] [b ib] Ha Hb. apply comes_after_cmp; by eapply mi_buffer.
    + pose proof (Permutation_length Hperm) as Hlen. simpl in Hlen, Hfuel.
      assert (merges ls sn r (merge_run fuel ls sn [t.2] r)) as Hrest by (apply IH; [simpl; lia|by eapply merge_inv_top]).
      pose proof (top_before_rest ls sn _ t r _ Hinv Hperm Hmin Hrest) as Hbefore.
      destruct Hrest as (Hs & I & HI & Hout). split; [by constructor|]. exists I. split; [done|]. rewrite <- Hperm, Hout. done.
  - assert (forall l', l' = ls !! i -> (forall m l, l' <> Some (m :: l)) -> merges ls sn B (merge_run fuel ls sn Q B)) as Hpop.
    { intros l' -> Hi. apply IH; [simpl in Hfuel; lia|]. by eapply merge_inv_pop. }
    destruct (ls !! i) as [[|m l]|] eqn:Hi; [by apply (Hpop (Some []))| |by apply (Hpop None)].
    destruct (merge_inv_take ls i m l Q B Hinv Hi) as [Hinv1 Hinv2].
    pose proof (sum_insert length ls i (m :: l) l Hi) as Hsum. simpl in Hsum, Hfuel.
    destruct (dedup && hasRecordId m) eqn:Hd; [destruct (bool_decide (recordId m ∈ sn)) eqn:Hsn|].
    + apply (proj1 (merges_take ls i m l sn B _ Hi)); [by rewrite Hd, Hsn|]. apply IH; [simpl; lia|done].
    + apply (proj2 (merges_take ls i m l sn B _ Hi)); [by rewrite Hd, Hsn|]. rewrite Hd. apply IH; [simpl; lia|done].
    + apply (proj2 (merges_take ls i m l sn B _ Hi)); [by rewrite Hd|]. rewrite Hd. apply IH; [simpl; lia|done].
Qed.
End algorithm.

(** ** The stage runs the algorithm *)

Lemma comes_after_view pattern a b : comes_after pattern (view a) (view b) = comes_after pattern a b.
Proof.
  induction pattern as [|p pattern IH]; [done|]. simpl. rewrite IH.
  change (getFieldDotted (view a)) with (getFieldDotted a). by change (getFieldDotted (view b)) with (getFieldDotted b).
Qed.

Section stage.
Context {St : Type} `{!PlanStage St} (pattern : list (list Z * BSONValue)) (dedup : bool).

(** A buffered result: its id, its child and the member. *)
Record slot := mkSlot { slot_id : nat; slot_child : nat; slot_member : WorkingSetMember }.

Definition slot_value (b : slot) : StageWithValue := mkValue (slot_id b) (slot_child b).
Definition slot_owned (b : slot) : heap := {[slot_id b := slot_member b]}.
Definition slot_view (b : slot) : WorkingSetMember * nat := (view (slot_member b), slot_child b).

(** What the stage relies on. *)
Record ms_inv (ps : list promise) (cs : list St) (Q : list nat) (B : list slot) (P : heap) : Prop := {
  si_keeps : forall i, i ∈ Q ++ map slot_child B -> exists c p, cs !! i = Some c /\ ps !! i = Some p /\ keeps c p /\ pr_end p = AtEOF;
  si_once : NoDup (Q ++ map slot_child B);
  si_sortable : Forall (Forall (sortable pattern)) (map pr_list ps);
  si_buffer : Forall (fun b => sortable pattern (slot_member b)) B;
  si_owns : splits P (map slot_owned B ++ map pr_owns ps);
}.

(** Later calls do as the algorithm says. *)
Definition ms_later (N : nat) : Prop := forall ps cs sn Q B P fuel t d,
  (2 * sum_list_with pr_calls ps + length B < N)%nat -> (merge_measure (map pr_list ps) Q (map slot_view B) < fuel)%nat -> ms_inv ps cs Q B P ->
  produces N P (mkMergeSort cs pattern dedup sn Q (map slot_value B) t d)
    (merge_run pattern dedup fuel (map pr_list ps) sn Q (map slot_view B)) AtEOF.

Lemma slot_get ws P Fs B Os b :
  splits P (map slot_owned B ++ Os) -> splits (live ws) (P :: Fs) -> b ∈ B -> get ws (slot_id b) = Some (slot_member b).
Proof.
  intros HP Hs Hb. pose proof (splits_expand _ _ _ _ HP Hs) as Hx. apply elem_of_Permutation in Hb as [B' HB].
  rewrite HB in Hx. exact (get_owned ws (slot_id b) (slot_member b) _ Hx).
Qed.

(** A call that takes the top of the queue. *)
Lemma ms_take_top N ps cs sn x B P fuel t d :
  ms_later N -> (2 * sum_list_with pr_calls ps + length (x :: B) < S N)%nat ->
  (merge_measure (map pr_list ps) [] (map slot_view (x :: B)) < fuel)%nat -> ms_inv ps cs [] (x :: B) P ->
  produces (S N) P (mkMergeSort cs pattern dedup sn [] (map slot_value (x :: B)) t d)
    (merge_run pattern dedup fuel (map pr_list ps) sn [] (map slot_view (x :: B))) AtEOF.
Proof.
  intros Hlater HN Hfuel [Hk Hnd Hso Hb HP]. apply produces_S. split; [done|]. intros ws Fs Hok Hs. destruct fuel as [|fuel]; [lia|].
  set (after := fun a b => comes_after pattern (slot_member a) (slot_member b)). rewrite Forall_forall in Hb.
  destruct (pop_top_spec after (fun a b => sort_cmp pattern (slot_member a) (slot_member b)) x B) as (top & r & Hpop & Hperm & _).
  { apply (total_map _ slot_member _ (sort_cmp_total pattern)). }
  { intros a b Ha Hb'. apply comes_after_cmp; by apply Hb. }
  cbn [work MergeSortStage_stage]. unfold MergeSortStage_doWork, MergeSortStage_isEOF. cbn [merging noResultToMerge map ms_pattern].
  rewrite bool_decide_eq_false_2 by done. cbn [andb]. rewrite (pop_top_map slot_value after), Hpop.
  2: { intros a b Ha Hb'. unfold StageWithValueComparison, slot_value. cbn [sv_id]. by rewrite (slot_get _ _ _ _ _ _ HP Hs Ha), (slot_get _ _ _ _ _ _ HP Hs Hb'). }
  cbn [fmap option_fmap option_map mbind option_bind merge_run map]. rewrite (pop_top_map slot_view after), Hpop.
  2: { intros a b _ _. unfold buffer_after. simpl. by rewrite comes_after_view. }
  cbn [fmap option_fmap option_map]. rewrite <- Hperm in HP, Hnd. setoid_rewrite <- Hperm in Hk. pose proof (Permutation_length Hperm) as Hlen.
  cbn [map app] in HP. destruct (splits_defocus (live ws) [slot_owned top] ∅ [] (map slot_owned r ++ map pr_owns ps) Fs) as (P' & HP' & Hs').
  { apply splits_swap, splits_empty. exact (splits_expand _ _ _ _ HP Hs). }
  call_returns P'. eexists _, (slot_member top), _. split_and!; [done|done|exact Hs'|]. unfold merge_measure in *. rewrite !length_map in *. simpl in Hlen, HN, Hfuel.
  apply (Hlater ps cs sn [slot_child top] r P' fuel t d); [lia|unfold merge_measure; rewrite length_map; simpl; lia|]. split.
  - done.
  - done.
  - done.
  - apply Forall_forall. intros b Hbr. apply Hb. rewrite <- Hperm. by right.
  - simpl in HP'. by apply splits_empty in HP'.
Qed.

(** A child has handed out a result: it is dropped or buffered. *)
Lemma ms_advanced_spec ws (cs : list St) sn i Q vs t d id m R :
  ws_ok ws -> splits (live ws) ({[id := m]} :: R) ->
  exists ws' t' d', ws_ok ws' /\
    if dedup && hasRecordId m && bool_decide (recordId m ∈ sn) then
      ms_advanced ws (mkMergeSort cs pattern dedup sn (i :: Q) vs t d) i id =
        Some (ws', mkMergeSort cs pattern dedup sn (i :: Q) vs t' d', NEED_TIME, None) /\ splits (live ws') R
    else
      ms_advanced ws (mkMergeSort cs pattern dedup sn (i :: Q) vs t d) i id =
        Some (ws', mkMergeSort cs pattern dedup (if dedup && hasRecordId m then {[ recordId m ]} ∪ sn else sn) Q (mkValue id i :: vs) t' d', NEED_TIME, None) /\
      splits (live ws') ({[id := makeObjOwnedIfNeeded m]} :: R).
Proof.
  intros Hok Hs. unfold ms_advanced. rewrite (get_owned _ _ _ _ Hs). cbn [mbind option_bind ms_dedup ms_seen].
  destruct (put_owned _ _ _ (makeObjOwnedIfNeeded m) _ Hok Hs) as [Hok2 Hs2].
  destruct (dedup && hasRecordId m); cbn [andb]; [destruct (bool_decide _)|].
  - destruct (free_owned _ _ _ _ Hok Hs) as (ws1 & -> & Hok1 & Hs1). by eexists ws1, _, _.
  - by eexists _, _, _.
  - by eexists _, _, _.
Qed.

Lemma ms_inv_step ps cs i Q B P p c' p' Q' B' P' :
  ms_inv ps cs (i :: Q) B P -> ps !! i = Some p -> Forall (sortable pattern) (pr_list p') ->
  (forall j, j ∈ Q' ++ map slot_child B' -> j ∈ (i :: Q) ++ map slot_child B /\ (j = i -> keeps c' p' /\ pr_end p' = AtEOF)) ->
  NoDup (Q' ++ map slot_child B') -> Forall (fun b => sortable pattern (slot_member b)) B' ->
  splits P' (map slot_owned B' ++ map pr_owns (<[i := p']> ps)) ->
  ms_inv (<[i := p']> ps) (<[i := c']> cs) Q' B' P'.
Proof.
  intros [Hk Hnd Hso Hb HP] Hi Hso' Hk' Hnd' Hb' HP'. split; try done.
  - intros j [Hj Hji]%Hk'. destruct (Hk j Hj) as (c & q & Hc & Hq & Hcq & He). destruct (decide (j = i)) as [->|Hne].
    + destruct (Hji eq_refl) as [??]. exists c', p'. split_and!; [|apply list_lookup_insert_eq; by eapply lookup_lt_Some|done|done].
      apply list_lookup_insert_eq. by eapply lookup_lt_Some.
    + exists c, q. by rewrite !list_lookup_insert_ne.
  - rewrite list_fmap_insert. by apply Forall_insert.
Qed.

(** Later calls, after a call of child [i]. *)
Lemma ms_later_step N ps cs i Q B P n Pc lc c' n' P1 l1 Q' B' P' sn fuel t d :
  let p' := mkPromise n' P1 l1 AtEOF in
  ms_later N -> ms_inv ps cs (i :: Q) B P -> ps !! i = Some (mkPromise (S n) Pc lc AtEOF) ->
  (2 * sum_list_with pr_calls ps + length B < S N)%nat -> (length B' <= S (length B))%nat ->
  (n' <= n)%nat ->
  (merge_measure (<[i := l1]> (map pr_list ps)) Q' (map slot_view B') < fuel)%nat ->
  ms_inv (<[i := p']> ps) (<[i := c']> cs) Q' B' P' ->
  produces N P' (mkMergeSort (<[i := c']> cs) pattern dedup sn Q' (map slot_value B') t d)
    (merge_run pattern dedup fuel (<[i := l1]> (map pr_list ps)) sn Q' (map slot_view B')) AtEOF.
Proof.
  intros p' Hlater Hinv Hi HN HB Hn Hfuel Hinv'. pose proof (sum_insert pr_calls ps i _ p' Hi) as Hsum. cbn [pr_calls p'] in Hsum.
  assert (<[i := l1]> (map pr_list ps) = map pr_list (<[i := p']> ps)) as Heq by (symmetry; apply (list_fmap_insert pr_list)).
  rewrite Heq in Hfuel |- *. apply Hlater; [lia|done|done].
Qed.

Lemma ms_child_advanced N ps cs sn i Q B P fuel t d n Pc c' Pc' id m l' ws Fs :
  ms_later N -> (2 * sum_list_with pr_calls ps + length B < S N)%nat ->
  (merge_measure (map pr_list ps) (i :: Q) (map slot_view B) < fuel)%nat -> ms_inv ps cs (i :: Q) B P ->
  ps !! i = Some (mkPromise (S n) Pc (view m :: l') AtEOF) -> produces n Pc' c' l' AtEOF ->
  ws_ok ws -> splits (live ws) ({[id := m]} :: Pc' :: map slot_owned B ++ map pr_owns (delete i ps) ++ Fs) ->
  exists ws' s' P',
    ms_advanced ws (mkMergeSort (<[i := c']> cs) pattern dedup sn (i :: Q) (map slot_value B) t d) i id = Some (ws', s', NEED_TIME, None) /\ ws_ok ws' /\
    splits (live ws') (P' :: Fs) /\ produces N P' s' (merge_run pattern dedup fuel (map pr_list ps) sn (i :: Q) (map slot_view B)) AtEOF.
Proof.
  intros Hlater HN Hfuel Hinv Hp Hp' Hok Hs. pose proof Hinv as [Hk Hnd Hso Hb HP].
  assert (map pr_list ps !! i = Some (view m :: l')) as Hl by by rewrite list_lookup_fmap, Hp.
  pose proof (Forall_lookup_1 _ _ _ _ Hso Hl) as [Hsm Hsl]%Forall_cons. destruct fuel as [|fuel]; [lia|].
  pose proof (sum_insert length _ i _ l' Hl) as Hsum. simpl in Hsum. unfold merge_measure in Hfuel. rewrite length_map in Hfuel. simpl in Hfuel.
  cbn [merge_run]. rewrite Hl. change (hasRecordId (view m)) with (hasRecordId m). change (recordId (view m)) with (recordId m). rewrite view_owned.
  destruct (ms_advanced_spec ws (<[i := c']> cs) sn i Q (map slot_value B) t d id m _ Hok Hs) as (ws' & t' & d' & Hok' & Hr).
  assert (forall sn', splits (live ws') ({[id := makeObjOwnedIfNeeded m]} :: Pc' :: map slot_owned B ++ map pr_owns (delete i ps) ++ Fs) ->
    exists P', splits (live ws') (P' :: Fs) /\ produces N P' (mkMergeSort (<[i := c']> cs) pattern dedup sn' Q (mkValue id i :: map slot_value B) t' d')
      (merge_run pattern dedup fuel (<[i := l']> (map pr_list ps)) sn' Q ((view (makeObjOwnedIfNeeded m), i) :: map slot_view B)) AtEOF) as Hpush.
  { intros sn' Hs2. set (b := mkSlot id i (makeObjOwnedIfNeeded m)). apply splits_swap in Hs2.
    destruct (child_unfocus _ [] (map slot_owned (b :: B)) _ i _ (mkPromise n Pc' l' AtEOF) _ Hp Hs2) as (P' & HP' & Hs3). exists P'. split; [done|].
    eapply (ms_later_step N ps cs i Q B P n Pc _ c' n Pc' l' Q (b :: B)); try done; [unfold merge_measure; rewrite length_map; simpl; lia|].
    eapply ms_inv_step; try done; [|by simpl; rewrite <- Permutation_middle|constructor; [by apply sortable_owned|done]].
    intros j Hj. split; [|done]. simpl in Hj. by rewrite <- Permutation_middle in Hj. }
  destruct (dedup && hasRecordId m); cbn [andb] in Hr; [destruct (bool_decide (recordId m ∈ sn))|]; destruct Hr as [Hr Hs2].
  - destruct (child_unfocus _ [] _ _ i _ (mkPromise n Pc' l' AtEOF) _ Hp Hs2) as (P' & HP' & Hs3). eexists ws', _, P'. split_and!; [exact Hr|done|done|].
    eapply (ms_later_step N ps cs i Q B P n Pc _ c' n Pc' l'); try done; [lia|unfold merge_measure; rewrite length_map; simpl; lia|]. by eapply ms_inv_step.
  - destruct (Hpush ({[recordId m]} ∪ sn) Hs2) as (P' & Hs3 & Hp2). by eexists ws', _, P'.
  - destruct (Hpush sn Hs2) as (P' & Hs3 & Hp2). by eexists ws', _, P'.
Qed.

(** A call that works the first child of the queue. *)
Lemma ms_work_child N ps cs sn i Q B P fuel t d :
  ms_later N -> (2 * sum_list_with pr_calls ps + length B < S N)%nat ->
  (merge_measure (map pr_list ps) (i :: Q) (map slot_view B) < fuel)%nat -> ms_inv ps cs (i :: Q) B P ->
  produces (S N) P (mkMergeSort cs pattern dedup sn (i :: Q) (map slot_value B) t d)
    (merge_run pattern dedup fuel (map pr_list ps) sn (i :: Q) (map slot_view B)) AtEOF.
Proof.
  intros Hlater HN Hfuel Hinv. pose proof Hinv as [Hk Hnd Hso Hb HP]. destruct (Hk i) as (c & p & Hc & Hp & Hkp & He); [by left|].
  apply produces_S. split; [by cbn; unfold MergeSortStage_isEOF; cbn; rewrite andb_false_r|]. intros ws Fs Hok Hs.
  cbn [work MergeSortStage_stage]. unfold MergeSortStage_doWork, MergeSortStage_isEOF. cbn [merging noResultToMerge ms_children].
  rewrite (bool_decide_eq_false_2 (i :: Q = [])), andb_false_r by done. rewrite Hc. cbn [mbind option_bind].
  pose proof (child_focus _ _ _ _ _ _ Fs Hp HP Hs) as Hs1. assert (map pr_list ps !! i = Some (pr_list p)) as Hl by by rewrite list_lookup_fmap, Hp.
  pose proof (Forall_lookup_1 _ _ _ _ Hso Hl) as Hsl. destruct p as [n Pc lc ec]. unfold keeps in Hkp. cbn [pr_calls pr_owns pr_list pr_end] in *.
  subst ec. destruct n as [|n]; [done|]. apply produces_S in Hkp as [_ Hw].
  destruct (Hw ws _ Hok Hs1) as (ws' & c' & r & out & Pc' & -> & Hok' & Hr). cbn [mbind option_bind].
  assert (splits (live ws') (Pc' :: map slot_owned B ++ map pr_owns (delete i ps) ++ Fs) -> produces n Pc' c' lc AtEOF ->
    exists P', splits (live ws') (P' :: Fs) /\ produces N P' (mkMergeSort (<[i := c']> cs) pattern dedup sn (i :: Q) (map slot_value B) t d)
      (merge_run pattern dedup fuel (map pr_list ps) sn (i :: Q) (map slot_view B)) AtEOF) as Hwait.
  { intros Hs' Hp'. destruct (child_unfocus _ [] _ _ i _ (mkPromise n Pc' lc AtEOF) _ Hp Hs') as (P' & HP' & Hs3). exists P'. split; [done|].
    rewrite <- (list_insert_id _ _ _ Hl) at 1. eapply (ms_later_step N ps cs i Q B P n Pc lc c' n Pc'); try done; [lia|by rewrite list_insert_id|].
    by eapply ms_inv_step. }
  destruct r; try (destruct Hr as (id & m & _ & _ & ? & _); done).
  - destruct Hr as (id & m & l' & -> & -> & Hs' & Hp'). cbn [mbind option_bind].
    destruct (ms_child_advanced N ps cs sn i Q B P fuel t d n Pc c' Pc' id m l' ws' Fs) as (ws2 & s2 & P' & Hadv & Hok2 & Hs2 & Hp2); try done.
    eexists _, _, _, _, P'. split_and!; [exact Hadv|done|]. by split.
  - destruct Hr as (-> & _ & _ & Hs'). destruct (child_unfocus _ [] _ _ i _ (mkPromise 0 Pc' [] AtEOF) _ Hp Hs') as (P' & HP' & Hs3).
    call_returns P'. split; [done|]. destruct fuel as [|fuel]; [lia|]. cbn [merge_run]. rewrite Hl. rewrite <- (list_insert_id _ _ _ Hl).
    unfold merge_measure in Hfuel. simpl in Hfuel. eapply (ms_later_step N ps cs i Q B P n Pc [] c' 0 Pc'); try done; [lia|lia|rewrite list_insert_id by done; unfold merge_measure; lia|].
    apply NoDup_cons in Hnd as [Hni Hnd]. eapply ms_inv_step; try done. intros j Hj. split; [by right|]. intros ->. done.
  - destruct Hr as (Hs' & Hp'). destruct (Hwait Hs' Hp') as (P' & HP' & Hp2). by call_returns P'.
  - destruct Hr as (Hs' & Hp'). destruct (Hwait Hs' Hp') as (P' & HP' & Hp2). by call_returns P'.
Qed.

Lemma ms_produces N : ms_later N.
Proof.
  induction N as [|N IH]; intros ps cs sn Q B P fuel t d HN Hfuel Hinv; [lia|].
  destruct Q as [|i Q]; [destruct B as [|x B]; [|by apply ms_take_top]|by apply ms_work_child].
  apply produces_S. destruct fuel as [|fuel]; [lia|]. split; [done|]. intros ws Fs Hok Hs. call_returns P. done.
Qed.

Lemma ms_children_queued (cs : list St) :
  foldl ms_addChild (MergeSortStage_new pattern dedup) cs = mkMergeSort cs pattern dedup ∅ (seq 0 (length cs)) [] 0 0.
Proof.
  assert (forall l, foldl ms_addChild (mkMergeSort l pattern dedup ∅ (seq 0 (length l)) [] 0 0) cs =
    mkMergeSort (l ++ cs) pattern dedup ∅ (seq 0 (length (l ++ cs))) [] 0 0) as Hfold; [|apply (Hfold [])].
  induction cs as [|c cs IH]; intros l; simpl; [by rewrite app_nil_r|]. rewrite (cons_middle c l cs), app_assoc.
  etrans; [|apply (IH (l ++ [c]))]. f_equal. unfold ms_addChild. cbn. by rewrite length_app, Nat.add_comm, seq_S.
Qed.

(** [C18] Merging children whose results are in the order of the sort pattern returns their
    results in that order, and ends.  Without deduplication every result is returned; with it,
    every record id is returned once.  The documents of the results are owned copies, which
    survive a yield. *)
Theorem merge_sort_merges ps cs P :
  Forall2 keeps cs ps -> splits P (map pr_owns ps) ->
  Forall (fun p => pr_end p = AtEOF /\ Forall (sortable pattern) (pr_list p) /\ StronglySorted (sorts_before pattern) (pr_list p)) ps ->
  exists out, produces (S (2 * sum_list_with pr_calls ps)) P (foldl ms_addChild (MergeSortStage_new pattern dedup) cs) out AtEOF /\
    StronglySorted (sorts_before pattern) out /\
    let all := concat (map pr_list ps) in
    if dedup then
      Forall (fun m => hasRecordId m = true) all ->
      NoDup (recordId <$> out) /\ (forall r, r ∈ recordId <$> out <-> r ∈ recordId <$> all) /\ out ⊆ makeObjOwnedIfNeeded <$> all
    else out ≡ₚ makeObjOwnedIfNeeded <$> all.
Proof.
  intros Hk HP Hps. set (fuel := S (merge_measure (map pr_list ps) (seq 0 (length cs)) [])).
  assert (Forall (Forall (sortable pattern)) (map pr_list ps) /\ Forall (StronglySorted (sorts_before pattern)) (map pr_list ps)) as [Hsortable Hsorted].
  { split; apply Forall_fmap; eapply Forall_impl; try done; naive_solver. }
  set (out := merge_run pattern dedup fuel (map pr_list ps) ∅ (seq 0 (length cs)) []).
  assert (merges pattern dedup (map pr_list ps) ∅ [] out) as (Hout & l & Hl & Hperm).
  { apply merge_run_spec; [unfold fuel; lia|]. split; [done|done|by intros ?? ?%not_elem_of_nil|]. intros i li [p [_ Hp]]%list_lookup_fmap_Some _. left.
    apply elem_of_seq. rewrite (Forall2_length _ _ _ Hk). apply lookup_lt_Some in Hp. lia. }
  exists out. split_and!; [|done|].
  - rewrite ms_children_queued. apply (ms_produces _ ps cs ∅ (seq 0 (length cs)) [] P); [simpl; lia|unfold fuel; simpl; lia|].
    split; try done; [|rewrite app_nil_r; apply NoDup_seq]. rewrite app_nil_r. intros i [_ [c Hc]%lookup_lt_is_Some]%elem_of_seq.
    destruct (Forall2_lookup_l _ _ _ _ _ Hk Hc) as (p & Hp & Hcp). exists c, p. split_and!; try done. apply (Forall_lookup_1 _ _ _ _ Hps Hp).
  - clearbody out. cbv zeta. simpl in Hperm. unfold chosen in Hperm. destruct dedup; [|by rewrite Hperm, Hl].
    intros Hrid. destruct (firsts_ids ∅ l) as [Hnd Hin]; [by rewrite Hl|].
    assert (recordId <$> (makeObjOwnedIfNeeded <$> firsts ∅ l) = recordId <$> firsts ∅ l) as Hids.
    { rewrite <- list_fmap_compose. apply list_fmap_ext. intros _ m _. apply recordId_owned. }
    split_and!.
    + by rewrite Hperm, Hids.
    + intros r. rewrite Hperm, Hids, Hin, Hl. set_solver.
    + intros m Hm. rewrite Hperm in Hm. apply list_elem_of_fmap in Hm as (x & -> & Hx). apply list_elem_of_fmap_2. rewrite <- Hl.
      by eapply sublist_subseteq in Hx; [|apply firsts_sublist].
Qed.
End stage.
