(* ===== verification/IndexPlan.v ===== *)
(** * Index scans in query plans

    The index scan of [IndexScan] as a stage that fills members of the working set
    ([IndexScan::doWork] of [index_scan.cpp]), and the plan of an indexed query: a page of the
    documents that an index scan finds. *)

From Stdlib Require Import ZArith Lia.
From stdpp Require Import prelude gmap.
From S2P Require Import Prelude TotalOrder CompareNumbers Bson ElementOrder Interval IndexBounds IndexBoundsChecker BoundsCheckerSpec IndexEntryComparison IndexEntryOrder SortedDataInterface IndexScan IndexScanSpec WorkingSet WorkingSetSpec PlanStage Stages StagesSpec.

Open Scope Z_scope.

(** The fields of a key with the names of the pattern. *)
Fixpoint rehydrateKey (pattern key : Object) : option Object :=
  match pattern, key with
  | [], [] => Some []
  | p :: pattern, k :: key => o ← rehydrateKey pattern key; Some ((p.1, k.2) :: o)
  | _, _ => None
  end.

Section stage.
Context {D C : Type} (params : IndexScanParams (list Z * BSONValue)) {SD : SortedDataInterface (keyPattern params) D C}.
Variables (filter : option (list (list Z * BSONValue) -> bool)) (addKeyMetadata : bool) (iam : nat).

(** The scan and the index that it reads. *)
Record IndexScanStage := mkIndexScanStage { ix_data : D; ix_scan : IndexScan (list Z * BSONValue) C }.

(** Fill out a member of the working set. *)
Definition fill_member (ws : WorkingSet) (loc : Z) (key : Object) : option (WorkingSet * nat) :=
  '(ws, id) ← allocate ws;
  m ← get ws id;
  let ws := put ws id {| m with recordId := loc; keyData := keyData m ++ [mkIndexKeyDatum (keyPattern params) key iam] |} in
  ws ← transitionToRecordIdAndIdx ws id;
  ws ← if addKeyMetadata then
         m ← get ws id;
         k ← rehydrateKey (keyPattern params) key;
         m ← addComputed m (IndexKeyComputedData (mkBuffer k true));
         Some (put ws id m)
       else Some ws;
  Some (ws, id).

Definition IndexScanStage_doWork (ws : WorkingSet) (s : IndexScanStage) : option (Worked IndexScanStage) :=
  '(sc, r) ← doWork params filter (ix_data s) (ix_scan s);
  let s := {| s with ix_scan := sc |} in
  match r with
  | IndexScan.ADVANCED (loc, key) =>
      '(ws, id) ← fill_member ws loc key;
      Some (ws, s, ADVANCED, Some id)
  | IndexScan.NEED_TIME => Some (ws, s, NEED_TIME, None)
  | IndexScan.IS_EOF => Some (ws, s, IS_EOF, None)
  end.

#[global] Instance IndexScanStage_stage : PlanStage IndexScanStage := {
  work := IndexScanStage_doWork;
  isEOF s := commonIsEOF (ix_scan s);
}.

(** ** The results of a scan *)

(** The member for an entry. *)
Definition ix_member (e : Z * list (list Z * BSONValue)) : WorkingSetMember :=
  mkMember RID_AND_IDX e.1 Snapshotted_new [mkIndexKeyDatum (keyPattern params) e.2 iam] false
    (if addKeyMetadata then
       [None; None; Some (IndexKeyComputedData (mkBuffer (zip_with (fun p k => (p.1, k.2)) (keyPattern params) e.2) true)); None; None]
     else no_computed).

Lemma rehydrateKey_spec pattern key :
  length key = length pattern -> rehydrateKey pattern key = Some (zip_with (fun p k => (p.1, k.2)) pattern key).
Proof. revert key. induction pattern as [|p pattern IH]; intros [|k key] Hl; try done. simpl. rewrite IH by by injection Hl. done. Qed.

Lemma fill_member_spec ws loc key Fs :
  ws_ok ws -> splits (live ws) Fs -> length key = length (keyPattern params) ->
  exists ws' id m, fill_member ws loc key = Some (ws', id) /\ ws_ok ws' /\ view m = ix_member (loc, key) /\ splits (live ws') ({[id := m]} :: Fs).
Proof.
  intros Hok Hs Hlen. unfold fill_member. destruct (allocate_owned ws Fs Hok Hs) as (ws1 & id & m & -> & Hok1 & (Hm1 & Hm2 & Hm3 & Hm4) & Hs1).
  cbn [mbind option_bind]. rewrite (get_owned _ _ _ _ Hs1). cbn [mbind option_bind].
  set (m1 := {| m with recordId := loc; keyData := keyData m ++ [mkIndexKeyDatum (keyPattern params) key iam] |}).
  destruct (put_owned _ _ _ m1 _ Hok1 Hs1) as [Hok2 Hs2]. destruct (toIdx_owned _ _ _ _ Hok2 Hs2) as (ws3 & -> & Hok3 & Hs3). cbn [mbind option_bind].
  destruct addKeyMetadata eqn:Ha.
  - rewrite (get_owned _ _ _ _ Hs3). cbn [mbind option_bind]. rewrite rehydrateKey_spec by done. cbn [mbind option_bind].
    unfold addComputed, hasComputed, getComputed. cbn [computed m1]. rewrite Hm4. cbn.
    eexists _, id, _. split_and!; [done|by eapply put_owned| |by eapply put_owned]. unfold view, ix_member. cbn. by rewrite Ha, Hm2, Hm3.
  - cbn [mbind option_bind]. eexists _, id, _. split_and!; [done|done| |done]. unfold view, ix_member. cbn. by rewrite Ha, Hm2, Hm3, Hm4.
Qed.

(** The flag of the end is set when the scan has hit its end. *)
Definition eof_flag (s : IndexScan (list Z * BSONValue) C) : Prop := commonIsEOF s = true <-> scanState s = HIT_END.

Lemma fetch_eof t s s' kv :
  IndexScan.fetch params t s = Some (s', kv) -> commonIsEOF s' = commonIsEOF s /\ scanState s' = scanState s.
Proof.
  unfold IndexScan.fetch, initIndexScan. intros H.
  repeat match type of H with
  | (match ?x with _ => _ end) = Some _ => let E := fresh "E" in destruct x eqn:E
  | (let '(_, _) := ?x in _) = Some _ => destruct x
  | _ ≫= _ = Some _ => inv_bind H
  | Some _ = Some _ => injection H as <- _
  end; done.
Qed.

Lemma emit_eof (s : IndexScan (list Z * BSONValue) C) kv : scanState (emit params filter s kv).1 = GETTING_NEXT /\ commonIsEOF (emit params filter s kv).1 = commonIsEOF s /\ (emit params filter s kv).2 <> IndexScan.IS_EOF.
Proof. unfold emit. by repeat case_match. Qed.

Lemma examine_eof (s : IndexScan (list Z * BSONValue) C) kv s' r :
  examine params filter s kv = Some (s', r) -> commonIsEOF s = false -> eof_flag s' /\ (r = IndexScan.IS_EOF -> commonIsEOF s' = true).
Proof.
  unfold examine, eof_flag. intros H He.
  assert (forall s1, commonIsEOF s1 = false -> Some (emit params filter s1 kv) = Some (s', r) -> eof_flag s' /\ (r = IndexScan.IS_EOF -> commonIsEOF s' = true)) as Hemit.
  { intros s1 He1 [= Hem]. destruct (emit_eof s1 kv) as (H1 & H2 & H3). rewrite Hem in *. simpl in *. unfold eof_flag. rewrite H1, H2, He1. done. }
  cbn [checker seek_point] in H. destruct (checker s) as [ck|]; [|by (eapply Hemit; [|exact H])].
  inv_bind H. destruct x as [[ck' sp] st]. destruct st; [by (eapply Hemit; [|exact H])|by injection H as <- <-; cbn; rewrite He|by injection H as <- <-].
Qed.

Lemma doWork_eof t s s' r :
  doWork params filter t s = Some (s', r) -> eof_flag s -> eof_flag s' /\ (r = IndexScan.IS_EOF -> commonIsEOF s' = true).
Proof.
  intros H Hs. assert (scanState s = HIT_END \/ scanState s <> HIT_END) as [Hst|Hst] by (destruct (scanState s); naive_solver).
  { unfold doWork in H. rewrite Hst in H. injection H as <- <-. split; [done|]. intros _. by apply Hs. }
  assert (commonIsEOF s = false) as He by (destruct (commonIsEOF s) eqn:E; [by apply Hs in E|done]).
  assert (('(s, kv) ← IndexScan.fetch params t s; match kv with None => Some (hit_end s, IndexScan.IS_EOF) | Some kv => examine params filter s kv end) = Some (s', r)) as H'.
  { unfold doWork in H. by destruct (scanState s). }
  inv_bind H'. destruct x as [s1 kv]. destruct (fetch_eof _ _ _ _ Hx) as [He1 _]. rewrite He in He1. destruct kv as [kv|]; [by eapply examine_eof|].
  by injection H' as <- <-.
Qed.

(** ** The contract *)

Section contract.
Variable t : D.
Hypothesis Hok : data_ok (keyPattern params) (sd_unique t) (sd_entries t).
Hypothesis Hparams : params_ok params.

Abbreviation scan := (scan_list (is_forward params) (sd_entries t)) (only parsing).

Lemma index_scan_produces n : forall s p,
  at_position params t s p -> eof_flag s -> (length (List.filter (remains params (sd_unique t) p) scan) < n)%nat ->
  produces n ∅ (mkIndexScanStage t s) (ix_member <$> outputs params filter (returned s) (todo params t p)) AtEOF.
Proof.
  induction n as [|n IH]; intros s p Hat Hf Hn; [lia|].
  destruct (doWork_worked params filter t Hok Hparams s p Hat) as (s' & o & p' & Hw & Hat' & Hsub & Hres).
  destruct (doWork_eof t s s' o Hw Hf) as [Hf' Heof]. apply produces_S. split.
  { cbn. intros He%Hf. unfold doWork in Hw. rewrite He in Hw. injection Hw as <- <-. destruct Hres as [_ ->]. done. }
  intros ws Fs Hws Hs. cbn [work IndexScanStage_stage]. unfold IndexScanStage_doWork. cbn [ix_data ix_scan]. rewrite Hw. cbn [mbind option_bind].
  assert (o <> IndexScan.IS_EOF -> produces n ∅ (mkIndexScanStage t s') (ix_member <$> outputs params filter (returned s') (todo params t p')) AtEOF) as Hnext.
  { intros Ho. assert (exists e, e ∈ scan /\ remains params (sd_unique t) p e = true /\ remains params (sd_unique t) p' e = false) as (e & He & Hp & Hp') by (destruct o; naive_solver).
    pose proof (remains_shrinks params t Hok Hparams p p' e Hsub He Hp Hp'). apply IH; [done|done|lia]. }
  destruct o as [[loc key]| |].
  - destruct Hres as (e & Hes & _ & _ & [[? _]|(-> & Hem & Htodo & _)]); [done|].
    assert (length key = length (keyPattern params)) as Hlen.
    { pose proof (scan_stored params t Hok e Hes) as [Hl _]. unfold emit_result in Hem. destruct (_ && _); [done|]. destruct (IndexScanSpec.passes _ _); naive_solver. }
    destruct (fill_member_spec ws loc key _ Hws Hs Hlen) as (ws' & id & m & -> & Hws' & Hm & Hs'). cbn [mbind option_bind].
    call_returns (∅ : heap). eexists id, m, _. split_and!; [done| |done|by apply Hnext].
    rewrite Htodo, (outputs_emit params filter), <- Hem. cbn [fst snd]. by rewrite fmap_cons, Hm.
  - call_returns (∅ : heap). split; [done|]. destruct Hres as (e & _ & _ & _ & [(_ & Hr & ->)|(-> & Hem & -> & _)]); [rewrite <- Hr; by apply Hnext|].
    rewrite (outputs_emit params filter), <- Hem. by apply Hnext.
  - destruct Hres as [_ ->]. call_returns (∅ : heap). split_and!; try done. by apply Heof.
Qed.

Lemma index_scan_results :
  produces (S (length (sd_entries t))) ∅ (mkIndexScanStage t (IndexScan_new params))
    (ix_member <$> outputs params filter ∅ (List.filter (wanted params) scan)) AtEOF.
Proof.
  rewrite <- (todo_start params t). apply (index_scan_produces _ (IndexScan_new params) AtStart); [done|done|].
  rewrite bfilter_all by done. unfold scan_list. destruct (is_forward params); [lia|]. rewrite List.length_rev. lia.
Qed.

(** ** The plan of an indexed query *)

Lemma outputs_entries sn l x : x ∈ outputs params filter sn l -> exists e, e ∈ l /\ x = (loc e, ikey e).
Proof.
  revert sn. induction l as [|e l IH]; intros sn; cbn [outputs]; [by intros ?%not_elem_of_nil|].
  assert (forall sn, x ∈ outputs params filter sn l -> exists e', e' ∈ e :: l /\ x = (loc e', ikey e')) as Hl.
  { intros sn' (e' & He & Hx)%IH. exists e'. split; [by right|done]. }
  repeat case_match; try apply Hl; (intros [->|Hx]%elem_of_cons; [exists e; split; [by left|done]|by eapply Hl]).
Qed.

Section find.
Context `{!SeekableRecordCursor Cur} (snapshot : Z) (getKeys : nat -> Object -> list Object) (docFilter : option MatchExpression).

#[local] Instance find_fetch : PlanStage (FetchStage IndexScanStage Cur) := FetchStage_stage snapshot getKeys docFilter.

(** Skip [j] and return at most [k] of the documents that the scan finds and the filter accepts. *)
Definition find_plan (k j : Z) (c : Cur) : LimitStage (SkipStage (FetchStage IndexScanStage Cur)) :=
  mkLimit k (mkSkip j (mkFetch None c (mkIndexScanStage t (IndexScan_new params)))).

(** The stored documents have the keys under which the index has them. *)
Definition index_agrees : Prop := forall e doc,
  e ∈ sd_entries t -> stored_record (loc e) = Some doc -> existsb (same_object (ikey e)) (getKeys iam (contents doc)) = true.

Lemma index_agrees_fetchable :
  index_agrees -> Forall (fetchable getKeys) (ix_member <$> outputs params filter ∅ (List.filter (wanted params) scan)).
Proof.
  intros Hag. apply Forall_fmap, Forall_forall. intros x (e & He & ->)%outputs_entries. right. split_and!; [done|done|].
  apply list_elem_of_In, List.filter_In in He as [He%list_elem_of_In _]. intros doc Hdoc. cbn in Hdoc |- *. rewrite andb_true_r. apply (Hag e doc); [|done].
  unfold scan_list in He. destruct (is_forward params); [done|]. by apply list_elem_of_In, in_rev, list_elem_of_In in He.
Qed.

(** [C7] The plan of an indexed query, LIMIT over SKIP over FETCH over IXSCAN, returns when it is
    called until its end a page of exactly the documents that are stored for the entries
    within the bounds, in the order of the index, without duplicates and without those that
    a filter rejects, whatever write conflicts the fetches meet.  It takes at most one call
    for each entry of the index and each conflict and one more, and it leaves the members of
    other owners in the working set as they are. *)
Theorem indexed_find_page k j c ws :
  0 <= k -> index_agrees -> ws_ok ws ->
  let documents := omap (fetched snapshot) (ix_member <$> outputs params filter ∅ (List.filter (wanted params) scan)) in
  let accepted := List.filter (fun m => passes m docFilter) documents in
  exists ws', drain (S (length (sd_entries t)) + conflicts_left c) ws (find_plan k j c) =
      Some (ws', take (Z.to_nat k) (drop (Z.to_nat j) accepted), AtEOF) /\ ws_ok ws' /\ live ws ⊆ live ws'.
Proof.
  intros Hk Hag Hws documents accepted.
  pose proof (fetch_produces (St := IndexScanStage) snapshot getKeys docFilter (S (length (sd_entries t)) + conflicts_left c) AtEOF (S (length (sd_entries t))) ∅ ∅ c _ None _
    ltac:(simpl; lia) index_scan_results (index_agrees_fetchable Hag) (splits_one ∅)) as Hfetch. cbn [fmap option_fmap option_map retry_first] in Hfetch.
  assert (splits (live ws) (∅ :: [live ws])) as Hs by (apply splits_empty, splits_one).
  destruct (produces_drain _ _ _ _ _ _ _ (limit_produces _ k _ _ _ _ Hk (skip_produces _ j _ _ _ _ Hfetch)) Hws Hs) as (ws' & P' & Hd & Hws' & Hs').
  exists ws'. split_and!; [|done|].
  - etrans; [exact Hd|]. unfold limit_ending. by case_if.
  - apply splits_swap in Hs' as (F & _ & -> & _). apply map_union_subseteq_l.
Qed.
End find.
End contract.
End stage.
