(* ===== verification/StageExamples.v ===== *)
(** * The stages on concrete inputs

    Working sets, queues and an index small enough to evaluate, on which the theorems about
    the working set and the stages are applied. *)

From Stdlib Require Import ZArith Lia Sorted.
From stdpp Require Import prelude gmap.
From S2P Require Import Prelude TotalOrder CompareNumbers Bson ElementOrder WorkingSet WorkingSetSpec PlanStage Stages StagesSpec AndSorted AndSortedSpec MergeSort MergeSortSpec.

Open Scope Z_scope.

Definition field_a : list Z := [97].
Definition int_elt (name : list Z) (z : int32) : Element := (name, vNumber (NumInt z)).
Definition i1 : int32 := mkInt32 1 eq_refl.
Definition i2 : int32 := mkInt32 2 eq_refl.
Definition i3 : int32 := mkInt32 3 eq_refl.
Definition minus1 : int32 := mkInt32 (-1) eq_refl.

(** A member with a document that has the field a. *)
Definition doc_member (rid : Z) (a : int32) : WorkingSetMember :=
  mkMember RID_AND_OBJ rid (mkSnapshotted 7 (mkBuffer [int_elt field_a a] false)) [] false no_computed.

(** A member with a key of an index on a. *)
Definition key_member (rid : Z) (a : int32) : WorkingSetMember :=
  mkMember RID_AND_IDX rid Snapshotted_new [mkIndexKeyDatum [int_elt field_a i1] [int_elt [] a] 0] false no_computed.

(** ** The working set *)

Definition example_ops : list WsOp :=
  [OpAllocate; OpAllocate; OpEdit 0 (fun _ => key_member 4 i1); OpToIdx 0; OpEdit 1 (fun _ => key_member 5 i2); OpToIdx 1; OpFree 1;
   OpPrepare; OpAllocate; OpEdit 1 (fun _ => key_member 6 i3); OpToIdx 1; OpAllocate].

(** Members 0 and 1 have index data, 1 in a slot that has been freed before, and 2 is new. *)
Definition example_ws : WorkingSet :=
  mkWorkingSet
    [mkHolder (Some 0%nat) {| (key_member 4 i1) with isSuspicious := true |}; mkHolder (Some 1%nat) (key_member 6 i3);
     mkHolder (Some 2%nat) WorkingSetMember_new] None [1%nat].

Lemma example_ops_run : run_ops WorkingSet_new example_ops = Some example_ws.
Proof. vm_compute. reflexivity. Qed.

Lemma example_ws_ok : ws_ok example_ws.
Proof. exact (proj1 (run_ops_inv _ _ _ new_inv example_ops_run)). Qed.

Lemma WorkingSet_refines_map_witness :
  get example_ws 1 = Some (key_member 6 i3) /\ get example_ws 3 = None /\
  exists ws', free example_ws 1 = Some ws' /\ live ws' = delete 1%nat (live example_ws).
Proof.
  destruct (WorkingSet_refines_map example_ws example_ws_ok) as (Hg & _ & Hf & _).
  split_and!; [rewrite Hg; vm_compute; reflexivity|rewrite Hg; vm_compute; reflexivity|].
  specialize (Hf 1%nat). destruct (decide _) as [_|Hn]; [|destruct Hn; vm_compute; by eexists].
  destruct Hf as (ws' & Hf & _ & Hl). by exists ws'.
Defined.

Lemma snapshot_change_marks_index_members_witness :
  exists ws', prepareForSnapshotChange example_ws = Some ws' /\ (isSuspicious <$> live ws' !! 1%nat) = Some true /\ (isSuspicious <$> live ws' !! 2%nat) = Some false.
Proof.
  destruct (snapshot_change_marks_index_members example_ops example_ws example_ops_run) as (ws' & Hp & _ & Hl).
  exists ws'. rewrite Hl. split_and!; [done|vm_compute; reflexivity|vm_compute; reflexivity].
Defined.

Lemma status_member_roundtrip_witness :
  exists ws' id m, allocateStatusMember example_ws queued_failure = Some (ws', id) /\ getMemberStatus m = Some queued_failure /\ live ws' !! id = Some m.
Proof.
  destruct (status_member_roundtrip example_ws queued_failure example_ws_ok) as (ws' & id & m & Ha & _ & _ & Hl & _ & Hm).
  exists ws', id, m. rewrite Hl, lookup_insert_eq. done.
Defined.

(** ** Queues as children *)

Definition heap_of (l : list nat) (ms : list WorkingSetMember) : heap := list_to_map (zip l ms).

Lemma splits_heap_of l ms :
  NoDup l -> length l = length ms -> splits (heap_of l ms) (zip_with (fun i m => {[i := m]}) l ms).
Proof.
  intros Hnd. revert ms. induction Hnd as [|i l Hi Hnd IH]; intros [|m ms] Hlen; try done. exists (heap_of l ms). simpl.
  assert (heap_of l ms !! i = None) as Hn.
  { apply not_elem_of_list_to_map_1. intros Hin. apply Hi. clear -Hin. revert ms Hin. induction l as [|j l IH]; intros [|m ms] Hin; simpl in *; set_solver. }
  split_and!; [by apply map_disjoint_singleton_l|by rewrite <- insert_union_singleton_l|apply IH; by injection Hlen].
Qed.

(** Two queues with results of their own. *)
Lemma two_queues r1 l1 m1 r2 l2 m2 :
  NoDup (l1 ++ l2) -> length l1 = length m1 -> length l2 = length m2 -> queue_ok r1 (length m1) -> queue_ok r2 (length m2) ->
  exists P P1 P2, splits P [P1; P2] /\
    Forall2 keeps [mkQueued r1 l1; mkQueued r2 l2]
      [mkPromise (S (length r1)) P1 (queue_output r1 m1).1 (queue_output r1 m1).2; mkPromise (S (length r2)) P2 (queue_output r2 m2).1 (queue_output r2 m2).2].
Proof.
  intros Hnd H1 H2 Hq1 Hq2. pose proof (splits_heap_of (l1 ++ l2) (m1 ++ m2) Hnd ltac:(rewrite !length_app; lia)) as Hs.
  rewrite zip_with_app in Hs by done. apply splits_collapse in Hs as (P1 & HP1 & Hs). rewrite Permutation_cons_append in Hs.
  apply splits_collapse in Hs as (P2 & HP2 & Hs). apply splits_swap in Hs. exists (heap_of (l1 ++ l2) (m1 ++ m2)), P1, P2. split; [done|].
  constructor; [by apply queued_produces|]. constructor; [by apply queued_produces|constructor].
Qed.

(** ** Applying the theorems *)

Lemma or_stage_unions_witness :
  exists n P, produces n P (or_addChildren (OrStage_new true None) [mkQueued [ADVANCED; NEED_TIME; ADVANCED] [0; 1]; mkQueued [ADVANCED; FAILURE] [2]]%nat)
    [doc_member 1 i1; doc_member 2 i2] (Failed FAILURE (buildMemberStatusObject queued_failure)).
Proof.
  destruct (two_queues [ADVANCED; NEED_TIME; ADVANCED] [0; 1]%nat [doc_member 1 i1; doc_member 2 i2] [ADVANCED; FAILURE] [2]%nat [doc_member 1 i3])
    as (P & P1 & P2 & HP & Hk); [vm_compute; repeat constructor; set_solver|done..|].
  eexists _, P. exact (proj1 (or_stage_unions _ _ P true None Hk HP)).
Defined.

Lemma example_queue_produces :
  produces 4 (heap_of [0; 1; 2]%nat [doc_member 1 i1; doc_member 2 i2; doc_member 3 i3]) (mkQueued [ADVANCED; ADVANCED; ADVANCED] [0; 1; 2]%nat)
    [doc_member 1 i1; doc_member 2 i2; doc_member 3 i3] AtEOF.
Proof.
  apply (queued_produces [ADVANCED; ADVANCED; ADVANCED] [0; 1; 2]%nat [doc_member 1 i1; doc_member 2 i2; doc_member 3 i3]); [done|done|].
  apply splits_heap_of; [vm_compute; repeat constructor; set_solver|done].
Qed.

Lemma skip_limit_pages_witness :
  exists n P, produces n P (mkLimit 1 (mkSkip 1 (mkQueued [ADVANCED; ADVANCED; ADVANCED] [0; 1; 2]%nat))) [doc_member 2 i2] AtEOF.
Proof. eexists _, _. refine (skip_limit_pages _ 1 1 _ _ _ _ _ example_queue_produces). lia. Defined.

Lemma and_sorted_drops_dead_details_witness :
  work WorkingSet_new (mkLimit 5 (foldl and_addChild AndSortedStage_new [mkQueued [DEAD] []; mkQueued [] []])) = None.
Proof.
  refine (proj2 (and_sorted_drops_dead_details WorkingSet_new _ (mkQueued [DEAD] []) _ [mkQueued [] []] _ 5 _ _)); [vm_compute; reflexivity|lia].
Defined.

Lemma and_sorted_intersects_witness :
  exists n P out, produces n P (foldl and_addChild AndSortedStage_new [mkQueued [ADVANCED; ADVANCED; ADVANCED] [0; 1; 2]; mkQueued [ADVANCED; ADVANCED] [3; 4]]%nat) out AtEOF /\
    3 ∈ ids out /\ ~ 5 ∈ ids out.
Proof.
  destruct (two_queues [ADVANCED; ADVANCED; ADVANCED] [0; 1; 2]%nat [key_member 1 i1; key_member 3 i2; key_member 5 i3] [ADVANCED; ADVANCED] [3; 4]%nat [doc_member 3 i2; doc_member 4 i3])
    as (P & P1 & P2 & HP & Hk); [vm_compute; repeat constructor; set_solver|done..|].
  destruct (and_sorted_intersects _ _ P Hk HP) as (out & Hout & _ & Hids).
  - simpl. lia.
  - constructor; [|constructor; [|constructor]]; (split_and!; [done| |repeat constructor; simpl; lia]);
      repeat constructor; intros [|[|[|[|[|i]]]]] d Hd; discriminate Hd.
  - eexists _, P, out. split_and!; [exact Hout| |].
    + apply Hids. repeat constructor; vm_compute; set_solver.
    + rewrite Hids. intros [_ [H5 _]%Forall_cons]%Forall_cons. vm_compute in H5. set_solver.
Defined.

(** Sorted by a in descending order. *)
Definition example_pattern : Object := [int_elt field_a minus1].

Lemma merge_sort_merges_witness :
  exists n P out, produces n P (foldl ms_addChild (MergeSortStage_new example_pattern true) [mkQueued [ADVANCED; ADVANCED] [0; 1]; mkQueued [ADVANCED] [2]]%nat) out AtEOF /\
    NoDup (recordId <$> out) /\ 9 ∈ recordId <$> out.
Proof.
  destruct (two_queues [ADVANCED; ADVANCED] [0; 1]%nat [key_member 9 i3; key_member 4 i1] [ADVANCED] [2]%nat [doc_member 9 i2])
    as (P & P1 & P2 & HP & Hk); [vm_compute; repeat constructor; set_solver|done..|].
  destruct (merge_sort_merges example_pattern true _ _ P Hk HP) as (out & Hout & _ & Hids).
  - constructor; [|constructor; [|constructor]]; (split_and!; [done| |]).
    1,3: repeat constructor; eexists; vm_compute; reflexivity.
    + repeat constructor; vm_compute; discriminate.
    + repeat constructor; vm_compute; discriminate.
  - destruct Hids as (Hnd & Hin & _); [by repeat constructor|]. eexists _, P, out. split_and!; [exact Hout|exact Hnd|]. apply Hin. vm_compute. set_solver.
Defined.

Lemma mergeFrom_leaves_document_unowned_witness :
  exists m, merge_member (key_member 3 i1) (doc_member 3 i1) = Some m /\ hasOwnedObj m = false.
Proof.
  destruct (mergeFrom_leaves_document_unowned (key_member 3 i1) (doc_member 3 i1)) as (m & Hm & _ & _ & Ho).
  - split; [reflexivity|]. intros [|[|[|[|[|i]]]]] d Hd; discriminate Hd.
  - split; [reflexivity|]. intros [|[|[|[|[|i]]]]] d Hd; discriminate Hd.
  - reflexivity.
  - reflexivity.
  - reflexivity.
  - reflexivity.
  - by exists m.
Defined.

(** ** Fetching *)

(** The documents of the records 1 and 2. *)
Definition example_records (r : Z) : option Buffer :=
  if r =? 1 then Some (mkBuffer [int_elt field_a i1] false) else if r =? 2 then Some (mkBuffer [int_elt field_a i2] false) else None.

(** A cursor that meets a number of write conflicts first. *)
#[local, refine] Instance example_cursor : SeekableRecordCursor nat := {
  seekExact c r :=
    match c with
    | S c => (c, WriteConflict)
    | O => (O, match example_records r with Some d => Found d | None => NotFound end)
    end;
  stored_record := example_records;
  conflicts_left c := c;
}.
Proof. intros [|c] r; [|simpl; lia]. simpl. by destruct (example_records r). Defined.

(** The keys of a document: its values. *)
Definition example_getKeys (_ : nat) (o : Object) : list Object := [map (fun e => ([], e.2)) o].

Lemma fetch_stage_documents_witness :
  exists n P, @produces _ (FetchStage_stage 7 example_getKeys None) n P (mkFetch None 2%nat (mkQueued [ADVANCED; ADVANCED] [0; 1]%nat)) [doc_member 2 i2] AtEOF.
Proof.
  eexists _, _. refine (fetch_stage_documents 7 example_getKeys None _ _ 2%nat _ [key_member 8 i1; key_member 2 i2] _ _ _).
  - apply (queued_produces [ADVANCED; ADVANCED] [0; 1]%nat [key_member 8 i1; key_member 2 i2]); [done|done|].
    apply splits_heap_of; [vm_compute; repeat constructor; set_solver|done].
  - constructor; [|constructor; [|constructor]]; right; (split_and!; [done|done|]); intros doc Hdoc; vm_compute in Hdoc; try discriminate Hdoc.
    injection Hdoc as <-. vm_compute. reflexivity.
Defined.
