(* ===== verification/PlanExamples.v ===== *)
(** * An indexed query on a concrete index

    The plan of [IndexPlan] over the index of the examples of [EphemeralScan]. *)

From Stdlib Require Import ZArith Lia.
From stdpp Require Import prelude gmap.
From S2P Require Import Prelude TotalOrder CompareNumbers Bson ElementOrder Interval IndexBounds IndexBoundsChecker IndexEntryComparison IndexEntryOrder SortedDataInterface IndexScan IndexScanSpec EphemeralBtree EphemeralCursor EphemeralCursorSpec EphemeralBtreeSpec UnitOfWork EphemeralScan WorkingSet WorkingSetSpec PlanStage Stages StagesSpec IndexPlan.

Open Scope Z_scope.

(** The documents behind the entries of the index; that of record 9 is gone. *)
Definition plan_records (r : Z) : option Buffer :=
  if r =? 9 then None
  else
    e ← List.find (fun e => loc e =? r) (EphemeralBtree.data demo_index);
    Some (mkBuffer (zip_with (fun p k => (p.1, k.2)) demo_pattern (ikey e)) false).

(** A cursor that meets a number of write conflicts first. *)
#[local, refine] Instance plan_cursor : SeekableRecordCursor nat := {
  seekExact c r :=
    match c with
    | S c => (c, WriteConflict)
    | O => (O, match plan_records r with Some d => Found d | None => NotFound end)
    end;
  stored_record := plan_records;
  conflicts_left c := c;
}.
Proof. intros [|c] r; [|simpl; lia]. simpl. by destruct (plan_records r). Defined.

Definition plan_getKeys (_ : nat) (o : Object) : list Object := [map (fun e => ([], e.2)) o].

Lemma indexed_find_page_witness :
  let SD := EphemeralForTest_SortedData demo_order demo_pattern demo_orders in
  exists ws' out,
    @drain _ (@LimitStage_stage _ (@SkipStage_stage _ (@find_fetch _ _ demo_params SD None false 0 _ plan_cursor 7 plan_getKeys None))) 9 WorkingSet_new
      (find_plan demo_params demo_index 2 1 3%nat) = Some (ws', out, AtEOF) /\ recordId <$> out = [5; 2].
Proof.
  intros SD.
  destruct (indexed_find_page (SD := SD) demo_params None false 0 demo_index demo_index_ok demo_params_ok 7 plan_getKeys None 2 1 3%nat WorkingSet_new)
    as (ws' & Hd & _).
  - lia.
  - intros e doc He Hdoc. change (sd_entries demo_index) with (EphemeralBtree.data demo_index) in He.
    repeat (apply elem_of_cons in He as [->|He]; [vm_compute in Hdoc; try discriminate Hdoc; injection Hdoc as <-; vm_compute; reflexivity|]).
    by apply not_elem_of_nil in He.
  - apply new_ok.
  - eexists ws', _. split; [exact Hd|]. vm_compute. reflexivity.
Defined.
