(* ===== verification/LockDefs.v ===== *)
(** * Lock modes, resource ids and lock requests

    Models [db/concurrency/lock_manager_defs.h] and the anonymous-namespace helpers
    and the [ResourceId] and [LockRequest] members of
    [db/concurrency/lock_manager.cpp]: the lock-mode compatibility table with its
    bit masks, the 64-bit resource ids, and the request record every other file of
    the lock manager works on. *)

From Stdlib Require Import ZArith Lia.
From stdpp Require Import prelude gmap functions finite.
From S2P Require Import Prelude.

Open Scope Z_scope.

(** ** Lock modes *)

Inductive LockMode := MODE_NONE | MODE_IS | MODE_IX | MODE_S | MODE_X.

#[export] Instance LockMode_eq_dec : EqDecision LockMode.
Proof. solve_decision. Defined.

#[export] Instance LockMode_finite : Finite LockMode.
Proof.
  refine {| enum := [MODE_NONE; MODE_IS; MODE_IX; MODE_S; MODE_X] |}.
  - by apply (bool_decide_unpack _).
  - intros []; set_solver.
Defined.

(** The enumerator's value, used as a shift count and as an array index. *)
Definition mode_index (m : LockMode) : Z :=
  match m with
  | MODE_NONE => 0
  | MODE_IS => 1
  | MODE_IX => 2
  | MODE_S => 3
  | MODE_X => 4
  end.

(** The modes a loop [for (i = 1; i < LockModesCount; i++)] visits. *)
Definition real_modes : list LockMode := [MODE_IS; MODE_IX; MODE_S; MODE_X].

Definition modeMask (m : LockMode) : Z := Z.shiftl 1 (mode_index m).

Definition LockConflictsTable (m : LockMode) : Z :=
  match m with
  | MODE_NONE => 0
  | MODE_IS => modeMask MODE_X
  | MODE_IX => Z.lor (modeMask MODE_S) (modeMask MODE_X)
  | MODE_S => Z.lor (modeMask MODE_IX) (modeMask MODE_X)
  | MODE_X =>
      Z.lor (Z.lor (Z.lor (modeMask MODE_S) (modeMask MODE_X)) (modeMask MODE_IS))
        (modeMask MODE_IX)
  end.

Definition intentModes : Z := Z.lor (modeMask MODE_IS) (modeMask MODE_IX).

Definition conflicts (newMode : LockMode) (existingModesMask : Z) : bool :=
  negb (Z.land (LockConflictsTable newMode) existingModesMask =? 0).

Definition isModeCovered (mode coveringMode : LockMode) : bool :=
  Z.lor (LockConflictsTable coveringMode) (LockConflictsTable mode)
    =? LockConflictsTable coveringMode.

Definition isSharedLockMode (mode : LockMode) : bool :=
  bool_decide (mode = MODE_IS) || bool_decide (mode = MODE_S).

Inductive LockResult :=
  LOCK_OK | LOCK_WAITING | LOCK_TIMEOUT | LOCK_DEADLOCK | LOCK_INVALID.

#[export] Instance LockResult_eq_dec : EqDecision LockResult.
Proof. solve_decision. Defined.

(** ** Resource ids *)

Inductive ResourceType :=
  | RESOURCE_INVALID | RESOURCE_GLOBAL | RESOURCE_DATABASE | RESOURCE_COLLECTION
  | RESOURCE_METADATA | RESOURCE_MUTEX.

#[export] Instance ResourceType_eq_dec : EqDecision ResourceType.
Proof. solve_decision. Defined.

Definition type_index (t : ResourceType) : Z :=
  match t with
  | RESOURCE_INVALID => 0
  | RESOURCE_GLOBAL => 1
  | RESOURCE_DATABASE => 2
  | RESOURCE_COLLECTION => 3
  | RESOURCE_METADATA => 4
  | RESOURCE_MUTEX => 5
  end.

(** [static_cast<ResourceType>] of a value: the two bit patterns that name no
    enumerator have no constructor. *)
Definition type_of_index (i : Z) : option ResourceType :=
  match i with
  | 0 => Some RESOURCE_INVALID
  | 1 => Some RESOURCE_GLOBAL
  | 2 => Some RESOURCE_DATABASE
  | 3 => Some RESOURCE_COLLECTION
  | 4 => Some RESOURCE_METADATA
  | 5 => Some RESOURCE_MUTEX
  | _ => None
  end.

Definition resourceTypeBits : Z := 3.
Definition uint64_max : Z := 2 ^ 64 - 1.

(** A [ResourceId] is its 64-bit [_fullHash]; the default constructor gives 0. *)
Abbreviation ResourceId := Z (only parsing).
Definition ResourceId_default : ResourceId := 0.

Definition hash_mask : Z := Z.shiftr uint64_max resourceTypeBits.

(** The sum is a [uint64_t] sum, so it is taken modulo 2^64. *)
Definition fullHash (type : ResourceType) (hashId : Z) : ResourceId :=
  (Z.shiftl (type_index type) (64 - resourceTypeBits) + Z.land hashId hash_mask) mod 2 ^ 64.

Definition getType (r : ResourceId) : option ResourceType :=
  type_of_index (Z.shiftr r (64 - resourceTypeBits)).

Definition getHashId (r : ResourceId) : Z := Z.land r hash_mask.

Definition isValid (r : ResourceId) : bool :=
  bool_decide (getType r <> Some RESOURCE_INVALID).

(** ** Lock requests

    A [LockRequest*] is a [ReqPtr]; the objects live in a heap
    [gmap ReqPtr LockRequest].  A [LockHead*] is named by the resource it is the
    lock head of, a [PartitionedLockHead*] by its partition and its resource.  The
    intrusive [prev]/[next] fields are the subject of [RequestList.v]. *)

Abbreviation ReqPtr := positive (only parsing).
Abbreviation LockerId := Z (only parsing).
Abbreviation PartitionId := Z (only parsing).
Abbreviation NotifyPtr := positive (only parsing).

Inductive Status :=
  STATUS_NEW | STATUS_GRANTED | STATUS_WAITING | STATUS_CONVERTING.

#[export] Instance Status_eq_dec : EqDecision Status.
Proof. solve_decision. Defined.

Record LockRequest := mkLockRequest {
  rq_locker : LockerId;
  rq_notify : NotifyPtr;
  rq_enqueueAtFront : bool;
  rq_compatibleFirst : bool;
  rq_partitioned : bool;
  rq_recursiveCount : nat;
  rq_lock : option ResourceId;
  rq_partitionedLock : option (PartitionId * ResourceId);
  rq_status : Status;
  rq_mode : LockMode;
  rq_convertMode : LockMode;
}.

Abbreviation requests := (gmap positive LockRequest) (only parsing).

(** [LockRequest::initNew]; [unlockPending] belongs to the locker's side and is
    left as it was. *)
Definition initNew (locker : LockerId) (notify : NotifyPtr) : LockRequest := {|
  rq_locker := locker;
  rq_notify := notify;
  rq_enqueueAtFront := false;
  rq_compatibleFirst := false;
  rq_partitioned := false;
  rq_recursiveCount := 1;
  rq_lock := None;
  rq_partitionedLock := None;
  rq_status := STATUS_NEW;
  rq_mode := MODE_NONE;
  rq_convertMode := MODE_NONE;
|}.

(** ** Facts about the conflict table *)

(** Two modes conflict when one is in the other's row of the table. *)
Definition mode_conflict (m1 m2 : LockMode) : bool := conflicts m1 (modeMask m2).

Lemma mode_conflict_sym m1 m2 : mode_conflict m1 m2 = mode_conflict m2 m1.
Proof. by destruct m1, m2. Qed.

Lemma LockConflictsTable_testbit m i :
  0 <= i ->
  Z.testbit (LockConflictsTable m) i = true <->
  exists m', i = mode_index m' /\ mode_conflict m m' = true.
Proof.
  intros Hi. split.
  - intros Hb. assert (i < 5) as Hlt.
    { destruct (Z.lt_ge_cases i 5) as [|Hge]; [done|exfalso].
      rewrite Z.bits_above_log2 in Hb; [done|by destruct m|].
      apply Z.lt_le_trans with 5; [by destruct m|done]. }
    assert (i = 0 \/ i = 1 \/ i = 2 \/ i = 3 \/ i = 4) as Hc by lia.
    destruct Hc as [-> | [-> | [-> | [-> | ->]]]];
      [exists MODE_NONE|exists MODE_IS|exists MODE_IX|exists MODE_S|exists MODE_X];
      by destruct m.
  - intros (m' & -> & Hm). by destruct m, m'.
Qed.

(** A mode conflicts with a mask exactly when it conflicts with a mode in it. *)
Lemma conflicts_spec m mask :
  conflicts m mask = true <->
  exists m', Z.testbit mask (mode_index m') = true /\ mode_conflict m m' = true.
Proof.
  unfold conflicts. rewrite negb_true_iff, Z.eqb_neq. split.
  - intros Hnz. destruct (decide (exists m', Z.testbit mask (mode_index m') = true
      /\ mode_conflict m m' = true)) as [|Hno]; [done|].
    exfalso. apply Hnz. apply Z.bits_inj'. intros i Hi.
    rewrite Z.land_spec, Z.bits_0.
    destruct (Z.testbit (LockConflictsTable m) i) eqn:Hb; [|done].
    apply LockConflictsTable_testbit in Hb as (m' & -> & Hm); [|done].
    destruct (Z.testbit mask (mode_index m')) eqn:Ht; [|done]. exfalso; eauto.
  - intros (m' & Ht & Hm) Hz.
    assert (0 <= mode_index m') as Hi by by destruct m'.
    assert (Z.testbit (Z.land (LockConflictsTable m) mask) (mode_index m') = true) as Hb.
    { rewrite Z.land_spec, Ht, andb_true_r. apply LockConflictsTable_testbit; eauto. }
    by rewrite Hz, Z.bits_0 in Hb.
Qed.

Lemma conflicts_false m mask :
  conflicts m mask = false <->
  forall m', Z.testbit mask (mode_index m') = true -> mode_conflict m m' = false.
Proof.
  rewrite <- not_true_iff_false, conflicts_spec. split.
  - intros Hno m' Ht. apply not_true_iff_false. eauto.
  - intros Hall (m' & Ht & Hm). rewrite Hall in Hm; done.
Qed.

Lemma isModeCovered_spec m c :
  isModeCovered m c = true <->
  forall x, mode_conflict m x = true -> mode_conflict c x = true.
Proof.
  split.
  - destruct m, c; intros H []; done.
  - intros H. pose proof (H MODE_IS); pose proof (H MODE_IX); pose proof (H MODE_S);
      pose proof (H MODE_X). clear H. destruct m, c; naive_solver.
Qed.

Lemma isModeCovered_refl m : isModeCovered m m = true.
Proof. by destruct m. Qed.

Lemma isModeCovered_trans a b c :
  isModeCovered a b = true -> isModeCovered b c = true -> isModeCovered a c = true.
Proof. rewrite !isModeCovered_spec. eauto. Qed.

(** ** Facts about resource ids *)

Lemma hash_mask_ones : hash_mask = Z.ones 61.
Proof. reflexivity. Qed.

Lemma fullHash_value t h : fullHash t h = type_index t * 2 ^ 61 + h mod 2 ^ 61.
Proof.
  unfold fullHash. rewrite hash_mask_ones, Z.land_ones by lia.
  rewrite Z.shiftl_mul_pow2 by (unfold resourceTypeBits; lia).
  change (64 - resourceTypeBits) with 61.
  pose proof (Z.mod_pos_bound h (2 ^ 61)).
  apply Z.mod_small. destruct t; simpl type_index; lia.
Qed.

(** ** Properties *)

(** The compatibility matrix in the comment of [lock_manager_defs.h] is what the
    bit masks of [LockConflictsTable] compute: a request conflicts with a granted
    mode exactly in the cells the matrix leaves blank. *)
Theorem conflict_matrix requested granted :
  conflicts requested (modeMask granted) =
    match requested, granted with
    | MODE_NONE, _ | _, MODE_NONE => false
    | MODE_IS, MODE_X | MODE_IX, (MODE_S | MODE_X)
    | MODE_S, (MODE_IX | MODE_X) | MODE_X, _ => true
    | _, _ => false
    end.
Proof. by destruct requested, granted. Qed.

(** [isModeCovered(a, b)] decides the documented relation: every mode that
    conflicts with [a] conflicts with [b]; and then [b] conflicts with every set of
    granted modes that [a] conflicts with. *)
Theorem isModeCovered_iff_conflict_subset a b :
  (isModeCovered a b = true <->
     forall x, conflicts a (modeMask x) = true -> conflicts b (modeMask x) = true) /\
  (isModeCovered a b = true ->
     forall mask, conflicts a mask = true -> conflicts b mask = true).
Proof.
  split; [apply isModeCovered_spec|].
  intros Hc mask. rewrite !conflicts_spec. intros (m' & Ht & Hm).
  exists m'. split; [done|]. by apply (isModeCovered_spec a b).
Qed.

(** Building a [ResourceId] from a type and a hash and reading it back gives the
    type and the low 61 bits of the hash, and the canonical locking order on ids is
    lexicographic: first by resource type, then by hash id. *)
Theorem ResourceId_roundtrip_and_order t1 h1 t2 h2 :
  getType (fullHash t1 h1) = Some t1 /\
  getHashId (fullHash t1 h1) = h1 mod 2 ^ 61 /\
  (fullHash t1 h1 < fullHash t2 h2 <->
     type_index t1 < type_index t2 \/
     (t1 = t2 /\ h1 mod 2 ^ 61 < h2 mod 2 ^ 61)).
Proof.
  rewrite !fullHash_value.
  pose proof (Z.mod_pos_bound h1 (2 ^ 61)) as B1.
  pose proof (Z.mod_pos_bound h2 (2 ^ 61)) as B2.
  split; [|split].
  - unfold getType. change (64 - resourceTypeBits) with 61.
    rewrite Z.shiftr_div_pow2, Z.add_comm, Z.div_add, Z.div_small by lia.
    by destruct t1.
  - unfold getHashId. rewrite hash_mask_ones, Z.land_ones by lia.
    rewrite Z.add_comm, Z.mod_add, Z.mod_mod by lia. done.
  - assert (t1 = t2 <-> type_index t1 = type_index t2) as ->.
    { split; [by intros ->|]. by destruct t1, t2. }
    generalize dependent (type_index t1). generalize dependent (type_index t2). lia.
Qed.
