(* ===== verification/LockHead.v ===== *)
(** * Lock heads: the granted and conflict queues of one resource

    Models [struct LockHead] of [db/concurrency/lock_manager.h] with its members in
    [lock_manager.cpp], and [LockManager::_onLockModeChanged], the routine that
    grants pending conversions and waiting requests.

    The counters [grantedCounts], [conflictCounts], [conversionsCount],
    [compatibleFirstCount] and [recursiveCount] are [uint32_t]; they are natural
    numbers here.  They never go below zero because every decrement stands behind an
    [invariant(... >= 1)] (or a loop test), and each counts live [LockRequest]
    objects or nested calls of one thread, far below 2^32. *)

From Stdlib Require Import ZArith Lia.
From stdpp Require Import prelude gmap functions finite.
From S2P Require Import Prelude LockDefs.

Open Scope Z_scope.

(** ** State *)

Record LockHead := mkLockHead {
  lh_resourceId : ResourceId;
  lh_grantedList : list ReqPtr;
  lh_grantedCounts : LockMode -> nat;
  lh_grantedModes : Z;
  lh_conflictList : list ReqPtr;
  lh_conflictCounts : LockMode -> nat;
  lh_conflictModes : Z;
  lh_partitions : list PartitionId;
  lh_conversionsCount : nat;
  lh_compatibleFirstCount : nat;
}.

(** [new LockHead()] followed by [LockHead::initNew]. *)
Definition LockHead_initNew (resId : ResourceId) : LockHead := {|
  lh_resourceId := resId;
  lh_grantedList := [];
  lh_grantedCounts := fun _ => 0%nat;
  lh_grantedModes := 0;
  lh_conflictList := [];
  lh_conflictCounts := fun _ => 0%nat;
  lh_conflictModes := 0;
  lh_partitions := [];
  lh_conversionsCount := 0;
  lh_compatibleFirstCount := 0;
|}.

(** A call [notify->notify(resId, result)]. *)
Record Notification := mkNotification {
  nt_target : NotifyPtr;
  nt_resource : ResourceId;
  nt_result : LockResult;
}.

(** [LockRequestList::remove]: see [RequestList.v]. *)
Definition remove_request (r : ReqPtr) (l : list ReqPtr) : list ReqPtr :=
  filter (fun x => x <> r) l.

Definition LockHead_partitioned (h : LockHead) : bool :=
  negb (bool_decide (lh_partitions h = [])).

(** ** Mode counts *)

Definition incGrantedModeCount (h : LockHead) (mode : LockMode) : option LockHead :=
  invariant (0 <=? lh_grantedCounts h mode)%nat;;
  let c := S (lh_grantedCounts h mode) in
  let h1 := {| h with lh_grantedCounts := <[mode := c]> (lh_grantedCounts h) |} in
  if (c =? 1)%nat then
    invariant (Z.land (lh_grantedModes h1) (modeMask mode) =? 0);;
    Some {| h1 with lh_grantedModes := Z.lor (lh_grantedModes h1) (modeMask mode) |}
  else Some h1.

Definition decGrantedModeCount (h : LockHead) (mode : LockMode) : option LockHead :=
  invariant (1 <=? lh_grantedCounts h mode)%nat;;
  let c := pred (lh_grantedCounts h mode) in
  let h1 := {| h with lh_grantedCounts := <[mode := c]> (lh_grantedCounts h) |} in
  if (c =? 0)%nat then
    invariant (Z.land (lh_grantedModes h1) (modeMask mode) =? modeMask mode);;
    Some {| h1 with lh_grantedModes := Z.land (lh_grantedModes h1) (Z.lnot (modeMask mode)) |}
  else Some h1.

Definition incConflictModeCount (h : LockHead) (mode : LockMode) : option LockHead :=
  invariant (0 <=? lh_conflictCounts h mode)%nat;;
  let c := S (lh_conflictCounts h mode) in
  let h1 := {| h with lh_conflictCounts := <[mode := c]> (lh_conflictCounts h) |} in
  if (c =? 1)%nat then
    invariant (Z.land (lh_conflictModes h1) (modeMask mode) =? 0);;
    Some {| h1 with lh_conflictModes := Z.lor (lh_conflictModes h1) (modeMask mode) |}
  else Some h1.

Definition decConflictModeCount (h : LockHead) (mode : LockMode) : option LockHead :=
  invariant (1 <=? lh_conflictCounts h mode)%nat;;
  let c := pred (lh_conflictCounts h mode) in
  let h1 := {| h with lh_conflictCounts := <[mode := c]> (lh_conflictCounts h) |} in
  if (c =? 0)%nat then
    invariant (Z.land (lh_conflictModes h1) (modeMask mode) =? modeMask mode);;
    Some {| h1 with lh_conflictModes := Z.land (lh_conflictModes h1) (Z.lnot (modeMask mode)) |}
  else Some h1.

(** ** Requests of a lock head *)

(** The first request of [l] that belongs to the locker. *)
Fixpoint find_locker (R : requests) (l : list ReqPtr) (lockerId : LockerId) : option ReqPtr :=
  match l with
  | [] => None
  | it :: rest =>
      match R !! it with
      | Some q => if rq_locker q =? lockerId then Some it else find_locker R rest lockerId
      | None => None
      end
  end.

Definition findRequest (R : requests) (h : LockHead) (lockerId : LockerId) : option ReqPtr :=
  match find_locker R (lh_grantedList h) lockerId with
  | Some it => Some it
  | None => find_locker R (lh_conflictList h) lockerId
  end.

Definition newRequest (R : requests) (h : LockHead) (request : ReqPtr)
    : option (requests * LockHead * LockResult) :=
  q ← R !! request;
  invariant (bool_decide (rq_partitionedLock q = None));;
  let q := {| q with rq_lock := Some (lh_resourceId h) |} in
  if conflicts (rq_mode q) (lh_grantedModes h) ||
     ((lh_compatibleFirstCount h =? 0)%nat && conflicts (rq_mode q) (lh_conflictModes h))
  then
    let q := {| q with rq_status := STATUS_WAITING |} in
    let h := {| h with lh_conflictList :=
                  if rq_enqueueAtFront q then request :: lh_conflictList h
                  else lh_conflictList h ++ [request] |} in
    h ← incConflictModeCount h (rq_mode q);
    Some (<[request := q]> R, h, LOCK_WAITING)
  else
    let q := {| q with rq_status := STATUS_GRANTED |} in
    let h := {| h with lh_grantedList := lh_grantedList h ++ [request] |} in
    h ← incGrantedModeCount h (rq_mode q);
    let h := if rq_compatibleFirst q
             then {| h with lh_compatibleFirstCount := S (lh_compatibleFirstCount h) |}
             else h in
    Some (<[request := q]> R, h, LOCK_OK).

(** ** Granting *)

(** The loop of [LockManager::convert] that builds the mask of the modes granted to
    the other requests. *)
Fixpoint modesWithoutHolder (counts : LockMode -> nat) (mode : LockMode)
    (is_ : list LockMode) (acc : Z) : Z :=
  match is_ with
  | [] => acc
  | i :: rest =>
      let currentRequestHolds := if decide (mode = i) then 1%nat else 0%nat in
      modesWithoutHolder counts mode rest
        (if (currentRequestHolds <? counts i)%nat then Z.lor acc (modeMask i) else acc)
  end.

(** The same loop in [LockManager::_onLockModeChanged], where the request also waits
    for the mode it converts to. *)
Fixpoint modesWithoutConverter (counts : LockMode -> nat) (mode convertMode : LockMode)
    (is_ : list LockMode) (acc : Z) : option Z :=
  match is_ with
  | [] => Some acc
  | i :: rest =>
      let currentRequestHolds := if decide (mode = i) then 1%nat else 0%nat in
      let currentRequestWaits := if decide (convertMode = i) then 1%nat else 0%nat in
      invariant (currentRequestHolds + currentRequestWaits <=? 1)%nat;;
      modesWithoutConverter counts mode convertMode rest
        (if (currentRequestHolds + currentRequestWaits <? counts i)%nat
         then Z.lor acc (modeMask i) else acc)
  end.

(** First loop of [_onLockModeChanged]: unblock converting requests. *)
Fixpoint grantConversions (l : list ReqPtr) (R : requests) (h : LockHead)
    (out : list Notification) : option (requests * LockHead * list Notification) :=
  match l with
  | [] => Some (R, h, out)
  | iter :: rest =>
      if (0 <? lh_conversionsCount h)%nat then
        q ← R !! iter;
        if decide (rq_status q = STATUS_CONVERTING) then
          invariant (bool_decide (rq_convertMode q <> MODE_NONE));;
          mask ← modesWithoutConverter (lh_grantedCounts h) (rq_mode q) (rq_convertMode q)
                   real_modes 0;
          if negb (conflicts (rq_convertMode q) mask) then
            let h := {| h with lh_conversionsCount := pred (lh_conversionsCount h) |} in
            h ← decGrantedModeCount h (rq_mode q);
            let q' := {| q with rq_status := STATUS_GRANTED;
                                rq_mode := rq_convertMode q;
                                rq_convertMode := MODE_NONE |} in
            grantConversions rest (<[iter := q']> R) h
              (out ++ [mkNotification (rq_notify q) (lh_resourceId h) LOCK_OK])
          else grantConversions rest R h out
        else grantConversions rest R h out
      else Some (R, h, out)
  end.

(** Second loop of [_onLockModeChanged]: grant waiting requests.  [l] is the rest of
    the queue as it was when the loop reached it ([iterNext] is read before the node
    is unlinked); [!iter->prev] says that [iter] is at the front of the current
    queue. *)
Fixpoint grantWaiters (l : list ReqPtr) (R : requests) (h : LockHead)
    (newlyCompatibleFirst : bool) (out : list Notification)
    : option (requests * LockHead * list Notification) :=
  match l with
  | [] => Some (R, h, out)
  | iter :: rest =>
      q ← R !! iter;
      invariant (bool_decide (rq_status q = STATUS_WAITING));;
      if conflicts (rq_mode q) (lh_grantedModes h) then
        if bool_decide (head (lh_conflictList h) = Some iter) && negb newlyCompatibleFirst
        then Some (R, h, out)
        else grantWaiters rest R h newlyCompatibleFirst out
      else
        let q := {| q with rq_status := STATUS_GRANTED |} in
        let h := {| h with lh_conflictList := remove_request iter (lh_conflictList h) |} in
        h ← decConflictModeCount h (rq_mode q);
        let h := {| h with lh_grantedList := lh_grantedList h ++ [iter] |} in
        h ← incGrantedModeCount h (rq_mode q);
        let newly := if rq_compatibleFirst q
                     then newlyCompatibleFirst || (lh_compatibleFirstCount h =? 0)%nat
                     else newlyCompatibleFirst in
        let h := if rq_compatibleFirst q
                 then {| h with lh_compatibleFirstCount := S (lh_compatibleFirstCount h) |}
                 else h in
        let out := out ++ [mkNotification (rq_notify q) (lh_resourceId h) LOCK_OK] in
        if decide (rq_mode q = MODE_X) then Some (<[iter := q]> R, h, out)
        else grantWaiters rest (<[iter := q]> R) h newly out
  end.

(** [LockManager::_onLockModeChanged]. *)
Definition onLockModeChanged (R : requests) (h : LockHead) (checkConflictQueue : bool)
    : option (requests * LockHead * list Notification) :=
  '(R, h, out) ← grantConversions (lh_grantedList h) R h [];
  '(R, h, out) ← (if checkConflictQueue
                  then grantWaiters (lh_conflictList h) R h false out
                  else Some (R, h, out));
  invariant (xorb (lh_grantedModes h =? 0) (negb (bool_decide (lh_grantedList h = []))));;
  invariant (xorb (lh_conflictModes h =? 0) (negb (bool_decide (lh_conflictList h = []))));;
  Some (R, h, out).
