(* ===== verification/RequestList.v ===== *)
(** * The intrusive list of lock requests

    Models [class LockRequestList] of [db/concurrency/lock_request_list.h]: a doubly
    linked list threaded through the [prev] and [next] fields of the requests.  The heap
    of links is explicit.  The theorem of the file is that the pointer operations refine
    the operations on mathematical lists that the lock heads use ([LockHead.v]). *)

From Stdlib Require Import ZArith Lia.
From stdpp Require Import prelude gmap functions finite.
From S2P Require Import Prelude LockDefs LockHead.

(** ** The structure *)

(** The [prev] and [next] fields of a request. *)
Record Links := mkLinks {
  prev : option ReqPtr;
  next : option ReqPtr;
}.

Record LockRequestList := mkLockRequestList {
  front : option ReqPtr;
  back : option ReqPtr;
}.

Abbreviation heap := (gmap positive Links) (only parsing).

(** Writes through a pointer; a dangling pointer is [None]. *)
Definition set_prev (H : heap) (r : ReqPtr) (v : option ReqPtr) : option heap :=
  l ← H !! r; Some (<[r := {| l with prev := v |}]> H).

Definition set_next (H : heap) (r : ReqPtr) (v : option ReqPtr) : option heap :=
  l ← H !! r; Some (<[r := {| l with next := v |}]> H).

Definition push_front (H : heap) (L : LockRequestList) (request : ReqPtr)
    : option (heap * LockRequestList) :=
  l ← H !! request;
  invariant (bool_decide (next l = None));;
  invariant (bool_decide (prev l = None));;
  match front L with
  | None => Some (H, mkLockRequestList (Some request) (Some request))
  | Some f =>
      H ← set_next H request (Some f);
      H ← set_prev H f (Some request);
      Some (H, mkLockRequestList (Some request) (back L))
  end.

Definition push_back (H : heap) (L : LockRequestList) (request : ReqPtr)
    : option (heap * LockRequestList) :=
  l ← H !! request;
  invariant (bool_decide (next l = None));;
  invariant (bool_decide (prev l = None));;
  match front L with
  | None => Some (H, mkLockRequestList (Some request) (Some request))
  | Some _ =>
      H ← set_prev H request (back L);
      b ← back L;
      H ← set_next H b (Some request);
      Some (H, mkLockRequestList (front L) (Some request))
  end.

Definition remove (H : heap) (L : LockRequestList) (request : ReqPtr)
    : option (heap * LockRequestList) :=
  l ← H !! request;
  '(H, L) ← match prev l with
            | Some p => H ← set_next H p (next l); Some (H, L)
            | None => Some (H, mkLockRequestList (next l) (back L))
            end;
  l ← H !! request;
  '(H, L) ← match next l with
            | Some n => H ← set_prev H n (prev l); Some (H, L)
            | None => Some (H, mkLockRequestList (front L) (prev l))
            end;
  H ← set_prev H request None;
  H ← set_next H request None;
  Some (H, L).

Definition reset (L : LockRequestList) : LockRequestList := mkLockRequestList None None.

Definition empty (L : LockRequestList) : bool := bool_decide (front L = None).

(** ** The representation relation *)

(** [L] is the list [xs]: the links of each element are its neighbours. *)
Record represents (H : heap) (L : LockRequestList) (xs : list ReqPtr) : Prop := mk_represents {
  rep_nodup : NoDup xs;
  rep_front : front L = head xs;
  rep_back : back L = last xs;
  rep_links : forall a x b, xs = a ++ x :: b -> H !! x = Some (mkLinks (last a) (head b));
}.

Definition detached (H : heap) (r : ReqPtr) : Prop := H !! r = Some (mkLinks None None).

(** Only the links of [r] and of the elements of [xs] differ. *)
Definition same_elsewhere (H H' : heap) (r : ReqPtr) (xs : list ReqPtr) : Prop :=
  forall x, x <> r -> x ∉ xs -> H' !! x = H !! x.

Lemma represents_nil H : represents H (reset (mkLockRequestList None None)) [].
Proof. split; [apply NoDup_nil_2|done|done|]. intros [|? ?] x b; discriminate. Qed.

Lemma cons_split {A} (y x : A) xs a b :
  y :: xs = a ++ x :: b -> (a = [] /\ x = y /\ b = xs) \/ exists a', a = y :: a' /\ xs = a' ++ x :: b.
Proof. destruct a as [|z a]; intros [= -> ->]; [by left|right; eauto]. Qed.

Lemma snoc_split {A} (y x : A) xs a b :
  xs ++ [y] = a ++ x :: b -> (b = [] /\ x = y /\ a = xs) \/ exists b', b = b' ++ [y] /\ xs = a ++ x :: b'.
Proof.
  destruct b as [|z b _] using rev_ind.
  - intros [-> [= ->]]%app_inj_tail. by left.
  - rewrite app_comm_cons, app_assoc. intros [-> ->]%app_inj_tail. right. eauto.
Qed.

Lemma push_front_represents H L xs r :
  represents H L xs -> detached H r -> r ∉ xs ->
  exists H' L', push_front H L r = Some (H', L') /\ represents H' L' (r :: xs) /\
    same_elsewhere H H' r xs.
Proof.
  intros [Hnd Hf Hb Hl] Hr Hx. unfold push_front, set_next, set_prev. rewrite Hr. simpl.
  rewrite Hf. destruct xs as [|f xs]; simpl.
  { eexists _, _. split; [done|]. split; [|done]. split; [apply NoDup_singleton|done..|].
    intros a x b [(-> & -> & ->)|(a' & -> & Ha)]%cons_split; [done|]. by destruct a'. }
  assert (r <> f) as Hne by set_solver.
  rewrite lookup_insert_ne by done. rewrite (Hl [] f xs eq_refl). simpl.
  eexists _, _. split; [done|]. split.
  - split; [by apply NoDup_cons|done|by rewrite Hb|].
    intros a x b [(-> & -> & ->)|(a' & -> & [(-> & -> & ->)|(a'' & -> & ->)]%cons_split)]%cons_split.
    + by rewrite lookup_insert_ne, lookup_insert_eq.
    + by rewrite lookup_insert_eq.
    + apply NoDup_cons in Hnd as [Hfx _].
      rewrite !lookup_insert_ne by set_solver. rewrite (Hl (f :: a'') x b) by done. done.
  - intros x Hxr Hxx. by rewrite !lookup_insert_ne by set_solver.
Qed.

Lemma push_back_represents H L xs r :
  represents H L xs -> detached H r -> r ∉ xs ->
  exists H' L', push_back H L r = Some (H', L') /\ represents H' L' (xs ++ [r]) /\
    same_elsewhere H H' r xs.
Proof.
  intros [Hnd Hf Hb Hl] Hr Hx. unfold push_back, set_next, set_prev. rewrite Hr. simpl.
  rewrite Hf, Hb. destruct xs as [|e xs _] using rev_ind; simpl.
  { eexists _, _. split; [done|]. split; [|done]. split; [apply NoDup_singleton|done..|].
    intros a x b [(-> & -> & ->)|(a' & -> & Ha)]%cons_split; [done|]. by destruct a'. }
  assert (exists f, head (xs ++ [e]) = Some f) as [f Hhd] by (destruct xs; simpl; eauto).
  rewrite Hhd, last_snoc. simpl.
  assert (r <> e) as Hne by set_solver.
  rewrite lookup_insert_ne, (Hl xs e [] eq_refl) by done. simpl.
  eexists _, _. split; [done|]. split.
  - split; [|by destruct xs|by rewrite last_snoc|].
    { apply NoDup_app. split_and!; [done|set_solver|apply NoDup_singleton]. }
    intros a x b [(-> & -> & ->)|(b' & -> & [(-> & -> & ->)|(b'' & -> & ->)]%snoc_split)]%snoc_split.
    + by rewrite lookup_insert_ne, lookup_insert_eq, last_snoc.
    + by rewrite lookup_insert_eq.
    + apply NoDup_app in Hnd as (_ & Hd & _).
      assert (x <> e) by (intros ->; apply (Hd e); set_solver).
      rewrite !lookup_insert_ne by set_solver. rewrite (Hl a x (b'' ++ [e])) by by rewrite app_comm_cons, app_assoc.
      by destruct b''.
  - intros x Hxr Hxx. by rewrite !lookup_insert_ne by set_solver.
Qed.

(** Removing the element [r] between [a] and [b]: the links afterwards. *)
Definition unlink_at (H : heap) (a b : list ReqPtr) (r x : ReqPtr) : option Links :=
  if decide (x = r) then Some (mkLinks None None)
  else if decide (last a = Some x) then (fun l => {| l with next := head b |}) <$> H !! x
  else if decide (head b = Some x) then (fun l => {| l with prev := last a |}) <$> H !! x
  else H !! x.

Lemma last_elem {A} (l : list A) x : last l = Some x -> exists l', l = l' ++ [x].
Proof. apply last_Some. Qed.

Lemma head_elem {A} (l : list A) x : head l = Some x -> exists l', l = x :: l'.
Proof. destruct l; intros [= ->]. eauto. Qed.

Local Ltac run_links := repeat (progress (simplify_map_eq; cbn [mbind option_bind prev next])).

Lemma remove_run H L a b r :
  represents H L (a ++ r :: b) ->
  exists H', remove H L r = Some (H', mkLockRequestList (head (a ++ b)) (last (a ++ b))) /\
    forall x, H' !! x = unlink_at H a b r x.
Proof.
  destruct L as [f e]. intros [Hnd Hf Hb Hl]. simpl in Hf, Hb. subst f.
  unfold remove, set_next, set_prev, unlink_at.
  pose proof (Hl a r b eq_refl) as Hr. rewrite last_app in Hb |- *. simpl in Hb.
  apply NoDup_app in Hnd as (_ & Hda & [Hrb _]%NoDup_cons).
  destruct a as [|p a _] using rev_ind; destruct b as [|n b].
  - simpl in *. run_links. eexists. split; [done|]. intros x.
    destruct (decide (x = r)); run_links; by repeat case_decide.
  - pose proof (Hl [r] n b eq_refl) as Hn. assert (n <> r) by set_solver. simpl in *. run_links.
    eexists. split; [by destruct b|]. intros x.
    destruct (decide (x = r)), (decide (x = n)); run_links; by repeat case_decide; run_links.
  - pose proof (Hl a p [r] ltac:(by rewrite <- app_assoc)) as Hp.
    assert (p <> r) by set_solver. rewrite last_snoc in *. simpl in *. run_links.
    eexists. split; [by destruct a|]. intros x.
    destruct (decide (x = r)), (decide (x = p)); run_links; by repeat case_decide; run_links.
  - pose proof (Hl a p (r :: n :: b) ltac:(by rewrite <- app_assoc)) as Hp.
    pose proof (Hl ((a ++ [p]) ++ [r]) n b ltac:(by rewrite <- (app_assoc _ [r]))) as Hn.
    assert (p <> r) by set_solver. assert (n <> r) by set_solver. assert (n <> p) by set_solver.
    rewrite last_snoc in *. simpl in *. run_links.
    eexists. split; [by destruct a, b|]. intros x.
    destruct (decide (x = r)), (decide (x = p)), (decide (x = n)); run_links;
      by repeat case_decide; run_links.
Qed.

Lemma app_split {A} (a b c d : list A) y :
  a ++ b = c ++ y :: d ->
  (exists l, a = c ++ y :: l /\ d = l ++ b) \/ (exists l, c = a ++ l /\ b = l ++ y :: d).
Proof.
  intros (l & [(-> & E)|(-> & ->)])%List.app_eq_app.
  - destruct l as [|z l]; simpl in E; [right|left].
    + exists []. by rewrite !app_nil_r.
    + injection E as -> ->. eauto.
  - right. eauto.
Qed.

Lemma last_app_cons {A} (a : list A) x l : last (a ++ x :: l) = last (x :: l).
Proof. by rewrite last_app, last_cons; destruct (last l). Qed.

Lemma unlink_left H a b r y c l :
  (forall a' x b', a ++ r :: b = a' ++ x :: b' -> H !! x = Some (mkLinks (last a') (head b'))) ->
  NoDup (a ++ r :: b) -> a = c ++ y :: l ->
  unlink_at H a b r y = Some (mkLinks (last c) (head (l ++ b))).
Proof.
  intros Hl Hnd ->. apply NoDup_app in Hnd as (Hna & Hda & [Hrb Hnb]%NoDup_cons).
  assert (y ∉ r :: b) as Hy by (apply Hda; set_solver).
  unfold unlink_at. rewrite decide_False by set_solver.
  rewrite (Hl c y (l ++ r :: b)) by by rewrite <- app_assoc. rewrite last_app_cons.
  destruct l as [|z l].
  - by rewrite decide_True.
  - apply NoDup_app in Hna as (_ & _ & [Hyl _]%NoDup_cons).
    rewrite !decide_False; [done|intros (b' & ->)%head_elem; set_solver|].
    rewrite last_cons_cons. intros (l' & E)%last_elem. rewrite E in Hyl. set_solver.
Qed.

Lemma unlink_right H a b r y l d :
  (forall a' x b', a ++ r :: b = a' ++ x :: b' -> H !! x = Some (mkLinks (last a') (head b'))) ->
  NoDup (a ++ r :: b) -> b = l ++ y :: d ->
  unlink_at H a b r y = Some (mkLinks (last (a ++ l)) (head d)).
Proof.
  intros Hl Hnd ->. apply NoDup_app in Hnd as (Hna & Hda & [Hrb Hnb]%NoDup_cons).
  unfold unlink_at. rewrite decide_False by set_solver.
  rewrite (decide_False (P := last a = Some y)).
  2: { intros (a' & ->)%last_elem. apply (Hda y); set_solver. }
  rewrite (Hl (a ++ r :: l) y d) by by rewrite <- app_assoc.
  destruct l as [|z l]; simpl.
  - rewrite decide_True by done. by rewrite app_nil_r.
  - apply NoDup_cons in Hnb as [Hz _]. rewrite decide_False; [|intros [= ->]; set_solver].
    by rewrite !last_app_cons, last_cons_cons.
Qed.

Lemma remove_represents H L xs r :
  represents H L xs -> r ∈ xs ->
  exists H' L', remove H L r = Some (H', L') /\ represents H' L' (remove_request r xs) /\
    detached H' r /\ same_elsewhere H H' r xs.
Proof.
  intros HL (a & b & ->)%list_elem_of_split. pose proof HL as [Hnd Hf Hb Hl].
  destruct (remove_run H L a b r HL) as (H' & Hrun & HH'). eexists _, _. split; [done|].
  pose proof Hnd as (Hna & Hda & [Hrb Hnb]%NoDup_cons)%NoDup_app.
  assert (r ∉ a) as Hra by (intros Hin; apply (Hda r Hin); set_solver).
  assert (remove_request r (a ++ r :: b) = a ++ b) as ->.
  { unfold remove_request. rewrite filter_app, filter_cons_False by (intros []; done).
    rewrite !filter_all; [done|intros x ? ->; done..]. }
  split_and!.
  - split; [|done..|].
    { apply NoDup_app. split_and!; [done|set_solver|done]. }
    intros c y d E. rewrite HH'. apply app_split in E as [(l & Ea & ->)|(l & -> & Eb)].
    + by apply unlink_left.
    + by apply unlink_right.
  - unfold detached. rewrite HH'. unfold unlink_at. by rewrite decide_True.
  - intros x Hxr Hx. rewrite HH'. unfold unlink_at. rewrite !decide_False; try done.
    + intros (b' & ->)%head_elem. set_solver.
    + intros (a' & ->)%last_elem. set_solver.
Qed.

(** ** The refinement *)

(** The pointer operations refine list operations.  On links that represent the list
    [xs], [push_front] and [push_back] of a detached request that is not in the list give
    links that represent [r :: xs] and [xs ++ [r]]; [remove] of an element gives links
    that represent [xs] without it and detaches it; [empty] answers whether [xs] is empty.
    No operation dereferences a dangling pointer or changes the links of other requests. *)
Theorem LockRequestList_refines_lists H L xs r :
  represents H L xs ->
  (detached H r -> r ∉ xs ->
     exists H' L', push_front H L r = Some (H', L') /\ represents H' L' (r :: xs) /\
       same_elsewhere H H' r xs) /\
  (detached H r -> r ∉ xs ->
     exists H' L', push_back H L r = Some (H', L') /\ represents H' L' (xs ++ [r]) /\
       same_elsewhere H H' r xs) /\
  (r ∈ xs ->
     exists H' L', remove H L r = Some (H', L') /\ represents H' L' (remove_request r xs) /\
       detached H' r /\ same_elsewhere H H' r xs) /\
  (empty L = true <-> xs = []).
Proof.
  intros HL. split_and!.
  - by apply push_front_represents.
  - by apply push_back_represents.
  - by apply remove_represents.
  - unfold empty. rewrite bool_decide_eq_true, (rep_front _ _ _ HL). by destruct xs.
Qed.

(** Requests 1 and 2 in a list, request 3 outside of it. *)
Definition demo_links : heap :=
  <[1%positive := mkLinks None (Some 2%positive)]>
    (<[2%positive := mkLinks (Some 1%positive) None]> (<[3%positive := mkLinks None None]> ∅)).

Lemma demo_represents :
  represents demo_links (mkLockRequestList (Some 1) (Some 2))%positive [1; 2]%positive.
Proof.
  split; [by apply (bool_decide_unpack _)|done|done|].
  intros [|? [|? [|? ?]]] x b; simpl; intros; simplify_eq; done.
Qed.

Lemma LockRequestList_refines_lists_witness :
  exists H' L', push_back demo_links (mkLockRequestList (Some 1) (Some 2))%positive 3 = Some (H', L') /\
    represents H' L' [1; 2; 3]%positive.
Proof.
  destruct (LockRequestList_refines_lists _ _ _ 3%positive demo_represents) as (_ & Hb & _).
  destruct Hb as (H' & L' & Hrun & Hrep & _); [done|set_solver|]. exists H', L'. split; assumption.
Defined.
