(* ===== verification/FastMap.v ===== *)
(** * The allocation-free map of a locker

    Models [class FastMapNoAlloc] of [db/concurrency/fast_map_noalloc.h]: a deque of
    entries that are marked in use or free and are reused, with iterators that are
    positions in the deque.  The theorems relate it to the list of its entries in use and
    to a finite map. *)

From Stdlib Require Import ZArith Lia.
From stdpp Require Import prelude gmap list.
From S2P Require Import Prelude.

Section FastMap.
Context {K V : Type} `{EqDecision K, Inhabited K, Inhabited V}.

(** ** The structure *)

Record PreallocEntry := mkPreallocEntry {
  inUse : bool;
  ekey : K;
  evalue : V;
}.

Record FastMapNoAlloc := mkFastMapNoAlloc {
  fastAccess : list PreallocEntry;
  fastAccessUsedSize : nat;
}.

(** An iterator is a position; the size of the deque is [end()]. *)
Abbreviation Iterator := nat (only parsing).

Definition FastMap_new : FastMapNoAlloc := mkFastMapNoAlloc [] 0.

Definition prealloc : PreallocEntry := mkPreallocEntry false inhabitant inhabitant.

(** The first position from [it] on whose entry satisfies [f], or the end: the loops of
    the iterator constructors, of [next] and of [insert]. *)
Fixpoint scan (f : PreallocEntry -> bool) (l : list PreallocEntry) : nat :=
  match l with
  | [] => 0
  | e :: l => if f e then 0 else S (scan f l)
  end.

Definition scan_from (f : PreallocEntry -> bool) (m : FastMapNoAlloc) (it : Iterator) : Iterator :=
  it + scan f (drop it (fastAccess m)).

Definition finished (m : FastMapNoAlloc) (it : Iterator) : bool := it =? length (fastAccess m).

Definition objAddr (m : FastMapNoAlloc) (it : Iterator) : option V :=
  invariant (negb (finished m it));; evalue <$> fastAccess m !! it.

Definition key (m : FastMapNoAlloc) (it : Iterator) : option K :=
  invariant (negb (finished m it));; ekey <$> fastAccess m !! it.

Definition next (m : FastMapNoAlloc) (it : Iterator) : option Iterator :=
  invariant (negb (finished m it));; Some (scan_from inUse m (S it)).

Definition remove (m : FastMapNoAlloc) (it : Iterator) : option (FastMapNoAlloc * Iterator) :=
  invariant (negb (finished m it));;
  e ← fastAccess m !! it;
  invariant (inUse e);;
  let m := mkFastMapNoAlloc (<[it := {| e with inUse := false |}]> (fastAccess m))
             (pred (fastAccessUsedSize m)) in
  it ← next m it;
  Some (m, it).

Definition insert (m : FastMapNoAlloc) (k : K) : option (FastMapNoAlloc * Iterator) :=
  let l := if fastAccessUsedSize m =? length (fastAccess m) then prealloc :: fastAccess m
           else fastAccess m in
  let it := scan (fun e => negb (inUse e)) l in
  e ← l !! it;
  invariant (negb (inUse e));;
  Some (mkFastMapNoAlloc (<[it := {| e with inUse := true; ekey := k |}]> l)
          (S (fastAccessUsedSize m)), it).

Definition begin (m : FastMapNoAlloc) : Iterator := scan_from inUse m 0.

Definition find (m : FastMapNoAlloc) (k : K) : Iterator :=
  scan_from (fun e => inUse e && bool_decide (ekey e = k)) m 0.

Definition size (m : FastMapNoAlloc) : nat := fastAccessUsedSize m.
Definition empty (m : FastMapNoAlloc) : bool := fastAccessUsedSize m =? 0.

(** Write the value an iterator refers to. *)
Definition assign (m : FastMapNoAlloc) (it : Iterator) (v : V) : option FastMapNoAlloc :=
  invariant (negb (finished m it));;
  e ← fastAccess m !! it;
  Some (mkFastMapNoAlloc (<[it := {| e with evalue := v |}]> (fastAccess m))
          (fastAccessUsedSize m)).

(** ** The entries in use *)

Definition entries_of (l : list PreallocEntry) : list (K * V) :=
  omap (fun e => if inUse e then Some (ekey e, evalue e) else None) l.

Definition entries (m : FastMapNoAlloc) : list (K * V) := entries_of (fastAccess m).

Definition wf (m : FastMapNoAlloc) : Prop := fastAccessUsedSize m = length (entries m).

(** The iterator refers to the entry [kv]. *)
Definition at_entry (m : FastMapNoAlloc) (it : Iterator) (kv : K * V) : Prop :=
  exists e, fastAccess m !! it = Some e /\ inUse e = true /\ (ekey e, evalue e) = kv.

Lemma scan_spec f l :
  (forall j e, l !! j = Some e -> j < scan f l -> f e = false) /\
  (scan f l = length l \/ exists e, l !! scan f l = Some e /\ f e = true) /\ scan f l <= length l.
Proof.
  induction l as [|e l (IH1 & IH2 & IH3)]; simpl; [split_and!; [done|by left|lia]|].
  destruct (f e) eqn:Hf; [split_and!; [intros; lia|right; eauto|lia]|].
  split_and!; [|destruct IH2; [left; lia|by right]|lia].
  intros [|j] e' Hj Hlt; simplify_eq/=; [done|]. eapply IH1; [done|lia].
Qed.

Lemma entries_app l1 l2 : entries_of (l1 ++ l2) = entries_of l1 ++ entries_of l2.
Proof. apply omap_app. Qed.

Lemma entries_length l : length (entries_of l) <= length l.
Proof. induction l as [|[[] ??] l IH]; simpl; lia. Qed.

Lemma entries_full l :
  length (entries_of l) = length l -> forall e, e ∈ l -> inUse e = true.
Proof.
  induction l as [|[[] k v] l IH]; simpl; intros Hl e; [set_solver| |].
  - intros [-> |He]%elem_of_cons; [done|]. apply IH; [lia|done].
  - pose proof (entries_length l). lia.
Qed.

(** Replace the entry at a position. *)
Lemma entries_insert l i e e' :
  l !! i = Some e ->
  entries_of l = entries_of (take i l) ++
     (if inUse e then [(ekey e, evalue e)] else []) ++ entries_of (drop (S i) l) /\
  entries_of (<[i := e']> l) = entries_of (take i l) ++
     (if inUse e' then [(ekey e', evalue e')] else []) ++ entries_of (drop (S i) l).
Proof.
  intros Hi. pose proof (lookup_lt_Some _ _ _ Hi) as Hlt. split.
  - rewrite <- (take_drop_middle l i e Hi) at 1. rewrite entries_app. f_equal. by destruct e as [[] ??].
  - rewrite insert_take_drop by done. rewrite entries_app. f_equal. by destruct e' as [[] ??].
Qed.

Lemma elem_of_entries m kv : kv ∈ entries m <-> exists it, at_entry m it kv.
Proof.
  unfold entries, entries_of, at_entry. rewrite list_elem_of_omap. split.
  - intros (e & He & Hf). apply list_elem_of_lookup in He as [it Hit].
    exists it, e. destruct (inUse e); by simplify_eq.
  - intros (it & e & Hit & Hu & <-). exists e. rewrite Hu. split; [|done].
    by eapply list_elem_of_lookup_2.
Qed.

Lemma finished_false m it e : fastAccess m !! it = Some e -> finished m it = false.
Proof. intros Hit%lookup_lt_Some. apply Nat.eqb_neq. lia. Qed.

(** ** The operations *)

Lemma find_spec m k :
  (finished m (find m k) = true <-> k ∉ (entries m).*1) /\
  (finished m (find m k) = false -> exists v, at_entry m (find m k) (k, v)).
Proof.
  unfold find, scan_from. rewrite drop_0, Nat.add_0_l.
  set (f := fun e => inUse e && bool_decide (ekey e = k)).
  destruct (scan_spec f (fastAccess m)) as (H1 & H2 & H3).
  assert (forall e, f e = true <-> inUse e = true /\ ekey e = k) as Hf.
  { intros e. unfold f. rewrite andb_true_iff, bool_decide_eq_true. done. }
  unfold finished. rewrite Nat.eqb_eq, Nat.eqb_neq. split.
  - rewrite list_elem_of_fmap. split.
    + intros Hend ([k' v] & -> & (it & e & Hit & Hu & [= <- <-])%elem_of_entries).
      pose proof (H1 it e Hit) as Hno. apply lookup_lt_Some in Hit.
      rewrite (proj2 (Hf e)) in Hno by done. discriminate Hno. lia.
    + intros Hno. destruct H2 as [?|(e & He & [Hu <-]%Hf)]; [done|]. destruct Hno.
      exists (ekey e, evalue e). split; [done|]. apply elem_of_entries. by exists (scan f (fastAccess m)), e.
  - intros Hend. destruct H2 as [?|(e & He & [Hu <-]%Hf)]; [done|].
    exists (evalue e), e. done.
Qed.

(** [insert] uses a free entry or a new one; the value left in a reused entry stays. *)
Lemma insert_spec m k :
  wf m ->
  exists m' it v pre post, insert m k = Some (m', it) /\ wf m' /\ at_entry m' it (k, v) /\
    entries m = pre ++ post /\ entries m' = pre ++ (k, v) :: post.
Proof.
  unfold insert, wf, entries. intros Hwf.
  set (l := if fastAccessUsedSize m =? length (fastAccess m) then prealloc :: fastAccess m
            else fastAccess m).
  assert (entries_of l = entries_of (fastAccess m)) as El.
  { unfold l. by destruct (_ =? _). }
  destruct (scan_spec (fun e => negb (inUse e)) l) as (H1 & H2 & H3).
  assert (exists e, l !! scan (fun e => negb (inUse e)) l = Some e /\ inUse e = false) as (e & He & Hu).
  { destruct H2 as [H2|(e & He & Hu)]; [exfalso|exists e; by rewrite negb_true_iff in Hu].
    assert (forall e, e ∈ l -> inUse e = true) as Hall.
    { intros e (j & Hj)%list_elem_of_lookup. apply negb_false_iff. eapply H1; [done|].
      rewrite H2. by eapply lookup_lt_Some. }
    unfold l in Hall. destruct (Nat.eqb_spec (fastAccessUsedSize m) (length (fastAccess m))) as [E|E].
    - specialize (Hall prealloc ltac:(left)). done.
    - destruct E. rewrite Hwf. clear -Hall. induction (fastAccess m) as [|e l' IH]; [done|].
      simpl. rewrite (Hall e) by set_solver. simpl. f_equal. apply IH. set_solver. }
  set (it := scan _ l) in *. rewrite He. cbn [mbind option_bind].
  rewrite invariant_bind by by rewrite Hu.
  destruct (entries_insert l it e {| e with inUse := true; ekey := k |} He) as [E1 E2].
  rewrite Hu in E1. simpl in E1, E2. rewrite El in E1.
  eexists _, it, (evalue e), _, _. split; [done|]. simpl. rewrite E2. split_and!.
  - rewrite Hwf, E1, !length_app. simpl. lia.
  - eexists. simpl. rewrite list_lookup_insert_eq by by eapply lookup_lt_Some. done.
  - done.
  - done.
Qed.

(** [insert] slot by slot: [s] slots are put in front, and one free slot is taken. *)
Lemma insert_slots m k m' it :
  insert m k = Some (m', it) ->
  exists l e s, l = replicate s prealloc ++ fastAccess m /\ l !! it = Some e /\ inUse e = false /\
    fastAccess m' = <[it := {| e with inUse := true; ekey := k |}]> l.
Proof.
  unfold insert. set (l := if _ =? _ then _ else _). intros Hi.
  apply bind_Some_inv in Hi as (e & He & Hi). apply bind_Some_inv in Hi as ([] & Hu & Hi).
  apply invariant_Some, negb_true_iff in Hu. injection Hi as <- <-. exists l, e.
  exists (if fastAccessUsedSize m =? length (fastAccess m) then 1 else 0).
  split_and!; [|done..]. unfold l. by destruct (_ =? _).
Qed.

Lemma next_spec m it :
  it < length (fastAccess m) ->
  exists it', next m it = Some it' /\ it < it' /\ it' <= length (fastAccess m) /\
    (forall j e, it < j < it' -> fastAccess m !! j = Some e -> inUse e = false) /\
    (finished m it' = false -> exists kv, at_entry m it' kv).
Proof.
  intros Hlt. unfold next. rewrite invariant_bind.
  2: { unfold finished. rewrite (proj2 (Nat.eqb_neq _ _)) by lia. done. }
  unfold scan_from. destruct (scan_spec inUse (drop (S it) (fastAccess m))) as (H1 & H2 & H3).
  rewrite length_drop in *. eexists. split; [done|]. split_and!; [lia|lia| |].
  - intros j e Hj He. apply (H1 (j - S it)); [|lia]. rewrite lookup_drop.
    by replace (S it + (j - S it)) with j by lia.
  - unfold finished. rewrite Nat.eqb_neq. intros Hend. destruct H2 as [?|(e & He & Hu)]; [lia|].
    exists (ekey e, evalue e), e. rewrite lookup_drop in He. done.
Qed.

Lemma remove_spec m it k v :
  wf m -> at_entry m it (k, v) ->
  exists m' it' pre post, remove m it = Some (m', it') /\ wf m' /\
    entries m = pre ++ (k, v) :: post /\ entries m' = pre ++ post /\
    next m it = Some it' /\
    (forall it0 kv, it0 <> it -> at_entry m' it0 kv <-> at_entry m it0 kv).
Proof.
  intros Hwf (e & He & Hu & [= <- <-]). unfold remove, wf, entries in *.
  rewrite invariant_bind by by rewrite (finished_false m it e).
  rewrite He. cbn [mbind option_bind]. rewrite invariant_bind by done.
  destruct (entries_insert (fastAccess m) it e {| e with inUse := false |} He) as [E1 E2].
  rewrite Hu in E1. simpl in E1, E2.
  assert (next m it = next (mkFastMapNoAlloc (<[it:={| e with inUse := false |}]> (fastAccess m))
    (pred (fastAccessUsedSize m))) it) as En.
  { unfold next, finished, scan_from. simpl. rewrite length_insert.
    do 3 f_equal. by rewrite drop_insert_lt by lia. }
  destruct (next_spec m it) as (it' & Hn & _); [by eapply lookup_lt_Some|].
  rewrite <- En, Hn. cbn [mbind option_bind]. eexists _, it', _, _. split; [done|].
  simpl. rewrite E2. split_and!; try done.
  - rewrite Hwf, E1, !length_app. simpl. lia.
  - intros it0 kv Hne. unfold at_entry. simpl. by rewrite list_lookup_insert_ne.
Qed.

(** ** Iteration *)

(** The loop [for (it = begin(); !it.finished(); it.next())], collecting the entries. *)
Fixpoint iterate (fuel : nat) (m : FastMapNoAlloc) (it : Iterator) : option (list (K * V)) :=
  match fuel with
  | 0 => None
  | S fuel =>
      if finished m it then Some []
      else k ← key m it; v ← objAddr m it; it ← next m it; l ← iterate fuel m it;
           Some ((k, v) :: l)
  end.

Lemma entries_skip l n :
  (forall j e, j < n -> l !! j = Some e -> inUse e = false) -> entries_of l = entries_of (drop n l).
Proof.
  revert n. induction l as [|e l IH]; intros [|n] Hl; try done. simpl.
  rewrite (Hl 0 e) by (done || lia). apply IH. intros j e' Hj He. apply (Hl (S j)); [lia|done].
Qed.

Lemma iterate_from fuel : forall m it,
  length (fastAccess m) < it + fuel -> it <= length (fastAccess m) ->
  (finished m it = false -> exists kv, at_entry m it kv) ->
  iterate fuel m it = Some (entries_of (drop it (fastAccess m))).
Proof.
  induction fuel as [|fuel IH]; intros m it Hfuel Hle Hat; [lia|]. cbn [iterate].
  destruct (finished m it) eqn:Hfin.
  { apply Nat.eqb_eq in Hfin. by rewrite Hfin, drop_all. }
  destruct (Hat eq_refl) as (kv & e & He & Hu & Hkv). unfold key, objAddr.
  rewrite Hfin, He. cbn [negb invariant mbind option_bind fmap option_fmap option_map].
  destruct (next_spec m it) as (it' & -> & Hlt & Hle' & Hskip & Hat'); [by eapply lookup_lt_Some|].
  cbn [mbind option_bind]. rewrite IH by (done || lia). cbn [mbind option_bind]. f_equal.
  rewrite (drop_S _ e it He). simpl. rewrite Hu. f_equal.
  rewrite (entries_skip (drop (S it) (fastAccess m)) (it' - S it)).
  - rewrite drop_drop. do 2 f_equal. lia.
  - intros j e' Hj. rewrite lookup_drop. intros He'. apply (Hskip (S it + j)); [lia|done].
Qed.

Lemma begin_spec m :
  begin m <= length (fastAccess m) /\ entries m = entries_of (drop (begin m) (fastAccess m)) /\
  (finished m (begin m) = false -> exists kv, at_entry m (begin m) kv).
Proof.
  unfold begin, scan_from, finished. rewrite drop_0, Nat.add_0_l.
  destruct (scan_spec inUse (fastAccess m)) as (H1 & H2 & H3). split_and!; [done| |].
  - apply entries_skip. intros j e Hj He. by eapply H1.
  - rewrite Nat.eqb_neq. intros Hend. destruct H2 as [?|(e & He & Hu)]; [done|].
    by exists (ekey e, evalue e), e.
Qed.

(** The iteration loop over a [FastMapNoAlloc] terminates within one turn per slot and
    visits exactly the entries in use, each once; [size] is their number and [empty] tells
    whether there are none. *)
Theorem FastMap_iteration_complete m fuel :
  wf m -> length (fastAccess m) < fuel ->
  iterate fuel m (begin m) = Some (entries m) /\ size m = length (entries m) /\
  (empty m = true <-> entries m = []).
Proof.
  intros Hwf Hfuel. destruct (begin_spec m) as (Hle & -> & Hat). split_and!.
  - apply iterate_from; [lia|done|done].
  - unfold size. rewrite Hwf. by destruct (begin_spec m) as (_ & -> & _).
  - unfold empty. rewrite Nat.eqb_eq, Hwf. destruct (begin_spec m) as (_ & -> & _).
    apply length_zero_iff_nil.
Qed.
End FastMap.

Arguments FastMapNoAlloc : clear implicits.
Arguments PreallocEntry : clear implicits.

(** ** The finite map *)

Section map.
Context {K V : Type} `{Countable K, Inhabited K, Inhabited V}.

Definition to_map (m : FastMapNoAlloc K V) : gmap K V := list_to_map (entries m).

(** A well-formed map with one entry per key. *)
Definition map_ok (m : FastMapNoAlloc K V) : Prop := wf m /\ NoDup (entries m).*1.

Lemma list_to_map_insert_middle (pre post : list (K * V)) k v :
  NoDup (pre ++ (k, v) :: post).*1 ->
  list_to_map (M := gmap K V) (pre ++ (k, v) :: post) = <[k := v]> (list_to_map (pre ++ post)).
Proof.
  intros Hnd. transitivity (list_to_map (M := gmap K V) ((k, v) :: pre ++ post)); [|done].
  apply list_to_map_proper; [done|]. by rewrite Permutation_middle.
Qed.

(** As long as a key is inserted only when it is absent, [FastMapNoAlloc] is a finite
    map: [find] finds exactly the keys of the map and its value, [insert] adds a binding
    whose value is whatever its slot held before, and [remove] deletes the binding. *)
Theorem FastMap_refines_map m k :
  map_ok m ->
  (finished m (find m k) = true <-> to_map m !! k = None) /\
  (finished m (find m k) = false ->
     exists v, at_entry m (find m k) (k, v) /\ to_map m !! k = Some v) /\
  (to_map m !! k = None ->
     exists m' it v, insert m k = Some (m', it) /\ map_ok m' /\ at_entry m' it (k, v) /\
       to_map m' = <[k := v]> (to_map m)) /\
  (forall it v, at_entry m it (k, v) ->
     exists m' it', remove m it = Some (m', it') /\ map_ok m' /\
       to_map m !! k = Some v /\ to_map m' = delete k (to_map m)).
Proof.
  intros [Hwf Hnd]. destruct (find_spec m k) as [Hf1 Hf2]. unfold to_map. split_and!.
  - by rewrite Hf1, not_elem_of_list_to_map.
  - intros Hfin. destruct (Hf2 Hfin) as [v Hv]. exists v. split; [done|].
    apply elem_of_list_to_map; [done|]. apply elem_of_entries. by exists (find m k).
  - intros Hk%not_elem_of_list_to_map.
    destruct (insert_spec m k Hwf) as (m' & it & v & pre & post & Hrun & Hwf' & Hat & E1 & E2).
    exists m', it, v. assert (NoDup (entries m').*1) as Hnd'.
    { rewrite E2, fmap_app, fmap_cons. simpl. rewrite <- Permutation_middle.
      apply NoDup_cons. rewrite <- fmap_app, <- E1. done. }
    split_and!; try done. rewrite E1, E2 in *. by apply list_to_map_insert_middle.
  - intros it v Hat.
    destruct (remove_spec m it k v Hwf Hat) as (m' & it' & pre & post & Hrun & Hwf' & E1 & E2 & _).
    exists m', it'. pose proof Hnd as Hnd'. rewrite E1, fmap_app, fmap_cons in Hnd'. simpl in Hnd'.
    rewrite <- Permutation_middle, <- fmap_app, <- E2 in Hnd'. apply NoDup_cons in Hnd' as [Hk Hnd'].
    assert (list_to_map (M := gmap K V) (entries m) = <[k := v]> (list_to_map (entries m'))) as Em.
    { rewrite E1, E2 in *. by apply list_to_map_insert_middle. }
    rewrite Em. split_and!; [done|done|by rewrite lookup_insert_eq|].
    rewrite delete_insert_id by by apply not_elem_of_list_to_map. done.
Qed.
End map.

(** A map with one free slot and the key 7. *)
Definition demo_fastmap : FastMapNoAlloc Z nat :=
  mkFastMapNoAlloc [mkPreallocEntry false 5%Z 50; mkPreallocEntry true 7%Z 70] 1.

Lemma FastMap_iteration_complete_witness :
  iterate 3 demo_fastmap (begin demo_fastmap) = Some [(7%Z, 70)].
Proof.
  apply (FastMap_iteration_complete demo_fastmap 3); [reflexivity|simpl; lia].
Defined.

Lemma FastMap_refines_map_witness :
  exists m' it v, insert demo_fastmap 9%Z = Some (m', it) /\
    to_map m' = <[9%Z := v]> (to_map demo_fastmap).
Proof.
  destruct (FastMap_refines_map demo_fastmap 9%Z) as (_ & _ & Hins & _).
  - split; [reflexivity|by apply NoDup_singleton].
  - destruct Hins as (m' & it & v & Hrun & _ & _ & Hm); [by vm_compute|].
    exists m', it, v. split; assumption.
Defined.
