(* ===== verification/LockHeadInv.v ===== *)
(** * The invariant of a lock head and its preservation

    [wf_head] is the well-formedness invariant of [LockHead] (bookkeeping in step with
    the queues, granted modes pairwise compatible); [settled] adds what
    [_onLockModeChanged] re-establishes: nobody waits for a free lock and every
    pending conversion is blocked by another holder.  The lemmas of this file show
    that no [invariant(...)] of the modelled routines fires on a well-formed head and
    that the routines keep it well formed. *)

From Stdlib Require Import ZArith Lia.
From stdpp Require Import prelude gmap functions finite.
From S2P Require Import Prelude LockDefs LockHead.

Open Scope Z_scope.

(** ** Masks of counts *)

Definition mask_of (c : LockMode -> nat) : Z :=
  foldr (fun m acc => if (0 <? c m)%nat then Z.lor (modeMask m) acc else acc) 0
    (enum LockMode).

Lemma mask_of_testbit c m : Z.testbit (mask_of c) (mode_index m) = (0 <? c m)%nat.
Proof.
  unfold mask_of; simpl.
  destruct m; destruct (0 <? c MODE_NONE)%nat, (0 <? c MODE_IS)%nat, (0 <? c MODE_IX)%nat,
    (0 <? c MODE_S)%nat, (0 <? c MODE_X)%nat; reflexivity.
Qed.

Lemma mask_of_ext c c' :
  (forall m, (0 <? c m)%nat = (0 <? c' m)%nat) -> mask_of c = mask_of c'.
Proof. intros He. unfold mask_of; simpl. by rewrite !He. Qed.

Lemma mask_of_zero c : mask_of c = 0 <-> forall m, c m = 0%nat.
Proof.
  split.
  - intros Hz m. pose proof (mask_of_testbit c m) as Hb. rewrite Hz, Z.bits_0 in Hb.
    symmetry in Hb. bprop. lia.
  - intros Hz. rewrite (mask_of_ext c (fun _ => 0%nat)); [done|]. intros m. by rewrite Hz.
Qed.

Lemma mask_of_add c m :
  c m = 0%nat ->
  Z.land (mask_of c) (modeMask m) = 0 /\
  Z.lor (mask_of c) (modeMask m) = mask_of (<[m := 1%nat]> c).
Proof.
  intros Hz. unfold mask_of; simpl.
  destruct m; rewrite ?fn_lookup_insert, ?fn_lookup_insert_ne, ?Hz by done;
  destruct (0 <? c MODE_NONE)%nat, (0 <? c MODE_IS)%nat, (0 <? c MODE_IX)%nat,
    (0 <? c MODE_S)%nat, (0 <? c MODE_X)%nat; done.
Qed.

Lemma mask_of_sub c m :
  (0 < c m)%nat ->
  Z.land (mask_of c) (modeMask m) = modeMask m /\
  Z.land (mask_of c) (Z.lnot (modeMask m)) = mask_of (<[m := 0%nat]> c).
Proof.
  intros Hz%Nat.ltb_lt. unfold mask_of; simpl.
  destruct m; rewrite ?fn_lookup_insert, ?fn_lookup_insert_ne, ?Hz by done;
  destruct (0 <? c MODE_NONE)%nat, (0 <? c MODE_IS)%nat, (0 <? c MODE_IX)%nat,
    (0 <? c MODE_S)%nat, (0 <? c MODE_X)%nat; done.
Qed.

Lemma conflicts_mask_of m c :
  conflicts m (mask_of c) = true <-> exists m', (0 < c m')%nat /\ mode_conflict m m' = true.
Proof.
  rewrite conflicts_spec. setoid_rewrite mask_of_testbit.
  by setoid_rewrite Nat.ltb_lt.
Qed.

(** ** The mode-count operations on in-step counters *)

Definition set_gcounts (c : LockMode -> nat) (h : LockHead) : LockHead :=
  {| h with lh_grantedCounts := c; lh_grantedModes := mask_of c |}.

Definition set_ccounts (c : LockMode -> nat) (h : LockHead) : LockHead :=
  {| h with lh_conflictCounts := c; lh_conflictModes := mask_of c |}.

Lemma mask_of_inc c m : c m <> 0%nat -> mask_of (<[m := S (c m)]> c) = mask_of c.
Proof.
  intros Hz. apply mask_of_ext. intros m'. destruct (decide (m = m')) as [->|].
  - rewrite fn_lookup_insert. by destruct (c m').
  - by rewrite fn_lookup_insert_ne.
Qed.

Lemma mask_of_dec c m : (1 < c m)%nat -> mask_of (<[m := pred (c m)]> c) = mask_of c.
Proof.
  intros Hz. apply mask_of_ext. intros m'. destruct (decide (m = m')) as [->|].
  - rewrite fn_lookup_insert. destruct (c m') as [|[]]; simpl; lia || done.
  - by rewrite fn_lookup_insert_ne.
Qed.

Lemma incGrantedModeCount_eq h m :
  lh_grantedModes h = mask_of (lh_grantedCounts h) ->
  incGrantedModeCount h m =
    Some (set_gcounts (<[m := S (lh_grantedCounts h m)]> (lh_grantedCounts h)) h).
Proof.
  intros Hm. unfold incGrantedModeCount, set_gcounts. simpl.
  destruct (lh_grantedCounts h m) as [|n] eqn:Hc; simpl.
  - destruct (mask_of_add (lh_grantedCounts h) m Hc) as [Hz Ho].
    by rewrite Hm, Hz, Ho.
  - rewrite <- Hc, mask_of_inc by congruence. by rewrite <- Hm.
Qed.

Lemma decGrantedModeCount_eq h m :
  lh_grantedModes h = mask_of (lh_grantedCounts h) ->
  (1 <= lh_grantedCounts h m)%nat ->
  decGrantedModeCount h m =
    Some (set_gcounts (<[m := pred (lh_grantedCounts h m)]> (lh_grantedCounts h)) h).
Proof.
  intros Hm Hc. unfold decGrantedModeCount, set_gcounts.
  rewrite invariant_bind by by apply Nat.leb_le. simpl.
  destruct (lh_grantedCounts h m) as [|[|n]] eqn:Hn; simpl; [lia| |].
  - destruct (mask_of_sub (lh_grantedCounts h) m) as [Hz Ho]; [lia|].
    rewrite Hm, Hz, Ho. simpl. by rewrite Z.eqb_refl.
  - pose proof (mask_of_dec (lh_grantedCounts h) m) as Hd. rewrite Hn in Hd. simpl in Hd.
    rewrite Hd by lia. by rewrite <- Hm.
Qed.

Lemma incConflictModeCount_eq h m :
  lh_conflictModes h = mask_of (lh_conflictCounts h) ->
  incConflictModeCount h m =
    Some (set_ccounts (<[m := S (lh_conflictCounts h m)]> (lh_conflictCounts h)) h).
Proof.
  intros Hm. unfold incConflictModeCount, set_ccounts. simpl.
  destruct (lh_conflictCounts h m) as [|n] eqn:Hc; simpl.
  - destruct (mask_of_add (lh_conflictCounts h) m Hc) as [Hz Ho].
    by rewrite Hm, Hz, Ho.
  - rewrite <- Hc, mask_of_inc by congruence. by rewrite <- Hm.
Qed.

Lemma decConflictModeCount_eq h m :
  lh_conflictModes h = mask_of (lh_conflictCounts h) ->
  (1 <= lh_conflictCounts h m)%nat ->
  decConflictModeCount h m =
    Some (set_ccounts (<[m := pred (lh_conflictCounts h m)]> (lh_conflictCounts h)) h).
Proof.
  intros Hm Hc. unfold decConflictModeCount, set_ccounts.
  rewrite invariant_bind by by apply Nat.leb_le. simpl.
  destruct (lh_conflictCounts h m) as [|[|n]] eqn:Hn; simpl; [lia| |].
  - destruct (mask_of_sub (lh_conflictCounts h) m) as [Hz Ho]; [lia|].
    rewrite Hm, Hz, Ho. simpl. by rewrite Z.eqb_refl.
  - pose proof (mask_of_dec (lh_conflictCounts h) m) as Hd. rewrite Hn in Hd. simpl in Hd.
    rewrite Hd by lia. by rewrite <- Hm.
Qed.

(** ** The invariant *)

(** What a request on the granted list contributes to [grantedCounts]: its mode, and
    the mode it converts to while it is converting. *)
Definition granted_weight (m : LockMode) (q : LockRequest) : nat :=
  (if decide (rq_mode q = m) then 1 else 0) +
  (if decide (rq_convertMode q = m /\ m <> MODE_NONE) then 1 else 0).

Definition mode_weight (m : LockMode) (q : LockRequest) : nat :=
  if decide (rq_mode q = m) then 1 else 0.

Definition conversion_weight (q : LockRequest) : nat :=
  if decide (rq_status q = STATUS_CONVERTING) then 1 else 0.

Definition compatible_weight (q : LockRequest) : nat :=
  if rq_compatibleFirst q then 1 else 0.

(** A request on the granted list. *)
Definition holding (res : ResourceId) (q : LockRequest) : Prop :=
  rq_lock q = Some res /\ rq_partitionedLock q = None /\ rq_mode q <> MODE_NONE /\
  (0 < rq_recursiveCount q)%nat /\
  ((rq_status q = STATUS_GRANTED /\ rq_convertMode q = MODE_NONE) \/
   (rq_status q = STATUS_CONVERTING /\ rq_convertMode q <> MODE_NONE /\
    rq_convertMode q <> rq_mode q /\
    isModeCovered (rq_mode q) (rq_convertMode q) = true /\ (2 <= rq_recursiveCount q)%nat)).

(** A request on the conflict list. *)
Definition waiting (res : ResourceId) (q : LockRequest) : Prop :=
  rq_lock q = Some res /\ rq_partitionedLock q = None /\ rq_mode q <> MODE_NONE /\
  rq_recursiveCount q = 1%nat /\ rq_status q = STATUS_WAITING /\
  rq_convertMode q = MODE_NONE /\ rq_partitioned q = false.

Record wf_head (R : requests) (h : LockHead) : Prop := mk_wf_head {
  wf_nodup : NoDup (lh_grantedList h ++ lh_conflictList h);
  wf_holding : forall r, r ∈ lh_grantedList h ->
    exists q, R !! r = Some q /\ holding (lh_resourceId h) q;
  wf_waiting : forall r, r ∈ lh_conflictList h ->
    exists q, R !! r = Some q /\ waiting (lh_resourceId h) q;
  wf_gcounts : forall m, lh_grantedCounts h m = tally (granted_weight m) R (lh_grantedList h);
  wf_gmodes : lh_grantedModes h = mask_of (lh_grantedCounts h);
  wf_ccounts : forall m, lh_conflictCounts h m = tally (mode_weight m) R (lh_conflictList h);
  wf_cmodes : lh_conflictModes h = mask_of (lh_conflictCounts h);
  wf_conversions : lh_conversionsCount h = tally conversion_weight R (lh_grantedList h);
  wf_compatibleFirst :
    lh_compatibleFirstCount h = tally compatible_weight R (lh_grantedList h);
  wf_compatible : forall r1 r2 q1 q2,
    r1 ∈ lh_grantedList h -> r2 ∈ lh_grantedList h -> r1 <> r2 ->
    R !! r1 = Some q1 -> R !! r2 = Some q2 ->
    mode_conflict (rq_mode q1) (rq_mode q2) = false;
  wf_partitions : lh_partitions h <> [] ->
    Z.land (lh_grantedModes h) (Z.lnot intentModes) = 0 /\ lh_conflictModes h = 0;
}.

(** A converting request is blocked by what another holder has or waits for. *)
Definition conversion_blocked (R : requests) (l : list ReqPtr) (r : ReqPtr) (q : LockRequest)
    : Prop :=
  exists r' q', r' ∈ l /\ r' <> r /\ R !! r' = Some q' /\
    (mode_conflict (rq_convertMode q) (rq_mode q') = true \/
     mode_conflict (rq_convertMode q) (rq_convertMode q') = true).

Definition conversions_blocked (R : requests) (h : LockHead) : Prop :=
  forall r q, r ∈ lh_grantedList h -> R !! r = Some q -> rq_status q = STATUS_CONVERTING ->
    conversion_blocked R (lh_grantedList h) r q.

Definition waiters_have_holder (h : LockHead) : Prop :=
  lh_conflictList h <> [] -> lh_grantedList h <> [].

Record settled (R : requests) (h : LockHead) : Prop := mk_settled {
  settled_conversions : conversions_blocked R h;
  settled_waiters : waiters_have_holder h;
}.

(** The waiter at the front of the queue is really blocked. *)
Definition front_blocked (R : requests) (h : LockHead) : Prop :=
  forall r q, head (lh_conflictList h) = Some r -> R !! r = Some q ->
    conflicts (rq_mode q) (lh_grantedModes h) = true.

Definition members (h : LockHead) : list ReqPtr := lh_grantedList h ++ lh_conflictList h.

(** ** Consequences of the invariant *)

Section head_facts.
Context {R : requests} {h : LockHead} (Hwf : wf_head R h).

Lemma wf_nodup_granted : NoDup (lh_grantedList h).
Proof. pose proof (wf_nodup _ _ Hwf) as H. by apply NoDup_app in H as (? & _). Qed.

Lemma wf_nodup_conflict : NoDup (lh_conflictList h).
Proof. pose proof (wf_nodup _ _ Hwf) as H. by apply NoDup_app in H as (_ & _ & ?). Qed.

Lemma wf_disjoint r : r ∈ lh_grantedList h -> r ∈ lh_conflictList h -> False.
Proof.
  pose proof (wf_nodup _ _ Hwf) as H. apply NoDup_app in H as (_ & Hd & _).
  intros ??. by eapply Hd.
Qed.

Lemma wf_granted_none : lh_grantedCounts h MODE_NONE = 0%nat.
Proof.
  rewrite (wf_gcounts _ _ Hwf). apply tally_zero. intros r q Hin Hq.
  destruct (wf_holding _ _ Hwf r Hin) as (q' & Hq' & Hh). simplify_eq.
  destruct Hh as (_ & _ & Hm & _). unfold granted_weight.
  repeat case_decide; naive_solver.
Qed.

(** The mask has the modes of the granted list, held or waited for. *)
Lemma granted_conflicts_spec m :
  conflicts m (lh_grantedModes h) = true <->
  exists r q, r ∈ lh_grantedList h /\ R !! r = Some q /\
    (mode_conflict m (rq_mode q) = true \/ mode_conflict m (rq_convertMode q) = true).
Proof.
  rewrite (wf_gmodes _ _ Hwf), conflicts_mask_of. setoid_rewrite (wf_gcounts _ _ Hwf).
  setoid_rewrite tally_pos. unfold granted_weight. split.
  - intros (m' & (r & q & Hin & Hq & Hw) & Hm). exists r, q. split_and!; [done..|].
    repeat case_decide; [naive_solver..|lia].
  - intros (r & q & Hin & Hq & [Hm|Hm]).
    + exists (rq_mode q). split; [|done]. exists r, q. split_and!; [done..|].
      rewrite decide_True by done. lia.
    + exists (rq_convertMode q). split; [|done]. exists r, q. split_and!; [done..|].
      rewrite (decide_True (P := rq_convertMode q = rq_convertMode q /\ _)); [lia|].
      split; [done|]. intros He. rewrite He in Hm. by destruct m.
Qed.

Lemma waiting_conflicts_spec m :
  conflicts m (lh_conflictModes h) = true <->
  exists r q, r ∈ lh_conflictList h /\ R !! r = Some q /\ mode_conflict m (rq_mode q) = true.
Proof.
  rewrite (wf_cmodes _ _ Hwf), conflicts_mask_of. setoid_rewrite (wf_ccounts _ _ Hwf).
  setoid_rewrite tally_pos. unfold mode_weight. split.
  - intros (m' & (r & q & Hin & Hq & Hw) & Hm). exists r, q. split_and!; [done..|].
    case_decide; [naive_solver|lia].
  - intros (r & q & Hin & Hq & Hm). exists (rq_mode q). split; [|done].
    exists r, q. split_and!; [done..|]. rewrite decide_True by done. lia.
Qed.

Lemma grantedModes_zero : lh_grantedModes h = 0 <-> lh_grantedList h = [].
Proof.
  rewrite (wf_gmodes _ _ Hwf), mask_of_zero. split.
  - intros Hz. destruct (lh_grantedList h) as [|r l] eqn:Hl; [done|exfalso].
    destruct (wf_holding _ _ Hwf r) as (q & Hq & _); [rewrite Hl; set_solver|].
    pose proof (Hz (rq_mode q)) as Hzm. rewrite (wf_gcounts _ _ Hwf) in Hzm.
    assert (0 < tally (granted_weight (rq_mode q)) R (lh_grantedList h))%nat; [|lia].
    apply tally_pos. exists r, q. split_and!; [rewrite Hl; set_solver|done|].
    unfold granted_weight. rewrite decide_True by done. lia.
  - intros Hl m. by rewrite (wf_gcounts _ _ Hwf), Hl.
Qed.

Lemma conflictModes_zero : lh_conflictModes h = 0 <-> lh_conflictList h = [].
Proof.
  rewrite (wf_cmodes _ _ Hwf), mask_of_zero. split.
  - intros Hz. destruct (lh_conflictList h) as [|r l] eqn:Hl; [done|exfalso].
    destruct (wf_waiting _ _ Hwf r) as (q & Hq & _); [rewrite Hl; set_solver|].
    pose proof (Hz (rq_mode q)) as Hzm. rewrite (wf_ccounts _ _ Hwf) in Hzm.
    assert (0 < tally (mode_weight (rq_mode q)) R (lh_conflictList h))%nat; [|lia].
    apply tally_pos. exists r, q. split_and!; [rewrite Hl; set_solver|done|].
    unfold mode_weight. rewrite decide_True by done. lia.
  - intros Hl m. by rewrite (wf_ccounts _ _ Hwf), Hl.
Qed.

End head_facts.

Lemma wf_head_frame R R' h :
  (forall r, r ∈ members h -> R' !! r = R !! r) -> wf_head R h -> wf_head R' h.
Proof.
  unfold members. intros Hf Hwf.
  assert (forall r, r ∈ lh_grantedList h -> R' !! r = R !! r) as Hg by set_solver.
  assert (forall r, r ∈ lh_conflictList h -> R' !! r = R !! r) as Hc by set_solver.
  destruct Hwf. split; try assumption.
  - intros r Hr. rewrite Hg by done. eauto.
  - intros r Hr. rewrite Hc by done. eauto.
  - intros m. rewrite (tally_frame _ R); eauto.
  - intros m. rewrite (tally_frame _ R); eauto.
  - rewrite (tally_frame _ R); eauto.
  - rewrite (tally_frame _ R); eauto.
  - intros r1 r2 q1 q2 ???. rewrite !Hg by done. eauto.
Qed.

Lemma settled_frame R R' h :
  (forall r, r ∈ members h -> R' !! r = R !! r) -> settled R h -> settled R' h.
Proof.
  unfold members. intros Hf [Hc Hw]. split; [|done].
  assert (forall r, r ∈ lh_grantedList h -> R' !! r = R !! r) as Hg by set_solver.
  intros r q Hr. rewrite Hg by done. intros Hq Hs.
  destruct (Hc r q Hr Hq Hs) as (r' & q' & Hr' & Hne & Hq' & Hm).
  exists r', q'. rewrite Hg by done. done.
Qed.

Lemma wf_head_initNew R resId : wf_head R (LockHead_initNew resId).
Proof. split; simpl; try done; try set_solver. apply NoDup_nil_2. Qed.

(** ** Elementary updates of a well-formed head *)

Lemma mask_of_intent c :
  Z.land (mask_of c) (Z.lnot intentModes) = 0 <->
  c MODE_NONE = 0%nat /\ c MODE_S = 0%nat /\ c MODE_X = 0%nat.
Proof.
  assert (forall n, n = 0%nat <-> (0 <? n)%nat = false) as Hz by (intros []; done).
  rewrite !Hz. unfold mask_of; simpl.
  destruct (0 <? c MODE_NONE)%nat, (0 <? c MODE_IS)%nat, (0 <? c MODE_IX)%nat,
    (0 <? c MODE_S)%nat, (0 <? c MODE_X)%nat; split; intros; naive_solver.
Qed.

Lemma mask_of_intent_mono c c' :
  (forall m, (0 < c' m)%nat -> (0 < c m)%nat) ->
  Z.land (mask_of c) (Z.lnot intentModes) = 0 ->
  Z.land (mask_of c') (Z.lnot intentModes) = 0.
Proof.
  rewrite !mask_of_intent. intros Hle (H1 & H2 & H3).
  pose proof (Hle MODE_NONE); pose proof (Hle MODE_S); pose proof (Hle MODE_X). lia.
Qed.

(** Append a granted request. *)
Definition push_granted (r : ReqPtr) (q : LockRequest) (h : LockHead) : LockHead :=
  let c := <[rq_mode q := S (lh_grantedCounts h (rq_mode q))]> (lh_grantedCounts h) in
  let h1 := set_gcounts c h in
  {| h1
     with lh_grantedList := lh_grantedList h ++ [r];
          lh_compatibleFirstCount := (lh_compatibleFirstCount h + compatible_weight q)%nat |}.

(** Take a waiting request off the conflict list. *)
Definition drop_waiter (r : ReqPtr) (q : LockRequest) (h : LockHead) : LockHead :=
  let c := <[rq_mode q := pred (lh_conflictCounts h (rq_mode q))]> (lh_conflictCounts h) in
  let h1 := set_ccounts c h in
  {| h1
     with lh_conflictList := remove_request r (lh_conflictList h) |}.

(** Take a granted request off the granted list. *)
Definition drop_granted (r : ReqPtr) (q : LockRequest) (h : LockHead) : LockHead :=
  let c := <[rq_mode q := pred (lh_grantedCounts h (rq_mode q))]> (lh_grantedCounts h) in
  let h1 := set_gcounts c h in
  {| h1
     with lh_grantedList := remove_request r (lh_grantedList h);
          lh_compatibleFirstCount := (lh_compatibleFirstCount h - compatible_weight q)%nat |}.

Lemma elem_of_remove_request r x l : x ∈ remove_request r l <-> x <> r /\ x ∈ l.
Proof. unfold remove_request. by rewrite list_elem_of_filter. Qed.

Lemma remove_request_notin r l : r ∉ l -> remove_request r l = l.
Proof. intros Hr. apply filter_all. set_solver. Qed.

Lemma granted_weight_plain m q :
  rq_convertMode q = MODE_NONE -> granted_weight m q = mode_weight m q.
Proof.
  intros Hc. unfold granted_weight, mode_weight.
  rewrite (decide_False (P := rq_convertMode q = m /\ _)) by naive_solver. lia.
Qed.

Lemma insert_count_weight (c : LockMode -> nat) q m :
  (<[rq_mode q := S (c (rq_mode q))]> c) m = (c m + mode_weight m q)%nat.
Proof.
  unfold mode_weight. case_decide as Hd.
  - subst m. rewrite fn_lookup_insert. lia.
  - rewrite fn_lookup_insert_ne by done. lia.
Qed.

Lemma remove_count_weight (c : LockMode -> nat) q m :
  (<[rq_mode q := pred (c (rq_mode q))]> c) m = (c m - mode_weight m q)%nat.
Proof.
  unfold mode_weight. case_decide as Hd.
  - subst m. rewrite fn_lookup_insert. lia.
  - rewrite fn_lookup_insert_ne by done. lia.
Qed.

Lemma tally_push w (R : requests) l r q :
  r ∉ l -> tally w (<[r := q]> R) (l ++ [r]) = (tally w R l + w q)%nat.
Proof.
  intros Hr. rewrite tally_app, tally_insert_notin by done. f_equal.
  rewrite tally_cons, tally_nil. unfold weight_at. rewrite lookup_insert_eq. simpl. lia.
Qed.

Lemma wf_push_granted R h r q :
  wf_head R h -> r ∉ members h -> holding (lh_resourceId h) q ->
  rq_status q = STATUS_GRANTED -> conflicts (rq_mode q) (lh_grantedModes h) = false ->
  (lh_partitions h <> [] -> rq_mode q = MODE_IS \/ rq_mode q = MODE_IX) ->
  wf_head (<[r := q]> R) (push_granted r q h).
Proof.
  unfold members. intros Hwf Hr Hh Hs Hc Hp.
  assert (r ∉ lh_grantedList h) as Hrg by set_solver.
  assert (r ∉ lh_conflictList h) as Hrc by set_solver.
  assert (rq_convertMode q = MODE_NONE) as Hcm.
  { destruct Hh as (_ & _ & _ & _ & [[_ ?]|[? _]]); [done|congruence]. }
  assert (forall r' q', r' ∈ lh_grantedList h -> R !! r' = Some q' ->
            mode_conflict (rq_mode q) (rq_mode q') = false) as Hcompat.
  { intros r' q' Hr' Hq'. apply not_true_iff_false. intros Hm.
    apply not_true_iff_false in Hc. apply Hc, (granted_conflicts_spec Hwf). naive_solver. }
  unfold push_granted. split; simpl.
  - pose proof (wf_nodup _ _ Hwf) as (Hg & Hd & Hcl)%NoDup_app.
    apply NoDup_app; split_and!; [|set_solver|done].
    apply NoDup_app; split_and!; [done|set_solver|apply NoDup_singleton].
  - intros r' [Hr'| ->%list_elem_of_singleton]%elem_of_app.
    + rewrite lookup_insert_ne by set_solver. by apply (wf_holding _ _ Hwf).
    + exists q. by rewrite lookup_insert_eq.
  - intros r' Hr'. rewrite lookup_insert_ne by set_solver. by apply (wf_waiting _ _ Hwf).
  - intros m. rewrite tally_push, insert_count_weight, granted_weight_plain by done.
    f_equal. apply (wf_gcounts _ _ Hwf).
  - done.
  - intros m. rewrite tally_insert_notin by done. apply (wf_ccounts _ _ Hwf).
  - apply (wf_cmodes _ _ Hwf).
  - rewrite tally_push by done. rewrite (wf_conversions _ _ Hwf).
    unfold conversion_weight at 3. rewrite Hs. simpl. lia.
  - rewrite tally_push by done. by rewrite (wf_compatibleFirst _ _ Hwf).
  - intros r1 r2 q1 q2 H1 H2 Hne [[<- <-]|[? E1]]%lookup_insert_Some
      [[<- <-]|[? E2]]%lookup_insert_Some.
    + done.
    + apply (Hcompat r2); set_solver.
    + rewrite mode_conflict_sym. apply (Hcompat r1); set_solver.
    + apply (wf_compatible _ _ Hwf r1 r2); set_solver.
  - intros Hne. destruct (wf_partitions _ _ Hwf Hne) as [Hi Hz]. split; [|done].
    rewrite (wf_gmodes _ _ Hwf) in Hi. apply mask_of_intent in Hi as (H1 & H2 & H3).
    apply mask_of_intent. rewrite !insert_count_weight, H1, H2, H3. unfold mode_weight.
    destruct (Hp Hne) as [-> | ->]; done.
Qed.

Lemma wf_drop_waiter R h r q :
  wf_head R h -> r ∈ lh_conflictList h -> R !! r = Some q ->
  wf_head R (drop_waiter r q h) /\ (r ∉ members (drop_waiter r q h)) /\
  (1 <= lh_conflictCounts h (rq_mode q))%nat.
Proof.
  intros Hwf Hr Hq.
  assert (r ∉ lh_grantedList h) as Hrg by (intros ?; by eapply wf_disjoint).
  assert (forall m, tally (mode_weight m) R (lh_conflictList h) =
            (mode_weight m q + tally (mode_weight m) R (remove_request r (lh_conflictList h)))%nat)
    as Hsplit.
  { intros m. by apply tally_split; [apply (wf_nodup_conflict Hwf)|..]. }
  assert (1 <= lh_conflictCounts h (rq_mode q))%nat as Hpos.
  { rewrite (wf_ccounts _ _ Hwf), Hsplit. unfold mode_weight. rewrite decide_True by done. lia. }
  split_and!; [|unfold members; simpl; rewrite elem_of_app, elem_of_remove_request; naive_solver|done].
  unfold drop_waiter. split; simpl; try done; try by apply Hwf.
  - pose proof (wf_nodup _ _ Hwf) as (Hg & Hd & Hcl)%NoDup_app.
    apply NoDup_app; split_and!; [done| |by apply NoDup_filter].
    intros x Hx. rewrite elem_of_remove_request. naive_solver.
  - intros r' [_ Hr']%elem_of_remove_request. by apply (wf_waiting _ _ Hwf).
  - intros m. rewrite remove_count_weight, (wf_ccounts _ _ Hwf), Hsplit. lia.
  - intros Hne. exfalso. destruct (wf_partitions _ _ Hwf Hne) as [_ Hz].
    apply (conflictModes_zero Hwf) in Hz. rewrite Hz in Hr. set_solver.
Qed.

Lemma wf_drop_granted R h r q :
  wf_head R h -> r ∈ lh_grantedList h -> R !! r = Some q -> rq_status q = STATUS_GRANTED ->
  wf_head R (drop_granted r q h) /\ (r ∉ members (drop_granted r q h)) /\
  (1 <= lh_grantedCounts h (rq_mode q))%nat /\
  (compatible_weight q <= lh_compatibleFirstCount h)%nat.
Proof.
  intros Hwf Hr Hq Hs.
  assert (r ∉ lh_conflictList h) as Hrc by (intros ?; by eapply wf_disjoint).
  destruct (wf_holding _ _ Hwf r Hr) as (q' & Hq' & Hh). simplify_eq.
  assert (rq_convertMode q = MODE_NONE) as Hcm.
  { destruct Hh as (_ & _ & _ & _ & [[_ ?]|[? _]]); [done|congruence]. }
  assert (forall w, tally w R (lh_grantedList h) =
            (w q + tally w R (remove_request r (lh_grantedList h)))%nat) as Hsplit.
  { intros w. by apply tally_split; [apply (wf_nodup_granted Hwf)|..]. }
  assert (1 <= lh_grantedCounts h (rq_mode q))%nat as Hpos.
  { rewrite (wf_gcounts _ _ Hwf), Hsplit, granted_weight_plain by done.
    unfold mode_weight. rewrite decide_True by done. lia. }
  assert (compatible_weight q <= lh_compatibleFirstCount h)%nat as Hcf.
  { rewrite (wf_compatibleFirst _ _ Hwf), Hsplit. lia. }
  split_and!; [|unfold members; simpl; rewrite elem_of_app, elem_of_remove_request; naive_solver
              |done|done].
  unfold drop_granted. split; simpl; try done; try by apply Hwf.
  - pose proof (wf_nodup _ _ Hwf) as (Hg & Hd & Hcl)%NoDup_app.
    apply NoDup_app; split_and!; [by apply NoDup_filter| |done].
    intros x. rewrite elem_of_remove_request. naive_solver.
  - intros r' [_ Hr']%elem_of_remove_request. by apply (wf_holding _ _ Hwf).
  - intros m. rewrite remove_count_weight, (wf_gcounts _ _ Hwf), Hsplit.
    rewrite granted_weight_plain by done. lia.
  - rewrite (wf_conversions _ _ Hwf), Hsplit. unfold conversion_weight at 1. by rewrite Hs.
  - rewrite (wf_compatibleFirst _ _ Hwf), Hsplit. lia.
  - intros r1 r2 q1 q2 [_ H1]%elem_of_remove_request [_ H2]%elem_of_remove_request.
    by apply (wf_compatible _ _ Hwf).
  - intros Hne. destruct (wf_partitions _ _ Hwf Hne) as [Hi Hz]. split; [|done].
    rewrite (wf_gmodes _ _ Hwf) in Hi. eapply mask_of_intent_mono, Hi.
    intros m. rewrite remove_count_weight. lia.
Qed.

(** Put a waiting request at either end of the conflict list. *)
Definition push_waiter (r : ReqPtr) (q : LockRequest) (h : LockHead) : LockHead :=
  let c := <[rq_mode q := S (lh_conflictCounts h (rq_mode q))]> (lh_conflictCounts h) in
  let h1 := set_ccounts c h in
  {| h1 with lh_conflictList := if rq_enqueueAtFront q then r :: lh_conflictList h
                                else lh_conflictList h ++ [r] |}.

Lemma push_waiter_elem r q h x :
  x ∈ lh_conflictList (push_waiter r q h) <-> x = r \/ x ∈ lh_conflictList h.
Proof. simpl. destruct (rq_enqueueAtFront q); set_solver. Qed.

Lemma wf_push_waiter R h r q :
  wf_head R h -> r ∉ members h -> waiting (lh_resourceId h) q -> lh_partitions h = [] ->
  wf_head (<[r := q]> R) (push_waiter r q h).
Proof.
  unfold members. intros Hwf Hr Hw Hp.
  assert (r ∉ lh_grantedList h) as Hrg by set_solver.
  assert (r ∉ lh_conflictList h) as Hrc by set_solver.
  pose proof (wf_nodup _ _ Hwf) as (Hg & Hd & Hcl)%NoDup_app.
  split; simpl; rewrite ?tally_insert_notin by done; try done; try by apply Hwf.
  - apply NoDup_app; split_and!; [done| |].
    + intros x Hx. destruct (rq_enqueueAtFront q); set_solver.
    + destruct (rq_enqueueAtFront q); [by apply NoDup_cons|].
      apply NoDup_app; split_and!; [done|set_solver|apply NoDup_singleton].
  - intros r' Hr'. rewrite lookup_insert_ne by set_solver. by apply (wf_holding _ _ Hwf).
  - intros r' [->|Hr']%(push_waiter_elem r q h).
    + exists q. by rewrite lookup_insert_eq.
    + rewrite lookup_insert_ne by set_solver. by apply (wf_waiting _ _ Hwf).
  - intros m. rewrite tally_insert_notin by done. apply (wf_gcounts _ _ Hwf).
  - intros m. rewrite insert_count_weight, (wf_ccounts _ _ Hwf).
    destruct (rq_enqueueAtFront q); [|by rewrite tally_push].
    rewrite tally_cons, tally_insert_notin by done. unfold weight_at.
    rewrite lookup_insert_eq. simpl. lia.
  - intros r1 r2 q1 q2 H1 H2. rewrite !lookup_insert_ne by set_solver.
    by apply (wf_compatible _ _ Hwf).
Qed.

(** Change a granted request in place, with the counters following. *)
Lemma wf_update R h r q q' c' n' :
  wf_head R h -> r ∈ lh_grantedList h -> R !! r = Some q ->
  holding (lh_resourceId h) q' -> rq_compatibleFirst q' = rq_compatibleFirst q ->
  (forall r' q0, r' ∈ lh_grantedList h -> r' <> r -> R !! r' = Some q0 ->
     mode_conflict (rq_mode q') (rq_mode q0) = false) ->
  (forall m, c' m + granted_weight m q = lh_grantedCounts h m + granted_weight m q')%nat ->
  (n' + conversion_weight q = lh_conversionsCount h + conversion_weight q')%nat ->
  (lh_partitions h <> [] -> Z.land (mask_of c') (Z.lnot intentModes) = 0) ->
  let h1 := set_gcounts c' h in
  wf_head (<[r := q']> R) {| h1 with lh_conversionsCount := n' |}.
Proof.
  intros Hwf Hr Hq Hh Hcf Hcompat Hc Hn Hp h1.
  assert (r ∉ lh_conflictList h) as Hrc by (intros ?; by eapply wf_disjoint).
  assert (forall w, (tally w (<[r := q']> R) (lh_grantedList h) + w q =
            tally w R (lh_grantedList h) + w q')%nat) as Hin.
  { intros w. by apply tally_insert_in; [apply (wf_nodup_granted Hwf)|..]. }
  unfold h1. split; simpl; rewrite ?tally_insert_notin by done; try done; try by apply Hwf.
  - intros r' Hr'. destruct (decide (r' = r)) as [->|Hne].
    + exists q'. by rewrite lookup_insert_eq.
    + rewrite lookup_insert_ne by done. by apply (wf_holding _ _ Hwf).
  - intros r' Hr'. rewrite lookup_insert_ne by set_solver. by apply (wf_waiting _ _ Hwf).
  - intros m. specialize (Hin (granted_weight m)). specialize (Hc m).
    rewrite (wf_gcounts _ _ Hwf) in Hc. lia.
  - intros m. rewrite tally_insert_notin by done. apply (wf_ccounts _ _ Hwf).
  - specialize (Hin conversion_weight). rewrite (wf_conversions _ _ Hwf) in Hn. lia.
  - specialize (Hin compatible_weight). unfold compatible_weight in Hin at 2 4.
    rewrite Hcf in Hin. rewrite (wf_compatibleFirst _ _ Hwf). lia.
  - intros r1 r2 q1 q2 H1 H2 Hne [[<- <-]|[? E1]]%lookup_insert_Some
      [[<- <-]|[? E2]]%lookup_insert_Some.
    + done.
    + eauto.
    + rewrite mode_conflict_sym. eauto.
    + by apply (wf_compatible _ _ Hwf r1 r2).
  - intros Hne. split; [auto|]. by apply (wf_partitions _ _ Hwf).
Qed.

(** ** [newRequest] *)

Definition with_lock (res : ResourceId) (s : Status) (q : LockRequest) : LockRequest :=
  {| q with rq_lock := Some res; rq_status := s |}.

Lemma newRequest_granted R h r q :
  wf_head R h -> R !! r = Some q -> rq_partitionedLock q = None ->
  conflicts (rq_mode q) (lh_grantedModes h) = false ->
  (lh_compatibleFirstCount h = 0%nat -> conflicts (rq_mode q) (lh_conflictModes h) = false) ->
  let q' := with_lock (lh_resourceId h) STATUS_GRANTED q in
  newRequest R h r = Some (<[r := q']> R, push_granted r q' h, LOCK_OK).
Proof.
  intros Hwf Hq Hpl Hc1 Hc2 q'. unfold newRequest. rewrite Hq. simpl.
  rewrite Hpl. simpl. rewrite Hc1. simpl.
  replace ((lh_compatibleFirstCount h =? 0)%nat && conflicts (rq_mode q) (lh_conflictModes h))
    with false.
  2: { destruct (Nat.eqb_spec (lh_compatibleFirstCount h) 0); simpl; [|done].
       symmetry. auto. }
  rewrite incGrantedModeCount_eq by apply (wf_gmodes _ _ Hwf). simpl.
  unfold push_granted, compatible_weight, q', with_lock, set_gcounts. simpl.
  rewrite Hpl. destruct (rq_compatibleFirst q); by rewrite ?Nat.add_1_r, ?Nat.add_0_r.
Qed.

Lemma newRequest_waiting R h r q :
  wf_head R h -> R !! r = Some q -> rq_partitionedLock q = None ->
  conflicts (rq_mode q) (lh_grantedModes h) = true \/
  (lh_compatibleFirstCount h = 0%nat /\ conflicts (rq_mode q) (lh_conflictModes h) = true) ->
  let q' := with_lock (lh_resourceId h) STATUS_WAITING q in
  newRequest R h r = Some (<[r := q']> R, push_waiter r q' h, LOCK_WAITING).
Proof.
  intros Hwf Hq Hpl Hc q'. unfold newRequest. rewrite Hq. simpl. rewrite Hpl. simpl.
  replace (_ || _) with true.
  2: { symmetry. apply orb_true_iff. destruct Hc as [?|[-> ->]]; auto. }
  rewrite incConflictModeCount_eq by apply (wf_cmodes _ _ Hwf).
  unfold q', with_lock. by rewrite Hpl.
Qed.

(** ** The masks without the current request *)

Definition others (c : LockMode -> nat) (mode convertMode m : LockMode) : nat :=
  if decide (m = MODE_NONE) then 0
  else c m - (if decide (mode = m) then 1 else 0) - (if decide (convertMode = m) then 1 else 0).

Definition mask_list (f : LockMode -> bool) (l : list LockMode) : Z :=
  foldr (fun i a => if f i then Z.lor (modeMask i) a else a) 0 l.

Lemma mask_list_step (f : LockMode -> bool) i l acc :
  Z.lor (if f i then Z.lor acc (modeMask i) else acc) (mask_list f l) =
  Z.lor acc (mask_list f (i :: l)).
Proof. simpl. destruct (f i); [|done]. by rewrite Z.lor_assoc. Qed.

Lemma mask_list_others (f : LockMode -> bool) c mode convertMode :
  (forall i, i <> MODE_NONE -> f i = (0 <? others c mode convertMode i)%nat) ->
  mask_list f real_modes = mask_of (others c mode convertMode).
Proof.
  intros Hf. trans (mask_list (fun m => 0 <? others c mode convertMode m)%nat
                      (MODE_NONE :: real_modes)); [|done].
  unfold real_modes, mask_list. cbn [foldr]. by rewrite !Hf.
Qed.

Lemma modesWithoutHolder_eq c mode :
  modesWithoutHolder c mode real_modes 0 = mask_of (others c mode MODE_NONE).
Proof.
  pose (f := fun i => ((if decide (mode = i) then 1 else 0) <? c i)%nat).
  transitivity (mask_list f real_modes).
  - rewrite <- (Z.lor_0_l (mask_list f real_modes)). generalize 0 as acc.
    induction real_modes as [|i l IH]; intros acc; cbn [modesWithoutHolder].
    + cbn. by rewrite Z.lor_0_r.
    + rewrite IH. apply (mask_list_step f).
  - apply mask_list_others. intros i Hi. unfold f, others. rewrite (decide_False (P := i = MODE_NONE)) by done.
    rewrite (decide_False (P := MODE_NONE = i)) by congruence. rewrite Nat.sub_0_r.
    case_decide; destruct (c i) as [|[]]; done.
Qed.

Lemma modesWithoutConverter_eq c mode convertMode :
  mode <> convertMode ->
  modesWithoutConverter c mode convertMode real_modes 0 =
    Some (mask_of (others c mode convertMode)).
Proof.
  intros Hne.
  pose (f := fun i => ((if decide (mode = i) then 1 else 0) +
                       (if decide (convertMode = i) then 1 else 0) <? c i)%nat).
  transitivity (Some (mask_list f real_modes)).
  - rewrite <- (Z.lor_0_l (mask_list f real_modes)). generalize 0 as acc.
    induction real_modes as [|i l IH]; intros acc; cbn [modesWithoutConverter].
    + cbn. by rewrite Z.lor_0_r.
    + rewrite invariant_bind by (repeat case_decide; naive_solver).
      rewrite IH. f_equal. apply (mask_list_step f).
  - f_equal. apply mask_list_others. intros i Hi. unfold f, others.
    rewrite (decide_False (P := i = MODE_NONE)) by done.
    repeat case_decide; destruct (c i) as [|[|[]]]; done.
Qed.

Lemma others_spec R h r q n :
  wf_head R h -> r ∈ lh_grantedList h -> R !! r = Some q ->
  conflicts n (mask_of (others (lh_grantedCounts h) (rq_mode q) (rq_convertMode q))) = true <->
  exists r' q', r' ∈ lh_grantedList h /\ r' <> r /\ R !! r' = Some q' /\
    (mode_conflict n (rq_mode q') = true \/ mode_conflict n (rq_convertMode q') = true).
Proof.
  intros Hwf Hr Hq. rewrite conflicts_mask_of.
  assert (forall m, m <> MODE_NONE ->
    others (lh_grantedCounts h) (rq_mode q) (rq_convertMode q) m =
    tally (granted_weight m) R (remove_request r (lh_grantedList h))) as Ho.
  { intros m Hm. unfold others. rewrite decide_False, (wf_gcounts _ _ Hwf) by done.
    rewrite (tally_split _ R _ r q); [|apply (wf_nodup_granted Hwf)|done..].
    fold (remove_request r (lh_grantedList h)). unfold granted_weight at 1.
    repeat case_decide; try lia; naive_solver. }
  split.
  - intros (m & Hpos & Hm).
    assert (m <> MODE_NONE) as Hnn by (intros ->; by destruct n).
    rewrite Ho in Hpos by done. apply tally_pos in Hpos as (r' & q' & Hr' & Hq' & Hw).
    apply elem_of_remove_request in Hr' as [Hne Hr']. exists r', q'. split_and!; [done..|].
    unfold granted_weight in Hw. repeat case_decide; [naive_solver..|lia].
  - intros (r' & q' & Hr' & Hne & Hq' & Hm).
    assert (exists m, m <> MODE_NONE /\ mode_conflict n m = true /\
              (0 < granted_weight m q')%nat) as (m & Hnn & Hm' & Hw).
    { destruct Hm as [Hm|Hm]; [exists (rq_mode q')|exists (rq_convertMode q')].
      - split_and!; [intros He; rewrite He in Hm; by destruct n|done|].
        unfold granted_weight. rewrite decide_True by done. lia.
      - assert (rq_convertMode q' <> MODE_NONE)
          by (intros He; rewrite He in Hm; by destruct n).
        split_and!; [done..|]. unfold granted_weight.
        rewrite (decide_True (P := rq_convertMode q' = rq_convertMode q' /\ _)) by done. lia. }
    exists m. split; [|done]. rewrite Ho by done. apply tally_pos.
    exists r', q'. by rewrite elem_of_remove_request.
Qed.

(** ** Granting conversions *)

(** What granting does to a request. *)
Definition grant_request (q : LockRequest) : LockRequest :=
  if decide (rq_status q = STATUS_CONVERTING)
  then {| q with rq_status := STATUS_GRANTED; rq_mode := rq_convertMode q;
                 rq_convertMode := MODE_NONE |}
  else {| q with rq_status := STATUS_GRANTED |}.

(** [R'] is [R] with the requests of [ws] granted, and [notes] the notifications
    sent for them. *)
Definition woken (R R' : requests) (ws : list ReqPtr) : Prop :=
  forall r, R' !! r = if decide (r ∈ ws) then grant_request <$> R !! r else R !! r.

Definition notes (R : requests) (res : ResourceId) (ws : list ReqPtr) : list Notification :=
  omap (fun r => (fun q => mkNotification (rq_notify q) res LOCK_OK) <$> R !! r) ws.

Lemma notes_unfold R res r ws :
  notes R res (r :: ws) =
    match R !! r with
    | Some q => mkNotification (rq_notify q) res LOCK_OK :: notes R res ws
    | None => notes R res ws
    end.
Proof. unfold notes. cbn. by destruct (R !! r). Qed.

Lemma woken_nil R : woken R R [].
Proof. intros r. by rewrite decide_False by set_solver. Qed.

Lemma woken_cons R R' r q ws :
  R !! r = Some q -> r ∉ ws -> woken (<[r := grant_request q]> R) R' ws -> woken R R' (r :: ws).
Proof.
  intros Hq Hr Hw r'. rewrite Hw. destruct (decide (r' = r)) as [->|Hne].
  - rewrite decide_False by done. rewrite decide_True by set_solver.
    by rewrite lookup_insert_eq, Hq.
  - rewrite lookup_insert_ne by done.
    destruct (decide (r' ∈ ws)); [rewrite decide_True|rewrite decide_False]; set_solver.
Qed.

Lemma notes_cons R res r q ws :
  R !! r = Some q -> r ∉ ws ->
  notes R res (r :: ws) =
    mkNotification (rq_notify q) res LOCK_OK :: notes (<[r := grant_request q]> R) res ws.
Proof.
  intros Hq Hr. unfold notes. simpl. rewrite Hq. simpl. f_equal.
  induction ws as [|r' ws IH]; [done|]. simpl.
  rewrite lookup_insert_ne by set_solver. rewrite IH by set_solver. done.
Qed.

Lemma conversion_blocked_grant R l r q i qi :
  R !! i = Some qi -> rq_status qi = STATUS_CONVERTING ->
  isModeCovered (rq_mode qi) (rq_convertMode qi) = true ->
  conversion_blocked R l r q -> conversion_blocked (<[i := grant_request qi]> R) l r q.
Proof.
  intros Hi Hs Hc (r' & q' & Hr' & Hne & Hq' & Hm).
  destruct (decide (r' = i)) as [->|Hd].
  - simplify_eq. exists i, (grant_request qi). rewrite lookup_insert_eq.
    split_and!; [done..|]. left. unfold grant_request. rewrite decide_True by done. simpl.
    destruct Hm as [Hm|Hm]; [|done].
    rewrite mode_conflict_sym in Hm |- *. by apply (isModeCovered_spec (rq_mode qi)).
  - exists r', q'. by rewrite lookup_insert_ne.
Qed.

(** The parts of the head the first loop leaves alone. *)
Definition same_queues (h h' : LockHead) : Prop :=
  lh_resourceId h' = lh_resourceId h /\ lh_grantedList h' = lh_grantedList h /\
  lh_conflictList h' = lh_conflictList h /\ lh_conflictCounts h' = lh_conflictCounts h /\
  lh_conflictModes h' = lh_conflictModes h /\ lh_partitions h' = lh_partitions h /\
  lh_compatibleFirstCount h' = lh_compatibleFirstCount h.

Definition finish_conversion (q : LockRequest) (h : LockHead) : LockHead :=
  let h1 := set_gcounts (<[rq_mode q := pred (lh_grantedCounts h (rq_mode q))]>
                           (lh_grantedCounts h)) h in
  {| h1 with lh_conversionsCount := pred (lh_conversionsCount h) |}.

Lemma wf_finish_conversion R h r q :
  wf_head R h -> r ∈ lh_grantedList h -> R !! r = Some q ->
  rq_status q = STATUS_CONVERTING ->
  conflicts (rq_convertMode q)
    (mask_of (others (lh_grantedCounts h) (rq_mode q) (rq_convertMode q))) = false ->
  wf_head (<[r := grant_request q]> R) (finish_conversion q h) /\
  (1 <= lh_grantedCounts h (rq_mode q))%nat.
Proof.
  intros Hwf Hr Hq Hs Hc.
  destruct (wf_holding _ _ Hwf r Hr) as (q0 & Hq0 & Hh). simplify_eq.
  destruct Hh as (Hl & Hpl & Hm & Hrc & [[Hs' _]|(_ & Hcm & Hcne & Hcov & H2)]); [congruence|].
  assert (1 <= lh_grantedCounts h (rq_mode q))%nat as Hpos.
  { rewrite (wf_gcounts _ _ Hwf). apply tally_pos. exists r, q. split_and!; [done..|].
    unfold granted_weight. rewrite decide_True by done. lia. }
  assert (1 <= lh_conversionsCount h)%nat as Hcpos.
  { rewrite (wf_conversions _ _ Hwf). apply tally_pos. exists r, q. split_and!; [done..|].
    unfold conversion_weight. rewrite decide_True by done. lia. }
  assert (grant_request q = {| q with rq_status := STATUS_GRANTED; rq_mode := rq_convertMode q;
                                 rq_convertMode := MODE_NONE |}) as Hgr.
  { unfold grant_request. by rewrite decide_True. }
  split; [|done]. apply (wf_update R h r q); rewrite ?Hgr; try done.
  - split_and!; simpl; try done. by left.
  - intros r' q' Hr' Hne Hq'. apply not_true_iff_false in Hc. simpl.
    apply not_true_iff_false. intros Hm'. apply Hc.
    apply (others_spec R h r q); eauto 10.
  - intros m. rewrite remove_count_weight. unfold mode_weight, granted_weight. simpl.
    destruct (decide (rq_mode q = m)) as [<-|]; repeat case_decide; try lia; naive_solver.
  - unfold conversion_weight. simpl. rewrite decide_True by done. lia.
  - intros Hne. destruct (wf_partitions _ _ Hwf Hne) as [Hi _].
    rewrite (wf_gmodes _ _ Hwf) in Hi. eapply mask_of_intent_mono, Hi.
    intros m. rewrite remove_count_weight. lia.
Qed.

(** What a run of the first loop over [l] gives. *)
Definition conversions_outcome (R : requests) (h : LockHead) (l : list ReqPtr)
    (out : list Notification) (res : option (requests * LockHead * list Notification)) : Prop :=
  exists R' h' ws,
    res = Some (R', h', out ++ notes R (lh_resourceId h) ws) /\
    wf_head R' h' /\ conversions_blocked R' h' /\ woken R R' ws /\ NoDup ws /\
    (forall r, r ∈ ws ->
       r ∈ l /\ exists q, R !! r = Some q /\ rq_status q = STATUS_CONVERTING) /\
    same_queues h h'.

Lemma conversions_outcome_stop R h l out :
  wf_head R h -> conversions_blocked R h -> conversions_outcome R h l out (Some (R, h, out)).
Proof.
  intros Hwf Hcb. exists R, h, []. rewrite app_nil_r.
  split_and!; [done..|apply woken_nil|apply NoDup_nil_2|set_solver|by unfold same_queues].
Qed.

Lemma conversions_outcome_skip R h i l out res :
  conversions_outcome R h l out res -> conversions_outcome R h (i :: l) out res.
Proof.
  intros (R' & h' & ws & ?). exists R', h', ws. destruct_and!.
  split_and!; [done..|set_solver|done].
Qed.

Lemma conversions_outcome_grant R h i q l out res :
  i ∉ l -> R !! i = Some q -> rq_status q = STATUS_CONVERTING ->
  conversions_outcome (<[i := grant_request q]> R) (finish_conversion q h) l
    (out ++ [mkNotification (rq_notify q) (lh_resourceId h) LOCK_OK]) res ->
  conversions_outcome R h (i :: l) out res.
Proof.
  intros Hil Hq Hs (R' & h' & ws & -> & Hwf' & Hcb & Hw & Hndw & Hws & Hsq).
  assert (i ∉ ws) as Hiw by (intros Hin; apply Hws in Hin; set_solver).
  exists R', h', (i :: ws). split_and!; try done.
  - simpl lh_resourceId. rewrite (notes_cons R _ i q) by done. by rewrite <- app_assoc.
  - by eapply woken_cons.
  - by apply NoDup_cons.
  - intros r [->|Hr]%elem_of_cons; [split; [set_solver|eauto]|].
    apply Hws in Hr as (Hr & q' & Hq' & Hs'). split; [set_solver|].
    rewrite lookup_insert_ne in Hq' by set_solver. eauto.
Qed.

Lemma conversions_zero R h :
  wf_head R h -> lh_conversionsCount h = 0%nat -> conversions_blocked R h.
Proof.
  intros Hwf Hz r q Hr Hq Hs. exfalso.
  assert (0 < lh_conversionsCount h)%nat; [|lia].
  rewrite (wf_conversions _ _ Hwf). apply tally_pos. exists r, q. split_and!; [done..|].
  unfold conversion_weight. rewrite decide_True by done. lia.
Qed.

(** The first loop: every converting request of [l] that nobody blocks is granted,
    and afterwards every conversion still pending is blocked. *)
Lemma grantConversions_spec l : forall R h out,
  wf_head R h -> NoDup l -> (forall r, r ∈ l -> r ∈ lh_grantedList h) ->
  (forall r q, r ∈ lh_grantedList h -> r ∉ l -> R !! r = Some q ->
     rq_status q = STATUS_CONVERTING -> conversion_blocked R (lh_grantedList h) r q) ->
  conversions_outcome R h l out (grantConversions l R h out).
Proof.
  induction l as [|i l IH]; intros R h out Hwf Hnd Hsub Hdone; cbn [grantConversions].
  { apply conversions_outcome_stop; [done|]. intros r q Hr Hq Hs. eapply Hdone; set_solver. }
  apply NoDup_cons in Hnd as [Hil Hnd].
  destruct (Nat.ltb_spec 0 (lh_conversionsCount h)) as [Hpos|Hzero]; cycle 1.
  { apply conversions_outcome_stop; [done|]. apply conversions_zero; [done|lia]. }
  destruct (wf_holding _ _ Hwf i) as (q & Hq & Hh); [set_solver|].
  rewrite Hq. cbn [mbind option_bind].
  assert (conversion_blocked R (lh_grantedList h) i q \/ rq_status q <> STATUS_CONVERTING ->
    conversions_outcome R h (i :: l) out (grantConversions l R h out)) as Hskip.
  { intros Hi. apply conversions_outcome_skip, IH; [set_solver..|].
    intros r q' Hr Hrl Hq' Hs'. destruct (decide (r = i)) as [->|Hne].
    - simplify_eq. by destruct Hi.
    - eapply Hdone; set_solver. }
  destruct (decide (rq_status q = STATUS_CONVERTING)) as [Hs|Hs]; [|by apply Hskip; right].
  pose proof Hh as (_ & _ & _ & _ & [[Hs' _]|(_ & Hcm & Hcne & Hcov & _)]); [congruence|].
  rewrite invariant_bind by by apply bool_decide_eq_true.
  rewrite modesWithoutConverter_eq by done. cbn [mbind option_bind].
  destruct (conflicts (rq_convertMode q) _) eqn:Hc; simpl negb; cbv iota.
  { apply Hskip. left. apply (others_spec R h i q) in Hc; [done|done|set_solver|done]. }
  destruct (wf_finish_conversion R h i q) as [Hwf1 Hcnt]; [set_solver..|].
  rewrite decGrantedModeCount_eq; [|apply (wf_gmodes _ _ Hwf)|done]. cbn [mbind option_bind].
  assert ({| q with rq_status := STATUS_GRANTED; rq_mode := rq_convertMode q;
             rq_convertMode := MODE_NONE |} = grant_request q) as ->.
  { unfold grant_request. by rewrite decide_True. }
  change (set_gcounts _ _) with (finish_conversion q h).
  eapply conversions_outcome_grant; [done..|]. apply IH; [done..|intros r Hr; simpl; set_solver|].
  intros r q' Hr Hrl [[<- <-]|[Hne Hq']]%lookup_insert_Some Hs'.
  - exfalso. unfold grant_request in Hs'. rewrite decide_True in Hs' by done. done.
  - simpl in Hr |- *. eapply conversion_blocked_grant; [done..|]. eapply Hdone; set_solver.
Qed.

(** ** Granting waiters *)

Definition admit_waiter (r : ReqPtr) (q : LockRequest) (h : LockHead) : LockHead :=
  push_granted r (grant_request q) (drop_waiter r q h).

Lemma grant_request_waiting q :
  rq_status q = STATUS_WAITING -> grant_request q = {| q with rq_status := STATUS_GRANTED |}.
Proof. intros Hs. unfold grant_request. rewrite decide_False; [done|congruence]. Qed.

Lemma grantWaiters_step R h i q l newly out :
  wf_head R h -> i ∈ lh_conflictList h -> R !! i = Some q ->
  conflicts (rq_mode q) (lh_grantedModes h) = false ->
  exists newly',
  grantWaiters (i :: l) R h newly out =
    let R1 := <[i := grant_request q]> R in
    let h1 := admit_waiter i q h in
    let out1 := out ++ [mkNotification (rq_notify q) (lh_resourceId h) LOCK_OK] in
    if decide (rq_mode q = MODE_X) then Some (R1, h1, out1)
    else grantWaiters l R1 h1 (newly || newly') out1.
Proof.
  intros Hwf Hi Hq Hc.
  destruct (wf_waiting _ _ Hwf i Hi) as (q0 & Hq0 & Hw). simplify_eq.
  destruct Hw as (_ & _ & _ & _ & Hs & _ & _).
  destruct (wf_drop_waiter R h i q Hwf Hi Hq) as (Hwf1 & _ & Hpos).
  exists (rq_compatibleFirst q && (lh_compatibleFirstCount h =? 0)%nat).
  cbn [grantWaiters]. rewrite Hq. cbn [mbind option_bind].
  rewrite invariant_bind by by apply bool_decide_eq_true. rewrite Hc.
  rewrite decConflictModeCount_eq; [|apply (wf_cmodes _ _ Hwf)|done]. cbn [mbind option_bind].
  rewrite incGrantedModeCount_eq by apply (wf_gmodes _ _ Hwf). cbn [mbind option_bind].
  unfold admit_waiter, push_granted, compatible_weight.
  rewrite grant_request_waiting by done. cbn. unfold set_gcounts; cbn.
  destruct (rq_compatibleFirst q); cbn; rewrite ?Nat.add_1_r, ?Nat.add_0_r, ?orb_false_r; done.
Qed.

Lemma wf_admit_waiter R h i q :
  wf_head R h -> i ∈ lh_conflictList h -> R !! i = Some q ->
  conflicts (rq_mode q) (lh_grantedModes h) = false ->
  wf_head (<[i := grant_request q]> R) (admit_waiter i q h).
Proof.
  intros Hwf Hi Hq Hc.
  destruct (wf_waiting _ _ Hwf i Hi) as (q0 & Hq0 & Hw). simplify_eq.
  destruct Hw as (Hl & Hpl & Hm & Hrc & Hs & Hcm & Hp).
  destruct (wf_drop_waiter R h i q Hwf Hi Hq) as (Hwf1 & Hni & _).
  apply wf_push_granted; try done.
  - rewrite grant_request_waiting by done. split_and!; simpl; try done; [lia|by left].
  - by rewrite grant_request_waiting.
  - by rewrite grant_request_waiting.
  - intros Hne. exfalso. destruct (wf_partitions _ _ Hwf Hne) as [_ Hz].
    apply (conflictModes_zero Hwf) in Hz. rewrite Hz in Hi. set_solver.
Qed.

Lemma admit_waiter_conflicts R h i q m :
  wf_head R h -> conflicts m (lh_grantedModes h) = true ->
  conflicts m (lh_grantedModes (admit_waiter i q h)) = true.
Proof.
  intros Hwf. rewrite (wf_gmodes _ _ Hwf). simpl lh_grantedModes. rewrite !conflicts_mask_of.
  intros (m' & Hpos & Hm). exists m'. split; [|done]. simpl. rewrite insert_count_weight. simpl.
  lia.
Qed.

Lemma admit_waiter_conversions R h i q :
  wf_head R h -> i ∈ lh_conflictList h -> R !! i = Some q -> conversions_blocked R h ->
  conversions_blocked (<[i := grant_request q]> R) (admit_waiter i q h).
Proof.
  intros Hwf Hi Hq Hcb r q' Hr Hq' Hs'. simpl in Hr |- *.
  destruct (wf_waiting _ _ Hwf i Hi) as (q0 & Hq0 & Hw). simplify_eq.
  assert (i ∉ lh_grantedList h) as Hni by (intros ?; by eapply wf_disjoint).
  apply lookup_insert_Some in Hq' as [[<- <-]|[Hne Hq']].
  { rewrite grant_request_waiting in Hs' by apply Hw. done. }
  destruct (Hcb r q') as (r' & qb & Hr' & Hne' & Hqb & Hm); [set_solver|done|done|].
  exists r', qb. rewrite lookup_insert_ne by set_solver. split_and!; set_solver.
Qed.

(** What a run of the second loop over [l] gives. *)
Definition waiters_outcome (R : requests) (h : LockHead) (l : list ReqPtr)
    (out : list Notification) (res : option (requests * LockHead * list Notification)) : Prop :=
  exists R' h' ws,
    res = Some (R', h', out ++ notes R (lh_resourceId h) ws) /\
    wf_head R' h' /\ conversions_blocked R' h' /\ front_blocked R' h' /\
    woken R R' ws /\ NoDup ws /\ (forall r, r ∈ ws -> r ∈ l) /\
    lh_grantedList h' = lh_grantedList h ++ ws /\
    (forall r, r ∈ lh_conflictList h' <-> r ∈ lh_conflictList h /\ r ∉ ws) /\
    lh_resourceId h' = lh_resourceId h /\ lh_partitions h' = lh_partitions h.

Lemma waiters_outcome_stop R h l out :
  wf_head R h -> conversions_blocked R h -> front_blocked R h ->
  waiters_outcome R h l out (Some (R, h, out)).
Proof.
  intros Hwf Hcb Hfb. exists R, h, []. rewrite !app_nil_r.
  split_and!; [done..|apply woken_nil|apply NoDup_nil_2|set_solver|done|set_solver|done|done].
Qed.

Lemma waiters_outcome_skip R h i l out res :
  waiters_outcome R h l out res -> waiters_outcome R h (i :: l) out res.
Proof.
  intros (R' & h' & ws & ?). exists R', h', ws. destruct_and!.
  split_and!; [done..|set_solver|done|done|done|done].
Qed.

Lemma waiters_outcome_grant R h i q l out res :
  i ∉ l -> R !! i = Some q ->
  waiters_outcome (<[i := grant_request q]> R) (admit_waiter i q h) l
    (out ++ [mkNotification (rq_notify q) (lh_resourceId h) LOCK_OK]) res ->
  waiters_outcome R h (i :: l) out res.
Proof.
  intros Hil Hq (R' & h' & ws & -> & Hwf & Hcb & Hfb & Hw & Hnd & Hws & Hg & Hc & Hres & Hp).
  assert (i ∉ ws) as Hiw by set_solver.
  exists R', h', (i :: ws). split_and!; try done.
  - simpl lh_resourceId. rewrite (notes_cons R _ i q) by done. by rewrite <- app_assoc.
  - by eapply woken_cons.
  - by apply NoDup_cons.
  - set_solver.
  - rewrite Hg. simpl. by rewrite <- app_assoc.
  - intros r. rewrite Hc. simpl. rewrite elem_of_remove_request. set_solver.
Qed.

Lemma front_blocked_app R h pre l :
  lh_conflictList h = pre ++ l ->
  (forall r q, r ∈ pre -> R !! r = Some q ->
     conflicts (rq_mode q) (lh_grantedModes h) = true) ->
  pre <> [] \/ l = [] -> front_blocked R h.
Proof.
  intros Hl Hpre Hne r q Hh Hq. rewrite Hl in Hh.
  destruct pre as [|r0 pre]; [by destruct Hne as [| ->]|].
  simplify_eq/=. eapply Hpre; set_solver.
Qed.

Lemma front_blocked_X R h i q :
  wf_head R h -> i ∈ lh_grantedList h -> R !! i = Some q -> rq_mode q = MODE_X ->
  front_blocked R h.
Proof.
  intros Hwf Hi Hq Hx r q' Hr Hq'. apply (granted_conflicts_spec Hwf).
  exists i, q. split_and!; [done..|]. left. rewrite Hx.
  apply head_Some_elem_of in Hr.
  destruct (wf_waiting _ _ Hwf r Hr) as (q0 & Hq0 & Hw). simplify_eq.
  destruct Hw as (_ & _ & Hm & _). by destruct (rq_mode q').
Qed.

(** The second loop, started in the middle: the queue is [pre ++ l] with [pre] the
    requests already passed over, all of them blocked. *)
Lemma grantWaiters_spec l : forall pre R h newly out,
  wf_head R h -> conversions_blocked R h -> lh_conflictList h = pre ++ l ->
  (forall r q, r ∈ pre -> R !! r = Some q ->
     conflicts (rq_mode q) (lh_grantedModes h) = true) ->
  (pre <> [] -> newly = true) ->
  waiters_outcome R h l out (grantWaiters l R h newly out).
Proof.
  induction l as [|i l IH]; intros pre R h newly out Hwf Hcb Hl Hpre Hnew.
  { apply waiters_outcome_stop; [done..|]. eapply front_blocked_app; eauto. }
  pose proof (wf_nodup_conflict Hwf) as Hnd. rewrite Hl in Hnd.
  apply NoDup_app in Hnd as (Hnd1 & Hdis & (Hil & Hnd)%NoDup_cons).
  assert (i ∈ lh_conflictList h) as Hi by (rewrite Hl; set_solver).
  assert (i ∉ pre) as Hipre by (intros ?; eapply Hdis; set_solver).
  destruct (wf_waiting _ _ Hwf i Hi) as (q & Hq & Hw).
  destruct (conflicts (rq_mode q) (lh_grantedModes h)) eqn:Hc.
  - cbn [grantWaiters]. rewrite Hq. cbn [mbind option_bind].
    rewrite invariant_bind by (apply bool_decide_eq_true, Hw). rewrite Hc.
    case_if.
    + apply waiters_outcome_stop; [done..|]. bprop. intros r q' Hr Hq'. congruence.
    + apply waiters_outcome_skip, (IH (pre ++ [i])); [done..|by rewrite <- app_assoc| |].
      * intros r q' [Hr| ->%list_elem_of_singleton]%elem_of_app Hq'; [eauto|congruence].
      * intros _. destruct pre as [|p pre]; [|by apply Hnew].
        rewrite Hl in Heqb. simpl in Heqb. rewrite bool_decide_eq_true_2 in Heqb by done.
        by destruct newly.
  - destruct (grantWaiters_step R h i q l newly out) as (newly' & ->); [done..|].
    assert (wf_head (<[i := grant_request q]> R) (admit_waiter i q h)) as Hwf1
      by by apply wf_admit_waiter.
    assert (conversions_blocked (<[i := grant_request q]> R) (admit_waiter i q h)) as Hcb1
      by by apply admit_waiter_conversions.
    cbv zeta. eapply waiters_outcome_grant; [done..|]. case_decide as Hx.
    + apply waiters_outcome_stop; [done..|].
      eapply (front_blocked_X _ _ i); [done| |by rewrite lookup_insert_eq|].
      * simpl. set_solver.
      * by rewrite grant_request_waiting by apply Hw.
    + apply (IH pre); [done..| | |].
      * simpl. rewrite Hl. unfold remove_request. rewrite filter_app, filter_cons_False by naive_solver.
        by rewrite !filter_all by set_solver.
      * intros r q' Hr Hq'. eapply admit_waiter_conflicts; [done|].
        rewrite lookup_insert_ne in Hq' by set_solver. eauto.
      * intros Hne. by rewrite Hnew.
Qed.

(** ** [_onLockModeChanged] *)

(** The result of [_onLockModeChanged] on a well-formed head: the head is well formed
    and settled, the requests in [ws] and only those were granted, each of them was
    pending, and each was notified once. *)
Definition mode_changed_outcome (R : requests) (h : LockHead)
    (res : option (requests * LockHead * list Notification))
    (R' : requests) (h' : LockHead) (ws : list ReqPtr) : Prop :=
  res = Some (R', h', notes R (lh_resourceId h) ws) /\
  wf_head R' h' /\ settled R' h' /\ woken R R' ws /\ NoDup ws /\
  (forall r, r ∈ ws -> exists q, R !! r = Some q /\
     ((r ∈ lh_grantedList h /\ rq_status q = STATUS_CONVERTING) \/
      (r ∈ lh_conflictList h /\ rq_status q = STATUS_WAITING))) /\
  (forall r, r ∈ members h' <-> r ∈ members h) /\
  (forall r, r ∈ lh_conflictList h' <-> r ∈ lh_conflictList h /\ r ∉ ws) /\
  lh_resourceId h' = lh_resourceId h /\ lh_partitions h' = lh_partitions h.

Lemma woken_trans R R1 R2 ws1 ws2 :
  woken R R1 ws1 -> woken R1 R2 ws2 -> (forall r, r ∈ ws1 -> r ∈ ws2 -> False) ->
  woken R R2 (ws1 ++ ws2).
Proof.
  intros H1 H2 Hd r. rewrite H2, H1.
  destruct (decide (r ∈ ws1)), (decide (r ∈ ws2)), (decide (r ∈ ws1 ++ ws2));
    set_solver.
Qed.

Lemma notes_woken R R1 ws1 res ws :
  woken R R1 ws1 -> (forall r, r ∈ ws1 -> r ∈ ws -> False) -> notes R1 res ws = notes R res ws.
Proof.
  intros Hw Hd. induction ws as [|r ws IH]; [done|]. rewrite !notes_unfold.
  rewrite Hw, decide_False, IH by set_solver. done.
Qed.

Lemma notes_app R res ws1 ws2 : notes R res (ws1 ++ ws2) = notes R res ws1 ++ notes R res ws2.
Proof. apply omap_app. Qed.

Lemma onLockModeChanged_checks R h :
  wf_head R h ->
  xorb (lh_grantedModes h =? 0) (negb (bool_decide (lh_grantedList h = []))) = true /\
  xorb (lh_conflictModes h =? 0) (negb (bool_decide (lh_conflictList h = []))) = true.
Proof.
  intros Hwf. pose proof (grantedModes_zero Hwf) as Hg. pose proof (conflictModes_zero Hwf) as Hc.
  rewrite <- Z.eqb_eq in Hg, Hc. split.
  - destruct (lh_grantedModes h =? 0), (bool_decide_reflect (lh_grantedList h = [])); naive_solver.
  - destruct (lh_conflictModes h =? 0), (bool_decide_reflect (lh_conflictList h = [])); naive_solver.
Qed.

Lemma front_blocked_holder R h :
  wf_head R h -> front_blocked R h -> waiters_have_holder h.
Proof.
  intros Hwf Hfb Hne Hg. destruct (lh_conflictList h) as [|r l] eqn:Hl; [done|].
  destruct (wf_waiting _ _ Hwf r) as (q & Hq & _); [rewrite Hl; set_solver|].
  assert (conflicts (rq_mode q) (lh_grantedModes h) = true) as Hc
    by (apply (Hfb r); [by rewrite Hl|done]).
  apply (grantedModes_zero Hwf) in Hg. rewrite Hg in Hc. by destruct (rq_mode q).
Qed.

(** The second half of [_onLockModeChanged], from a head whose conversions are settled. *)
Lemma waiters_phase R h check out :
  wf_head R h -> conversions_blocked R h -> (check = false -> waiters_have_holder h) ->
  exists R' h' ws,
    (if check then grantWaiters (lh_conflictList h) R h false out else Some (R, h, out)) =
      Some (R', h', out ++ notes R (lh_resourceId h) ws) /\
    wf_head R' h' /\ settled R' h' /\ (check = true -> front_blocked R' h') /\
    woken R R' ws /\ NoDup ws /\ (forall r, r ∈ ws -> r ∈ lh_conflictList h) /\
    lh_grantedList h' = lh_grantedList h ++ ws /\
    (forall r, r ∈ lh_conflictList h' <-> r ∈ lh_conflictList h /\ r ∉ ws) /\
    lh_resourceId h' = lh_resourceId h /\ lh_partitions h' = lh_partitions h.
Proof.
  intros Hwf Hcb Hh. destruct check.
  - destruct (grantWaiters_spec (lh_conflictList h) [] R h false out)
      as (R' & h' & ws & Heq & Hwf' & Hcb' & Hfb & ?); [done|done|done|set_solver|done|].
    exists R', h', ws. destruct_and!. split_and!; try done.
    split; [done|by eapply front_blocked_holder].
  - exists R, h, []. rewrite !app_nil_r. split_and!;
      [done..|split; auto|done|apply woken_nil|apply NoDup_nil_2|set_solver|done|set_solver|done|done].
Qed.

Lemma onLockModeChanged_spec R h check :
  wf_head R h -> (check = false -> waiters_have_holder h) ->
  exists R' h' ws, mode_changed_outcome R h (onLockModeChanged R h check) R' h' ws /\
    (check = true -> front_blocked R' h').
Proof.
  intros Hwf Hh. unfold onLockModeChanged.
  destruct (grantConversions_spec (lh_grantedList h) R h [])
    as (R1 & h1 & ws1 & -> & Hwf1 & Hcb1 & Hw1 & Hnd1 & Hws1 & Hsq);
    [done|apply (wf_nodup_granted Hwf)|done|done|].
  destruct Hsq as (Hres & Hg & Hc & _ & _ & Hp & _). cbn [mbind option_bind].
  destruct (waiters_phase R1 h1 check ([] ++ notes R (lh_resourceId h) ws1))
    as (R2 & h2 & ws2 & -> & Hwf2 & Hst2 & Hfb & Hw2 & Hnd2 & Hws2 & Hg2 & Hc2 & Hres2 & Hp2);
    [done|done|unfold waiters_have_holder; by rewrite Hc, Hg|].
  cbn [mbind option_bind]. destruct (onLockModeChanged_checks R2 h2 Hwf2) as [-> ->].
  assert (forall r, r ∈ ws1 -> r ∈ ws2 -> False) as Hdis.
  { intros r H1 H2. apply Hws1 in H1 as [H1 _]. apply Hws2 in H2.
    rewrite Hc in H2. by eapply (wf_disjoint Hwf). }
  exists R2, h2, (ws1 ++ ws2). split; [|done]. unfold mode_changed_outcome, members.
  rewrite Hc in Hws2, Hc2. rewrite Hg in Hg2. split_and!; try done.
  - cbn. rewrite notes_app, Hres. by erewrite (notes_woken R R1).
  - by eapply woken_trans.
  - apply NoDup_app. naive_solver.
  - intros r [Hr|Hr]%elem_of_app.
    + apply Hws1 in Hr as (Hr & q & Hq & Hs). eauto.
    + pose proof (wf_waiting _ _ Hwf r (Hws2 r Hr)) as (q & Hq & Hw).
      exists q. split; [done|]. right. split; [by apply Hws2|apply Hw].
  - intros r. rewrite Hg2, !elem_of_app, Hc2.
    destruct (decide (r ∈ ws2)) as [Hr|Hr]; [|naive_solver]. specialize (Hws2 r Hr). naive_solver.
  - intros r. rewrite Hc2, elem_of_app. split; [|naive_solver].
    intros [Hr Hn]. split; [done|]. intros [H1|H1]; [|done].
    apply Hws1 in H1 as [H1 _]. by eapply (wf_disjoint Hwf).
  - congruence.
  - congruence.
Qed.
