(* ===== verification/LockManager.v ===== *)
(** * The lock manager

    Models [class LockManager] of [db/concurrency/lock_manager.h] and
    [lock_manager.cpp]: the bucketed table of lock heads, the partitions of intent
    locks, and the operations [lock], [convert], [unlock], [downgrade] and
    [cleanupUnusedLocks].

    Each bucket and each partition has a mutex.  [lock] runs two critical sections, one
    under the partition mutex and one under the bucket mutex; they are two
    definitions, so that a step of another thread may come between them. *)

From Stdlib Require Import ZArith Lia.
From stdpp Require Import prelude gmap functions finite.
From S2P Require Import Prelude LockDefs LockHead.

Open Scope Z_scope.

(** ** State *)

(** A [PartitionedLockHead] is its granted list. *)
Record PartitionedLockHead := mkPartitionedLockHead {
  plh_grantedList : list ReqPtr;
}.

Abbreviation Buckets := (gmap Z (gmap Z LockHead)) (only parsing).
Abbreviation Partitions := (gmap Z (gmap Z PartitionedLockHead)) (only parsing).

(** [_lockBuckets] and [_partitions] are arrays of maps; an index with no entry holds
    the empty map.  [lm_notified] records the calls of [LockGrantNotification::notify],
    oldest first. *)
Record LockManager := mkLockManager {
  lm_requests : requests;
  lm_lockBuckets : Buckets;
  lm_partitions : Partitions;
  lm_notified : list Notification;
}.

Definition numLockBuckets : Z := 128.
Definition numPartitions : Z := 32.

Definition LockManager_new : LockManager := mkLockManager ∅ ∅ ∅ [].

Definition getBucket (resId : ResourceId) : Z := resId mod numLockBuckets.

Definition getPartition (q : LockRequest) : PartitionId := rq_locker q mod numPartitions.

(** Lookup, insertion and removal in an array of maps. *)
Definition find2 {V} (m : gmap Z (gmap Z V)) (i k : Z) : option V :=
  match m !! i with Some d => d !! k | None => None end.

Definition put2 {V} (m : gmap Z (gmap Z V)) (i k : Z) (v : V) : gmap Z (gmap Z V) :=
  <[i := <[k := v]> (default ∅ (m !! i))]> m.

Definition erase2 {V} (m : gmap Z (gmap Z V)) (i k : Z) : gmap Z (gmap Z V) :=
  <[i := delete k (default ∅ (m !! i))]> m.

Definition find_head (B : Buckets) (resId : ResourceId) : option LockHead :=
  find2 B (getBucket resId) resId.

Definition put_head (B : Buckets) (resId : ResourceId) (h : LockHead) : Buckets :=
  put2 B (getBucket resId) resId h.

(** [LockBucket::findOrInsert] and [Partition::findOrInsert]: the head found, or a new
    one (which the callers store back together with their change to it). *)
Definition bucket_findOrInsert (B : Buckets) (resId : ResourceId) : LockHead :=
  default (LockHead_initNew resId) (find_head B resId).

Definition partition_findOrInsert (P : Partitions) (p : PartitionId) (resId : ResourceId)
    : PartitionedLockHead :=
  default (mkPartitionedLockHead []) (find2 P p resId).

(** [PartitionedLockHead::newRequest]; [p] and [resId] name the head. *)
Definition plh_newRequest (R : requests) (p : PartitionId) (resId : ResourceId)
    (l : PartitionedLockHead) (request : ReqPtr) : option (requests * PartitionedLockHead) :=
  q ← R !! request;
  invariant (rq_partitioned q);;
  invariant (bool_decide (rq_lock q = None));;
  let q := {| q with rq_partitionedLock := Some (p, resId); rq_status := STATUS_GRANTED |} in
  Some (<[request := q]> R, mkPartitionedLockHead (plh_grantedList l ++ [request])).

(** ** Migration of partitioned lock heads *)

(** The inner loop: move the requests of one partitioned head to the lock head. *)
Fixpoint migrate_requests (l : list ReqPtr) (R : requests) (h : LockHead)
    : option (requests * LockHead) :=
  match l with
  | [] => Some (R, h)
  | request :: rest =>
      q ← R !! request;
      let R := <[request := {| q with rq_partitionedLock := None |}]> R in
      '(R, h, res) ← newRequest R h request;
      invariant (bool_decide (res = LOCK_OK));;
      migrate_requests rest R h
  end.

(** The outer loop takes the partitions from the back of the vector; [back_first] is the
    vector reversed. *)
Fixpoint migrate_partitions (back_first : list PartitionId) (R : requests) (P : Partitions)
    (h : LockHead) : option (requests * Partitions * LockHead) :=
  match back_first with
  | [] => Some (R, P, h)
  | p :: rest =>
      '(R, P, h) ←
        match find2 P p (lh_resourceId h) with
        | Some l =>
            '(R, h) ← migrate_requests (plh_grantedList l) R h;
            Some (R, erase2 P p (lh_resourceId h), h)
        | None => Some (R, P, h)
        end;
      migrate_partitions rest R P {| h with lh_partitions := reverse rest |}
  end.

Definition migratePartitionedLockHeads (R : requests) (P : Partitions) (h : LockHead)
    : option (requests * Partitions * LockHead) :=
  invariant (LockHead_partitioned h);;
  invariant ((Z.land (lh_grantedModes h) (Z.lnot intentModes) =? 0) &&
             (lh_conflictModes h =? 0));;
  migrate_partitions (reverse (lh_partitions h)) R P h.

(** The guard the callers put in front of it. *)
Definition migrate_if_partitioned (R : requests) (P : Partitions) (h : LockHead)
    : option (requests * Partitions * LockHead) :=
  if LockHead_partitioned h then migratePartitionedLockHeads R P h else Some (R, P, h).

(** ** [LockManager::lock] *)

(** The checks and the request set-up before any mutex is taken. *)
Definition lock_prepare (st : LockManager) (request : ReqPtr) (mode : LockMode)
    : option LockManager :=
  q ← lm_requests st !! request;
  invariant (bool_decide (rq_status q = STATUS_NEW));;
  invariant (rq_recursiveCount q =? 1)%nat;;
  let q := {| q with rq_partitioned := bool_decide (mode = MODE_IX) || bool_decide (mode = MODE_IS);
                     rq_mode := mode |} in
  Some {| st with lm_requests := <[request := q]> (lm_requests st) |}.

(** The section under the partition mutex.  [Some None]: there was no partitioned head. *)
Definition lock_partition_section (st : LockManager) (resId : ResourceId) (request : ReqPtr)
    : option (option LockManager) :=
  q ← lm_requests st !! request;
  let p := getPartition q in
  match find2 (lm_partitions st) p resId with
  | Some l =>
      '(R, l) ← plh_newRequest (lm_requests st) p resId l request;
      Some (Some {| st with lm_requests := R;
                            lm_partitions := put2 (lm_partitions st) p resId l |})
  | None => Some None
  end.

(** The section under the bucket mutex. *)
Definition lock_bucket_section (st : LockManager) (resId : ResourceId) (request : ReqPtr)
    : option (LockManager * LockResult) :=
  q ← lm_requests st !! request;
  let h := bucket_findOrInsert (lm_lockBuckets st) resId in
  if rq_partitioned q && (Z.land (lh_grantedModes h) (Z.lnot intentModes) =? 0) &&
     (lh_conflictModes h =? 0)
  then
    let p := getPartition q in
    let l := partition_findOrInsert (lm_partitions st) p resId in
    let h := {| h with lh_partitions := lh_partitions h ++ [p] |} in
    '(R, l) ← plh_newRequest (lm_requests st) p resId l request;
    Some ({| st with lm_requests := R;
                     lm_lockBuckets := put_head (lm_lockBuckets st) resId h;
                     lm_partitions := put2 (lm_partitions st) p resId l |}, LOCK_OK)
  else
    '(R, P, h) ← migrate_if_partitioned (lm_requests st) (lm_partitions st) h;
    q ← R !! request;
    let R := <[request := {| q with rq_partitioned := false |}]> R in
    '(R, h, res) ← newRequest R h request;
    Some ({| st with lm_requests := R;
                     lm_lockBuckets := put_head (lm_lockBuckets st) resId h;
                     lm_partitions := P |}, res).

Definition lock (st : LockManager) (resId : ResourceId) (request : ReqPtr) (mode : LockMode)
    : option (LockManager * LockResult) :=
  st ← lock_prepare st request mode;
  q ← lm_requests st !! request;
  fast ← (if rq_partitioned q then lock_partition_section st resId request else Some None);
  match fast with
  | Some st => Some (st, LOCK_OK)
  | None => lock_bucket_section st resId request
  end.

(** ** [LockManager::convert] *)

Definition convert (st : LockManager) (resId : ResourceId) (request : ReqPtr)
    (newMode : LockMode) : option (LockManager * LockResult) :=
  q ← lm_requests st !! request;
  invariant (bool_decide (rq_status q = STATUS_GRANTED));;
  invariant (0 <? rq_recursiveCount q)%nat;;
  let R := <[request := {| q with rq_recursiveCount := S (rq_recursiveCount q) |}]>
             (lm_requests st) in
  if Z.lor (LockConflictsTable (rq_mode q)) (LockConflictsTable newMode)
       =? LockConflictsTable (rq_mode q)
  then Some ({| st with lm_requests := R |}, LOCK_OK)
  else
    invariant (Z.lor (LockConflictsTable (rq_mode q)) (LockConflictsTable newMode)
                 =? LockConflictsTable newMode);;
    h ← find_head (lm_lockBuckets st) resId;
    '(R, P, h) ← migrate_if_partitioned R (lm_partitions st) h;
    q ← R !! request;
    let mask := modesWithoutHolder (lh_grantedCounts h) (rq_mode q) real_modes 0 in
    if conflicts newMode mask then
      let q := {| q with rq_status := STATUS_CONVERTING; rq_convertMode := newMode |} in
      let h := {| h with lh_conversionsCount := S (lh_conversionsCount h) |} in
      h ← incGrantedModeCount h (rq_convertMode q);
      Some ({| st with lm_requests := <[request := q]> R;
                       lm_lockBuckets := put_head (lm_lockBuckets st) resId h;
                       lm_partitions := P |}, LOCK_WAITING)
    else
      h ← incGrantedModeCount h newMode;
      h ← decGrantedModeCount h (rq_mode q);
      let q := {| q with rq_mode := newMode |} in
      Some ({| st with lm_requests := <[request := q]> R;
                       lm_lockBuckets := put_head (lm_lockBuckets st) resId h;
                       lm_partitions := P |}, LOCK_OK).

(** ** [LockManager::unlock] *)

(** The part of [unlock] under the bucket mutex; [q] is the request with its reference
    count already decremented. *)
Definition unlock_bucket_section (st : LockManager) (request : ReqPtr) (q : LockRequest)
    : option (LockManager * bool) :=
  resId ← rq_lock q;
  h ← find_head (lm_lockBuckets st) resId;
  '(R, h, out) ←
    match rq_status q with
    | STATUS_GRANTED =>
        let h := {| h with lh_grantedList := remove_request request (lh_grantedList h) |} in
        h ← decGrantedModeCount h (rq_mode q);
        h ← (if rq_compatibleFirst q then
               invariant (0 <? lh_compatibleFirstCount h)%nat;;
               let h := {| h with lh_compatibleFirstCount := pred (lh_compatibleFirstCount h) |} in
               invariant ((lh_compatibleFirstCount h =? 0)%nat ||
                          negb (bool_decide (lh_grantedList h = [])));;
               Some h
             else Some h);
        onLockModeChanged (<[request := q]> (lm_requests st)) h
          (lh_grantedCounts h (rq_mode q) =? 0)%nat
    | STATUS_WAITING =>
        invariant (rq_recursiveCount q =? 0)%nat;;
        let h := {| h with lh_conflictList := remove_request request (lh_conflictList h) |} in
        h ← decConflictModeCount h (rq_mode q);
        onLockModeChanged (<[request := q]> (lm_requests st)) h true
    | STATUS_CONVERTING =>
        invariant (0 <? rq_recursiveCount q)%nat;;
        invariant (0 <? lh_conversionsCount h)%nat;;
        let h := {| h with lh_conversionsCount := pred (lh_conversionsCount h) |} in
        h ← decGrantedModeCount h (rq_convertMode q);
        let q := {| q with rq_status := STATUS_GRANTED; rq_convertMode := MODE_NONE |} in
        onLockModeChanged (<[request := q]> (lm_requests st)) h
          (lh_grantedCounts h (rq_convertMode q) =? 0)%nat
    | STATUS_NEW => MONGO_UNREACHABLE
    end;
  Some ({| st with lm_requests := R;
                   lm_lockBuckets := put_head (lm_lockBuckets st) resId h;
                   lm_notified := lm_notified st ++ out |},
        (rq_recursiveCount q =? 0)%nat).

Definition unlock (st : LockManager) (request : ReqPtr) : option (LockManager * bool) :=
  q ← lm_requests st !! request;
  invariant (0 <? rq_recursiveCount q)%nat;;
  let q := {| q with rq_recursiveCount := pred (rq_recursiveCount q) |} in
  let R := <[request := q]> (lm_requests st) in
  if bool_decide (rq_status q = STATUS_GRANTED) && (0 <? rq_recursiveCount q)%nat
  then Some ({| st with lm_requests := R |}, false)
  else
    fast ←
      (if rq_partitioned q then
         invariant (bool_decide (rq_status q = STATUS_GRANTED) ||
                    bool_decide (rq_status q = STATUS_CONVERTING));;
         match rq_partitionedLock q with
         | Some (p, resId) =>
             l ← find2 (lm_partitions st) p resId;
             let l := mkPartitionedLockHead (remove_request request (plh_grantedList l)) in
             Some (Some {| st with lm_requests := R;
                                   lm_partitions := put2 (lm_partitions st) p resId l |})
         | None => Some None
         end
       else Some None);
    match fast with
    | Some st => Some (st, true)
    | None =>
        invariant (bool_decide (rq_lock q <> None));;
        unlock_bucket_section st request q
    end.

(** ** [LockManager::downgrade] *)

Definition downgrade (st : LockManager) (request : ReqPtr) (newMode : LockMode)
    : option LockManager :=
  q ← lm_requests st !! request;
  invariant (bool_decide (rq_lock q <> None));;
  invariant (bool_decide (rq_status q = STATUS_GRANTED));;
  invariant (0 <? rq_recursiveCount q)%nat;;
  invariant (Z.lor (LockConflictsTable (rq_mode q)) (LockConflictsTable newMode)
               =? LockConflictsTable (rq_mode q));;
  resId ← rq_lock q;
  h ← find_head (lm_lockBuckets st) resId;
  h ← incGrantedModeCount h newMode;
  h ← decGrantedModeCount h (rq_mode q);
  let q := {| q with rq_mode := newMode |} in
  '(R, h, out) ← onLockModeChanged (<[request := q]> (lm_requests st)) h true;
  Some {| st with lm_requests := R;
                  lm_lockBuckets := put_head (lm_lockBuckets st) resId h;
                  lm_notified := lm_notified st ++ out |}.

(** ** [LockManager::cleanupUnusedLocks] *)

(** The iteration of [_cleanupUnusedLocksInBucket] for the head of [resId]. *)
Definition cleanup_head (st : LockManager) (resId : ResourceId) : option LockManager :=
  h ← find_head (lm_lockBuckets st) resId;
  '(R, P, h) ← migrate_if_partitioned (lm_requests st) (lm_partitions st) h;
  if lh_grantedModes h =? 0 then
    invariant (lh_grantedModes h =? 0);;
    invariant (bool_decide (lh_grantedList h = []));;
    invariant (lh_conflictModes h =? 0);;
    invariant (bool_decide (lh_conflictList h = []));;
    invariant (lh_conversionsCount h =? 0)%nat;;
    invariant (lh_compatibleFirstCount h =? 0)%nat;;
    Some {| st with lm_requests := R;
                    lm_lockBuckets := erase2 (lm_lockBuckets st) (getBucket resId) resId;
                    lm_partitions := P |}
  else
    Some {| st with lm_requests := R;
                    lm_lockBuckets := put_head (lm_lockBuckets st) resId h;
                    lm_partitions := P |}.

Fixpoint cleanup_heads (st : LockManager) (l : list ResourceId) : option LockManager :=
  match l with
  | [] => Some st
  | resId :: rest => st ← cleanup_head st resId; cleanup_heads st rest
  end.

Definition cleanupUnusedLocksInBucket (st : LockManager) (i : Z) : option LockManager :=
  cleanup_heads st (fst <$> map_to_list (default ∅ (lm_lockBuckets st !! i))).

Fixpoint cleanup_buckets (st : LockManager) (l : list Z) : option LockManager :=
  match l with
  | [] => Some st
  | i :: rest => st ← cleanupUnusedLocksInBucket st i; cleanup_buckets st rest
  end.

Definition cleanupUnusedLocks (st : LockManager) : option LockManager :=
  cleanup_buckets st (seqZ 0 numLockBuckets).
