(* ===== verification/LockManagerInv.v ===== *)
(** * The global invariant of the lock manager

    [local_inv] collects what holds of one resource: its lock head is well formed and
    settled, its partitioned heads hold only granted intent requests and are
    referenced by a partitioned lock head, and every live request for the resource
    is on the queue its status says.  [lm_inv] is [local_inv] for every resource.  An
    operation works on one resource, so its proof establishes [local_inv] there and
    frames the others ([lm_inv_update]). *)

From Stdlib Require Import ZArith Lia.
From stdpp Require Import prelude gmap functions finite.
From S2P Require Import Prelude LockDefs LockHead LockHeadInv LockManager.

Open Scope Z_scope.

(** ** Arrays of maps *)

Lemma find2_put2 {V} (m : gmap Z (gmap Z V)) i k v i' k' :
  find2 (put2 m i k v) i' k' = if decide (i = i' /\ k = k') then Some v else find2 m i' k'.
Proof.
  unfold find2, put2. destruct (decide (i = i')) as [->|Hi].
  - rewrite lookup_insert_eq. destruct (decide (k = k')) as [->|Hk].
    + by rewrite lookup_insert_eq, decide_True.
    + rewrite lookup_insert_ne, decide_False by naive_solver.
      by destruct (m !! i').
  - rewrite lookup_insert_ne, decide_False by naive_solver. done.
Qed.

Lemma find2_erase2 {V} (m : gmap Z (gmap Z V)) i k i' k' :
  find2 (erase2 m i k) i' k' = if decide (i = i' /\ k = k') then None else find2 m i' k'.
Proof.
  unfold find2, erase2. destruct (decide (i = i')) as [->|Hi].
  - rewrite lookup_insert_eq. destruct (decide (k = k')) as [->|Hk].
    + by rewrite lookup_delete_eq, decide_True.
    + rewrite lookup_delete_ne, decide_False by naive_solver.
      by destruct (m !! i').
  - rewrite lookup_insert_ne, decide_False by naive_solver. done.
Qed.

Lemma find_put_head B res h res' :
  find_head (put_head B res h) res' = if decide (res = res') then Some h else find_head B res'.
Proof.
  unfold find_head, put_head. rewrite find2_put2.
  destruct (decide (res = res')) as [->|Hne].
  - by rewrite decide_True.
  - by rewrite decide_False by naive_solver.
Qed.

Lemma find_erase_head B res res' :
  find_head (erase2 B (getBucket res) res) res' =
    if decide (res = res') then None else find_head B res'.
Proof.
  unfold find_head. rewrite find2_erase2.
  destruct (decide (res = res')) as [->|Hne].
  - by rewrite decide_True.
  - by rewrite decide_False by naive_solver.
Qed.

(** Lock heads are in the bucket of their resource id. *)
Definition buckets_ok (B : Buckets) : Prop :=
  forall i d res h, B !! i = Some d -> d !! res = Some h -> i = getBucket res.

Lemma buckets_ok_put B res h : buckets_ok B -> buckets_ok (put_head B res h).
Proof.
  intros Hb i d res' h' Hi Hd. unfold put_head, put2 in Hi.
  apply lookup_insert_Some in Hi as [[<- <-]|[Hne Hi]]; [|eauto].
  apply lookup_insert_Some in Hd as [[<- <-]|[Hne Hd]]; [done|].
  destruct (B !! getBucket res) as [d'|] eqn:Hd'; [eauto|]. simpl in Hd. by rewrite lookup_empty in Hd.
Qed.

Lemma buckets_ok_erase B i res : buckets_ok B -> buckets_ok (erase2 B i res).
Proof.
  intros Hb i' d res' h' Hi Hd. unfold erase2 in Hi.
  apply lookup_insert_Some in Hi as [[<- <-]|[Hne Hi]]; [|eauto].
  apply lookup_delete_Some in Hd as [Hne Hd].
  destruct (B !! i) as [d'|] eqn:Hd'; [eauto|]. simpl in Hd. by rewrite lookup_empty in Hd.
Qed.

(** ** The invariant *)

Definition intent_mode (m : LockMode) : Prop := m = MODE_IS \/ m = MODE_IX.

(** A request on a partitioned lock head. *)
Definition partition_holding (p : PartitionId) (res : ResourceId) (q : LockRequest) : Prop :=
  rq_status q = STATUS_GRANTED /\ rq_lock q = None /\
  rq_partitionedLock q = Some (p, res) /\ rq_partitioned q = true /\
  intent_mode (rq_mode q) /\ rq_convertMode q = MODE_NONE /\
  (0 < rq_recursiveCount q)%nat /\ p = getPartition q.

(** A request that [lock] has not been called on, or whose call is between its two
    critical sections. *)
Definition fresh_request (q : LockRequest) : Prop :=
  rq_status q = STATUS_NEW /\ rq_lock q = None /\ rq_partitionedLock q = None /\
  rq_convertMode q = MODE_NONE /\ rq_recursiveCount q = 1%nat /\
  (rq_partitioned q = true -> intent_mode (rq_mode q)).

(** The resource a request belongs to. *)
Definition req_res (q : LockRequest) : option ResourceId :=
  match rq_lock q with Some res => Some res | None => snd <$> rq_partitionedLock q end.

Definition live (q : LockRequest) : Prop := (0 < rq_recursiveCount q)%nat.

(** A request of [res] is on a queue of the lock head or of a partitioned head. *)
Definition located (oh : option LockHead) (plhs : PartitionId -> option PartitionedLockHead)
    (res : ResourceId) (r : ReqPtr) (q : LockRequest) : Prop :=
  (exists h, oh = Some h /\ rq_lock q = Some res /\ r ∈ members h) \/
  (exists p l, plhs p = Some l /\ rq_lock q = None /\ rq_partitionedLock q = Some (p, res) /\
     r ∈ plh_grantedList l).

Record local_inv (R : requests) (oh : option LockHead)
    (plhs : PartitionId -> option PartitionedLockHead) (res : ResourceId) : Prop := mk_local_inv {
  loc_id : forall h, oh = Some h -> lh_resourceId h = res;
  loc_wf : forall h, oh = Some h -> wf_head R h;
  loc_settled : forall h, oh = Some h -> settled R h;
  loc_plh_nodup : forall p l, plhs p = Some l -> NoDup (plh_grantedList l);
  loc_plh : forall p l r, plhs p = Some l -> r ∈ plh_grantedList l ->
    exists q, R !! r = Some q /\ partition_holding p res q;
  loc_plh_head : forall p l, plhs p = Some l -> exists h, oh = Some h /\ p ∈ lh_partitions h;
  loc_located : forall r q, R !! r = Some q -> live q -> req_res q = Some res ->
    located oh plhs res r q;
}.

Record lm_inv (st : LockManager) : Prop := mk_lm_inv {
  inv_local : forall res,
    local_inv (lm_requests st) (find_head (lm_lockBuckets st) res)
      (fun p => find2 (lm_partitions st) p res) res;
  inv_fresh : forall r q, lm_requests st !! r = Some q -> live q ->
    (rq_status q = STATUS_NEW <-> req_res q = None) /\
    (rq_status q = STATUS_NEW -> fresh_request q);
  inv_buckets : buckets_ok (lm_lockBuckets st);
}.

Lemma lm_inv_new : lm_inv LockManager_new.
Proof.
  split; simpl.
  - intros res. split; unfold find_head, find2; simpl; intros; by simplify_map_eq.
  - intros r q. by rewrite lookup_empty.
  - intros i d res h. by rewrite lookup_empty.
Qed.

(** ** Framing *)

(** [R] and [R'] have the same live requests for [res]. *)
Definition agree (R R' : requests) (res : ResourceId) : Prop :=
  forall r q, live q -> req_res q = Some res -> R !! r = Some q <-> R' !! r = Some q.

Lemma holding_req res q : holding res q -> live q /\ req_res q = Some res.
Proof. intros (Hl & _ & _ & Hr & _). unfold live, req_res. by rewrite Hl. Qed.

Lemma waiting_req res q : waiting res q -> live q /\ req_res q = Some res.
Proof. intros (Hl & _ & _ & Hr & _). unfold live, req_res. rewrite Hl. split; [lia|done]. Qed.

Lemma partition_holding_req p res q :
  partition_holding p res q -> live q /\ req_res q = Some res.
Proof. intros (_ & Hl & Hp & _ & _ & _ & Hr & _). unfold live, req_res. by rewrite Hl, Hp. Qed.

Lemma wf_member_req R h r :
  wf_head R h -> r ∈ members h ->
  exists q, R !! r = Some q /\ live q /\ req_res q = Some (lh_resourceId h).
Proof.
  intros Hwf [Hr|Hr]%elem_of_app.
  - destruct (wf_holding _ _ Hwf r Hr) as (q & Hq & Hh). exists q. split; [done|].
    by apply holding_req.
  - destruct (wf_waiting _ _ Hwf r Hr) as (q & Hq & Hh). exists q. split; [done|].
    by apply waiting_req.
Qed.

Lemma local_inv_frame R R' oh plhs res :
  agree R R' res -> local_inv R oh plhs res -> local_inv R' oh plhs res.
Proof.
  intros Ha Hl.
  assert (forall h, oh = Some h -> forall r, r ∈ members h -> R' !! r = R !! r) as Hf.
  { intros h Hh r Hr. destruct (wf_member_req R h r) as (q & Hq & Hlv & Hres);
      [by eapply loc_wf|done|]. rewrite (loc_id _ _ _ _ Hl h Hh) in Hres.
    rewrite Hq. by apply Ha. }
  split; try by apply Hl.
  - intros h Hh. eapply wf_head_frame; [by apply Hf|]. by eapply loc_wf.
  - intros h Hh. eapply settled_frame; [by apply Hf|]. by eapply loc_settled.
  - intros p l r Hp Hr. destruct (loc_plh _ _ _ _ Hl p l r Hp Hr) as (q & Hq & Hh).
    exists q. split; [|done]. apply partition_holding_req in Hh as [??]. by apply Ha.
  - intros r q Hq Hlv Hres. eapply loc_located; [done|by apply Ha|done..].
Qed.

Lemma local_inv_ext R oh plhs plhs' res :
  (forall p, plhs' p = plhs p) -> local_inv R oh plhs res -> local_inv R oh plhs' res.
Proof.
  intros Hp Hl. split; try by apply Hl.
  - intros p l. rewrite Hp. by apply Hl.
  - intros p l r. rewrite Hp. by apply Hl.
  - intros p l. rewrite Hp. by apply Hl.
  - intros r q Hq Hlv Hr. destruct (loc_located _ _ _ _ Hl r q Hq Hlv Hr) as [?|(p & l & ? & ?)];
      [by left|right]. exists p, l. by rewrite Hp.
Qed.

(** The frame rule of an operation on [res]. *)
Lemma lm_inv_update st st' res :
  lm_inv st ->
  (forall res', res' <> res ->
     find_head (lm_lockBuckets st') res' = find_head (lm_lockBuckets st) res' /\
     (forall p, find2 (lm_partitions st') p res' = find2 (lm_partitions st) p res') /\
     agree (lm_requests st) (lm_requests st') res') ->
  (forall r q, lm_requests st' !! r = Some q -> live q ->
     lm_requests st !! r = Some q \/ (rq_status q <> STATUS_NEW /\ req_res q = Some res)) ->
  local_inv (lm_requests st') (find_head (lm_lockBuckets st') res)
    (fun p => find2 (lm_partitions st') p res) res ->
  buckets_ok (lm_lockBuckets st') ->
  lm_inv st'.
Proof.
  intros Hinv Hframe Hreq Hloc Hb. split; [|by intros r q Hq Hlv; destruct (Hreq r q Hq Hlv)
    as [?|[??]]; [eapply inv_fresh; eauto|naive_solver]|done].
  intros res'. destruct (decide (res' = res)) as [->|Hne]; [done|].
  destruct (Hframe res' Hne) as (Hh & Hp & Ha). rewrite Hh.
  eapply local_inv_ext; [apply Hp|]. by apply (local_inv_frame (lm_requests st)), inv_local.
Qed.

(** ** Migration of partitioned requests *)

Lemma conflicts_0 m : conflicts m 0 = false.
Proof. by destruct m. Qed.

Lemma settled_push_granted R h r q :
  settled R h -> r ∉ members h -> rq_status q = STATUS_GRANTED ->
  settled (<[r := q]> R) (push_granted r q h).
Proof.
  unfold members. intros [Hc Hw] Hr Hs. split; simpl.
  - intros x qx [Hx|Hx]%elem_of_app Hqx Hsx; simpl.
    + rewrite lookup_insert_ne in Hqx by set_solver.
      destruct (Hc x qx Hx Hqx Hsx) as (y & qy & Hy & Hne & Hqy & Hm).
      exists y, qy. rewrite lookup_insert_ne by set_solver. split_and!; try done. set_solver.
    + apply list_elem_of_singleton in Hx as ->. rewrite lookup_insert_eq in Hqx. congruence.
  - intros _. simpl. by destruct (lh_grantedList h).
Qed.

Lemma settled_push_waiter R h r q :
  wf_head R h -> settled R h -> r ∉ members h -> rq_status q = STATUS_WAITING ->
  conflicts (rq_mode q) (lh_grantedModes h) = true \/
  conflicts (rq_mode q) (lh_conflictModes h) = true ->
  settled (<[r := q]> R) (push_waiter r q h).
Proof.
  unfold members. intros Hwf [Hc Hw] Hr Hs Hcf. split; simpl.
  - intros x qx Hx Hqx Hsx. rewrite lookup_insert_ne in Hqx by set_solver.
    destruct (Hc x qx Hx Hqx Hsx) as (y & qy & Hy & Hne & Hqy & Hm).
    exists y, qy. rewrite lookup_insert_ne by set_solver. split_and!; done.
  - intros _. simpl. destruct Hcf as [Hcf|Hcf].
    + intros H0. apply (grantedModes_zero Hwf) in H0. by rewrite H0, conflicts_0 in Hcf.
    + apply Hw. intros H0. apply (conflictModes_zero Hwf) in H0. by rewrite H0, conflicts_0 in Hcf.
Qed.

Lemma intent_no_conflict R h m :
  wf_head R h -> Z.land (lh_grantedModes h) (Z.lnot intentModes) = 0 -> intent_mode m ->
  conflicts m (lh_grantedModes h) = false.
Proof.
  intros Hwf. rewrite (wf_gmodes _ _ Hwf), mask_of_intent. intros (H1 & H2 & H3) Hm.
  apply not_true_is_false. rewrite conflicts_mask_of. intros (m' & Hpos & Hc).
  destruct Hm as [-> | ->], m'; first [lia | done].
Qed.

(** A request after its migration to the lock head. *)
Definition moved (res : ResourceId) (q : LockRequest) : LockRequest :=
  {| q with rq_lock := Some res; rq_partitionedLock := None; rq_status := STATUS_GRANTED |}.

Definition moves (R R' : requests) (res : ResourceId) (ms : list ReqPtr) : Prop :=
  forall r, R' !! r = if decide (r ∈ ms) then moved res <$> R !! r else R !! r.

Definition migrate_outcome (R : requests) (h : LockHead) (ms : list ReqPtr)
    (R' : requests) (h' : LockHead) : Prop :=
  wf_head R' h' /\ settled R' h' /\ moves R R' (lh_resourceId h) ms /\
  lh_resourceId h' = lh_resourceId h /\
  (forall r, r ∈ lh_grantedList h' <-> r ∈ lh_grantedList h \/ r ∈ ms) /\
  lh_conflictList h' = lh_conflictList h.

Lemma migrate_outcome_nil R h : wf_head R h -> settled R h -> migrate_outcome R h [] R h.
Proof.
  intros. split_and!; try done. set_solver.
Qed.

Lemma migrate_outcome_app R h ms R1 h1 ms1 R2 h2 :
  migrate_outcome R h ms R1 h1 -> migrate_outcome R1 h1 ms1 R2 h2 ->
  migrate_outcome R h (ms ++ ms1) R2 h2.
Proof.
  intros (_ & _ & Hm & Hr & Hg & Hc) (Hwf2 & Hs2 & Hm2 & Hr2 & Hg2 & Hc2).
  split_and!; try done; try congruence.
  - intros r. rewrite Hm2, Hm, Hr. destruct (decide (r ∈ ms)), (decide (r ∈ ms1)).
    all: rewrite ?decide_True by (apply elem_of_app; auto); try done.
    + by destruct (R !! r).
    + rewrite decide_False; [done|]. rewrite elem_of_app. naive_solver.
  - intros r. rewrite Hg2, Hg. set_solver.
Qed.

(** A partitioned request is not on the queues of a well-formed head. *)
Lemma partition_not_member R h r q :
  wf_head R h -> R !! r = Some q -> rq_lock q = None -> r ∉ members h.
Proof.
  intros Hwf Hq Hl [Hr|Hr]%elem_of_app.
  - destruct (wf_holding _ _ Hwf r Hr) as (q' & ? & H' & _). congruence.
  - destruct (wf_waiting _ _ Hwf r Hr) as (q' & ? & H' & _). congruence.
Qed.

Lemma moved_holding p res q : partition_holding p res q -> holding res (moved res q).
Proof.
  intros (Hs & Hl & Hp & Hpt & Hm & Hc & Hr & _). split_and!; simpl; try done.
  - by destruct Hm as [-> | ->].
  - by left.
Qed.

Lemma migrate_request R h p r q :
  wf_head R h -> settled R h -> lh_partitions h <> [] -> R !! r = Some q ->
  partition_holding p (lh_resourceId h) q ->
  exists R' h', 
    newRequest (<[r := {| q with rq_partitionedLock := None |}]> R) h r = Some (R', h', LOCK_OK) /\
    migrate_outcome R h [r] R' h' /\ lh_partitions h' = lh_partitions h.
Proof.
  intros Hwf Hst Hp Hq Hh. destruct (wf_partitions _ _ Hwf Hp) as [Hgm Hcm].
  assert (r ∉ members h) as Hr by (eapply partition_not_member; eauto; apply Hh).
  set (q1 := {| q with rq_partitionedLock := None |}).
  assert (forall x, x ∈ members h -> <[r := q1]> R !! x = R !! x) as Hf.
  { intros x Hx. apply lookup_insert_ne. set_solver. }
  assert (conflicts (rq_mode q1) (lh_grantedModes h) = false) as Hnc.
  { eapply intent_no_conflict; eauto. apply Hh. }
  eexists _, _. split.
  { apply (newRequest_granted (<[r := q1]> R) h r q1); try done.
    - by eapply wf_head_frame.
    - by rewrite lookup_insert_eq.
    - rewrite Hcm. intros _. apply conflicts_0. }
  rewrite insert_insert_eq.
  change (with_lock (lh_resourceId h) STATUS_GRANTED q1) with (moved (lh_resourceId h) q).
  split; [|done]. split_and!; try done.
  - apply wf_push_granted; try done; [by eapply moved_holding|]. intros _. apply Hh.
  - by apply settled_push_granted.
  - intros x. destruct (decide (x ∈ [r])) as [->%list_elem_of_singleton|Hx].
    + by rewrite lookup_insert_eq, Hq.
    + by rewrite lookup_insert_ne by set_solver.
  - set_solver.
Qed.

Lemma moves_notin R R' res ms r : moves R R' res ms -> r ∉ ms -> R' !! r = R !! r.
Proof. intros Hm Hr. rewrite Hm. by case_decide. Qed.

Lemma migrate_requests_spec p l : forall R h,
  wf_head R h -> settled R h -> lh_partitions h <> [] -> NoDup l ->
  (forall r, r ∈ l -> exists q, R !! r = Some q /\ partition_holding p (lh_resourceId h) q) ->
  exists R' h', migrate_requests l R h = Some (R', h') /\
    migrate_outcome R h l R' h' /\ lh_partitions h' = lh_partitions h.
Proof.
  induction l as [|r l IH]; intros R h Hwf Hst Hp Hnd Hl.
  { exists R, h. split_and!; [done|by apply migrate_outcome_nil|done]. }
  apply NoDup_cons in Hnd as [Hr Hnd]. destruct (Hl r) as (q & Hq & Hh); [set_solver|].
  destruct (migrate_request R h p r q) as (R1 & h1 & Hnew & Hout & Hp1); try done.
  destruct Hout as (Hwf1 & Hst1 & Hm1 & Hres1 & Hg1 & Hc1).
  destruct (IH R1 h1) as (R2 & h2 & Hmig & Hout2 & Hp2); try done.
  - congruence.
  - intros x Hx. rewrite (moves_notin _ _ _ _ _ Hm1), Hres1 by set_solver.
    apply Hl. set_solver.
  - exists R2, h2. split_and!; [|by apply (migrate_outcome_app R h [r] R1 h1 l)|congruence].
    cbn [migrate_requests]. rewrite Hq. cbn [mbind option_bind]. rewrite Hnew.
    cbn [mbind option_bind]. by rewrite invariant_bind by by apply bool_decide_eq_true.
Qed.

Definition on_partition (P : Partitions) (bf : list PartitionId) (res : ResourceId) (r : ReqPtr)
    : Prop :=
  exists p l, p ∈ bf /\ find2 P p res = Some l /\ r ∈ plh_grantedList l.

(** The partitioned heads of [res] listed in [bf] are in order. *)
Definition plhs_ok (R : requests) (P : Partitions) (bf : list PartitionId) (res : ResourceId)
    : Prop :=
  forall p l, p ∈ bf -> find2 P p res = Some l -> NoDup (plh_grantedList l) /\
    forall r, r ∈ plh_grantedList l -> exists q, R !! r = Some q /\ partition_holding p res q.

Lemma wf_set_partitions R h ps :
  (ps <> [] -> lh_partitions h <> []) -> wf_head R h ->
  wf_head R {| h with lh_partitions := ps |}.
Proof. intros Hps Hwf. split; try apply Hwf. simpl. intros Hp. by apply (wf_partitions _ _ Hwf), Hps. Qed.

Lemma settled_set_partitions R h ps : settled R h -> settled R {| h with lh_partitions := ps |}.
Proof. by intros []. Qed.

Lemma migrate_outcome_set_partitions R h ms R' h' ps :
  (ps <> [] -> lh_partitions h' <> []) ->
  migrate_outcome R h ms R' h' -> migrate_outcome R h ms R' {| h' with lh_partitions := ps |}.
Proof.
  intros Hps (Hwf & Hs & ?). split_and!; [by apply wf_set_partitions|by apply settled_set_partitions|naive_solver..].
Qed.

(** One turn of the outer loop. *)
Lemma migrate_partition_step R P h p :
  wf_head R h -> settled R h -> lh_partitions h <> [] -> plhs_ok R P [p] (lh_resourceId h) ->
  exists R1 P1 h1 ms,
    match find2 P p (lh_resourceId h) with
    | Some l => '(R, h) ← migrate_requests (plh_grantedList l) R h;
                Some (R, erase2 P p (lh_resourceId h), h)
    | None => Some (R, P, h)
    end = Some (R1, P1, h1) /\
    migrate_outcome R h ms R1 h1 /\ lh_partitions h1 = lh_partitions h /\
    (forall r, r ∈ ms <-> on_partition P [p] (lh_resourceId h) r) /\
    (forall p' res', find2 P1 p' res' =
       if decide (res' = lh_resourceId h /\ p' ∈ [p]) then None else find2 P p' res').
Proof.
  intros Hwf Hst Hne Hok. destruct (find2 P p (lh_resourceId h)) as [l|] eqn:Hl.
  - destruct (Hok p l) as [Hnd Hq]; [set_solver|done|].
    destruct (migrate_requests_spec p (plh_grantedList l) R h) as (R1 & h1 & -> & Hout & Hp1);
      try done. eexists _, _, _, _. split; [done|]. split_and!; [done|done| |].
    + intros r. split; [intros Hr; exists p, l; set_solver|].
      intros (p' & l' & ->%list_elem_of_singleton & Hl' & Hr). congruence.
    + intros p' res'. assert (lh_resourceId h1 = lh_resourceId h) as -> by apply Hout.
      rewrite find2_erase2. repeat case_decide; try done; exfalso; set_solver.
  - exists R, P, h, []. split_and!; [done|by apply migrate_outcome_nil|done| |].
    + intros r. split; [set_solver|].
      intros (p' & l' & ->%list_elem_of_singleton & Hl' & Hr). congruence.
    + intros p' res'. case_decide as Hd; [|done].
      by destruct Hd as [-> ->%list_elem_of_singleton].
Qed.

Lemma plhs_ok_step R P R1 P1 h ms h1 p bf :
  migrate_outcome R h ms R1 h1 ->
  (forall r, r ∈ ms <-> on_partition P [p] (lh_resourceId h) r) ->
  (forall p' res', find2 P1 p' res' =
     if decide (res' = lh_resourceId h /\ p' ∈ [p]) then None else find2 P p' res') ->
  plhs_ok R P (p :: bf) (lh_resourceId h) -> plhs_ok R1 P1 bf (lh_resourceId h1).
Proof.
  intros (_ & _ & Hm & -> & _) Hms HP Hok p' l' Hp' Hl'. rewrite HP in Hl'.
  case_decide as Hd; [done|]. destruct (Hok p' l') as [Hnd Hq]; [set_solver|done|].
  split; [done|]. intros r Hr. destruct (Hq r Hr) as (q & Hq' & Hh).
  exists q. rewrite (moves_notin _ _ _ _ _ Hm); [done|]. rewrite Hms.
  intros (p0 & l0 & ->%list_elem_of_singleton & Hl0 & Hr0).
  destruct (Hok p l0) as [_ Hq0]; [set_solver|done|]. destruct (Hq0 r Hr0) as (q0 & ? & Hh0).
  assert (p = p') by (unfold partition_holding in Hh, Hh0; destruct_and!; congruence).
  set_solver.
Qed.

Lemma on_partition_erased P P1 p bf res r :
  (forall p' res', find2 P1 p' res' =
     if decide (res' = res /\ p' ∈ [p]) then None else find2 P p' res') ->
  on_partition P (p :: bf) res r <-> on_partition P [p] res r \/ on_partition P1 bf res r.
Proof.
  intros HP1. unfold on_partition. setoid_rewrite elem_of_cons. split.
  - intros (p' & l & Hp' & Hl & Hr). destruct (decide (p' = p)) as [->|Hnp]; [left; eauto 6|].
    right. exists p', l. rewrite HP1, decide_False by set_solver. naive_solver.
  - intros [(p' & l & [-> |Hp'] & ? & ?)|(p' & l & ? & Hl & ?)]; [eauto 6|set_solver|].
    exists p', l. rewrite HP1 in Hl. case_decide; [done|]. eauto.
Qed.

Lemma migrate_partitions_spec bf : forall R P h,
  wf_head R h -> settled R h -> lh_partitions h = reverse bf ->
  plhs_ok R P bf (lh_resourceId h) ->
  exists R' P' h' ms, migrate_partitions bf R P h = Some (R', P', h') /\
    migrate_outcome R h ms R' h' /\ lh_partitions h' = [] /\
    (forall r, r ∈ ms <-> on_partition P bf (lh_resourceId h) r) /\
    (forall p' res', find2 P' p' res' =
       if decide (res' = lh_resourceId h /\ p' ∈ bf) then None else find2 P p' res').
Proof.
  induction bf as [|p bf IH]; intros R P h Hwf Hst Hp Hok.
  { exists R, P, h, []. split_and!; [done|by apply migrate_outcome_nil|done| |].
    - intros r. split; [set_solver|]. intros (? & ? & ? & _). set_solver.
    - intros p' res'. rewrite decide_False by set_solver. done. }
  rewrite reverse_cons in Hp.
  assert (lh_partitions h <> []) as Hne by (rewrite Hp; by destruct (reverse bf)).
  destruct (migrate_partition_step R P h p) as (R1 & P1 & h1 & ms & Hstep & Hout & Hp1 & Hms & HP1);
    [done..|intros ???; apply Hok; set_solver|].
  pose proof (plhs_ok_step _ _ _ _ _ _ _ _ bf Hout Hms HP1 Hok) as Hok1.
  apply (migrate_outcome_set_partitions _ _ _ _ _ (reverse bf)) in Hout; [|congruence].
  assert (lh_resourceId h1 = lh_resourceId h) as Hres by apply Hout.
  destruct (IH R1 P1 {| h1 with lh_partitions := reverse bf |})
    as (R2 & P2 & h2 & ms2 & Hmig & Hout2 & Hp2 & Hms2 & HP2); [apply Hout|apply Hout|done..|].
  simpl in Hms2, HP2. rewrite Hres in Hms2, HP2.
  exists R2, P2, h2, (ms ++ ms2). split_and!.
  - cbn [migrate_partitions]. rewrite Hstep. exact Hmig.
  - by eapply migrate_outcome_app.
  - done.
  - intros r. rewrite elem_of_app, Hms, Hms2. symmetry. by apply on_partition_erased.
  - intros p' res'. rewrite HP2, HP1. repeat case_decide; try done; exfalso; set_solver.
Qed.

(** ** Requests an operation on another request leaves alone *)

(** Another operation may grant the request or migrate it, and nothing else. *)
Record same_request (q q' : LockRequest) : Prop := mk_same_request {
  same_locker : rq_locker q' = rq_locker q;
  same_count : rq_recursiveCount q' = rq_recursiveCount q;
  same_res : req_res q' = req_res q;
  same_compatibleFirst : rq_compatibleFirst q' = rq_compatibleFirst q;
  same_new : rq_status q = STATUS_NEW -> q' = q;
  same_old : rq_status q <> STATUS_NEW -> rq_status q' <> STATUS_NEW;
  same_granted : rq_status q = STATUS_GRANTED ->
    rq_status q' = STATUS_GRANTED /\ rq_mode q' = rq_mode q;
}.

#[global] Instance same_request_preorder : PreOrder same_request.
Proof.
  split; [by intros q; split|]. intros q1 q2 q3 [] [].
  split; try congruence; try (by auto).
  - intros Hs. pose proof (same_new0 Hs). subst q2. auto.
  - intros Hs. destruct (same_granted0 Hs) as [Hs2 Hm2]. destruct (same_granted1 Hs2). split; congruence.
Qed.

(** [R'] has the requests of [R], all but [r] kept. *)
Definition kept (r : ReqPtr) (R R' : requests) : Prop :=
  forall x, x <> r ->
    (R !! x = None -> R' !! x = None) /\
    (forall q, R !! x = Some q -> exists q', R' !! x = Some q' /\ same_request q q').

#[global] Instance kept_preorder r : PreOrder (kept r).
Proof.
  split.
  - intros R x _. split; [done|]. intros q Hq. by exists q.
  - intros R1 R2 R3 H12 H23 x Hx. destruct (H12 x Hx) as [Hn12 Hs12], (H23 x Hx) as [Hn23 Hs23].
    split; [auto|]. intros q Hq. destruct (Hs12 q Hq) as (q2 & Hq2 & E12).
    destruct (Hs23 q2 Hq2) as (q3 & Hq3 & E23). exists q3. split; [done|]. by etrans.
Qed.

Lemma kept_insert R r q : kept r R (<[r := q]> R).
Proof. intros x Hx. rewrite lookup_insert_ne by done. split; [done|]. intros q' Hq'. by exists q'. Qed.

Lemma kept_moves R R' res ms r :
  moves R R' res ms ->
  (forall x, x ∈ ms -> exists p q, R !! x = Some q /\ partition_holding p res q) -> kept r R R'.
Proof.
  intros Hm Hms x _. pose proof (Hm x) as E.
  case_decide as Hd; [|rewrite E; split; [done|]; intros q Hq; by exists q].
  destruct (Hms x Hd) as (p & q & Hq & Hh). rewrite Hq in *. split; [done|]. intros q0 [= <-].
  exists (moved res q). split; [done|]. destruct Hh as (Hs & Hl & Hp & _).
  split; simpl; try done; [|congruence]. unfold req_res. simpl. by rewrite Hl, Hp.
Qed.
