(* ===== verification/LockManagerOps.v ===== *)
(** * The operations of the lock manager preserve its invariant

    For each operation of [LockManager.v]: called as its callers call it, it does not
    hit an [invariant] of the source, and it preserves [lm_inv]. *)

From Stdlib Require Import ZArith Lia.
From stdpp Require Import prelude gmap functions finite.
From S2P Require Import Prelude LockDefs LockHead LockHeadInv LockManager LockManagerInv.

Open Scope Z_scope.

(** ** Facts shared by the operations *)

Lemma member_status R h r q :
  wf_head R h -> r ∈ members h -> R !! r = Some q ->
  (rq_status q = STATUS_WAITING -> r ∈ lh_conflictList h) /\
  (rq_status q <> STATUS_WAITING -> r ∈ lh_grantedList h).
Proof.
  intros Hwf [Hr|Hr]%elem_of_app Hq.
  - destruct (wf_holding _ _ Hwf r Hr) as (q' & ? & _ & _ & _ & _ & Hs).
    simplify_eq. split; [|done]. naive_solver congruence.
  - destruct (wf_waiting _ _ Hwf r Hr) as (q' & ? & _ & _ & _ & _ & Hs & _).
    simplify_eq. split; [done|congruence].
Qed.

(** A request that is not on a queue may change freely. *)
Lemma local_inv_frame_notin R R' oh plhs res :
  (forall h r, oh = Some h -> r ∈ members h -> R' !! r = R !! r) ->
  (forall p l r, plhs p = Some l -> r ∈ plh_grantedList l -> R' !! r = R !! r) ->
  (forall r q, R' !! r = Some q -> live q -> req_res q = Some res -> located oh plhs res r q) ->
  local_inv R oh plhs res -> local_inv R' oh plhs res.
Proof.
  intros Hh Hp Hl Hi. split; try apply Hi; try done.
  - intros h Eh. eapply wf_head_frame; [intros r; by apply Hh|by apply Hi].
  - intros h Eh. eapply settled_frame; [intros r; by apply Hh|by apply Hi].
  - intros p l r El Hr. rewrite (Hp p l) by done. by eapply Hi.
Qed.

Lemma agree_insert R r q res :
  (forall q0, R !! r = Some q0 -> live q0 -> req_res q0 <> Some res) ->
  (live q -> req_res q <> Some res) -> agree R (<[r := q]> R) res.
Proof.
  intros H0 H1 x qx Hlv Hres. destruct (decide (x = r)) as [->|Hne].
  - rewrite lookup_insert_eq. naive_solver.
  - by rewrite lookup_insert_ne.
Qed.

(** ** Fresh requests *)

Lemma lm_inv_insert_fresh st r q :
  lm_inv st -> fresh_request q ->
  (forall q0, lm_requests st !! r = Some q0 -> live q0 -> rq_status q0 = STATUS_NEW) ->
  lm_inv {| st with lm_requests := <[r := q]> (lm_requests st) |}.
Proof.
  intros Hi Hf H0.
  assert (req_res q = None) as Hres.
  { destruct Hf as (_ & Hl & Hp & _). unfold req_res. by rewrite Hl, Hp. }
  split; simpl; [|intros x qx|apply Hi].
  - intros res. apply (local_inv_frame (lm_requests st)); [|by apply inv_local].
    apply agree_insert; [|by rewrite Hres].
    intros q0 Hq0 Hlv. pose proof (inv_fresh _ Hi r q0 Hq0 Hlv) as [[Hn _] _].
    by rewrite Hn by eauto.
  - intros [[<- <-]|[Hne Hx]]%lookup_insert_Some Hlv; [|by apply (inv_fresh _ Hi x)].
    split; [|done]. rewrite Hres. split; [done|]. intros _. apply Hf.
Qed.

(** [LockRequest::initNew] on a request object that is not in use. *)
Lemma initNew_fresh locker notify : fresh_request (initNew locker notify).
Proof. by split_and!. Qed.

(** The request after the set-up of [lock]. *)
Definition prepared (mode : LockMode) (q : LockRequest) : LockRequest :=
  {| q with rq_partitioned := bool_decide (mode = MODE_IX) || bool_decide (mode = MODE_IS);
            rq_mode := mode |}.

Lemma prepared_partitioned mode q : rq_partitioned (prepared mode q) = true <-> intent_mode mode.
Proof. unfold intent_mode. destruct mode; simpl; naive_solver. Qed.

Lemma prepared_fresh mode q : fresh_request q -> fresh_request (prepared mode q).
Proof.
  intros (? & ? & ? & ? & ? & _). split_and!; try done. by apply prepared_partitioned.
Qed.

Lemma lock_prepare_spec st r q mode :
  lm_inv st -> lm_requests st !! r = Some q -> live q -> rq_status q = STATUS_NEW ->
  let st' := {| st with lm_requests := <[r := prepared mode q]> (lm_requests st) |} in
  lock_prepare st r mode = Some st' /\ fresh_request (prepared mode q) /\ lm_inv st'.
Proof.
  intros Hi Hq Hlv Hs. destruct (inv_fresh _ Hi r q Hq Hlv) as [_ Hf]. specialize (Hf Hs).
  pose proof (prepared_fresh mode q Hf) as Hpf. split_and!; [|done|].
  - unfold lock_prepare. rewrite Hq. cbn [mbind option_bind].
    rewrite invariant_bind by by apply bool_decide_eq_true.
    rewrite invariant_bind; [done|]. by destruct Hf as (_ & _ & _ & _ & -> & _).
  - apply lm_inv_insert_fresh; [done..|naive_solver].
Qed.

(** ** Granting on a partitioned head *)

Lemma fresh_unlocated st r q res :
  lm_inv st -> lm_requests st !! r = Some q -> fresh_request q ->
  (forall h, find_head (lm_lockBuckets st) res = Some h -> r ∉ members h) /\
  (forall p l, find2 (lm_partitions st) p res = Some l -> r ∉ plh_grantedList l).
Proof.
  intros Hi Hq Hf. pose proof (inv_local _ Hi res) as Hl. split.
  - intros h Hh. eapply partition_not_member; [by eapply loc_wf|done|apply Hf].
  - intros p l Hp Hr. destruct (loc_plh _ _ _ _ Hl p l r Hp Hr) as (q' & ? & Hs & _).
    destruct Hf. simplify_eq. congruence.
Qed.

(** The request after [PartitionedLockHead::newRequest]. *)
Definition on_plh (p : PartitionId) (res : ResourceId) (q : LockRequest) : LockRequest :=
  {| q with rq_partitionedLock := Some (p, res); rq_status := STATUS_GRANTED |}.

Lemma plh_newRequest_eq R p res l r q :
  R !! r = Some q -> fresh_request q -> rq_partitioned q = true ->
  plh_newRequest R p res l r =
    Some (<[r := on_plh p res q]> R, mkPartitionedLockHead (plh_grantedList l ++ [r])).
Proof.
  intros Hq Hf Hp. unfold plh_newRequest. rewrite Hq. cbn [mbind option_bind].
  rewrite invariant_bind by done.
  rewrite invariant_bind by (apply bool_decide_eq_true; apply Hf). done.
Qed.

Lemma on_plh_holding res q :
  fresh_request q -> rq_partitioned q = true ->
  partition_holding (getPartition q) res (on_plh (getPartition q) res q).
Proof.
  intros (Hs & Hl & Hp & Hc & Hr & Hm) Hpt. split_and!; simpl; try done; [auto|lia].
Qed.

Lemma local_inv_plh_add R h plhs res p l r q :
  local_inv R (Some h) plhs res -> p ∈ lh_partitions h ->
  l = default (mkPartitionedLockHead []) (plhs p) ->
  r ∉ members h -> (forall p' l', plhs p' = Some l' -> r ∉ plh_grantedList l') ->
  partition_holding p res q ->
  local_inv (<[r := q]> R) (Some h)
    (fun p' => if decide (p = p') then Some (mkPartitionedLockHead (plh_grantedList l ++ [r]))
               else plhs p') res.
Proof.
  intros Hl Hp El Hrh Hrp Hq.
  assert ((r ∉ plh_grantedList l) /\ NoDup (plh_grantedList l) /\
    forall x, x ∈ plh_grantedList l -> exists qx, R !! x = Some qx /\ partition_holding p res qx)
    as (Hrl & Hnd & Hold).
  { subst l. destruct (plhs p) as [l|] eqn:Ep; simpl.
    - split_and!; [by eapply Hrp|by eapply loc_plh_nodup|intros x; by eapply loc_plh].
    - split_and!; [set_solver|apply NoDup_nil_2|set_solver]. }
  split; try apply Hl.
  - intros h0 [= <-]. eapply wf_head_frame; [|by apply Hl].
    intros x Hx. apply lookup_insert_ne. set_solver.
  - intros h0 [= <-]. eapply settled_frame; [|by apply Hl].
    intros x Hx. apply lookup_insert_ne. set_solver.
  - intros p' l'. case_decide; [intros [= <-]|by apply Hl].
    apply NoDup_app. split_and!; [done|set_solver|apply NoDup_singleton].
  - intros p' l' x. case_decide as Hpp; [intros [= <-]; subst p'|].
    + intros [Hx| ->%list_elem_of_singleton]%elem_of_app; [|by exists q; rewrite lookup_insert_eq].
      rewrite lookup_insert_ne by set_solver. auto.
    + intros Hp' Hx. rewrite lookup_insert_ne by (intros ->; by eapply Hrp). by eapply Hl.
  - intros p' l'. case_decide; [intros _; subst; by exists h|by apply Hl].
  - intros x qx [[<- <-]|[Hne Hx]]%lookup_insert_Some Hlv Hres.
    + right. exists p. eexists. rewrite decide_True by done. split_and!; [done|apply Hq..|set_solver].
    + destruct (loc_located _ _ _ _ Hl x qx Hx Hlv Hres) as [?|(p' & l' & Hp' & ? & ? & ?)];
        [by left|right].
      destruct (decide (p = p')) as [<-|Hpp].
      * exists p. eexists. rewrite decide_True by done. split_and!; [done..|].
        subst l. rewrite Hp'. set_solver.
      * exists p', l'. by rewrite decide_False.
Qed.

(** The result of granting a fresh request on the partitioned head of its partition,
    the lock head being [h]. *)
Lemma lm_inv_plh_add st res r q h B l :
  let p := getPartition q in
  lm_inv st -> lm_requests st !! r = Some q -> fresh_request q -> rq_partitioned q = true ->
  local_inv (lm_requests st) (Some h) (fun p => find2 (lm_partitions st) p res) res ->
  (forall res', find_head B res' =
     if decide (res = res') then Some h else find_head (lm_lockBuckets st) res') ->
  buckets_ok B -> r ∉ members h -> p ∈ lh_partitions h ->
  l = partition_findOrInsert (lm_partitions st) p res ->
  lm_inv {| st with lm_requests := <[r := on_plh p res q]> (lm_requests st);
                    lm_lockBuckets := B;
                    lm_partitions := put2 (lm_partitions st) p res
                       (mkPartitionedLockHead (plh_grantedList l ++ [r])) |}.
Proof.
  intros p Hi Hq Hf Hpt Hloc HB HBok Hrh Hp El.
  pose proof (on_plh_holding res q Hf Hpt) as Hh. fold p in Hh.
  pose proof (partition_holding_req _ _ _ Hh) as [_ Hres].
  assert (req_res q = None) as Hnone.
  { destruct Hf as (_ & Hl0 & Hp0 & _). unfold req_res. by rewrite Hl0, Hp0. }
  eapply (lm_inv_update _ _ res); simpl; [done| | | |done].
  - intros res' Hne. rewrite HB, decide_False by done. split_and!; [done|intros p'|].
    + by rewrite find2_put2, decide_False by naive_solver.
    + apply agree_insert; [|rewrite Hres; naive_solver]. intros q0. rewrite Hq. naive_solver.
  - intros x qx [[<- <-]|[Hne Hx]]%lookup_insert_Some Hlv; [right; by split|by left].
  - rewrite HB, decide_True by done.
    eapply local_inv_ext; [|eapply local_inv_plh_add; try done].
    + intros p'. simpl. rewrite find2_put2. by repeat case_decide; try naive_solver.
    + by apply (fresh_unlocated st r q res).
Qed.

Lemma lock_partition_section_spec st res r q :
  lm_inv st -> lm_requests st !! r = Some q -> fresh_request q -> rq_partitioned q = true ->
  (lock_partition_section st res r = Some None /\
     find2 (lm_partitions st) (getPartition q) res = None) \/
  (exists st', lock_partition_section st res r = Some (Some st') /\ lm_inv st' /\
     lm_requests st' = <[r := on_plh (getPartition q) res q]> (lm_requests st)).
Proof.
  intros Hi Hq Hf Hpt. unfold lock_partition_section. rewrite Hq. cbn [mbind option_bind].
  destruct (find2 (lm_partitions st) (getPartition q) res) as [l|] eqn:El; [right|by left].
  rewrite (plh_newRequest_eq _ _ _ _ _ q) by done. cbn [mbind option_bind].
  eexists. split; [done|]. split; [|done].
  pose proof (inv_local _ Hi res) as Hloc.
  destruct (loc_plh_head _ _ _ _ Hloc (getPartition q) l El) as (h & Hh & Hp).
  rewrite Hh in Hloc. destruct st as [R B P N]. simpl in *.
  eapply (lm_inv_plh_add (mkLockManager R B P N) res r q h); simpl; try done.
  - intros res'. case_decide; by subst.
  - apply Hi.
  - by apply (fresh_unlocated (mkLockManager R B P N) r q res).
  - unfold partition_findOrInsert. by rewrite El.
Qed.

(** ** Migration, globally *)

Record migrated (R : requests) (P : Partitions) (h : LockHead) (res : ResourceId)
    (R' : requests) (P' : Partitions) (h' : LockHead) (ms : list ReqPtr) : Prop := mk_migrated {
  mig_outcome : migrate_outcome R h ms R' h';
  mig_partitions : lh_partitions h' = [];
  mig_moved : forall r, r ∈ ms -> exists p q, R !! r = Some q /\ partition_holding p res q;
  mig_plhs : forall p res', find2 P' p res' = if decide (res' = res) then None else find2 P p res';
  mig_local : local_inv R' (Some h') (fun _ => None) res;
}.

Lemma migrated_local R P h res R' P' h' ms :
  local_inv R (Some h) (fun p => find2 P p res) res -> migrate_outcome R h ms R' h' ->
  (forall p l r, find2 P p res = Some l -> r ∈ plh_grantedList l -> r ∈ ms) ->
  (forall r, r ∈ ms -> exists p q, R !! r = Some q /\ partition_holding p res q) ->
  lh_partitions h' = [] ->
  (forall p res', find2 P' p res' = if decide (res' = res) then None else find2 P p res') ->
  migrated R P h res R' P' h' ms.
Proof.
  intros Hl Hout Hms1 Hms2 Hp HP. split; try done.
  pose proof (loc_id _ _ _ _ Hl h eq_refl) as Hid.
  destruct Hout as (Hwf & Hst & Hm & Hres & Hg & Hc). rewrite Hid in Hm.
  split; try done; [congruence..|].
  intros r q Hq Hlv Hr. left. exists h'. unfold members. rewrite elem_of_app, Hg, Hc.
  rewrite Hm in Hq. case_decide as Hd.
  - destruct (Hms2 r Hd) as (p & q0 & Hq0 & _). rewrite Hq0 in Hq. simplify_eq/=. auto.
  - destruct (loc_located _ _ _ _ Hl r q Hq Hlv Hr)
      as [(h0 & [= <-] & ? & [?|?]%elem_of_app)|(p & l & Hpl & _ & _ & Hrl)]; [auto..|].
    by apply (Hms1 p) in Hrl.
Qed.

Lemma migrate_if_partitioned_spec R P h res :
  local_inv R (Some h) (fun p => find2 P p res) res ->
  exists R' P' h' ms, migrate_if_partitioned R P h = Some (R', P', h') /\
    migrated R P h res R' P' h' ms.
Proof.
  intros Hl. pose proof (loc_id _ _ _ _ Hl h eq_refl) as Hid.
  pose proof (loc_wf _ _ _ _ Hl h eq_refl) as Hwf.
  pose proof (loc_settled _ _ _ _ Hl h eq_refl) as Hst.
  assert (forall p l, find2 P p res = Some l -> p ∈ lh_partitions h) as Hin.
  { intros p l Hpl. by destruct (loc_plh_head _ _ _ _ Hl p l Hpl) as (? & [= <-] & ?). }
  unfold migrate_if_partitioned, LockHead_partitioned. case_bool_decide as Hp; simpl.
  - assert (forall p, find2 P p res = None) as Hnone.
    { intros p. destruct (find2 P p res) as [l|] eqn:Hpl; [|done].
      apply Hin in Hpl. rewrite Hp in Hpl. set_solver. }
    exists R, P, h, []. split; [done|]. apply migrated_local; try done;
      [by apply migrate_outcome_nil|by setoid_rewrite Hnone|set_solver|].
    intros p res'. case_decide; [by subst|done].
  - destruct (wf_partitions _ _ Hwf Hp) as [Hgm Hcm].
    destruct (migrate_partitions_spec (reverse (lh_partitions h)) R P h)
      as (R' & P' & h' & ms & Hmig & Hout & Hp' & Hms & HP); [done..|by rewrite reverse_involutive| |].
    { intros p l _ Hpl. rewrite Hid in Hpl |- *. split; [by apply (loc_plh_nodup _ _ _ _ Hl p)|].
      intros r Hr. by apply (loc_plh _ _ _ _ Hl p l). }
    rewrite Hid in Hms, HP. exists R', P', h', ms. split.
    + unfold migratePartitionedLockHeads, LockHead_partitioned.
      rewrite invariant_bind by by rewrite bool_decide_eq_false_2.
      rewrite invariant_bind; [done|]. by rewrite Hgm, Hcm.
    + apply migrated_local; try done.
      * intros p l r Hpl Hr. apply Hms. exists p, l. split_and!; [|done..].
        apply elem_of_reverse. by eapply Hin.
      * intros r Hr. apply Hms in Hr as (p & l & _ & Hpl & Hr). exists p.
        by apply (loc_plh _ _ _ _ Hl p l).
      * intros p res'. rewrite HP. destruct (decide (res' = res)) as [->|Hne].
        -- case_decide as Hd; [done|]. destruct (find2 P p res) as [l|] eqn:Hpl; [|done].
           apply Hin in Hpl. destruct Hd. by rewrite elem_of_reverse.
        -- rewrite decide_False; [done|]. by intros [? _].
Qed.

Lemma migrated_agree R P h res R' P' h' ms res' :
  migrated R P h res R' P' h' ms -> lh_resourceId h = res -> res' <> res -> agree R R' res'.
Proof.
  intros Hm Hid Hne r q Hlv Hres. destruct (mig_outcome _ _ _ _ _ _ _ _ Hm) as (_ & _ & Hmv & _).
  rewrite Hmv. case_decide as Hd; [|done].
  destruct (mig_moved _ _ _ _ _ _ _ _ Hm r Hd) as (p & q0 & Hq0 & Hh).
  apply partition_holding_req in Hh as [_ Hh]. rewrite Hq0. simpl. split; intros [= <-].
  - congruence.
  - cbn in Hres. congruence.
Qed.

Lemma migrated_kept R P h res R' P' h' ms r :
  migrated R P h res R' P' h' ms -> lh_resourceId h = res -> kept r R R'.
Proof. intros Hm Hid. eapply kept_moves; [apply Hm|]. rewrite Hid. apply Hm. Qed.

(** A request of the resource is on the lock head after migration, with the same mode,
    count and flags. *)
Lemma migrated_request R P h res R' P' h' ms r q :
  migrated R P h res R' P' h' ms -> local_inv R (Some h) (fun p => find2 P p res) res ->
  R !! r = Some q -> live q -> req_res q = Some res ->
  exists q', R' !! r = Some q' /\ r ∈ members h' /\
    rq_mode q' = rq_mode q /\ rq_convertMode q' = rq_convertMode q /\
    rq_recursiveCount q' = rq_recursiveCount q /\ rq_compatibleFirst q' = rq_compatibleFirst q /\
    rq_status q' = rq_status q.
Proof.
  intros Hm Hl Hq Hlv Hr. destruct (mig_outcome _ _ _ _ _ _ _ _ Hm) as (_ & _ & Hmv & Hid' & _).
  pose proof (loc_id _ _ _ _ Hl h eq_refl) as Hid.
  assert (exists q', R' !! r = Some q' /\ req_res q' = Some res /\
    rq_mode q' = rq_mode q /\ rq_convertMode q' = rq_convertMode q /\
    rq_recursiveCount q' = rq_recursiveCount q /\ rq_compatibleFirst q' = rq_compatibleFirst q /\
    rq_status q' = rq_status q) as (q' & Hq' & Hr' & ? & ? & Hrc & ? & ?).
  { rewrite Hmv, Hid, Hq. case_decide as Hd; [|by exists q].
    destruct (mig_moved _ _ _ _ _ _ _ _ Hm r Hd) as (p & q0 & Hq0 & Hh).
    simplify_eq. eexists. simpl. split_and!; try done. by destruct Hh as [-> _]. }
  exists q'. split; [done|]. split; [|done].
  destruct (loc_located _ _ _ _ (mig_local _ _ _ _ _ _ _ _ Hm) r q' Hq')
    as [(h0 & [= <-] & _ & Hmem)|(? & ? & ? & _)]; try done.
  unfold live. by rewrite Hrc.
Qed.

(** ** The bucket section of [lock] *)

Lemma local_inv_findOrInsert R B plhs res :
  local_inv R (find_head B res) plhs res ->
  local_inv R (Some (bucket_findOrInsert B res)) plhs res.
Proof.
  unfold bucket_findOrInsert. intros Hl. destruct (find_head B res) as [h|]; [done|]. simpl.
  split; try by apply Hl.
  - by intros h [= <-].
  - intros h [= <-]. apply wf_head_initNew.
  - intros h [= <-]. split; simpl; [intros ???; set_solver|by intros ?].
  - intros p l Hp. by destruct (loc_plh_head _ _ _ _ Hl p l Hp) as (? & ? & _).
  - intros r q Hq Hlv Hr. destruct (loc_located _ _ _ _ Hl r q Hq Hlv Hr) as [(? & ? & _)|?];
      [done|by right].
Qed.

(** An operation that changes the lock head of [res] to [h']. *)
Lemma lm_inv_head_update st R' P' h' N res :
  lm_inv st ->
  (forall res', res' <> res -> agree (lm_requests st) R' res' /\
     forall p, find2 P' p res' = find2 (lm_partitions st) p res') ->
  (forall r q, R' !! r = Some q -> live q ->
     lm_requests st !! r = Some q \/ (rq_status q <> STATUS_NEW /\ req_res q = Some res)) ->
  local_inv R' (Some h') (fun p => find2 P' p res) res ->
  lm_inv (mkLockManager R' (put_head (lm_lockBuckets st) res h') P' N).
Proof.
  intros Hi Hf Hr Hl. eapply (lm_inv_update _ _ res); simpl; [done| |done| |].
  - intros res' Hne. destruct (Hf res' Hne). rewrite find_put_head, decide_False by done. done.
  - by rewrite find_put_head, decide_True.
  - apply buckets_ok_put, Hi.
Qed.

Lemma local_inv_push R h res r q' h' :
  local_inv R (Some h) (fun _ => None) res ->
  wf_head (<[r := q']> R) h' -> settled (<[r := q']> R) h' -> lh_resourceId h' = res ->
  (forall x, x ∈ members h' <-> x = r \/ x ∈ members h) -> rq_lock q' = Some res ->
  local_inv (<[r := q']> R) (Some h') (fun _ => None) res.
Proof.
  intros Hl Hwf Hst Hid Hmem Hlk. split; try by intros ? [= <-].
  all: try done.
  intros x qx [[<- <-]|[Hne Hx]]%lookup_insert_Some Hlv Hres; left; exists h'; rewrite Hmem.
  - auto.
  - by destruct (loc_located _ _ _ _ Hl x qx Hx Hlv Hres) as [(h0 & [= <-] & ? & ?)|(? & ? & ? & _)];
      auto.
Qed.

(** Requests that migration and a following update of [r] leave. *)
Lemma migrated_insert_requests st R1 P1 h h1 ms res r q' :
  let R := lm_requests st in
  migrated R (lm_partitions st) h res R1 P1 h1 ms -> lh_resourceId h = res ->
  (live q' -> rq_status q' <> STATUS_NEW /\ req_res q' = Some res) ->
  (forall q, R !! r = Some q -> live q -> req_res q = None \/ req_res q = Some res) ->
  (forall res', res' <> res -> agree R (<[r := q']> R1) res' /\
     forall p, find2 P1 p res' = find2 (lm_partitions st) p res') /\
  (forall x q, <[r := q']> R1 !! x = Some q -> live q ->
     R !! x = Some q \/ (rq_status q <> STATUS_NEW /\ req_res q = Some res)).
Proof.
  intros R Hm Hid Hq' Hr. destruct (mig_outcome _ _ _ _ _ _ _ _ Hm) as (_ & _ & Hmv & _). split.
  - intros res' Hne. split.
    2: { intros p. by rewrite (mig_plhs _ _ _ _ _ _ _ _ Hm), decide_False. }
    intros x q Hlv Hres. rewrite (migrated_agree _ _ _ _ _ _ _ _ res' Hm Hid Hne x q) by done.
    apply agree_insert with (res := res'); try done; [|intros Hl; naive_solver congruence].
    intros q0 Hq0 Hlv0. destruct (decide (req_res q0 = Some res')) as [E|]; [|done].
    apply (migrated_agree _ _ _ _ _ _ _ _ res' Hm Hid Hne r q0 Hlv0 E) in Hq0.
    destruct (Hr q0 Hq0 Hlv0); congruence.
  - intros x q [[<- <-]|[Hne Hx]]%lookup_insert_Some Hlv; [auto|].
    rewrite Hmv in Hx. case_decide as Hd; [|auto]. right.
    destruct (R !! x) as [q0|]; simplify_eq/=. done.
Qed.

Lemma fresh_not_moved R P h res R' P' h' ms r q :
  migrated R P h res R' P' h' ms -> R !! r = Some q -> rq_status q = STATUS_NEW ->
  R' !! r = Some q.
Proof.
  intros Hm Hq Hs. destruct (mig_outcome _ _ _ _ _ _ _ _ Hm) as (_ & _ & Hmv & _).
  rewrite (moves_notin _ _ _ _ _ Hmv); [done|]. intros Hr.
  destruct (mig_moved _ _ _ _ _ _ _ _ Hm r Hr) as (p & q0 & Hq0 & Hh & _). congruence.
Qed.

(** [newRequest] of a fresh request on a head without partitions. *)
Lemma newRequest_fresh R h res r q :
  local_inv R (Some h) (fun _ => None) res -> lh_partitions h = [] ->
  R !! r = Some q -> fresh_request q -> rq_partitioned q = false -> rq_mode q <> MODE_NONE ->
  exists s h', newRequest R h r = Some (<[r := with_lock res s q]> R, h',
      if decide (s = STATUS_GRANTED) then LOCK_OK else LOCK_WAITING) /\
    (s = STATUS_GRANTED \/ s = STATUS_WAITING) /\
    local_inv (<[r := with_lock res s q]> R) (Some h') (fun _ => None) res.
Proof.
  intros Hl Hp Hq Hf Hpt Hm. pose proof (loc_id _ _ _ _ Hl h eq_refl) as Hid.
  pose proof (loc_wf _ _ _ _ Hl h eq_refl) as Hwf.
  pose proof (loc_settled _ _ _ _ Hl h eq_refl) as Hst.
  assert (r ∉ members h) as Hr by (eapply partition_not_member; eauto; apply Hf).
  destruct Hf as (Hs & Hlk & Hpl & Hc & Hrc & _).
  destruct (conflicts (rq_mode q) (lh_grantedModes h) ||
    ((lh_compatibleFirstCount h =? 0)%nat && conflicts (rq_mode q) (lh_conflictModes h))) eqn:Hcf.
  - apply orb_true_iff in Hcf. rewrite andb_true_iff, Nat.eqb_eq in Hcf.
    exists STATUS_WAITING. eexists. rewrite <- Hid at 1.
    rewrite (newRequest_waiting R h r q), Hid by done. split_and!; [done|auto|].
    eapply local_inv_push; eauto.
    + apply wf_push_waiter; try done. rewrite Hid. by split_and!.
    + apply settled_push_waiter; try done. simpl. naive_solver.
    + intros x. unfold members. rewrite elem_of_app, push_waiter_elem. set_solver.
  - apply orb_false_iff in Hcf as [Hg Hcf].
    exists STATUS_GRANTED. eexists. rewrite <- Hid at 1.
    rewrite (newRequest_granted R h r q), Hid; try done.
    2: { intros H0. by rewrite H0 in Hcf. }
    split_and!; [done|auto|]. eapply local_inv_push; eauto.
    + apply wf_push_granted; try done. rewrite Hid. split_and!; simpl; try done; [lia|auto].
    + by apply settled_push_granted.
    + intros x. unfold members. simpl. set_solver.
Qed.

Lemma local_inv_add_partition R h plhs res p :
  Z.land (lh_grantedModes h) (Z.lnot intentModes) = 0 -> lh_conflictModes h = 0 ->
  local_inv R (Some h) plhs res ->
  local_inv R (Some {| h with lh_partitions := lh_partitions h ++ [p] |}) plhs res.
Proof.
  intros Hg Hc Hl. split; try by apply Hl.
  - intros h0 [= <-]. by apply (loc_id _ _ _ _ Hl h).
  - intros h0 [= <-]. pose proof (loc_wf _ _ _ _ Hl h eq_refl) as Hwf.
    by split; try apply Hwf.
  - intros h0 [= <-]. by apply settled_set_partitions, Hl.
  - intros p' l Hp. destruct (loc_plh_head _ _ _ _ Hl p' l Hp) as (h0 & [= <-] & ?).
    eexists. split; [done|]. simpl. set_solver.
  - intros r q Hq Hlv Hr. destruct (loc_located _ _ _ _ Hl r q Hq Hlv Hr)
      as [(h0 & [= <-] & ? & ?)|?]; [left|by right]. by eexists.
Qed.

(** The answer of [lock] and the status of the request afterwards. *)
Definition lock_answer (lr : LockResult) (s : Status) : Prop :=
  (lr = LOCK_OK /\ s = STATUS_GRANTED) \/ (lr = LOCK_WAITING /\ s = STATUS_WAITING).

Definition lock_outcome (st : LockManager) (res : ResourceId) (r : ReqPtr) (mode : LockMode)
    (out : option (LockManager * LockResult)) : Prop :=
  exists st' lr q', out = Some (st', lr) /\ lm_inv st' /\ lm_requests st' !! r = Some q' /\
    live q' /\ req_res q' = Some res /\ rq_mode q' = mode /\ lock_answer lr (rq_status q') /\
    (forall q, lm_requests st !! r = Some q ->
       rq_locker q' = rq_locker q /\ rq_recursiveCount q' = rq_recursiveCount q) /\
    kept r (lm_requests st) (lm_requests st').

Lemma lock_bucket_slow st res r q :
  lm_inv st -> lm_requests st !! r = Some q -> fresh_request q -> rq_mode q <> MODE_NONE ->
  lock_outcome st res r (rq_mode q)
    ('(R, P, h) ← migrate_if_partitioned (lm_requests st) (lm_partitions st)
                    (bucket_findOrInsert (lm_lockBuckets st) res);
     q ← R !! r;
     let R := <[r := {| q with rq_partitioned := false |}]> R in
     '(R, h, lr) ← newRequest R h r;
     Some ({| st with lm_requests := R;
                      lm_lockBuckets := put_head (lm_lockBuckets st) res h;
                      lm_partitions := P |}, lr)).
Proof.
  intros Hi Hq Hf Hm.
  pose proof (local_inv_findOrInsert _ _ _ _ (inv_local _ Hi res)) as Hl.
  set (h := bucket_findOrInsert (lm_lockBuckets st) res) in *.
  destruct (migrate_if_partitioned_spec _ _ h res Hl) as (R1 & P1 & h1 & ms & -> & Hmig).
  cbn [mbind option_bind].
  pose proof (fresh_not_moved _ _ _ _ _ _ _ _ r q Hmig Hq (proj1 Hf)) as Hq1.
  rewrite Hq1. cbn [mbind option_bind].
  set (q1 := {| q with rq_partitioned := false |}).
  assert (fresh_request q1) as Hf1 by (destruct Hf as (? & ? & ? & ? & ? & ?); by split_and!).
  assert (req_res q = None) as Hnone
    by (destruct Hf as (_ & Hl0 & Hp0 & _); unfold req_res; by rewrite Hl0, Hp0).
  pose proof (mig_local _ _ _ _ _ _ _ _ Hmig) as Hl1.
  assert (local_inv (<[r := q1]> R1) (Some h1) (fun _ => None) res) as Hl2.
  { apply (local_inv_frame R1); [|done]. apply agree_insert; [|intros _].
    - rewrite Hq1. intros ? [= <-]. by rewrite Hnone.
    - change (req_res q1) with (req_res q). by rewrite Hnone. }
  destruct (newRequest_fresh (<[r := q1]> R1) h1 res r q1) as (s & h' & -> & Hs & Hl3); try done.
  { by apply (mig_partitions _ _ _ _ _ _ _ _ Hmig). }
  { by rewrite lookup_insert_eq. }
  cbn [mbind option_bind]. rewrite insert_insert_eq in Hl3 |- *.
  eexists _, _, _. split; [done|]. split_and!; simpl; [|by rewrite lookup_insert_eq|..]; try done.
  - destruct (migrated_insert_requests st R1 P1 h h1 ms res r (with_lock res s q1)) as [HA HB];
      [done|by apply Hl|by destruct Hs as [-> | ->]|rewrite Hq; naive_solver|].
    apply lm_inv_head_update; [done..|]. eapply local_inv_ext; [|done]. intros p.
    simpl. by rewrite (mig_plhs _ _ _ _ _ _ _ _ Hmig), decide_True.
  - unfold live. simpl. destruct Hf as (_ & _ & _ & _ & -> & _). lia.
  - destruct Hs as [-> | ->]; [by left|by right].
  - rewrite Hq. by intros ? [= <-].
  - etrans; [|apply kept_insert]. eapply migrated_kept; [done|]. by apply (loc_id _ _ _ _ Hl).
Qed.

Lemma lock_bucket_section_spec st res r q :
  lm_inv st -> lm_requests st !! r = Some q -> fresh_request q -> rq_mode q <> MODE_NONE ->
  lock_outcome st res r (rq_mode q) (lock_bucket_section st res r).
Proof.
  intros Hi Hq Hf Hm. unfold lock_bucket_section. rewrite Hq. cbn [mbind option_bind].
  case_if; [|by apply lock_bucket_slow]. bprop.
  pose proof (local_inv_findOrInsert _ _ _ _ (inv_local _ Hi res)) as Hl.
  set (h := bucket_findOrInsert (lm_lockBuckets st) res) in *.
  rewrite (plh_newRequest_eq _ _ _ _ _ q) by done. cbn [mbind option_bind].
  eexists _, _, _. split; [done|]. split_and!; simpl; [|by rewrite lookup_insert_eq|..]; try done.
  - eapply (lm_inv_plh_add st res r q {| h with lh_partitions := lh_partitions h ++ [getPartition q] |});
      try done.
    + by apply local_inv_add_partition.
    + intros res'. apply find_put_head.
    + apply buckets_ok_put, Hi.
    + change (r ∉ members h). eapply partition_not_member; [|done|by apply Hf].
      by apply (loc_wf _ _ _ _ Hl h).
    + simpl. set_solver.
  - unfold live. simpl. destruct Hf as (_ & _ & _ & _ & -> & _). lia.
  - unfold req_res. simpl. by destruct Hf as (_ & -> & _).
  - by left.
  - rewrite Hq. by intros ? [= <-].
  - apply kept_insert.
Qed.

Lemma lock_spec st res r q mode :
  lm_inv st -> lm_requests st !! r = Some q -> live q -> rq_status q = STATUS_NEW ->
  mode <> MODE_NONE -> lock_outcome st res r mode (lock st res r mode).
Proof.
  intros Hi Hq Hlv Hs Hm. unfold lock.
  destruct (lock_prepare_spec st r q mode) as (-> & Hf & Hi1); [done..|].
  set (st1 := {| st with lm_requests := <[r := prepared mode q]> (lm_requests st) |}) in *.
  assert (lm_requests st1 !! r = Some (prepared mode q)) as Hq1 by apply lookup_insert_eq.
  cbn [mbind option_bind]. rewrite Hq1. cbn [mbind option_bind].
  assert (kept r (lm_requests st) (lm_requests st1)) as Hk by apply kept_insert.
  assert (lock_outcome st res r mode (lock_bucket_section st1 res r)) as Hslow.
  { destruct (lock_bucket_section_spec st1 res r _ Hi1 Hq1 Hf Hm)
      as (st' & lr & q' & Hrun & Hi' & Hq' & Hlv' & Hr' & Hm' & Ha & Hsame & Hk').
    exists st', lr, q'. destruct (Hsame _ Hq1) as [Hl' Hc'].
    split_and!; try done; [|by etrans]. rewrite Hq. by intros ? [= <-]. }
  destruct (rq_partitioned (prepared mode q)) eqn:Hp; [|done].
  destruct (lock_partition_section_spec st1 res r _ Hi1 Hq1 Hf Hp) as [[-> _]|(st2 & -> & Hi2 & HR)];
    [done|].
  cbn [mbind option_bind]. exists st2, LOCK_OK. eexists. rewrite HR, lookup_insert_eq.
  destruct (partition_holding_req _ _ _ (on_plh_holding res _ Hf Hp)).
  split_and!; try done; [by left|rewrite Hq; by intros ? [= <-]|].
  etrans; [exact Hk|apply kept_insert].
Qed.
