(* ===== verification/LockConvert.v ===== *)
(** * Conversion of a granted request

    [LockManager::convert] on a state that satisfies the invariant: it never aborts, it
    preserves the invariant, and the request is either granted the new mode or left
    converting behind a conflicting holder. *)

From Stdlib Require Import ZArith Lia.
From stdpp Require Import prelude gmap functions finite.
From S2P Require Import Prelude LockDefs LockHead LockHeadInv LockManager LockManagerInv.
From S2P Require Import LockManagerOps.

Open Scope Z_scope.

(** ** Changing the reference count of a request *)

Definition set_count (n : nat) (q : LockRequest) : LockRequest :=
  {| q with rq_recursiveCount := n |}.

Lemma wf_update_same R h r q q' :
  wf_head R h -> r ∈ lh_grantedList h -> R !! r = Some q -> holding (lh_resourceId h) q' ->
  rq_compatibleFirst q' = rq_compatibleFirst q -> rq_mode q' = rq_mode q ->
  rq_convertMode q' = rq_convertMode q -> rq_status q' = rq_status q ->
  wf_head (<[r := q']> R) h.
Proof.
  intros Hwf Hr Hq Hh Hcf Hm Hc Hs.
  pose proof (wf_update R h r q q' (lh_grantedCounts h) (lh_conversionsCount h) Hwf Hr Hq Hh Hcf)
    as Hu. simpl in Hu. unfold set_gcounts in Hu. rewrite <- (wf_gmodes _ _ Hwf) in Hu.
  destruct h. apply Hu; simpl in *.
  - intros r' q0 Hr' Hne Hq0. rewrite Hm. by apply (wf_compatible _ _ Hwf r r').
  - intros m. unfold granted_weight. by rewrite Hm, Hc.
  - unfold conversion_weight. by rewrite Hs.
  - intros Hp. by apply (wf_partitions _ _ Hwf).
Qed.

Lemma settled_update_same R h r q q' :
  settled R h -> R !! r = Some q -> rq_mode q' = rq_mode q ->
  rq_convertMode q' = rq_convertMode q -> rq_status q' = rq_status q ->
  settled (<[r := q']> R) h.
Proof.
  intros [Hc Hw] Hq Hm Hcm Hs. split; [|done]. intros x qx Hx Hqx Hsx.
  assert (exists qx0, R !! x = Some qx0 /\ rq_status qx0 = STATUS_CONVERTING /\
    rq_convertMode qx0 = rq_convertMode qx) as (qx0 & Hqx0 & Hsx0 & Hcx).
  { apply lookup_insert_Some in Hqx as [[<- <-]|[? ?]]; [exists q|by exists qx].
    split_and!; congruence. }
  destruct (Hc x qx0 Hx Hqx0 Hsx0) as (y & qy & Hy & Hne & Hqy & Hconf).
  rewrite Hcx in Hconf. destruct (decide (y = r)) as [->|Hyr].
  - exists r, q'. rewrite lookup_insert_eq. split_and!; try done. simplify_eq.
    by rewrite Hm, Hcm.
  - exists y, qy. by rewrite lookup_insert_ne.
Qed.

Lemma holding_set_count res n q :
  holding res q -> (0 < n)%nat -> rq_status q = STATUS_GRANTED -> holding res (set_count n q).
Proof.
  intros (? & ? & ? & ? & Hs) Hn Hst. split_and!; simpl; try done. left. split; [done|].
  destruct Hs as [[_ ?]|[? _]]; [done|congruence].
Qed.

Lemma local_inv_set_count R oh plhs res r q n :
  local_inv R oh plhs res -> R !! r = Some q -> live q -> req_res q = Some res ->
  rq_status q = STATUS_GRANTED -> (0 < n)%nat ->
  local_inv (<[r := set_count n q]> R) oh plhs res.
Proof.
  intros Hl Hq Hlv Hr Hs Hn.
  assert (forall h, oh = Some h -> r ∈ members h -> holding (lh_resourceId h) q /\ r ∈ lh_grantedList h)
    as Hh.
  { intros h Eh Hrh. pose proof (loc_wf _ _ _ _ Hl h Eh) as Hwf.
    destruct (member_status _ _ _ _ Hwf Hrh Hq) as [_ Hg]. specialize (Hg ltac:(congruence)).
    destruct (wf_holding _ _ Hwf r Hg) as (? & ? & ?). by simplify_eq. }
  split; try by apply Hl.
  - intros h Eh. pose proof (loc_wf _ _ _ _ Hl h Eh) as Hwf.
    destruct (decide (r ∈ members h)) as [Hrh|Hrh].
    + destruct (Hh h Eh Hrh). eapply wf_update_same; try done. by apply holding_set_count.
    + eapply wf_head_frame; [|done]. intros x Hx. apply lookup_insert_ne. set_solver.
  - intros h Eh. eapply settled_update_same; try done. by apply (loc_settled _ _ _ _ Hl h Eh).
  - intros p l x Hp Hx. destruct (loc_plh _ _ _ _ Hl p l x Hp Hx) as (qx & Hqx & Hpx).
    destruct (decide (x = r)) as [->|Hne]; [|by exists qx; rewrite lookup_insert_ne].
    exists (set_count n q). rewrite lookup_insert_eq. simplify_eq.
    by destruct Hpx as (? & ? & ? & ? & ? & ? & ? & ?); split_and!.
  - intros x qx [[<- <-]|[Hne Hx]]%lookup_insert_Some Hlvx Hrx.
    + by apply (loc_located _ _ _ _ Hl r q Hq Hlv).
    + by apply (loc_located _ _ _ _ Hl x qx).
Qed.

Lemma lm_inv_set_count st r q n :
  lm_inv st -> lm_requests st !! r = Some q -> live q -> rq_status q = STATUS_GRANTED ->
  (0 < n)%nat -> lm_inv {| st with lm_requests := <[r := set_count n q]> (lm_requests st) |}.
Proof.
  intros Hi Hq Hlv Hs Hn.
  destruct (req_res q) as [res|] eqn:Hres.
  2: { apply (inv_fresh _ Hi r q Hq Hlv) in Hres. congruence. }
  eapply (lm_inv_update _ _ res); simpl; [done| | | |apply Hi].
  - intros res' Hne. split_and!; [done..|]. apply agree_insert; [rewrite Hq; naive_solver congruence|].
    intros _. change (req_res (set_count n q)) with (req_res q). congruence.
  - intros x qx [[<- <-]|[Hne Hx]]%lookup_insert_Some _; [right|by left].
    split; [simpl; congruence|done].
  - by apply local_inv_set_count, Hn; try apply Hi.
Qed.

(** ** Changing one request of the lock head *)

(** [local_inv] of a present lock head, without the requirement that it is settled:
    the state before [_onLockModeChanged]. *)
Record unsettled (R : requests) (h : LockHead)
    (plhs : PartitionId -> option PartitionedLockHead) (res : ResourceId) : Prop := mk_unsettled {
  uns_id : lh_resourceId h = res;
  uns_wf : wf_head R h;
  uns_plh_nodup : forall p l, plhs p = Some l -> NoDup (plh_grantedList l);
  uns_plh : forall p l r, plhs p = Some l -> r ∈ plh_grantedList l ->
    exists q, R !! r = Some q /\ partition_holding p res q;
  uns_plh_head : forall p l, plhs p = Some l -> p ∈ lh_partitions h;
  uns_located : forall r q, R !! r = Some q -> live q -> req_res q = Some res ->
    located (Some h) plhs res r q;
}.

Lemma unsettled_local R h plhs res :
  unsettled R h plhs res -> settled R h -> local_inv R (Some h) plhs res.
Proof.
  intros [] Hs. split; try by intros ? [= <-].
  all: try done. intros p l Hp. exists h. eauto.
Qed.

Lemma unsettled_update R h plhs res r q q' h' :
  local_inv R (Some h) plhs res -> R !! r = Some q -> r ∈ members h ->
  wf_head (<[r := q']> R) h' -> lh_resourceId h' = res -> lh_partitions h' = lh_partitions h ->
  (forall x, x ∈ members h' <-> x ∈ members h /\ (x = r -> live q')) ->
  (live q' -> rq_lock q' = Some res) ->
  unsettled (<[r := q']> R) h' plhs res.
Proof.
  intros Hl Hq Hr Hwf Hid Hp Hmem Hlk.
  assert (rq_lock q = Some res) as Hlq.
  { pose proof (loc_wf _ _ _ _ Hl h eq_refl) as Hwf0.
    rewrite <- (loc_id _ _ _ _ Hl h eq_refl). apply elem_of_app in Hr as [Hr|Hr].
    - destruct (wf_holding _ _ Hwf0 r Hr) as (? & ? & ? & _). congruence.
    - destruct (wf_waiting _ _ Hwf0 r Hr) as (? & ? & ? & _). congruence. }
  split; try done.
  - apply Hl.
  - intros p l x Hpl Hx. destruct (loc_plh _ _ _ _ Hl p l x Hpl Hx) as (qx & Hqx & Hh).
    exists qx. rewrite lookup_insert_ne; [done|]. intros <-. destruct Hh as (_ & ? & _). congruence.
  - intros p l Hpl. destruct (loc_plh_head _ _ _ _ Hl p l Hpl) as (h0 & [= <-] & ?). by rewrite Hp.
  - intros x qx [[<- <-]|[Hne Hx]]%lookup_insert_Some Hlv Hres.
    + left. exists h'. rewrite Hmem. auto.
    + destruct (loc_located _ _ _ _ Hl x qx Hx Hlv Hres) as [(h0 & [= <-] & ? & ?)|?];
        [left|by right]. exists h'. rewrite Hmem. by split_and!.
Qed.

(** The count of a mode some request holds is positive. *)
Lemma mode_count_pos R h r q :
  wf_head R h -> r ∈ lh_grantedList h -> R !! r = Some q ->
  (1 <= lh_grantedCounts h (rq_mode q))%nat.
Proof.
  intros Hwf Hr Hq. rewrite (wf_gcounts _ _ Hwf). apply tally_pos. exists r, q.
  split_and!; [done..|]. unfold granted_weight. rewrite decide_True by done. lia.
Qed.

(** ** The two outcomes of a conversion *)

Definition converting (n : LockMode) (q : LockRequest) : LockRequest :=
  {| q with rq_status := STATUS_CONVERTING; rq_convertMode := n |}.

Definition begin_conversion (n : LockMode) (h : LockHead) : LockHead :=
  let h1 := set_gcounts (<[n := S (lh_grantedCounts h n)]> (lh_grantedCounts h)) h in
  {| h1 with lh_conversionsCount := S (lh_conversionsCount h) |}.

Definition with_mode (n : LockMode) (q : LockRequest) : LockRequest := {| q with rq_mode := n |}.

(** Exchange one held mode for another: [incGrantedModeCount(newMode)] and
    [decGrantedModeCount(mode)]. *)
Definition exchange_counts (m n : LockMode) (c : LockMode -> nat) : LockMode -> nat :=
  let c := <[n := S (c n)]> c in <[m := pred (c m)]> c.

Lemma exchange_mode_eq h m n :
  lh_grantedModes h = mask_of (lh_grantedCounts h) -> (1 <= lh_grantedCounts h m)%nat ->
  (h ← incGrantedModeCount h n; decGrantedModeCount h m) =
    Some (set_gcounts (exchange_counts m n (lh_grantedCounts h)) h).
Proof.
  intros Hm Hc. rewrite incGrantedModeCount_eq by done. cbn [mbind option_bind].
  rewrite decGrantedModeCount_eq; [done|done|]. simpl.
  destruct (decide (m = n)) as [->|Hne]; [rewrite fn_lookup_insert|rewrite fn_lookup_insert_ne];
    congruence || lia.
Qed.

Lemma exchange_counts_weight m n c x :
  (1 <= c m)%nat ->
  (exchange_counts m n c x + (if decide (m = x) then 1 else 0) =
   c x + (if decide (n = x) then 1 else 0))%nat.
Proof.
  intros Hm. unfold exchange_counts.
  destruct (decide (m = x)) as [<-|Hx].
  - rewrite fn_lookup_insert. case_decide; subst; rewrite ?fn_lookup_insert, ?fn_lookup_insert_ne by done; lia.
  - rewrite fn_lookup_insert_ne by done.
    case_decide; subst; rewrite ?fn_lookup_insert, ?fn_lookup_insert_ne by done; lia.
Qed.

Section conversion.
Context {R : requests} {h : LockHead} {r : ReqPtr} {q : LockRequest} (n : LockMode).
Context (Hwf : wf_head R h) (Hr : r ∈ lh_grantedList h) (Hq : R !! r = Some q).
Context (Hs : rq_status q = STATUS_GRANTED).

Local Lemma granted_holding : holding (lh_resourceId h) q /\ rq_convertMode q = MODE_NONE.
Proof using Hwf Hr Hq Hs.
  destruct (wf_holding _ _ Hwf r Hr) as (q0 & Hq0 & Hh). simplify_eq. split; [done|].
  destruct Hh as (_ & _ & _ & _ & [[_ ?]|[? _]]); [done|congruence].
Qed.

Lemma wf_begin_conversion :
  n <> MODE_NONE -> n <> rq_mode q -> isModeCovered (rq_mode q) n = true ->
  (2 <= rq_recursiveCount q)%nat -> lh_partitions h = [] ->
  wf_head (<[r := converting n q]> R) (begin_conversion n h).
Proof using Hwf Hr Hq Hs.
  intros Hn Hne Hcov Hc Hp. destruct granted_holding as [Hh Hcm].
  apply (wf_update R h r q); simpl; try done.
  - destruct Hh as (? & ? & ? & ? & _). split_and!; simpl; try done. right. by split_and!.
  - intros r' q0 Hr' Hne' Hq0. by apply (wf_compatible _ _ Hwf r r').
  - intros m. pose proof (insert_count_weight (lh_grantedCounts h) (with_mode n q) m) as Hi.
    simpl in Hi. rewrite Hi.
    unfold mode_weight, granted_weight. simpl. rewrite Hcm.
    destruct (decide (n = m)) as [<-|]; repeat case_decide; naive_solver lia.
  - unfold conversion_weight. simpl. rewrite Hs. simpl. lia.
Qed.

Lemma settled_begin_conversion :
  settled R h -> conflicts n (mask_of (others (lh_grantedCounts h) (rq_mode q) MODE_NONE)) = true ->
  settled (<[r := converting n q]> R) (begin_conversion n h).
Proof using Hwf Hr Hq Hs.
  intros [Hcb Hw] Hc. destruct granted_holding as [Hh Hcm]. split; [|done].
  rewrite <- Hcm in Hc. apply (others_spec R h r q n Hwf Hr Hq) in Hc.
  intros x qx Hx [[<- <-]|[Hne Hqx]]%lookup_insert_Some Hsx; simpl.
  - destruct Hc as (y & qy & Hy & Hyr & Hqy & Hm). exists y, qy.
    rewrite lookup_insert_ne by done. by split_and!.
  - destruct (Hcb x qx Hx Hqx Hsx) as (y & qy & Hy & Hyx & Hqy & Hm).
    destruct (decide (y = r)) as [->|Hyr]; [|exists y, qy; by rewrite lookup_insert_ne].
    exists r, (converting n q). rewrite lookup_insert_eq. split_and!; try done. simplify_eq. left.
    destruct Hm as [Hm|Hm]; [done|]. rewrite Hcm in Hm. by destruct (rq_convertMode qx).
Qed.

Lemma wf_with_mode :
  n <> MODE_NONE ->
  (forall r' q0, r' ∈ lh_grantedList h -> r' <> r -> R !! r' = Some q0 ->
     mode_conflict n (rq_mode q0) = false) ->
  (lh_partitions h <> [] -> isModeCovered n (rq_mode q) = true) ->
  wf_head (<[r := with_mode n q]> R)
    (set_gcounts (exchange_counts (rq_mode q) n (lh_grantedCounts h)) h).
Proof using Hwf Hr Hq Hs.
  intros Hn Hc Hp. destruct granted_holding as [Hh Hcm].
  pose proof (mode_count_pos _ _ _ _ Hwf Hr Hq) as Hpos.
  assert (forall m, (exchange_counts (rq_mode q) n (lh_grantedCounts h) m + granted_weight m q =
    lh_grantedCounts h m + granted_weight m (with_mode n q))%nat) as Hw.
  { intros m. pose proof (exchange_counts_weight (rq_mode q) n _ m Hpos).
    unfold granted_weight. simpl. lia. }
  apply (wf_update R h r q (with_mode n q) _ (lh_conversionsCount h)); simpl; try done.
  - destruct Hh as (? & ? & ? & ? & ?). split_and!; simpl; try done. left. by split.
  - intros Hne. destruct (wf_partitions _ _ Hwf Hne) as [Hi _]. specialize (Hp Hne).
    rewrite (wf_gmodes _ _ Hwf) in Hi. apply mask_of_intent in Hi as (H0 & H3 & H4).
    apply mask_of_intent. specialize (Hw MODE_NONE) as W0.
    specialize (Hw MODE_S) as W3. specialize (Hw MODE_X) as W4.
    unfold granted_weight in W0, W3, W4. simpl in W0, W3, W4.
    destruct (rq_mode q) eqn:Em, n; simpl in *; try done; lia.
Qed.

Lemma settled_with_mode :
  settled R h -> isModeCovered (rq_mode q) n = true ->
  settled (<[r := with_mode n q]> R)
    (set_gcounts (exchange_counts (rq_mode q) n (lh_grantedCounts h)) h).
Proof using Hwf Hr Hq Hs.
  intros [Hcb Hw] Hcov. destruct granted_holding as [Hh Hcm]. split; [|done].
  intros x qx Hx [[<- <-]|[Hne Hqx]]%lookup_insert_Some Hsx; simpl; [simpl in Hsx; congruence|].
  destruct (Hcb x qx Hx Hqx Hsx) as (y & qy & Hy & Hyx & Hqy & Hm).
  destruct (decide (y = r)) as [->|Hyr]; [|exists y, qy; by rewrite lookup_insert_ne].
  exists r, (with_mode n q). rewrite lookup_insert_eq. split_and!; try done. simplify_eq.
  destruct Hm as [Hm|Hm]; [left|right; done]. rewrite mode_conflict_sym in Hm |- *.
  by eapply isModeCovered_spec.
Qed.
End conversion.

(** ** [convert] *)

Definition convert_outcome (st : LockManager) (res : ResourceId) (r : ReqPtr) (q : LockRequest)
    (newMode : LockMode) (out : option (LockManager * LockResult)) : Prop :=
  exists st' lr q', out = Some (st', lr) /\ lm_inv st' /\ lm_requests st' !! r = Some q' /\
    req_res q' = Some res /\ rq_recursiveCount q' = S (rq_recursiveCount q) /\
    ((lr = LOCK_OK /\ rq_status q' = STATUS_GRANTED /\
      rq_mode q' = if isModeCovered newMode (rq_mode q) then rq_mode q else newMode) \/
     (lr = LOCK_WAITING /\ rq_status q' = STATUS_CONVERTING /\
      rq_mode q' = rq_mode q /\ rq_convertMode q' = newMode)) /\
    rq_locker q' = rq_locker q /\ kept r (lm_requests st) (lm_requests st').

Lemma convert_mask R h r q :
  wf_head R h -> r ∈ lh_grantedList h -> R !! r = Some q -> rq_status q = STATUS_GRANTED ->
  forall n, conflicts n (mask_of (others (lh_grantedCounts h) (rq_mode q) MODE_NONE)) = false ->
  forall r' q', r' ∈ lh_grantedList h -> r' <> r -> R !! r' = Some q' ->
    mode_conflict n (rq_mode q') = false.
Proof.
  intros Hwf Hr Hq Hs n Hc r' q' Hr' Hne Hq'.
  destruct (granted_holding Hwf Hr Hq Hs) as [_ Hcm]. rewrite <- Hcm in Hc.
  apply not_true_iff_false. intros Hm. apply not_true_iff_false in Hc. apply Hc.
  apply (others_spec R h r q); eauto 10.
Qed.

(** The local effect of the slow path, after migration. *)
Lemma convert_local R h res r q n :
  local_inv R (Some h) (fun _ => None) res -> lh_partitions h = [] -> r ∈ members h ->
  R !! r = Some q -> rq_status q = STATUS_GRANTED -> (2 <= rq_recursiveCount q)%nat ->
  isModeCovered n (rq_mode q) = false -> isModeCovered (rq_mode q) n = true ->
  let mask := modesWithoutHolder (lh_grantedCounts h) (rq_mode q) real_modes 0 in
  if conflicts n mask
  then incGrantedModeCount {| h with lh_conversionsCount := S (lh_conversionsCount h) |} n =
         Some (begin_conversion n h) /\
       local_inv (<[r := converting n q]> R) (Some (begin_conversion n h)) (fun _ => None) res
  else exists h', (h ← incGrantedModeCount h n; decGrantedModeCount h (rq_mode q)) = Some h' /\
       local_inv (<[r := with_mode n q]> R) (Some h') (fun _ => None) res.
Proof.
  intros Hl Hp Hr Hq Hs Hc Hn1 Hn2. cbv zeta. rewrite modesWithoutHolder_eq.
  pose proof (loc_wf _ _ _ _ Hl h eq_refl) as Hwf.
  pose proof (loc_settled _ _ _ _ Hl h eq_refl) as Hst.
  pose proof (loc_id _ _ _ _ Hl h eq_refl) as Hid.
  destruct (member_status _ _ _ _ Hwf Hr Hq) as [_ Hg]. specialize (Hg ltac:(congruence)).
  destruct (granted_holding Hwf Hg Hq Hs) as [Hh Hcm].
  assert (n <> MODE_NONE) as Hnn by (intros ->; by destruct (rq_mode q)).
  assert (n <> rq_mode q) as Hne by (intros ->; by rewrite isModeCovered_refl in Hn1).
  assert (rq_lock q = Some res) as Hlk by (destruct Hh; congruence).
  destruct (conflicts n _) eqn:Hcf.
  - split; [by rewrite incGrantedModeCount_eq by apply (wf_gmodes _ _ Hwf)|].
    apply unsettled_local; [|by apply settled_begin_conversion].
    apply (unsettled_update R h _ res r q); try done; [by apply wf_begin_conversion|].
    intros x. split; [|naive_solver]. intros Hx. split; [done|]. intros _. unfold live. simpl. lia.
  - eexists. rewrite exchange_mode_eq; [|apply (wf_gmodes _ _ Hwf)|by eapply mode_count_pos].
    split; [done|]. apply unsettled_local; [|by apply settled_with_mode].
    apply (unsettled_update R h _ res r q); try done.
    + apply wf_with_mode; try done. by apply (convert_mask R h r q).
    + intros x. split; [|naive_solver]. intros Hx. split; [done|]. intros _. unfold live. simpl. lia.
Qed.

(** The lock head of a live request's resource exists. *)
Lemma req_head_exists st r q res :
  lm_inv st -> lm_requests st !! r = Some q -> live q -> req_res q = Some res ->
  exists h, find_head (lm_lockBuckets st) res = Some h.
Proof.
  intros Hi Hq Hlv Hr.
  destruct (loc_located _ _ _ _ (inv_local _ Hi res) r q Hq Hlv Hr)
    as [(h & ? & _)|(p & l & Hp & _)]; [by exists h|].
  destruct (loc_plh_head _ _ _ _ (inv_local _ Hi res) p l Hp) as (h & ? & _). by exists h.
Qed.

(** Storing the result of the slow path. *)
Lemma convert_store st R2 P2 h h2 ms res r q1 q' h' :
  lm_inv st -> lm_requests st !! r = Some q1 -> req_res q1 = Some res ->
  local_inv (lm_requests st) (Some h) (fun p => find2 (lm_partitions st) p res) res ->
  migrated (lm_requests st) (lm_partitions st) h res R2 P2 h2 ms ->
  req_res q' = Some res -> rq_status q' <> STATUS_NEW ->
  local_inv (<[r := q']> R2) (Some h') (fun _ => None) res ->
  lm_inv {| st with lm_requests := <[r := q']> R2;
                    lm_lockBuckets := put_head (lm_lockBuckets st) res h';
                    lm_partitions := P2 |}.
Proof.
  intros Hi Hq1 Hr1 Hl1 Hmig Hr' Hs' Hl'.
  destruct (migrated_insert_requests st R2 P2 h h2 ms res r q')
    as [HA HB]; [done|by apply (loc_id _ _ _ _ Hl1)|done| |].
  { rewrite Hq1. intros ? [= <-] _. by right. }
  apply lm_inv_head_update; [done..|].
  eapply local_inv_ext; [|done]. intros p. simpl.
  by rewrite (mig_plhs _ _ _ _ _ _ _ _ Hmig), decide_True.
Qed.

(** The part of [convert] after the count has been incremented and the modes compared. *)
Lemma convert_slow st res r q1 n :
  lm_inv st -> lm_requests st !! r = Some q1 -> rq_status q1 = STATUS_GRANTED ->
  (2 <= rq_recursiveCount q1)%nat -> req_res q1 = Some res ->
  isModeCovered n (rq_mode q1) = false -> isModeCovered (rq_mode q1) n = true ->
  exists st' lr q',
    (h ← find_head (lm_lockBuckets st) res;
     '(R, P, h) ← migrate_if_partitioned (lm_requests st) (lm_partitions st) h;
     q ← R !! r;
     let mask := modesWithoutHolder (lh_grantedCounts h) (rq_mode q) real_modes 0 in
     if conflicts n mask then
       let q := {| q with rq_status := STATUS_CONVERTING; rq_convertMode := n |} in
       let h := {| h with lh_conversionsCount := S (lh_conversionsCount h) |} in
       h ← incGrantedModeCount h (rq_convertMode q);
       Some ({| st with lm_requests := <[r := q]> R;
                        lm_lockBuckets := put_head (lm_lockBuckets st) res h;
                        lm_partitions := P |}, LOCK_WAITING)
     else
       h ← incGrantedModeCount h n;
       h ← decGrantedModeCount h (rq_mode q);
       let q := {| q with rq_mode := n |} in
       Some ({| st with lm_requests := <[r := q]> R;
                        lm_lockBuckets := put_head (lm_lockBuckets st) res h;
                        lm_partitions := P |}, LOCK_OK)) = Some (st', lr) /\
    lm_inv st' /\ lm_requests st' !! r = Some q' /\ req_res q' = Some res /\
    rq_recursiveCount q' = rq_recursiveCount q1 /\
    ((lr = LOCK_OK /\ rq_status q' = STATUS_GRANTED /\ rq_mode q' = n) \/
     (lr = LOCK_WAITING /\ rq_status q' = STATUS_CONVERTING /\
      rq_mode q' = rq_mode q1 /\ rq_convertMode q' = n)) /\
    rq_locker q' = rq_locker q1 /\ kept r (lm_requests st) (lm_requests st').
Proof.
  intros Hi Hq1 Hs Hrc Hres Hn1 Hn2.
  assert (live q1) as Hlv by (unfold live; lia).
  destruct (req_head_exists _ r q1 res Hi Hq1) as [h Hh]; [done..|]. rewrite Hh.
  cbn [mbind option_bind]. pose proof (inv_local _ Hi res) as Hl1. rewrite Hh in Hl1.
  destruct (migrate_if_partitioned_spec _ _ h res Hl1) as (R2 & P2 & h2 & ms & -> & Hmig).
  destruct (migrated_request _ _ _ _ _ _ _ _ r q1 Hmig Hl1 Hq1)
    as (q2 & Hq2 & Hmem & Hm2 & Hc2 & Hrc2 & Hcf2 & Hs2); [done..|].
  cbn [mbind option_bind]. rewrite Hq2. cbn [mbind option_bind]. rewrite <- Hm2 in *.
  pose proof (mig_local _ _ _ _ _ _ _ _ Hmig) as Hl2.
  pose proof (convert_local R2 h2 res r q2 n Hl2 (mig_partitions _ _ _ _ _ _ _ _ Hmig) Hmem Hq2
    ltac:(congruence) ltac:(lia) Hn1 Hn2) as Hloc. cbv zeta in Hloc |- *.
  assert (req_res q2 = Some res) as Hr2.
  { destruct (wf_member_req R2 h2 r) as (? & ? & _ & E); [by apply (loc_wf _ _ _ _ Hl2)|done|].
    rewrite (loc_id _ _ _ _ Hl2 h2 eq_refl) in E. congruence. }
  pose proof (loc_id _ _ _ _ Hl1 h eq_refl) as Hid.
  assert (kept r (lm_requests st) R2) as Hk by by eapply migrated_kept.
  assert (rq_locker q2 = rq_locker q1) as Hlock.
  { pose proof (migrated_kept _ _ _ _ _ _ _ _ (Pos.succ r) Hmig Hid) as Hk'.
    destruct (Hk' r ltac:(lia)) as [_ Hs']. destruct (Hs' q1 Hq1) as (? & ? & ?).
    simplify_eq. by apply same_locker. }
  destruct (conflicts n _).
  - destruct Hloc as [Hinc Hl3]. cbn [rq_convertMode]. rewrite Hinc. cbn [mbind option_bind].
    eexists _, _, (converting n q2). split; [done|]. split_and!; simpl; try done.
    + by eapply (convert_store st R2 P2 h h2 ms res r q1).
    + by rewrite lookup_insert_eq.
    + right. by split_and!.
    + etrans; [exact Hk|apply kept_insert].
  - destruct Hloc as (h3 & Hex & Hl3).
    destruct (incGrantedModeCount h2 n) as [h4|]; [|done]. cbn [mbind option_bind] in Hex |- *.
    rewrite Hex. cbn [mbind option_bind].
    eexists _, _, (with_mode n q2). split; [done|]. split_and!; simpl; try done.
    + eapply (convert_store st R2 P2 h h2 ms res r q1); try done. simpl. congruence.
    + by rewrite lookup_insert_eq.
    + left. split_and!; [done|congruence|done].
    + etrans; [exact Hk|apply kept_insert].
Qed.

Lemma convert_spec st res r q n :
  lm_inv st -> lm_requests st !! r = Some q -> live q -> rq_status q = STATUS_GRANTED ->
  req_res q = Some res ->
  isModeCovered n (rq_mode q) = true \/ isModeCovered (rq_mode q) n = true ->
  convert_outcome st res r q n (convert st res r n).
Proof.
  intros Hi Hq Hlv Hs Hres Hcov. unfold convert. rewrite Hq. cbn [mbind option_bind].
  rewrite invariant_bind by by apply bool_decide_eq_true.
  rewrite invariant_bind by by apply Nat.ltb_lt.
  pose proof (lm_inv_set_count st r q (S (rq_recursiveCount q)) Hi Hq Hlv Hs ltac:(lia)) as Hi1.
  fold (isModeCovered n (rq_mode q)). destruct (isModeCovered n (rq_mode q)) eqn:Hn1.
  { eexists _, _, (set_count (S (rq_recursiveCount q)) q). split; [done|].
    split_and!; simpl; try done; [by rewrite lookup_insert_eq|left; by rewrite Hn1|].
    apply kept_insert. }
  destruct Hcov as [?|Hn2]; [done|]. cbv zeta. rewrite Z.lor_comm.
  rewrite invariant_bind by exact Hn2.
  destruct (convert_slow {| st with lm_requests := <[r := set_count (S (rq_recursiveCount q)) q]>
                                      (lm_requests st) |} res r
              (set_count (S (rq_recursiveCount q)) q) n) as (st' & lr & q' & Hrun & Hi' & Hq' & Hr' & Hc' & Hout & Hlock & Hk);
    try done; [apply lookup_insert_eq|unfold live in Hlv; simpl; lia|].
  exists st', lr, q'. split; [exact Hrun|]. split_and!; try done; [by rewrite Hn1|].
  etrans; [|exact Hk]. apply kept_insert.
Qed.
