(* ===== verification/LockUnlock.v ===== *)
(** * Releasing, downgrading and cleaning up

    [LockManager::unlock], [downgrade] and [cleanupUnusedLocks] on a state that satisfies
    the invariant: no [invariant] of the source fails and the invariant is preserved. *)

From Stdlib Require Import ZArith Lia.
From stdpp Require Import prelude gmap functions finite.
From S2P Require Import Prelude LockDefs LockHead LockHeadInv LockManager LockManagerInv.
From S2P Require Import LockManagerOps LockConvert.

Open Scope Z_scope.

(** ** [_onLockModeChanged], globally *)

Lemma grant_request_same q :
  rq_lock (grant_request q) = rq_lock q /\
  rq_partitionedLock (grant_request q) = rq_partitionedLock q /\
  rq_recursiveCount (grant_request q) = rq_recursiveCount q /\
  req_res (grant_request q) = req_res q /\ rq_status (grant_request q) = STATUS_GRANTED.
Proof. unfold grant_request. by case_decide. Qed.

Section woken.
Context {R : requests} {h : LockHead} {plhs : PartitionId -> option PartitionedLockHead}.
Context {res : ResourceId} {out : option (requests * LockHead * list Notification)}.
Context {R' : requests} {h' : LockHead} {ws : list ReqPtr}.
Context (Hu : unsettled R h plhs res) (Hout : mode_changed_outcome R h out R' h' ws).

Lemma woken_request r : r ∈ ws -> exists q, R !! r = Some q /\ live q /\ req_res q = Some res.
Proof using Hu Hout.
  intros Hr. destruct Hout as (_ & _ & _ & _ & _ & Hws & _).
  destruct (Hws r Hr) as (q & Hq & Hmem).
  destruct (wf_member_req R h r) as (q' & ? & ? & ?); [by apply Hu|unfold members; set_solver|].
  exists q'. by rewrite <- (uns_id _ _ _ _ Hu).
Qed.

Lemma woken_lookup r q' :
  R' !! r = Some q' -> exists q, R !! r = Some q /\ req_res q = req_res q' /\
    rq_lock q = rq_lock q' /\ rq_partitionedLock q = rq_partitionedLock q' /\
    rq_recursiveCount q = rq_recursiveCount q' /\
    (q = q' \/ (r ∈ ws /\ rq_status q' = STATUS_GRANTED)).
Proof using Hout.
  destruct Hout as (_ & _ & _ & Hw & _). rewrite Hw. case_decide as Hd.
  - destruct (R !! r) as [q|]; intros [= <-].
    exists q. destruct (grant_request_same q) as (-> & -> & -> & -> & ->). naive_solver.
  - intros Hq. exists q'. naive_solver.
Qed.

Lemma local_inv_woken : local_inv R' (Some h') plhs res.
Proof using Hu Hout.
  pose proof Hout as (_ & Hwf & Hst & Hw & _ & Hws & Hmem & _ & Hid & Hp).
  apply unsettled_local; [|done]. split; try done.
  - rewrite Hid. apply Hu.
  - apply Hu.
  - intros p l r Hpl Hr. destruct (uns_plh _ _ _ _ Hu p l r Hpl Hr) as (q & Hq & Hh).
    exists q. split; [|done]. rewrite Hw. case_decide as Hd; [|done].
    destruct (Hws r Hd) as (q0 & Hq0 & Hmem0).
    assert (r ∉ members h) as []; [|unfold members; set_solver].
    eapply partition_not_member; [by apply Hu|exact Hq|apply Hh].
  - rewrite Hp. apply Hu.
  - intros r q' Hq' Hlv Hr. apply woken_lookup in Hq' as (q & Hq & Er & El & Ep & Ec & _).
    destruct (uns_located _ _ _ _ Hu r q Hq) as [(h0 & [= <-] & ? & ?)|(p & l & ? & ? & ? & ?)].
    + unfold live in *. congruence.
    + congruence.
    + left. exists h'. rewrite Hmem, <- El. auto.
    + right. exists p, l. rewrite <- El, <- Ep. auto.
Qed.

Lemma woken_agree res' : res' <> res -> agree R R' res'.
Proof using Hu Hout.
  intros Hne r q Hlv Hr. pose proof Hout as (_ & _ & _ & Hw & _).
  rewrite Hw. case_decide as Hd; [|done].
  destruct (woken_request r Hd) as (q0 & Hq0 & _ & Hr0). rewrite Hq0. simpl.
  destruct (grant_request_same q0) as (_ & _ & _ & Hg & _). split; intros [= <-]; congruence.
Qed.

Lemma woken_fresh r q :
  R' !! r = Some q -> live q ->
  R !! r = Some q \/ (rq_status q <> STATUS_NEW /\ req_res q = Some res).
Proof using Hu Hout.
  intros Hq Hlv. apply woken_lookup in Hq as (q0 & Hq0 & Er & _ & _ & _ & [->|[Hr Hs]]); [by left|].
  right. split; [congruence|]. destruct (woken_request r Hr) as (q1 & ? & _ & ?). congruence.
Qed.
End woken.

Lemma agree_trans R1 R2 R3 res : agree R1 R2 res -> agree R2 R3 res -> agree R1 R3 res.
Proof. intros H1 H2 r q Hlv Hr. rewrite (H1 r q Hlv Hr). by apply H2. Qed.

Lemma lm_inv_mode_changed st res r q q' h1 check :
  lm_inv st -> lm_requests st !! r = Some q -> live q -> req_res q = Some res ->
  (live q' -> rq_status q' <> STATUS_NEW /\ req_res q' = Some res) ->
  unsettled (<[r := q']> (lm_requests st)) h1 (fun p => find2 (lm_partitions st) p res) res ->
  (check = false -> waiters_have_holder h1) ->
  exists R' h' ws,
    mode_changed_outcome (<[r := q']> (lm_requests st)) h1
      (onLockModeChanged (<[r := q']> (lm_requests st)) h1 check) R' h' ws /\
    lm_inv (mkLockManager R' (put_head (lm_lockBuckets st) res h') (lm_partitions st)
              (lm_notified st ++ notes (<[r := q']> (lm_requests st)) res ws)).
Proof.
  intros Hi Hq Hlv Hres Hq' Hu Hck.
  destruct (onLockModeChanged_spec _ h1 check (uns_wf _ _ _ _ Hu) Hck) as (R' & h' & ws & Hout & _).
  exists R', h', ws. split; [done|]. apply lm_inv_head_update; [done| | |].
  - intros res' Hne. split; [|done]. eapply agree_trans; [|by eapply woken_agree].
    apply agree_insert; [rewrite Hq; naive_solver congruence|]. intros Hl. naive_solver congruence.
  - intros x qx Hx Hlx.
    destruct (woken_fresh Hu Hout x qx Hx Hlx) as [[[<- <-]|[Hne Hx0]]%lookup_insert_Some|?]; auto.
  - by eapply local_inv_woken.
Qed.

(** ** The three cases of [unlock] under the bucket mutex *)

Lemma dead_insert_frame R h1 r q n :
  r ∉ members h1 -> wf_head R h1 -> wf_head (<[r := set_count n q]> R) h1.
Proof. intros Hn. apply wf_head_frame. intros x Hx. apply lookup_insert_ne. set_solver. Qed.

Section unlock_cases.
Context {R : requests} {h : LockHead} {plhs : PartitionId -> option PartitionedLockHead}.
Context {res : ResourceId} {r : ReqPtr} {q : LockRequest}.
Context (Hl : local_inv R (Some h) plhs res) (Hr : r ∈ members h) (Hq : R !! r = Some q).

Local Lemma head_wf : wf_head R h.
Proof using Hl. by apply (loc_wf _ _ _ _ Hl). Qed.

Local Lemma head_id : lh_resourceId h = res.
Proof using Hl. by apply (loc_id _ _ _ _ Hl). Qed.

Lemma unlock_granted_run :
  rq_status q = STATUS_GRANTED ->
  (let h := {| h with lh_grantedList := remove_request r (lh_grantedList h) |} in
   h ← decGrantedModeCount h (rq_mode q);
   if rq_compatibleFirst q then
     invariant (0 <? lh_compatibleFirstCount h)%nat;;
     let h := {| h with lh_compatibleFirstCount := pred (lh_compatibleFirstCount h) |} in
     invariant ((lh_compatibleFirstCount h =? 0)%nat ||
                negb (bool_decide (lh_grantedList h = [])));;
     Some h
   else Some h) = Some (drop_granted r q h).
Proof using Hl Hr Hq.
  intros Hs. pose proof head_wf as Hwf.
  destruct (member_status _ _ _ _ Hwf Hr Hq) as [_ Hg]. specialize (Hg ltac:(congruence)).
  destruct (wf_drop_granted R h r q Hwf Hg Hq Hs) as (Hwf1 & _ & Hc & Hcf). cbv zeta.
  rewrite decGrantedModeCount_eq by (try apply (wf_gmodes _ _ Hwf); done).
  cbn [mbind option_bind]. unfold drop_granted, compatible_weight in *.
  destruct (rq_compatibleFirst q) eqn:Ecf.
  - simpl. rewrite invariant_bind by by apply Nat.ltb_lt.
    rewrite invariant_bind; [by rewrite Nat.sub_1_r|].
    case_bool_decide as Hnil; [|by rewrite orb_true_r]. apply orb_true_iff. left. apply Nat.eqb_eq.
    pose proof (wf_compatibleFirst _ _ Hwf1) as E. simpl in E. rewrite Hnil, tally_nil in E. lia.
  - by rewrite Nat.sub_0_r.
Qed.

Lemma unlock_granted_unsettled :
  rq_status q = STATUS_GRANTED ->
  unsettled (<[r := set_count 0 q]> R) (drop_granted r q h) plhs res /\
  ((lh_grantedCounts (drop_granted r q h) (rq_mode q) =? 0)%nat = false ->
   waiters_have_holder (drop_granted r q h)).
Proof using Hl Hr Hq.
  intros Hs. pose proof head_wf as Hwf.
  destruct (member_status _ _ _ _ Hwf Hr Hq) as [_ Hg]. specialize (Hg ltac:(congruence)).
  destruct (wf_drop_granted R h r q Hwf Hg Hq Hs) as (Hwf1 & Hn & _). split.
  - apply (unsettled_update R h plhs res r q); try done.
    + by apply dead_insert_frame.
    + apply head_id.
    + intros x. unfold members. simpl. rewrite !elem_of_app, elem_of_remove_request.
      assert (r ∉ lh_conflictList h) by (intros ?; by eapply (wf_disjoint Hwf)).
      unfold live. simpl. split; [|naive_solver lia]. intros [?|?]; [naive_solver|].
      split; [auto|]. intros ->. done.
    + unfold live. simpl. lia.
  - intros Hc _ Hnil. apply Nat.eqb_neq in Hc.
    rewrite (wf_gcounts _ _ Hwf1), Hnil, tally_nil in Hc. done.
Qed.

Lemma unlock_waiting_case :
  rq_status q = STATUS_WAITING ->
  rq_recursiveCount q = 1%nat /\
  decConflictModeCount {| h with lh_conflictList := remove_request r (lh_conflictList h) |}
    (rq_mode q) = Some (drop_waiter r q h) /\ (r ∉ members (drop_waiter r q h)) /\
  unsettled (<[r := set_count 0 q]> R) (drop_waiter r q h) plhs res.
Proof using Hl Hr Hq.
  intros Hs. pose proof head_wf as Hwf.
  destruct (member_status _ _ _ _ Hwf Hr Hq) as [Hc _]. specialize (Hc Hs).
  destruct (wf_drop_waiter R h r q Hwf Hc Hq) as (Hwf1 & Hn & Hcount).
  destruct (wf_waiting _ _ Hwf r Hc) as (q0 & Hq0 & Hw). simplify_eq. split_and!.
  - apply Hw.
  - by rewrite decConflictModeCount_eq by (try apply (wf_cmodes _ _ Hwf); done).
  - done.
  - apply (unsettled_update R h plhs res r q); try done.
    + by apply dead_insert_frame.
    + apply head_id.
    + intros x. unfold members. simpl. rewrite !elem_of_app, elem_of_remove_request.
      assert (r ∉ lh_grantedList h) by (intros ?; by eapply (wf_disjoint Hwf)).
      unfold live. simpl. split; [|naive_solver lia]. intros [?|?]; [|naive_solver].
      split; [auto|]. intros ->. done.
    + unfold live. simpl. lia.
Qed.

(** The converting request goes back to the mode it holds. *)
Definition conversion_undone (q : LockRequest) : LockRequest :=
  {| q with rq_recursiveCount := pred (rq_recursiveCount q);
            rq_status := STATUS_GRANTED; rq_convertMode := MODE_NONE |}.

Definition undo_conversion (q : LockRequest) (h : LockHead) : LockHead :=
  let c := <[rq_convertMode q := pred (lh_grantedCounts h (rq_convertMode q))]>
             (lh_grantedCounts h) in
  let h1 := set_gcounts c h in
  {| h1 with lh_conversionsCount := pred (lh_conversionsCount h) |}.

Lemma unlock_converting_case :
  rq_status q = STATUS_CONVERTING ->
  (2 <= rq_recursiveCount q)%nat /\ (1 <= lh_conversionsCount h)%nat /\
  decGrantedModeCount {| h with lh_conversionsCount := pred (lh_conversionsCount h) |}
    (rq_convertMode q) = Some (undo_conversion q h) /\
  unsettled (<[r := conversion_undone q]> R) (undo_conversion q h) plhs res.
Proof using Hl Hr Hq.
  intros Hs. pose proof head_wf as Hwf.
  destruct (member_status _ _ _ _ Hwf Hr Hq) as [_ Hg]. specialize (Hg ltac:(congruence)).
  destruct (wf_holding _ _ Hwf r Hg) as (q0 & Hq0 & Hh). simplify_eq.
  destruct Hh as (Hlk & Hpl & Hm & Hrc & [[? _]|(_ & Hcm & Hcne & Hcov & H2)]); [congruence|].
  assert (1 <= lh_conversionsCount h)%nat as Hconv.
  { rewrite (wf_conversions _ _ Hwf). apply tally_pos. exists r, q. split_and!; [done..|].
    unfold conversion_weight. rewrite decide_True by done. lia. }
  assert (1 <= lh_grantedCounts h (rq_convertMode q))%nat as Hpos.
  { rewrite (wf_gcounts _ _ Hwf). apply tally_pos. exists r, q. split_and!; [done..|].
    unfold granted_weight. case_decide; [lia|]. rewrite decide_True by done. lia. }
  pose proof (remove_count_weight (lh_grantedCounts h) (with_mode (rq_convertMode q) q)) as Hrem.
  simpl in Hrem. split_and!; [done..| |].
  - by rewrite decGrantedModeCount_eq by (try apply (wf_gmodes _ _ Hwf); done).
  - apply (unsettled_update R h plhs res r q); try done.
    + apply (wf_update R h r q); simpl; try done.
      * split_and!; simpl; try done; [lia|]. by left.
      * intros r' q' Hr' Hne Hq'. by apply (wf_compatible _ _ Hwf r r').
      * intros m. rewrite Hrem. unfold mode_weight, granted_weight. simpl.
        destruct (decide (rq_convertMode q = m)) as [<-|]; repeat case_decide; naive_solver lia.
      * unfold conversion_weight. simpl. rewrite decide_True by done. lia.
      * intros Hne. destruct (wf_partitions _ _ Hwf Hne) as [Hi _].
        rewrite (wf_gmodes _ _ Hwf) in Hi. eapply mask_of_intent_mono, Hi.
        intros m. rewrite Hrem. lia.
    + apply head_id.
    + intros x. unfold live. simpl. naive_solver lia.
    + intros _. simpl. by rewrite <- head_id.
Qed.
End unlock_cases.

(** ** [unlock] *)

(** The result of [unlock]: whether the request is free, its count one lower. *)
Definition unlock_outcome (st : LockManager) (r : ReqPtr) (q : LockRequest)
    (out : option (LockManager * bool)) : Prop :=
  exists st' q', out = Some (st', (rq_recursiveCount q =? 1)%nat) /\ lm_inv st' /\
    lm_requests st' !! r = Some q' /\ rq_recursiveCount q' = pred (rq_recursiveCount q) /\
    (rq_locker q' = rq_locker q /\ rq_mode q' = rq_mode q /\ req_res q' = req_res q /\
     rq_status q' <> STATUS_NEW) /\
    kept r (lm_requests st) (lm_requests st').

(** A wakeup keeps requests. *)
Lemma woken_kept R R' ws r :
  woken R R' ws ->
  (forall x, x ∈ ws -> exists q, R !! x = Some q /\
     (rq_status q = STATUS_CONVERTING \/ rq_status q = STATUS_WAITING)) -> kept r R R'.
Proof.
  intros Hw Hws x _. pose proof (Hw x) as E.
  case_decide as Hd; [|rewrite E; split; [done|]; intros q Hq; by exists q].
  destruct (Hws x Hd) as (q & Hq & Hs). rewrite Hq in *. split; [done|]. intros q0 [= <-].
  exists (grant_request q). split; [done|].
  destruct (grant_request_same q) as (_ & _ & Hc & Hr & Hst).
  split; try done; [| |naive_solver congruence..]; unfold grant_request; by case_decide.
Qed.

(** From an unsettled intermediate state to the result of [unlock]. *)
Lemma unlock_finish st res r q q' h1 check b :
  lm_inv st -> lm_requests st !! r = Some q -> live q -> req_res q = Some res ->
  rq_recursiveCount q' = pred (rq_recursiveCount q) -> b = (rq_recursiveCount q =? 1)%nat ->
  (rq_locker q' = rq_locker q /\ rq_mode q' = rq_mode q /\ req_res q' = req_res q /\
   rq_status q' <> STATUS_NEW) ->
  (r ∈ members h1 -> rq_status q' = STATUS_GRANTED) ->
  unsettled (<[r := q']> (lm_requests st)) h1 (fun p => find2 (lm_partitions st) p res) res ->
  (check = false -> waiters_have_holder h1) ->
  unlock_outcome st r q
    ('(R, h, out) ← onLockModeChanged (<[r := q']> (lm_requests st)) h1 check;
     Some ({| st with lm_requests := R;
                      lm_lockBuckets := put_head (lm_lockBuckets st) res h;
                      lm_notified := lm_notified st ++ out |}, b)).
Proof.
  intros Hi Hq Hlv Hres Hc -> Hq' Hmem Hu Hck.
  destruct (lm_inv_mode_changed st res r q q' h1 check) as (R' & h' & ws & Hout & Hi'); try done.
  { intros _. destruct Hq' as (_ & _ & -> & ?). done. }
  pose proof Hout as (-> & _ & _ & Hw & _ & Hws & _). cbn [mbind option_bind].
  assert (forall x, x ∈ ws -> exists q0, <[r := q']> (lm_requests st) !! x = Some q0 /\
    (rq_status q0 = STATUS_CONVERTING \/ rq_status q0 = STATUS_WAITING) /\ x ∈ members h1) as Hws'.
  { intros x Hx. destruct (Hws x Hx) as (q0 & ? & Hs). exists q0. unfold members. set_solver. }
  assert (r ∉ ws) as Hr.
  { intros Hr. destruct (Hws' r Hr) as (q0 & Hq0 & Hs & Hm). rewrite lookup_insert_eq in Hq0.
    injection Hq0 as <-. rewrite (Hmem Hm) in Hs. by destruct Hs. }
  eexists _, q'. split; [done|]. rewrite (uns_id _ _ _ _ Hu). split_and!; try done; try apply Hq'.
  - simpl. rewrite Hw, decide_False by done. apply lookup_insert_eq.
  - etrans; [apply kept_insert|]. eapply woken_kept; [done|].
    intros x Hx. destruct (Hws' x Hx) as (q0 & ? & ? & _). eauto.
Qed.

Lemma unlock_bucket_section_spec st r q res :
  lm_inv st -> lm_requests st !! r = Some q -> live q -> rq_lock q = Some res ->
  (rq_status q = STATUS_GRANTED -> rq_recursiveCount q = 1%nat) ->
  unlock_outcome st r q (unlock_bucket_section st r (set_count (pred (rq_recursiveCount q)) q)).
Proof.
  intros Hi Hq Hlv Hlk Hone.
  assert (req_res q = Some res) as Hres by (unfold req_res; by rewrite Hlk).
  destruct (req_head_exists st r q res Hi Hq Hlv Hres) as [h Hh].
  pose proof (inv_local _ Hi res) as Hl. rewrite Hh in Hl.
  assert (r ∈ members h) as Hr.
  { destruct (loc_located _ _ _ _ Hl r q Hq Hlv Hres) as [(? & [= <-] & _ & ?)|(? & ? & _ & ? & _)];
      congruence || done. }
  unfold unlock_bucket_section. simpl. rewrite Hlk. cbn [mbind option_bind].
  rewrite Hh. cbn [mbind option_bind].
  destruct (rq_status q) eqn:Hs.
  - destruct (inv_fresh _ Hi r q Hq Hlv) as [[Hn _] _]. specialize (Hn Hs). congruence.
  - rewrite (Hone eq_refl). simpl. pose proof (unlock_granted_run Hl Hr Hq Hs) as Hrun. simpl in Hrun.
    destruct (decGrantedModeCount _ _) as [h0|]; [|done]. cbn [mbind option_bind] in Hrun |- *.
    rewrite Hrun. cbn [mbind option_bind].
    destruct (unlock_granted_unsettled Hl Hr Hq Hs) as [Hu Hck].
    apply (unlock_finish st res r q (set_count 0 q)); try done.
    + by rewrite (Hone eq_refl).
    + by rewrite (Hone eq_refl).
    + split_and!; simpl; try done; congruence.
  - destruct (unlock_waiting_case Hl Hr Hq Hs) as (Hc & -> & Hn & Hu). rewrite Hc.
    rewrite invariant_bind by done. cbn [mbind option_bind].
    apply (unlock_finish st res r q (set_count 0 q)); try done; try (by rewrite Hc).
    split_and!; simpl; try done; congruence.
  - destruct (unlock_converting_case Hl Hr Hq Hs) as (Hc & Hcc & -> & Hu).
    rewrite !invariant_bind by (apply Nat.ltb_lt; lia). cbn [mbind option_bind].
    rewrite <- Hlk. apply (unlock_finish st res r q (conversion_undone q)); try done.
    + destruct (rq_recursiveCount q) as [|[|[]]]; simpl; by try lia.
    + intros Hnz. simpl in Hnz. rewrite fn_lookup_insert_ne in Hnz.
      * by rewrite (wf_granted_none (loc_wf _ _ _ _ Hl h eq_refl)) in Hnz.
      * pose proof (loc_wf _ _ _ _ Hl h eq_refl) as Hwf.
        destruct (member_status _ _ _ _ Hwf Hr Hq) as [_ Hg]. specialize (Hg ltac:(congruence)).
        destruct (wf_holding _ _ Hwf r Hg) as (? & ? & _ & _ & _ & _ & [[? _]|(_ & ? & _)]); congruence.
Qed.

Lemma local_inv_plh_remove R oh plhs res p l r q :
  local_inv R oh plhs res -> R !! r = Some q -> rq_lock q = None ->
  plhs p = Some l -> r ∈ plh_grantedList l ->
  local_inv (<[r := set_count 0 q]> R) oh
    (fun p' => if decide (p = p')
               then Some (mkPartitionedLockHead (remove_request r (plh_grantedList l)))
               else plhs p') res.
Proof.
  intros Hl Hq Hlk Hp Hr.
  assert (forall h, oh = Some h -> r ∉ members h) as Hnm.
  { intros h Eh. eapply partition_not_member; [by apply Hl|done..]. }
  destruct (loc_plh _ _ _ _ Hl p l r Hp Hr) as (q0 & Hq0 & Hh0). simplify_eq.
  split; try apply Hl.
  - intros h Eh. specialize (Hnm h Eh). apply dead_insert_frame; [done|by apply Hl].
  - intros h Eh. specialize (Hnm h Eh). eapply settled_frame; [|by apply Hl].
    intros x Hx. apply lookup_insert_ne. intros ->. done.
  - intros p' l'. case_decide; [intros [= <-]; simpl|by apply Hl].
    by apply NoDup_filter, (loc_plh_nodup _ _ _ _ Hl p).
  - intros p' l' x. case_decide as Hpp; [intros [= <-]; subst p'; simpl|].
    + intros [Hne Hx]%elem_of_remove_request. rewrite lookup_insert_ne by done.
      by apply (loc_plh _ _ _ _ Hl p l).
    + intros Hp' Hx. destruct (loc_plh _ _ _ _ Hl p' l' x Hp' Hx) as (qx & Hqx & Hhx).
      exists qx. rewrite lookup_insert_ne; [done|]. intros ->. simplify_eq.
      unfold partition_holding in *. destruct_and!. congruence.
  - intros p' l'. case_decide; [intros _; subst; by apply (loc_plh_head _ _ _ _ Hl p' l)|by apply Hl].
  - intros x qx [[<- <-]|[Hne Hx]]%lookup_insert_Some Hlv Hres; [unfold live in Hlv; simpl in Hlv; lia|].
    destruct (loc_located _ _ _ _ Hl x qx Hx Hlv Hres) as [?|(p' & l' & Hp' & ? & ? & ?)];
      [by left|right].
    destruct (decide (p = p')) as [<-|Hpp].
    + exists p. eexists. rewrite decide_True by done. split_and!; [done..|]. simpl.
      rewrite elem_of_remove_request. simplify_eq. done.
    + exists p', l'. by rewrite decide_False.
Qed.

Lemma unlock_partition_spec st r q p res :
  lm_inv st -> lm_requests st !! r = Some q -> live q -> rq_lock q = None ->
  rq_partitionedLock q = Some (p, res) ->
  exists l, find2 (lm_partitions st) p res = Some l /\
  rq_status q = STATUS_GRANTED /\ rq_partitioned q = true /\
  lm_inv {| st with
    lm_requests := <[r := set_count 0 q]> (lm_requests st);
    lm_partitions := put2 (lm_partitions st) p res
      (mkPartitionedLockHead (remove_request r (plh_grantedList l))) |}.
Proof.
  intros Hi Hq Hlv Hlk Hpl.
  assert (req_res q = Some res) as Hres by (unfold req_res; by rewrite Hlk, Hpl).
  pose proof (inv_local _ Hi res) as Hl.
  destruct (loc_located _ _ _ _ Hl r q Hq Hlv Hres)
    as [(? & _ & ? & _)|(p' & l & Hp' & _ & Hpl' & Hr)]; [congruence|].
  rewrite Hpl in Hpl'. injection Hpl' as <-.
  destruct (loc_plh _ _ _ _ Hl p l r Hp' Hr) as (q0 & Hq0 & Hh). simplify_eq.
  exists l. split_and!; [done|apply Hh..|].
  eapply (lm_inv_update _ _ res); simpl; [done| | | |apply Hi].
  - intros res' Hne. split_and!; [done|intros p'|].
    + rewrite find2_put2, decide_False; [done|]. naive_solver.
    + apply agree_insert; [rewrite Hq; naive_solver congruence|unfold live; simpl; lia].
  - intros x qx [[<- <-]|[Hne Hx]]%lookup_insert_Some Hlx; [|by left].
    unfold live in Hlx. simpl in Hlx. lia.
  - eapply local_inv_ext; [|exact (local_inv_plh_remove _ _ _ _ _ _ _ _ Hl Hq Hlk Hp' Hr)].
    intros p'. simpl. rewrite find2_put2. repeat case_decide; naive_solver.
Qed.

(** A request on the lock head is not on a partitioned head, and does not wait if it is
    marked partitioned. *)
Lemma head_request st r q res :
  lm_inv st -> lm_requests st !! r = Some q -> live q -> rq_lock q = Some res ->
  rq_partitionedLock q = None /\
  (rq_partitioned q = true -> rq_status q = STATUS_GRANTED \/ rq_status q = STATUS_CONVERTING).
Proof.
  intros Hi Hq Hlv Hlk. assert (req_res q = Some res) as Hres by (unfold req_res; by rewrite Hlk).
  pose proof (inv_local _ Hi res) as Hl.
  destruct (loc_located _ _ _ _ Hl r q Hq Hlv Hres) as [(h & Hh & _ & Hr)|(? & ? & _ & ? & _)];
    [|congruence].
  pose proof (loc_wf _ _ _ _ Hl h Hh) as Hwf. apply elem_of_app in Hr as [Hr|Hr].
  - destruct (wf_holding _ _ Hwf r Hr) as (? & ? & _ & ? & _ & _ & Hs). simplify_eq. naive_solver.
  - destruct (wf_waiting _ _ Hwf r Hr) as (? & ? & _ & ? & _ & _ & _ & _ & Hp). simplify_eq.
    split; [done|congruence].
Qed.

Lemma unlock_spec st r q :
  lm_inv st -> lm_requests st !! r = Some q -> live q -> rq_status q <> STATUS_NEW ->
  unlock_outcome st r q (unlock st r).
Proof.
  intros Hi Hq Hlv Hnew. unfold unlock. rewrite Hq. cbn [mbind option_bind].
  rewrite invariant_bind by by apply Nat.ltb_lt. cbn [rq_status rq_recursiveCount].
  case_if.
  { bprop. eexists _, (set_count (pred (rq_recursiveCount q)) q).
    split; [|split_and!; [apply lm_inv_set_count; by try lia|by apply lookup_insert_eq|done..|
      apply kept_insert]].
    do 2 f_equal. symmetry. apply Nat.eqb_neq. lia. }
  assert (rq_status q = STATUS_GRANTED -> rq_recursiveCount q = 1%nat) as Hone.
  { intros Hs. rewrite bool_decide_eq_true_2 in Heqb by done. simpl in Heqb. bprop.
    unfold live in Hlv. lia. }
  assert (rq_lock q = None -> exists p res, rq_partitionedLock q = Some (p, res)) as Hpart.
  { intros Hlk. destruct (inv_fresh _ Hi r q Hq Hlv) as [[_ Hn] _]. unfold req_res in Hn.
    rewrite Hlk in Hn. destruct (rq_partitionedLock q) as [[p res]|]; [by eauto|].
    by destruct Hnew, Hn. }
  destruct (rq_lock q) as [res|] eqn:Hlk.
  - pose proof (unlock_bucket_section_spec st r q res Hi Hq Hlv Hlk Hone) as Hslow.
    destruct (head_request st r q res Hi Hq Hlv Hlk) as [Hpl Hst].
    unfold set_count in Hslow. rewrite Hlk, Hpl in Hslow. rewrite Hpl.
    destruct (rq_partitioned q) eqn:Hpt.
    + rewrite (invariant_bind (bool_decide _ || bool_decide _))
        by (apply orb_true_iff; rewrite !bool_decide_eq_true; auto).
      cbn [rq_partitioned rq_partitionedLock mbind option_bind rq_lock].
      rewrite invariant_bind by by apply bool_decide_eq_true. exact Hslow.
    + cbn [rq_partitioned mbind option_bind rq_lock].
      rewrite invariant_bind by by apply bool_decide_eq_true. exact Hslow.
  - destruct (Hpart eq_refl) as (p & res & Hpl).
    destruct (unlock_partition_spec st r q p res) as (l & Hl & Hs & Hpt & Hi'); [done..|].
    rewrite Hpt, (invariant_bind (bool_decide _ || bool_decide _))
      by (by rewrite bool_decide_eq_true_2).
    cbn [rq_partitioned rq_partitionedLock]. rewrite Hpl. cbn [rq_partitionedLock].
    rewrite Hl. cbn [mbind option_bind].
    specialize (Hone Hs). rewrite Hone. unfold set_count in Hi'. rewrite Hpt, Hlk, Hpl in Hi'.
    eexists _, _. rewrite Hone. split; [reflexivity|].
    split_and!; [exact Hi'|by apply lookup_insert_eq|done..| |by rewrite Hs|apply kept_insert].
    unfold req_res. simpl. by rewrite Hlk, Hpl.
Qed.

(** ** [downgrade] *)

Lemma downgrade_spec st r q res n :
  lm_inv st -> lm_requests st !! r = Some q -> live q -> rq_lock q = Some res ->
  rq_status q = STATUS_GRANTED -> isModeCovered n (rq_mode q) = true -> n <> MODE_NONE ->
  exists st' q', downgrade st r n = Some st' /\ lm_inv st' /\
    lm_requests st' !! r = Some q' /\ rq_mode q' = n /\ rq_status q' = STATUS_GRANTED.
Proof.
  intros Hi Hq Hlv Hlk Hs Hcov Hn.
  assert (req_res q = Some res) as Hres by (unfold req_res; by rewrite Hlk).
  destruct (req_head_exists st r q res Hi Hq Hlv Hres) as [h Hh].
  pose proof (inv_local _ Hi res) as Hl. rewrite Hh in Hl.
  pose proof (loc_wf _ _ _ _ Hl h eq_refl) as Hwf.
  assert (r ∈ members h) as Hr.
  { destruct (loc_located _ _ _ _ Hl r q Hq Hlv Hres) as [(? & [= <-] & _ & ?)|(? & ? & _ & ? & _)];
      congruence || done. }
  destruct (member_status _ _ _ _ Hwf Hr Hq) as [_ Hg]. specialize (Hg ltac:(congruence)).
  unfold downgrade. rewrite Hq. cbn [mbind option_bind].
  rewrite !invariant_bind by
    first [by apply bool_decide_eq_true; rewrite ?Hlk | by apply Nat.ltb_lt | exact Hcov].
  rewrite Hlk. cbn [mbind option_bind]. rewrite Hh. cbn [mbind option_bind].
  pose proof (exchange_mode_eq h (rq_mode q) n (wf_gmodes _ _ Hwf)
    (mode_count_pos _ _ _ _ Hwf Hg Hq)) as Hex.
  destruct (incGrantedModeCount h n) as [h4|]; [|done]. cbn [mbind option_bind] in Hex |- *.
  rewrite Hex. cbn [mbind option_bind].
  destruct (lm_inv_mode_changed st res r q (with_mode n q)
    (set_gcounts (exchange_counts (rq_mode q) n (lh_grantedCounts h)) h) true)
    as (R' & h' & ws & Hout & Hi'); try done.
  { intros _. split; [simpl; congruence|done]. }
  { apply (unsettled_update (lm_requests st) h _ res r q); try done.
    - apply wf_with_mode; try done. intros r' q0 Hr' Hne Hq0.
      apply not_true_iff_false. intros Hm.
      apply (proj1 (isModeCovered_spec _ _) Hcov) in Hm. by rewrite (wf_compatible _ _ Hwf r r') in Hm.
    - exact (loc_id _ _ _ _ Hl h eq_refl).
    - intros x. naive_solver. }
  unfold with_mode in Hout, Hi'. rewrite Hlk in Hout, Hi'.
  pose proof Hout as (-> & _ & _ & Hw & _ & Hws & _).
  cbn [mbind option_bind lh_resourceId set_gcounts]. rewrite (loc_id _ _ _ _ Hl h eq_refl).
  eexists _, _. split; [done|]. split; [exact Hi'|]. simpl. rewrite Hw, lookup_insert_eq.
  rewrite decide_False; [by split_and!|]. intros Hrw. apply Hws in Hrw as (q0 & Hq0 & Hst).
  rewrite lookup_insert_eq in Hq0. injection Hq0 as <-. simpl in Hst. naive_solver congruence.
Qed.

(** ** [cleanupUnusedLocks] *)

(** What cleaning up guarantees of a resource: its requests are on its lock head, which
    is there only if somebody holds the lock. *)
Definition tidy (st : LockManager) (res : ResourceId) : Prop :=
  (forall p, find2 (lm_partitions st) p res = None) /\
  (forall h, find_head (lm_lockBuckets st) res = Some h ->
     lh_grantedList h <> [] /\ lh_partitions h = []).

Definition same_resource (st st' : LockManager) (res : ResourceId) : Prop :=
  find_head (lm_lockBuckets st') res = find_head (lm_lockBuckets st) res /\
  (forall p, find2 (lm_partitions st') p res = find2 (lm_partitions st) p res).

Definition cleanup_outcome (st st' : LockManager) (l : list ResourceId) : Prop :=
  lm_inv st' /\ (forall res, res ∈ l -> tidy st' res) /\
  (forall res, res ∉ l -> same_resource st st' res) /\
  lm_notified st' = lm_notified st.

Lemma unused_head_checks R h :
  wf_head R h -> settled R h -> lh_grantedModes h = 0 ->
  lh_grantedList h = [] /\ lh_conflictModes h = 0 /\ lh_conflictList h = [] /\
  lh_conversionsCount h = 0%nat /\ lh_compatibleFirstCount h = 0%nat.
Proof.
  intros Hwf [_ Hw] Hg. apply (grantedModes_zero Hwf) in Hg.
  assert (lh_conflictList h = []) as Hc.
  { destruct (decide (lh_conflictList h = [])) as [|Hne]; [done|]. by destruct (Hw Hne). }
  split_and!; try done; [by apply (conflictModes_zero Hwf)|..].
  - by rewrite (wf_conversions _ _ Hwf), Hg.
  - by rewrite (wf_compatibleFirst _ _ Hwf), Hg.
Qed.

Lemma migrated_requests_ok st R1 P1 h h1 ms res :
  let R := lm_requests st in
  migrated R (lm_partitions st) h res R1 P1 h1 ms -> lh_resourceId h = res ->
  (forall res', res' <> res -> agree R R1 res' /\
     forall p, find2 P1 p res' = find2 (lm_partitions st) p res') /\
  (forall x q, R1 !! x = Some q -> live q ->
     R !! x = Some q \/ (rq_status q <> STATUS_NEW /\ req_res q = Some res)).
Proof.
  intros R Hm Hid. destruct (mig_outcome _ _ _ _ _ _ _ _ Hm) as (_ & _ & Hmv & _). split.
  - intros res' Hne. split; [by eapply migrated_agree|].
    intros p. by rewrite (mig_plhs _ _ _ _ _ _ _ _ Hm), decide_False.
  - intros x q Hx Hlv. rewrite Hmv in Hx. case_decide as Hd; [|auto]. right.
    destruct (R !! x) as [q0|]; simplify_eq/=. done.
Qed.

Lemma cleanup_head_spec st res h :
  lm_inv st -> find_head (lm_lockBuckets st) res = Some h ->
  exists st', cleanup_head st res = Some st' /\ cleanup_outcome st st' [res].
Proof.
  intros Hi Hh. pose proof (inv_local _ Hi res) as Hl. rewrite Hh in Hl.
  unfold cleanup_head. rewrite Hh. cbn [mbind option_bind].
  destruct (migrate_if_partitioned_spec _ _ h res Hl) as (R1 & P1 & h1 & ms & -> & Hmig).
  cbn [mbind option_bind]. pose proof (mig_local _ _ _ _ _ _ _ _ Hmig) as Hl1.
  pose proof (loc_wf _ _ _ _ Hl1 h1 eq_refl) as Hwf1.
  destruct (migrated_requests_ok st R1 P1 h h1 ms res Hmig (loc_id _ _ _ _ Hl h eq_refl)) as [HA HB].
  assert (forall p, find2 P1 p res = None) as Hnone.
  { intros p. by rewrite (mig_plhs _ _ _ _ _ _ _ _ Hmig), decide_True. }
  destruct (Z.eqb_spec (lh_grantedModes h1) 0) as [Hg|Hg].
  - destruct (unused_head_checks R1 h1 Hwf1 (loc_settled _ _ _ _ Hl1 h1 eq_refl) Hg)
      as (Hgl & Hcm & Hcl & Hcc & Hcf). rewrite Hcm, Hcc, Hcf.
    rewrite !invariant_bind by first [by apply bool_decide_eq_true | done]. eexists. split; [done|].
    split_and!; simpl; [|intros ? ->%list_elem_of_singleton| |done].
    + eapply (lm_inv_update _ _ res); simpl; [done| |done| |by apply buckets_ok_erase, Hi].
      * intros res' Hne. destruct (HA res' Hne). by rewrite find_erase_head, decide_False.
      * rewrite find_erase_head, decide_True by done.
        split; simpl; try done; try (by setoid_rewrite Hnone).
        intros r q Hq Hlv Hr.
        destruct (loc_located _ _ _ _ Hl1 r q Hq Hlv Hr) as [(? & [= <-] & _ & Hm)|(? & ? & ? & _)];
          [|done]. unfold members in Hm. rewrite Hgl, Hcl in Hm. set_solver.
    + split; [done|]. simpl. by rewrite find_erase_head, decide_True.
    + intros res' Hne%not_elem_of_cons. destruct Hne as [Hne _].
      split; simpl; [by rewrite find_erase_head, decide_False|by apply HA].
  - eexists. split; [done|].
    split_and!; simpl; [|intros ? ->%list_elem_of_singleton| |done].
    + apply lm_inv_head_update; [done..|]. by eapply local_inv_ext; [|done].
    + split; [done|]. simpl. rewrite find_put_head, decide_True by done. intros ? [= <-].
      split; [by rewrite <- (grantedModes_zero Hwf1)|by apply Hmig].
    + intros res' Hne%not_elem_of_cons. destruct Hne as [Hne _].
      split; simpl; [by rewrite find_put_head, decide_False|by apply HA].
Qed.

Lemma tidy_same st st' res : same_resource st st' res -> tidy st res -> tidy st' res.
Proof.
  intros [Hh Hp] [H1 H2]. split; [intros p; by rewrite Hp|]. intros h. rewrite Hh. apply H2.
Qed.

Lemma same_resource_trans st1 st2 st3 res :
  same_resource st1 st2 res -> same_resource st2 st3 res -> same_resource st1 st3 res.
Proof. intros [E1 F1] [E2 F2]. split; [congruence|]. intros p. by rewrite F2, F1. Qed.

Lemma cleanup_outcome_nil st : lm_inv st -> cleanup_outcome st st [].
Proof. intros Hi. split_and!; [done|set_solver|by intros|done]. Qed.

Lemma cleanup_outcome_app st1 st2 st3 l1 l2 :
  (forall res, res ∈ l1 -> res ∈ l2 -> False) ->
  cleanup_outcome st1 st2 l1 -> cleanup_outcome st2 st3 l2 -> cleanup_outcome st1 st3 (l1 ++ l2).
Proof.
  intros Hd (Hi2 & Ht2 & Hs2 & Hn2) (Hi3 & Ht3 & Hs3 & Hn3). split_and!; [done| | |congruence].
  - intros res [Hr|Hr]%elem_of_app; [|by apply Ht3].
    eapply tidy_same; [by apply Hs3; eauto|by apply Ht2].
  - intros res [Hr1 Hr2]%not_elem_of_app.
    eapply same_resource_trans; [by apply Hs2|by apply Hs3].
Qed.

Lemma cleanup_heads_spec l : forall st,
  lm_inv st -> NoDup l -> (forall res, res ∈ l -> is_Some (find_head (lm_lockBuckets st) res)) ->
  exists st', cleanup_heads st l = Some st' /\ cleanup_outcome st st' l.
Proof.
  induction l as [|res l IH]; intros st Hi Hnd Hl.
  { exists st. split; [done|]. by apply cleanup_outcome_nil. }
  apply NoDup_cons in Hnd as [Hres Hnd]. destruct (Hl res) as [h Hh]; [set_solver|].
  destruct (cleanup_head_spec st res h Hi Hh) as (st1 & Hrun & Hout).
  destruct (IH st1) as (st2 & Hrun2 & Hout2); [apply Hout|done| |].
  { intros res' Hr'. pose proof Hout as (_ & _ & Hs & _).
    destruct (Hs res') as [-> _]; [set_solver|]. apply Hl. set_solver. }
  exists st2. split; [cbn [cleanup_heads]; by rewrite Hrun|].
  apply (cleanup_outcome_app st st1 st2 [res] l); [set_solver|done..].
Qed.

(** The resources with a lock head in bucket [i]. *)
Definition bucket_resources (st : LockManager) (i : Z) : list ResourceId :=
  fst <$> map_to_list (default ∅ (lm_lockBuckets st !! i)).

Lemma elem_of_bucket_resources st i res :
  buckets_ok (lm_lockBuckets st) ->
  res ∈ bucket_resources st i <-> i = getBucket res /\ is_Some (find_head (lm_lockBuckets st) res).
Proof.
  intros Hb. unfold bucket_resources. rewrite list_elem_of_fmap. unfold find_head, find2. split.
  - intros ([res' h] & -> & Hin%elem_of_map_to_list). simpl.
    destruct (lm_lockBuckets st !! i) as [d|] eqn:Hd; simpl in Hin; [|by rewrite lookup_empty in Hin].
    pose proof (Hb i d res' h Hd Hin) as ->. split; [done|]. rewrite Hd. by exists h.
  - intros [-> [h Hh]]. exists (res, h). split; [done|]. apply elem_of_map_to_list.
    by destruct (lm_lockBuckets st !! getBucket res).
Qed.

Lemma cleanup_bucket_spec st i :
  lm_inv st ->
  exists st', cleanupUnusedLocksInBucket st i = Some st' /\
    cleanup_outcome st st' (bucket_resources st i).
Proof.
  intros Hi. apply cleanup_heads_spec; [done|apply NoDup_fst_map_to_list|].
  intros res Hr%elem_of_bucket_resources; [|apply Hi]. apply Hr.
Qed.

Lemma cleanup_buckets_spec l : forall st,
  lm_inv st -> NoDup l ->
  exists st' rs, cleanup_buckets st l = Some st' /\ cleanup_outcome st st' rs /\
    (forall res, res ∈ rs <-> getBucket res ∈ l /\ is_Some (find_head (lm_lockBuckets st) res)).
Proof.
  induction l as [|i l IH]; intros st Hi Hnd.
  { exists st, []. split_and!; [done|by apply cleanup_outcome_nil|]. set_solver. }
  apply NoDup_cons in Hnd as [Hni Hnd].
  destruct (cleanup_bucket_spec st i Hi) as (st1 & Hrun & Hout).
  pose proof Hout as (Hi1 & _ & Hs1 & _).
  destruct (IH st1 Hi1 Hnd) as (st2 & rs & Hrun2 & Hout2 & Hrs).
  assert (forall res, res ∈ rs <-> getBucket res ∈ l /\ is_Some (find_head (lm_lockBuckets st) res)) as Hrs'.
  { intros res. rewrite Hrs. split; intros [Hg Hh]; split; try done;
      destruct (Hs1 res) as [E _]; try (by rewrite E in Hh || rewrite E);
      rewrite elem_of_bucket_resources by apply Hi; intros [-> _]; done. }
  exists st2, (bucket_resources st i ++ rs). split_and!.
  - cbn [cleanup_buckets]. by rewrite Hrun.
  - eapply cleanup_outcome_app; [|done..]. intros res.
    rewrite Hrs', elem_of_bucket_resources by apply Hi. intros [-> _] [? _]. done.
  - intros res. rewrite elem_of_app, Hrs', elem_of_bucket_resources, elem_of_cons by apply Hi.
    naive_solver.
Qed.
