(* ===== verification/LockSafety.v ===== *)
(** * Safety of the lock manager

    The critical sections of the lock manager as a transition system, its reachable
    states, and the theorems about them: mutual exclusion, absence of failed invariants,
    and that nobody waits without reason. *)

From Stdlib Require Import ZArith Lia.
From stdpp Require Import prelude gmap functions finite.
From S2P Require Import Prelude LockDefs LockHead LockHeadInv LockManager LockManagerInv.
From S2P Require Import LockManagerOps LockConvert LockUnlock.

Open Scope Z_scope.

(** ** The transition system *)

(** A request object that may be initialised: it does not exist or was released. *)
Definition unused (st : LockManager) (r : ReqPtr) : Prop :=
  match lm_requests st !! r with Some q => rq_recursiveCount q = 0%nat | None => True end.

(** [LockRequest::initNew] and the two policy flags a [Locker] may set before [lock]. *)
Definition new_request (st : LockManager) (r : ReqPtr) (locker : LockerId) (notify : NotifyPtr)
    (front compatible : bool) : LockManager :=
  let q := initNew locker notify in
  let q := {| q with rq_enqueueAtFront := front; rq_compatibleFirst := compatible |} in
  {| st with lm_requests := <[r := q]> (lm_requests st) |}.

(** One critical section of some thread.  The premises are what the callers guarantee. *)
Inductive lm_step : LockManager -> LockManager -> Prop :=
| step_new st r locker notify front compatible :
    unused st r -> lm_step st (new_request st r locker notify front compatible)
| step_prepare st st' r q mode :
    lm_requests st !! r = Some q -> live q -> rq_status q = STATUS_NEW ->
    lock_prepare st r mode = Some st' -> lm_step st st'
| step_lock_partition st st' res r q :
    lm_requests st !! r = Some q -> live q -> rq_status q = STATUS_NEW ->
    rq_partitioned q = true -> lock_partition_section st res r = Some (Some st') ->
    lm_step st st'
| step_lock_bucket st st' res r q lr :
    lm_requests st !! r = Some q -> live q -> rq_status q = STATUS_NEW ->
    rq_mode q <> MODE_NONE -> lock_bucket_section st res r = Some (st', lr) -> lm_step st st'
| step_convert st st' res r q n lr :
    lm_requests st !! r = Some q -> live q -> rq_status q = STATUS_GRANTED ->
    req_res q = Some res ->
    isModeCovered n (rq_mode q) = true \/ isModeCovered (rq_mode q) n = true ->
    convert st res r n = Some (st', lr) -> lm_step st st'
| step_unlock st st' r q b :
    lm_requests st !! r = Some q -> live q -> rq_status q <> STATUS_NEW ->
    unlock st r = Some (st', b) -> lm_step st st'
| step_downgrade st st' r q n :
    lm_requests st !! r = Some q -> live q -> rq_status q = STATUS_GRANTED ->
    rq_lock q <> None -> isModeCovered n (rq_mode q) = true -> n <> MODE_NONE ->
    downgrade st r n = Some st' -> lm_step st st'
| step_cleanup st st' i :
    cleanupUnusedLocksInBucket st i = Some st' -> lm_step st st'.

Definition reachable (st : LockManager) : Prop := rtc lm_step LockManager_new st.

(** ** The invariant is inductive *)

Lemma live_fresh st r q :
  lm_inv st -> lm_requests st !! r = Some q -> live q -> rq_status q = STATUS_NEW ->
  fresh_request q.
Proof. intros Hi Hq Hlv. by apply (inv_fresh _ Hi r). Qed.

Lemma new_request_inv st r locker notify front compatible :
  lm_inv st -> unused st r -> lm_inv (new_request st r locker notify front compatible).
Proof.
  intros Hi Hu. apply lm_inv_insert_fresh; [done|by split_and!|].
  intros q0 Hq0. unfold unused in Hu. rewrite Hq0 in Hu. unfold live. lia.
Qed.

Lemma lm_step_inv st st' : lm_step st st' -> lm_inv st -> lm_inv st'.
Proof.
  intros Hstep Hi. destruct Hstep as
    [st r locker notify front compatible Hu|st st' r q mode Hq Hlv Hs Hrun
    |st st' res r q Hq Hlv Hs Hp Hrun|st st' res r q lr Hq Hlv Hs Hm Hrun
    |st st' res r q n lr Hq Hlv Hs Hr Hc Hrun|st st' r q b Hq Hlv Hs Hrun
    |st st' r q n Hq Hlv Hs Hlk Hc Hn Hrun|st st' i Hrun].
  - by apply new_request_inv.
  - destruct (lock_prepare_spec st r q mode) as (Hrun' & _ & ?); [done..|]. by simplify_eq.
  - destruct (lock_partition_section_spec st res r q) as [[Hrun' _]|(st1 & Hrun' & ? & _)];
      [done|done|by eapply live_fresh|done|congruence|]. by simplify_eq.
  - destruct (lock_bucket_section_spec st res r q) as (st1 & ? & ? & Hrun' & ? & _);
      [done|done|by eapply live_fresh|done|]. by simplify_eq.
  - destruct (convert_spec st res r q n) as (st1 & ? & ? & Hrun' & ? & _); [done..|]. by simplify_eq.
  - destruct (unlock_spec st r q) as (st1 & ? & Hrun' & ? & _); [done..|]. by simplify_eq.
  - destruct (rq_lock q) as [res|] eqn:El; [|done].
    destruct (downgrade_spec st r q res n) as (st1 & ? & Hrun' & ? & _); [done..|]. by simplify_eq.
  - destruct (cleanup_bucket_spec st i Hi) as (st1 & Hrun' & ? & _). by simplify_eq.
Qed.

Lemma reachable_inv st : reachable st -> lm_inv st.
Proof.
  intros Hr. unfold reachable in Hr. assert (lm_inv LockManager_new) as Hi by apply lm_inv_new.
  induction Hr as [|st1 st2 st3 Hstep _ IH]; [done|]. by apply IH, (lm_step_inv st1).
Qed.

(** A composite call of [lock] is a run of steps. *)
Lemma lock_reachable st st' res r q mode lr :
  reachable st -> lm_requests st !! r = Some q -> live q -> rq_status q = STATUS_NEW ->
  mode <> MODE_NONE -> lock st res r mode = Some (st', lr) -> reachable st'.
Proof.
  intros Hr Hq Hlv Hs Hm Hrun. pose proof (reachable_inv st Hr) as Hi.
  destruct (lock_prepare_spec st r q mode) as (Hprep & Hf & Hi1); [done..|].
  assert (reachable {| st with lm_requests := <[r := prepared mode q]> (lm_requests st) |}) as Hr1.
  { eapply rtc_r; [done|]. by eapply step_prepare. }
  unfold lock in Hrun. rewrite Hprep in Hrun. cbn [mbind option_bind lm_requests] in Hrun.
  rewrite lookup_insert_eq in Hrun. cbn [mbind option_bind] in Hrun.
  apply bind_Some in Hrun as (fast & Hfast & Hrun).
  assert (live (prepared mode q)) as Hlv1 by exact Hlv.
  destruct fast as [st1|].
  - injection Hrun as <- _. destruct (rq_partitioned (prepared mode q)) eqn:Hp; [|done].
    eapply rtc_r; [exact Hr1|].
    eapply step_lock_partition; [apply lookup_insert_eq|exact Hlv1|exact Hs|exact Hp|exact Hfast].
  - eapply rtc_r; [exact Hr1|].
    eapply step_lock_bucket; [apply lookup_insert_eq|exact Hlv1|exact Hs|exact Hm|exact Hrun].
Qed.

(** ** Holders *)

(** The request holds the resource: it is granted, perhaps waiting for a conversion. *)
Definition holds (st : LockManager) (r : ReqPtr) (res : ResourceId) (m : LockMode) : Prop :=
  exists q, lm_requests st !! r = Some q /\ (0 < rq_recursiveCount q)%nat /\
    (rq_status q = STATUS_GRANTED \/ rq_status q = STATUS_CONVERTING) /\
    (rq_lock q = Some res \/ exists p, rq_lock q = None /\ rq_partitionedLock q = Some (p, res)) /\
    rq_mode q = m.

Lemma holds_located st r res m :
  lm_inv st -> holds st r res m ->
  exists q h, lm_requests st !! r = Some q /\ rq_mode q = m /\
    find_head (lm_lockBuckets st) res = Some h /\
    (r ∈ lh_grantedList h \/ (lh_partitions h <> [] /\ intent_mode m)).
Proof.
  intros Hi (q & Hq & Hlv & Hs & Hwhere & <-). pose proof (inv_local _ Hi res) as Hl.
  assert (req_res q = Some res) as Hres.
  { unfold req_res. destruct Hwhere as [->|(p & -> & ->)]; done. }
  destruct (loc_located _ _ _ _ Hl r q Hq Hlv Hres) as [(h & Hh & _ & Hr)|(p & l & Hp & _ & _ & Hr)].
  - exists q, h. split_and!; try done. left.
    apply (member_status _ _ _ _ (loc_wf _ _ _ _ Hl h Hh) Hr Hq). naive_solver congruence.
  - destruct (loc_plh_head _ _ _ _ Hl p l Hp) as (h & Hh & Hin).
    destruct (loc_plh _ _ _ _ Hl p l r Hp Hr) as (q' & ? & Hph). simplify_eq.
    exists q, h. split_and!; try done. right. split; [intros Hnil; rewrite Hnil in Hin; set_solver|apply Hph].
Qed.

(** On a partitioned head only intent modes are granted. *)
Lemma partitioned_granted_intent R h r q :
  wf_head R h -> lh_partitions h <> [] -> r ∈ lh_grantedList h -> R !! r = Some q ->
  intent_mode (rq_mode q).
Proof.
  intros Hwf Hp Hr Hq. destruct (wf_partitions _ _ Hwf Hp) as [Hi _].
  rewrite (wf_gmodes _ _ Hwf) in Hi. apply mask_of_intent in Hi as (H0 & H3 & H4).
  pose proof (mode_count_pos _ _ _ _ Hwf Hr Hq) as Hpos. unfold intent_mode.
  destruct (rq_mode q); auto; lia.
Qed.

Lemma intent_compatible m1 m2 : intent_mode m1 -> intent_mode m2 -> mode_conflict m1 m2 = false.
Proof. by intros [-> | ->] [-> | ->]. Qed.


(** [C34] [lock] on a reachable state never trips an assertion: it answers [LOCK_OK] with
    the request granted in the requested mode, or [LOCK_WAITING] with the request on the
    conflict queue, and the new state is reachable. *)
Theorem lock_succeeds st res r q mode :
  reachable st -> lm_requests st !! r = Some q -> live q -> rq_status q = STATUS_NEW ->
  mode <> MODE_NONE ->
  exists st' lr q', lock st res r mode = Some (st', lr) /\ reachable st' /\
    lm_requests st' !! r = Some q' /\ rq_mode q' = mode /\ req_res q' = Some res /\
    ((lr = LOCK_OK /\ holds st' r res mode) \/
     (lr = LOCK_WAITING /\ rq_status q' = STATUS_WAITING)).
Proof.
  intros Hr Hq Hlv Hs Hm. pose proof (reachable_inv st Hr) as Hi.
  destruct (lock_spec st res r q mode) as (st' & lr & q' & Hrun & Hi' & Hq' & Hlv' & Hres & Hm' & Ha & _);
    [done..|].
  exists st', lr, q'. split_and!; try done; [by eapply lock_reachable|].
  destruct Ha as [[-> Hs']|[-> Hs']]; [left|by right]. split; [done|]. exists q'.
  split_and!; auto. unfold req_res in Hres. destruct (rq_lock q') as [res'|]; [left; congruence|].
  right. destruct (rq_partitionedLock q') as [[p res']|]; simplify_eq/=. eauto.
Qed.

(** [convert] to a mode comparable with the held one never trips an assertion; it
    answers [LOCK_OK] with the stronger of the two modes held, or [LOCK_WAITING] with the
    old mode still held and the request converting.  Either way the request's reference
    count is one higher. *)
Theorem convert_succeeds st res r q n :
  reachable st -> lm_requests st !! r = Some q -> live q -> rq_status q = STATUS_GRANTED ->
  req_res q = Some res ->
  isModeCovered n (rq_mode q) = true \/ isModeCovered (rq_mode q) n = true ->
  exists st' lr q', convert st res r n = Some (st', lr) /\ reachable st' /\
    lm_requests st' !! r = Some q' /\ rq_recursiveCount q' = S (rq_recursiveCount q) /\
    ((lr = LOCK_OK /\ rq_status q' = STATUS_GRANTED /\
      rq_mode q' = if isModeCovered n (rq_mode q) then rq_mode q else n) \/
     (lr = LOCK_WAITING /\ rq_status q' = STATUS_CONVERTING /\
      rq_mode q' = rq_mode q /\ rq_convertMode q' = n)).
Proof.
  intros Hr Hq Hlv Hs Hres Hc.
  destruct (convert_spec st res r q n (reachable_inv st Hr)) as (st' & lr & q' & Hrun & _ & ? & _ & ? & ? & _);
    [done..|].
  exists st', lr, q'. split_and!; try done. eapply rtc_r; [done|]. by eapply step_convert.
Qed.

(** [unlock] of any request that was given to [lock] never trips an assertion,
    whatever the request's status (granted, waiting or converting); it lowers the
    reference count by one and says whether the request is now free. *)
Theorem unlock_succeeds st r q :
  reachable st -> lm_requests st !! r = Some q -> live q -> rq_status q <> STATUS_NEW ->
  exists st' q', unlock st r = Some (st', (rq_recursiveCount q =? 1)%nat) /\ reachable st' /\
    lm_requests st' !! r = Some q' /\ rq_recursiveCount q' = pred (rq_recursiveCount q).
Proof.
  intros Hr Hq Hlv Hs.
  destruct (unlock_spec st r q (reachable_inv st Hr)) as (st' & q' & Hrun & _ & ? & ? & _); [done..|].
  exists st', q'. split_and!; try done. eapply rtc_r; [done|]. by eapply step_unlock.
Qed.

(** [downgrade] of a granted request on a lock head to a weaker mode never trips an
    assertion and leaves the request granted in the weaker mode. *)
Theorem downgrade_succeeds st r q n :
  reachable st -> lm_requests st !! r = Some q -> live q -> rq_status q = STATUS_GRANTED ->
  rq_lock q <> None -> isModeCovered n (rq_mode q) = true -> n <> MODE_NONE ->
  exists st' q', downgrade st r n = Some st' /\ reachable st' /\
    lm_requests st' !! r = Some q' /\ rq_mode q' = n /\ rq_status q' = STATUS_GRANTED.
Proof.
  intros Hr Hq Hlv Hs Hlk Hc Hn. destruct (rq_lock q) as [res|] eqn:El; [|done].
  destruct (downgrade_spec st r q res n (reachable_inv st Hr)) as (st' & q' & Hrun & _ & ? & ? & ?);
    [done..|].
  exists st', q'. split_and!; try done. eapply rtc_r; [done|].
  eapply step_downgrade; try done. by rewrite El.
Qed.

(** [cleanupUnusedLocks] on a reachable state finishes without tripping an assertion;
    afterwards every lock head left has a holder and no partitioned heads. *)
Theorem cleanup_removes_unused st :
  reachable st ->
  exists st', cleanupUnusedLocks st = Some st' /\
    (forall res h, find_head (lm_lockBuckets st') res = Some h ->
       lh_grantedList h <> [] /\ lh_partitions h = []) /\
    (forall res p, find2 (lm_partitions st') p res = None) /\
    lm_notified st' = lm_notified st.
Proof.
  intros Hr. pose proof (reachable_inv st Hr) as Hi.
  destruct (cleanup_buckets_spec (seqZ 0 numLockBuckets) st Hi) as (st' & rs & Hrun & Hout & Hrs);
    [apply NoDup_seqZ|].
  destruct Hout as (Hi' & Ht & Hs & Hn). exists st'. split; [done|].
  assert (forall res, res ∈ rs <-> is_Some (find_head (lm_lockBuckets st) res)) as Hrs'.
  { intros res. rewrite Hrs, elem_of_seqZ. unfold getBucket.
    pose proof (Z.mod_pos_bound res numLockBuckets ltac:(done)). split; [naive_solver|].
    intros. split; [lia|done]. }
  assert (forall res, tidy st' res) as Htidy.
  { intros res. destruct (decide (res ∈ rs)) as [Hin|Hin]; [by apply Ht|].
    destruct (Hs res Hin) as [Hh Hp]. rewrite Hrs' in Hin.
    destruct (find_head (lm_lockBuckets st) res) as [h|] eqn:E; [by destruct Hin|]. split.
    - intros p. rewrite Hp. destruct (find2 (lm_partitions st) p res) as [l|] eqn:El; [|done].
      destruct (loc_plh_head _ _ _ _ (inv_local _ Hi res) p l El) as (? & ? & _). congruence.
    - rewrite Hh. done. }
  split_and!; [intros res h; apply (proj2 (Htidy res))|intros res p; apply (proj1 (Htidy res))|done].
Qed.

(** ** Nobody waits without reason *)


(** ** One lock head *)

(** When a mode is released on a well-formed lock head, [_onLockModeChanged] trips no
    assertion and wakes enough requests: afterwards every conversion still pending
    conflicts with another holder, and the first waiter of the conflict queue conflicts
    with a granted mode.  Exactly the requests it granted were notified, once each. *)
Theorem mode_change_wakes_all_it_can R h :
  wf_head R h ->
  exists R' h' ws,
    onLockModeChanged R h true = Some (R', h', notes R (lh_resourceId h) ws) /\
    wf_head R' h' /\ conversions_blocked R' h' /\ front_blocked R' h' /\
    woken R R' ws /\ NoDup ws /\
    (forall r, r ∈ ws <-> exists q q', R !! r = Some q /\ R' !! r = Some q' /\
       r ∈ members h /\
       (rq_status q = STATUS_WAITING \/ rq_status q = STATUS_CONVERTING) /\
       rq_status q' = STATUS_GRANTED).
Proof.
  intros Hwf. destruct (onLockModeChanged_spec R h true) as (R' & h' & ws & Hout & Hfb); [done..|].
  pose proof Hout as (Hrun & Hwf' & [Hcb _] & Hw & Hnd & Hws & Hmem & _).
  exists R', h', ws. split_and!; try done; [by apply Hfb|]. intros r. split.
  - intros Hr. destruct (Hws r Hr) as (q & Hq & Hs). exists q, (grant_request q).
    rewrite Hw, decide_True, Hq by done. split_and!; try done.
    + unfold members. set_solver.
    + naive_solver.
    + apply grant_request_same.
  - intros (q & q' & Hq & Hq' & Hm & Hs & Hs'). rewrite Hw in Hq'. case_decide; [done|].
    naive_solver congruence.
Qed.

Lemma newRequest_policy_masks R h r q :
  wf_head R h -> R !! r = Some q -> rq_partitionedLock q = None ->
  exists R' h' lr, newRequest R h r = Some (R', h', lr) /\
    (lr = LOCK_OK \/ lr = LOCK_WAITING) /\
    (lr = LOCK_OK <-> conflicts (rq_mode q) (lh_grantedModes h) <> true /\
       ((0 < lh_compatibleFirstCount h)%nat \/
        conflicts (rq_mode q) (lh_conflictModes h) <> true)).
Proof.
  intros Hwf Hq Hpl. destruct (conflicts (rq_mode q) (lh_grantedModes h)) eqn:Hg.
  { rewrite (newRequest_waiting R h r q) by auto. eexists _, _, _. split; [done|]. naive_solver. }
  destruct (decide (lh_compatibleFirstCount h = 0%nat)) as [Hcf|Hcf].
  2: { rewrite (newRequest_granted R h r q) by (auto; done). eexists _, _, _. split; [done|].
       split; [auto|]. split; [|done]. intros _. split; [done|]. left. lia. }
  destruct (conflicts (rq_mode q) (lh_conflictModes h)) eqn:Hc.
  - rewrite (newRequest_waiting R h r q) by auto. eexists _, _, _. split; [done|].
    split; [auto|]. split; [done|]. intros [_ [?|?]]; [lia|done].
  - rewrite (newRequest_granted R h r q) by (auto; done). eexists _, _, _. split; [done|].
    split; [auto|]. split; [|done]. intros _. split; [done|]. by right.
Qed.

(** The grant policy of [LockHead::newRequest] on a well-formed head: the request is
    granted exactly when no holder has or converts to a conflicting mode and, unless a
    compatible-first request is granted, no request already waiting has a conflicting
    mode (so a waiter is not overtaken). *)
Theorem newRequest_grant_policy R h r q :
  wf_head R h -> R !! r = Some q -> rq_partitionedLock q = None ->
  exists R' h' lr, newRequest R h r = Some (R', h', lr) /\
    (lr = LOCK_OK \/ lr = LOCK_WAITING) /\
    (lr = LOCK_OK <->
     ~ (exists r' q', r' ∈ lh_grantedList h /\ R !! r' = Some q' /\
          (mode_conflict (rq_mode q) (rq_mode q') = true \/
           mode_conflict (rq_mode q) (rq_convertMode q') = true)) /\
     ((exists r' q', r' ∈ lh_grantedList h /\ R !! r' = Some q' /\ rq_compatibleFirst q' = true) \/
      ~ (exists r' q', r' ∈ lh_conflictList h /\ R !! r' = Some q' /\
           mode_conflict (rq_mode q) (rq_mode q') = true))).
Proof.
  intros Hwf Hq Hpl.
  destruct (newRequest_policy_masks R h r q Hwf Hq Hpl) as (R' & h' & lr & Hrun & Hlr & Hiff).
  exists R', h', lr. split_and!; [done..|].
  rewrite Hiff, (granted_conflicts_spec Hwf), (waiting_conflicts_spec Hwf).
  rewrite (wf_compatibleFirst _ _ Hwf), tally_pos. unfold compatible_weight.
  assert (forall q', rq_compatibleFirst q' = true <->
    (0 < if rq_compatibleFirst q' then 1 else 0)%nat) as Hcf.
  { intros q'. destruct (rq_compatibleFirst q'); split; try done; lia. }
  by setoid_rewrite <- Hcf.
Qed.

(** ** A run, for the witnesses

    Four requests on resource 3: two intent locks on the partitions, a shared lock that
    migrates one of them, and an exclusive request that waits. *)

Definition after_lock (st : LockManager) (res : ResourceId) (r : ReqPtr) (m : LockMode)
    : LockManager := from_option fst st (lock st res r m).

Definition demo0 : LockManager := new_request LockManager_new 1 10 101 false false.
Definition demo1 : LockManager := after_lock demo0 3 1 MODE_IS.
Definition demo2 : LockManager := new_request demo1 2 20 102 false true.
Definition demo3 : LockManager := after_lock demo2 3 2 MODE_S.
Definition demo4 : LockManager := new_request demo3 3 30 103 false false.
Definition demo5 : LockManager := after_lock demo4 3 3 MODE_X.

(** The request object [r] of a state and the lock head of resource 3. *)
Definition req (st : LockManager) (r : ReqPtr) : LockRequest :=
  default (initNew 0 1) (lm_requests st !! r).

Definition demo_head (st : LockManager) : LockHead := bucket_findOrInsert (lm_lockBuckets st) 3.

Lemma after_lock_reachable st res r m :
  reachable st ->
  match lm_requests st !! r with
  | Some q => (0 <? rq_recursiveCount q)%nat && bool_decide (rq_status q = STATUS_NEW)
  | None => false
  end = true ->
  m <> MODE_NONE -> reachable (after_lock st res r m).
Proof.
  intros Hr Hq Hm. destruct (lm_requests st !! r) as [q|] eqn:Eq; [|done]. bprop.
  unfold after_lock. destruct (lock st res r m) as [[st' lr]|] eqn:E; [|done].
  by eapply lock_reachable.
Qed.

Lemma new_request_reachable st r locker notify front compatible :
  reachable st -> unused st r -> reachable (new_request st r locker notify front compatible).
Proof. intros. eapply rtc_r; [done|]. by apply step_new. Qed.

Lemma demo1_reachable : reachable demo1.
Proof.
  apply after_lock_reachable; [|done|done]. by apply new_request_reachable, I; apply rtc_refl.
Qed.

Lemma demo4_reachable : reachable demo4.
Proof.
  apply new_request_reachable; [|by vm_compute]. apply after_lock_reachable; [|done|done].
  apply new_request_reachable; [apply demo1_reachable|by vm_compute].
Qed.

Lemma demo5_reachable : reachable demo5.
Proof. apply after_lock_reachable; [apply demo4_reachable|done|done]. Qed.

Lemma demo_head_wf st : reachable st -> wf_head (lm_requests st) (demo_head st).
Proof.
  intros Hr. pose proof (inv_local _ (reachable_inv st Hr) 3) as Hl.
  by apply (loc_wf _ _ _ _ (local_inv_findOrInsert _ _ _ _ Hl)).
Qed.

Lemma holds_req st r res m :
  (lm_requests st !! r = Some (req st r)) -> (0 < rq_recursiveCount (req st r))%nat ->
  rq_status (req st r) = STATUS_GRANTED -> rq_lock (req st r) = Some res ->
  rq_mode (req st r) = m -> holds st r res m.
Proof. intros. exists (req st r). split_and!; auto. Qed.


Lemma lock_succeeds_witness :
  exists st' lr, lock demo4 3 3 MODE_X = Some (st', lr) /\ reachable st'.
Proof.
  destruct (lock_succeeds demo4 3 3 (req demo4 3) MODE_X) as (st' & lr & q' & Hrun & Hr & _).
  - apply demo4_reachable.
  - by vm_compute.
  - by vm_compute; lia.
  - by vm_compute.
  - done.
  - exists st', lr. split; assumption.
Defined.

Lemma convert_succeeds_witness :
  exists st' lr, convert demo5 3 1 MODE_S = Some (st', lr) /\ reachable st'.
Proof.
  destruct (convert_succeeds demo5 3 1 (req demo5 1) MODE_S) as (st' & lr & q' & Hrun & Hr & _).
  - apply demo5_reachable.
  - by vm_compute.
  - by vm_compute; lia.
  - by vm_compute.
  - by vm_compute.
  - right. by vm_compute.
  - exists st', lr. split; assumption.
Defined.

Lemma unlock_succeeds_witness :
  exists st', unlock demo5 2 = Some (st', true) /\ reachable st'.
Proof.
  destruct (unlock_succeeds demo5 2 (req demo5 2)) as (st' & q' & Hrun & Hr & _).
  - apply demo5_reachable.
  - by vm_compute.
  - by vm_compute; lia.
  - by vm_compute.
  - exists st'. split; assumption.
Defined.

Lemma downgrade_succeeds_witness :
  exists st', downgrade demo5 2 MODE_IS = Some st' /\ reachable st'.
Proof.
  destruct (downgrade_succeeds demo5 2 (req demo5 2) MODE_IS) as (st' & q' & Hrun & Hr & _).
  - apply demo5_reachable.
  - by vm_compute.
  - by vm_compute; lia.
  - by vm_compute.
  - by vm_compute.
  - by vm_compute.
  - done.
  - exists st'. split; assumption.
Defined.

Lemma cleanup_removes_unused_witness :
  exists st', cleanupUnusedLocks demo1 = Some st' /\
    forall res p, find2 (lm_partitions st') p res = None.
Proof.
  destruct (cleanup_removes_unused demo1) as (st' & Hrun & _ & Hp & _); [apply demo1_reachable|].
  exists st'. split; assumption.
Defined.


Lemma mode_change_wakes_all_it_can_witness :
  exists R' h' ws, onLockModeChanged (lm_requests demo5) (drop_granted 2 (req demo5 2) (demo_head demo5)) true =
      Some (R', h', notes (lm_requests demo5) 3 ws) /\ front_blocked R' h'.
Proof.
  destruct (mode_change_wakes_all_it_can (lm_requests demo5)
    (drop_granted 2 (req demo5 2) (demo_head demo5))) as (R' & h' & ws & Hrun & _ & _ & Hf & _).
  - apply wf_drop_granted; [apply demo_head_wf, demo5_reachable|by vm_compute; right; left|by vm_compute|by vm_compute].
  - exists R', h', ws. split; assumption.
Defined.

Lemma newRequest_grant_policy_witness :
  exists R' h' lr, newRequest (lm_requests demo4) (demo_head demo4) 3 = Some (R', h', lr).
Proof.
  destruct (newRequest_grant_policy (lm_requests demo4) (demo_head demo4) 3 (req demo4 3))
    as (R' & h' & lr & Hrun & _).
  - apply demo_head_wf, demo4_reachable.
  - by vm_compute.
  - by vm_compute.
  - exists R', h', lr. assumption.
Defined.
