(* ===== verification/DeadlockDetector.v ===== *)
(** * Deadlock detection

    Models [class DeadlockDetector] of [db/concurrency/lock_manager.h] and
    [lock_manager.cpp]: the exploration of the wait-for graph from a blocked locker.  The
    detector is run on a fixed state of the lock manager; [Locker::getWaitingResource],
    a method of another class, is the argument [getWaitingResource]. *)

From Stdlib Require Import ZArith Lia.
From stdpp Require Import prelude gmap sets functions finite relations.
From S2P Require Import Prelude LockDefs LockHead LockHeadInv LockManager LockManagerInv LockSafety.

Open Scope Z_scope.

Section DeadlockDetector.
Context (st : LockManager) (getWaitingResource : LockerId -> ResourceId).

(** ** State *)

Record UnprocessedNode := mkUnprocessedNode {
  un_lockerId : LockerId;
  un_resId : ResourceId;
}.

Record Edges := mkEdges {
  eg_resId : ResourceId;
  eg_owners : list LockerId;
}.

Record DeadlockDetector := mkDeadlockDetector {
  dd_initialLockerId : LockerId;
  dd_queue : list UnprocessedNode;
  dd_graph : gmap LockerId Edges;
  dd_foundCycle : bool;
}.

Definition DeadlockDetector_new (initialLocker : LockerId) : DeadlockDetector :=
  let resId := getWaitingResource initialLocker in
  mkDeadlockDetector initialLocker
    (if isValid resId then [mkUnprocessedNode initialLocker resId] else []) ∅ false.

(** ** The owners a blocked request waits for *)

(** The node pushed for the request [q'], if its locker waits for something. *)
Definition owner_node (q' : LockRequest) : list UnprocessedNode :=
  let waitResId := getWaitingResource (rq_locker q') in
  if isValid waitResId then [mkUnprocessedNode (rq_locker q') waitResId] else [].

(** The walk over the granted list, from its back. *)
Fixpoint granted_owners (R : requests) (request : ReqPtr) (q : LockRequest) (back_first : list ReqPtr)
    (seen : bool) : option (list UnprocessedNode) :=
  match back_first with
  | [] => Some []
  | it :: rest =>
      if decide (it = request) then granted_owners R request q rest true
      else
        q' ← R !! it;
        match rq_status q with
        | STATUS_WAITING =>
            ns ← granted_owners R request q rest seen;
            Some (if conflicts (rq_mode q) (modeMask (rq_mode q')) ||
                     conflicts (rq_mode q) (modeMask (rq_convertMode q'))
                  then owner_node q' ++ ns else ns)
        | _ =>
            invariant (bool_decide (rq_status q = STATUS_CONVERTING));;
            ns ← granted_owners R request q rest seen;
            Some (if conflicts (rq_convertMode q) (modeMask (rq_mode q')) ||
                     (seen && conflicts (rq_convertMode q) (modeMask (rq_convertMode q')))
                  then owner_node q' ++ ns else ns)
        end
  end.

(** The elements of a list before [r]. *)
Fixpoint before (r : ReqPtr) (l : list ReqPtr) : list ReqPtr :=
  match l with
  | [] => []
  | x :: l => if decide (x = r) then [] else x :: before r l
  end.

(** The walk along [prev] from a waiting request. *)
Fixpoint waiting_owners (R : requests) (request : ReqPtr) (q : LockRequest) (prevs : list ReqPtr)
    : option (list UnprocessedNode) :=
  match prevs with
  | [] => Some []
  | it :: rest =>
      invariant (bool_decide (it <> request));;
      q' ← R !! it;
      ns ← waiting_owners R request q rest;
      Some (if conflicts (rq_mode q) (modeMask (rq_mode q')) then owner_node q' ++ ns else ns)
  end.

(** Both walks: the nodes in the order in which they are pushed. *)
Definition owners_of (R : requests) (h : LockHead) (request : ReqPtr) (q : LockRequest)
    : option (list UnprocessedNode) :=
  ns1 ← granted_owners R request q (reverse (lh_grantedList h)) false;
  ns2 ← (if decide (rq_status q = STATUS_WAITING)
         then waiting_owners R request q (reverse (before request (lh_conflictList h)))
         else Some []);
  Some (ns1 ++ ns2).

(** ** The exploration *)

Definition processNextNode (dd : DeadlockDetector) (node : UnprocessedNode)
    : option DeadlockDetector :=
  match find_head (lm_lockBuckets st) (un_resId node) with
  | None => Some dd
  | Some h =>
      match findRequest (lm_requests st) h (un_lockerId node) with
      | None => Some dd
      | Some request =>
          q ← lm_requests st !! request;
          if decide (rq_status q = STATUS_GRANTED) then Some dd
          else
            match dd_graph dd !! un_lockerId node with
            | Some _ =>
                Some {| dd with dd_foundCycle :=
                        if dd_foundCycle dd then true
                        else bool_decide (un_lockerId node = dd_initialLockerId dd) |}
            | None =>
                ns ← owners_of (lm_requests st) h request q;
                Some {| dd with
                  dd_queue := reverse ns ++ dd_queue dd;
                  dd_graph := <[un_lockerId node :=
                                  mkEdges (un_resId node) (un_lockerId <$> ns)]> (dd_graph dd) |}
            end
      end
  end.

Definition next (dd : DeadlockDetector) : option (DeadlockDetector * bool) :=
  match dd_queue dd with
  | [] => Some (dd, false)
  | front :: queue =>
      dd ← processNextNode {| dd with dd_queue := queue |} front;
      Some (dd, negb (bool_decide (dd_queue dd = [])))
  end.

(** [while (next()) {}]; running out of fuel is [None]. *)
Fixpoint check (fuel : nat) (dd : DeadlockDetector) : option DeadlockDetector :=
  match fuel with
  | O => None
  | S fuel =>
      '(dd, more) ← next dd;
      if more : bool then check fuel dd else Some dd
  end.

Definition hasCycle (dd : DeadlockDetector) : option bool :=
  invariant (bool_decide (dd_queue dd = []));; Some (dd_foundCycle dd).

(** ** The wait-for relation *)

(** The request [it] delays the pending request [request] of the lock head [h]. *)
Definition delays (h : LockHead) (request : ReqPtr) (q : LockRequest) (it : ReqPtr)
    (q' : LockRequest) : Prop :=
  (rq_status q = STATUS_WAITING /\
     ((it ∈ lh_grantedList h /\ (mode_conflict (rq_mode q) (rq_mode q') = true \/
                                 mode_conflict (rq_mode q) (rq_convertMode q') = true)) \/
      (it ∈ before request (lh_conflictList h) /\
       mode_conflict (rq_mode q) (rq_mode q') = true))) \/
  (rq_status q = STATUS_CONVERTING /\ it ∈ lh_grantedList h /\ it <> request /\
     (mode_conflict (rq_convertMode q) (rq_mode q') = true \/
      (it ∈ before request (lh_grantedList h) /\
       mode_conflict (rq_convertMode q) (rq_convertMode q') = true))).

(** The locker has the pending request [request] for the resource it waits for. *)
Definition pending (l : LockerId) (h : LockHead) (request : ReqPtr) (q : LockRequest) : Prop :=
  isValid (getWaitingResource l) = true /\
  find_head (lm_lockBuckets st) (getWaitingResource l) = Some h /\
  findRequest (lm_requests st) h l = Some request /\
  lm_requests st !! request = Some q /\ rq_status q <> STATUS_GRANTED.

Definition blocked (l : LockerId) : Prop := exists h request q, pending l h request q.

(** [l] waits for [l'], which waits for something itself. *)
Definition waits_for (l l' : LockerId) : Prop :=
  exists h request q it q', pending l h request q /\ delays h request q it q' /\
    lm_requests st !! it = Some q' /\ rq_locker q' = l' /\
    isValid (getWaitingResource l') = true.

Lemma elem_of_owner_node q' n :
  n ∈ owner_node q' <-> isValid (getWaitingResource (rq_locker q')) = true /\
    n = mkUnprocessedNode (rq_locker q') (getWaitingResource (rq_locker q')).
Proof. unfold owner_node. destruct (isValid _); set_solver. Qed.

Lemma before_elem r l x : x ∈ before r l -> x ∈ l.
Proof. induction l as [|y l IH]; simpl; [done|]. case_decide; set_solver. Qed.

Lemma before_not_self r l : r ∉ before r l.
Proof. induction l as [|y l IH]; simpl; [set_solver|]. case_decide; set_solver. Qed.

(** The back-first rest of a list after [r] has been passed. *)
Lemma before_split a r b : r ∉ a -> before r (a ++ r :: b) = a.
Proof.
  induction a as [|y a IH]; simpl; intros Hr.
  - by rewrite decide_True.
  - rewrite decide_False by set_solver. f_equal. apply IH. set_solver.
Qed.

Lemma find_locker_spec R l i r :
  find_locker R l i = Some r -> exists q, R !! r = Some q /\ rq_locker q = i /\ r ∈ l.
Proof.
  induction l as [|x l IH]; simpl; [done|]. destruct (R !! x) as [q|] eqn:E; [|done].
  destruct (Z.eqb_spec (rq_locker q) i); [intros [= <-]; exists q; set_solver|].
  intros (q' & ? & ? & ?)%IH. exists q'. set_solver.
Qed.

Lemma findRequest_spec R h i r :
  findRequest R h i = Some r -> exists q, R !! r = Some q /\ rq_locker q = i /\ r ∈ members h.
Proof.
  unfold findRequest, members. destruct (find_locker R (lh_grantedList h) i) eqn:E.
  - intros [= <-]. apply find_locker_spec in E as (q & ? & ? & ?). exists q. set_solver.
  - intros (q & ? & ? & ?)%find_locker_spec. exists q. set_solver.
Qed.

(** One turn of a walk that pushes the nodes of the requests with property [P]. *)
Lemma push_owner_spec (P : LockRequest -> Prop) (R : requests) x qx l (b : bool) ns :
  (b = true <-> P qx) -> R !! x = Some qx ->
  (forall n, n ∈ ns <-> exists it q', it ∈ l /\ R !! it = Some q' /\ P q' /\ n ∈ owner_node q') ->
  forall n, n ∈ (if b then owner_node qx ++ ns else ns) <->
    exists it q', it ∈ x :: l /\ R !! it = Some q' /\ P q' /\ n ∈ owner_node q'.
Proof.
  intros Hb Hx Hns n. setoid_rewrite elem_of_cons. split.
  - intros Hn. assert ((b = true /\ n ∈ owner_node qx) \/ n ∈ ns) as [[Ht Hn']|Hn'].
    { destruct b; [apply elem_of_app in Hn|]; tauto. }
    + exists x, qx. apply Hb in Ht. auto.
    + apply Hns in Hn' as (it & q' & ? & ? & ? & ?). eauto 8.
  - intros (it & q' & [-> |Hit] & Hq' & HP & Hn).
    + rewrite Hx in Hq'. injection Hq' as <-. apply Hb in HP as ->. apply elem_of_app. auto.
    + assert (n ∈ ns) by (apply Hns; eauto 8). destruct b; [apply elem_of_app|]; auto.
Qed.

Lemma waiting_owners_spec R request q l :
  (forall x, x ∈ l -> x <> request /\ is_Some (R !! x)) ->
  exists ns, waiting_owners R request q l = Some ns /\
    forall n, n ∈ ns <-> exists it q', it ∈ l /\ R !! it = Some q' /\
      mode_conflict (rq_mode q) (rq_mode q') = true /\ n ∈ owner_node q'.
Proof.
  induction l as [|x l IH]; intros Hl; [exists []; split; [done|set_solver]|].
  destruct IH as (ns & Hns & Hspec); [set_solver|].
  destruct (Hl x) as [Hne [qx Hqx]]; [set_solver|]. cbn [waiting_owners].
  rewrite invariant_bind by by apply bool_decide_eq_true. rewrite Hqx. cbn [mbind option_bind].
  rewrite Hns. cbn [mbind option_bind]. eexists. split; [done|].
  by apply (push_owner_spec (fun q' => mode_conflict (rq_mode q) (rq_mode q') = true)).
Qed.

Lemma granted_owners_waiting R request q l seen :
  rq_status q = STATUS_WAITING -> request ∉ l -> (forall x, x ∈ l -> is_Some (R !! x)) ->
  exists ns, granted_owners R request q l seen = Some ns /\
    forall n, n ∈ ns <-> exists it q', it ∈ l /\ R !! it = Some q' /\
      (mode_conflict (rq_mode q) (rq_mode q') = true \/
       mode_conflict (rq_mode q) (rq_convertMode q') = true) /\ n ∈ owner_node q'.
Proof.
  intros Hs. induction l as [|x l IH]; intros Hr Hl; [exists []; split; [done|set_solver]|].
  destruct IH as (ns & Hns & Hspec); [set_solver|set_solver|].
  destruct (Hl x) as [qx Hqx]; [set_solver|]. cbn [granted_owners].
  rewrite decide_False by set_solver. rewrite Hqx. cbn [mbind option_bind]. rewrite Hs, Hns.
  cbn [mbind option_bind]. eexists. split; [done|].
  apply (push_owner_spec (fun q' => mode_conflict (rq_mode q) (rq_mode q') = true \/
    mode_conflict (rq_mode q) (rq_convertMode q') = true)); [apply orb_true_iff|done|done].
Qed.

Lemma granted_owners_converting R request q l : forall seen,
  rq_status q = STATUS_CONVERTING -> request ∉ l -> (forall x, x ∈ l -> is_Some (R !! x)) ->
  exists ns, granted_owners R request q l seen = Some ns /\
    forall n, n ∈ ns <-> exists it q', it ∈ l /\ R !! it = Some q' /\
      (mode_conflict (rq_convertMode q) (rq_mode q') = true \/
       (seen = true /\ mode_conflict (rq_convertMode q) (rq_convertMode q') = true)) /\
      n ∈ owner_node q'.
Proof.
  induction l as [|x l IH]; intros seen Hs Hr Hl; [exists []; split; [done|set_solver]|].
  destruct (IH seen) as (ns & Hns & Hspec); [done|set_solver|set_solver|].
  destruct (Hl x) as [qx Hqx]; [set_solver|]. cbn [granted_owners].
  rewrite decide_False by set_solver. rewrite Hqx. cbn [mbind option_bind]. rewrite Hs.
  cbn [invariant mbind option_bind]. rewrite Hns. cbn [mbind option_bind].
  eexists. split; [done|].
  apply (push_owner_spec (fun q' => mode_conflict (rq_convertMode q) (rq_mode q') = true \/
    (seen = true /\ mode_conflict (rq_convertMode q) (rq_convertMode q') = true))); [|done|done].
  by rewrite orb_true_iff, andb_true_iff.
Qed.

Lemma granted_owners_app R request q l1 l2 seen ns1 ns2 :
  request ∉ l1 -> rq_status q = STATUS_CONVERTING ->
  granted_owners R request q l1 seen = Some ns1 ->
  granted_owners R request q l2 true = Some ns2 ->
  granted_owners R request q (l1 ++ request :: l2) seen = Some (ns1 ++ ns2).
Proof.
  revert ns1. induction l1 as [|x l1 IH]; intros ns1 Hr Hs H1 H2; cbn [granted_owners app] in *.
  - injection H1 as <-. by rewrite decide_True.
  - apply not_elem_of_cons in Hr as [Hne Hr]. rewrite decide_False in H1 |- * by congruence.
    destruct (R !! x) as [qx|]; [|done]. cbn [mbind option_bind] in H1 |- *. rewrite Hs in H1 |- *.
    cbn [invariant mbind option_bind] in H1 |- *.
    destruct (granted_owners R request q l1 seen) as [ns|] eqn:E; [|done].
    cbn [mbind option_bind] in H1. rewrite (IH ns) by done.
    cbn [mbind option_bind]. apply (inj Some) in H1 as <-. f_equal.
    match goal with |- context [if ?b then _ else _] => destruct b end; by rewrite ?app_assoc.
Qed.

Lemma owners_of_waiting R h request q :
  wf_head R h -> request ∈ members h -> R !! request = Some q -> rq_status q = STATUS_WAITING ->
  exists ns, owners_of R h request q = Some ns /\
    forall n, n ∈ ns <-> exists it q', delays h request q it q' /\ R !! it = Some q' /\
      n ∈ owner_node q'.
Proof.
  intros Hwf Hr Hq Hs. unfold owners_of.
  assert (request ∉ lh_grantedList h) as Hng.
  { intros Hg. destruct (wf_holding _ _ Hwf request Hg) as (q0 & ? & _ & _ & _ & _ & Hst).
    naive_solver congruence. }
  assert (forall x, x ∈ members h -> is_Some (R !! x)) as Hlook.
  { intros x [Hx|Hx]%elem_of_app; [destruct (wf_holding _ _ Hwf x Hx) as (? & -> & _)
      |destruct (wf_waiting _ _ Hwf x Hx) as (? & -> & _)]; by eexists. }
  destruct (granted_owners_waiting R request q (reverse (lh_grantedList h)) false)
    as (ns1 & -> & H1); [done|by rewrite elem_of_reverse|..].
  { intros x. rewrite elem_of_reverse. intros Hx. apply Hlook. unfold members. set_solver. }
  cbn [mbind option_bind]. rewrite decide_True by done.
  destruct (waiting_owners_spec R request q (reverse (before request (lh_conflictList h))))
    as (ns2 & -> & H2).
  { intros x. rewrite elem_of_reverse. intros Hx. split; [intros ->; by apply before_not_self in Hx|].
    apply before_elem in Hx. apply Hlook. unfold members. set_solver. }
  cbn [mbind option_bind]. eexists. split; [done|]. intros n.
  rewrite elem_of_app, H1, H2. unfold delays. setoid_rewrite elem_of_reverse. rewrite Hs. split.
  - intros [(it & q' & ? & ? & ? & ?)|(it & q' & ? & ? & ? & ?)]; exists it, q'; tauto.
  - intros (it & q' & [(_ & [[? ?]|[? ?]])|[? _]] & ? & ?); [left|right|done]; exists it, q'; tauto.
Qed.

Lemma owners_of_converting R h request q :
  wf_head R h -> request ∈ members h -> R !! request = Some q ->
  rq_status q = STATUS_CONVERTING ->
  exists ns, owners_of R h request q = Some ns /\
    forall n, n ∈ ns <-> exists it q', delays h request q it q' /\ R !! it = Some q' /\
      n ∈ owner_node q'.
Proof.
  intros Hwf Hr Hq Hs. unfold owners_of. rewrite decide_False by congruence.
  assert (request ∈ lh_grantedList h) as Hg.
  { apply elem_of_app in Hr as [?|Hw]; [done|].
    destruct (wf_waiting _ _ Hwf request Hw) as (? & ? & _ & _ & _ & _ & ? & _). congruence. }
  assert (forall x, x ∈ lh_grantedList h -> is_Some (R !! x)) as Hlook.
  { intros x Hx. destruct (wf_holding _ _ Hwf x Hx) as (? & -> & _). by eexists. }
  pose proof (wf_nodup_granted Hwf) as Hnd.
  apply list_elem_of_split in Hg as (a & b & El).
  rewrite El in Hnd. apply NoDup_app in Hnd as (_ & Hd & [Hrb _]%NoDup_cons).
  assert (request ∉ a) as Hra by (intros Hin; apply (Hd request Hin); set_solver).
  unfold delays. rewrite El in Hlook |- *. rewrite (before_split a request b) by done.
  destruct (granted_owners_converting R request q (reverse b) false) as (ns1 & E1 & H1);
    [done|by rewrite elem_of_reverse|intros x; rewrite elem_of_reverse; intros Hx; apply Hlook; set_solver|].
  destruct (granted_owners_converting R request q (reverse a) true) as (ns2 & E2 & H2);
    [done|by rewrite elem_of_reverse|intros x; rewrite elem_of_reverse; intros Hx; apply Hlook; set_solver|].
  rewrite reverse_app, reverse_cons, <- app_assoc. simpl.
  rewrite (granted_owners_app R request q (reverse b) (reverse a) false ns1 ns2)
    by (rewrite ?elem_of_reverse; done).
  cbn [mbind option_bind]. eexists. split; [done|]. intros n. rewrite app_nil_r, elem_of_app, H1, H2.
  setoid_rewrite elem_of_reverse. setoid_rewrite elem_of_app. setoid_rewrite elem_of_cons.
  rewrite Hs. split.
  - intros [(it & q' & Hit & ? & Hc & ?)|(it & q' & Hit & ? & Hc & ?)]; exists it, q'.
    + assert (it <> request) by (intros ->; done). destruct Hc as [?|[? _]]; [tauto|done].
    + assert (it <> request) by (intros ->; done). tauto.
  - intros (it & q' & [(? & _)|(_ & Hin & Hne & Hc)] & ? & ?); [done|].
    assert (it ∈ a -> it ∉ b) as Hab by (intros Ha Hb; apply (Hd it Ha); set_solver).
    destruct Hin as [Ha|[?|Hb]]; [right|done|left]; exists it, q'; tauto.
Qed.

Context (Hheads : forall res h, find_head (lm_lockBuckets st) res = Some h ->
                    wf_head (lm_requests st) h).

(** ** One step of the exploration *)

Definition node_of (l : LockerId) : UnprocessedNode := mkUnprocessedNode l (getWaitingResource l).

Lemma pending_functional l h r q h' r' q' :
  pending l h r q -> pending l h' r' q' -> h = h' /\ r = r' /\ q = q'.
Proof. unfold pending. intros. destruct_and!. by simplify_eq. Qed.

Lemma owners_of_pending l h request q :
  pending l h request q ->
  exists ns, owners_of (lm_requests st) h request q = Some ns /\
    forall n, n ∈ ns <-> exists l', n = node_of l' /\ waits_for l l'.
Proof using Hheads.
  intros Hp. pose proof Hp as (Hv & Hh & Hf & Hq & Hs). pose proof (Hheads _ _ Hh) as Hwf.
  destruct (findRequest_spec _ _ _ _ Hf) as (q0 & Hq0 & Hlk & Hm).
  rewrite Hq in Hq0. injection Hq0 as <-.
  assert (exists ns, owners_of (lm_requests st) h request q = Some ns /\
    forall n, n ∈ ns <-> exists it q', delays h request q it q' /\ lm_requests st !! it = Some q' /\
      n ∈ owner_node q') as (ns & Hns & Hspec).
  { destruct (rq_status q) eqn:Es; [|done|by apply owners_of_waiting|by apply owners_of_converting].
    exfalso. apply elem_of_app in Hm as [Hm|Hm].
    - destruct (wf_holding _ _ Hwf _ Hm) as (? & ? & _ & _ & _ & _ & Hst). naive_solver congruence.
    - destruct (wf_waiting _ _ Hwf _ Hm) as (? & ? & _ & _ & _ & _ & ? & _). congruence. }
  exists ns. split; [done|]. intros n. rewrite Hspec. split.
  - intros (it & q' & Hd & Hq' & [Hval ->]%elem_of_owner_node). exists (rq_locker q').
    split; [done|]. exists h, request, q, it, q'. by split_and!.
  - intros (l' & -> & h' & r' & q1 & it & q' & Hp' & Hd & Hq' & <- & Hval).
    destruct (pending_functional _ _ _ _ _ _ _ Hp Hp') as (<- & <- & <-).
    exists it, q'. split_and!; [done..|]. by apply elem_of_owner_node.
Qed.

(** The three outcomes of [_processNextNode] on a node of the exploration. *)
Lemma processNextNode_spec dd l :
  isValid (getWaitingResource l) = true ->
  (~ blocked l /\ processNextNode dd (node_of l) = Some dd) \/
  (blocked l /\ l ∈ dom (dd_graph dd) /\
     processNextNode dd (node_of l) = Some {| dd with dd_foundCycle :=
       dd_foundCycle dd || bool_decide (l = dd_initialLockerId dd) |}) \/
  (blocked l /\ (l ∉ dom (dd_graph dd)) /\ exists ns es,
     processNextNode dd (node_of l) = Some {| dd with
       dd_queue := reverse ns ++ dd_queue dd; dd_graph := <[l := es]> (dd_graph dd) |} /\
     forall n, n ∈ ns <-> exists l', n = node_of l' /\ waits_for l l').
Proof using Hheads.
  intros Hv. unfold processNextNode. simpl.
  destruct (find_head (lm_lockBuckets st) (getWaitingResource l)) as [h|] eqn:Hh.
  2: { left. split; [|done]. intros (? & ? & ? & _ & ? & _). congruence. }
  destruct (findRequest (lm_requests st) h l) as [r|] eqn:Hf.
  2: { left. split; [|done]. intros (? & ? & ? & _ & ? & ? & _). congruence. }
  destruct (findRequest_spec _ _ _ _ Hf) as (q & Hq & Hlk & Hm). rewrite Hq. cbn [mbind option_bind].
  destruct (decide (rq_status q = STATUS_GRANTED)) as [Hg|Hg].
  { left. split; [|done]. intros (? & ? & ? & _ & ? & ? & ? & ?). congruence. }
  assert (pending l h r q) as Hp by by split_and!.
  assert (blocked l) as Hb by by exists h, r, q. right.
  destruct (dd_graph dd !! l) as [es|] eqn:He; [left|right].
  - split_and!; [done|by eapply elem_of_dom_2|]. by destruct (dd_foundCycle dd).
  - split_and!; [done|by apply not_elem_of_dom|].
    destruct (owners_of_pending _ _ _ _ Hp) as (ns & -> & Hns). by eexists _, _.
Qed.

(** ** The invariant of the exploration *)

Lemma waits_for_valid l l' : waits_for l l' -> isValid (getWaitingResource l') = true.
Proof. intros (? & ? & ? & ? & ? & _ & _ & _ & _ & ?). done. Qed.

Lemma waits_for_blocked l l' : waits_for l l' -> blocked l.
Proof. intros (h & r & q & ? & ? & ? & _). by exists h, r, q. Qed.

Lemma tc_waits_for_blocked l l' : tc waits_for l l' -> blocked l.
Proof. intros []; by eapply waits_for_blocked. Qed.

Section run.
Context (l0 : LockerId).

(** What holds once the initial locker has been processed. *)
Record explored (dd : DeadlockDetector) : Prop := mk_explored {
  ex_initial : dd_initialLockerId dd = l0;
  ex_start : l0 ∈ dom (dd_graph dd);
  ex_queue : forall n, n ∈ dd_queue dd -> exists l, n = node_of l /\
    isValid (getWaitingResource l) = true /\ tc waits_for l0 l;
  ex_graph : forall l, l ∈ dom (dd_graph dd) -> rtc waits_for l0 l /\ blocked l;
  ex_closed : forall l l', l ∈ dom (dd_graph dd) -> waits_for l l' -> blocked l' ->
    l' ∈ dom (dd_graph dd) \/ node_of l' ∈ dd_queue dd;
  ex_sound : dd_foundCycle dd = true -> tc waits_for l0 l0;
  ex_complete : forall l, l ∈ dom (dd_graph dd) -> waits_for l l0 ->
    dd_foundCycle dd = true \/ node_of l0 ∈ dd_queue dd;
}.

(** The step that adds a locker to the graph. *)
Lemma explored_add dd l q ns es :
  explored dd -> dd_queue dd = node_of l :: q -> tc waits_for l0 l -> blocked l ->
  l ∉ dom (dd_graph dd) ->
  (forall n, n ∈ ns <-> exists l', n = node_of l' /\ waits_for l l') ->
  explored {| dd with dd_queue := reverse ns ++ q; dd_graph := <[l := es]> (dd_graph dd) |}.
Proof.
  intros Hex Hqueue Hreach Hb Hl Hns.
  assert (forall n, n ∈ reverse ns ++ q <-> (exists l', n = node_of l' /\ waits_for l l') \/ n ∈ q) as Hq.
  { intros n. by rewrite elem_of_app, elem_of_reverse, Hns. }
  assert (forall n, n ∈ dd_queue dd <-> n = node_of l \/ n ∈ q) as Hq0
    by (intros n; rewrite Hqueue, elem_of_cons; done).
  assert (forall x, x ∈ dom (<[l:=es]> (dd_graph dd)) <-> x = l \/ x ∈ dom (dd_graph dd)) as Hd
    by (intros x; rewrite dom_insert; set_solver).
  split; simpl; [apply Hex| | | | |apply Hex|].
  - apply Hd. right. apply Hex.
  - intros n [(l' & -> & Hw)|Hn]%Hq; [|apply Hex, Hq0; auto].
    exists l'. split_and!; [done|by eapply waits_for_valid|]. by eapply tc_r.
  - intros x [-> |Hx]%Hd; [split; [by apply tc_rtc|done]|by apply Hex].
  - intros x y [-> |Hx]%Hd Hw Hby; rewrite Hd, Hq; [right; left; eauto|].
    destruct (ex_closed _ Hex x y Hx Hw Hby) as [?|[Hn|?]%Hq0]; auto. injection Hn as ->. auto.
  - intros x [-> |Hx]%Hd Hw; rewrite Hq; [right; left; eauto|].
    destruct (ex_complete _ Hex x Hx Hw) as [?|[Hn|?]%Hq0]; auto.
    injection Hn as <-. destruct Hl. apply Hex.
Qed.

(** The step that reaches a locker of the graph again. *)
Lemma explored_again dd l q :
  explored dd -> dd_queue dd = node_of l :: q -> tc waits_for l0 l -> l ∈ dom (dd_graph dd) ->
  explored {| dd with dd_queue := q;
              dd_foundCycle := dd_foundCycle dd || bool_decide (l = dd_initialLockerId dd) |}.
Proof.
  intros Hex Hqueue Hreach Hl. rewrite (ex_initial _ Hex).
  assert (forall n, n ∈ dd_queue dd <-> n = node_of l \/ n ∈ q) as Hq0
    by (intros n; rewrite Hqueue, elem_of_cons; done).
  split; simpl; try apply Hex; try done.
  - intros n Hn. apply Hex, Hq0. auto.
  - intros x y Hx Hw Hby.
    destruct (ex_closed _ Hex x y Hx Hw Hby) as [?|[Hn|?]%Hq0]; auto. injection Hn as ->. auto.
  - intros [Hf|Hf]%orb_true_iff; [by apply Hex|]. bprop. by subst.
  - intros x Hx Hw. destruct (ex_complete _ Hex x Hx Hw) as [->|[Hn|?]%Hq0]; auto.
    injection Hn as <-. left. rewrite bool_decide_eq_true_2 by done. apply orb_true_r.
Qed.

(** The step on a locker that is not blocked any more. *)
Lemma explored_skip dd l q :
  explored dd -> dd_queue dd = node_of l :: q -> ~ blocked l ->
  explored {| dd with dd_queue := q |}.
Proof.
  intros Hex Hqueue Hnb.
  assert (forall n, n ∈ dd_queue dd <-> n = node_of l \/ n ∈ q) as Hq0
    by (intros n; rewrite Hqueue, elem_of_cons; done).
  split; simpl; try apply Hex.
  - intros n Hn. apply Hex, Hq0. auto.
  - intros x y Hx Hw Hby.
    destruct (ex_closed _ Hex x y Hx Hw Hby) as [?|[Hn|?]%Hq0]; auto. by injection Hn as ->.
  - intros x Hx Hw. destruct (ex_complete _ Hex x Hx Hw) as [->|[Hn|?]%Hq0]; auto.
    injection Hn as <-. destruct Hnb. by apply (ex_graph _ Hex), (ex_start _ Hex).
Qed.

(** ** Termination *)

(** The lockers that own a request. *)
Definition lockers : gset LockerId :=
  list_to_set ((fun rq => rq_locker rq.2) <$> map_to_list (lm_requests st)).

Lemma blocked_lockers l : blocked l -> l ∈ lockers.
Proof.
  intros (h & r & q & _ & _ & Hf & _). apply findRequest_spec in Hf as (q0 & Hq0 & <- & _).
  unfold lockers. rewrite elem_of_list_to_set, list_elem_of_fmap. exists (r, q0).
  by rewrite elem_of_map_to_list.
Qed.

(** One call of [next] keeps the invariant and makes progress: a locker is added to the
    graph, or the queue shrinks. *)
Lemma detector_next_spec dd n q :
  explored dd -> dd_queue dd = n :: q ->
  exists dd', next dd = Some (dd', negb (bool_decide (dd_queue dd' = []))) /\ explored dd' /\
    ((size (lockers ∖ dom (dd_graph dd')) < size (lockers ∖ dom (dd_graph dd)))%nat \/
     (dd_graph dd' = dd_graph dd /\ dd_queue dd' = q)).
Proof using Hheads.
  intros Hex Hqueue. destruct (ex_queue _ Hex n) as (l & -> & Hv & Hr); [rewrite Hqueue; left|].
  unfold next. rewrite Hqueue.
  destruct (processNextNode_spec {| dd with dd_queue := q |} l Hv)
    as [[Hnb ->]|[(Hb & Hin & ->)|(Hb & Hnin & ns & es & -> & Hns)]]; cbn [mbind option_bind];
    (eexists; split; [reflexivity|]; split).
  - by apply (explored_skip dd l q).
  - by right.
  - by apply (explored_again dd l q).
  - by right.
  - by apply (explored_add dd l q ns es).
  - left. simpl. apply subset_size, strict_spec. rewrite dom_insert_L. split; [set_solver|].
    intros Hsub. apply blocked_lockers in Hb. assert (l ∈ lockers ∖ dom (dd_graph dd)) by set_solver.
    set_solver.
Qed.

Lemma check_terminates dd :
  explored dd -> dd_queue dd <> [] ->
  exists fuel dd', check fuel dd = Some dd' /\ explored dd' /\ dd_queue dd' = [].
Proof using Hheads.
  remember (size (lockers ∖ dom (dd_graph dd))) as k eqn:Hk. revert dd Hk.
  induction (lt_wf k) as [k _ IHk]. intros dd Hk.
  remember (dd_queue dd) as Q eqn:HQ. revert dd Hk HQ.
  induction Q as [|n q IHq]; intros dd Hk HQ Hex Hne; [done|].
  destruct (detector_next_spec dd n q Hex (eq_sym HQ)) as (dd' & Hnext & Hex' & Hprog).
  destruct (decide (dd_queue dd' = [])) as [He|He].
  { exists 1%nat, dd'. cbn [check]. rewrite Hnext. cbn [mbind option_bind].
    rewrite bool_decide_eq_true_2 by done. done. }
  assert (exists fuel dd2, check fuel dd' = Some dd2 /\ explored dd2 /\ dd_queue dd2 = [])
    as (fuel & dd2 & Hrun & ? & ?).
  { destruct Hprog as [Hlt|[Hg Hq]].
    - eapply IHk; [|done|done|done]. lia.
    - apply IHq; try done; [by rewrite Hg|by rewrite <- Hq]. }
  exists (S fuel), dd2. cbn [check]. rewrite Hnext. cbn [mbind option_bind].
  rewrite bool_decide_eq_false_2 by done. done.
Qed.

(** With the queue empty, the flag says whether there is a cycle through [l0]. *)
Lemma explored_final dd :
  explored dd -> dd_queue dd = [] -> dd_foundCycle dd = true <-> tc waits_for l0 l0.
Proof.
  intros Hex Hq. split; [apply Hex|]. intros Hc.
  assert (forall x y, tc waits_for x y -> x ∈ dom (dd_graph dd) ->
    exists z, waits_for z y /\ z ∈ dom (dd_graph dd)) as Hpath.
  { intros x y Ht. induction Ht as [x y Hw|x y z Hw Ht IH]; intros Hx; [eauto|]. apply IH.
    assert (blocked y) as Hb by by eapply tc_waits_for_blocked.
    destruct (ex_closed _ Hex x y Hx Hw Hb) as [?|Hn]; [done|]. rewrite Hq in Hn. set_solver. }
  destruct (Hpath l0 l0 Hc (ex_start _ Hex)) as (z & Hw & Hz).
  destruct (ex_complete _ Hex z Hz Hw) as [?|Hn]; [done|]. rewrite Hq in Hn. set_solver.
Qed.

(** The first call of [next]. *)
Lemma first_step :
  isValid (getWaitingResource l0) = true ->
  (~ blocked l0 /\ next (DeadlockDetector_new l0) =
     Some (mkDeadlockDetector l0 [] ∅ false, false)) \/
  (blocked l0 /\ exists dd, explored dd /\
     next (DeadlockDetector_new l0) = Some (dd, negb (bool_decide (dd_queue dd = [])))).
Proof using Hheads.
  intros Hv. unfold DeadlockDetector_new, next. rewrite Hv. simpl.
  destruct (processNextNode_spec (mkDeadlockDetector l0 [] ∅ false) l0 Hv)
    as [[Hnb E]|[(Hb & Hin & E)|(Hb & _ & ns & es & E & Hns)]]; unfold node_of in E;
    rewrite E; simpl in *; [by left|set_solver|right].
  split; [done|]. exists (mkDeadlockDetector l0 (reverse ns ++ []) (<[l0 := es]> ∅) false).
  split; [|reflexivity]. rewrite app_nil_r.
  assert (forall x, x ∈ dom (<[l0:=es]> (∅ : gmap LockerId Edges)) <-> x = l0) as Hd
    by (intros x; rewrite dom_insert, dom_empty; set_solver).
  split; simpl; try done.
  - by apply Hd.
  - intros n. rewrite elem_of_reverse, Hns. intros (l' & -> & Hw).
    exists l'. split_and!; [done|by eapply waits_for_valid|by apply tc_once].
  - intros x ->%Hd. split; [apply rtc_refl|done].
  - intros x y ->%Hd Hw Hby. right. rewrite elem_of_reverse, Hns. eauto.
  - intros x ->%Hd Hw. right. rewrite elem_of_reverse, Hns. eauto.
Qed.

Lemma check_hasCycle :
  exists fuel dd, check fuel (DeadlockDetector_new l0) = Some dd /\
    exists b, hasCycle dd = Some b /\ (b = true <-> tc waits_for l0 l0).
Proof using Hheads.
  assert (tc waits_for l0 l0 -> blocked l0 /\ isValid (getWaitingResource l0) = true) as Htc.
  { intros Hb%tc_waits_for_blocked. split; [done|]. by destruct Hb as (? & ? & ? & ? & _). }
  destruct (isValid (getWaitingResource l0)) eqn:Hv.
  2: { exists 1%nat, (DeadlockDetector_new l0). unfold DeadlockDetector_new. rewrite Hv.
       split; [done|]. exists false. split; [done|]. split; [done|]. intros Hc%Htc. naive_solver. }
  destruct (first_step Hv) as [[Hnb Hrun]|(Hb & dd & Hex & Hrun)].
  { exists 1%nat. eexists. cbn [check]. rewrite Hrun. split; [done|]. exists false.
    split; [done|]. split; [done|]. intros Hc%Htc. naive_solver. }
  destruct (decide (dd_queue dd = [])) as [He|He].
  { exists 1%nat, dd. cbn [check]. rewrite Hrun. cbn [mbind option_bind].
    rewrite bool_decide_eq_true_2 by done. split; [done|]. exists (dd_foundCycle dd).
    unfold hasCycle. rewrite bool_decide_eq_true_2 by done. split; [done|by apply explored_final]. }
  destruct (check_terminates dd Hex He) as (fuel & dd2 & Hck & Hex2 & Hq2).
  exists (S fuel), dd2. cbn [check]. rewrite Hrun. cbn [mbind option_bind].
  rewrite bool_decide_eq_false_2 by done. split; [done|]. exists (dd_foundCycle dd2).
  unfold hasCycle. rewrite bool_decide_eq_true_2 by done. split; [done|by apply explored_final].
Qed.
End run.
End DeadlockDetector.

(** ** The theorem *)

(** [C19] On a reachable state of the lock manager, [DeadlockDetector::check] started from any
    locker terminates without tripping an assertion, and [hasCycle] then answers true
    exactly when the locker is on a cycle of the wait-for relation: every locker on it has a
    pending request that is delayed by a request of the next one (a conflicting holder, a
    conflicting conversion, or a conflicting waiter ahead of it). *)
Theorem deadlock_detection_exact st getWaitingResource l0 :
  reachable st ->
  exists fuel dd b,
    check st getWaitingResource fuel (DeadlockDetector_new getWaitingResource l0) = Some dd /\
    hasCycle dd = Some b /\
    (b = true <-> tc (waits_for st getWaitingResource) l0 l0).
Proof.
  intros Hr. pose proof (reachable_inv st Hr) as Hi.
  destruct (check_hasCycle st getWaitingResource) with (l0 := l0) as (fuel & dd & Hck & b & Hb & Hiff).
  - intros res h. apply (loc_wf _ _ _ _ (inv_local _ Hi res)).
  - by exists fuel, dd, b.
Qed.

(** Two lockers, each holding a database lock the other one waits for. *)
Definition db1 : ResourceId := fullHash RESOURCE_DATABASE 1.
Definition db2 : ResourceId := fullHash RESOURCE_DATABASE 2.

Definition dead1 : LockManager :=
  after_lock (new_request LockManager_new 1 10 1 false false) db1 1 MODE_X.
Definition dead2 : LockManager := after_lock (new_request dead1 2 20 2 false false) db2 2 MODE_X.
Definition dead3 : LockManager := after_lock (new_request dead2 3 10 3 false false) db2 3 MODE_S.
Definition dead4 : LockManager := after_lock (new_request dead3 4 20 4 false false) db1 4 MODE_IX.

Definition dead_waiting (l : LockerId) : ResourceId :=
  if l =? 10 then db2 else if l =? 20 then db1 else 0.

Lemma dead4_reachable : reachable dead4.
Proof.
  apply after_lock_reachable; [|done|done]. apply new_request_reachable; [|by vm_compute].
  apply after_lock_reachable; [|done|done]. apply new_request_reachable; [|by vm_compute].
  apply after_lock_reachable; [|done|done]. apply new_request_reachable; [|by vm_compute].
  apply after_lock_reachable; [|done|done]. apply new_request_reachable; [|by vm_compute].
  apply rtc_refl.
Qed.

Lemma deadlock_detection_exact_witness :
  (dd ← check dead4 dead_waiting 5 (DeadlockDetector_new dead_waiting 10); hasCycle dd) = Some true /\
  exists fuel dd b,
    check dead4 dead_waiting fuel (DeadlockDetector_new dead_waiting 10) = Some dd /\
    hasCycle dd = Some b /\ (b = true <-> tc (waits_for dead4 dead_waiting) 10 10).
Proof.
  split; [vm_compute; reflexivity|].
  apply (deadlock_detection_exact dead4 dead_waiting 10), dead4_reachable.
Defined.
