(* ===== verification/Locker.v ===== *)
(** * The locker of an operation

    Models [class LockerImpl] of [db/concurrency/lock_state.h] and [lock_state.cpp] on top
    of the lock manager: lock requests in a [FastMapNoAlloc], two-phase locking in write
    units of work, tickets, and saving and restoring of the lock state.

    What other threads do while a locker sleeps is an oracle: each wait consumes a
    [WaitEvent], which carries the state of the lock manager at the wakeup. *)

From S2P Require Import FastMap.
From Stdlib Require Import ZArith Lia.
From stdpp Require Import prelude gmap functions finite.
From S2P Require Import Prelude LockDefs LockHead LockHeadInv LockManager LockManagerInv.

Open Scope Z_scope.

(** ** State *)

Inductive ClientState :=
  kInactive | kActiveReader | kActiveWriter | kQueuedReader | kQueuedWriter.

#[global] Instance ClientState_eq_dec : EqDecision ClientState.
Proof. solve_decision. Defined.

(** The request objects live in the slots of the map; the part of a [LockRequest] that the
    lock manager does not use, [unlockPending], is the value of a slot. *)
Abbreviation LockRequestsMap := (FastMapNoAlloc Z nat) (only parsing).

Record LockerImpl := mkLockerImpl {
  lk_id : LockerId;
  lk_requests : LockRequestsMap;
  lk_notify : LockResult;
  lk_wuowNestingLevel : nat;
  lk_modeForTicket : LockMode;
  lk_clientState : ClientState;
  lk_numResourcesToUnlockAtEndUnitOfWork : nat;
  lk_sharedLocksShouldTwoPhaseLock : bool;
  lk_prepareModeForLockYields : bool;
  lk_maxLockTimeout : option Z;
  lk_uninterruptibleLocksRequested : nat;
  lk_shouldConflictWithSecondaryBatchApplication : bool;
  lk_shouldAcquireTicket : bool;
}.

(** One wakeup in [lockComplete]: the lock manager then, the result of [_notify.wait]
    ([None]: the operation was interrupted), the time slept in microseconds, and what
    the deadlock detector finds. *)
Record WaitEvent := mkWaitEvent {
  ev_lockManager : LockManager;
  ev_result : option LockResult;
  ev_elapsedMicros : Z;
  ev_cycle : bool;
}.

(** What happens to a wait for a ticket. *)
Inductive TicketEvent := TicketGranted | TicketTimeout | TicketInterrupted.

(** The available tickets of the two ticket holders, [None] when there is no holder. *)
Record Tickets := mkTickets {
  tk_reading : option nat;
  tk_writing : option nat;
}.

(** [ticketHolders], as set by [Locker::setGlobalThrottling]. *)
Definition ticketHolders (t : Tickets) (mode : LockMode) : option nat :=
  match mode with
  | MODE_S | MODE_IS => tk_reading t
  | MODE_IX => tk_writing t
  | _ => None
  end.

Definition set_available (t : Tickets) (mode : LockMode) (n : nat) : Tickets :=
  match mode with
  | MODE_S | MODE_IS => {| t with tk_reading := Some n |}
  | MODE_IX => {| t with tk_writing := Some n |}
  | _ => t
  end.

Record World := mkWorld {
  w_lm : LockManager;
  w_lk : LockerImpl;
  w_tickets : Tickets;
  w_waits : list WaitEvent;
  w_ticketWaits : list TicketEvent;
}.

(** An [OperationContext*] is what the locker uses of it: whether it is marked interrupted
    and whether its storage engine supports database locking. *)
Record OperationContext := mkOperationContext {
  op_interrupted : bool;
  op_supportsDBLocking : bool;
}.

Inductive Deadline := Date_max | Date_min | Date_in (millis : Z).

(** A call returns or throws. *)
Inductive Outcome (A : Type) := Returned (a : A) | Threw.
Arguments Returned {A} a.
Arguments Threw {A}.

Definition resourceIdGlobal : ResourceId := fullHash RESOURCE_GLOBAL 2.
Definition resourceIdParallelBatchWriterMode : ResourceId := fullHash RESOURCE_GLOBAL 1.

Definition with_lk (w : World) (lk : LockerImpl) : World := {| w with w_lk := lk |}.

(** The address of the request object in a slot.  Slots are created at the front of the
    deque and never move, so a slot is named by the number of slots older than it. *)
Definition slot_ptr (id : LockerId) (m : LockRequestsMap) (it : nat) : ReqPtr :=
  encode (id, (length (fastAccess m) - 1 - it)%nat).

Definition request_ptr (w : World) (it : nat) : ReqPtr :=
  slot_ptr (lk_id (w_lk w)) (lk_requests (w_lk w)) it.

(** [it->field] for a field the lock manager uses. *)
Definition request_at (w : World) (it : nat) : option LockRequest :=
  invariant (negb (finished (lk_requests (w_lk w)) it));;
  lm_requests (w_lm w) !! request_ptr w it.

Definition inAWriteUnitOfWork (lk : LockerImpl) : bool := (0 <? lk_wuowNestingLevel lk)%nat.

(** ** Queries *)

Definition getLockMode (w : World) (resId : ResourceId) : option LockMode :=
  let it := FastMap.find (lk_requests (w_lk w)) resId in
  if finished (lk_requests (w_lk w)) it then Some MODE_NONE
  else q ← request_at w it; Some (rq_mode q).

Definition isLockHeldForMode (w : World) (resId : ResourceId) (mode : LockMode) : option bool :=
  m ← getLockMode w resId; Some (isModeCovered mode m).

Definition isW (w : World) : option bool :=
  m ← getLockMode w resourceIdGlobal; Some (bool_decide (m = MODE_X)).

Definition isR (w : World) : option bool :=
  m ← getLockMode w resourceIdGlobal; Some (bool_decide (m = MODE_S)).

Definition isLocked (w : World) : option bool :=
  m ← getLockMode w resourceIdGlobal; Some (bool_decide (m <> MODE_NONE)).

Definition isWriteLocked (w : World) : option bool := isLockHeldForMode w resourceIdGlobal MODE_IX.

Definition isReadLocked (w : World) : option bool := isLockHeldForMode w resourceIdGlobal MODE_IS.

(** The database and collection names are given by their resource ids. *)
Definition isDbLockedForMode (w : World) (resIdDb : ResourceId) (mode : LockMode) : option bool :=
  x ← isW w;
  if x : bool then Some true
  else
    r ← isR w;
    if r && isSharedLockMode mode then Some true
    else isLockHeldForMode w resIdDb mode.

Definition isCollectionLockedForMode (w : World) (resIdDb resIdColl : ResourceId) (mode : LockMode)
    : option bool :=
  x ← isW w;
  if x : bool then Some true
  else
    r ← isR w;
    if r && isSharedLockMode mode then Some true
    else
      dbMode ← getLockMode w resIdDb;
      if negb (lk_shouldConflictWithSecondaryBatchApplication (w_lk w)) then Some true
      else
        match dbMode with
        | MODE_NONE => Some false
        | MODE_X => Some true
        | MODE_S => Some (isSharedLockMode mode)
        | MODE_IX | MODE_IS => isLockHeldForMode w resIdColl mode
        end.

(** The loop of [getWaitingResource] from the position [it]. *)
Fixpoint waiting_from (fuel : nat) (w : World) (it : nat) : option ResourceId :=
  match fuel with
  | O => None
  | S fuel =>
      if finished (lk_requests (w_lk w)) it then Some ResourceId_default
      else
        q ← request_at w it;
        if bool_decide (rq_status q = STATUS_WAITING) || bool_decide (rq_status q = STATUS_CONVERTING)
        then FastMap.key (lk_requests (w_lk w)) it
        else it ← FastMap.next (lk_requests (w_lk w)) it; waiting_from fuel w it
  end.

Definition getWaitingResource (w : World) : option ResourceId :=
  waiting_from (S (length (fastAccess (lk_requests (w_lk w))))) w (begin (lk_requests (w_lk w))).

Definition hasLockPending (w : World) : option bool := r ← getWaitingResource w; Some (isValid r).

Definition getClientState (w : World) : option ClientState :=
  let state := lk_clientState (w_lk w) in
  match state with
  | kActiveReader => p ← hasLockPending w; Some (if p : bool then kQueuedReader else kActiveReader)
  | kActiveWriter => p ← hasLockPending w; Some (if p : bool then kQueuedWriter else kActiveWriter)
  | _ => Some state
  end.

(** ** Tickets *)

Definition releaseTicket_ (w : World) : option World :=
  let lk := w_lk w in
  let mode := lk_modeForTicket lk in
  let tickets := if lk_shouldAcquireTicket lk
                 then match ticketHolders (w_tickets w) mode with
                      | Some n => set_available (w_tickets w) mode (S n)
                      | None => w_tickets w
                      end
                 else w_tickets w in
  Some {| w with w_tickets := tickets; w_lk := {| lk with lk_clientState := kInactive |} |}.

Definition releaseTicket (w : World) : option World :=
  invariant (bool_decide (lk_modeForTicket (w_lk w) <> MODE_NONE));; releaseTicket_ w.

Definition acquireTicket (w : World) (mode : LockMode) : option (World * Outcome LockResult) :=
  let lk := w_lk w in
  let reader := isSharedLockMode mode in
  let active := if reader then kActiveReader else kActiveWriter in
  match (if lk_shouldAcquireTicket lk then ticketHolders (w_tickets w) mode else None) with
  | Some n =>
      match w_ticketWaits w with
      | [] => None
      | ev :: rest =>
          let w := {| w with w_ticketWaits := rest |} in
          match ev with
          | TicketGranted =>
              invariant (0 <? n)%nat;;
              Some ({| w with w_tickets := set_available (w_tickets w) mode (pred n);
                              w_lk := {| lk with lk_clientState := active |} |}, Returned LOCK_OK)
          | TicketTimeout =>
              Some (with_lk w {| lk with lk_clientState := kInactive |}, Returned LOCK_TIMEOUT)
          | TicketInterrupted =>
              Some (with_lk w {| lk with lk_clientState := kInactive |}, Threw)
          end
      end
  | None => Some (with_lk w {| lk with lk_clientState := active |}, Returned LOCK_OK)
  end.

(** [reacquireTicket]; a timeout is an exception when a lock timeout is set and trips an
    assertion otherwise. *)
Definition reacquireTicket (w : World) : option (World * Outcome unit) :=
  let lk := w_lk w in
  invariant (bool_decide (lk_modeForTicket lk <> MODE_NONE));;
  let clientState := lk_clientState lk in
  let reader := isSharedLockMode (lk_modeForTicket lk) in
  invariant (bool_decide (clientState = kInactive) ||
             (bool_decide (clientState = kActiveReader) && reader) ||
             (bool_decide (clientState = kActiveWriter) && negb reader));;
  if bool_decide (clientState <> kInactive) then Some (w, Returned tt)
  else
    '(w, r) ← acquireTicket w (lk_modeForTicket lk);
    match r with
    | Returned LOCK_OK => Some (w, Returned tt)
    | Returned _ =>
        match lk_maxLockTimeout lk with Some _ => Some (w, Threw) | None => None end
    | Threw => Some (w, Threw)
    end.

(** ** Releasing locks *)

(** The ticket goes with the last reference to the global lock. *)
Definition unlock_ticket (w : World) (k : ResourceId) : option World :=
  if k =? resourceIdGlobal then
    invariant (bool_decide (lk_modeForTicket (w_lk w) <> MODE_NONE));;
    w ← (if bool_decide (lk_clientState (w_lk w) <> kInactive)
         then releaseTicket_ w else Some w);
    let lk := w_lk w in
    Some (with_lk w {| lk with lk_modeForTicket := MODE_NONE |})
  else Some w.

(** [_unlockImpl]: the answer and the iterator afterwards. *)
Definition unlockImpl (w : World) (it : nat) : option (World * bool * nat) :=
  invariant (negb (finished (lk_requests (w_lk w)) it));;
  '(lm, free) ← unlock (w_lm w) (request_ptr w it);
  let w := {| w with w_lm := lm |} in
  if free : bool then
    k ← FastMap.key (lk_requests (w_lk w)) it;
    w ← unlock_ticket w k;
    '(m, it) ← FastMap.remove (lk_requests (w_lk w)) it;
    let lk := w_lk w in
    Some (with_lk w {| lk with lk_requests := m |}, true, it)
  else Some (w, false, it).

Definition shouldDelayUnlock (lk : LockerImpl) (resId : ResourceId) (mode : LockMode)
    : option bool :=
  if lk_prepareModeForLockYields lk then Some false
  else
    match getType resId with
    | Some RESOURCE_MUTEX => Some false
    | Some (RESOURCE_GLOBAL | RESOURCE_DATABASE | RESOURCE_COLLECTION | RESOURCE_METADATA) =>
        match mode with
        | MODE_X | MODE_IX => Some true
        | MODE_IS | MODE_S => Some (lk_sharedLocksShouldTwoPhaseLock lk)
        | MODE_NONE => MONGO_UNREACHABLE
        end
    | _ => MONGO_UNREACHABLE
    end.

(** [it->unlockPending]. *)
Definition unlockPending (lk : LockerImpl) (it : nat) : option nat := objAddr (lk_requests lk) it.

Definition set_unlockPending (lk : LockerImpl) (it : nat) (n : nat) : option LockerImpl :=
  m ← assign (lk_requests lk) it n; Some {| lk with lk_requests := m |}.

(** [LockModesCount]. *)
Definition LockModesCount : nat := 5.

Definition unlock (w : World) (resId : ResourceId) : option (World * bool) :=
  let lk := w_lk w in
  let it := FastMap.find (lk_requests lk) resId in
  delay ← (if inAWriteUnitOfWork lk then
             k ← FastMap.key (lk_requests lk) it;
             q ← request_at w it;
             shouldDelayUnlock lk k (rq_mode q)
           else Some false);
  if delay : bool then
    n ← unlockPending lk it;
    let lk := if (n =? 0)%nat
              then {| lk with lk_numResourcesToUnlockAtEndUnitOfWork :=
                        S (lk_numResourcesToUnlockAtEndUnitOfWork lk) |}
              else lk in
    lk ← set_unlockPending lk it (S n);
    invariant (S n <? LockModesCount)%nat;;
    Some (with_lk w lk, false)
  else if finished (lk_requests lk) it then Some (w, false)
  else '(w, b, _) ← unlockImpl w it; Some (w, b).

(** The loop of [unlockGlobal]; each turn moves the iterator forward. *)
Fixpoint unlock_all_from (fuel : nat) (w : World) (it : nat) : option World :=
  match fuel with
  | O => None
  | S fuel =>
      if finished (lk_requests (w_lk w)) it then Some w
      else
        k ← FastMap.key (lk_requests (w_lk w)) it;
        match getType k with
        | Some RESOURCE_GLOBAL | Some RESOURCE_MUTEX =>
            it ← FastMap.next (lk_requests (w_lk w)) it; unlock_all_from fuel w it
        | _ =>
            '(w, b, it) ← unlockImpl w it;
            invariant b;;
            unlock_all_from fuel w it
        end
  end.

Definition unlockGlobal (w : World) : option (World * bool) :=
  '(w, b) ← unlock w resourceIdGlobal;
  if b : bool then
    invariant (negb (inAWriteUnitOfWork (w_lk w)));;
    w ← unlock_all_from (S (length (fastAccess (lk_requests (w_lk w))))) w
          (begin (lk_requests (w_lk w)));
    Some (w, true)
  else Some (w, false).

(** ** Write units of work *)

Definition beginWriteUnitOfWork (w : World) : World :=
  let lk := w_lk w in
  with_lk w {| lk with lk_wuowNestingLevel := S (lk_wuowNestingLevel lk) |}.

(** The inner loop of [endWriteUnitOfWork], while [it->unlockPending > 0]. *)
Fixpoint release_pending (fuel : nat) (w : World) (it : nat) : option World :=
  match fuel with
  | O => None
  | S fuel =>
      n ← unlockPending (w_lk w) it;
      match n with
      | O => Some w
      | S n =>
          lk ← set_unlockPending (w_lk w) it n;
          k ← FastMap.key (lk_requests lk) it;
          '(w, _) ← unlock (with_lk w lk) k;
          release_pending fuel w it
      end
  end.

(** Its outer loop, one turn per slot. *)
Fixpoint release_from (fuel : nat) (w : World) (it : nat) : option World :=
  match fuel with
  | O => None
  | S fuel =>
      let lk := w_lk w in
      if (lk_numResourcesToUnlockAtEndUnitOfWork lk =? 0)%nat then Some w
      else
        n ← unlockPending lk it;
        let w := if (n =? 0)%nat then w
                 else with_lk w {| lk with lk_numResourcesToUnlockAtEndUnitOfWork :=
                        pred (lk_numResourcesToUnlockAtEndUnitOfWork lk) |} in
        w ← release_pending (S n) w it;
        it ← FastMap.next (lk_requests (w_lk w)) it;
        release_from fuel w it
  end.

Definition endWriteUnitOfWork (w : World) : option World :=
  let lk := w_lk w in
  invariant (0 <? lk_wuowNestingLevel lk)%nat;;
  let lk := {| lk with lk_wuowNestingLevel := pred (lk_wuowNestingLevel lk) |} in
  let w := with_lk w lk in
  if (0 <? lk_wuowNestingLevel lk)%nat then Some w
  else release_from (S (length (fastAccess (lk_requests lk)))) w (begin (lk_requests lk)).

(** ** Acquiring locks *)

(** The request of [resId] and whether it is new: [_requests.insert] and [initNew]. *)
Definition find_or_new_request (w : World) (resId : ResourceId) : option (World * nat * bool) :=
  let lk := w_lk w in
  let it := FastMap.find (lk_requests lk) resId in
  if finished (lk_requests lk) it then
    '(m, it) ← FastMap.insert (lk_requests lk) resId;
    let lm := w_lm w in
    let w := {| w with
      w_lk := {| lk with lk_requests := m |};
      w_lm := {| lm with lm_requests :=
                   <[slot_ptr (lk_id lk) m it := initNew (lk_id lk) (encode (lk_id lk))]>
                     (lm_requests lm) |} |} in
    Some (w, it, true)
  else Some (w, it, false).

(** Priority of the full modes of global resources. *)
Definition set_global_policy (resId : ResourceId) (mode : LockMode) (q : LockRequest) : LockRequest :=
  if bool_decide (getType resId = Some RESOURCE_GLOBAL) &&
     (bool_decide (mode = MODE_S) || bool_decide (mode = MODE_X))
  then {| q with rq_enqueueAtFront := true; rq_compatibleFirst := true |}
  else q.

(** The interruption check after an immediate grant. *)
Definition check_interrupt (w : World) (opCtx : option OperationContext) (resId : ResourceId)
    (result : LockResult) : option (World * Outcome LockResult) :=
  match opCtx with
  | Some op =>
      if bool_decide (result = LOCK_OK) && (lk_uninterruptibleLocksRequested (w_lk w) =? 0)%nat &&
         op_interrupted op
      then
        let it := FastMap.find (lk_requests (w_lk w)) resId in
        invariant (negb (finished (lk_requests (w_lk w)) it));;
        '(w, _, _) ← unlockImpl w it;
        Some (w, Threw)
      else Some (w, Returned result)
  | None => Some (w, Returned result)
  end.

(** [lockBegin], when no temporary global resource is installed. *)
Definition lockBegin (w : World) (opCtx : option OperationContext) (resId : ResourceId)
    (mode : LockMode) : option (World * Outcome LockResult) :=
  '(w, it, isNew) ← find_or_new_request w resId;
  n ← unlockPending (w_lk w) it;
  q ← request_at w it;
  if negb (n =? 0)%nat && isModeCovered mode (rq_mode q) then
    lk ← set_unlockPending (w_lk w) it (pred n);
    let lk := if (pred n =? 0)%nat
              then {| lk with lk_numResourcesToUnlockAtEndUnitOfWork :=
                        pred (lk_numResourcesToUnlockAtEndUnitOfWork lk) |}
              else lk in
    Some (with_lk w lk, Returned LOCK_OK)
  else
    let lm := w_lm w in
    let lk := w_lk w in
    let lm := {| lm with lm_requests :=
                 <[request_ptr w it := set_global_policy resId mode q]> (lm_requests lm) |} in
    '(lm, result) ← (if isNew : bool then LockManager.lock lm resId (request_ptr w it) mode
                     else convert lm resId (request_ptr w it) mode);
    let w := {| w with w_lm := lm; w_lk := {| lk with lk_notify := LOCK_INVALID |} |} in
    check_interrupt w opCtx resId result.

(** The cleanup of a failed attempt in [lockComplete]. *)
Definition unlock_on_error (w : World) (resId : ResourceId) : option World :=
  '(w, _, _) ← unlockImpl w (FastMap.find (lk_requests (w_lk w)) resId); Some w.

(** The timeout in milliseconds, [None] for [Milliseconds::max()]. *)
Definition lock_timeout (lk : LockerImpl) (deadline : Deadline) : option Z :=
  let timeout := match deadline with
                 | Date_max => None
                 | Date_min => Some 0
                 | Date_in t => Some t
                 end in
  match lk_maxLockTimeout lk with
  | Some t => if (lk_uninterruptibleLocksRequested lk =? 0)%nat
              then Some (from_option (Z.min t) t timeout) else timeout
  | None => timeout
  end.

(** The wait loop; [waited] is the total time slept so far in microseconds. *)
Fixpoint wait_loop (waits : list WaitEvent) (w : World) (resId : ResourceId) (deadline : Deadline)
    (checkDeadlock : bool) (waited : Z) : option (World * Outcome LockResult) :=
  match waits with
  | [] => None
  | ev :: waits =>
      let w := {| w with w_lm := ev_lockManager ev; w_waits := waits |} in
      let waited := waited + ev_elapsedMicros ev in
      match ev_result ev with
      | None => w ← unlock_on_error w resId; Some (w, Threw)
      | Some LOCK_OK => Some (w, Returned LOCK_OK)
      | Some result =>
          if checkDeadlock && ev_cycle ev then
            w ← unlock_on_error w resId; Some (w, Returned LOCK_DEADLOCK)
          else
            match lock_timeout (w_lk w) deadline with
            | None => wait_loop waits w resId deadline checkDeadlock waited
            | Some timeout =>
                let totalBlockTime := waited / 1000 in
                if totalBlockTime <? timeout
                then wait_loop waits w resId deadline checkDeadlock waited
                else
                  w ← unlock_on_error w resId;
                  match lk_maxLockTimeout (w_lk w), deadline with
                  | Some _, Date_max => Some (w, Threw)
                  | _, _ => Some (w, Returned result)
                  end
            end
      end
  end.

Definition lockComplete (w : World) (resId : ResourceId) (deadline : Deadline)
    (checkDeadlock : bool) : option (World * Outcome LockResult) :=
  wait_loop (w_waits w) w resId deadline checkDeadlock 0.

Definition lock (w : World) (opCtx : option OperationContext) (resId : ResourceId)
    (mode : LockMode) (deadline : Deadline) (checkDeadlock : bool)
    : option (World * Outcome LockResult) :=
  '(w, r) ← lockBegin w opCtx resId mode;
  match r with
  | Threw => Some (w, Threw)
  | Returned LOCK_OK => Some (w, Returned LOCK_OK)
  | Returned result =>
      invariant (bool_decide (result = LOCK_WAITING));;
      lockComplete w resId deadline checkDeadlock
  end.

Definition lockGlobalBegin (w : World) (opCtx : option OperationContext) (mode : LockMode)
    : option (World * Outcome LockResult) :=
  '(w, r) ← (if bool_decide (lk_modeForTicket (w_lk w) = MODE_NONE) then
               '(w, r) ← acquireTicket w mode;
               match r with
               | Returned LOCK_OK =>
                   let lk := w_lk w in
                   Some (with_lk w {| lk with lk_modeForTicket := mode |}, Returned LOCK_OK)
               | _ => Some (w, r)
               end
             else Some (w, Returned LOCK_OK));
  match r with
  | Returned LOCK_OK =>
      let actualLockMode :=
        match opCtx with
        | Some op => if op_supportsDBLocking op then mode
                     else if isSharedLockMode mode then MODE_S else MODE_X
        | None => mode
        end in
      '(w, r) ← lockBegin w opCtx resourceIdGlobal actualLockMode;
      match r with
      | Returned result =>
          invariant (bool_decide (result = LOCK_OK) || bool_decide (result = LOCK_WAITING));;
          Some (w, Returned result)
      | Threw => Some (w, Threw)
      end
  | _ => Some (w, r)
  end.

Definition lockGlobalComplete (w : World) (deadline : Deadline) : option (World * Outcome LockResult) :=
  lockComplete w resourceIdGlobal deadline false.

Definition lockGlobal (w : World) (opCtx : option OperationContext) (mode : LockMode)
    : option (World * Outcome LockResult) :=
  '(w, r) ← lockGlobalBegin w opCtx mode;
  match r with
  | Returned LOCK_WAITING => lockGlobalComplete w Date_max
  | _ => Some (w, r)
  end.

(** [LockerImpl::downgrade]. *)
Definition locker_downgrade (w : World) (resId : ResourceId) (newMode : LockMode) : option World :=
  let it := FastMap.find (lk_requests (w_lk w)) resId in
  invariant (negb (finished (lk_requests (w_lk w)) it));;
  lm ← downgrade (w_lm w) (request_ptr w it) newMode;
  Some {| w with w_lm := lm |}.

(** ** Saving and restoring the lock state *)

Record OneLock := mkOneLock {
  ol_resourceId : ResourceId;
  ol_mode : LockMode;
}.

Record LockSnapshot := mkLockSnapshot {
  ls_globalMode : LockMode;
  ls_locks : list OneLock;
}.

(** [std::sort] by resource id. *)
Fixpoint insert_lock (x : OneLock) (l : list OneLock) : list OneLock :=
  match l with
  | [] => [x]
  | y :: l => if ol_resourceId x <? ol_resourceId y then x :: y :: l else y :: insert_lock x l
  end.

Definition sort_locks (l : list OneLock) : list OneLock := foldr insert_lock [] l.

(** The check that a locker without the global lock holds mutexes only. *)
Fixpoint only_mutexes_from (fuel : nat) (m : LockRequestsMap) (it : nat) : option unit :=
  match fuel with
  | O => None
  | S fuel =>
      if finished m it then Some tt
      else
        k ← FastMap.key m it;
        invariant (bool_decide (getType k = Some RESOURCE_MUTEX));;
        it ← FastMap.next m it;
        only_mutexes_from fuel m it
  end.

(** The loop over the non-global locks: unlocks them and collects them. *)
Fixpoint save_from (fuel : nat) (w : World) (it : nat) : option (World * list OneLock) :=
  match fuel with
  | O => None
  | S fuel =>
      if finished (lk_requests (w_lk w)) it then Some (w, [])
      else
        resId ← FastMap.key (lk_requests (w_lk w)) it;
        if bool_decide (getType resId = Some RESOURCE_MUTEX) then
          it ← FastMap.next (lk_requests (w_lk w)) it; save_from fuel w it
        else
          q ← request_at w it;
          invariant (bool_decide (getType resId = Some RESOURCE_DATABASE) ||
                     bool_decide (getType resId = Some RESOURCE_COLLECTION) ||
                     (bool_decide (getType resId = Some RESOURCE_GLOBAL) &&
                      isSharedLockMode (rq_mode q)));;
          '(w, b) ← unlock w resId;
          invariant b;;
          it ← FastMap.next (lk_requests (w_lk w)) it;
          '(w, l) ← save_from fuel w it;
          Some (w, mkOneLock resId (rq_mode q) :: l)
  end.

Definition saveLockStateAndUnlock (w : World) : option (World * option LockSnapshot) :=
  let m := lk_requests (w_lk w) in
  invariant (negb (inAWriteUnitOfWork (w_lk w)) || lk_prepareModeForLockYields (w_lk w));;
  let it := FastMap.find m resourceIdGlobal in
  if finished m it then
    only_mutexes_from (S (length (fastAccess m))) m (begin m);; Some (w, None)
  else
    q ← request_at w it;
    if (1 <? rq_recursiveCount q)%nat then Some (w, None)
    else
      '(w, b) ← unlock w resourceIdGlobal;
      invariant b;;
      let m := lk_requests (w_lk w) in
      '(w, l) ← save_from (S (length (fastAccess m))) w (begin m);
      locked ← isLocked w;
      invariant (negb locked);;
      Some (w, Some (mkLockSnapshot (rq_mode q) (sort_locks l))).

Definition saveLockStateAndUnlockForPrepare (w : World) : option (World * option LockSnapshot) :=
  let lk := w_lk w in
  invariant (negb (lk_prepareModeForLockYields lk));;
  '(w, r) ← saveLockStateAndUnlock (with_lk w {| lk with lk_prepareModeForLockYields := true |});
  let lk := w_lk w in
  Some (with_lk w {| lk with lk_prepareModeForLockYields := false |}, r).

(** [invariant(LOCK_OK == ...)] on a call that may throw. *)
Definition require_ok (r : option (World * Outcome LockResult)) : option (World * Outcome unit) :=
  '(w, o) ← r;
  match o with
  | Returned result => invariant (bool_decide (result = LOCK_OK));; Some (w, Returned tt)
  | Threw => Some (w, Threw)
  end.

Fixpoint restore_locks (w : World) (l : list OneLock) : option (World * Outcome unit) :=
  match l with
  | [] => Some (w, Returned tt)
  | x :: l =>
      '(w, o) ← require_ok (lock w None (ol_resourceId x) (ol_mode x) Date_max false);
      match o with
      | Returned _ => restore_locks w l
      | Threw => Some (w, Threw)
      end
  end.

Definition restoreLockState (w : World) (opCtx : option OperationContext) (state : LockSnapshot)
    : option (World * Outcome unit) :=
  invariant (negb (inAWriteUnitOfWork (w_lk w)) || lk_prepareModeForLockYields (w_lk w));;
  invariant (bool_decide (lk_modeForTicket (w_lk w) = MODE_NONE));;
  '(w, o, rest) ←
    match ls_locks state with
    | x :: rest =>
        if ol_resourceId x =? resourceIdParallelBatchWriterMode then
          '(w, o) ← require_ok (lock w opCtx (ol_resourceId x) (ol_mode x) Date_max false);
          Some (w, o, rest)
        else Some (w, Returned tt, ls_locks state)
    | [] => Some (w, Returned tt, [])
    end;
  match o with
  | Threw => Some (w, Threw)
  | Returned _ =>
      '(w, o) ← require_ok (lockGlobal w opCtx (ls_globalMode state));
      match o with
      | Threw => Some (w, Threw)
      | Returned _ =>
          '(w, o) ← restore_locks w rest;
          match o with
          | Threw => Some (w, Threw)
          | Returned _ =>
              invariant (bool_decide (lk_modeForTicket (w_lk w) <> MODE_NONE));;
              Some (w, Returned tt)
          end
      end
  end.

Definition isGlobalLockedRecursively (w : World) : option bool :=
  let it := FastMap.find (lk_requests (w_lk w)) resourceIdGlobal in
  if finished (lk_requests (w_lk w)) it then Some false
  else q ← request_at w it; Some (1 <? rq_recursiveCount q)%nat.

Definition LockerImpl_new (id : LockerId) : LockerImpl := {|
  lk_id := id;
  lk_requests := FastMap_new;
  lk_notify := LOCK_INVALID;
  lk_wuowNestingLevel := 0;
  lk_modeForTicket := MODE_NONE;
  lk_clientState := kInactive;
  lk_numResourcesToUnlockAtEndUnitOfWork := 0;
  lk_sharedLocksShouldTwoPhaseLock := false;
  lk_prepareModeForLockYields := false;
  lk_maxLockTimeout := None;
  lk_uninterruptibleLocksRequested := 0;
  lk_shouldConflictWithSecondaryBatchApplication := true;
  lk_shouldAcquireTicket := true;
|}.

(** The assertions of the destructor. *)
Definition LockerImpl_destroy (lk : LockerImpl) : option unit :=
  invariant (negb (inAWriteUnitOfWork lk));;
  invariant (lk_numResourcesToUnlockAtEndUnitOfWork lk =? 0)%nat;;
  invariant (FastMap.empty (lk_requests lk));;
  invariant (bool_decide (lk_modeForTicket lk = MODE_NONE)).
