(* ===== verification/LockerInv.v ===== *)
(** * The invariant of a locker and two-phase locking

    [locker_ok] relates the request map of a locker to the lock manager.  The lemmas show
    that releasing locks and ending a write unit of work preserve it. *)

From S2P Require Import FastMap.
From Stdlib Require Import ZArith Lia.
From stdpp Require Import prelude gmap functions finite.
From S2P Require Import Prelude LockDefs LockHead LockHeadInv LockManager LockManagerInv.
From S2P Require Import LockManagerOps LockConvert LockUnlock Locker.

Open Scope Z_scope.

(** ** The invariant *)

Abbreviation slots lk := (fastAccess (lk_requests lk)) (only parsing).

Definition lm_request (w : World) (it : nat) : option LockRequest :=
  lm_requests (w_lm w) !! request_ptr w it.

(** The request of an entry with key [k] and [n] delayed unlocks. *)
Definition entry_request (w : World) (it : nat) (k : ResourceId) (n : nat) : Prop :=
  exists q, lm_request w it = Some q /\ live q /\ rq_status q <> STATUS_NEW /\
    req_res q = Some k /\ (n <= rq_recursiveCount q)%nat.

(** Slot number [j] (counted from the oldest slot) holds an entry in use. *)
Definition used_slot (lk : LockerImpl) (j : nat) : Prop :=
  exists it e, slots lk !! it = Some e /\ inUse e = true /\ j = (length (slots lk) - 1 - it)%nat.

Definition pending_entries (m : LockRequestsMap) : list (Z * nat) :=
  filter (fun kv => (0 < kv.2)%nat) (entries m).

(** [d] entries with delayed unlocks are not counted (one while [endWriteUnitOfWork] works on it). *)
Record locker_inv (d : nat) (w : World) : Prop := mk_locker_inv {
  lko_map : map_ok (lk_requests (w_lk w));
  lko_lm : lm_inv (w_lm w);
  lko_entry : forall it k n, at_entry (lk_requests (w_lk w)) it (k, n) -> entry_request w it k n;
  lko_free : forall j, ~ used_slot (w_lk w) j ->
    match lm_requests (w_lm w) !! encode (lk_id (w_lk w), j) with
    | Some q => rq_recursiveCount q = 0%nat
    | None => True
    end;
  lko_stale : forall it e, slots (w_lk w) !! it = Some e -> inUse e = false -> evalue e = 0%nat;
  lko_pending : (lk_numResourcesToUnlockAtEndUnitOfWork (w_lk w) + d)%nat =
    length (pending_entries (lk_requests (w_lk w)));
  lko_ticket : resourceIdGlobal ∈ (entries (lk_requests (w_lk w))).*1 ->
    lk_modeForTicket (w_lk w) <> MODE_NONE;
}.

Abbreviation locker_ok := (locker_inv 0) (only parsing).

Lemma slot_ptr_inj id (m : LockRequestsMap) it it' :
  (it < length (fastAccess m))%nat -> (it' < length (fastAccess m))%nat ->
  slot_ptr id m it = slot_ptr id m it' -> it = it'.
Proof. intros H1 H2 E. apply (inj encode) in E. injection E as E. lia. Qed.

(** ** Changing the value of a slot *)

Section assign.
Context (m : LockRequestsMap) (it : nat) (k : Z) (n v : nat).
Context (Hat : at_entry m it (k, n)).

Lemma assign_run :
  exists m', assign m it v = Some m' /\ length (fastAccess m') = length (fastAccess m) /\
    fastAccessUsedSize m' = fastAccessUsedSize m /\ at_entry m' it (k, v) /\
    (exists pre post, entries m = pre ++ (k, n) :: post /\ entries m' = pre ++ (k, v) :: post) /\
    (forall it' kv, it' <> it -> at_entry m' it' kv <-> at_entry m it' kv) /\
    (forall it' e', fastAccess m' !! it' = Some e' ->
       exists e, fastAccess m !! it' = Some e /\ inUse e = inUse e' /\ (it' <> it -> e = e')).
Proof using Hat.
  destruct Hat as (e & He & Hu & Hkv). injection Hkv as <- <-.
  unfold assign. rewrite invariant_bind by by rewrite (finished_false m it e). rewrite He.
  cbn [mbind option_bind]. eexists. split; [done|]. simpl. rewrite length_insert.
  pose proof (lookup_lt_Some _ _ _ He) as Hlt. split_and!; [done|done| | | |].
  - eexists. simpl. rewrite list_lookup_insert_eq by done. done.
  - unfold entries. simpl.
    destruct (entries_insert (fastAccess m) it e {| e with evalue := v |} He) as [E1 E2].
    rewrite E1, E2. simpl. rewrite Hu. eauto.
  - intros it' kv Hne. unfold at_entry. simpl. by rewrite list_lookup_insert_ne.
  - intros it' e'. destruct (decide (it' = it)) as [->|Hne].
    + rewrite list_lookup_insert_eq by done. intros [= <-]. exists e. done.
    + rewrite list_lookup_insert_ne by done. intros He'. exists e'. done.
Qed.
End assign.

Lemma key_entry (m : LockRequestsMap) it k n : at_entry m it (k, n) -> FastMap.key m it = Some k.
Proof.
  intros (e & He & Hu & Hkv). unfold FastMap.key.
  rewrite invariant_bind by by rewrite (finished_false m it e). rewrite He. by injection Hkv as <- <-.
Qed.

Lemma value_entry (m : LockRequestsMap) it k n : at_entry m it (k, n) -> objAddr m it = Some n.
Proof.
  intros (e & He & Hu & Hkv). unfold objAddr.
  rewrite invariant_bind by by rewrite (finished_false m it e). rewrite He. by injection Hkv as <- <-.
Qed.

(** ** [getLockMode] *)

Lemma find_entry m (k : Z) it (n : nat) :
  map_ok m -> at_entry m it (k, n) -> FastMap.find m k = it.
Proof.
  intros [Hwf Hnd] (e & He & Hu & Hkv). injection Hkv as Hk Hn.
  destruct (find_spec m k) as [Hf1 Hf2].
  assert (finished m (FastMap.find m k) = false) as Hfin.
  { apply not_true_iff_false. rewrite Hf1. intros Hnk. apply Hnk. apply list_elem_of_fmap.
    exists (k, n). split; [done|]. apply elem_of_entries. exists it, e. by rewrite Hk, Hn. }
  destruct (Hf2 Hfin) as (v & e' & He' & Hu' & Hkv'). injection Hkv' as Hk' Hv'.
  destruct (decide (FastMap.find m k = it)) as [|Hne]; [done|exfalso].
  assert (forall i j ei ej, (i < j)%nat -> fastAccess m !! i = Some ei -> fastAccess m !! j = Some ej ->
    inUse ei = true -> inUse ej = true -> ekey ei = k -> ekey ej = k -> False) as Hdup.
  { intros i j ei ej Hij Hi Hj Ui Uj Ki Kj. unfold entries in Hnd.
    rewrite <- (take_drop_middle (fastAccess m) i ei Hi) in Hnd.
    rewrite entries_app, fmap_app in Hnd. apply NoDup_app in Hnd as (_ & _ & Hnd).
    simpl in Hnd. rewrite Ui in Hnd. simpl in Hnd. apply NoDup_cons in Hnd as [Hni _].
    apply Hni. rewrite Ki. apply list_elem_of_fmap. exists (k, evalue ej). split; [done|].
    apply list_elem_of_omap. exists ej. rewrite Uj, Kj. split; [|done].
    apply list_elem_of_lookup. exists (j - S i)%nat. rewrite lookup_drop.
    by replace (S i + (j - S i))%nat with j by lia. }
  destruct (Nat.lt_total (FastMap.find m k) it) as [Hlt|[?|Hlt]]; [|done|]; eauto.
Qed.

Lemma entry_at_find d w k :
  locker_inv d w ->
  (finished (lk_requests (w_lk w)) (FastMap.find (lk_requests (w_lk w)) k) = true /\
   k ∉ (entries (lk_requests (w_lk w))).*1) \/
  (finished (lk_requests (w_lk w)) (FastMap.find (lk_requests (w_lk w)) k) = false /\
   exists n, at_entry (lk_requests (w_lk w)) (FastMap.find (lk_requests (w_lk w)) k) (k, n)).
Proof.
  intros Hok. destruct (find_spec (lk_requests (w_lk w)) k) as [Hf1 Hf2].
  destruct (finished _ _); [left|right; auto]. split; [done|]. by apply Hf1.
Qed.

Lemma request_at_entry d w it k n :
  locker_inv d w -> at_entry (lk_requests (w_lk w)) it (k, n) ->
  exists q, request_at w it = Some q /\ lm_request w it = Some q /\ live q /\
    rq_status q <> STATUS_NEW /\ req_res q = Some k /\ (n <= rq_recursiveCount q)%nat.
Proof.
  intros Hok Hat. destruct (lko_entry _ _ Hok it k n Hat) as (q & Hq & ?). exists q.
  split; [|done]. unfold request_at. rewrite invariant_bind; [done|].
  destruct Hat as (e & He & _). by rewrite (finished_false _ _ e).
Qed.

(** ** Releasing one reference *)

(** How a release of the entry [k] at [it] changes the locker. *)
Record released (w w' : World) (it : nat) (k : ResourceId) (b : bool) : Prop := mk_released {
  rel_id : lk_id (w_lk w') = lk_id (w_lk w);
  rel_wuow : lk_wuowNestingLevel (w_lk w') = lk_wuowNestingLevel (w_lk w);
  rel_pending : lk_numResourcesToUnlockAtEndUnitOfWork (w_lk w') =
    lk_numResourcesToUnlockAtEndUnitOfWork (w_lk w);
  rel_prepare : lk_prepareModeForLockYields (w_lk w') = lk_prepareModeForLockYields (w_lk w);
  rel_shared : lk_sharedLocksShouldTwoPhaseLock (w_lk w') = lk_sharedLocksShouldTwoPhaseLock (w_lk w);
  rel_keep : b = false -> lk_requests (w_lk w') = lk_requests (w_lk w);
  rel_remove : b = true -> exists it', FastMap.remove (lk_requests (w_lk w)) it =
    Some (lk_requests (w_lk w'), it');
  rel_ticket : (b = true -> k <> resourceIdGlobal) ->
    lk_modeForTicket (w_lk w') = lk_modeForTicket (w_lk w);
  rel_kept : kept (request_ptr w it) (lm_requests (w_lm w)) (lm_requests (w_lm w'));
}.

(** The map after [remove], slot by slot. *)
Lemma remove_slots (m m' : LockRequestsMap) it it' :
  FastMap.remove m it = Some (m', it') ->
  exists e, fastAccess m !! it = Some e /\ inUse e = true /\
    fastAccess m' = <[it := {| e with inUse := false |}]> (fastAccess m) /\
    FastMap.next m' it = Some it'.
Proof.
  unfold FastMap.remove. intros H. inv_bind H. apply bind_Some_inv in H as (e & He & H).
  inv_bind H. inv_bind H. injection H as <- <-. exists e. destruct x0. apply invariant_Some in Hx0. done.
Qed.

Lemma used_slot_removed (lk lk' : LockerImpl) it e j :
  slots lk !! it = Some e -> inUse e = true ->
  slots lk' = <[it := {| e with inUse := false |}]> (slots lk) ->
  used_slot lk' j <-> used_slot lk j /\ j <> (length (slots lk) - 1 - it)%nat.
Proof.
  intros He Hu Es. pose proof (lookup_lt_Some _ _ _ He) as Hlt. unfold used_slot. rewrite Es, length_insert.
  split.
  - intros (i & ei & Hi & Ui & ->). destruct (decide (i = it)) as [->|Hne].
    + rewrite list_lookup_insert_eq in Hi by done. by simplify_eq/=.
    + rewrite list_lookup_insert_ne in Hi by done. pose proof (lookup_lt_Some _ _ _ Hi).
      split; [by exists i, ei|lia].
  - intros [(i & ei & Hi & Ui & ->) Hj]. exists i, ei. split; [|done].
    rewrite list_lookup_insert_ne; [done|]. intros ->. done.
Qed.

(** The invariant survives the release. *)
Section release.
Context {w w' : World} {it : nat} {k : ResourceId} {n : nat} {q q' : LockRequest} {b : bool}.
Context {d : nat} (Hok : locker_inv d w) (Hat : at_entry (lk_requests (w_lk w)) it (k, n)).
Context (Hq : lm_request w it = Some q) (Hn : (n < rq_recursiveCount q)%nat).
Context (Hb : b = (rq_recursiveCount q =? 1)%nat).
Context (Hi : lm_inv (w_lm w')) (Hrel : released w w' it k b).
Context (Hq' : lm_requests (w_lm w') !! request_ptr w it = Some q').
Context (Hc : rq_recursiveCount q' = pred (rq_recursiveCount q)).
Context (Hr : req_res q' = req_res q) (Hs : rq_status q' <> STATUS_NEW).

Lemma release_slot : exists e, slots (w_lk w) !! it = Some e /\ inUse e = true /\
  ekey e = k /\ evalue e = n /\ (it < length (slots (w_lk w)))%nat.
Proof using Hat.
  destruct Hat as (e & He & Hu & Hkv). injection Hkv as Hk Hv. exists e.
  split_and!; try done. by eapply lookup_lt_Some.
Qed.

(** The request objects of the other slots are kept. *)
Lemma release_other it0 q0 :
  (it0 < length (slots (w_lk w)))%nat -> it0 <> it -> lm_request w it0 = Some q0 ->
  exists q1, lm_requests (w_lm w') !! request_ptr w it0 = Some q1 /\ same_request q0 q1.
Proof using Hat Hrel.
  intros Hlt0 Hne0 Hq0. destruct release_slot as (e & _ & _ & _ & _ & Hlt).
  apply (rel_kept _ _ _ _ _ Hrel (request_ptr w it0)); [|done].
  intros E. by apply slot_ptr_inj in E.
Qed.

Lemma release_length : length (slots (w_lk w')) = length (slots (w_lk w)).
Proof using Hrel.
  clear -Hrel. destruct b; [|by rewrite (rel_keep _ _ _ _ _ Hrel)].
  destruct (rel_remove _ _ _ _ _ Hrel eq_refl) as (it' & Hrm).
  destruct (remove_slots _ _ _ _ Hrm) as (e & _ & _ & -> & _). apply length_insert.
Qed.

Lemma release_ptr it0 : request_ptr w' it0 = request_ptr w it0.
Proof using Hrel.
  unfold request_ptr, slot_ptr. by rewrite (rel_id _ _ _ _ _ Hrel), release_length.
Qed.

Lemma release_entry it0 k0 n0 :
  at_entry (lk_requests (w_lk w)) it0 (k0, n0) -> it0 <> it -> entry_request w' it0 k0 n0.
Proof using Hok Hat Hrel.
  intros Hat0 Hne0. destruct (lko_entry _ _ Hok it0 k0 n0 Hat0) as (q0 & Hq0 & Hlv0 & Hs0 & Hr0' & Hn0).
  destruct Hat0 as (e0 & He0 & _).
  destruct (release_other it0 q0 (lookup_lt_Some _ _ _ He0) Hne0 Hq0) as (q1 & Hq1 & []).
  exists q1. unfold lm_request. rewrite release_ptr.
  split_and!; [done|unfold live in *; congruence|auto|congruence|congruence].
Qed.

(** A slot number that was free stays free. *)
Lemma release_free j :
  ~ used_slot (w_lk w) j ->
  match lm_requests (w_lm w') !! encode (lk_id (w_lk w'), j) with
  | Some q => rq_recursiveCount q = 0%nat | None => True end.
Proof using Hok Hat Hrel.
  intros Hj. pose proof (lko_free _ _ Hok j Hj) as Hf. rewrite (rel_id _ _ _ _ _ Hrel).
  destruct release_slot as (e & He & Hu & _ & _ & Hlt).
  destruct (rel_kept _ _ _ _ _ Hrel (encode (lk_id (w_lk w), j))) as [Hnone Hsame].
  { intros E. apply (inj encode) in E. injection E as ->. apply Hj. by exists it, e. }
  destruct (lm_requests (w_lm w) !! encode (lk_id (w_lk w), j)) as [qj|] eqn:Ej.
  - destruct (Hsame qj eq_refl) as (q1 & -> & []). congruence.
  - by rewrite Hnone.
Qed.

Lemma locker_ok_kept : b = false -> locker_inv d w'.
Proof using All.
  intros Hbf. pose proof (rel_keep _ _ _ _ _ Hrel Hbf) as Em. pose proof Hok as [].
  assert (forall j, used_slot (w_lk w') j <-> used_slot (w_lk w) j) as Hus
    by (intros j; unfold used_slot; by rewrite Em).
  split; rewrite ?Em, ?(rel_pending _ _ _ _ _ Hrel); try done.
  - intros it0 k0 n0 Hat0. destruct (decide (it0 = it)) as [->|Hne]; [|by apply release_entry].
    assert ((k0, n0) = (k, n)) as [= -> ->] by (destruct Hat0 as (?&?&_&?), Hat as (?&?&_&?); congruence).
    exists q'. unfold lm_request. rewrite release_ptr.
    destruct (lko_entry0 it k n Hat) as (q0 & Hq0 & Hlv & _ & Hr0 & _). rewrite Hq in Hq0.
    injection Hq0 as <-. pose proof Hb as Hb'. rewrite Hbf in Hb'. apply eq_sym, Nat.eqb_neq in Hb'.
    unfold live in *.
    split_and!; [done|lia|done|congruence|lia].
  - intros j. rewrite Hus. apply release_free.
  - rewrite (rel_ticket _ _ _ _ _ Hrel); [done|congruence].
Qed.

Lemma locker_ok_removed : b = true -> locker_inv d w'.
Proof using All.
  intros Hbt. destruct (rel_remove _ _ _ _ _ Hrel Hbt) as (it' & Hrm).
  destruct (remove_slots _ _ _ _ Hrm) as (e & He & Hu & Es & _).
  pose proof Hb as Hb'. rewrite Hbt in Hb'. apply eq_sym, Nat.eqb_eq in Hb'.
  assert (n = 0%nat) as Hn0 by lia.
  pose proof (lko_map _ _ Hok) as [Hwf Hnd].
  destruct (remove_spec _ it k n Hwf Hat) as (m' & it2 & pre & post & Hrm' & Hwf' & E1 & E2 & _ & Hoth).
  rewrite Hrm in Hrm'. injection Hrm' as <- _.
  pose proof (used_slot_removed (w_lk w) (w_lk w') it e) as Hus.
  destruct release_slot as (e' & He' & _ & Hke & Hve & Hlt). rewrite He in He'. injection He' as <-.
  assert (NoDup (pre ++ (k, n) :: post).*1) as Hnd1 by by rewrite <- E1.
  rewrite fmap_app, fmap_cons, <- Permutation_middle in Hnd1. simpl in Hnd1.
  apply NoDup_cons in Hnd1 as [Hk Hnd1]. rewrite <- fmap_app, <- E2 in Hnd1, Hk.
  split; rewrite ?(rel_pending _ _ _ _ _ Hrel); try done.
  - intros it0 k0 n0 Hat0. destruct (decide (it0 = it)) as [->|Hne].
    + destruct Hat0 as (e0 & He0 & Hu0 & _). rewrite Es, list_lookup_insert_eq in He0 by done.
      by simplify_eq/=.
    + apply release_entry; [|done]. by apply Hoth.
  - intros j Hj. rewrite (Hus j He Hu Es) in Hj.
    destruct (decide (j = (length (slots (w_lk w)) - 1 - it)%nat)) as [->|Hne].
    + rewrite (rel_id _ _ _ _ _ Hrel). unfold request_ptr, slot_ptr in Hq'. rewrite Hq'.
      rewrite Hc, Hb'. done.
    + apply release_free. intros Hu'. by apply Hj.
  - intros it0 e0. rewrite Es. destruct (decide (it0 = it)) as [->|Hne].
    + rewrite list_lookup_insert_eq by done. intros [= <-] _. simpl. congruence.
    + rewrite list_lookup_insert_ne by done. apply Hok.
  - rewrite (lko_pending _ _ Hok). unfold pending_entries. rewrite E1, E2, !filter_app, !length_app.
    rewrite filter_cons_False by (simpl; lia). done.
  - intros Hg. destruct (decide (k = resourceIdGlobal)) as [->|Hne]; [done|].
    rewrite (rel_ticket _ _ _ _ _ Hrel) by done. apply (lko_ticket _ _ Hok).
    rewrite E1, fmap_app, fmap_cons, <- Permutation_middle. right. by rewrite <- fmap_app, <- E2.
Qed.
End release.

(** Dropping the ticket with the global lock changes only the ticket fields. *)
Lemma unlock_ticket_spec w (k : ResourceId) :
  (k = resourceIdGlobal -> lk_modeForTicket (w_lk w) <> MODE_NONE) ->
  exists w', unlock_ticket w k = Some w' /\
    w_lm w' = w_lm w /\ lk_requests (w_lk w') = lk_requests (w_lk w) /\
    lk_id (w_lk w') = lk_id (w_lk w) /\
    lk_wuowNestingLevel (w_lk w') = lk_wuowNestingLevel (w_lk w) /\
    lk_numResourcesToUnlockAtEndUnitOfWork (w_lk w') = lk_numResourcesToUnlockAtEndUnitOfWork (w_lk w) /\
    lk_prepareModeForLockYields (w_lk w') = lk_prepareModeForLockYields (w_lk w) /\
    lk_sharedLocksShouldTwoPhaseLock (w_lk w') = lk_sharedLocksShouldTwoPhaseLock (w_lk w) /\
    (k <> resourceIdGlobal -> lk_modeForTicket (w_lk w') = lk_modeForTicket (w_lk w)).
Proof.
  intros Hk. unfold unlock_ticket. destruct (Z.eqb_spec k resourceIdGlobal) as [->|Hne].
  - rewrite invariant_bind by (apply bool_decide_eq_true; auto).
    destruct (bool_decide _); eexists; split_and!; done.
  - exists w. split_and!; done.
Qed.

Lemma unlockImpl_spec d w it k n q :
  locker_inv d w -> at_entry (lk_requests (w_lk w)) it (k, n) -> lm_request w it = Some q ->
  (n < rq_recursiveCount q)%nat ->
  exists w' it' q', unlockImpl w it = Some (w', (rq_recursiveCount q =? 1)%nat, it') /\
    locker_inv d w' /\ released w w' it k (rq_recursiveCount q =? 1)%nat /\
    lm_requests (w_lm w') !! request_ptr w it = Some q' /\
    rq_recursiveCount q' = pred (rq_recursiveCount q) /\ rq_mode q' = rq_mode q.
Proof.
  intros Hok Hat Hq Hn.
  destruct (lko_entry _ _ Hok it k n Hat) as (q0 & Hq0 & Hlv & Hs & Hr & _).
  rewrite Hq in Hq0. injection Hq0 as <-.
  destruct (unlock_spec (w_lm w) (request_ptr w it) q) as
    (lm & q' & Hun & Hi & Hq' & Hc & (Hlk & Hm & Hr' & Hs') & Hk); [apply Hok|done..|].
  pose proof Hat as (e & He & Hu & Hkv). injection Hkv as Ek En.
  pose proof (finished_false _ _ _ He) as Hf. unfold unlockImpl.
  rewrite invariant_bind by by rewrite Hf. rewrite Hun. cbn [mbind option_bind].
  destruct (rq_recursiveCount q =? 1)%nat eqn:Eb.
  - cbn [w_lk]. rewrite (key_entry _ it k n Hat). cbn [mbind option_bind].
    destruct (unlock_ticket_spec {| w with w_lm := lm |} k) as (w1 & -> & Elm & Em & Eid & Ew & Enum & Ep & Es & Et).
    { intros ->. apply (lko_ticket _ _ Hok), list_elem_of_fmap. exists (resourceIdGlobal, n).
      split; [done|]. apply elem_of_entries. by exists it. }
    cbn [w_lk w_lm] in *.
    destruct (remove_spec _ it k n (proj1 (lko_map _ _ Hok)) Hat) as (m' & it' & pre & post & Hrm & _).
    cbn [mbind option_bind]. rewrite Em, Hrm. cbn [mbind option_bind].
    do 3 eexists. split; [reflexivity|]. cbn [w_lm with_lk]. rewrite Elm.
    assert (released w (with_lk w1 (let lk := w_lk w1 in {| lk with lk_requests := m' |})) it k true)
      as Hrel by (split; simpl; try done; [by eauto|by auto|by rewrite Elm]).
    split; [|by split_and!].
    refine (locker_ok_removed Hok Hat Hq Hn (eq_sym Eb) _ Hrel _ Hc Hr' Hs' eq_refl);
      simpl; by rewrite Elm.
  - do 3 eexists. split; [reflexivity|].
    assert (released w {| w with w_lm := lm |} it k false) as Hrel by by split.
    split; [|by split_and!].
    by refine (locker_ok_kept Hok Hat Hq Hn (eq_sym Eb) _ Hrel _ Hc Hr' Hs' eq_refl).
Qed.

(** ** Delayed unlocks *)

Definition one_if (n : nat) : nat := if (n =? 0)%nat then 0%nat else 1%nat.

Lemma pending_entries_middle pre post k (n v : nat) :
  (length (filter (fun kv : Z * nat => (0 < kv.2)%nat) (pre ++ (k, n) :: post)) + one_if v =
   length (filter (fun kv : Z * nat => (0 < kv.2)%nat) (pre ++ (k, v) :: post)) + one_if n)%nat.
Proof.
  rewrite !filter_app, !length_app, !filter_cons. unfold one_if.
  destruct n, v; repeat case_decide; simpl in *; lia.
Qed.

(** Setting [unlockPending], with the count of such entries set to [N]. *)
Lemma set_pending_spec d d' w it k n v N q :
  locker_inv d w -> at_entry (lk_requests (w_lk w)) it (k, n) ->
  lm_request w it = Some q -> (v <= rq_recursiveCount q)%nat ->
  (N + d' + one_if n = lk_numResourcesToUnlockAtEndUnitOfWork (w_lk w) + d + one_if v)%nat ->
  exists m', assign (lk_requests (w_lk w)) it v = Some m' /\
    locker_inv d' (with_lk w (let lk := w_lk w in
      {| lk with lk_requests := m'; lk_numResourcesToUnlockAtEndUnitOfWork := N |})) /\
    at_entry m' it (k, v) /\ length (fastAccess m') = length (slots (w_lk w)) /\
    (forall it' kv, it' <> it -> at_entry m' it' kv <-> at_entry (lk_requests (w_lk w)) it' kv).
Proof.
  intros Hok Hat Hq Hv HN.
  destruct (assign_run _ it k n v Hat) as (m' & Has & Hlen & Hus & Hat' & (pre & post & E1 & E2) & Hoth & Hsl).
  exists m'. split; [done|]. split; [|done].
  assert (forall j, used_slot (w_lk w) j -> used_slot (let lk := w_lk w in {| lk with lk_requests := m' |}) j) as Hused.
  { intros j (i & e & He & Hu & ->). apply lookup_lt_Some in He as Hlt. rewrite <- Hlen in Hlt.
    destruct (lookup_lt_is_Some_2 _ _ Hlt) as [e' He']. destruct (Hsl i e' He') as (e1 & He1 & Hu1 & _).
    exists i, e'. simpl. rewrite Hlen. split_and!; [done|congruence|done]. }
  pose proof Hok as [[Hwf Hnd] ? Hent Hfree Hst Hpend Htk].
  split; simpl; [| |intros it0 k0 n0 Hat0|intros j Hj|intros it0 e0 He0 Hu0| |].
  - split; [|by rewrite E2, fmap_app, fmap_cons in *; rewrite E1, fmap_app, fmap_cons in Hnd].
    unfold wf in *. rewrite E2, Hus, Hwf, E1, !length_app. done.
  - done.
  - assert (forall j, lm_request (with_lk w (let lk := w_lk w in
      {| lk with lk_requests := m'; lk_numResourcesToUnlockAtEndUnitOfWork := N |})) j = lm_request w j) as Elm
      by (intros j; unfold lm_request, request_ptr, slot_ptr; simpl; by rewrite Hlen).
    destruct (decide (it0 = it)) as [->|Hne].
    + assert ((k0, n0) = (k, v)) as [= -> ->] by (destruct Hat0 as (?&?&_&?), Hat' as (?&?&_&?); congruence).
      destruct (Hent it k n Hat) as (q0 & Hq0 & ? & ? & ? & _). rewrite Hq in Hq0. injection Hq0 as <-.
      exists q. by rewrite Elm.
    + apply Hoth in Hat0; [|done]. destruct (Hent it0 k0 n0 Hat0) as (q0 & Hq0 & ?). exists q0. by rewrite Elm.
  - apply Hfree. intros Hu. by apply Hj, Hused.
  - destruct (Hsl it0 e0 He0) as (e1 & He1 & Hu1 & Hne1). destruct (decide (it0 = it)) as [->|Hne].
    + destruct Hat' as (e2 & He2 & Hu2 & _). congruence.
    + rewrite <- Hne1 by done. apply (Hst it0); [done|congruence].
  - pose proof (pending_entries_middle pre post k n v). unfold pending_entries in *.
    rewrite E1 in Hpend. rewrite E2. lia.
  - intros Hg. apply Htk. rewrite E1. rewrite E2 in Hg. by rewrite fmap_app, fmap_cons in *.
Qed.

(** [unlock] of a lock that is not delayed. *)
Lemma unlock_now d w it k n :
  locker_inv d w -> at_entry (lk_requests (w_lk w)) it (k, n) ->
  inAWriteUnitOfWork (w_lk w) = false ->
  Locker.unlock w k = ('(w, b, _) ← unlockImpl w it; Some (w, b)).
Proof.
  intros Hok Hat Hw. unfold Locker.unlock. rewrite (find_entry _ k it n (lko_map _ _ Hok) Hat), Hw.
  cbn [mbind option_bind]. destruct Hat as (e & He & _). by rewrite (finished_false _ _ e).
Qed.

(** ** The loops of [endWriteUnitOfWork] *)

(** The entry [k] at [it] with request [q] has been unlocked [c] times; [n] delayed unlocks remain. *)
Record entry_step (w w' : World) (it : nat) (k : ResourceId) (c n : nat) (q : LockRequest) : Prop := mk_entry_step {
  es_length : length (slots (w_lk w')) = length (slots (w_lk w));
  es_id : lk_id (w_lk w') = lk_id (w_lk w);
  es_wuow : lk_wuowNestingLevel (w_lk w') = lk_wuowNestingLevel (w_lk w);
  es_num : lk_numResourcesToUnlockAtEndUnitOfWork (w_lk w') =
    lk_numResourcesToUnlockAtEndUnitOfWork (w_lk w);
  es_other : forall it' kv, it' <> it ->
    at_entry (lk_requests (w_lk w')) it' kv <-> at_entry (lk_requests (w_lk w)) it' kv;
  es_kept : kept (request_ptr w it) (lm_requests (w_lm w)) (lm_requests (w_lm w'));
  es_it : if (rq_recursiveCount q =? c)%nat then forall kv, ~ at_entry (lk_requests (w_lk w')) it kv
          else at_entry (lk_requests (w_lk w')) it (k, n);
  es_request : exists q', lm_requests (w_lm w') !! request_ptr w it = Some q' /\
    rq_recursiveCount q' = (rq_recursiveCount q - c)%nat;
}.

Lemma entry_step_ptr w w' it k c n q it' : entry_step w w' it k c n q -> request_ptr w' it' = request_ptr w it'.
Proof. intros []. unfold request_ptr, slot_ptr. by rewrite es_length0, es_id0. Qed.

Lemma entry_step_trans w w1 w2 it k c1 c2 n1 n2 q q1 :
  entry_step w w1 it k c1 n1 q -> entry_step w1 w2 it k c2 n2 q1 ->
  lm_request w1 it = Some q1 -> (c1 < rq_recursiveCount q)%nat -> entry_step w w2 it k (c1 + c2) n2 q.
Proof.
  intros H1 H2 Hq1 Hlt. pose proof (entry_step_ptr _ _ _ _ _ _ _ it H1) as Ep.
  destruct H1 as [????? ? _ (q1' & Hq1' & Hc1)], H2 as [????? ? Hit (q2 & Hq2 & Hc2)].
  unfold lm_request in Hq1. rewrite Ep in *. rewrite Hq1 in Hq1'. injection Hq1' as <-.
  split; try congruence.
  - intros it' kv Hne. rewrite es_other1 by done. auto.
  - by etransitivity.
  - replace (rq_recursiveCount q =? c1 + c2)%nat with (rq_recursiveCount q1 =? c2)%nat; [done|].
    rewrite Hc1. apply eq_true_iff_eq. rewrite !Nat.eqb_eq. lia.
  - exists q2. split; [done|lia].
Qed.

(** A removed slot has no delayed unlocks left to process. *)
Lemma release_pending_removed d w it fuel :
  locker_inv d w -> (it < length (slots (w_lk w)))%nat -> (forall kv, ~ at_entry (lk_requests (w_lk w)) it kv) ->
  release_pending (S fuel) w it = Some w.
Proof.
  intros Hok Hlt Hna. destruct (lookup_lt_is_Some_2 _ _ Hlt) as [e He].
  assert (inUse e = false) as Hu.
  { destruct (inUse e) eqn:Hu; [|done]. destruct (Hna (ekey e, evalue e)). by exists e. }
  cbn [release_pending]. unfold unlockPending, objAddr.
  rewrite invariant_bind by by rewrite (finished_false _ _ e).
  rewrite He. cbn. by rewrite (lko_stale _ _ Hok it e He Hu).
Qed.

Lemma released_step w w' it k n q d :
  locker_inv d w -> at_entry (lk_requests (w_lk w)) it (k, n) ->
  released w w' it k (rq_recursiveCount q =? 1)%nat ->
  (exists q', lm_requests (w_lm w') !! request_ptr w it = Some q' /\
    rq_recursiveCount q' = pred (rq_recursiveCount q)) ->
  entry_step w w' it k 1 n q.
Proof.
  intros Hok Hat Hrel (q' & Hq' & Hc). pose proof (release_length Hrel) as Hlen.
  destruct Hrel, (rq_recursiveCount q =? 1)%nat eqn:Eb.
  - destruct (rel_remove0 eq_refl) as (it' & Hrm).
    destruct (remove_spec _ it k n (proj1 (lko_map _ _ Hok)) Hat) as (m' & it2 & pre & post & Hrm' & _ & _ & _ & _ & Hoth).
    rewrite Hrm in Hrm'. injection Hrm' as <- _. split; try done; [|exists q'; split; [done|lia]].
    rewrite Eb. intros kv (e' & He' & Hu' & _). destruct (remove_slots _ _ _ _ Hrm) as (e & He & _ & Es & _).
    rewrite Es, list_lookup_insert_eq in He' by by eapply lookup_lt_Some. by simplify_eq/=.
  - rewrite (rel_keep0 eq_refl) in *. split; try done; rewrite ?(rel_keep0 eq_refl), ?Eb; [done..|].
    exists q'; split; [done|lia].
Qed.

(** One turn of the inner loop. *)
Lemma release_pending_turn n fuel w it k q :
  locker_inv 1 w -> at_entry (lk_requests (w_lk w)) it (k, S n) -> lm_request w it = Some q ->
  inAWriteUnitOfWork (w_lk w) = false ->
  exists w', release_pending (S fuel) w it = release_pending fuel w' it /\
    locker_inv (one_if n) w' /\ entry_step w w' it k 1 n q.
Proof.
  intros Hok Hat Hq Hw. cbn [release_pending].
  unfold unlockPending. rewrite (value_entry _ it k _ Hat). cbn [mbind option_bind].
  destruct (lko_entry _ _ Hok it k _ Hat) as (q0 & Hq0 & Hlv & _ & _ & Hle).
  rewrite Hq in Hq0; injection Hq0 as <-. unfold live in Hlv.
  destruct (set_pending_spec 1 (one_if n) w it k (S n) n
    (lk_numResourcesToUnlockAtEndUnitOfWork (w_lk w)) q) as (m1 & Has & Hok1 & Hat1 & Hlen1 & Hoth1);
    [done|done|done|lia|unfold one_if; simpl; lia|].
  unfold set_unlockPending. rewrite Has. cbn [mbind option_bind lk_requests].
  rewrite (key_entry _ it k n Hat1). cbn [mbind option_bind].
  set (w1 := with_lk w _) in *.
  assert (request_ptr w1 it = request_ptr w it) as Eptr.
  { unfold request_ptr, slot_ptr. simpl. by rewrite Hlen1. }
  assert (lm_request w1 it = Some q) as Hq1 by (unfold lm_request; by rewrite Eptr).
  rewrite (unlock_now (one_if n) w1 it k n Hok1 Hat1 Hw).
  destruct (unlockImpl_spec (one_if n) w1 it k n q Hok1 Hat1 Hq1) as (w2 & it2 & q2 & -> & Hok2 & Hrel & Hq2 & Hc2 & _);
    [lia|]. cbn [mbind option_bind].
  exists w2. split_and!; [done|done|].
  destruct (released_step w1 w2 it k n q _ Hok1 Hat1 Hrel (ex_intro _ q2 (conj Hq2 Hc2))).
  rewrite Eptr in *. split; try done; [by rewrite es_length0|].
  intros it' kv Hne. rewrite es_other0 by done. by apply Hoth1.
Qed.

Lemma release_pending_spec : forall n fuel w it k q,
  (n < fuel)%nat -> locker_inv (one_if n) w -> at_entry (lk_requests (w_lk w)) it (k, n) ->
  lm_request w it = Some q -> inAWriteUnitOfWork (w_lk w) = false ->
  exists w', release_pending fuel w it = Some w' /\ locker_ok w' /\ entry_step w w' it k n 0 q.
Proof.
  induction n as [|n IH]; intros [|fuel] w it k q Hfuel Hok Hat Hq Hw; try lia.
  all: destruct (lko_entry _ _ Hok it k _ Hat) as (q0 & Hq0 & Hlv & _ & _ & Hle);
    rewrite Hq in Hq0; injection Hq0 as <-; unfold live in Hlv.
  { cbn [release_pending]. unfold unlockPending. rewrite (value_entry _ it k _ Hat).
    exists w. split_and!; [done|done|]. split; try done.
    - destruct (Nat.eqb_spec (rq_recursiveCount q) 0); [lia|done].
    - exists q. split; [done|lia]. }
  destruct (release_pending_turn n fuel w it k q Hok Hat Hq Hw) as (w1 & -> & Hok1 & Hst).
  destruct (Nat.eqb_spec (rq_recursiveCount q) 1) as [E1|N1].
  - assert (n = 0%nat) as -> by lia. pose proof (es_it _ _ _ _ _ _ _ Hst) as Hit. rewrite E1 in Hit.
    destruct fuel as [|fuel]; [lia|]. exists w1. split; [|done].
    eapply release_pending_removed; [done| |done]. rewrite (es_length _ _ _ _ _ _ _ Hst).
    destruct Hat as (e & He & _). by eapply lookup_lt_Some.
  - pose proof (es_it _ _ _ _ _ _ _ Hst) as Hit. rewrite (proj2 (Nat.eqb_neq _ _) N1) in Hit.
    destruct (lko_entry _ _ Hok1 it k _ Hit) as (q1 & Hq1 & _).
    destruct (IH fuel w1 it k q1) as (w2 & Hrun & Hok2 & Hst2); [lia|done|done|done| |].
    { unfold inAWriteUnitOfWork. by rewrite (es_wuow _ _ _ _ _ _ _ Hst). }
    exists w2. split_and!; [done|done|]. by eapply (entry_step_trans w w1 w2 it k 1 n n 0 q q1); [| | |lia].
Qed.

(** The request at [x] is untouched up to a grant. *)
Definition kept_at (x : ReqPtr) (R R' : requests) : Prop :=
  (R !! x = None -> R' !! x = None) /\
  (forall q, R !! x = Some q -> exists q', R' !! x = Some q' /\ same_request q q').

Lemma kept_at_trans x R1 R2 R3 : kept_at x R1 R2 -> kept_at x R2 R3 -> kept_at x R1 R3.
Proof.
  intros [H1 H2] [H3 H4]. split; [auto|]. intros q Hq. destruct (H2 q Hq) as (q1 & Hq1 & ?).
  destruct (H4 q1 Hq1) as (q2 & ? & ?). exists q2. split; [done|]. by etransitivity.
Qed.

(** What is left of an entry with key [k], [n] delayed unlocks and request [q]. *)
Definition entry_released (w w' : World) (it : nat) (k : ResourceId) (n : nat) (q : LockRequest) : Prop :=
  (if (rq_recursiveCount q =? n)%nat then forall kv, ~ at_entry (lk_requests (w_lk w')) it kv
   else at_entry (lk_requests (w_lk w')) it (k, 0%nat)) /\
  exists q', lm_requests (w_lm w') !! request_ptr w it = Some q' /\
    rq_recursiveCount q' = (rq_recursiveCount q - n)%nat.

(** All delayed unlocks have been carried out. *)
Record all_released (w w' : World) : Prop := mk_all_released {
  ar_length : length (slots (w_lk w')) = length (slots (w_lk w));
  ar_id : lk_id (w_lk w') = lk_id (w_lk w);
  ar_wuow : lk_wuowNestingLevel (w_lk w') = lk_wuowNestingLevel (w_lk w);
  ar_entries : forall it k n, at_entry (lk_requests (w_lk w')) it (k, n) ->
    exists n', at_entry (lk_requests (w_lk w)) it (k, n');
  ar_released : forall it k n q, at_entry (lk_requests (w_lk w)) it (k, n) ->
    lm_request w it = Some q -> entry_released w w' it k n q;
  ar_kept : forall x, (forall it kv, at_entry (lk_requests (w_lk w)) it kv -> x <> request_ptr w it) ->
    kept_at x (lm_requests (w_lm w)) (lm_requests (w_lm w'));
}.

Lemma all_released_nothing w :
  locker_ok w -> lk_numResourcesToUnlockAtEndUnitOfWork (w_lk w) = 0%nat -> all_released w w.
Proof.
  intros Hok Hn. pose proof (lko_pending _ _ Hok) as Hp. rewrite Hn in Hp.
  assert (forall it k n, at_entry (lk_requests (w_lk w)) it (k, n) -> n = 0%nat) as H0.
  { intros it k [|n] Hat; [done|]. symmetry in Hp. apply length_zero_iff_nil in Hp.
    assert ((k, S n) ∈ pending_entries (lk_requests (w_lk w))) as Hin; [|rewrite Hp in Hin; by apply not_elem_of_nil in Hin].
    apply list_elem_of_filter. split; [simpl; lia|]. apply elem_of_entries. by exists it. }
  split; try done; [by eauto| |].
  - intros it k n q Hat Hq. pose proof (H0 _ _ _ Hat) as ->.
    destruct (lko_entry _ _ Hok it k _ Hat) as (q0 & Hq0 & Hlv & _). rewrite Hq in Hq0. injection Hq0 as <-.
    unfold live in Hlv. split; [|exists q; split; [done|lia]].
    destruct (Nat.eqb_spec (rq_recursiveCount q) 0); [lia|done].
  - intros x _. split; [done|]. intros q Hq. by exists q.
Qed.

Lemma kept_kept_at r x R R' : kept r R R' -> x <> r -> kept_at x R R'.
Proof. intros H. apply H. Qed.

Lemma all_released_step w w1 w2 it k n q :
  locker_ok w1 -> at_entry (lk_requests (w_lk w)) it (k, n) -> lm_request w it = Some q ->
  entry_step w w1 it k n 0 q -> all_released w1 w2 -> all_released w w2.
Proof.
  intros Hok1 Hat Hq Hst [L I W E R K].
  pose proof (fun it' => entry_step_ptr _ _ _ _ _ _ _ it' Hst) as Ep.
  assert (Hlt : (it < length (slots (w_lk w)))%nat) by (destruct Hat as (e & He & _); by eapply lookup_lt_Some).
  destruct Hst as [L1 I1 W1 _ O1 K1 It1 (q1 & Hq1 & Hc1)].
  split; [congruence..| | |].
  - intros it0 k0 n0 Hat0. destruct (E _ _ _ Hat0) as (n1 & Hat1). destruct (decide (it0 = it)) as [->|Hne].
    + exists n. destruct (_ =? _)%nat; [by destruct (It1 (k0, n1))|].
      destruct Hat1 as (?&?&_&?), It1 as (?&?&_&?). congruence.
    + exists n1. by apply O1.
  - intros it0 k0 n0 q0 Hat0 Hq0. destruct (decide (it0 = it)) as [->|Hne].
    + assert ((k0, n0) = (k, n)) as [= -> ->] by (destruct Hat0 as (?&?&_&?), Hat as (?&?&_&?); congruence).
      rewrite Hq in Hq0. injection Hq0 as <-. unfold entry_released.
      destruct (Nat.eqb_spec (rq_recursiveCount q) n) as [Ec|Nc].
      * split; [intros [k1 n1] Hat1; destruct (E _ _ _ Hat1) as (n2 & Hat2); by apply It1 in Hat2|].
        destruct (K (request_ptr w it)) as [_ Hk2].
        { intros it1 kv1 Hat1. rewrite Ep. intros Ex. apply slot_ptr_inj in Ex as <-; [by apply It1 in Hat1|done|].
          destruct Hat1 as (?&He&_). apply lookup_lt_Some in He. by rewrite L1 in He. }
        destruct (Hk2 q1 Hq1) as (q2 & Hq2 & [_ Hc2 _ _ _ _ _]). exists q2. split; [done|lia].
      * destruct (R it k 0%nat q1 It1) as [Hit2 (q2 & Hq2 & Hc2)]; [unfold lm_request; by rewrite Ep|].
        rewrite Ep in Hq2. split; [|exists q2; split; [done|lia]].
        destruct (lko_entry _ _ Hok1 it k _ It1) as (q1' & Hq1' & Hlv & _). unfold lm_request in Hq1'.
        rewrite Ep, Hq1 in Hq1'. injection Hq1' as <-. unfold live in Hlv.
        destruct (Nat.eqb_spec (rq_recursiveCount q1) 0); [lia|done].
    + apply O1 in Hat0 as Hat1; [|done].
      destruct (K1 (request_ptr w it0)) as [_ Hk1].
      { intros Ex. destruct Hat0 as (? & He & _). apply lookup_lt_Some in He. by apply slot_ptr_inj in Ex. }
      destruct (Hk1 q0 Hq0) as (q0' & Hq0' & [_ Hc0 _ _ _ _ _]).
      destruct (R it0 k0 n0 q0' Hat1) as [Hit2 (q2 & Hq2 & Hc2)]; [unfold lm_request; by rewrite Ep|].
      rewrite Ep in Hq2. unfold entry_released. rewrite <- Hc0. by eauto.
  - intros x Hx. eapply kept_at_trans; [by eapply kept_kept_at, Hx|]. apply K.
    intros it1 [k1 n1] Hat1. rewrite Ep. destruct (decide (it1 = it)) as [->|Hne]; [by eapply Hx|].
    eapply Hx. by apply O1.
Qed.

(** While delayed unlocks are counted, one is found at or after the iterator. *)
Lemma pending_found w it :
  locker_ok w -> lk_numResourcesToUnlockAtEndUnitOfWork (w_lk w) <> 0%nat ->
  (forall it' k n, at_entry (lk_requests (w_lk w)) it' (k, n) -> (it' < it)%nat -> n = 0%nat) ->
  (it < length (slots (w_lk w)))%nat.
Proof.
  intros Hok Hn Hb. pose proof (lko_pending _ _ Hok) as Hp.
  destruct (pending_entries (lk_requests (w_lk w))) as [|[k n] l] eqn:E; [simpl in Hp; lia|].
  assert ((k, n) ∈ pending_entries (lk_requests (w_lk w))) as Hin by (rewrite E; by left).
  apply list_elem_of_filter in Hin as [Hpos Hin]. apply elem_of_entries in Hin as (it' & Hat).
  pose proof (Hb it' k n Hat) as H0. destruct Hat as (e & He & _). apply lookup_lt_Some in He.
  simpl in Hpos. lia.
Qed.

(** The decrement that starts the work on an entry. *)
Lemma locker_inv_start n w :
  locker_ok w -> lk_numResourcesToUnlockAtEndUnitOfWork (w_lk w) <> 0%nat ->
  locker_inv (one_if n) (if (n =? 0)%nat then w
    else with_lk w (let lk := w_lk w in {| lk with lk_numResourcesToUnlockAtEndUnitOfWork :=
                      pred (lk_numResourcesToUnlockAtEndUnitOfWork lk) |})).
Proof.
  intros Hok Hn. unfold one_if. destruct (n =? 0)%nat; [done|]. destruct Hok. split; try done. simpl. lia.
Qed.

(** One turn of the outer loop. *)
Lemma release_from_turn fuel w it :
  locker_ok w -> inAWriteUnitOfWork (w_lk w) = false ->
  lk_numResourcesToUnlockAtEndUnitOfWork (w_lk w) <> 0%nat ->
  (exists kv, at_entry (lk_requests (w_lk w)) it kv) ->
  exists w' it' k n q, release_from (S fuel) w it = release_from fuel w' it' /\
    at_entry (lk_requests (w_lk w)) it (k, n) /\ lm_request w it = Some q /\
    locker_ok w' /\ inAWriteUnitOfWork (w_lk w') = false /\
    FastMap.next (lk_requests (w_lk w')) it = Some it' /\
    length (slots (w_lk w')) = length (slots (w_lk w)) /\
    (forall it' kv, it' <> it -> at_entry (lk_requests (w_lk w')) it' kv <->
       at_entry (lk_requests (w_lk w)) it' kv) /\
    (forall k' n', at_entry (lk_requests (w_lk w')) it (k', n') -> n' = 0%nat) /\
    (forall w2, all_released w' w2 -> all_released w w2).
Proof.
  intros Hok Hw Hn [[k n] Hat]. destruct (lko_entry _ _ Hok it k n Hat) as (q & Hq & Hlv & _).
  cbn [release_from]. rewrite (proj2 (Nat.eqb_neq _ _) Hn).
  unfold unlockPending. rewrite (value_entry _ it k _ Hat). cbn [mbind option_bind].
  pose proof (locker_inv_start n w Hok Hn) as Hok1. set (w1 := if (n =? 0)%nat then w else _) in *.
  assert (lk_requests (w_lk w1) = lk_requests (w_lk w) /\ lm_request w1 it = Some q /\
    inAWriteUnitOfWork (w_lk w1) = false /\ w_lm w1 = w_lm w /\ lk_id (w_lk w1) = lk_id (w_lk w) /\
    lk_wuowNestingLevel (w_lk w1) = lk_wuowNestingLevel (w_lk w)) as (Em & Hq1 & Hw1 & Elm & Eid & Ew)
    by by unfold w1; destruct (n =? 0)%nat.
  destruct (release_pending_spec n (S n) w1 it k q) as (w2 & -> & Hok2 & Hst);
    [lia|done|by rewrite Em|done|done|]. cbn [mbind option_bind].
  assert (forall w3, all_released w1 w3 -> all_released w w3) as Hback.
  { intros w3. unfold w1. destruct (n =? 0)%nat; [done|]. intros []. by split. }
  assert (it < length (slots (w_lk w2)))%nat as Hlt.
  { rewrite (es_length _ _ _ _ _ _ _ Hst), Em. destruct Hat as (e & He & _). by eapply lookup_lt_Some. }
  destruct (next_spec (lk_requests (w_lk w2)) it Hlt) as (it' & Hnx & _).
  rewrite Hnx. cbn [mbind option_bind].
  exists w2, it', k, n, q. split_and!; try done.
  - unfold inAWriteUnitOfWork. by rewrite (es_wuow _ _ _ _ _ _ _ Hst).
  - by rewrite (es_length _ _ _ _ _ _ _ Hst), Em.
  - intros it0 kv Hne. rewrite (es_other _ _ _ _ _ _ _ Hst) by done. by rewrite Em.
  - intros k' n' Hat'. pose proof (es_it _ _ _ _ _ _ _ Hst) as Hit.
    destruct (rq_recursiveCount q =? n)%nat; [by apply Hit in Hat'|].
    destruct Hat' as (?&?&_&?), Hit as (?&?&_&?). congruence.
  - intros w3 Hr. apply Hback. eapply (all_released_step w1 w2 w3 it k n q); try done. by rewrite Em.
Qed.

Lemma release_from_spec fuel : forall w it,
  (length (slots (w_lk w)) < it + fuel)%nat -> (it <= length (slots (w_lk w)))%nat ->
  locker_ok w -> inAWriteUnitOfWork (w_lk w) = false ->
  (forall it' k n, at_entry (lk_requests (w_lk w)) it' (k, n) -> (it' < it)%nat -> n = 0%nat) ->
  (finished (lk_requests (w_lk w)) it = false -> exists kv, at_entry (lk_requests (w_lk w)) it kv) ->
  exists w', release_from fuel w it = Some w' /\ locker_ok w' /\
    lk_numResourcesToUnlockAtEndUnitOfWork (w_lk w') = 0%nat /\ all_released w w'.
Proof.
  induction fuel as [|fuel IH]; intros w it Hfuel Hle Hok Hw Hb Hcur; [lia|].
  destruct (decide (lk_numResourcesToUnlockAtEndUnitOfWork (w_lk w) = 0%nat)) as [Hn|Hn].
  { exists w. cbn [release_from]. rewrite Hn. split_and!; [done|done|done|by apply all_released_nothing]. }
  pose proof (pending_found w it Hok Hn Hb) as Hlt.
  destruct (release_from_turn fuel w it Hok Hw Hn) as
    (w1 & it1 & k & n & q & -> & Hat & Hq & Hok1 & Hw1 & Hnx & Hlen & Hoth & Hit & Hback).
  { apply Hcur. apply Nat.eqb_neq. lia. }
  rewrite <- Hlen in Hlt. destruct (next_spec (lk_requests (w_lk w1)) it Hlt) as (it1' & Hnx' & H1 & H2 & H3 & H4).
  rewrite Hnx in Hnx'. injection Hnx' as <-.
  destruct (IH w1 it1) as (w2 & Hrun & Hok2 & Hz & Har); [lia|done|done|done| |done|].
  { intros it' k' n' Hat' Hlt'. destruct (decide (it' = it)) as [->|Hne]; [by eapply Hit|].
    destruct (decide (it' < it)%nat) as [Hlt2|Hge]; [apply Hoth in Hat'; [by eapply Hb|done]|].
    destruct Hat' as (e & He & Hu & _). rewrite (H3 it' e) in Hu by (done || lia). done. }
  exists w2. split_and!; auto.
Qed.

(** ** A new request *)

Section new_request.
Context {w : World} {k : ResourceId} {m' : LockRequestsMap} {it : nat}.
Context (Hok : locker_ok w) (Hk : k ∉ (entries (lk_requests (w_lk w))).*1).
Context (Hins : FastMap.insert (lk_requests (w_lk w)) k = Some (m', it)).

Abbreviation new_ptr := (slot_ptr (lk_id (w_lk w)) m' it) (only parsing).

(** The old entries move to the back by the number of new slots. *)
Lemma insert_positions : exists s,
  length (fastAccess m') = (s + length (slots (w_lk w)))%nat /\ (it < length (fastAccess m'))%nat /\
  (forall i k0 n0, at_entry m' i (k0, n0) -> i <> it ->
     exists j, i = (s + j)%nat /\ at_entry (lk_requests (w_lk w)) j (k0, n0)) /\
  (forall j e, slots (w_lk w) !! j = Some e -> inUse e = true ->
     (s + j)%nat <> it /\ fastAccess m' !! (s + j)%nat = Some e) /\
  at_entry m' it (k, 0%nat) /\
  (forall i e, fastAccess m' !! i = Some e -> inUse e = false -> evalue e = 0%nat).
Proof using Hok Hins.
  destruct (insert_slots _ _ _ _ Hins) as (l & e & s & El & He & Hu & Em).
  assert (length l = s + length (slots (w_lk w)))%nat as Hl by by rewrite El, length_app, length_replicate.
  assert (forall i e0, l !! i = Some e0 -> inUse e0 = true ->
    exists j, i = (s + j)%nat /\ slots (w_lk w) !! j = Some e0) as Hpos.
  { intros i e0 Hi Hu0. rewrite El in Hi. apply lookup_app_Some in Hi as [Hi|[Hge Hi]].
    - apply lookup_replicate in Hi as [-> _]. done.
    - rewrite length_replicate in *. exists (i - s)%nat. split; [lia|done]. }
  assert (forall i e0, l !! i = Some e0 -> inUse e0 = false -> evalue e0 = 0%nat) as Hst.
  { intros i e0 Hi Hu0. rewrite El in Hi. apply lookup_app_Some in Hi as [Hi|[Hge Hi]].
    - by apply lookup_replicate in Hi as [-> _].
    - by eapply (lko_stale _ _ Hok). }
  pose proof (lookup_lt_Some _ _ _ He) as Hlt.
  exists s. rewrite Em, length_insert. split_and!; [done|done| | | |].
  - intros i k0 n0 (e0 & Hi & Hu0 & Hkv0) Hne. rewrite Em, list_lookup_insert_ne in Hi by done.
    destruct (Hpos i e0 Hi Hu0) as (j & -> & Hj). exists j. split; [done|]. by exists e0.
  - intros j e0 Hj Hu0. assert (l !! (s + j)%nat = Some e0) as Hlj.
    { rewrite El, lookup_app_r; rewrite length_replicate; [|lia].
      by replace (s + j - s)%nat with j by lia. }
    assert ((s + j)%nat <> it) by congruence. split; [done|]. by rewrite list_lookup_insert_ne.
  - eexists. rewrite Em, list_lookup_insert_eq by done. split_and!; [done|done|]. simpl.
    by rewrite (Hst it e).
  - intros i e0 Hi Hu0. destruct (decide (i = it)) as [->|Hne].
    + rewrite list_lookup_insert_eq in Hi by done. by simplify_eq/=.
    + rewrite list_lookup_insert_ne in Hi by done. by eapply Hst.
Qed.

(** The slot of the new request held no live request. *)
Lemma new_slot_free q0 : lm_requests (w_lm w) !! new_ptr = Some q0 -> ~ live q0.
Proof using Hok Hins.
  intros Hq0. destruct insert_positions as (s & Hl & Hlt & _ & Hold & _).
  pose proof (lko_free _ _ Hok (length (fastAccess m') - 1 - it)%nat) as Hf.
  unfold slot_ptr in Hq0. rewrite Hq0 in Hf. unfold live. rewrite Hf; [lia|].
  intros (j & e & Hj & Hu & Ej). destruct (Hold j e Hj Hu) as [Hne _].
  apply lookup_lt_Some in Hj. lia.
Qed.

Context {lm : LockManager} {q : LockRequest} {lr : LockResult}.
Context (Hlm : lm_inv lm) (Hq : lm_requests lm !! new_ptr = Some q) (Hlv : live q).
Context (Hs : rq_status q <> STATUS_NEW) (Hr : req_res q = Some k).
Context (Hkept : kept new_ptr (lm_requests (w_lm w)) (lm_requests lm)).
Context (Ht : k = resourceIdGlobal -> lk_modeForTicket (w_lk w) <> MODE_NONE).

Lemma locker_ok_new :
  locker_ok (let lk := w_lk w in
    {| w with w_lm := lm; w_lk := {| lk with lk_requests := m'; lk_notify := lr |} |}).
Proof using All.
  destruct insert_positions as (s & Hl & Hlt & Hnew & Hold & Hat & Hst).
  pose proof (lko_map _ _ Hok) as [Hwf Hnd].
  destruct (insert_spec _ k Hwf) as (m2 & it2 & v & pre & post & Hins2 & Hwf2 & Hat2 & E1 & E2).
  rewrite Hins in Hins2. injection Hins2 as <- <-.
  assert ((k, v) = (k, 0%nat)) as [= ->] by (destruct Hat as (?&?&_&?), Hat2 as (?&?&_&?); congruence).
  split; simpl; [| done |intros i k0 n0 Hat0|intros j Hj|done| |].
  - split; [done|]. rewrite E2, fmap_app, fmap_cons, <- Permutation_middle. simpl.
    rewrite <- fmap_app, <- E1. by apply NoDup_cons.
  - unfold entry_request, lm_request, request_ptr, slot_ptr. simpl. destruct (decide (i = it)) as [->|Hne].
    + assert ((k0, n0) = (k, 0%nat)) as [= -> ->] by (destruct Hat0 as (?&?&_&?), Hat as (?&?&_&?); congruence).
      exists q. split_and!; [done..|lia].
    + destruct (Hnew i k0 n0 Hat0 Hne) as (j & -> & Hatj).
      destruct (lko_entry _ _ Hok j k0 n0 Hatj) as (qj & Hqj & Hlvj & Hsj & Hrj & Hnj).
      assert (j < length (slots (w_lk w)))%nat as Hjl by (destruct Hatj as (?&He&_); by eapply lookup_lt_Some).
      destruct (Hkept (request_ptr w j)) as [_ Hk1].
      { intros E. apply (inj encode) in E. injection E as E. lia. }
      destruct (Hk1 qj Hqj) as (q1 & Hq1 & []). exists q1. unfold request_ptr, slot_ptr in Hq1.
      replace (length (fastAccess m') - 1 - (s + j))%nat with (length (slots (w_lk w)) - 1 - j)%nat by lia.
      unfold live in *. split_and!; [done|lia|auto|congruence|lia].
  - destruct (Hkept (encode (lk_id (w_lk w), j))) as [Hn1 Hk1].
    { intros E. apply (inj encode) in E. injection E as ->. apply Hj. destruct Hat as (e & He & Hu & _).
      by exists it, e. }
    assert (~ used_slot (w_lk w) j) as Hj'.
    { intros (i & e & He & Hu & ->). apply Hj. destruct (Hold i e He Hu) as [_ He']. exists (s + i)%nat, e.
      simpl. split_and!; [done|done|lia]. }
    pose proof (lko_free _ _ Hok j Hj') as Hf. destruct (lm_requests (w_lm w) !! _) as [qj|] eqn:Ej.
    + destruct (Hk1 qj eq_refl) as (q1 & -> & []). congruence.
    + by rewrite Hn1.
  - rewrite (lko_pending _ _ Hok). unfold pending_entries. rewrite E1, E2, !filter_app, !length_app.
    rewrite filter_cons_False by (simpl; lia). done.
  - rewrite E2, fmap_app, fmap_cons, elem_of_app, elem_of_cons.
    pose proof (lko_ticket _ _ Hok) as Htk. rewrite E1, fmap_app, elem_of_app in Htk.
    intros [Hin|[Ek|Hin]]; [auto|by apply Ht|auto].
Qed.
End new_request.
