(* ===== verification/LockerSafety.v ===== *)
(** * Correctness of a locker

    The operations of [LockerImpl] on a state that satisfies [locker_ok]: acquiring,
    re-acquiring and converting a lock, delaying an unlock to the end of the write unit of
    work, and releasing everything there. *)

From S2P Require Import FastMap.
From Stdlib Require Import ZArith Lia.
From stdpp Require Import prelude gmap functions finite.
From S2P Require Import Prelude LockDefs LockHead LockHeadInv LockManager LockManagerInv.
From S2P Require Import LockManagerOps LockConvert LockUnlock Locker LockerInv.

Open Scope Z_scope.

(** ** Acquiring *)

(** The lock manager changed the request at [it] only. *)
Lemma locker_inv_request d w it k n lm q lr :
  locker_inv d w -> at_entry (lk_requests (w_lk w)) it (k, n) -> lm_inv lm ->
  lm_requests lm !! request_ptr w it = Some q -> live q -> rq_status q <> STATUS_NEW ->
  req_res q = Some k -> (n <= rq_recursiveCount q)%nat ->
  kept (request_ptr w it) (lm_requests (w_lm w)) (lm_requests lm) ->
  locker_inv d (let lk := w_lk w in {| w with w_lm := lm; w_lk := {| lk with lk_notify := lr |} |}).
Proof.
  intros Hok Hat Hlm Hq Hlv Hs Hr Hn Hkept.
  assert (it < length (slots (w_lk w)))%nat as Hlt by (destruct Hat as (?&He&_); by eapply lookup_lt_Some).
  pose proof Hok as [? ? Hent Hfree ???]. split; simpl; try done.
  - intros i k0 n0 Hat0. unfold entry_request, lm_request, request_ptr. simpl.
    destruct (decide (i = it)) as [->|Hne].
    + assert ((k0, n0) = (k, n)) as [= -> ->] by (destruct Hat0 as (?&?&_&?), Hat as (?&?&_&?); congruence).
      by exists q.
    + destruct (Hent i k0 n0 Hat0) as (q0 & Hq0 & Hlv0 & Hs0 & Hr0 & Hn0).
      destruct (Hkept (request_ptr w i)) as [_ Hk].
      { intros E. destruct Hat0 as (?&He&_). apply lookup_lt_Some in He. by apply slot_ptr_inj in E. }
      destruct (Hk q0 Hq0) as (q1 & Hq1 & [? Hc1 Hr1 ? ? Ho1 ?]). exists q1. unfold live in *.
      split_and!; [done|lia|auto|congruence|lia].
  - intros j Hj. pose proof (Hfree j Hj) as Hf.
    destruct (Hkept (encode (lk_id (w_lk w), j))) as [Hn1 Hk1].
    { intros E. apply (inj encode) in E. injection E as ->. apply Hj. destruct Hat as (e & He & Hu & _).
      by exists it, e. }
    destruct (lm_requests (w_lm w) !! _) as [qj|] eqn:Ej; [|by rewrite Hn1].
    destruct (Hk1 qj eq_refl) as (q1 & -> & [? Hc1 ? ? ? ? ?]). congruence.
Qed.

Lemma set_global_policy_fresh k mode id nt : fresh_request (set_global_policy k mode (initNew id nt)).
Proof. unfold set_global_policy. destruct (_ && _); split_and!; done. Qed.

(** [lockBegin] on a resource with no request, up to the interruption check. *)
Lemma lockBegin_new w opCtx k mode :
  locker_ok w -> k ∉ (entries (lk_requests (w_lk w))).*1 -> mode <> MODE_NONE ->
  (k = resourceIdGlobal -> lk_modeForTicket (w_lk w) <> MODE_NONE) ->
  exists w' lr it q, lockBegin w opCtx k mode = check_interrupt w' opCtx k lr /\
    locker_ok w' /\ at_entry (lk_requests (w_lk w')) it (k, 0%nat) /\
    lm_request w' it = Some q /\ rq_mode q = mode /\ rq_recursiveCount q = 1%nat /\
    lock_answer lr (rq_status q) /\
    kept (request_ptr w' it) (lm_requests (w_lm w)) (lm_requests (w_lm w')) /\
    lk_uninterruptibleLocksRequested (w_lk w') = lk_uninterruptibleLocksRequested (w_lk w).
Proof.
  intros Hok Hk Hm Ht. unfold lockBegin, find_or_new_request.
  destruct (find_spec (lk_requests (w_lk w)) k) as [Hf _]. rewrite (proj2 Hf Hk).
  destruct (insert_spec _ k (proj1 (lko_map _ _ Hok))) as (m' & it & v & pre & post & Hins & _).
  rewrite Hins. cbn [mbind option_bind].
  destruct (insert_positions Hok Hins) as (s & Hl & Hlt & Hnew & Hold & Hat & Hst).
  unfold unlockPending. cbn [w_lk lk_requests]. rewrite (value_entry _ it k _ Hat).
  cbn [mbind option_bind]. unfold request_at. cbn [w_lk lk_requests].
  rewrite invariant_bind by (destruct Hat as (e & He & _); by rewrite (finished_false m' it e)).
  set (r := slot_ptr (lk_id (w_lk w)) m' it). set (q0 := initNew _ _).
  unfold request_ptr at 1. cbn [w_lk w_lm lk_requests lk_id lm_requests]. fold r.
  rewrite lookup_insert_eq. cbn [mbind option_bind Nat.eqb negb andb].
  unfold request_ptr. cbn [w_lm w_lk w_tickets w_waits w_ticketWaits lk_requests lk_id lm_requests
    lm_lockBuckets lm_partitions lm_notified]. fold r.
  set (lm1 := mkLockManager _ _ _ _).
  assert (lm_requests lm1 !! r = Some (set_global_policy k mode q0)) as Hq1 by apply lookup_insert_eq.
  assert (lm_inv lm1) as Hi1.
  { refine (lm_inv_insert_fresh {| lm_requests := <[r := q0]> (lm_requests (w_lm w));
      lm_lockBuckets := lm_lockBuckets (w_lm w); lm_partitions := lm_partitions (w_lm w);
      lm_notified := lm_notified (w_lm w) |} r (set_global_policy k mode q0) _ _ _);
      [|apply set_global_policy_fresh|].
    - apply (lm_inv_insert_fresh (w_lm w) r q0); [apply Hok|by split_and!|].
      intros q1 Hq1' Hlv. by apply (new_slot_free Hok Hins) in Hq1'.
    - simpl. rewrite lookup_insert_eq. by intros q1 [= <-] _. }
  assert (fresh_request (set_global_policy k mode q0)) as (Hs1 & _ & _ & _ & Hc1 & _)
    by apply set_global_policy_fresh.
  destruct (lock_spec lm1 k r _ mode Hi1 Hq1) as
    (lm2 & lr & q2 & -> & Hi2 & Hq2 & Hlv2 & Hr2 & Hm2 & Ha2 & Hlc2 & Hk2);
    [unfold live; lia|done|done|]. cbn [mbind option_bind].
  assert (kept r (lm_requests (w_lm w)) (lm_requests lm2)) as Hk02.
  { etransitivity; [|exact Hk2]. etransitivity; [|apply kept_insert]. apply kept_insert. }
  eexists _, lr, it, q2. split; [reflexivity|]. split.
  { refine (locker_ok_new Hok Hk Hins Hi2 Hq2 Hlv2 _ Hr2 Hk02 Ht).
    destruct Ha2 as [[_ ->]|[_ ->]]; done. }
  destruct (Hlc2 _ Hq1) as [_ Hc2]. rewrite Hc1 in Hc2. by split_and!.
Qed.

Lemma elem_of_keys (m : LockRequestsMap) k : k ∈ (entries m).*1 <-> exists it n, at_entry m it (k, n).
Proof.
  rewrite list_elem_of_fmap. split.
  - intros ([k' n] & -> & (it & Hat)%elem_of_entries). by exists it, n.
  - intros (it & n & Hat). exists (k, n). split; [done|]. apply elem_of_entries. by exists it.
Qed.

(** After the only reference is gone, the locker has no entry for the resource. *)
Lemma entry_gone w w' it k n q :
  locker_ok w -> at_entry (lk_requests (w_lk w)) it (k, n) -> entry_step w w' it k 1 n q ->
  rq_recursiveCount q = 1%nat -> k ∉ (entries (lk_requests (w_lk w'))).*1.
Proof.
  intros Hok Hat [_ _ _ _ Hoth _ Hit _] Hc (it' & n' & Hat')%elem_of_keys. rewrite Hc in Hit. simpl in Hit.
  destruct (decide (it' = it)) as [->|Hne]; [by apply Hit in Hat'|]. apply Hoth in Hat'; [|done].
  pose proof (find_entry _ k it n (lko_map _ _ Hok) Hat). pose proof (find_entry _ k it' n' (lko_map _ _ Hok) Hat').
  congruence.
Qed.

(** [lockBegin] on a resource the locker has no request for: the invariant is kept and
    the request is granted or waiting in the requested mode; when the operation is
    interrupted right after a grant, the lock is given back and no entry remains. *)
Theorem lockBegin_new_request w opCtx k mode :
  locker_ok w -> k ∉ (entries (lk_requests (w_lk w))).*1 -> mode <> MODE_NONE ->
  (k = resourceIdGlobal -> lk_modeForTicket (w_lk w) <> MODE_NONE) ->
  exists w' out, lockBegin w opCtx k mode = Some (w', out) /\ locker_ok w' /\
    match out with
    | Returned lr => exists it q, at_entry (lk_requests (w_lk w')) it (k, 0%nat) /\
        lm_request w' it = Some q /\ rq_mode q = mode /\ rq_recursiveCount q = 1%nat /\
        lock_answer lr (rq_status q)
    | Threw => (k ∉ (entries (lk_requests (w_lk w'))).*1) /\
        exists op, opCtx = Some op /\ op_interrupted op = true /\
          lk_uninterruptibleLocksRequested (w_lk w) = 0%nat
    end.
Proof.
  intros Hok Hk Hm Ht.
  destruct (lockBegin_new w opCtx k mode Hok Hk Hm Ht) as
    (w1 & lr & it & q & -> & Hok1 & Hat & Hq & Hm1 & Hc & Ha & _ & Eu).
  unfold check_interrupt. destruct opCtx as [op|]; [|by eexists _, (Returned _); eauto 10].
  destruct (_ && _ && _) eqn:E; [|by eexists _, (Returned _); eauto 10].
  apply andb_true_iff in E as [[_ Hu]%andb_true_iff Hint]. apply Nat.eqb_eq in Hu.
  rewrite (find_entry _ k it _ (lko_map _ _ Hok1) Hat).
  rewrite invariant_bind by (destruct Hat as (e & He & _); by rewrite (finished_false _ it e)).
  destruct (unlockImpl_spec 0 w1 it k 0 q Hok1 Hat Hq) as (w2 & it2 & q2 & -> & Hok2 & Hrel & Hq2 & Hc2 & _); [lia|].
  exists w2, Threw. split_and!; [done|done| |exists op; by rewrite <- Eu].
  eapply (entry_gone w1 w2 it k 0 q); [done|done| |done]. eapply released_step; eauto.
Qed.

(** A lock whose release is delayed is taken back, when the held mode covers the requested
    one, by cancelling a delayed unlock; the lock manager is not involved. *)
Theorem lockBegin_cancels_unlock w opCtx k mode it n q :
  locker_ok w -> at_entry (lk_requests (w_lk w)) it (k, S n) -> lm_request w it = Some q ->
  isModeCovered mode (rq_mode q) = true ->
  exists w', lockBegin w opCtx k mode = Some (w', Returned LOCK_OK) /\ locker_ok w' /\
    w_lm w' = w_lm w /\ at_entry (lk_requests (w_lk w')) it (k, n) /\
    lk_numResourcesToUnlockAtEndUnitOfWork (w_lk w) =
      (lk_numResourcesToUnlockAtEndUnitOfWork (w_lk w') + if (n =? 0)%nat then 1 else 0)%nat.
Proof.
  intros Hok Hat Hq Hc. unfold lockBegin, find_or_new_request.
  rewrite (find_entry _ k it _ (lko_map _ _ Hok) Hat).
  assert (finished (lk_requests (w_lk w)) it = false) as Hf
    by (destruct Hat as (e & He & _); by rewrite (finished_false _ it e)).
  rewrite Hf. cbn [mbind option_bind]. unfold unlockPending. rewrite (value_entry _ it k _ Hat).
  cbn [mbind option_bind]. destruct (request_at_entry 0 w it k _ Hok Hat) as (q0 & -> & Hq0 & _ & _ & _ & Hle).
  rewrite Hq in Hq0. injection Hq0 as <-. cbn [mbind option_bind Nat.eqb negb andb pred]. rewrite Hc.
  assert (0 < lk_numResourcesToUnlockAtEndUnitOfWork (w_lk w))%nat as Hpos.
  { rewrite <- (Nat.add_0_r (lk_numResourcesToUnlockAtEndUnitOfWork _)), (lko_pending _ _ Hok).
    destruct (pending_entries _) eqn:E; [|simpl; lia]. exfalso.
    apply (not_elem_of_nil (k, S n)). rewrite <- E. apply list_elem_of_filter. split; [simpl; lia|].
    apply elem_of_entries. by exists it. }
  destruct (set_pending_spec 0 0 w it k (S n) n (lk_numResourcesToUnlockAtEndUnitOfWork (w_lk w) -
    if (n =? 0)%nat then 1 else 0)%nat q) as (m' & Has & Hok' & Hat' & _);
    [done|done|done|lia|unfold one_if; simpl; destruct (n =? 0)%nat; lia|].
  unfold set_unlockPending. rewrite Has. cbn [mbind option_bind].
  destruct (n =? 0)%nat eqn:En; eexists; (split; [reflexivity|]); simpl; rewrite ?Nat.sub_0_r in Hok'.
  - rewrite <- Nat.sub_1_r. split_and!; [exact Hok'|done|done|lia].
  - split_and!; [exact Hok'|done|done|lia].
Qed.

(** [lockBegin] on a lock the locker already holds converts it: one more reference, in the
    stronger of the two modes or waiting for the conversion, and the invariant is kept. *)
Theorem lockBegin_converts w k mode it n q :
  locker_ok w -> at_entry (lk_requests (w_lk w)) it (k, n) -> lm_request w it = Some q ->
  rq_status q = STATUS_GRANTED -> set_global_policy k mode q = q ->
  (n = 0%nat /\ isModeCovered mode (rq_mode q) = true) \/
  (isModeCovered mode (rq_mode q) = false /\ isModeCovered (rq_mode q) mode = true) ->
  exists w' lr q', lockBegin w None k mode = Some (w', Returned lr) /\ locker_ok w' /\
    at_entry (lk_requests (w_lk w')) it (k, n) /\ lm_request w' it = Some q' /\
    rq_recursiveCount q' = S (rq_recursiveCount q) /\
    ((lr = LOCK_OK /\ rq_status q' = STATUS_GRANTED /\
      rq_mode q' = if isModeCovered mode (rq_mode q) then rq_mode q else mode) \/
     (lr = LOCK_WAITING /\ rq_status q' = STATUS_CONVERTING /\
      rq_mode q' = rq_mode q /\ rq_convertMode q' = mode)).
Proof.
  intros Hok Hat Hq Hs Hpol Hcase. unfold lockBegin, find_or_new_request.
  rewrite (find_entry _ k it _ (lko_map _ _ Hok) Hat).
  assert (finished (lk_requests (w_lk w)) it = false) as Hf
    by (destruct Hat as (e & He & _); by rewrite (finished_false _ it e)).
  rewrite Hf. cbn [mbind option_bind]. unfold unlockPending. rewrite (value_entry _ it k _ Hat).
  cbn [mbind option_bind]. destruct (request_at_entry 0 w it k _ Hok Hat) as (q0 & -> & Hq0 & Hlv & _ & Hr & Hle).
  rewrite Hq in Hq0. injection Hq0 as <-. cbn [mbind option_bind].
  replace (negb (n =? 0)%nat && isModeCovered mode (rq_mode q)) with false
    by (destruct Hcase as [[-> _]|[-> _]]; [done|by rewrite andb_false_r]).
  unfold lm_request in Hq. rewrite Hpol, insert_id by done.
  replace {| lm_requests := lm_requests (w_lm w); lm_lockBuckets := _; lm_partitions := _; lm_notified := _ |}
    with (w_lm w) by by destruct (w_lm w).
  destruct (convert_spec (w_lm w) k (request_ptr w it) q mode) as
    (lm' & lr & q' & -> & Hi' & Hq' & Hr' & Hc' & Hres & _ & Hk'); [apply Hok|done..| |].
  { destruct Hcase as [[_ ?]|[_ ?]]; auto. }
  cbn [mbind option_bind check_interrupt]. eexists _, lr, q'. split; [reflexivity|]. split; [|by split_and!].
  unfold live in Hlv.
  eapply (locker_inv_request 0 w it k n lm' q'); try done; [unfold live; lia| |lia].
  destruct Hres as [(_ & -> & _)|(_ & -> & _)]; done.
Qed.

(** ** Releasing *)

(** Two-phase locking: inside a write unit of work the release of a lock that must be held to
    the end is only recorded.  The lock manager is untouched and the caller is told that
    the lock is still held. *)
Theorem unlock_delayed w k it n q :
  locker_ok w -> at_entry (lk_requests (w_lk w)) it (k, n) -> lm_request w it = Some q ->
  inAWriteUnitOfWork (w_lk w) = true -> shouldDelayUnlock (w_lk w) k (rq_mode q) = Some true ->
  (n < rq_recursiveCount q)%nat -> (S n < LockModesCount)%nat ->
  exists w', Locker.unlock w k = Some (w', false) /\ locker_ok w' /\ w_lm w' = w_lm w /\
    at_entry (lk_requests (w_lk w')) it (k, S n).
Proof.
  intros Hok Hat Hq Hw Hd Hn Hmax. unfold Locker.unlock.
  rewrite (find_entry _ k it n (lko_map _ _ Hok) Hat), Hw, (key_entry _ it k n Hat). cbn [mbind option_bind].
  destruct (request_at_entry 0 w it k _ Hok Hat) as (q0 & -> & Hq0 & _ & _ & _ & _).
  rewrite Hq in Hq0. injection Hq0 as <-. cbn [mbind option_bind]. rewrite Hd. cbn [mbind option_bind].
  unfold unlockPending. rewrite (value_entry _ it k _ Hat). cbn [mbind option_bind].
  destruct (set_pending_spec 0 0 w it k n (S n) (lk_numResourcesToUnlockAtEndUnitOfWork (w_lk w) +
    if (n =? 0)%nat then 1 else 0)%nat q) as (m' & Has & Hok' & Hat' & _);
    [done|done|done|lia|unfold one_if; simpl; destruct (n =? 0)%nat; lia|].
  unfold set_unlockPending. destruct (n =? 0)%nat; cbn [lk_requests]; rewrite Has; cbn [mbind option_bind];
    rewrite invariant_bind by (by apply Nat.ltb_lt); eexists; (split; [reflexivity|]).
  - rewrite Nat.add_comm in Hok'. by split_and!.
  - rewrite Nat.add_0_r in Hok'. by split_and!.
Qed.

(** A release that is not delayed gives back one reference.  The answer tells whether it was
    the last one, and exactly then the entry is gone; nothing else held by the locker or
    by other lockers changes, apart from requests that the release lets through. *)
Theorem unlock_immediate w k it n q :
  locker_ok w -> at_entry (lk_requests (w_lk w)) it (k, n) -> lm_request w it = Some q ->
  (inAWriteUnitOfWork (w_lk w) = true -> shouldDelayUnlock (w_lk w) k (rq_mode q) = Some false) ->
  (n < rq_recursiveCount q)%nat ->
  exists w', Locker.unlock w k = Some (w', (rq_recursiveCount q =? 1)%nat) /\ locker_ok w' /\
    entry_step w w' it k 1 n q.
Proof.
  intros Hok Hat Hq Hd Hn.
  assert (Locker.unlock w k = ('(w, b, _) ← unlockImpl w it; Some (w, b))) as ->.
  { destruct (inAWriteUnitOfWork (w_lk w)) eqn:Hw; [|by eapply unlock_now].
    unfold Locker.unlock. rewrite (find_entry _ k it n (lko_map _ _ Hok) Hat), Hw, (key_entry _ it k n Hat).
    cbn [mbind option_bind]. destruct (request_at_entry 0 w it k _ Hok Hat) as (q0 & -> & Hq0 & _).
    rewrite Hq in Hq0. injection Hq0 as <-. cbn [mbind option_bind]. rewrite Hd by done.
    cbn [mbind option_bind]. destruct Hat as (e & He & _). by rewrite (finished_false _ _ e). }
  destruct (unlockImpl_spec 0 w it k n q Hok Hat Hq Hn) as (w' & it' & q' & -> & Hok' & Hrel & Hq' & Hc & _).
  exists w'. split_and!; [done|done|]. eapply released_step; eauto.
Qed.

(** [C20] Leaving the outermost write unit of work carries out every delayed unlock and nothing
    else: each entry loses as many references as it had delayed unlocks, disappears when
    none is left, and afterwards no entry has a delayed unlock.  Leaving an inner one
    only lowers the nesting level. *)
Theorem endWriteUnitOfWork_releases w :
  locker_ok w -> (0 < lk_wuowNestingLevel (w_lk w))%nat ->
  exists w', endWriteUnitOfWork w = Some w' /\ locker_ok w' /\
    lk_wuowNestingLevel (w_lk w') = pred (lk_wuowNestingLevel (w_lk w)) /\
    if (lk_wuowNestingLevel (w_lk w) =? 1)%nat
    then lk_numResourcesToUnlockAtEndUnitOfWork (w_lk w') = 0%nat /\
      (forall it k n q, at_entry (lk_requests (w_lk w)) it (k, n) -> lm_request w it = Some q ->
         entry_released w w' it k n q) /\
      (forall x, (forall it kv, at_entry (lk_requests (w_lk w)) it kv -> x <> request_ptr w it) ->
         kept_at x (lm_requests (w_lm w)) (lm_requests (w_lm w')))
    else w_lm w' = w_lm w /\ lk_requests (w_lk w') = lk_requests (w_lk w).
Proof.
  intros Hok Hpos. unfold endWriteUnitOfWork. rewrite invariant_bind by by apply Nat.ltb_lt.
  cbn [lk_wuowNestingLevel]. set (w1 := with_lk w _).
  assert (locker_ok w1) as Hok1 by (destruct Hok; by split).
  destruct (Nat.eqb_spec (lk_wuowNestingLevel (w_lk w)) 1) as [E1|N1].
  - assert ((0 <? pred (lk_wuowNestingLevel (w_lk w)))%nat = false) as -> by by rewrite E1.
    destruct (begin_spec (lk_requests (w_lk w))) as (Hle & _ & Hcur).
    destruct (release_from_spec (S (length (slots (w_lk w)))) w1 (begin (lk_requests (w_lk w)))) as
      (w' & Hrun & Hok' & Hz & []); [simpl; lia|done|done|unfold inAWriteUnitOfWork; simpl; by rewrite E1| |done|].
    + intros it k n (e & He & Hu & _) Hlt.
      unfold begin, scan_from in Hlt. rewrite drop_0 in Hlt.
      destruct (scan_spec inUse (slots (w_lk w))) as (Hsc & _). rewrite (Hsc it e) in Hu by done. done.
    + exists w'. split_and!; [done|done| |done|done|done]. rewrite ar_wuow. done.
  - assert ((0 <? pred (lk_wuowNestingLevel (w_lk w)))%nat = true) as -> by (apply Nat.ltb_lt; lia).
    exists w1. by split_and!.
Qed.

(** ** Queries *)

(** The request of an entry waits for a grant. *)
Definition entry_waits (w : World) (it : nat) : Prop :=
  exists q, lm_request w it = Some q /\ (rq_status q = STATUS_WAITING \/ rq_status q = STATUS_CONVERTING).

Lemma waiting_from_spec w fuel : forall it,
  locker_ok w -> (length (slots (w_lk w)) < it + fuel)%nat -> (it <= length (slots (w_lk w)))%nat ->
  (finished (lk_requests (w_lk w)) it = false -> exists kv, at_entry (lk_requests (w_lk w)) it kv) ->
  exists r, waiting_from fuel w it = Some r /\
    ((exists it' n, (it <= it')%nat /\ at_entry (lk_requests (w_lk w)) it' (r, n) /\ entry_waits w it') \/
     (r = ResourceId_default /\ forall it' kv, (it <= it')%nat ->
        at_entry (lk_requests (w_lk w)) it' kv -> ~ entry_waits w it')).
Proof.
  induction fuel as [|fuel IH]; intros it Hok Hfuel Hle Hcur; [lia|]. cbn [waiting_from].
  destruct (finished (lk_requests (w_lk w)) it) eqn:Hf.
  { exists ResourceId_default. split; [done|]. right. split; [done|]. intros it' kv Hge (e & He & _).
    apply Nat.eqb_eq in Hf. apply lookup_lt_Some in He. lia. }
  destruct (Hcur eq_refl) as ([k n] & Hat).
  destruct (request_at_entry 0 w it k n Hok Hat) as (q & -> & Hq & _). cbn [mbind option_bind].
  destruct (bool_decide (rq_status q = STATUS_WAITING) || bool_decide (rq_status q = STATUS_CONVERTING)) eqn:Ew.
  { exists k. split; [by eapply key_entry|]. left. exists it, n. split_and!; [done|done|]. exists q.
    split; [done|]. apply orb_true_iff in Ew as [?%bool_decide_eq_true|?%bool_decide_eq_true]; auto. }
  assert (it < length (slots (w_lk w)))%nat as Hlt by (destruct Hat as (?&He&_); by eapply lookup_lt_Some).
  destruct (next_spec (lk_requests (w_lk w)) it Hlt) as (it1 & -> & H1 & H2 & H3 & H4).
  cbn [mbind option_bind]. destruct (IH it1) as (r & Hrun & Hr); [done|lia|done|done|].
  exists r. split; [done|]. destruct Hr as [(it' & n' & Hge & Hr)|[-> Hno]].
  - left. exists it', n'. split; [lia|done].
  - right. split; [done|]. intros it' kv Hge Hat'. destruct (decide (it1 <= it')%nat); [by eapply Hno|].
    destruct (decide (it' = it)) as [->|Hne].
    + intros (q' & Hq' & Hw). rewrite Hq in Hq'. injection Hq' as <-.
      apply orb_false_iff in Ew as [?%bool_decide_eq_false ?%bool_decide_eq_false]. tauto.
    + destruct Hat' as (e & He & Hu & _). rewrite (H3 it' e) in Hu by (done || lia). done.
Qed.

(** The queries of a locker answer from its requests: [getLockMode] is the mode of the entry
    or [MODE_NONE], and [getWaitingResource] names a resource the locker waits for, or the
    default resource id when it waits for none. *)
Theorem locker_queries w k :
  locker_ok w ->
  (forall it n q, at_entry (lk_requests (w_lk w)) it (k, n) -> lm_request w it = Some q ->
     getLockMode w k = Some (rq_mode q) /\
     (forall m, isLockHeldForMode w k m = Some (isModeCovered m (rq_mode q)))) /\
  (k ∉ (entries (lk_requests (w_lk w))).*1 -> getLockMode w k = Some MODE_NONE) /\
  (exists r, getWaitingResource w = Some r /\
     ((exists it n, at_entry (lk_requests (w_lk w)) it (r, n) /\ entry_waits w it) \/
      (r = ResourceId_default /\
       forall it kv, at_entry (lk_requests (w_lk w)) it kv -> ~ entry_waits w it))).
Proof.
  intros Hok. split_and!.
  - intros it n q Hat Hq. assert (getLockMode w k = Some (rq_mode q)) as Hg.
    { unfold getLockMode. rewrite (find_entry _ k it n (lko_map _ _ Hok) Hat).
      destruct (request_at_entry 0 w it k n Hok Hat) as (q' & -> & Hq' & _).
      rewrite Hq in Hq'. injection Hq' as <-. destruct Hat as (e & He & _). by rewrite (finished_false _ it e). }
    split; [done|]. intros m. unfold isLockHeldForMode. by rewrite Hg.
  - intros Hk. unfold getLockMode. destruct (find_spec (lk_requests (w_lk w)) k) as [Hf _].
    by rewrite (proj2 Hf Hk).
  - destruct (begin_spec (lk_requests (w_lk w))) as (Hle & _ & Hcur).
    destruct (waiting_from_spec w (S (length (slots (w_lk w)))) (begin (lk_requests (w_lk w))))
      as (r & Hrun & Hr); [done|lia|done|done|]. exists r. split; [done|].
    destruct Hr as [(it & n & _ & Hr)|[-> Hno]]; [left; by exists it, n|right].
    split; [done|]. intros it kv Hat. apply (Hno it kv); [|done].
    destruct (decide (begin (lk_requests (w_lk w)) <= it)%nat) as [|Hlt]; [done|].
    destruct Hat as (e & He & Hu & _). unfold begin, scan_from in Hlt. rewrite drop_0 in Hlt.
    destruct (scan_spec inUse (slots (w_lk w))) as (Hsc & _). rewrite (Hsc it e) in Hu by (done || lia). done.
Qed.

(** ** Concrete runs *)

(** A new locker has no entries; the slots of its map hold no live request. *)
Lemma locker_ok_new_locker lm id t ws ts :
  lm_inv lm -> (forall (j : nat) q, lm_requests lm !! encode (id, j) = Some q -> rq_recursiveCount q = 0%nat) ->
  locker_ok (mkWorld lm (LockerImpl_new id) t ws ts).
Proof.
  intros Hi Hf. split; simpl; try done.
  - split; [done|]. apply NoDup_nil_2.
  - intros it k n (e & He & _). done.
  - intros j _. destruct (lm_requests lm !! _) eqn:E; [by eapply Hf|done].
  - intros H. by apply not_elem_of_nil in H.
Qed.

Definition db1 : ResourceId := fullHash RESOURCE_DATABASE 1.

(** A locker that holds a database in [MODE_IX], then enters a write unit of work, delays the
    unlock. *)
Definition locker0 : World :=
  mkWorld LockManager_new (LockerImpl_new 7) (mkTickets None None) [] [].
Definition world_of {A} (w : World) (o : option (World * A)) : World := from_option fst w o.
Definition locker1 : World := world_of locker0 (lockBegin locker0 None db1 MODE_IX).
Definition locker2 : World := beginWriteUnitOfWork locker1.
Definition locker3 : World := world_of locker2 (Locker.unlock locker2 db1).

Lemma locker0_ok : locker_ok locker0.
Proof. apply locker_ok_new_locker; [apply lm_inv_new|]. intros j q. simpl. by rewrite lookup_empty. Qed.

Lemma locker1_ok : locker_ok locker1.
Proof.
  destruct (lockBegin_new locker0 None db1 MODE_IX) as (w' & lr & it & q & Hrun & Hok & _);
    [apply locker0_ok|apply not_elem_of_nil|done|done|].
  unfold locker1. rewrite Hrun. exact Hok.
Qed.

Lemma locker2_ok : locker_ok locker2.
Proof. destruct locker1_ok. by split. Qed.

Definition db1_request : LockRequest := default (initNew 7 1) (lm_request locker2 0).

Lemma locker2_entry : at_entry (lk_requests (w_lk locker2)) 0 (db1, 0%nat) /\
  lm_request locker2 0 = Some db1_request /\ rq_mode db1_request = MODE_IX /\
  rq_recursiveCount db1_request = 1%nat /\ rq_status db1_request = STATUS_GRANTED /\
  inAWriteUnitOfWork (w_lk locker2) = true.
Proof. split; [|by vm_compute]. eexists. split; [reflexivity|]. by vm_compute. Qed.

Lemma locker3_ok : locker_ok locker3.
Proof.
  destruct locker2_entry as (Hat & Hq & _ & Hc & _).
  destruct (set_pending_spec 0 0 locker2 0 db1 0 1 1 db1_request) as (m' & Has & Hok & _);
    [apply locker2_ok|done|done|by rewrite Hc|done|].
  assert (m' = lk_requests (w_lk locker3)) as -> by (vm_compute in Has |- *; congruence).
  exact Hok.
Qed.

Lemma locker3_entry : at_entry (lk_requests (w_lk locker3)) 0 (db1, 1%nat) /\
  lm_request locker3 0 = Some db1_request.
Proof. split; [|by vm_compute]. eexists. split; [reflexivity|]. by vm_compute. Qed.

Lemma lockBegin_new_request_witness :
  exists w' out, lockBegin locker0 None db1 MODE_IX = Some (w', out) /\ locker_ok w'.
Proof.
  destruct (lockBegin_new_request locker0 None db1 MODE_IX) as (w' & out & Hrun & Hok & _);
    [apply locker0_ok|apply not_elem_of_nil|done|done|]. exists w', out. split; assumption.
Defined.

Lemma lockBegin_cancels_unlock_witness :
  exists w', lockBegin locker3 None db1 MODE_IS = Some (w', Returned LOCK_OK) /\ w_lm w' = w_lm locker3.
Proof.
  destruct locker3_entry as (Hat & Hq).
  destruct (lockBegin_cancels_unlock locker3 None db1 MODE_IS 0 0 db1_request) as (w' & Hrun & _ & Hlm & _);
    [apply locker3_ok|exact Hat|exact Hq|reflexivity|]. exists w'. split; assumption.
Defined.

Lemma lockBegin_converts_witness :
  exists w' lr, lockBegin locker2 None db1 MODE_X = Some (w', Returned lr) /\ locker_ok w'.
Proof.
  destruct locker2_entry as (Hat & Hq & Hm & _ & Hs & _).
  destruct (lockBegin_converts locker2 db1 MODE_X 0 0 db1_request) as (w' & lr & q' & Hrun & Hok & _);
    [apply locker2_ok|exact Hat|exact Hq|exact Hs|reflexivity|right; rewrite Hm; split; reflexivity|]. exists w', lr. split; assumption.
Defined.

Lemma unlock_delayed_witness :
  exists w', Locker.unlock locker2 db1 = Some (w', false) /\ w_lm w' = w_lm locker2.
Proof.
  destruct locker2_entry as (Hat & Hq & Hm & Hc & _ & Hw).
  destruct (unlock_delayed locker2 db1 0 0 db1_request) as (w' & Hrun & _ & Hlm & _);
    [apply locker2_ok|exact Hat|exact Hq|exact Hw|rewrite Hm; reflexivity|rewrite Hc; lia|unfold LockModesCount; lia|]. exists w'. split; assumption.
Defined.

Lemma unlock_immediate_witness :
  exists w', Locker.unlock locker1 db1 = Some (w', true) /\ locker_ok w'.
Proof.
  destruct locker2_entry as (Hat & Hq & Hm & Hc & _).
  destruct (unlock_immediate locker1 db1 0 0 db1_request) as (w' & Hrun & Hok & _);
    [apply locker1_ok|exact Hat|exact Hq|discriminate|rewrite Hc; lia|].
  exists w'. rewrite Hc in Hrun. split; assumption.
Defined.

Lemma endWriteUnitOfWork_releases_witness :
  exists w', endWriteUnitOfWork locker3 = Some w' /\
    lk_numResourcesToUnlockAtEndUnitOfWork (w_lk w') = 0%nat.
Proof.
  assert ((lk_wuowNestingLevel (w_lk locker3) =? 1)%nat = true) as E by (vm_compute; reflexivity).
  assert (0 < lk_wuowNestingLevel (w_lk locker3))%nat as Hpos by (vm_compute; lia).
  destruct (endWriteUnitOfWork_releases locker3 locker3_ok Hpos) as (w' & Hrun & _ & _ & Hif).
  rewrite E in Hif. exists w'. split; [exact Hrun|exact (proj1 Hif)].
Defined.

Lemma locker_queries_witness : getLockMode locker1 db1 = Some (rq_mode db1_request).
Proof.
  destruct locker2_entry as (Hat & Hq & _).
  exact (proj1 (proj1 (locker_queries locker1 db1 locker1_ok) 0%nat 0%nat db1_request Hat Hq)).
Defined.

(** ** Upgrading the global lock *)

(** Locker 8 takes the global lock in [MODE_S]; locker 7 takes it in [MODE_IS] and then in
    [MODE_S]; locker 8 releases it, and locker 7 releases its two references.  The result
    is the answer to the last release. *)
Definition upgrade_run (upgrade : LockMode) : option (option bool) :=
  let w := mkWorld LockManager_new (LockerImpl_new 8) (mkTickets None None) [] [] in
  '(w, _) ← lockGlobal w None MODE_S;
  let locker8 := w_lk w in
  '(w, _) ← lockGlobal (with_lk w (LockerImpl_new 7)) None MODE_IS;
  '(w, _) ← lockGlobal w None upgrade;
  let locker7 := w_lk w in
  '(w, _) ← unlockGlobal (with_lk w locker8);
  '(w, _) ← unlockGlobal (with_lk w locker7);
  Some (snd <$> unlockGlobal w).

