(* ===== verification/RadixNode.v ===== *)
(** * The nodes of the radix store

    [RadixStore] of [db/storage/biggie/store.h] is a path-compressed trie whose nodes are
    shared between copies of a store through [std::shared_ptr].  This file holds the nodes,
    the memory they live in, the reference counts that decide between updating a node in
    place and copying it, and the helpers on single nodes: [_comparePrefix], [_makeKey],
    [_addChild] and [_compressOnlyChild].

    Keys and values are [std::string]s, lists of bytes.  A pointer [charKey + depth] with the
    length [key.size() - depth] is the suffix of the key that it points to; the byte behind
    the last one is the terminator of [std::string::data], so that [charKey[depth]] is
    [char_at] of the suffix.  [None] is undefined behaviour: a null or dangling pointer, an
    empty [boost::optional] or the front of an empty vector. *)

From Stdlib Require Import ZArith Lia.
From stdpp Require Import prelude gmap.
From S2P Require Import Prelude.

Open Scope Z_scope.

(** ** Machine integers *)

Definition size_t (z : Z) : Z := z mod 2 ^ 64.

Definition to_int (z : Z) : Z := (z + 2 ^ 31) mod 2 ^ 32 - 2 ^ 31.

Definition uint8_t (z : Z) : Z := z mod 256.

(** A byte read through [const char*], which is signed. *)
Definition signed_char (b : Z) : Z := if b <? 128 then b else b - 256.

(** ** Keys and values *)

Abbreviation Key := (list Z) (only parsing).

Abbreviation value_type := (list Z * list Z)%type (only parsing).

Definition string_size (s : list Z) : Z := size_t (Z.of_nat (length s)).

Definition char_at (rest : list Z) : Z := hd 0 rest.

(** ** Nodes and memory

    [children] has the non-null entries of the array. *)

Abbreviation loc := positive (only parsing).

Record Node := mkNode {
  trieKey : list Z;
  data : option (list Z * list Z);
  children : gmap Z positive;
  _numSubtreeElems : Z;
  _sizeSubtreeElems : Z;
}.

Abbreviation memory := (gmap positive Node) (only parsing).

(** The children in the order of the array, from index [from] on. *)
Definition children_from (nd : Node) (from : Z) : list positive :=
  omap (fun i => children nd !! i) (seqZ from (256 - from)).

(** The children below index [to], from right to left. *)
Definition children_below (nd : Node) (to : Z) : list positive :=
  omap (fun i => children nd !! i) (reverse (seqZ 0 to)).

Definition isLeaf (nd : Node) : bool :=
  match children_from nd 0 with [] => true | _ => false end.

Definition next_loc (H : memory) : positive := Pos.succ (foldr Pos.max 1%positive (map_to_list H).*1).

Definition make_shared (H : memory) (nd : Node) : positive * memory := (next_loc H, <[next_loc H := nd]> H).

Definition set_child (H : memory) (l : positive) (i : Z) (child : option positive) : option memory :=
  nd ← H !! l;
  Some (<[l := {| nd with children := partial_alter (fun _ => child) i (children nd) |}]> H).

Definition add_counts (num size : Z) (nd : Node) : Node :=
  {| nd with _numSubtreeElems := size_t (_numSubtreeElems nd + num);
             _sizeSubtreeElems := size_t (_sizeSubtreeElems nd + size) |}.

Definition modify (H : memory) (l : positive) (f : Node -> Node) : option memory :=
  nd ← H !! l; Some (<[l := f nd]> H).

(** ** Reference counts

    Every pointer to a node is an entry of a child array of a live node, or is held outside
    of the nodes: by a store, by an iterator or by a local variable. *)

Definition edges (H : memory) : list (positive * Z * positive) :=
  map_to_list H ≫= fun '(x, nd) => (fun '(c, l) => (x, c, l)) <$> map_to_list (children nd).

Definition use_count (H : memory) (held : list positive) (l : positive) : nat :=
  (length (filter (fun e => e.2 = l) (edges H)) + length (filter (fun x => x = l) held))%nat.

(** A node is destroyed with its last pointer, and its own pointers with it. *)
Definition sweep (held : list positive) (H : memory) : memory :=
  filter (fun '(l, _) => use_count H held l <> 0%nat) H.

Definition release (H : memory) (held : list positive) : memory := Nat.iter (size H) (sweep held) H.

(** ** Helpers on keys *)

Fixpoint _comparePrefix (key1 key2 : list Z) : nat :=
  match key1, key2 with
  | b1 :: key1, b2 :: key2 => if b1 =? b2 then S (_comparePrefix key1 key2) else 0
  | _, _ => 0
  end.

(** [_makeKey (old, count)] and [_makeKey (old, pos, count)]. *)
Definition _makeKey (old : list Z) (pos count : nat) : list Z := take count (drop pos old).

(** ** Helpers on nodes *)

Definition _addChild (H : memory) (node : positive) (key : list Z) (value : option (list Z * list Z)) :
    option (positive * memory) :=
  front ← head key;
  nd ← H !! node;
  '(num, sz) ← match children nd !! front with
               | Some c => cnd ← H !! c; Some (_numSubtreeElems cnd, _sizeSubtreeElems cnd)
               | None => Some (match value with Some v => (1, string_size v.2) | None => (0, 0) end)
               end;
  let '(newNode, H) := make_shared H (mkNode key value ∅ num sz) in
  H ← set_child H node front (Some newNode);
  Some (newNode, H).

Definition _compressOnlyChild (H : memory) (node : positive) : option memory :=
  nd ← H !! node;
  if bool_decide (is_Some (data nd)) || bool_decide (trieKey nd = []) then Some H
  else match children_from nd 0 with
       | [] => None
       | [onlyChild] =>
           cnd ← H !! onlyChild;
           Some (<[node := {| nd with trieKey := trieKey nd ++ trieKey cnd;
                                     data := match data cnd with Some d => Some d | None => data nd end;
                                     children := children cnd |}]> H)
       | _ => Some H
       end.
