(* ===== verification/RadixStore.v ===== *)
(** * The operations of the radix store

    [RadixStore] of [db/storage/biggie/store.h]: lookup, insertion, update and removal with
    copies of shared nodes, the forward and reverse iterators, and the bounds.  A store is
    seen together with the memory that it shares with the other owners of nodes.

    The loops of the source that follow the tree downwards take fuel: the length of the key
    where they follow a key, and the length of the longest stored key where they follow the
    outermost branch. *)

From Stdlib Require Import ZArith Lia.
From stdpp Require Import prelude gmap.
From S2P Require Import Prelude RadixNode.

Open Scope Z_scope.

(** [others] are the pointers of other stores and of iterators into the memory. *)
Record RadixStore := mkStore {
  nodes : gmap positive Node;
  others : list positive;
  _root : positive;
}.

Definition held (s : RadixStore) (locals : list positive) : list positive := _root s :: others s ++ locals.

Definition count_pointers (s : RadixStore) (locals : list positive) (l : positive) : Z :=
  Z.of_nat (use_count (nodes s) (held s locals) l).

Definition with_nodes (s : RadixStore) (H : gmap positive Node) : RadixStore := mkStore H (others s) (_root s).

(** The end of a modification: what nobody points to any more is destroyed. *)
Definition settle (s : RadixStore) : RadixStore := with_nodes s (release (nodes s) (held s [])).

Definition empty_node : Node := mkNode [] None ∅ 0 0.

(** [RadixStore()] and [clear()]. *)
Definition RadixStore_clear (s : RadixStore) : RadixStore :=
  let '(l, H) := make_shared (nodes s) empty_node in settle (mkStore H (others s) l).

Definition RadixStore_size (s : RadixStore) : option Z := nd ← nodes s !! _root s; Some (_numSubtreeElems nd).

Definition RadixStore_empty (s : RadixStore) : option bool := n ← RadixStore_size s; Some (n =? 0).

Definition RadixStore_dataSize (s : RadixStore) : option Z := nd ← nodes s !! _root s; Some (_sizeSubtreeElems nd).

(** ** Lookup *)

(** The bytes of the root's own key, which is not empty for a subtree. *)
Inductive root_match := RootDiffers | RootIsIt | BelowRoot (rest : list Z).

Fixpoint match_root (key rest : list Z) : root_match :=
  match key with
  | [] => BelowRoot rest
  | b :: key =>
      if signed_char (char_at rest) =? b
      then match tl rest with [] => RootIsIt | rest => match_root key rest end
      else RootDiffers
  end.

Fixpoint find_below (fuel : nat) (H : gmap positive Node) (node : option positive) (rest : list Z) :
    option (option positive) :=
  match fuel, node with
  | O, _ => None
  | S _, None => Some None
  | S fuel, Some n =>
      nd ← H !! n;
      let mismatchIdx := _comparePrefix (trieKey nd) rest in
      if negb (mismatchIdx =? length (trieKey nd))%nat then Some None
      else if (mismatchIdx =? length rest)%nat && bool_decide (is_Some (data nd)) then Some (Some n)
      else
        let rest := drop (length (trieKey nd)) rest in
        find_below fuel H (children nd !! char_at rest) rest
  end.

Definition findNode_in (H : gmap positive Node) (root : positive) (key : list Z) : option (option positive) :=
  nd ← H !! root;
  match match_root (trieKey nd) key with
  | RootDiffers => Some None
  | RootIsIt => Some (Some root)
  | BelowRoot rest => find_below (S (S (length key))) H (children nd !! char_at rest) rest
  end.

Definition _findNode (s : RadixStore) (key : list Z) : option (option positive) :=
  findNode_in (nodes s) (_root s) key.

(** ** Iterators *)

Record iterator := mkIter { it_root : positive; it_current : option positive }.

Definition RadixStore_end (s : RadixStore) : iterator := mkIter (_root s) None.

Definition RadixStore_find (s : RadixStore) (key : list Z) : option iterator :=
  n ← _findNode s key; Some (mkIter (_root s) n).

(** [operator*]: undefined at the end. *)
Definition deref (H : gmap positive Node) (it : iterator) : option (list Z * list Z) :=
  n ← it_current it; nd ← H !! n; data nd.

(** ** Insertion, update and removal of the data of a node *)

(** What [_upsertWithCopyOnSharedNodes] adds to the counters on its way. *)
Definition upsert_counts (value : option (list Z * list Z)) (sizeDiff : Z) : option (Z * Z) :=
  if 0 <? sizeDiff then v ← value; Some (0, to_int (string_size v.2 - sizeDiff))
  else match value with
       | None => Some (-1, sizeDiff)
       | Some v => if sizeDiff <? 0 then Some (-1, sizeDiff) else Some (1, to_int (string_size v.2))
       end.

(** Copy [node] below [prev] when others point to it. *)
Definition own_child (s : RadixStore) (locals : list positive) (prev node old : positive) :
    option (positive * gmap positive Node) :=
  if 3 <? count_pointers s (locals ++ [prev; node; old]) node then
    nd ← nodes s !! old;
    front ← head (trieKey nd);
    let '(node, H) := make_shared (nodes s) nd in
    H ← set_child H prev front (Some node);
    Some (node, H)
  else Some (node, nodes s).

(** The key leaves [node] in the middle of its [trieKey]: a new node takes the common part. *)
Definition split_node (H : gmap positive Node) (prev node : positive) (nd : Node) (mismatchIdx : nat)
    (rest : list Z) (value : option (list Z * list Z)) : option (positive * gmap positive Node) :=
  '(newNode, H) ← _addChild H prev (_makeKey (trieKey nd) 0 mismatchIdx) None;
  let rest := drop mismatchIdx rest in
  v ← value;
  '(it, H) ← (if negb (length rest =? 0)%nat then
                '(newChild, H) ← _addChild H newNode (_makeKey rest 0 (length rest)) value;
                H ← modify H newNode (add_counts 1 (string_size v.2));
                Some (newChild, H)
              else
                H ← modify H newNode (fun n => add_counts 1 (string_size v.2) {| n with data := Some v |});
                Some (newNode, H));
  let newKey := _makeKey (trieKey nd) mismatchIdx (length (trieKey nd) - mismatchIdx) in
  front ← head newKey;
  H ← set_child H newNode front (Some node);
  H ← modify H node (fun n => {| n with trieKey := newKey |});
  Some (it, H).

Fixpoint upsert_below (fuel : nat) (s : RadixStore) (locals : list positive) (rest : list Z)
    (value : option (list Z * list Z)) (elemNum elemSize : Z) (prev : positive) (node old : option positive) :
    option (positive * RadixStore) :=
  match fuel, node with
  | O, _ => None
  | S _, None =>
      '(newNode, H) ← _addChild (nodes s) prev (_makeKey rest 0 (length rest)) value;
      Some (newNode, with_nodes s H)
  | S fuel, Some n =>
      o ← old;
      '(n, H) ← own_child s locals prev n o;
      nd ← H !! n;
      let mismatchIdx := _comparePrefix (trieKey nd) rest in
      if negb (mismatchIdx =? length (trieKey nd))%nat then
        '(it, H) ← split_node H prev n nd mismatchIdx rest value;
        Some (it, with_nodes s H)
      else if (mismatchIdx =? length rest)%nat then
        H ← match value with
            | None => H ← modify H n (fun n => {| n with data := None |}); _compressOnlyChild H n
            | Some v => modify H n (fun n => {| n with data := Some v |})
            end;
        H ← modify H n (add_counts elemNum elemSize);
        Some (n, with_nodes s H)
      else
        H ← modify H n (add_counts elemNum elemSize);
        let rest := drop (length (trieKey nd)) rest in
        ond ← H !! o;
        upsert_below fuel (with_nodes s H) locals rest value elemNum elemSize n
          (children nd !! char_at rest) (children ond !! char_at rest)
  end.

(** The root becomes the store's own. *)
Definition own_root (s : RadixStore) (locals : list positive) : option RadixStore :=
  if 1 <? count_pointers s locals (_root s) then
    nd ← nodes s !! _root s;
    let '(l, H) := make_shared (nodes s) nd in
    Some (mkStore H (others s) l)
  else Some s.

Definition _upsertWithCopyOnSharedNodes (s : RadixStore) (locals : list positive) (key : list Z)
    (value : option (list Z * list Z)) (sizeDiff : Z) : option (iterator * RadixStore) :=
  '(elemNum, elemSize) ← upsert_counts value sizeDiff;
  rnd ← nodes s !! _root s;
  let node := children rnd !! char_at key in
  s ← own_root s locals;
  H ← modify (nodes s) (_root s) (add_counts elemNum elemSize);
  '(n, s) ← upsert_below (S (length key)) (with_nodes s H) locals key value elemNum elemSize (_root s) node node;
  Some (mkIter (_root s) (Some n), settle s).

Definition RadixStore_insert (s : RadixStore) (value : list Z * list Z) : option (iterator * bool * RadixStore) :=
  item ← _findNode s value.1;
  if bool_decide (is_Some item) || (length value.1 =? 0)%nat then Some (RadixStore_end s, false, s)
  else
    '(it, s) ← _upsertWithCopyOnSharedNodes s [] value.1 (Some value) 0;
    Some (it, true, s).

(** [item] keeps the old root alive. *)
Definition RadixStore_update (s : RadixStore) (value : list Z * list Z) : option (iterator * bool * RadixStore) :=
  item ← RadixStore_find s value.1;
  if bool_decide (it_current item = None) then Some (item, false, s)
  else
    d ← deref (nodes s) item;
    '(it, s) ← _upsertWithCopyOnSharedNodes s [it_root item] value.1 (Some value) (to_int (string_size d.2));
    Some (it, true, s).

(** ** Removal *)

(** The path to the key, deepest node first, with whether the path so far is unshared. *)
Fixpoint erase_path (fuel : nat) (s : RadixStore) (node : positive) (isUniquelyOwned : bool) (rest : list Z)
    (context : list (positive * bool)) : option (option (list (positive * bool))) :=
  match fuel, rest with
  | _, [] => Some (Some context)
  | O, _ => None
  | S fuel, c :: _ =>
      nd ← nodes s !! node;
      match children nd !! c with
      | None => Some None
      | Some n =>
          cnd ← nodes s !! n;
          if negb (_comparePrefix (trieKey cnd) rest =? length (trieKey cnd))%nat then Some None
          else
            let isUniquelyOwned := isUniquelyOwned && (count_pointers s [n] n - 1 =? 1) in
            erase_path fuel s n isUniquelyOwned (drop (length (trieKey cnd)) rest) ((n, isUniquelyOwned) :: context)
      end
  end.

Fixpoint decrement (H : gmap positive Node) (context : list (positive * bool)) (sz : Z) : option (gmap positive Node) :=
  match context with
  | [] => Some H
  | (l, _) :: context => H ← modify H l (add_counts (-1) (- sz)); decrement H context sz
  end.

(** Copies of the rest of the branch, which lead to [child] instead of [last]. *)
Fixpoint copy_branch (H : gmap positive Node) (context : list (positive * bool)) (last child : positive) (sz : Z) :
    option (positive * gmap positive Node) :=
  match context with
  | [] => Some (child, H)
  | (l, _) :: context =>
      lnd ← H !! last;
      firstChar ← head (trieKey lnd);
      nd ← H !! l;
      let '(node, H) := make_shared H (add_counts (-1) (- sz) nd) in
      H ← set_child H node firstChar (Some child);
      copy_branch H context l node sz
  end.

(** The removal of a leaf [deleted] below [last]. *)
Definition erase_leaf (s : RadixStore) (deleted last : positive) (isUniquelyOwned : bool)
    (context : list (positive * bool)) (sz : Z) : option RadixStore :=
  dnd ← nodes s !! deleted;
  firstChar ← head (trieKey dnd);
  if isUniquelyOwned then
    H ← set_child (nodes s) last firstChar None;
    H ← modify H last (add_counts (-1) (- sz));
    H ← _compressOnlyChild H last;
    H ← decrement H context sz;
    Some (with_nodes s H)
  else
    lnd ← nodes s !! last;
    let '(child, H) := make_shared (nodes s) (add_counts (-1) (- sz) lnd) in
    H ← set_child H child firstChar None;
    H ← _compressOnlyChild H child;
    '(root, H) ← copy_branch H context last child sz;
    Some (mkStore H (others s) root).

(** The local pointer of [erase] to the removed node lives on while it is called. *)
Definition RadixStore_erase (s : RadixStore) (key : list Z) : option (Z * RadixStore) :=
  let isUniquelyOwned := count_pointers s [_root s] (_root s) - 1 =? 1 in
  path ← erase_path (length key) s (_root s) isUniquelyOwned key [(_root s, isUniquelyOwned)];
  match path with
  | None => Some (0, s)
  | Some [] => None
  | Some ((deleted, _) :: context) =>
      dnd ← nodes s !! deleted;
      d ← data dnd;
      let sizeOfRemovedNode := string_size d.2 in
      match context with
      | [] => None
      | (last, isUniquelyOwned) :: context =>
          if isLeaf dnd then
            s ← erase_leaf s deleted last isUniquelyOwned context sizeOfRemovedNode;
            Some (1, settle s)
          else
            '(_, s) ← _upsertWithCopyOnSharedNodes s [deleted] key None (to_int (- sizeOfRemovedNode));
            Some (1, s)
      end
  end.
