(* ===== verification/RadixIterator.v ===== *)
(** * Iterators and bounds of the radix store

    The forward and the reverse iterators of [db/storage/biggie/store.h], [begin], [rbegin],
    [lower_bound], [upper_bound], the comparison of stores and [distance].  An iterator keeps
    the root that it was made for, and finds its way from there with the key of its node. *)

From Stdlib Require Import ZArith Lia.
From stdpp Require Import prelude gmap.
From S2P Require Import Prelude RadixNode RadixStore.

Open Scope Z_scope.

Definition data_length (nd : Node) : nat := match data nd with Some d => length d.1 | None => 0%nat end.

(** The length of the longest key in memory bounds the depth of every branch. *)
Definition branch_fuel (H : gmap positive Node) : nat :=
  S (foldr Nat.max 0%nat (data_length <$> (map_to_list H).*2)).

(** ** Outermost nodes of a subtree *)

(** One round of the loops that go down and left: the first child, if there is one. *)
Definition first_child (nd : Node) (node : positive) : positive :=
  match children_from nd 0 with c :: _ => c | [] => node end.

(** Down and left until there is data: the loop of [_begin] and of [lower_bound]. *)
Fixpoint leftmost (fuel : nat) (H : gmap positive Node) (node : positive) : option positive :=
  match fuel with
  | O => None
  | S fuel =>
      nd ← H !! node;
      if bool_decide (is_Some (data nd)) then Some node else leftmost fuel H (first_child nd node)
  end.

Definition _traverseLeftSubtree (H : gmap positive Node) (current : positive) : option positive :=
  nd ← H !! current; leftmost (branch_fuel H) H (first_child nd current).

Definition last_child (nd : Node) (node : positive) : positive :=
  match children_below nd 256 with c :: _ => c | [] => node end.

(** Down and right to a leaf: the loop of [rbegin]. *)
Fixpoint rightmost (fuel : nat) (H : gmap positive Node) (node : positive) : option positive :=
  match fuel with
  | O => None
  | S fuel => nd ← H !! node; if isLeaf nd then Some node else rightmost fuel H (last_child nd node)
  end.

Definition _traverseRightSubtree (H : gmap positive Node) (current : positive) : option positive :=
  nd ← H !! current; rightmost (branch_fuel H) H (last_child nd current).

(** ** The way from the root *)

Fixpoint context_below (fuel : nat) (H : gmap positive Node) (node : positive) (rest : list Z) (context : list positive) :
    option (list positive) :=
  match fuel, rest with
  | _, [] => Some context
  | O, _ => None
  | S fuel, c :: _ =>
      nd ← H !! node;
      n ← children nd !! c;
      cnd ← H !! n;
      context_below fuel H n (drop (length (trieKey cnd)) rest) (n :: context)
  end.

(** Deepest node first. *)
Definition _buildContext (H : gmap positive Node) (key : list Z) (node : positive) : option (list positive) :=
  nd ← H !! node;
  context_below (length key) H node (drop (length (trieKey nd)) key) [node].

(** ** Forward *)

(** Up until there is a sibling to the right. *)
Fixpoint next_above (H : gmap positive Node) (node : positive) (context : list positive) : option (option positive) :=
  match context with
  | [] => Some None
  | parent :: context =>
      nd ← H !! node;
      oldKey ← head (trieKey nd);
      pnd ← H !! parent;
      match children_from pnd (oldKey + 1) with
      | c :: _ =>
          cnd ← H !! c;
          if bool_decide (is_Some (data cnd)) then Some (Some c)
          else c ← _traverseLeftSubtree H c; Some (Some c)
      | [] => next_above H parent context
      end
  end.

Definition _findNext (H : gmap positive Node) (it : iterator) : option iterator :=
  match it_current it with
  | None => Some it
  | Some current =>
      nd ← H !! current;
      if negb (isLeaf nd) then n ← _traverseLeftSubtree H current; Some (mkIter (it_root it) (Some n))
      else
        d ← data nd;
        context ← _buildContext H d.1 (it_root it);
        node ← head context;
        n ← next_above H node (tl context);
        Some (mkIter (it_root it) n)
  end.

Definition RadixStore_begin (s : RadixStore) : option iterator :=
  e ← RadixStore_empty s;
  if (e : bool) then Some (RadixStore_end s)
  else n ← leftmost (branch_fuel (nodes s)) (nodes s) (_root s); Some (mkIter (_root s) (Some n)).

(** ** Reverse *)

Fixpoint next_above_reverse (H : gmap positive Node) (node : positive) (context : list positive) :
    option (option positive) :=
  match context with
  | [] => Some None
  | parent :: context =>
      nd ← H !! node;
      oldKey ← head (trieKey nd);
      pnd ← H !! parent;
      match children_below pnd oldKey with
      | c :: _ =>
          cnd ← H !! c;
          n ← _traverseRightSubtree H c;
          Some (Some n)
      | [] => if bool_decide (is_Some (data pnd)) then Some (Some parent) else next_above_reverse H parent context
      end
  end.

Definition _findNextReverse (H : gmap positive Node) (it : iterator) : option iterator :=
  match it_current it with
  | None => Some it
  | Some current =>
      nd ← H !! current;
      d ← data nd;
      context ← _buildContext H d.1 (it_root it);
      node ← head context;
      n ← next_above_reverse H node (tl context);
      Some (mkIter (it_root it) n)
  end.

(** [reverse_radix_iterator(const const_iterator&)]. *)
Definition reverse_radix_iterator (H : gmap positive Node) (it : iterator) : option iterator :=
  match it_current it with
  | None =>
      rnd ← H !! it_root it;
      if isLeaf rnd then Some it
      else n ← _traverseRightSubtree H (it_root it); Some (mkIter (it_root it) (Some n))
  | Some _ => _findNextReverse H it
  end.

(** [reverse_radix_iterator(const iterator&)], which does not ask whether the tree is empty. *)
Definition reverse_radix_iterator_mutable (H : gmap positive Node) (it : iterator) : option iterator :=
  match it_current it with
  | None => n ← _traverseRightSubtree H (it_root it); Some (mkIter (it_root it) (Some n))
  | Some _ => _findNextReverse H it
  end.

Definition RadixStore_rbegin (s : RadixStore) : option iterator :=
  e ← RadixStore_empty s;
  if (e : bool) then Some (RadixStore_end s)
  else n ← rightmost (branch_fuel (nodes s)) (nodes s) (_root s); Some (mkIter (_root s) (Some n)).

(** ** Bounds *)

(** The way down: the answer itself, or where to search to the right of what. *)
Inductive descent := Found (node : positive) | SearchFrom (context : list positive) (idx : Z).

Fixpoint lower_bound_down (fuel : nat) (H : gmap positive Node) (node : positive) (context : list positive)
    (rest : list Z) : option descent :=
  match fuel, rest with
  | _, [] => nd ← H !! node; Some (if bool_decide (is_Some (data nd)) then Found node else SearchFrom context 0)
  | O, _ => None
  | S fuel, c :: _ =>
      nd ← H !! node;
      match children nd !! c with
      | None => Some (SearchFrom context c)
      | Some n =>
          cnd ← H !! n;
          let mismatchIdx := _comparePrefix (trieKey cnd) rest in
          if (mismatchIdx <? length (trieKey cnd))%nat then
            let mismatchChar := char_at (drop mismatchIdx rest) in
            b ← trieKey cnd !! mismatchIdx;
            if (mismatchIdx =? length rest)%nat || (mismatchChar <? b) then
              Some (if bool_decide (is_Some (data cnd)) then Found n else SearchFrom (n :: context) 0)
            else Some (SearchFrom context (uint8_t (c + 1)))
          else lower_bound_down fuel H n (n :: context) (drop (length (trieKey cnd)) rest)
      end
  end.

Fixpoint lower_bound_up (H : gmap positive Node) (context : list positive) (idx : Z) : option (option positive) :=
  match context with
  | [] => Some None
  | node :: context =>
      nd ← H !! node;
      match children_from nd idx with
      | c :: _ => n ← leftmost (branch_fuel H) H c; Some (Some n)
      | [] => match trieKey nd with
              | [] => Some None
              | front :: _ => lower_bound_up H context (uint8_t (front + 1))
              end
      end
  end.

Definition lower_bound (s : RadixStore) (key : list Z) : option iterator :=
  d ← lower_bound_down (length key) (nodes s) (_root s) [_root s] key;
  match d with
  | Found n => Some (mkIter (_root s) (Some n))
  | SearchFrom context idx => n ← lower_bound_up (nodes s) context idx; Some (mkIter (_root s) n)
  end.

Definition upper_bound (s : RadixStore) (key : list Z) : option iterator :=
  it ← lower_bound s key;
  if bool_decide (it_current it = None) then Some it
  else d ← deref (nodes s) it; if bool_decide (d.1 = key) then _findNext (nodes s) it else Some it.

(** ** Loops over iterators *)

(** [operator==] of iterators compares the nodes. *)
Definition iter_eq (a b : iterator) : bool := bool_decide (it_current a = it_current b).

Fixpoint equal_from (fuel : nat) (H : gmap positive Node) (iter other_iter : iterator) : option bool :=
  match fuel with
  | O => None
  | S fuel =>
      if negb (bool_decide (it_current iter = None)) then
        if bool_decide (it_current other_iter = None) then Some false
        else
          a ← deref H iter;
          b ← deref H other_iter;
          if negb (bool_decide (a = b)) then Some false
          else iter ← _findNext H iter; other_iter ← _findNext H other_iter; equal_from fuel H iter other_iter
      else Some (bool_decide (it_current other_iter = None))
  end.

(** [operator==] of stores; [other] lives in the same memory. *)
Definition RadixStore_eq (s : RadixStore) (other : positive) : option bool :=
  iter ← RadixStore_begin s;
  other_iter ← RadixStore_begin (mkStore (nodes s) (others s) other);
  equal_from (S (size (nodes s))) (nodes s) iter other_iter.

Fixpoint distance_from (fuel : nat) (H : gmap positive Node) (iter1 iter2 : iterator) : option Z :=
  match fuel with
  | O => None
  | S fuel =>
      if iter_eq iter1 iter2 then Some 0
      else iter1 ← _findNext H iter1; n ← distance_from fuel H iter1 iter2; Some (n + 1)
  end.

Definition RadixStore_distance (s : RadixStore) (iter1 iter2 : iterator) : option Z :=
  distance_from (S (size (nodes s))) (nodes s) iter1 iter2.
