(* ===== verification/RadixMerge.v ===== *)
(** * The three-way merge of radix stores

    [merge3] of [db/storage/biggie/store.h] with [_merge3Helper], [_makeBranchUnique] and
    [mergeResolveConflict].  The three stores live in the same memory; whether a branch was
    changed is decided by comparing pointers.  A [merge_conflict_exception] leaves the store
    as far as it was merged. *)

From Stdlib Require Import ZArith Lia.
From stdpp Require Import prelude gmap.
From S2P Require Import Prelude RadixNode RadixStore RadixIterator.

Open Scope Z_scope.

(** ** Computations that may throw *)

Inductive outcome (A : Type) := Returns (a : A) | merge_conflict_exception (s : RadixStore).

Arguments Returns {_} _.
Arguments merge_conflict_exception {_} _.

Definition andThen {A B} (m : option (outcome A)) (f : A -> option (outcome B)) : option (outcome B) :=
  o ← m;
  match o with
  | Returns a => f a
  | merge_conflict_exception s => Some (merge_conflict_exception s)
  end.

Declare Scope merge_scope.
Notation "'let!' x := m 'in' k" := (andThen m (fun x => k)) (at level 200, x pattern, right associativity) : merge_scope.
Open Scope merge_scope.

(** Let the store run an operation while local variables hold pointers. *)
Definition while_holding {A} (locals : list positive) (s : RadixStore) (f : RadixStore -> option (A * RadixStore)) :
    option RadixStore :=
  '(_, s') ← f (mkStore (nodes s) (locals ++ others s) (_root s));
  Some (mkStore (nodes s') (others s) (_root s')).

Definition insert_holding (locals : list positive) (value : list Z * list Z) (s : RadixStore) : option RadixStore :=
  while_holding locals s (fun s => RadixStore_insert s value).

Definition erase_holding (locals : list positive) (key : list Z) (s : RadixStore) : option RadixStore :=
  while_holding locals s (fun s => RadixStore_erase s key).

(** ** [_makeBranchUnique] *)

(** The walk over unshared nodes. *)
Fixpoint skip_unique (s : RadixStore) (context : list positive) (parent node : positive) (unique : bool)
    (path : list positive) : positive * positive * list positive :=
  match path with
  | n :: path' =>
      if unique then skip_unique s context node n (count_pointers s (n :: node :: context) n - 1 =? 1) path'
      else (parent, node, path)
  | [] => (parent, node, [])
  end.

Fixpoint copy_path (H : gmap positive Node) (parent newNode : positive) (path : list positive) :
    option (positive * gmap positive Node * list positive) :=
  match path with
  | [] => Some (newNode, H, [])
  | n :: path =>
      nd ← H !! n;
      front ← head (trieKey nd);
      let '(newNode, H) := make_shared H nd in
      H ← set_child H parent front (Some newNode);
      '(l, H, path) ← copy_path H newNode newNode path;
      Some (l, H, newNode :: path)
  end.

(** The store, the node that it returns and the updated context. *)
Definition _makeBranchUnique (s : RadixStore) (context : list positive) :
    option (RadixStore * positive * list positive) :=
  match context with
  | [] => None
  | node :: path =>
      if negb (count_pointers s (node :: node :: context) node - 1 =? 1) then
        nd ← nodes s !! node;
        let '(root, H) := make_shared (nodes s) nd in
        '(newNode, H, path) ← copy_path H root root path;
        Some (mkStore H (others s) root, newNode, root :: path)
      else
        let '(parent, node, rest) := skip_unique s context node node true path in
        '(newNode, H, rest') ← copy_path (nodes s) parent node rest;
        Some (with_nodes s H, newNode, take (length context - length rest) context ++ rest')
  end.

(** ** [mergeResolveConflict] *)

Section resolve.

Context (locals : list positive) (baseNode otherNode : positive).

(** [*find(key)] in the store with the given root. *)
Definition find_value (H : gmap positive Node) (root : positive) (key : list Z) : option (option (list Z * list Z)) :=
  n ← findNode_in H root key;
  match n with
  | None => Some None
  | Some n => nd ← H !! n; d ← data nd; Some (Some d)
  end.

(** A loop over the data from [iter] on; [f] may change the store. *)
Fixpoint for_each (fuel : nat) (f : list Z * list Z -> RadixStore -> option (outcome RadixStore))
    (iter : iterator) (s : RadixStore) : option (outcome RadixStore) :=
  match fuel with
  | O => None
  | S fuel =>
      if bool_decide (it_current iter = None) then Some (Returns s)
      else
        val ← deref (nodes s) iter;
        let! s := f val s in
        iter ← _findNext (nodes s) iter;
        for_each fuel f iter s
  end.

Definition resolve_current (val : list Z * list Z) (s : RadixStore) : option (outcome RadixStore) :=
  baseVal ← find_value (nodes s) baseNode val.1;
  otherVal ← find_value (nodes s) otherNode val.1;
  match baseVal, otherVal with
  | Some b, Some o =>
      if negb (bool_decide (val.2 = b.2)) && negb (bool_decide (o.2 = b.2))
      then Some (merge_conflict_exception s)
      else s ← insert_holding locals (if negb (bool_decide (val.2 = b.2)) then val else o) s; Some (Returns s)
  | Some b, None => if negb (bool_decide (val.2 = b.2)) then Some (merge_conflict_exception s) else Some (Returns s)
  | None, Some _ => Some (merge_conflict_exception s)
  | None, None => s ← insert_holding locals val s; Some (Returns s)
  end.

Definition resolve_other (otherVal : list Z * list Z) (s : RadixStore) : option (outcome RadixStore) :=
  baseVal ← find_value (nodes s) baseNode otherVal.1;
  thisVal ← _findNode s otherVal.1;
  match baseVal with
  | None => s ← insert_holding locals otherVal s; Some (Returns s)
  | Some b =>
      if bool_decide (thisVal = None) && negb (bool_decide (otherVal.2 = b.2))
      then Some (merge_conflict_exception s) else Some (Returns s)
  end.

Definition resolve_base (baseVal : list Z * list Z) (s : RadixStore) : option (outcome RadixStore) :=
  otherVal ← findNode_in (nodes s) otherNode baseVal.1;
  thisVal ← _findNode s baseVal.1;
  if bool_decide (otherVal = None) && negb (bool_decide (thisVal = None))
  then s ← erase_holding locals baseVal.1 s; Some (Returns s)
  else Some (Returns s).

Definition mergeResolveConflict (current : positive) (s : RadixStore) : option (outcome RadixStore) :=
  let H := release (nodes s) (held s locals) in
  let s := with_nodes s H in
  let fuel := S (size H) in
  node ← leftmost (branch_fuel H) H current;
  let! s := for_each fuel resolve_current (mkIter current (Some node)) s in
  otherBegin ← RadixStore_begin (mkStore (nodes s) [] otherNode);
  let! s := for_each fuel resolve_other otherBegin s in
  baseBegin ← RadixStore_begin (mkStore (nodes s) [] baseNode);
  for_each fuel resolve_base baseBegin s.

End resolve.

(** ** [_merge3Helper] *)

(** The variables of the loop over the children. *)
Record merge_state := mkMerge {
  ms_store : RadixStore;
  ms_current : positive;
  ms_context : list positive;
  ms_num : Z;
  ms_size : Z;
}.

(** [current = _makeBranchUnique(context); current->children[key] = child]. *)
Definition replace_branch (ms : merge_state) (key : Z) (child : option positive) (num sz : Z) : option merge_state :=
  '(s, current, context) ← _makeBranchUnique (ms_store ms) (ms_context ms);
  H ← set_child (nodes s) current key child;
  Some (mkMerge (with_nodes s H) current context (to_int (ms_num ms + num)) (to_int (ms_size ms + sz))).

Section helper.

(** [recurse] is the recursive call on three nodes; [locals] are the pointers of the callers. *)
Context (recurse : list positive -> positive -> positive -> positive -> RadixStore -> list positive ->
                   option (outcome (RadixStore * list positive * (Z * Z)))).
Context (locals : list positive) (base other : positive).

(** All three trees have different nodes below [key]. *)
Definition merge_nodes (ms : merge_state) (n b o : positive) : option (outcome merge_state) :=
  let s := ms_store ms in
  nd ← nodes s !! n;
  bnd ← nodes s !! b;
  ond ← nodes s !! o;
  let locals := locals ++ [ms_current ms; n; b; o] in
  if isLeaf nd && isLeaf bnd && isLeaf ond then Some (merge_conflict_exception s)
  else if bool_decide (trieKey nd = trieKey bnd) && bool_decide (trieKey bnd = trieKey ond) then
    let! (s, context, (num, sz)) := recurse locals n b o s (ms_context ms) in
    Some (Returns (mkMerge s (ms_current ms) context (to_int (ms_num ms + num)) (to_int (ms_size ms + sz))))
  else
    let! s := mergeResolveConflict (locals ++ ms_context ms ++ [n; n; b; o]) b o n s in
    Some (Returns (mkMerge s (ms_current ms) (ms_context ms) (ms_num ms) (ms_size ms))).

Definition merge_child (ms : merge_state) (key : Z) : option (outcome merge_state) :=
  let s := ms_store ms in
  cnd ← nodes s !! ms_current ms;
  bnd ← nodes s !! base;
  ond ← nodes s !! other;
  let node := children cnd !! key in
  let baseNode := children bnd !! key in
  let otherNode := children ond !! key in
  let unique := negb (bool_decide (node = otherNode)) && negb (bool_decide (node = baseNode)) in
  match node, baseNode, otherNode with
  | None, None, None => Some (Returns ms)
  | None, None, Some o =>
      o' ← nodes s !! o;
      ms ← replace_branch ms key (Some o) (_numSubtreeElems o') (_sizeSubtreeElems o');
      Some (Returns ms)
  | None, Some b, Some o => if bool_decide (b = o) then Some (Returns ms) else Some (merge_conflict_exception s)
  | None, Some _, None => Some (merge_conflict_exception s)
  | Some n, _, _ =>
      if negb unique then
        match baseNode, otherNode with
        | Some b, Some o =>
            if bool_decide (b = o) then Some (Returns ms)
            else if bool_decide (b = n) then
              n' ← nodes s !! n;
              o' ← nodes s !! o;
              ms ← replace_branch ms key (Some o) (_numSubtreeElems o' - _numSubtreeElems n')
                     (_sizeSubtreeElems o' - _sizeSubtreeElems n');
              Some (Returns ms)
            else Some (Returns ms)
        | Some _, None =>
            n' ← nodes s !! n;
            ms ← replace_branch ms key None (- _numSubtreeElems n') (- _sizeSubtreeElems n');
            Some (Returns ms)
        | None, _ => Some (Returns ms)
        end
      else
        match baseNode, otherNode with
        | None, None => Some (Returns ms)
        | Some b, Some o => if bool_decide (b = o) then Some (Returns ms) else merge_nodes ms n b o
        | Some _, None => Some (merge_conflict_exception s)
        | None, Some _ => Some (merge_conflict_exception s)
        end
  end.

Fixpoint merge_children (keys : list Z) (ms : merge_state) : option (outcome merge_state) :=
  match keys with
  | [] => Some (Returns ms)
  | key :: keys => let! ms := merge_child ms key in merge_children keys ms
  end.

End helper.

Fixpoint _merge3Helper (fuel : nat) (locals : list positive) (current base other : positive) (s : RadixStore)
    (context : list positive) : option (outcome (RadixStore * list positive * (Z * Z))) :=
  match fuel with
  | O => None
  | S fuel =>
      let! ms := merge_children (_merge3Helper fuel) locals base other (seqZ 0 256)
                   (mkMerge s current (context ++ [current]) 0 0) in
      H ← modify (nodes (ms_store ms)) (ms_current ms) (add_counts (ms_num ms) (ms_size ms));
      Some (Returns (with_nodes (ms_store ms) H, ms_context ms, (ms_num ms, ms_size ms)))
  end.

Definition RadixStore_merge3 (s : RadixStore) (base other : positive) : option (outcome RadixStore) :=
  let! (s, _, _) := _merge3Helper (branch_fuel (nodes s)) [] (_root s) base other s [] in
  Some (Returns (settle s)).
