(* ===== verification/RadixInv.v ===== *)
(** * What a tree of nodes stands for

    [trie H m l p]: in the memory [H], the subtree at node [l], which is reached with the
    bytes [p], holds exactly those entries of the map [m] whose keys start with [p].  The
    relation includes the shape that the operations rely on: a child hangs at the first byte
    of its [trieKey], and an inner node without data has two children.  The counters are
    part of it under a proposition [X], so that what does not depend on them can be stated
    without ([X] is [False]) and they can be stated exactly ([X] is [True]).

    Nodes are shared, so the second half is about memory: what a subtree stands for does not
    change when only nodes change that cannot be reached from it ([private]). *)

From Stdlib Require Import ZArith Lia.
From stdpp Require Import prelude gmap.
From S2P Require Import Prelude RadixNode RadixStore.

Open Scope Z_scope.

Abbreviation contents := (gmap (list Z) (list Z)) (only parsing).

Definition byte (b : Z) : Prop := 0 <= b < 256.

(** ** Entries below a prefix *)

Definition below (p : list Z) (m : contents) : contents := filter (fun kv => p `prefix_of` kv.1) m.

(** The sum of a weight over the entries below [p]. *)
Definition weigh (f : list Z -> Z) (m : contents) (p : list Z) : Z := map_fold (fun _ v a => f v + a) 0 (below p m).

Definition one (_ : list Z) : Z := 1.

Lemma below_ext p m m' : (forall s, m !! (p ++ s) = m' !! (p ++ s)) -> below p m = below p m'.
Proof.
  intros Heq. apply map_eq. intros k. unfold below. apply option_eq. intros v.
  rewrite !map_lookup_filter_Some. simpl. split; intros [Hk [s ->]]; (split; [|by exists s]); congruence.
Qed.

Lemma weigh_ext f p m m' : (forall s, m !! (p ++ s) = m' !! (p ++ s)) -> weigh f m p = weigh f m' p.
Proof. intros Heq. unfold weigh. by rewrite (below_ext p m m'). Qed.

Lemma weigh_insert f m p k v :
  m !! k = None -> p `prefix_of` k -> weigh f (<[k := v]> m) p = f v + weigh f m p.
Proof.
  intros Hk Hp. unfold weigh, below. rewrite map_filter_insert_True by done.
  apply (map_fold_insert_L (fun _ v a => f v + a)).
  - intros. lia.
  - apply map_lookup_filter_None. by left.
Qed.

Lemma weigh_delete f m p k v :
  m !! k = Some v -> p `prefix_of` k -> weigh f m p = f v + weigh f (delete k m) p.
Proof.
  intros Hk Hp. rewrite <- (insert_delete_id m k v) at 1 by done. apply weigh_insert; [|done]. by simplify_map_eq.
Qed.

Lemma weigh_update f m p k v v' :
  m !! k = Some v -> p `prefix_of` k -> weigh f (<[k := v']> m) p = weigh f m p + f v' - f v.
Proof.
  intros Hk Hp. rewrite (weigh_delete f m p k v) by done. rewrite <- insert_delete_eq.
  rewrite weigh_insert; [lia|by simplify_map_eq|done].
Qed.

(** A longer prefix that all entries below [p] share has the same entries. *)
Lemma weigh_longer f m p s :
  (forall k, is_Some (m !! (p ++ k)) -> s `prefix_of` k) -> weigh f m (p ++ s) = weigh f m p.
Proof.
  intros Hall. unfold weigh. f_equal. apply map_eq. intros k. apply option_eq. intros v. unfold below.
  rewrite !map_lookup_filter_Some. simpl. split; intros [Hk [t ->]]; (split; [done|]).
  - exists (s ++ t). by rewrite app_assoc.
  - destruct (Hall t) as [t' ->]; [by eexists|]. exists t'. by rewrite app_assoc.
Qed.

Lemma weigh_none f m p : (forall k, m !! (p ++ k) = None) -> weigh f m p = 0.
Proof.
  intros Hnone. unfold weigh. assert (Hb : below p m = ∅); [|by rewrite Hb, map_fold_empty].
  apply map_empty. intros k. apply map_lookup_filter_None. right. intros v Hv [s Hs]. simpl in Hs. subst k. by rewrite Hnone in Hv.
Qed.

Lemma weigh_nonneg f m p : (forall v, 0 <= f v) -> 0 <= weigh f m p.
Proof.
  intros Hf. unfold weigh. apply (map_fold_weak_ind (fun a _ => 0 <= a)); [done|].
  intros k v m' a _ Ha. specialize (Hf v). lia.
Qed.

(** ** The relation *)

Section trie.

Context (X : Prop) (H : gmap positive Node) (m : contents).

Definition counted (p : list Z) (nd : Node) : Prop :=
  X -> _numSubtreeElems nd = size_t (weigh one m p) /\ _sizeSubtreeElems nd = size_t (weigh string_size m p).

Definition branches (nd : Node) : Prop :=
  exists c1 c2 l1 l2, c1 <> c2 /\ children nd !! c1 = Some l1 /\ children nd !! c2 = Some l2.

(** [nd] is the child at [c] of a node with path [p]. *)
Record child_ok (p : list Z) (c : Z) (nd : Node) : Prop := {
  child_byte : byte c;
  child_front : head (trieKey nd) = Some c;
  child_prefix : forall k, is_Some (m !! (p ++ c :: k)) -> trieKey nd `prefix_of` c :: k;
  child_branches : data nd = None -> branches nd;
}.

Inductive trie : positive -> list Z -> Prop :=
  | trie_node l p nd :
      H !! l = Some nd ->
      data nd = pair p <$> m !! p ->
      counted p nd ->
      (forall c, children nd !! c = None -> forall k, m !! (p ++ c :: k) = None) ->
      (forall c l', children nd !! c = Some l' -> exists cnd, H !! l' = Some cnd /\ child_ok p c cnd) ->
      (forall c l' cnd, children nd !! c = Some l' -> H !! l' = Some cnd -> trie l' (p ++ trieKey cnd)) ->
      trie l p.

(** What the relation says of the children of a node, and of its own fields. *)
Definition kids_ok (p : list Z) (nd : Node) : Prop :=
  (forall c, children nd !! c = None -> forall k, m !! (p ++ c :: k) = None) /\
  (forall c l, children nd !! c = Some l ->
     exists cnd, H !! l = Some cnd /\ child_ok p c cnd /\ trie l (p ++ trieKey cnd)).

Definition own_ok (p : list Z) (nd : Node) : Prop := data nd = pair p <$> m !! p /\ counted p nd.

Lemma trie_unfold l p : trie l p <-> exists nd, H !! l = Some nd /\ own_ok p nd /\ kids_ok p nd.
Proof.
  split.
  - destruct 1 as [l p nd Hl Hd Hc Hn Hk Ht]. exists nd. split_and!; [done|by split|]. split; [done|].
    intros c l' Hcl. destruct (Hk c l' Hcl) as (cnd & Hl' & Hok). exists cnd. eauto.
  - intros (nd & Hl & [Hd Hc] & Hn & Hk). econstructor; eauto.
    + intros c l' Hcl. destruct (Hk c l' Hcl) as (cnd & ? & ? & _). eauto.
    + intros c l' cnd Hcl Hl'. destruct (Hk c l' Hcl) as (cnd' & ? & _ & ?). by simplify_eq.
Qed.

Lemma trie_lookup l p nd : trie l p -> H !! l = Some nd -> own_ok p nd /\ kids_ok p nd.
Proof. rewrite trie_unfold. intros (nd' & ? & ? & ?) ?. by simplify_eq. Qed.

(** The subtree of a child is not empty. *)
Lemma trie_nonempty l p nd :
  trie l p -> H !! l = Some nd -> (data nd = None -> branches nd) -> exists k, is_Some (m !! (p ++ k)).
Proof.
  intros Ht. revert nd. induction Ht as [l p nd Hl Hd Hc Hn Hk Ht IH]. intros nd' Hl' Hb. simplify_eq.
  destruct (data nd) as [d|] eqn:Hdd.
  - exists []. rewrite app_nil_r. destruct (m !! p); [done|discriminate].
  - destruct Hb as (c1 & _ & l1 & _ & _ & Hc1 & _); [done|].
    destruct (Hk c1 l1 Hc1) as (cnd & Hl1 & Hok).
    destruct (IH c1 l1 cnd Hc1 Hl1 cnd Hl1 (child_branches _ _ _ Hok)) as [k Hk'].
    exists (trieKey cnd ++ k). by rewrite app_assoc.
Qed.

End trie.

Arguments trie_unfold {_ _ _} _ _.
Arguments trie_lookup {_ _ _} _ _ _ _ _.

(** ** The same entries *)

Lemma child_ok_agree m m' p c nd :
  (forall k, m !! (p ++ c :: k) = m' !! (p ++ c :: k)) -> child_ok m p c nd -> child_ok m' p c nd.
Proof.
  intros Heq [Hb Hf Hp Hbr]. split; try done. intros k Hk. apply Hp. by rewrite Heq.
Qed.

Lemma counted_agree X m m' p nd :
  (forall k, m !! (p ++ k) = m' !! (p ++ k)) -> counted X m p nd -> counted X m' p nd.
Proof. intros Heq Hc HX. rewrite <- !(weigh_ext _ p m m') by done. auto. Qed.

Lemma trie_agree X H m m' l p : (forall k, m !! (p ++ k) = m' !! (p ++ k)) -> trie X H m l p -> trie X H m' l p.
Proof.
  intros Heq Ht. induction Ht as [l p nd Hl Hd Hc Hn Hk Ht IH]. econstructor; eauto.
  - specialize (Heq []). rewrite !app_nil_r in Heq. by rewrite <- Heq.
  - by eapply counted_agree.
  - intros c Hc0 k. rewrite <- Heq. auto.
  - intros c l' Hcl. destruct (Hk c l' Hcl) as (cnd & ? & Hok). exists cnd. split; [done|].
    eapply child_ok_agree; [|done]. intros k. apply Heq.
  - intros c l' cnd Hcl Hl'. eapply IH; eauto. intros k. rewrite <- app_assoc. apply Heq.
Qed.

Lemma trie_weaken (X Y : Prop) H m l p : (Y -> X) -> trie X H m l p -> trie Y H m l p.
Proof.
  intros Himp Ht. induction Ht as [l p nd Hl Hd Hc Hn Hk Ht IH]. econstructor; eauto. intros HY. apply Hc. auto.
Qed.

(** ** Memory *)

(** No pointer of a node dangles. *)
Definition closed (H : gmap positive Node) : Prop :=
  forall x nd c y, H !! x = Some nd -> children nd !! c = Some y -> is_Some (H !! y).

(** The node [l] is the same in [H'], and its subtree stands for the same. *)
Definition preserved (H H' : gmap positive Node) (l : positive) : Prop :=
  (forall nd, H !! l = Some nd -> H' !! l = Some nd) /\ (forall X m p, trie X H m l p -> trie X H' m l p).

Lemma trie_frame (C : positive -> Prop) X H H' m l p :
  (forall x nd, C x -> H !! x = Some nd -> H' !! x = Some nd /\ forall c y, children nd !! c = Some y -> C y) ->
  C l -> trie X H m l p -> trie X H' m l p.
Proof.
  intros HC Hl Ht. induction Ht as [l p nd Hnd Hd Hc Hn Hk Ht IH].
  destruct (HC l nd Hl Hnd) as [Hnd' Hch]. econstructor; eauto.
  - intros c l' Hcl. destruct (Hk c l' Hcl) as (cnd & Hl' & Hok).
    destruct (HC l' cnd (Hch _ _ Hcl) Hl') as [Hl'' _]. eauto.
  - intros c l' cnd Hcl Hl'. destruct (Hk c l' Hcl) as (cnd' & Hl'' & _).
    destruct (HC l' cnd' (Hch _ _ Hcl) Hl'') as [Hl3 _]. simplify_eq. eapply IH; eauto.
Qed.

(** Extending the memory preserves everything. *)
Lemma preserved_extend H H' l : H ⊆ H' -> preserved H H' l.
Proof.
  intros Hsub. split; [intros nd Hl; by eapply lookup_weaken|]. intros X m p. apply (trie_frame (fun _ => True)); [|done].
  intros x nd _ Hx. split; [|done]. by eapply lookup_weaken.
Qed.

Lemma preserved_trans H1 H2 H3 l : preserved H1 H2 l -> preserved H2 H3 l -> preserved H1 H3 l.
Proof. intros [] []. split; auto. Qed.

(** Nodes that only nodes of [U] point to, and nobody in [held]. *)
Record private (H : gmap positive Node) (held : list positive) (U : gset positive) : Prop := {
  private_refs : forall x nd c y, H !! x = Some nd -> children nd !! c = Some y -> y ∈ U -> x ∈ U;
  private_held : forall x, x ∈ held -> x ∉ U;
}.

Lemma private_preserved H H' held U l :
  private H held U -> (forall x nd, x ∉ U -> H !! x = Some nd -> H' !! x = Some nd) -> l ∉ U -> preserved H H' l.
Proof.
  intros [Hrefs _] Hsame Hl. split; [auto|]. intros X m p. apply (trie_frame (fun x => x ∉ U)); [|done].
  intros x nd Hx Hnd. split; [by apply Hsame|]. intros c y Hy Hin. apply Hx. by eapply Hrefs.
Qed.

(** ** Fresh nodes *)

Lemma next_loc_fresh H : H !! next_loc H = None.
Proof.
  destruct (H !! next_loc H) as [nd|] eqn:E; [exfalso|done].
  assert (Hin : next_loc H ∈ (map_to_list H).*1) by (apply list_elem_of_fmap; exists (next_loc H, nd); split; [done|by apply elem_of_map_to_list]).
  assert (Hmax : forall (l : list positive) x, x ∈ l -> (x <= foldr Pos.max 1 l)%positive).
  { induction l as [|y l IH]; intros x Hx; [by apply not_elem_of_nil in Hx|]. simpl.
    apply elem_of_cons in Hx as [->|Hx]; [lia|]. specialize (IH x Hx). lia. }
  apply Hmax in Hin. unfold next_loc in Hin at 1. lia.
Qed.

Lemma fresh_ne H l nd : H !! l = Some nd -> l <> next_loc H.
Proof. intros Hl ->. by rewrite next_loc_fresh in Hl. Qed.

(** Nothing points to a fresh node. *)
Lemma fresh_unreferenced H x nd c : closed H -> H !! x = Some nd -> children nd !! c <> Some (next_loc H).
Proof. intros Hcl Hx Hc. destruct (Hcl _ _ _ _ Hx Hc) as [? Hn]. by rewrite next_loc_fresh in Hn. Qed.

(** ** Reference counts *)

Lemma elem_of_edges H x c l : (x, c, l) ∈ edges H <-> exists nd, H !! x = Some nd /\ children nd !! c = Some l.
Proof.
  unfold edges. rewrite list_elem_of_bind. split.
  - intros ([x' nd] & Hin & Hx). apply elem_of_map_to_list in Hx.
    apply list_elem_of_fmap in Hin as ([c' l'] & Heq & Hin). apply elem_of_map_to_list in Hin. simplify_eq. eauto.
  - intros (nd & Hx & Hc). exists (x, nd). split; [|by apply elem_of_map_to_list].
    apply list_elem_of_fmap. exists (c, l). split; [done|by apply elem_of_map_to_list].
Qed.

Lemma short_filter {A} (P : A -> Prop) `{forall x, Decision (P x)} (l : list A) x y :
  (length (filter P l) <= 1)%nat -> x ∈ l -> y ∈ l -> P x -> P y -> x = y.
Proof.
  intros Hlen Hx Hy HPx HPy.
  assert (Hx' : x ∈ filter P l) by by apply list_elem_of_filter.
  assert (Hy' : y ∈ filter P l) by by apply list_elem_of_filter.
  destruct (filter P l) as [|a [|b t]]; simpl in Hlen; [by apply not_elem_of_nil in Hx'| |lia].
  apply list_elem_of_singleton in Hx', Hy'. congruence.
Qed.

Lemma filter_elem_length {A} (P : A -> Prop) `{forall x, Decision (P x)} (l : list A) x :
  x ∈ l -> P x -> (1 <= length (filter P l))%nat.
Proof.
  intros Hx HP. assert (Hx' : x ∈ filter P l) by by apply list_elem_of_filter.
  destruct (filter P l); [by apply not_elem_of_nil in Hx'|simpl; lia].
Qed.

Lemma filter_none {A} (P : A -> Prop) `{forall x, Decision (P x)} (l : list A) :
  (forall x, x ∈ l -> ~ P x) -> filter P l = [].
Proof.
  induction l as [|x l IH]; intros Hall; [done|]. rewrite filter_cons_False by (apply Hall; by left).
  apply IH. intros y Hy. apply Hall. by right.
Qed.

(** A node that is used once besides [extra] has one pointer in memory, and nobody holds it. *)
Lemma use_count_app H held extra l :
  use_count H (held ++ extra) l = (use_count H held l + length (filter (fun x => x = l) extra))%nat.
Proof. unfold use_count. rewrite filter_app, length_app. lia. Qed.

Lemma use_count_one H held l x c nd :
  H !! x = Some nd -> children nd !! c = Some l -> (use_count H held l <= 1)%nat ->
  l ∉ held /\ forall x' c' nd', H !! x' = Some nd' -> children nd' !! c' = Some l -> x' = x /\ c' = c.
Proof.
  intros Hx Hc Hcount. unfold use_count in Hcount.
  assert (He : (x, c, l) ∈ edges H) by (apply elem_of_edges; eauto).
  pose proof (filter_elem_length (fun e => e.2 = l) _ _ He eq_refl) as H1. split.
  - intros Hin. pose proof (filter_elem_length (fun x => x = l) _ _ Hin eq_refl). lia.
  - intros x' c' nd' Hx' Hc'. assert (He' : (x', c', l) ∈ edges H) by (apply elem_of_edges; eauto).
    assert (Hle : (length (filter (fun e : positive * Z * positive => e.2 = l) (edges H)) <= 1)%nat) by lia.
    pose proof (short_filter (fun e => e.2 = l) _ _ _ Hle He He' eq_refl eq_refl). by simplify_eq.
Qed.

Lemma use_count_zero H held l :
  use_count H held l = 0%nat <-> l ∉ held /\ forall x c nd, H !! x = Some nd -> children nd !! c <> Some l.
Proof.
  unfold use_count. split.
  - intros Hz. split.
    + intros Hin. pose proof (filter_elem_length (fun x => x = l) _ _ Hin eq_refl). lia.
    + intros x c nd Hx Hc. assert (He : (x, c, l) ∈ edges H) by (apply elem_of_edges; eauto).
      pose proof (filter_elem_length (fun e => e.2 = l) _ _ He eq_refl). lia.
  - intros [Hh He]. assert (Hnil : filter (fun e : positive * Z * positive => e.2 = l) (edges H) = []).
    { apply filter_none. intros [[x c] l'] Hin Heq. simpl in Heq. subst l'.
      apply elem_of_edges in Hin as (nd & Hx & Hc). by eapply He. }
    rewrite Hnil. simpl. assert (Hn2 : filter (fun x => x = l) held = []) by (apply filter_none; intros x Hx ->; done).
    by rewrite Hn2.
Qed.

(** ** The end of an operation *)

Lemma sweep_spec H held :
  closed H -> closed (sweep held H) /\ (forall l, l ∈ held -> preserved H (sweep held H) l).
Proof.
  intros Hcl.
  assert (Hkeep : forall l nd, H !! l = Some nd -> use_count H held l <> 0%nat -> sweep held H !! l = Some nd)
    by (intros; by apply map_lookup_filter_Some).
  assert (Href : forall x nd c y, H !! x = Some nd -> children nd !! c = Some y -> use_count H held y <> 0%nat)
    by (intros x nd c y Hx Hc Hz; apply use_count_zero in Hz as [_ Hz]; by eapply Hz).
  assert (Hheld : forall l, l ∈ held -> use_count H held l <> 0%nat)
    by (intros l Hl Hz; apply use_count_zero in Hz as [Hz _]; done).
  split_and!.
  - intros x nd c y Hx Hc. apply map_lookup_filter_Some in Hx as [Hx _].
    destruct (Hcl _ _ _ _ Hx Hc) as [nd' Hy]. exists nd'. apply Hkeep; [done|exact (Href _ _ _ _ Hx Hc)].
  - intros l Hl. split; [intros nd Hnd; apply Hkeep; auto|].
    intros X m p. apply (trie_frame (fun x => use_count H held x <> 0%nat)); [|by apply Hheld].
    intros x nd Hx Hnd. split; [by apply Hkeep|]. intros c y Hc. exact (Href _ _ _ _ Hnd Hc).
Qed.

Lemma release_spec H held :
  closed H -> closed (release H held) /\ (forall l, l ∈ held -> preserved H (release H held) l).
Proof.
  intros Hcl. unfold release. generalize (size H) as n. induction n as [|n [IHc IHp]]; simpl.
  - split; [done|]. by intros l _.
  - destruct (sweep_spec (Nat.iter n (sweep held) H) held IHc) as [Hc Hp]. split; [done|].
    intros l Hin. eapply preserved_trans; eauto.
Qed.
