(* ===== verification/RadixLookup.v ===== *)
(** * Lookup in the radix store

    [represents X s m]: the store [s] holds the entries of [m].  [_findNode] finds exactly
    the keys of the map; [_comparePrefix] splits two keys behind their common prefix; the
    child array is searched in the order of its indices. *)

From Stdlib Require Import ZArith Lia.
From stdpp Require Import prelude gmap.
From S2P Require Import Prelude RadixNode RadixStore RadixInv.

Open Scope Z_scope.

(** ** Keys *)

Lemma comparePrefix_split a b :
  exists c a' b', a = c ++ a' /\ b = c ++ b' /\ _comparePrefix a b = length c /\ (a' = [] \/ b' = [] \/ head a' <> head b').
Proof.
  revert b. induction a as [|x a IH]; intros [|y b]; simpl.
  - exists [], [], []. split_and!; auto.
  - exists [], [], (y :: b). split_and!; auto.
  - exists [], (x :: a), []. split_and!; auto.
  - case_if; bprop.
    + subst y. destruct (IH b) as (c & a' & b' & -> & -> & -> & Hd). exists (x :: c), a', b'. split_and!; auto.
    + exists [], (x :: a), (y :: b). split_and!; [done..|]. right. right. simpl. congruence.
Qed.

Lemma comparePrefix_app a s : _comparePrefix a (a ++ s) = length a.
Proof. induction a as [|x a IH]; simpl; [done|]. by rewrite Z.eqb_refl, IH. Qed.

Lemma comparePrefix_full a b : _comparePrefix a b = length a -> exists s, b = a ++ s.
Proof.
  destruct (comparePrefix_split a b) as (c & a' & b' & -> & -> & -> & _). intros Hlen. rewrite length_app in Hlen.
  destruct a'; [|simpl in Hlen; lia]. exists b'. by rewrite app_nil_r.
Qed.

Lemma app_ne_cons {A} (l : list A) x k : l ++ x :: k <> l.
Proof. intros E. apply (f_equal length) in E. rewrite length_app in E. simpl in E. lia. Qed.

Lemma head_cons {A} (l : list A) x : head l = Some x -> exists s, l = x :: s.
Proof. destruct l; simpl; intros Hx; [done|]. simplify_eq. eauto. Qed.

(** ** The child array *)

Lemma children_from_cons nd i y t :
  children_from nd i = y :: t ->
  exists c, i <= c < 256 /\ children nd !! c = Some y /\ (forall c', i <= c' < c -> children nd !! c' = None) /\
            t = children_from nd (c + 1).
Proof.
  unfold children_from. intros Hy.
  assert (Hn : exists n : nat, 256 - i = Z.of_nat n \/ 256 - i < 0) by (exists (Z.to_nat (256 - i)); lia).
  destruct Hn as [n [Hn|Hn]]; [|by rewrite seqZ_nil in Hy by lia].
  revert i Hn Hy. induction n as [|n IH]; intros i Hn Hy; [by rewrite seqZ_nil in Hy by lia|].
  rewrite seqZ_cons in Hy by lia. simpl in Hy. destruct (children nd !! i) as [x|] eqn:Ei.
  - simplify_eq. exists i. split_and!; [lia..|done|intros; lia|]. f_equal. f_equal; lia.
  - destruct (IH (Z.succ i)) as (c & Hc & Hcy & Hlt & Ht); [lia| |].
    { by replace (256 - Z.succ i) with (Z.pred (256 - i)) by lia. }
    exists c. split_and!; [lia..|done| |done]. intros c' Hc'. destruct (decide (c' = i)) as [->|]; [done|]. apply Hlt. lia.
Qed.

Lemma children_from_nil nd i c : children_from nd i = [] -> i <= c < 256 -> children nd !! c = None.
Proof.
  unfold children_from. intros Hnil Hc. apply eq_None_not_Some. intros [y Hy].
  assert (Hin : y ∈ omap (fun j => children nd !! j) (seqZ i (256 - i))).
  { apply list_elem_of_omap. exists c. split; [|done]. apply elem_of_seqZ. lia. }
  rewrite Hnil in Hin. by apply not_elem_of_nil in Hin.
Qed.

(** To the left. *)
Lemma children_below_cons nd i y t :
  children_below nd i = y :: t ->
  exists c, 0 <= c < i /\ children nd !! c = Some y /\ forall c', c < c' < i -> children nd !! c' = None.
Proof.
  unfold children_below. intros Hy. assert (Hn : exists n : nat, i = Z.of_nat n \/ i < 0) by (exists (Z.to_nat i); lia).
  destruct Hn as [n [->|Hn]]; [|by rewrite seqZ_nil in Hy by lia].
  revert Hy. induction n as [|n IH]; intros Hy; [done|]. rewrite Nat2Z.inj_succ in *.
  replace (seqZ 0 (Z.succ (Z.of_nat n))) with (seqZ 0 (Z.of_nat n) ++ [Z.of_nat n]) in Hy
    by (replace (Z.succ (Z.of_nat n)) with (Z.of_nat n + 1) by lia; rewrite seqZ_app by lia; done).
  rewrite reverse_app, reverse_singleton in Hy. simpl in Hy. destruct (children nd !! Z.of_nat n) as [x|] eqn:En.
  - simplify_eq. exists (Z.of_nat n). split_and!; [lia..|done|]. intros; lia.
  - destruct (IH Hy) as (c & Hc & Hcy & Hlt). exists c. split_and!; [lia..|done|]. intros c' Hc'.
    destruct (decide (c' = Z.of_nat n)) as [->|]; [done|]. apply Hlt. lia.
Qed.

Lemma children_below_nil nd i c : children_below nd i = [] -> 0 <= c < i -> children nd !! c = None.
Proof.
  unfold children_below. intros Hnil Hc. apply eq_None_not_Some. intros [y Hy].
  assert (Hin : y ∈ omap (fun j => children nd !! j) (reverse (seqZ 0 i))).
  { apply list_elem_of_omap. exists c. split; [|done]. apply elem_of_reverse, elem_of_seqZ. lia. }
  rewrite Hnil in Hin. by apply not_elem_of_nil in Hin.
Qed.

Lemma isLeaf_spec nd : isLeaf nd = true <-> forall c, byte c -> children nd !! c = None.
Proof.
  unfold isLeaf. destruct (children_from nd 0) as [|y t] eqn:E; split; try done.
  - intros _ c Hc. by eapply children_from_nil.
  - intros Hall. apply children_from_cons in E as (c & Hc & Hy & _). rewrite Hall in Hy; [done|]. unfold byte. lia.
Qed.

Lemma leaf_no_children nd : isLeaf nd = true -> children_from nd 0 = [].
Proof. unfold isLeaf. by destruct (children_from nd 0). Qed.

Lemma not_leaf_from nd : isLeaf nd = false -> exists y t, children_from nd 0 = y :: t.
Proof. unfold isLeaf. destruct (children_from nd 0); [done|eauto]. Qed.

Lemma not_leaf nd : isLeaf nd = false -> exists c y, children nd !! c = Some y.
Proof.
  unfold isLeaf. destruct (children_from nd 0) as [|y t] eqn:E; [done|]. intros _.
  apply children_from_cons in E as (c & _ & Hy & _). eauto.
Qed.

Definition keys_ok (m : contents) : Prop := map_Forall (fun k _ => k <> [] /\ Forall byte k) m.

(** The store holds the entries of [m]. *)
Record represents (X : Prop) (s : RadixStore) (m : contents) : Prop := {
  rep_trie : trie X (nodes s) m (_root s) [];
  rep_root : trieKey <$> nodes s !! _root s = Some [];
  rep_keys : keys_ok m;
}.

(** ** [_findNode] *)

Section find.

Context (X : Prop) (H : gmap positive Node) (m : contents).

Lemma no_longer_key p c cnd k :
  child_ok m p c cnd -> k <> [] -> char_at k = c -> (forall s, k <> trieKey cnd ++ s) -> m !! (p ++ k) = None.
Proof.
  intros Hok Hk Hc Hno. destruct k as [|b k]; [done|]. simpl in Hc. subst b. apply eq_None_not_Some. intros Hs.
  destruct (child_prefix _ _ _ _ Hok k Hs) as [s Hs']. by eapply Hno.
Qed.

(** What [find_below] answers for the key [k] of the map. *)
Definition finds (k : list Z) (r : option positive) : Prop :=
  match m !! k with
  | Some v => exists n nd, r = Some n /\ H !! n = Some nd /\ data nd = Some (k, v) /\ trie X H m n k
  | None => r = None
  end.

Lemma find_below_ok fuel rest p nd :
  kids_ok X H m p nd -> (length rest < fuel)%nat ->
  exists r, find_below fuel H (children nd !! char_at rest) rest = Some r /\
            (rest = [] -> r = None) /\ (rest <> [] -> finds (p ++ rest) r).
Proof.
  revert rest p nd. induction fuel as [|fuel IH]; intros rest p nd [Hnone Hkids] Hfuel; [lia|]. cbn [find_below].
  destruct (children nd !! char_at rest) as [n|] eqn:En.
  - destruct (Hkids _ _ En) as (cnd & Hn & Hok & Ht). rewrite Hn. cbn [mbind option_bind].
    destruct (head_cons _ _ (child_front _ _ _ _ Hok)) as [s Hs].
    destruct (Nat.eqb_spec (_comparePrefix (trieKey cnd) rest) (length (trieKey cnd))) as [Heq|Hne]; simpl.
    + destruct (comparePrefix_full _ _ Heq) as [t ->]. rewrite Heq, drop_app_length.
      destruct (trie_lookup _ _ _ Ht Hn) as [[Hd _] Hk].
      assert (Hlen : length (trieKey cnd ++ t) = (length (trieKey cnd) + length t)%nat) by apply length_app.
      destruct (Nat.eqb_spec (length (trieKey cnd)) (length (trieKey cnd ++ t))) as [Hl|Hl].
      * assert (t = []) as -> by (destruct t; [done|simpl in *; lia]). rewrite app_nil_r in *.
        destruct (m !! (p ++ trieKey cnd)) as [v|] eqn:Ev; rewrite Hd; simpl.
        -- exists (Some n). split_and!; [done|by rewrite Hs|]. intros _. unfold finds. rewrite Ev. exists n, cnd. auto.
        -- destruct (IH [] (p ++ trieKey cnd) cnd Hk) as (r & Hr & Hr0 & _); [rewrite Hs in Hfuel; simpl in *; lia|].
           exists r. split_and!; [done|by rewrite Hs|]. intros _. unfold finds. rewrite Ev. auto.
      * simpl. destruct (IH t (p ++ trieKey cnd) cnd Hk) as (r & Hr & _ & Hr1); [rewrite Hlen, Hs in Hfuel; simpl in *; lia|].
        exists r. split_and!; [done|by rewrite Hs|]. intros _. rewrite app_assoc. apply Hr1. intros ->. by rewrite app_nil_r in Hl.
    + exists None. split_and!; [done..|]. intros Hrest. unfold finds.
      rewrite (no_longer_key p (char_at rest) cnd rest); try done.
      intros t ->. apply Hne. apply comparePrefix_app.
  - exists None. split_and!; [done..|]. intros Hrest. unfold finds. destruct rest as [|b rest]; [done|].
    by rewrite (Hnone b).
Qed.

End find.

Lemma findNode_ok X s m k : represents X s m -> exists r, _findNode s k = Some r /\ finds X (nodes s) m k r.
Proof.
  intros [Ht Hroot Hkeys]. apply trie_unfold in Ht as (nd & Hr & Hown & Hkids).
  rewrite Hr in Hroot. simpl in Hroot. simplify_eq. unfold _findNode, findNode_in. rewrite Hr. cbn [mbind option_bind].
  rewrite Hroot. cbn [match_root].
  destruct (find_below_ok X (nodes s) m (S (S (length k))) k [] nd Hkids) as (r & Hf & H0 & H1); [lia|].
  exists r. split; [done|]. destruct k as [|b k]; [|by apply H1]. rewrite (H0 eq_refl). unfold finds.
  destruct (m !! []) as [v|] eqn:Ev; [|done]. by destruct (Hkeys _ _ Ev).
Qed.
