(* ===== verification/RadixOwn.v ===== *)
(** * Owning the nodes of a path

    A modification of the radix store walks down the path of its key and makes every node on
    it the store's own, by a copy where others use the node.  The proofs keep the set [U] of
    the nodes that the store owns alone so far: they may change, and everything that is
    reached without them is preserved.  [own_child_ok] is the step from a node to its child;
    [upserted_intro] builds the result of a walk from what happens at its end. *)

From Stdlib Require Import ZArith Lia.
From stdpp Require Import prelude gmap.
From S2P Require Import Prelude RadixNode RadixStore RadixInv RadixLookup.

Open Scope Z_scope.

(** ** Counters *)

Lemma size_t_add a b : size_t (size_t a + b) = size_t (a + b).
Proof. unfold size_t. by rewrite Zplus_mod_idemp_l. Qed.

(** What the operation adds to the counters is what it adds to the map. *)
Definition adds (X : Prop) (m m' : contents) (key : list Z) (num sz : Z) : Prop :=
  X -> forall q, q `prefix_of` key ->
    size_t (weigh one m q + num) = size_t (weigh one m' q) /\
    size_t (weigh string_size m q + sz) = size_t (weigh string_size m' q).

Lemma counted_add X m m' key num sz q nd nd' :
  adds X m m' key num sz -> q `prefix_of` key -> counted X m q nd ->
  _numSubtreeElems nd' = _numSubtreeElems nd -> _sizeSubtreeElems nd' = _sizeSubtreeElems nd ->
  counted X m' q (add_counts num sz nd').
Proof.
  intros Hadd Hq Hc En Es HX. destruct (Hc HX) as [H1 H2]. destruct (Hadd HX q Hq) as [H3 H4]. simpl.
  by rewrite En, Es, H1, H2, !size_t_add.
Qed.

Lemma adds_insert X m key v : m !! key = None -> adds X m (<[key := v]> m) key 1 (string_size v).
Proof. intros Hk _ q Hq. rewrite !weigh_insert by done. unfold one. split; f_equal; lia. Qed.

(** ** Memory outside of the owned nodes *)

(** [H'] has the nodes of [H] outside of [U], and possibly new ones. *)
Definition same_outside (U : gset positive) (H H' : gmap positive Node) : Prop :=
  forall x nd, x ∉ U -> H !! x = Some nd -> H' !! x = Some nd.

Lemma same_outside_trans U H1 H2 H3 : same_outside U H1 H2 -> same_outside U H2 H3 -> same_outside U H1 H3.
Proof. unfold same_outside. auto. Qed.

Lemma same_outside_mono (U V : gset positive) H H' : U ⊆ V -> same_outside U H H' -> same_outside V H H'.
Proof. intros Hsub Hs x nd Hx. apply Hs. set_solver. Qed.

Lemma same_outside_insert U H x nd : x ∈ U \/ H !! x = None -> same_outside U H (<[x := nd]> H).
Proof.
  intros Hx y ynd Hy Hl. rewrite lookup_insert_ne; [done|]. intros ->. destruct Hx as [Hx|Hx]; [done|congruence].
Qed.

Lemma kids_kept X H H' m m' q nd nd' :
  (forall c y, children nd !! c = Some y -> preserved H H' y) -> children nd' = children nd ->
  (forall c k, m !! (q ++ c :: k) = m' !! (q ++ c :: k)) -> kids_ok X H m q nd -> kids_ok X H' m' q nd'.
Proof.
  intros Hkept Hch Heq [Hn Hk]. split; rewrite Hch.
  - intros c Hc k. rewrite <- Heq. auto.
  - intros c l Hc. destruct (Hk c l Hc) as (cnd & Hl & Hok & Ht). destruct (Hkept _ _ Hc) as [Hsame Htr]. exists cnd. split_and!.
    + auto.
    + eapply child_ok_agree; [|done]. apply Heq.
    + apply (trie_agree X H' m); [|auto].
      destruct (head_cons _ _ (child_front _ _ _ _ Hok)) as [t ->]. intros k. rewrite <- app_assoc. apply Heq.
Qed.

Lemma kids_frame X H H' m m' q nd nd' U held :
  private H held U -> same_outside U H H' -> children nd' = children nd ->
  (forall c y, children nd !! c = Some y -> y ∉ U) -> (forall c k, m !! (q ++ c :: k) = m' !! (q ++ c :: k)) ->
  kids_ok X H m q nd -> kids_ok X H' m' q nd'.
Proof. intros Hp Hs Hch Hout. apply kids_kept; [|done]. intros c y Hc. eapply private_preserved; eauto. Qed.

(** The child at [c] is exchanged, the others stay. *)
Lemma kids_replace X H H' m m' p ndp ndp' c n nd' key :
  kids_ok X H m p ndp -> (forall c' y, c' <> c -> children ndp !! c' = Some y -> preserved H H' y) ->
  (forall k, k <> key -> m !! k = m' !! k) -> (exists r, key = p ++ c :: r) ->
  children ndp' = <[c := n]> (children ndp) ->
  H' !! n = Some nd' -> child_ok m' p c nd' -> trie X H' m' n (p ++ trieKey nd') ->
  kids_ok X H' m' p ndp'.
Proof.
  intros [Hn Hk] Hkept Heq [r ->] Hch Hn' Hok' Ht'.
  assert (Hne : forall c', c' <> c -> forall k, m !! (p ++ c' :: k) = m' !! (p ++ c' :: k)).
  { intros c' Hc' k. apply Heq. intros Hx. apply app_inv_head in Hx. by simplify_eq. }
  split; rewrite Hch.
  - intros c' Hc' k. apply lookup_insert_None in Hc' as [Hc' Hne']. rewrite <- Hne by done. auto.
  - intros c' l Hc'. destruct (decide (c' = c)) as [->|Hne'].
    { rewrite lookup_insert_eq in Hc'. simplify_eq. eauto. }
    rewrite lookup_insert_ne in Hc' by done. destruct (Hk _ _ Hc') as (cnd & Hl & Hok & Ht).
    destruct (Hkept _ _ Hne' Hc') as [Hsame Htr]. exists cnd. split_and!.
    + auto.
    + eapply child_ok_agree; [|done]. by apply Hne.
    + apply (trie_agree X H' m); [|auto].
      destruct (head_cons _ _ (child_front _ _ _ _ Hok)) as [t ->]. intros k. rewrite <- app_assoc. by apply Hne.
Qed.

(** A node below which nothing is. *)
Lemma kids_none X H m p nd : children nd = ∅ -> (forall c k, m !! (p ++ c :: k) = None) -> kids_ok X H m p nd.
Proof. intros Hch Hm. split; rewrite Hch; [auto|]. intros c l Hc. by rewrite lookup_empty in Hc. Qed.

Lemma closed_insert H x nd :
  closed H -> (forall c y, children nd !! c = Some y -> is_Some (<[x := nd]> H !! y)) -> closed (<[x := nd]> H).
Proof.
  intros Hcl Hnd y ynd c z Hy Hc. destruct (decide (y = x)) as [->|Hne].
  - rewrite lookup_insert_eq in Hy. simplify_eq. eauto.
  - rewrite lookup_insert_ne in Hy by done. destruct (Hcl _ _ _ _ Hy Hc) as [znd Hz].
    destruct (decide (z = x)) as [->|]; [by rewrite lookup_insert_eq|]. rewrite lookup_insert_ne by done. by eexists.
Qed.

(** A change of a node whose pointers were there before. *)
Lemma closed_update H x nd nd' :
  closed H -> H !! x = Some nd' -> (forall c y, children nd !! c = Some y -> is_Some (H !! y)) -> closed (<[x := nd]> H).
Proof.
  intros Hcl Hx Hnd. apply closed_insert; [done|]. intros c y Hc. destruct (Hnd _ _ Hc) as [? Hy].
  destruct (decide (y = x)) as [->|]; [by rewrite lookup_insert_eq|]. rewrite lookup_insert_ne by done. by eexists.
Qed.

Lemma trie_acyclic X H m l p nd c : trie X H m l p -> H !! l = Some nd -> children nd !! c <> Some l.
Proof.
  intros Ht. revert nd c. induction Ht as [l p nd Hl Hd Hc Hn Hk Ht IH]. intros nd' c Hl' Hc'. simplify_eq.
  by eapply IH.
Qed.

(** ** The way down

    The walk stands at [prev], whose path is [p].  [U] are the nodes that it owns, [prev]
    among them; [outside] are the pointers of others, and [S] the nodes that hang off the
    path above [prev]. *)

Definition siblings (nd : Node) (c : Z) : list positive := (map_to_list (delete c (children nd))).*2.

Lemma elem_of_siblings nd c y : y ∈ siblings nd c <-> exists c', c' <> c /\ children nd !! c' = Some y.
Proof.
  unfold siblings. rewrite list_elem_of_fmap. split.
  - intros ([c' y'] & Heq & Hin). apply elem_of_map_to_list, lookup_delete_Some in Hin. simpl in Heq. subst.
    destruct Hin. eauto.
  - intros (c' & Hne & Hc). exists (c', y). split; [done|]. apply elem_of_map_to_list, lookup_delete_Some. auto.
Qed.

Record focus (X : Prop) (m : contents) (H : gmap positive Node) (outside S : list positive) (U : gset positive)
    (prev : positive) (nd : Node) (p : list Z) : Prop := {
  focus_closed : closed H;
  focus_outside : forall x, x ∈ outside -> is_Some (H !! x);
  focus_private : private H (outside ++ S) U;
  focus_U : forall x, x ∈ U -> is_Some (H !! x);
  focus_S : forall y, y ∈ S -> exists x xnd c, x ∈ U /\ x <> prev /\ H !! x = Some xnd /\ children xnd !! c = Some y;
  focus_prev : prev ∈ U;
  focus_node : H !! prev = Some nd;
  focus_kids : kids_ok X H m p nd;
  focus_out : forall c y, children nd !! c = Some y -> y ∉ U;
}.

(** [prev] with another child at [c]. *)
Definition relink (nd : Node) (c : Z) (n : positive) : Node := {| nd with children := <[c := n]> (children nd) |}.

Lemma relink_same nd c n : children nd !! c = Some n -> relink nd c n = nd.
Proof. intros Hc. unfold relink. destruct nd; simpl in *. by rewrite insert_id. Qed.

(** What the helpers on nodes do when the nodes are there. *)
Lemma set_child_run H x nd c y : H !! x = Some nd -> set_child H x c (Some y) = Some (<[x := relink nd c y]> H).
Proof. intros Hx. unfold set_child. by rewrite Hx. Qed.

Lemma modify_run H x nd f : H !! x = Some nd -> modify H x f = Some (<[x := f nd]> H).
Proof. intros Hx. unfold modify. by rewrite Hx. Qed.

Lemma addChild_run H x nd f key value num sz :
  head key = Some f -> H !! x = Some nd ->
  match children nd !! f with
  | Some y => exists cnd, H !! y = Some cnd /\ num = _numSubtreeElems cnd /\ sz = _sizeSubtreeElems cnd
  | None => (num, sz) = match value with Some v => (1, string_size v.2) | None => (0, 0) end
  end ->
  _addChild H x key value =
  Some (next_loc H, <[x := relink nd f (next_loc H)]> (<[next_loc H := mkNode key value ∅ num sz]> H)).
Proof.
  intros Hf Hx Hcount. unfold _addChild. rewrite Hf. cbn [mbind option_bind]. rewrite Hx. cbn [mbind option_bind].
  assert (Hne : next_loc H <> x) by (apply not_eq_sym; by eapply fresh_ne).
  destruct (children nd !! f) as [y|].
  - destruct Hcount as (cnd & Hy & -> & ->). rewrite Hy. cbn [mbind option_bind]. unfold make_shared.
    by rewrite (set_child_run _ _ nd) by by rewrite lookup_insert_ne.
  - rewrite <- Hcount. cbn [mbind option_bind]. unfold make_shared.
    by rewrite (set_child_run _ _ nd) by by rewrite lookup_insert_ne.
Qed.

Section own_child.

Context (X : Prop) (m : contents) (H : gmap positive Node) (outside S : list positive) (U : gset positive).
Context (prev : positive) (ndp : Node) (p : list Z) (c : Z) (n : positive) (cnd : Node).
Context (F : focus X m H outside S U prev ndp p).
Context (Hc : children ndp !! c = Some n) (Hn : H !! n = Some cnd).

Lemma own_child_trie : child_ok m p c cnd /\ trie X H m n (p ++ trieKey cnd).
Proof. destruct (focus_kids _ _ _ _ _ _ _ _ _ F) as [_ Hk]. destruct (Hk _ _ Hc) as (cnd' & ? & ? & ?). by simplify_eq. Qed.

Lemma own_child_below y c' : children cnd !! c' = Some y -> y ∉ U /\ y <> n.
Proof.
  intros Hy. split.
  - intros Hin. apply (focus_out _ _ _ _ _ _ _ _ _ F _ _ Hc).
    by eapply (private_refs _ _ _ (focus_private _ _ _ _ _ _ _ _ _ F)).
  - intros ->. destruct own_child_trie as [_ Ht]. by eapply trie_acyclic.
Qed.

(** The child is used only by [prev]: it is taken as it is. *)
Lemma own_in_place :
  (use_count H (outside ++ [prev]) n <= 1)%nat ->
  focus X m H outside (S ++ siblings ndp c) (U ∪ {[n]}) n cnd (p ++ trieKey cnd).
Proof.
  intros Hcount. destruct (use_count_one _ _ _ _ _ _ (focus_node _ _ _ _ _ _ _ _ _ F) Hc Hcount) as [Hnot Huniq].
  destruct own_child_trie as [_ Ht]. destruct F as [Hcl Hod [Hrefs Hheld] HUd HS Hprev Hnd Hkids Hout].
  assert (HnU : n ∉ U) by eauto. split; try done.
  - split.
    + intros x nd c' y Hx Hy Hin. apply elem_of_union in Hin as [Hin|Hin].
      * apply elem_of_union_l. eauto.
      * apply elem_of_singleton in Hin as ->. destruct (Huniq _ _ _ Hx Hy) as [-> _]. set_solver.
    + intros x Hx Hin. apply elem_of_union in Hin as [Hin|Hin].
      * apply elem_of_app in Hx as [Hx|Hx]; [apply (Hheld x); set_solver|].
        apply elem_of_app in Hx as [Hx|Hx]; [apply (Hheld x); set_solver|].
        apply elem_of_siblings in Hx as (c' & _ & Hx). by eapply Hout.
      * apply elem_of_singleton in Hin as ->. apply elem_of_app in Hx as [Hx|Hx]; [set_solver|].
        apply elem_of_app in Hx as [Hx|Hx].
        -- destruct (HS _ Hx) as (x & xnd & c' & HxU & Hne & Hxl & Hxc). by destruct (Huniq _ _ _ Hxl Hxc).
        -- apply elem_of_siblings in Hx as (c' & Hne & Hx). by destruct (Huniq _ _ _ Hnd Hx).
  - intros x Hx. apply elem_of_union in Hx as [Hx|Hx]; [auto|]. apply elem_of_singleton in Hx as ->. by eexists.
  - intros y Hy. apply elem_of_app in Hy as [Hy|Hy].
    + destruct (HS _ Hy) as (x & xnd & c' & HxU & _ & ? & ?). exists x, xnd, c'. split_and!; [set_solver| |done..]. by intros ->.
    + apply elem_of_siblings in Hy as (c' & Hne & Hy). exists prev, ndp, c'. split_and!; [set_solver| |done..]. by intros ->.
  - set_solver.
  - by eapply trie_lookup.
  - intros c' y Hy. destruct (own_child_below _ _ Hy). set_solver.
Qed.

(** The child is copied below [prev]. *)
Definition copied : gmap positive Node := <[prev := relink ndp c (next_loc H)]> (<[next_loc H := cnd]> H).

Lemma prev_not_fresh : prev <> next_loc H.
Proof. eapply fresh_ne, (focus_node _ _ _ _ _ _ _ _ _ F). Qed.

Lemma copied_same : same_outside U H copied.
Proof.
  pose proof prev_not_fresh. intros x nd Hx Hl. unfold copied. pose proof (focus_prev _ _ _ _ _ _ _ _ _ F).
  rewrite lookup_insert_ne by (intros ->; done). rewrite lookup_insert_ne; [done|]. intros <-. by rewrite next_loc_fresh in Hl.
Qed.

Lemma copied_fresh : copied !! next_loc H = Some cnd.
Proof. pose proof prev_not_fresh. unfold copied. rewrite lookup_insert_ne by done. by rewrite lookup_insert_eq. Qed.

Lemma copied_prev : copied !! prev = Some (relink ndp c (next_loc H)).
Proof. unfold copied. by rewrite lookup_insert_eq. Qed.

(** The nodes of the copy. *)
Lemma copied_lookup x nd :
  copied !! x = Some nd ->
  (x = prev /\ nd = relink ndp c (next_loc H)) \/ (x = next_loc H /\ nd = cnd) \/ (x <> prev /\ H !! x = Some nd).
Proof.
  unfold copied. intros Hx. apply lookup_insert_Some in Hx as [[<- <-]|[Hne Hx]]; [auto|].
  apply lookup_insert_Some in Hx as [[<- <-]|[Hne' Hx]]; auto.
Qed.

Lemma copied_dom x : is_Some (H !! x) -> is_Some (copied !! x).
Proof. intros [nd Hx]. unfold copied. rewrite !lookup_insert_is_Some. destruct (decide (prev = x)); [auto|].
  right. split; [done|]. destruct (decide (next_loc H = x)); [auto|]. right. split; [done|]. by eexists. Qed.

Lemma copied_closed : closed copied.
Proof.
  pose proof (focus_closed _ _ _ _ _ _ _ _ _ F) as Hcl. pose proof (focus_node _ _ _ _ _ _ _ _ _ F) as Hnd.
  intros x nd c' y Hx Hy. apply copied_lookup in Hx as [[-> ->]|[[-> ->]|[_ Hx]]].
  - simpl in Hy. apply lookup_insert_Some in Hy as [[<- <-]|[_ Hy]]; [by rewrite copied_fresh|]. apply copied_dom. eauto.
  - apply copied_dom. eauto.
  - apply copied_dom. eauto.
Qed.

Lemma own_copied :
  focus X m copied outside (S ++ siblings ndp c) (U ∪ {[next_loc H]}) (next_loc H) cnd (p ++ trieKey cnd).
Proof.
  pose proof prev_not_fresh as Hpf. pose proof copied_closed as Hcc. pose proof copied_same as Hsame.
  destruct own_child_trie as [_ Ht].
  pose proof own_child_below as Hbelow. pose proof copied_lookup as Hlook. pose proof copied_dom as Hdom.
  pose proof copied_prev as Hcp. pose proof copied_fresh as Hcf.
  destruct F as [Hcl Hod [Hrefs Hheld] HUd HS Hprev Hnd Hkids Hout].
  assert (Hfresh : forall x nd c', H !! x = Some nd -> children nd !! c' <> Some (next_loc H)) by (intros x nd c0 Hx; by eapply fresh_unreferenced).
  assert (HfU : next_loc H ∉ U) by (intros Hin; destruct (HUd _ Hin) as [? E]; by rewrite next_loc_fresh in E).
  split; try done.
  - intros x Hx. auto.
  - split.
    + intros x nd c' y Hx Hy Hin. apply Hlook in Hx as [[-> _]|[[-> _]|[_ Hx]]]; [set_solver..|].
      apply elem_of_union_l. apply elem_of_union in Hin as [Hin|Hin]; [eauto|].
      apply elem_of_singleton in Hin as ->. by destruct (Hfresh _ _ _ Hx Hy).
    + intros x Hx Hin. apply elem_of_union in Hin as [Hin|Hin].
      * apply elem_of_app in Hx as [Hx|Hx]; [apply (Hheld x); set_solver|].
        apply elem_of_app in Hx as [Hx|Hx]; [apply (Hheld x); set_solver|].
        apply elem_of_siblings in Hx as (c' & _ & Hx). by eapply Hout.
      * apply elem_of_singleton in Hin as ->. apply elem_of_app in Hx as [Hx|Hx].
        -- destruct (Hod _ Hx) as [? E]. by rewrite next_loc_fresh in E.
        -- apply elem_of_app in Hx as [Hx|Hx].
           ++ destruct (HS _ Hx) as (x & xnd & c' & _ & _ & Hxl & Hxc). by destruct (Hfresh _ _ _ Hxl Hxc).
           ++ apply elem_of_siblings in Hx as (c' & _ & Hx). by destruct (Hfresh _ _ _ Hnd Hx).
  - intros x Hx. apply elem_of_union in Hx as [Hx|Hx]; [auto|]. apply elem_of_singleton in Hx as ->. by eexists.
  - intros y Hy. apply elem_of_app in Hy as [Hy|Hy].
    + destruct (HS _ Hy) as (x & xnd & c' & HxU & Hne & Hxl & ?). exists x, xnd, c'. split_and!; [set_solver| | |done].
      * by intros ->.
      * unfold copied. rewrite lookup_insert_ne by done. rewrite lookup_insert_ne; [done|]. by intros <-.
    + apply elem_of_siblings in Hy as (c' & Hne & Hy). exists prev, (relink ndp c (next_loc H)), c'. split_and!; [set_solver|done..|].
      simpl. by rewrite lookup_insert_ne.
  - set_solver.
  - eapply kids_frame; [by split|done|done| |done|by eapply trie_lookup]. intros c' y Hy. by apply (Hbelow y c').
  - intros c' y Hy. destruct (Hbelow _ _ Hy). assert (y <> next_loc H) by (intros ->; exact (Hfresh _ _ _ Hn Hy)). set_solver.
Qed.

Lemma copied_kids : kids_ok X copied m p (relink ndp c (next_loc H)).
Proof.
  destruct own_child_trie as [Hok Ht]. pose proof (focus_private _ _ _ _ _ _ _ _ _ F) as Hp.
  eapply (kids_replace X H copied m m p ndp _ c (next_loc H) cnd (p ++ [c])); eauto using copied_fresh.
  - by eapply focus_kids.
  - intros c' y _ Hy. eapply private_preserved; [done|apply copied_same|by eapply focus_out].
  - apply trie_unfold. exists cnd. split_and!; [apply copied_fresh|by eapply trie_lookup|].
    eapply kids_frame; [done|apply copied_same|done| |done|by eapply trie_lookup]. intros c' y Hy. by eapply own_child_below.
Qed.

End own_child.

(** [own_child] makes the child the store's own, without changing what it stands for. *)
Lemma own_child_ok X m s locals S U prev ndp p c n cnd :
  focus X m (nodes s) (others s ++ locals) S U prev ndp p ->
  children ndp !! c = Some n -> nodes s !! n = Some cnd ->
  exists n' H1,
    own_child s locals prev n n = Some (n', H1) /\
    focus X m H1 (others s ++ locals) (S ++ siblings ndp c) (U ∪ {[n']}) n' cnd (p ++ trieKey cnd) /\
    H1 !! prev = Some (relink ndp c n') /\ kids_ok X H1 m p (relink ndp c n') /\
    same_outside U (nodes s) H1 /\ (forall x, is_Some (nodes s !! x) -> is_Some (H1 !! x)) /\
    (forall x, x <> prev -> is_Some (nodes s !! x) -> H1 !! x = nodes s !! x) /\ n' ∉ U.
Proof.
  intros F Hc Hn. unfold own_child. case_if; bprop.
  - destruct (own_child_trie _ _ _ _ _ _ _ _ _ _ _ _ F Hc Hn) as [Hok _].
    rewrite Hn. cbn [mbind option_bind]. rewrite (child_front _ _ _ _ Hok). cbn [mbind option_bind].
    unfold make_shared, set_child. rewrite lookup_insert_ne by (apply not_eq_sym; by eapply prev_not_fresh).
    rewrite (focus_node _ _ _ _ _ _ _ _ _ F). cbn [mbind option_bind].
    exists (next_loc (nodes s)), (copied (nodes s) prev ndp c cnd). split_and!.
    + done.
    + by eapply own_copied.
    + apply copied_prev.
    + by eapply copied_kids.
    + by eapply copied_same.
    + intros x. apply copied_dom.
    + intros x Hx [xnd Hxl]. unfold copied. rewrite lookup_insert_ne by done.
      rewrite lookup_insert_ne by (apply not_eq_sym; by eapply fresh_ne). done.
    + intros Hin. destruct (focus_U _ _ _ _ _ _ _ _ _ F _ Hin) as [? E]. by rewrite next_loc_fresh in E.
  - exists n, (nodes s). rewrite relink_same by done.
    split_and!; [done| |by eapply focus_node|by eapply focus_kids|by intros ???|done..|by eapply (focus_out _ _ _ _ _ _ _ _ _ F)].
    eapply own_in_place; eauto. unfold count_pointers, held in Heqb.
    replace (_root s :: others s ++ locals ++ [prev; n; n]) with ([_root s] ++ ((others s ++ locals) ++ [prev]) ++ [n; n]) in Heqb
      by by rewrite <- !app_assoc.
    assert (Htwo : length (filter (fun x => x = n) [n; n]) = 2%nat) by by rewrite !filter_cons_True.
    unfold use_count in Heqb |- *. rewrite (filter_app _ [_root s]), (filter_app _ _ [n; n]), !length_app, Htwo in Heqb. lia.
Qed.

(** ** Results of the walk *)

Definition own_same (nd nd' : Node) : Prop :=
  trieKey nd' = trieKey nd /\ data nd' = data nd /\
  _numSubtreeElems nd' = _numSubtreeElems nd /\ _sizeSubtreeElems nd' = _sizeSubtreeElems nd.

(** What the operation does to the map. *)
Definition effect (value : option (list Z * list Z)) (key : list Z) (m m' : contents) : Prop :=
  match value with
  | Some v => v.1 = key /\ m' = <[key := v.2]> m
  | None => m' = delete key m
  end.

Lemma effect_other value key m m' k : effect value key m m' -> k <> key -> m !! k = m' !! k.
Proof. destruct value as [v|]; simpl; [intros [_ ->]|intros ->]; intros Hk; by simplify_map_eq. Qed.

(** The walk from [prev] on: below [prev] there is what [m'] says, and the rest is preserved. *)
Record upserted (X : Prop) (m' : contents) (value : option (list Z * list Z)) (H H' : gmap positive Node)
    (held : list positive) (U : gset positive) (prev : positive) (nd : Node) (p : list Z) (n : positive) : Prop := {
  up_node : exists nd', H' !! prev = Some nd' /\ own_same nd nd' /\ kids_ok X H' m' p nd' /\
              forall c, is_Some (children nd !! c) -> is_Some (children nd' !! c);
  up_closed : closed H';
  up_dom : forall x, is_Some (H !! x) -> is_Some (H' !! x);
  up_preserved : forall l, l ∈ held -> preserved H H' l;
  up_above : forall x, x ∈ U -> x <> prev -> H' !! x = H !! x;
  up_result : forall v, value = Some v -> exists rnd, H' !! n = Some rnd /\ data rnd = Some v;
}.

(** Where the walk owns the child [n] of [prev] at [c]. *)
Record at_child (X : Prop) (m : contents) (H H1 : gmap positive Node) (outside S : list positive) (U : gset positive)
    (prev : positive) (ndp : Node) (p : list Z) (c : Z) (n : positive) (cnd : Node) : Prop := {
  at_before : focus X m H outside S U prev ndp p;
  at_focus : focus X m H1 outside (S ++ siblings ndp c) (U ∪ {[n]}) n cnd (p ++ trieKey cnd);
  at_prev : H1 !! prev = Some (relink ndp c n);
  at_kids : kids_ok X H1 m p (relink ndp c n);
  at_same : same_outside U H H1;
  at_dom : forall x, is_Some (H !! x) -> is_Some (H1 !! x);
  at_above : forall x, x <> prev -> is_Some (H !! x) -> H1 !! x = H !! x;
  at_new : n ∉ U;
}.

Section at_child.

Context {X : Prop} {m : contents} {H H1 : gmap positive Node} {outside S : list positive} {U : gset positive}.
Context {prev : positive} {ndp : Node} {p : list Z} {c : Z} {n : positive} {cnd : Node}.
Context (A : at_child X m H H1 outside S U prev ndp p c n cnd).

Lemma at_node : H1 !! n = Some cnd.
Proof. eapply focus_node, (at_focus _ _ _ _ _ _ _ _ _ _ _ _ _ A). Qed.

Lemma at_trie : child_ok m p c cnd /\ trie X H1 m n (p ++ trieKey cnd).
Proof.
  destruct (at_kids _ _ _ _ _ _ _ _ _ _ _ _ _ A) as [_ Hk]. destruct (Hk c n) as (cnd' & Hn & Hok & Ht).
  - simpl. by rewrite lookup_insert_eq.
  - rewrite at_node in Hn. by simplify_eq.
Qed.

Lemma at_private : private H1 (outside ++ S ++ siblings ndp c) (U ∪ {[n]}).
Proof. eapply focus_private, (at_focus _ _ _ _ _ _ _ _ _ _ _ _ _ A). Qed.

Lemma at_prev_owned : prev ∈ U ∪ {[n]}.
Proof. apply elem_of_union_l. eapply focus_prev, (at_before _ _ _ _ _ _ _ _ _ _ _ _ _ A). Qed.

Lemma at_prev_ne : prev <> n.
Proof.
  intros ->. destruct A as [_ _ Hprev Hkids _ _ _ _]. destruct Hkids as [_ Hk].
  destruct (Hk c n) as (cnd' & Hn & _ & Ht); [simpl; by rewrite lookup_insert_eq|].
  eapply (trie_acyclic _ _ _ _ _ _ c Ht Hprev). simpl. by rewrite lookup_insert_eq.
Qed.

(** The case distinction of the walk ends with a memory that has a new child at [c]. *)
Lemma upserted_intro m' value key H' ndp' n2 nd2 r :
  (forall k, k <> key -> m !! k = m' !! k) -> (exists t, key = p ++ c :: t) ->
  (forall l, l ∈ outside ++ S ++ siblings ndp c -> preserved H1 H' l) ->
  (forall x, x ∈ U -> x <> prev -> H' !! x = H1 !! x) ->
  closed H' -> (forall x, is_Some (H1 !! x) -> is_Some (H' !! x)) ->
  H' !! prev = Some ndp' -> own_same ndp ndp' -> children ndp' = <[c := n2]> (children ndp) ->
  H' !! n2 = Some nd2 -> child_ok m' p c nd2 -> trie X H' m' n2 (p ++ trieKey nd2) ->
  (forall v, value = Some v -> exists rnd, H' !! r = Some rnd /\ data rnd = Some v) ->
  upserted X m' value H H' (outside ++ S) U prev ndp p r.
Proof.
  intros Heq Hkey Hs Habove Hcl Hdom Hprev Hown Hch Hn2 Hok Ht Hres.
  destruct A as [Hf _ _ Hkids Hsame Hdom1 Habove1 _]. split; try done.
  - exists ndp'. split_and!; [done..| |].
    + eapply (kids_replace X H1 H' m m' p (relink ndp c n)); eauto.
      * intros c' y Hne Hy. simpl in Hy. rewrite lookup_insert_ne in Hy by done.
        apply Hs. apply elem_of_app. right. apply elem_of_app. right. apply elem_of_siblings. eauto.
      * simpl. by rewrite Hch, insert_insert_eq.
    + intros c' Hc'. rewrite Hch. apply lookup_insert_is_Some'. auto.
  - intros x Hx. auto.
  - intros l Hl. eapply preserved_trans.
    + eapply private_preserved; [by eapply focus_private|done|]. by eapply (private_held _ _ _ (focus_private _ _ _ _ _ _ _ _ _ Hf)).
    + apply Hs. set_solver.
  - intros x Hx Hne. rewrite Habove by done. apply Habove1; [done|]. by eapply focus_U.
Qed.

Lemma at_owned_ne x : x ∈ U -> x <> n.
Proof. intros Hx ->. by apply (at_new _ _ _ _ _ _ _ _ _ _ _ _ _ A). Qed.

(** Only owned nodes change. *)
Lemma at_kept H' l : same_outside (U ∪ {[n]}) H1 H' -> l ∈ outside ++ S ++ siblings ndp c -> preserved H1 H' l.
Proof.
  intros Hs Hl. pose proof at_private as Hpr. eapply private_preserved; [done..|]. by eapply (private_held _ _ _ Hpr).
Qed.

End at_child.
