(* ===== verification/RadixUpsert.v ===== *)
(** * Insertion, update and removal of data in the radix store

    The cases at the end of the walk of [_upsertWithCopyOnSharedNodes]: a new child, a split
    of a node, new data of a node and the removal of the data of an inner node; and the walk
    itself. *)

From Stdlib Require Import ZArith Lia.
From stdpp Require Import prelude gmap.
From S2P Require Import Prelude RadixNode RadixStore RadixInv RadixLookup RadixOwn.

Open Scope Z_scope.

(** ** [_compressOnlyChild] *)

Lemma private_update H held U x nd : private H held U -> x ∈ U -> private (<[x := nd]> H) held U.
Proof.
  intros [Hr Hh] Hx. split; [|done]. intros y ynd c z Hy Hc Hz.
  apply lookup_insert_Some in Hy as [[<- _]|[_ Hy]]; [done|eauto].
Qed.

Lemma not_owned_ne (U : gset positive) x n : x ∉ U ∪ {[n]} -> n <> x.
Proof. set_solver. Qed.

Lemma owned_in (U : gset positive) n : n ∈ U ∪ {[n]}.
Proof. set_solver. Qed.

(** The node after a compression: its path may have become longer by [s]. *)
Record compressed (X : Prop) (H : gmap positive Node) (m : contents) (q : list Z) (nd nd' : Node) (s : list Z) : Prop := {
  comp_key : trieKey nd' = trieKey nd ++ s;
  comp_num : _numSubtreeElems nd' = _numSubtreeElems nd;
  comp_size : _sizeSubtreeElems nd' = _sizeSubtreeElems nd;
  comp_data : data nd' = pair (q ++ s) <$> m !! (q ++ s);
  comp_kids : kids_ok X H m (q ++ s) nd';
  comp_branches : trieKey nd <> [] -> data nd' = None -> branches nd';
  comp_prefix : forall k, is_Some (m !! (q ++ k)) -> s `prefix_of` k;
  comp_children : forall c y, children nd' !! c = Some y ->
                    children nd !! c = Some y \/
                    exists c1 y1 nd1, children nd !! c1 = Some y1 /\ H !! y1 = Some nd1 /\ children nd1 !! c = Some y;
  comp_root : trieKey nd = [] -> nd' = nd;
}.

Lemma compressed_same X H m q nd :
  data nd = pair q <$> m !! q -> kids_ok X H m q nd -> (trieKey nd <> [] -> data nd = None -> branches nd) ->
  compressed X H m q nd nd [].
Proof.
  intros Hd Hk Hb. split; rewrite ?app_nil_r; auto. intros k _. apply prefix_nil.
Qed.

Lemma kids_byte X H m q nd c y : kids_ok X H m q nd -> children nd !! c = Some y -> byte c.
Proof. intros [_ Hk] Hc. destruct (Hk _ _ Hc) as (cnd & _ & Hok & _). apply Hok. Qed.

Lemma only_child_prefix X H m q nd c cnd :
  kids_ok X H m q nd -> m !! q = None -> child_ok m q c cnd -> (forall c', c' <> c -> children nd !! c' = None) ->
  forall k, is_Some (m !! (q ++ k)) -> trieKey cnd `prefix_of` k.
Proof.
  intros [Hn _] Hq Hok Honly k Hk. destruct k as [|b k].
  - rewrite app_nil_r, Hq in Hk. by destruct Hk.
  - destruct (decide (b = c)) as [->|Hne]; [by apply (child_prefix _ _ _ _ Hok)|].
    rewrite (Hn b (Honly _ Hne) k) in Hk. by destruct Hk.
Qed.

Lemma compress_ok X H m l q nd :
  H !! l = Some nd -> data nd = pair q <$> m !! q -> kids_ok X H m q nd ->
  (trieKey nd <> [] -> data nd = None -> exists c y, children nd !! c = Some y) ->
  exists nd' s, _compressOnlyChild H l = Some (<[l := nd']> H) /\ compressed X H m q nd nd' s.
Proof.
  intros Hl Hd Hk Hne. unfold _compressOnlyChild. rewrite Hl. cbn [mbind option_bind].
  destruct (bool_decide (is_Some (data nd)) || bool_decide (trieKey nd = [])) eqn:Heqb.
  { apply orb_true_iff in Heqb. exists nd, []. rewrite insert_id by done. split; [done|]. apply compressed_same; [done..|].
    intros Hkey Hnone. destruct Heqb as [Hs|Hs]; bprop; [|done]. rewrite Hnone in Hs. by destruct Hs. }
  apply orb_false_iff in Heqb as [Hnone Hkey]. bprop. apply eq_None_not_Some in Hnone.
  assert (Hq : m !! q = None) by (destruct (m !! q); [by rewrite Hnone in Hd|done]).
  destruct (children_from nd 0) as [|y [|y2 t]] eqn:E.
  - exfalso. destruct (Hne Hkey Hnone) as (c & y & Hc). pose proof (kids_byte _ _ _ _ _ _ _ Hk Hc) as Hb.
    by rewrite (children_from_nil _ _ _ E) in Hc by (unfold byte in Hb; lia).
  - apply children_from_cons in E as (c & Hc & Hy & Hlt & Hrest). symmetry in Hrest.
    assert (Honly : forall c', c' <> c -> children nd !! c' = None).
    { intros c' Hne'. destruct (children nd !! c') as [y'|] eqn:E'; [|done].
      pose proof (kids_byte _ _ _ _ _ _ _ Hk E') as [Hb1 Hb2]. destruct (decide (c' < c)).
      - rewrite Hlt in E' by lia. done.
      - by rewrite (children_from_nil _ _ _ Hrest) in E' by lia. }
    destruct (proj2 Hk _ _ Hy) as (cnd & Hcnd & Hok & Ht). rewrite Hcnd. cbn [mbind option_bind].
    destruct (trie_lookup _ _ _ Ht Hcnd) as [[Hcd _] Hck].
    eexists _, (trieKey cnd). split; [done|]. split; simpl; try done.
    + rewrite Hnone. by destruct (data cnd).
    + intros _ Hn. apply (child_branches _ _ _ _ Hok). by destruct (data cnd).
    + by eapply only_child_prefix.
    + intros c' y' Hy'. right. eauto 10.
  - apply children_from_cons in E as (c & _ & Hy & _ & Ht). symmetry in Ht.
    apply children_from_cons in Ht as (c2 & Hc2 & Hy2 & _).
    exists nd, []. rewrite insert_id by done. split; [done|]. apply compressed_same; [done..|].
    intros _ _. exists c, c2, y, y2. split_and!; [lia|done..].
Qed.

(** ** The end of the walk *)

(** The key ends where nothing is: a new child of [prev]. *)
Lemma new_child_ok X m H outside S U prev ndp p c t v :
  focus X m H outside S U prev ndp p -> children ndp !! c = None -> byte c -> v.1 = p ++ c :: t ->
  exists n H', _addChild H prev (c :: t) (Some v) = Some (n, H') /\
    upserted X (<[v.1 := v.2]> m) (Some v) H H' (outside ++ S) U prev ndp p n.
Proof.
  intros F Hc Hbyte Hkey. destruct v as [key val]. simpl in *. subst key.
  unfold _addChild. cbn [head mbind option_bind]. rewrite (focus_node _ _ _ _ _ _ _ _ _ F). cbn [mbind option_bind].
  rewrite Hc. unfold make_shared, set_child. cbn [mbind option_bind].
  set (new := mkNode (c :: t) (Some (p ++ c :: t, val)) ∅ 1 (string_size val)).
  rewrite lookup_insert_ne by (apply not_eq_sym; by eapply prev_not_fresh).
  rewrite (focus_node _ _ _ _ _ _ _ _ _ F). cbn [mbind option_bind].
  exists (next_loc H), (copied H prev ndp c new). split; [done|].
  pose proof (copied_fresh _ _ _ _ _ _ _ _ _ c new F) as Hfr. pose proof (copied_same _ _ _ _ _ _ _ _ _ c new F) as Hsame.
  assert (Hnone : forall k, m !! (p ++ c :: k) = None) by (apply (proj1 (focus_kids _ _ _ _ _ _ _ _ _ F) c Hc)).
  assert (Hins : forall k, k <> t -> <[p ++ c :: t := val]> m !! (p ++ c :: k) = None).
  { intros k Hk. rewrite lookup_insert_ne; [done|]. intros E. apply app_inv_head in E. by simplify_eq. }
  split.
  - eexists. split_and!; [apply copied_prev|by split_and!| |intros c'; simpl; rewrite lookup_insert_is_Some'; auto].
    eapply (kids_replace X H _ m _ p ndp _ c (next_loc H) new (p ++ c :: t));
      [by eapply focus_kids| | |eauto|done|done| |].
    + intros c' y _ Hy. eapply private_preserved; [by eapply focus_private|done|by eapply focus_out].
    + intros k Hk. by simplify_map_eq.
    + split; [done..| |done]. intros k Hk. simpl. destruct (decide (k = t)) as [->|Hne]; [done|].
      rewrite Hins in Hk by done. by destruct Hk.
    + apply trie_unfold. exists new. split_and!; [done| |].
      * split; [simpl; by simplify_map_eq|]. intros _. simpl. rewrite !weigh_insert by (auto; done).
        rewrite !(weigh_none _ m) by (intros k; rewrite <- app_assoc; apply Hnone). unfold one, string_size, size_t.
        by rewrite !Z.add_0_r, Zmod_mod.
      * apply kids_none; [done|]. intros c' k. simpl. rewrite <- app_assoc. apply Hins. intros E.
        apply (f_equal length) in E. rewrite length_app in E. simpl in E. lia.
  - apply closed_insert; [apply closed_insert; [by eapply focus_closed|]|].
    + intros c' y Hy. simpl in Hy. by rewrite lookup_empty in Hy.
    + intros c' y Hy. simpl in Hy. apply lookup_insert_Some in Hy as [[_ <-]|[_ Hy]]; [by exists new|].
      apply (copied_dom H prev ndp c new). by eapply (focus_closed _ _ _ _ _ _ _ _ _ F _ _ _ _ (focus_node _ _ _ _ _ _ _ _ _ F)).
  - intros x. apply copied_dom.
  - intros l Hl. eapply private_preserved; [by eapply focus_private|done|].
    by eapply (private_held _ _ _ (focus_private _ _ _ _ _ _ _ _ _ F)).
  - intros x Hx Hne. unfold copied. rewrite lookup_insert_ne by done. rewrite lookup_insert_ne; [done|].
    intros <-. destruct (focus_U _ _ _ _ _ _ _ _ _ F _ Hx) as [? E]. by rewrite next_loc_fresh in E.
  - intros v Hv. simplify_eq. eauto.
Qed.

Section at_child.

Context {X : Prop} {m : contents} {H H1 : gmap positive Node} {outside S : list positive} {U : gset positive}.
Context {prev : positive} {ndp : Node} {p : list Z} {c : Z} {n : positive} {cnd : Node}.
Context (A : at_child X m H H1 outside S U prev ndp p c n cnd).

Lemma at_front : exists t, trieKey cnd = c :: t.
Proof. destruct (at_trie A) as [Hok _]. apply head_cons, (child_front _ _ _ _ Hok). Qed.

Lemma at_below c' y : children cnd !! c' = Some y -> y ∉ U ∪ {[n]}.
Proof. apply (focus_out _ _ _ _ _ _ _ _ _ (at_focus _ _ _ _ _ _ _ _ _ _ _ _ _ A)). Qed.

Lemma at_closed : closed H1.
Proof. apply (focus_closed _ _ _ _ _ _ _ _ _ (at_focus _ _ _ _ _ _ _ _ _ _ _ _ _ A)). Qed.

(** A node of the same place with other fields: the memory is only changed at [n]. *)
Lemma update_child m' value key nd' t :
  (forall k, k <> key -> m !! k = m' !! k) -> key = p ++ c :: t ->
  child_ok m' p c nd' -> own_ok X m' (p ++ trieKey nd') nd' -> kids_ok X (<[n := nd']> H1) m' (p ++ trieKey nd') nd' ->
  (forall c' y, children nd' !! c' = Some y -> is_Some (H1 !! y)) ->
  (forall v, value = Some v -> data nd' = Some v) ->
  upserted X m' value H (<[n := nd']> H1) (outside ++ S) U prev ndp p n.
Proof.
  intros Heq Hkey Hok Hown Hkids Hptr Hres. pose proof (at_node A) as Hn. pose proof (at_prev_ne A) as Hne.
  eapply (upserted_intro A m' value key _ (relink ndp c n) n nd'); eauto.
  - intros l Hl. apply (at_kept A); [|done]. apply same_outside_insert. left. apply owned_in.
  - intros x Hx Hpx. rewrite lookup_insert_ne; [done|]. apply not_eq_sym. by apply (at_owned_ne A).
  - eapply closed_update; eauto using at_closed.
  - intros x Hx. apply lookup_insert_is_Some'. auto.
  - rewrite lookup_insert_ne by done. eapply at_prev, A.
  - by split_and!.
  - by rewrite lookup_insert_eq.
  - apply trie_unfold. exists nd'. rewrite lookup_insert_eq. auto.
  - intros v Hv. exists nd'. rewrite lookup_insert_eq. auto.
Qed.

(** The key is that of [n]: it gets new data. *)
Lemma set_data_ok v num sz :
  v.1 = p ++ trieKey cnd -> adds X m (<[v.1 := v.2]> m) v.1 num sz ->
  upserted X (<[v.1 := v.2]> m) (Some v) H (<[n := add_counts num sz {| cnd with data := Some v |}]> H1) (outside ++ S) U prev ndp p n.
Proof.
  intros Hv Hadds. destruct v as [key val]. simpl in *. subst key. destruct at_front as [t Ht].
  destruct (at_trie A) as [Hok Htr]. pose proof (at_node A) as Hn.
  destruct (trie_lookup _ _ _ Htr Hn) as [[_ Hcnt] Hkids].
  assert (Heq : forall k, k <> p ++ trieKey cnd -> m !! k = <[p ++ trieKey cnd := val]> m !! k) by (intros; by simplify_map_eq).
  eapply (update_child _ _ (p ++ trieKey cnd) _ t); simpl; auto.
  - by rewrite Ht.
  - split; simpl; try apply Hok; [|done]. intros k Hk. destruct (decide (trieKey cnd = c :: k)) as [->|Hne]; [done|].
    apply (child_prefix _ _ _ _ Hok). rewrite Heq; [done|]. intros E. apply app_inv_head in E. by rewrite <- E in Hne.
  - split; [simpl; by simplify_map_eq|]. by eapply counted_add.
  - eapply (kids_frame X H1 _ m _ _ cnd); [by eapply (at_private A)|apply same_outside_insert; left; apply owned_in|done|apply at_below| |done].
    intros c' k. apply Heq, app_ne_cons.
  - intros c' y Hy. eapply at_closed; [|done]. apply (at_node A).
Qed.

(** The key is that of [n], an inner node: it loses its data and is compressed. *)
Section remove_data.

Context (key : list Z) (Hkey : key = p ++ trieKey cnd) (nd0 nd' : Node) (s : list Z).
Context (Hkey0 : trieKey nd0 = trieKey cnd) (Hch0 : children nd0 = children cnd).
Context (Hnum0 : _numSubtreeElems nd0 = _numSubtreeElems cnd) (Hsize0 : _sizeSubtreeElems nd0 = _sizeSubtreeElems cnd).
Context (HC : compressed X (<[n := nd0]> H1) (delete key m) key nd0 nd' s).

Lemma removed_below c' y : children nd' !! c' = Some y -> y ∉ U ∪ {[n]} /\ is_Some (H1 !! y).
Proof.
  intros Hy. pose proof (at_node A) as Hn. pose proof (at_private A) as Hpr.
  apply (comp_children _ _ _ _ _ _ _ HC) in Hy as [Hy|(c1 & y1 & nd1 & Hy1 & Hnd1 & Hy)].
  - rewrite Hch0 in Hy. split; [by eapply at_below|by eapply at_closed].
  - rewrite Hch0 in Hy1. pose proof (at_below _ _ Hy1) as Ho. rewrite lookup_insert_ne in Hnd1 by by apply (not_owned_ne U).
    split; [|exact (at_closed _ _ _ _ Hnd1 Hy)]. intros Hin. apply Ho. by eapply (private_refs _ _ _ Hpr).
Qed.

Lemma removed_path : p ++ trieKey nd' = key ++ s.
Proof. rewrite (comp_key _ _ _ _ _ _ _ HC), Hkey0, Hkey. apply app_assoc. Qed.

Lemma removed_child_ok num sz : child_ok (delete key m) p c (add_counts num sz nd').
Proof.
  destruct at_front as [t Ht]. destruct (at_trie A) as [Hok _].
  assert (Hk' : trieKey nd' = trieKey cnd ++ s) by (by rewrite (comp_key _ _ _ _ _ _ _ HC), Hkey0).
  split; unfold add_counts; cbn [trieKey data].
  - apply Hok.
  - by rewrite Hk', Ht.
  - intros k Hk. rewrite Hk'.
    destruct (child_prefix _ _ _ _ Hok k) as [k' Hkk]; [apply lookup_delete_is_Some in Hk; tauto|].
    assert (Hpk : key ++ k' = p ++ c :: k) by by rewrite Hkey, <- app_assoc, Hkk.
    rewrite Hkk. apply prefix_app, (comp_prefix _ _ _ _ _ _ _ HC). by rewrite Hpk.
  - intros Hnone. destruct (comp_branches _ _ _ _ _ _ _ HC) as (c1 & c2 & l1 & l2 & Hb); [by rewrite Hkey0, Ht|done|].
    by exists c1, c2, l1, l2.
Qed.

Lemma removed_counted num sz :
  adds X m (delete key m) key num sz -> counted X (delete key m) (key ++ s) (add_counts num sz nd').
Proof.
  intros Hadds HX. destruct (at_trie A) as [_ Htr]. destruct (trie_lookup _ _ _ Htr (at_node A)) as [[_ Hcnt] _].
  rewrite !(weigh_longer _ _ _ s) by apply HC. rewrite <- Hkey in Hcnt.
  assert (Hc' : counted X (delete key m) key (add_counts num sz nd')); [|by apply Hc'].
  eapply counted_add; [done..| |]; [by rewrite (comp_num _ _ _ _ _ _ _ HC)|by rewrite (comp_size _ _ _ _ _ _ _ HC)].
Qed.

Lemma removed_kids num sz :
  kids_ok X (<[n := add_counts num sz nd']> H1) (delete key m) (key ++ s) (add_counts num sz nd').
Proof.
  pose proof (at_private A) as Hpr.
  eapply (kids_frame X (<[n := nd0]> H1) _ (delete key m) _ _ nd');
    [apply (private_update _ _ _ _ _ Hpr), owned_in| |done|by intros c' y [Hy _]%removed_below|done|apply HC].
  intros x nd Hx Hl. rewrite lookup_insert_ne in Hl |- * by by apply (not_owned_ne U). done.
Qed.

Lemma removed_ok num sz :
  adds X m (delete key m) key num sz ->
  upserted X (delete key m) None H (<[n := add_counts num sz nd']> H1) (outside ++ S) U prev ndp p n.
Proof.
  intros Hadds. destruct at_front as [t Ht].
  eapply (update_child _ _ key _ t); [by intros; simplify_map_eq|by rewrite Hkey, Ht|apply removed_child_ok| | | |done].
  - change (trieKey (add_counts num sz nd')) with (trieKey nd'). rewrite removed_path. split; [apply HC|by apply removed_counted].
  - change (trieKey (add_counts num sz nd')) with (trieKey nd'). rewrite removed_path. apply removed_kids.
  - by intros c' y [_ Hy]%removed_below.
Qed.

End remove_data.

Lemma remove_data_ok key num sz :
  key = p ++ trieKey cnd -> adds X m (delete key m) key num sz -> isLeaf cnd = false ->
  exists H2 H3 H', modify H1 n (fun nd => {| nd with data := None |}) = Some H2 /\ _compressOnlyChild H2 n = Some H3 /\
    modify H3 n (add_counts num sz) = Some H' /\
    upserted X (delete key m) None H H' (outside ++ S) U prev ndp p n.
Proof.
  intros Hkey Hadds Hleaf. destruct (at_trie A) as [_ Htr]. pose proof (at_node A) as Hn.
  destruct (trie_lookup _ _ _ Htr Hn) as [_ Hkids]. rewrite <- Hkey in Hkids.
  set (cnd0 := {| cnd with data := None |}).
  pose proof (not_leaf _ Hleaf) as Hchild.
  assert (Hk2 : kids_ok X (<[n := cnd0]> H1) (delete key m) key cnd0).
  { eapply (kids_frame X H1 _ m); [apply (at_private A)|apply same_outside_insert; left; apply owned_in|done|apply at_below| |done].
    intros c' k. rewrite lookup_delete_ne; [done|]. apply not_eq_sym, app_ne_cons. }
  destruct (compress_ok X (<[n := cnd0]> H1) (delete key m) n key cnd0) as (nd' & s & Hcomp & HC);
    [by rewrite lookup_insert_eq|by rewrite lookup_delete_eq|done|done|].
  exists (<[n := cnd0]> H1), (<[n := nd']> (<[n := cnd0]> H1)), (<[n := add_counts num sz nd']> H1). split_and!.
  - unfold modify. by rewrite Hn.
  - done.
  - unfold modify. rewrite lookup_insert_eq. cbn [mbind option_bind]. by rewrite !insert_insert_eq.
  - exact (removed_ok key Hkey cnd0 nd' s eq_refl eq_refl eq_refl eq_refl HC num sz Hadds).
Qed.

End at_child.
(** ** Splitting a node

    The node [n] is cut behind the part [u] of its [trieKey] that the key shares: a new node
    takes [u], and [n] keeps the rest [a :: as']. *)

Section split.

Context {X : Prop} {m : contents} {H H1 : gmap positive Node} {outside S : list positive} {U : gset positive}.
Context {prev : positive} {ndp : Node} {p : list Z} {c : Z} {n : positive} {cnd : Node}.
Context (A : at_child X m H H1 outside S U prev ndp p c n cnd) (Hkeys : keys_ok m).
Context (u : list Z) (a : Z) (as' : list Z) (Hu : head u = Some c) (Hcut : trieKey cnd = u ++ a :: as').

Definition cut : Node := {| cnd with trieKey := a :: as' |}.

Lemma cut_prefix k : is_Some (m !! (p ++ u ++ k)) -> a :: as' `prefix_of` k.
Proof.
  intros Hk. destruct (at_trie A) as [Hok _]. destruct (head_cons _ _ Hu) as [u' ->].
  destruct (child_prefix _ _ _ _ Hok (u' ++ k) Hk) as [k' Hk']. rewrite Hcut, <- app_assoc in Hk'. simpl in Hk'.
  exists k'. injection Hk' as Hk'. by apply app_inv_head in Hk'.
Qed.

Lemma cut_byte : byte a.
Proof.
  destruct (at_trie A) as [Hok Ht].
  destruct (trie_nonempty _ _ _ _ _ _ Ht (at_node A) (child_branches _ _ _ _ Hok)) as [k [v Hk]].
  destruct (Hkeys _ _ Hk) as [_ Hall]. rewrite Hcut in Hall. rewrite !Forall_app, Forall_cons in Hall. tauto.
Qed.

(** What is below [n] does not notice. *)
Lemma cut_trie H' m' key :
  same_outside (U ∪ {[n]}) H1 H' -> H' !! n = Some cut -> (forall k, k <> key -> m !! k = m' !! k) ->
  (forall k, key <> p ++ trieKey cnd ++ k) -> trie X H' m' n (p ++ u ++ a :: as').
Proof.
  intros Hs Hn Heq Hkey. destruct (at_trie A) as [_ Ht]. rewrite <- Hcut.
  assert (Hq : forall k, m !! ((p ++ trieKey cnd) ++ k) = m' !! ((p ++ trieKey cnd) ++ k)).
  { intros k. apply Heq. rewrite <- app_assoc. by apply not_eq_sym. }
  destruct (trie_lookup _ _ _ Ht (at_node A)) as [[Hd Hc] Hk]. apply trie_unfold. exists cut. split_and!; [done| |].
  - split; [|by eapply counted_agree in Hc]. specialize (Hq []). rewrite !app_nil_r in Hq. by rewrite <- Hq.
  - eapply (kids_frame X H1 _ m _ _ cnd); [apply (at_private A)|done|done|by apply (at_below A)| |done]. intros c' k. apply Hq.
Qed.

Lemma cut_child_ok m' key :
  (forall k, k <> key -> m !! k = m' !! k) -> (forall k, key <> p ++ u ++ a :: k) -> child_ok m' (p ++ u) a cut.
Proof.
  intros Heq Hkey. destruct (at_trie A) as [Hok _]. split; [apply cut_byte|done| |].
  - intros k Hk. apply cut_prefix. rewrite <- app_assoc in Hk. rewrite Heq; [done|]. by apply not_eq_sym.
  - intros Hd. destruct (child_branches _ _ _ _ Hok Hd) as (c1 & c2 & l1 & l2 & Hb). by exists c1, c2, l1, l2.
Qed.

(** The counters of the new node. *)
Lemma cut_counted v :
  m !! v.1 = None -> p ++ u `prefix_of` v.1 -> forall nd, 
  _numSubtreeElems nd = size_t (_numSubtreeElems cnd + 1) ->
  _sizeSubtreeElems nd = size_t (_sizeSubtreeElems cnd + string_size v.2) ->
  counted X (<[v.1 := v.2]> m) (p ++ u) nd.
Proof.
  intros Hv Hpre nd Hnum Hsz HX. destruct (at_trie A) as [_ Ht].
  destruct (trie_lookup _ _ _ Ht (at_node A)) as [[_ Hc] _]. destruct (Hc HX) as [H3 H4].
  assert (Hlong : forall f, weigh f m (p ++ trieKey cnd) = weigh f m (p ++ u)).
  { intros f. rewrite Hcut, app_assoc. apply weigh_longer. intros k. rewrite <- app_assoc. apply cut_prefix. }
  rewrite Hlong in H3, H4.
  rewrite !weigh_insert by done. rewrite Hnum, Hsz, H3, H4, !size_t_add. unfold one. split; f_equal; lia.
Qed.

Lemma split_prev_fresh : H1 !! next_loc H1 = None /\ prev <> next_loc H1 /\ n <> next_loc H1.
Proof.
  split_and!; [apply next_loc_fresh|eapply fresh_ne, at_prev, A|eapply fresh_ne, (at_node A)].
Qed.

(** The memory after a split: the new node [new] hangs below [prev], and [n] below [new]. *)
Record split_memory (H' : gmap positive Node) (new : positive) (nN : Node) : Prop := {
  sm_prev : exists nd', H' !! prev = Some nd' /\ own_same ndp nd' /\ children nd' = <[c := new]> (children ndp);
  sm_new : H' !! new = Some nN;
  sm_n : H' !! n = Some cut;
  sm_same : same_outside (U ∪ {[n]}) H1 H';
  sm_above : forall x, x ∈ U -> x <> prev -> H' !! x = H1 !! x;
  sm_closed : closed H';
  sm_dom : forall x, is_Some (H1 !! x) -> is_Some (H' !! x);
  sm_key : trieKey nN = u;
}.

Lemma split_upserted H' new nN v r :
  split_memory H' new nN -> m !! v.1 = None -> p ++ u `prefix_of` v.1 -> (forall k, v.1 <> p ++ u ++ a :: k) ->
  own_ok X (<[v.1 := v.2]> m) (p ++ u) nN -> kids_ok X H' (<[v.1 := v.2]> m) (p ++ u) nN ->
  (data nN = None -> branches nN) ->
  (exists rnd, H' !! r = Some rnd /\ data rnd = Some v) ->
  upserted X (<[v.1 := v.2]> m) (Some v) H H' (outside ++ S) U prev ndp p r.
Proof.
  intros HM Hv Hpre Hne Hown Hkids Hbr Hres. destruct (at_trie A) as [Hok _]. destruct (head_cons _ _ Hu) as [u' Hu'].
  destruct (sm_prev _ _ _ HM) as (nd' & Hp' & Hsame' & Hch'). destruct Hpre as [w Hw].
  assert (Heq : forall k, k <> v.1 -> m !! k = <[v.1 := v.2]> m !! k) by (intros; by simplify_map_eq).
  eapply (upserted_intro A _ (Some v) v.1 H' nd' new nN r); eauto; try apply HM.
  - exists (u' ++ w). by rewrite Hw, Hu', <- app_assoc.
  - intros l Hl. apply (at_kept A); [apply HM|done].
  - split; [apply Hok|by rewrite (sm_key _ _ _ HM)| |done]. rewrite (sm_key _ _ _ HM). intros k Hk.
    destruct (decide (p ++ c :: k = v.1)) as [E|E].
    + rewrite Hw, <- app_assoc in E. apply app_inv_head in E. rewrite E. by exists w.
    + rewrite <- Heq in Hk by done. apply (child_prefix _ _ _ _ Hok) in Hk as [k' Hk]. rewrite Hk, Hcut, <- app_assoc. by eexists.
  - rewrite (sm_key _ _ _ HM). apply trie_unfold. exists nN. split_and!; [apply HM|done..].
  - intros v' Hv'. by simplify_eq.
Qed.

(** Below the new node, [n] and at most one more child. *)
Lemma split_kids H' new nN v :
  split_memory H' new nN -> m !! v.1 = None -> (forall k, v.1 <> p ++ u ++ a :: k) ->
  children nN !! a = Some n ->
  (forall c', c' <> a -> children nN !! c' = None -> forall k, v.1 <> p ++ u ++ c' :: k) ->
  (forall c' y, c' <> a -> children nN !! c' = Some y ->
     exists cnd', H' !! y = Some cnd' /\ child_ok (<[v.1 := v.2]> m) (p ++ u) c' cnd' /\
                  trie X H' (<[v.1 := v.2]> m) y ((p ++ u) ++ trieKey cnd')) ->
  kids_ok X H' (<[v.1 := v.2]> m) (p ++ u) nN.
Proof.
  intros HM Hv Hne Ha Hnone Hsome.
  assert (Heq : forall k, k <> v.1 -> m !! k = <[v.1 := v.2]> m !! k) by (intros; by simplify_map_eq).
  split.
  - intros c' Hc' k. rewrite <- app_assoc. assert (Hca : c' <> a) by congruence.
    rewrite <- Heq by (apply not_eq_sym; by apply Hnone). apply eq_None_not_Some. intros Hs.
    apply cut_prefix in Hs as [k' Hk']. simpl in Hk'. congruence.
  - intros c' y Hy. destruct (decide (c' = a)) as [->|Hca]; [|by apply Hsome]. simplify_eq. exists cut. split_and!.
    + apply HM.
    + by apply (cut_child_ok _ v.1).
    + unfold cut. cbn [trieKey]. rewrite <- app_assoc. apply (cut_trie H' _ v.1); [apply HM|apply HM|done|].
      intros k E. apply (Hne (as' ++ k)). by rewrite E, Hcut, <- !app_assoc.
Qed.

(** [B] is the memory with the other new nodes. *)
Definition split_result (B : gmap positive Node) (new : positive) (nN : Node) : gmap positive Node :=
  <[n := cut]> (<[new := nN]> (<[prev := relink (relink ndp c n) c new]> B)).

Lemma split_result_ok B new nN :
  H1 ⊆ B -> closed B -> H1 !! new = None -> trieKey nN = u ->
  (forall c' y, children nN !! c' = Some y -> is_Some (B !! y)) ->
  split_memory (split_result B new nN) new nN.
Proof.
  intros Hsub Hcl Hfr Hkey Hch. pose proof (at_prev_ne A) as Hpn.
  assert (Hp : B !! prev = Some (relink ndp c n)) by (eapply lookup_weaken; [apply (at_prev _ _ _ _ _ _ _ _ _ _ _ _ _ A)|done]).
  assert (Hn : B !! n = Some cnd) by (eapply lookup_weaken; [apply (at_node A)|done]).
  assert (Hnn : n <> new) by (intros ->; by rewrite (at_node A) in Hfr).
  assert (Hnp : prev <> new) by (intros ->; by rewrite (at_prev _ _ _ _ _ _ _ _ _ _ _ _ _ A) in Hfr).
  assert (Hdom : forall x, is_Some (B !! x) -> is_Some (split_result B new nN !! x)).
  { intros x Hx. unfold split_result. rewrite !lookup_insert_is_Some'. auto. }
  assert (Hnew : split_result B new nN !! new = Some nN) by (unfold split_result; by rewrite lookup_insert_ne, lookup_insert_eq).
  unfold split_result in *. split; try done.
  - eexists. split_and!; [by rewrite !lookup_insert_ne, lookup_insert_eq by done|by split_and!|simpl; by rewrite insert_insert_eq].
  - by rewrite lookup_insert_eq.
  - intros x nd Hx Hl. assert (x <> new) by congruence.
    rewrite lookup_insert_ne by by apply (not_owned_ne U). rewrite lookup_insert_ne by done.
    rewrite lookup_insert_ne; [by eapply lookup_weaken|]. intros ->. apply Hx, (at_prev_owned A).
  - intros x Hx Hne. rewrite lookup_insert_ne by (apply not_eq_sym; by apply (at_owned_ne A)).
    assert (Hxd : is_Some (H1 !! x)) by (by apply (at_dom _ _ _ _ _ _ _ _ _ _ _ _ _ A), (focus_U _ _ _ _ _ _ _ _ _ (at_before _ _ _ _ _ _ _ _ _ _ _ _ _ A))).
    destruct Hxd as [xnd Hxd]. rewrite !lookup_insert_ne by congruence. rewrite Hxd. by eapply lookup_weaken.
  - intros x nd c' y Hx Hy. apply lookup_insert_Some in Hx as [[<- <-]|[_ Hx]]; [apply Hdom, (Hcl _ _ _ _ Hn Hy)|].
    apply lookup_insert_Some in Hx as [[<- <-]|[_ Hx]]; [by apply Hdom, (Hch c')|].
    apply lookup_insert_Some in Hx as [[<- <-]|[_ Hx]]; [|apply Hdom, (Hcl _ _ _ _ Hx Hy)].
    simpl in Hy. apply lookup_insert_Some in Hy as [[_ <-]|[_ Hy]]; [by eexists|apply Hdom, (Hcl _ _ _ _ Hp Hy)].
  - intros x [nd Hx]. apply Hdom. exists nd. by eapply lookup_weaken.
Qed.

(** The key ends at the new node. *)
Lemma split_inner_ok v :
  v.1 = p ++ u ->
  exists H', split_node H1 prev n cnd (length u) u (Some v) = Some (next_loc H1, H') /\
    upserted X (<[v.1 := v.2]> m) (Some v) H H' (outside ++ S) U prev ndp p (next_loc H1).
Proof.
  intros Hv. destruct split_prev_fresh as (Hfr & Hpf & Hnf). pose proof (at_prev_ne A) as Hpn.
  assert (Hnone : m !! v.1 = None).
  { rewrite Hv. apply eq_None_not_Some. intros Hs. rewrite <- (app_nil_r u) in Hs. apply cut_prefix in Hs. by destruct Hs. }
  assert (Hlong : forall c' k, v.1 <> p ++ u ++ c' :: k).
  { intros c' k. rewrite Hv, app_assoc. apply not_eq_sym, app_ne_cons. }
  set (nN := relink (add_counts 1 (string_size v.2) (mkNode u (Some v) ∅ (_numSubtreeElems cnd) (_sizeSubtreeElems cnd))) a n).
  exists (split_result H1 (next_loc H1) nN). split.
  - unfold split_node, _makeKey. rewrite Hcut, !drop_0, take_app_length, drop_all, drop_app_length, length_app.
    replace (length u + length (a :: as') - length u)%nat with (length (a :: as')) by lia. rewrite firstn_all.
    rewrite (addChild_run _ _ _ c u None (_numSubtreeElems cnd) (_sizeSubtreeElems cnd) Hu (at_prev _ _ _ _ _ _ _ _ _ _ _ _ _ A));
      [|simpl; rewrite lookup_insert_eq; eexists; by rewrite (at_node A)].
    cbn [mbind option_bind length Nat.eqb negb head].
    erewrite modify_run by (by rewrite lookup_insert_ne, lookup_insert_eq). cbn [mbind option_bind].
    erewrite set_child_run by (by rewrite lookup_insert_eq). cbn [mbind option_bind].
    erewrite modify_run by (rewrite !lookup_insert_ne by done; apply (at_node A)). cbn [mbind option_bind].
    do 2 f_equal. unfold split_result. rewrite !insert_insert_eq, (insert_insert_ne _ prev) by done. by rewrite insert_insert_eq.
  - assert (HM : split_memory (split_result H1 (next_loc H1) nN) (next_loc H1) nN).
    { apply split_result_ok; [done|apply (at_closed A)|done|done|]. intros c' y Hy. simpl in Hy.
      apply lookup_insert_Some in Hy as [[_ <-]|[_ Hy]]; [by rewrite (at_node A)|by rewrite lookup_empty in Hy]. }
    eapply split_upserted; [done|done|by rewrite Hv|done| | |done|].
    + split; [rewrite Hv; by rewrite lookup_insert_eq, <- Hv; destruct v|]. eapply cut_counted; [done|by rewrite Hv|done..].
    + eapply split_kids; [done..|by apply lookup_insert_eq|done|]. intros c' y Hne Hy. simpl in Hy.
      by rewrite lookup_insert_ne, lookup_empty in Hy.
    + exists nN. split; [apply HM|done].
Qed.

(** A leaf for the key, where the map had nothing. *)
Lemma leaf_trie H' l p' v :
  H' !! l = Some (mkNode p' (Some v) ∅ 1 (string_size v.2)) -> (forall k, m !! (v.1 ++ k) = None) ->
  trie X H' (<[v.1 := v.2]> m) l v.1.
Proof.
  intros Hl Hnone. apply trie_unfold. eexists. split_and!; [done| |].
  - split; [rewrite lookup_insert_eq; by destruct v|]. intros _. simpl.
    assert (Hn0 : m !! v.1 = None) by (rewrite <- (app_nil_r v.1); apply Hnone).
    rewrite !weigh_insert by done. rewrite !weigh_none by done. unfold one, string_size, size_t. by rewrite !Z.add_0_r, Zmod_mod.
  - apply kids_none; [done|]. intros c' k. rewrite lookup_insert_ne; [apply Hnone|].
    apply not_eq_sym, app_ne_cons.
Qed.

(** The key leaves [n] in the middle: the new node gets a second child for it. *)
Section fork.

Context (v : list Z * list Z) (b : Z) (bs : list Z).
Context (Hv : v.1 = p ++ u ++ b :: bs) (Hba : b <> a) (Hbyte : byte b).

Definition fork_node : Node := mkNode u None ∅ (_numSubtreeElems cnd) (_sizeSubtreeElems cnd).

Definition fork_memory : gmap positive Node :=
  <[prev := relink (relink ndp c n) c (next_loc H1)]> (<[next_loc H1 := fork_node]> H1).

Definition fork_leaf : Node := mkNode (b :: bs) (Some v) ∅ 1 (string_size v.2).

Definition forked_node (l : positive) : Node := relink (add_counts 1 (string_size v.2) (relink fork_node b l)) a n.

Lemma fork_fresh :
  let l := next_loc fork_memory in H1 !! l = None /\ prev <> l /\ next_loc H1 <> l /\ n <> l.
Proof.
  intros l. assert (E : fork_memory !! l = None) by apply next_loc_fresh. unfold fork_memory in E.
  apply lookup_insert_None in E as [E Hp]. apply lookup_insert_None in E as [E Hn1]. split_and!; [done..|].
  intros <-. by rewrite (at_node A) in E.
Qed.

Lemma fork_run :
  let l := next_loc fork_memory in
  split_node H1 prev n cnd (length u) (u ++ b :: bs) (Some v) =
  Some (l, split_result (<[l := fork_leaf]> H1) (next_loc H1) (forked_node l)).
Proof.
  intros l. destruct split_prev_fresh as (Hfr & Hpf & Hnf). pose proof (at_prev_ne A) as Hpn.
  destruct fork_fresh as (Hf2 & Hp2 & Hn12 & Hn2). fold l in Hf2, Hp2, Hn12, Hn2.
  unfold split_node, _makeKey. rewrite Hcut, !drop_0, take_app_length, !drop_app_length, length_app.
  replace (length u + length (a :: as') - length u)%nat with (length (a :: as')) by lia. rewrite !firstn_all.
  rewrite (addChild_run _ _ _ c u None (_numSubtreeElems cnd) (_sizeSubtreeElems cnd) Hu (at_prev _ _ _ _ _ _ _ _ _ _ _ _ _ A));
    [|simpl; rewrite lookup_insert_eq; eexists; by rewrite (at_node A)].
  cbn [mbind option_bind length Nat.eqb negb head]. fold fork_node. fold fork_memory.
  rewrite (addChild_run fork_memory _ fork_node b (b :: bs) (Some v) 1 (string_size v.2) eq_refl);
    [|unfold fork_memory; by rewrite lookup_insert_ne, lookup_insert_eq|done]. cbn [mbind option_bind]. fold fork_leaf l.
  erewrite modify_run by (by rewrite lookup_insert_eq). cbn [mbind option_bind].
  erewrite set_child_run by (by rewrite lookup_insert_eq). cbn [mbind option_bind].
  erewrite modify_run by (unfold fork_memory; rewrite !lookup_insert_ne by done; apply (at_node A)). cbn [mbind option_bind].
  do 2 f_equal. unfold split_result, fork_memory. rewrite !insert_insert_eq, (insert_insert_ne _ prev (next_loc H1)) by done.
  rewrite (insert_insert_ne _ l (next_loc H1)) by done. rewrite insert_insert_eq.
  by rewrite (insert_insert_ne _ l prev) by done.
Qed.

Lemma fork_memory_ok l :
  H1 !! l = None -> split_memory (split_result (<[l := fork_leaf]> H1) (next_loc H1) (forked_node l)) (next_loc H1) (forked_node l).
Proof.
  intros Hl. destruct split_prev_fresh as (Hfr & _). apply split_result_ok; [by apply insert_subseteq| |done|done|].
  - apply closed_insert; [apply (at_closed A)|]. intros c' y Hy. simpl in Hy. by rewrite lookup_empty in Hy.
  - intros c' y Hy. simpl in Hy. rewrite lookup_insert_is_Some'.
    apply lookup_insert_Some in Hy as [[_ <-]|[_ Hy]]; [right; by rewrite (at_node A)|].
    apply lookup_insert_Some in Hy as [[_ <-]|[_ Hy]]; [by left|by rewrite lookup_empty in Hy].
Qed.

Lemma fork_none k : m !! (p ++ u ++ b :: k) = None.
Proof. apply eq_None_not_Some. intros Hs. apply cut_prefix in Hs as [k' Hk']. simpl in Hk'. congruence. Qed.

Lemma fork_diff c' k : c' <> b -> v.1 <> p ++ u ++ c' :: k.
Proof. intros Hc'. rewrite Hv. intros E. do 2 apply app_inv_head in E. congruence. Qed.

Lemma fork_kids H' l :
  split_memory H' (next_loc H1) (forked_node l) -> H' !! l = Some fork_leaf ->
  kids_ok X H' (<[v.1 := v.2]> m) (p ++ u) (forked_node l).
Proof.
  intros HM Hleaf. apply (split_kids _ (next_loc H1));
    [done|rewrite Hv; apply fork_none|by intros; apply fork_diff, not_eq_sym|by apply lookup_insert_eq| |].
  - intros c' Hca Hc' k. apply fork_diff. intros ->. simpl in Hc'. by rewrite lookup_insert_ne, lookup_insert_eq in Hc'.
  - intros c' y Hca Hy. simpl in Hy. rewrite lookup_insert_ne in Hy by done.
    apply lookup_insert_Some in Hy as [[<- <-]|[_ Hy]]; [|by rewrite lookup_empty in Hy].
    exists fork_leaf. split_and!; [done| |].
    + split; [done..| |done]. intros k Hk. simpl. rewrite <- app_assoc in Hk.
      destruct (decide (k = bs)) as [->|Hne]; [done|]. rewrite lookup_insert_ne, fork_none in Hk; [by destruct Hk|].
      rewrite Hv. intros E. do 2 apply app_inv_head in E. congruence.
    + rewrite <- app_assoc. simpl. rewrite <- Hv. eapply leaf_trie; [done|]. intros k. rewrite Hv, <- !app_assoc. apply fork_none.
Qed.

Lemma split_fork_ok :
  exists r H', split_node H1 prev n cnd (length u) (u ++ b :: bs) (Some v) = Some (r, H') /\
    upserted X (<[v.1 := v.2]> m) (Some v) H H' (outside ++ S) U prev ndp p r.
Proof.
  eexists _, _. split; [apply fork_run|]. destruct fork_fresh as (Hf2 & Hp2 & Hn12 & Hn2). cbv zeta in *.
  set (l := next_loc fork_memory) in *. pose proof (fork_memory_ok l Hf2) as HM. set (H' := split_result _ _ _) in *.
  assert (Hleaf : H' !! l = Some fork_leaf) by (unfold H', split_result; by rewrite !lookup_insert_ne, lookup_insert_eq by done).
  assert (Hv0 : m !! v.1 = None) by (rewrite Hv; apply fork_none).
  eapply split_upserted; [done|done|rewrite Hv, app_assoc; by eexists|intros k; by apply fork_diff, not_eq_sym| |by apply fork_kids| |by exists fork_leaf].
  - split; [|eapply cut_counted; [done|rewrite Hv, app_assoc; by eexists|done..]]. simpl.
    rewrite lookup_insert_ne by (rewrite Hv, app_assoc; apply app_ne_cons).
    assert (E : m !! (p ++ u) = None); [|by rewrite E].
    apply eq_None_not_Some. intros Hs. rewrite <- (app_nil_r u) in Hs. apply cut_prefix in Hs. by destruct Hs.
  - intros _. exists a, b, n, l. split_and!; [by apply not_eq_sym|by apply lookup_insert_eq|].
    simpl. by rewrite lookup_insert_ne, lookup_insert_eq.
Qed.

End fork.

End split.
