(* ===== verification/RadixModify.v ===== *)
(** * Modifications of the radix store

    The walk of [_upsertWithCopyOnSharedNodes], and with it [insert] and [update]: the store
    gets the new entry, and what all others see in the shared memory does not change. *)

From Stdlib Require Import ZArith Lia.
From stdpp Require Import prelude gmap.
From S2P Require Import Prelude RadixNode RadixStore RadixInv RadixLookup RadixOwn RadixUpsert.

Open Scope Z_scope.

(** The focus stays when the node changes and keeps its children. *)
Lemma focus_update X m H outside S U prev nd nd' p :
  focus X m H outside S U prev nd p -> children nd' = children nd ->
  focus X m (<[prev := nd']> H) outside S U prev nd' p.
Proof.
  intros [Hcl Hod Hpr HUd HS Hprev Hnd Hkids Hout] Hch.
  assert (Hdom : forall x, is_Some (H !! x) -> is_Some (<[prev := nd']> H !! x))
    by (intros x Hx; apply lookup_insert_is_Some'; auto).
  split; auto.
  - eapply closed_update; [done..|]. rewrite Hch. intros c y Hy. by eapply Hcl.
  - by apply private_update.
  - intros y Hy. destruct (HS _ Hy) as (x & xnd & c & HxU & Hne & Hxl & Hxc). exists x, xnd, c.
    rewrite lookup_insert_ne by done. auto.
  - by rewrite lookup_insert_eq.
  - eapply (kids_frame X H _ m m p nd); [done|by apply same_outside_insert; left|done|done|done|done].
  - rewrite Hch. done.
Qed.

Section walk.

Context (X : Prop) (m m' : contents) (key : list Z) (value : option (list Z * list Z)) (num sz : Z) (locals : list positive).
Context (Hkeys : keys_ok m) (Heff : effect value key m m') (Hadds : adds X m m' key num sz).

(** Data is only removed from inner nodes. *)
Context (Hinner : value = None -> is_Some (m !! key) /\ exists c k, byte c /\ is_Some (m !! (key ++ c :: k))).

Section at_child.

Context {H H1 : gmap positive Node} {outside S : list positive} {U : gset positive}.
Context {prev : positive} {ndp : Node} {p : list Z} {c : Z} {n : positive} {cnd : Node}.
Context (A : at_child X m H H1 outside S U prev ndp p c n cnd).

(** The walk ends at [n] or splits it. *)
Lemma split_ok u a as' rest :
  trieKey cnd = u ++ a :: as' -> head u = Some c -> (rest = [] \/ head rest <> Some a) -> Forall byte rest -> key = p ++ u ++ rest ->
  exists r H', split_node H1 prev n cnd (length u) (u ++ rest) value = Some (r, H') /\
    upserted X m' value H H' (outside ++ S) U prev ndp p r.
Proof.
  intros Hcut Hu Hdiff Hbytes Hkey. destruct value as [v|].
  - destruct Heff as [Hv ->]. rewrite <- Hv in Hkey |- *. destruct rest as [|b bs].
    + rewrite app_nil_r in *. eexists. by eapply split_inner_ok.
    + apply (split_fork_ok A Hkeys u a as' Hu Hcut v b bs); [done| |exact (Forall_inv Hbytes)].
      intros ->. by destruct Hdiff.
  - exfalso. destruct (Hinner eq_refl) as [Hs _]. rewrite Hkey in Hs.
    apply (cut_prefix A u a as' Hu Hcut) in Hs as [k ->]. by destruct Hdiff.
Qed.

Lemma exact_ok :
  key = p ++ trieKey cnd ->
  exists H', (H2 ← match value with
                   | None => H2 ← modify H1 n (fun nd => {| nd with data := None |}); _compressOnlyChild H2 n
                   | Some v => modify H1 n (fun nd => {| nd with data := Some v |})
                   end; modify H2 n (add_counts num sz)) = Some H' /\
    upserted X m' value H H' (outside ++ S) U prev ndp p n.
Proof.
  intros Hkey. pose proof (at_node A) as Hn. destruct value as [v|].
  - destruct Heff as [Hv ->]. rewrite (modify_run _ _ cnd) by done. cbn [mbind option_bind].
    erewrite modify_run by by rewrite lookup_insert_eq. rewrite insert_insert_eq.
    eexists. split; [done|]. rewrite <- Hv in *. by apply (set_data_ok A).
  - rewrite Heff in *. destruct (Hinner eq_refl) as (_ & c' & k & Hb & Hk).
    destruct (remove_data_ok A key num sz) as (H2 & H3 & H' & E2 & E3 & E' & Hup); [done..| |].
    + apply not_true_iff_false. intros Hleaf. destruct (at_trie A) as [_ Ht].
      destruct (trie_lookup _ _ _ Ht Hn) as [_ [Hnone _]]. rewrite Hkey, Hnone in Hk; [by destruct Hk|].
      by apply isLeaf_spec.
    + exists H'. rewrite E2. cbn [mbind option_bind]. rewrite E3. done.
Qed.

(** What the walk finds below [n], for [prev]. *)
Lemma below_ok t H' r :
  key = p ++ trieKey cnd ++ t -> t <> [] ->
  upserted X m' value (<[n := add_counts num sz cnd]> H1) H' (outside ++ S ++ siblings ndp c) (U ∪ {[n]}) n
    (add_counts num sz cnd) (p ++ trieKey cnd) r ->
  upserted X m' value H H' (outside ++ S) U prev ndp p r.
Proof.
  intros Hkey Ht [(nd' & Hn' & (Hk' & Hd' & Hnum' & Hsz') & Hkids' & Hch') Hcl Hdom Hpres Habove Hres].
  destruct (at_trie A) as [Hok Htr]. destruct (trie_lookup _ _ _ Htr (at_node A)) as [[Hd Hcnt] _].
  destruct (head_cons _ _ (child_front _ _ _ _ Hok)) as [t0 Ht0]. pose proof (at_prev_ne A) as Hpn.
  set (H2 := <[n := add_counts num sz cnd]> H1) in *.
  assert (Hne : p ++ trieKey cnd <> key) by (rewrite Hkey, app_assoc; destruct t; [done|apply not_eq_sym, app_ne_cons]).
  assert (Hother : forall k, k <> key -> m !! k = m' !! k) by (intros; by eapply effect_other).
  assert (Hin : forall x, x ∈ U -> x ∈ U ∪ {[n]}) by set_solver.
  assert (HU : forall x, x ∈ U -> H' !! x = H1 !! x).
  { intros x Hx. rewrite Habove; [|auto|by apply (at_owned_ne A)]. unfold H2. rewrite lookup_insert_ne; [done|].
    apply not_eq_sym. by apply (at_owned_ne A). }
  eapply (upserted_intro A m' value key H' (relink ndp c n) n nd' r); try done.
  - exists (t0 ++ t). by rewrite Hkey, Ht0.
  - intros l Hl. eapply preserved_trans; [|by apply Hpres]. apply (at_kept A); [|done]. apply same_outside_insert. left. apply owned_in.
  - auto.
  - intros x Hx. apply Hdom. unfold H2. apply lookup_insert_is_Some'. auto.
  - rewrite HU; [apply (at_prev _ _ _ _ _ _ _ _ _ _ _ _ _ A)|]. apply (focus_prev _ _ _ _ _ _ _ _ _ (at_before _ _ _ _ _ _ _ _ _ _ _ _ _ A)).
  - split; [apply Hok|by rewrite Hk'; apply Hok| |].
    + intros k Hk. rewrite Hk'. simpl. destruct (decide (p ++ c :: k = key)) as [E|E].
      * rewrite Hkey in E. apply app_inv_head in E. rewrite E. by exists t.
      * apply (child_prefix _ _ _ _ Hok). by rewrite Hother.
    + rewrite Hd'. intros Hnone. destruct (child_branches _ _ _ _ Hok Hnone) as (c1 & c2 & l1 & l2 & Hne12 & H3 & H4).
      destruct (Hch' c1) as [l1' Hl1]; [by eexists|]. destruct (Hch' c2) as [l2' Hl2]; [by eexists|].
      exists c1, c2, l1', l2'. auto.
  - rewrite Hk'. apply trie_unfold. exists nd'. split_and!; [done| |done]. split.
    + rewrite Hd'. change (data (add_counts num sz cnd)) with (data cnd). by rewrite Hd, Hother by done.
    + assert (Hc : counted X m' (p ++ trieKey cnd) (add_counts num sz cnd)).
      { eapply counted_add; [done| |done..]. rewrite Hkey, app_assoc. by eexists. }
      intros HX. rewrite Hnum', Hsz'. by apply Hc.
Qed.

End at_child.

Lemma upsert_below_ok fuel s rest p prev ndp S U :
  focus X m (nodes s) (others s ++ locals) S U prev ndp p -> key = p ++ rest -> rest <> [] -> Forall byte rest ->
  (length rest < fuel)%nat ->
  exists r s', upsert_below fuel s locals rest value num sz prev (children ndp !! char_at rest) (children ndp !! char_at rest) = Some (r, s') /\
    others s' = others s /\ _root s' = _root s /\
    upserted X m' value (nodes s) (nodes s') ((others s ++ locals) ++ S) U prev ndp p r.
Proof.
  revert s rest p prev ndp S U. induction fuel as [|fuel IH]; intros s rest p prev ndp S U F Hkey Hrest Hbytes Hfuel; [lia|].
  assert (Hr : exists t, rest = char_at rest :: t) by (destruct rest; [done|by eexists]).
  assert (Hb : byte (char_at rest)) by (destruct rest; [done|exact (Forall_inv Hbytes)]).
  cbn [upsert_below]. set (c := char_at rest) in *. destruct (children ndp !! c) as [n|] eqn:En.
  - destruct (proj2 (focus_kids _ _ _ _ _ _ _ _ _ F) _ _ En) as (cnd & Hcnd & Hok & _). cbn [mbind option_bind].
    destruct (own_child_ok X m s locals S U prev ndp p c n cnd F En Hcnd) as (n' & H1 & Hown & F1 & Hp1 & Hk1 & Hs1 & Hd1 & Ha1 & Hnew).
    assert (A : at_child X m (nodes s) H1 (others s ++ locals) S U prev ndp p c n' cnd) by by split.
    rewrite Hown. cbn [mbind option_bind]. rewrite (at_node A). cbn [mbind option_bind].
    destruct (head_cons _ _ (child_front _ _ _ _ Hok)) as [t Ht].
    destruct (comparePrefix_split (trieKey cnd) rest) as (u & a' & b' & Ea & Eb & Elen & Hdiff). rewrite Elen.
    destruct (Nat.eqb_spec (length u) (length (trieKey cnd))) as [El|El]; cbn [negb].
    + assert (a' = []) as -> by (rewrite Ea, length_app in El; destruct a'; [done|simpl in El; lia]).
      rewrite app_nil_r in Ea. subst u.
      destruct (Nat.eqb_spec (length (trieKey cnd)) (length rest)) as [El'|El'].
      * assert (b' = []) as -> by (rewrite Eb, length_app in El'; destruct b'; [done|simpl in El'; lia]). rewrite app_nil_r in Eb.
        destruct (exact_ok A) as (H' & Hrun & Hup); [by rewrite Hkey, Eb|].
        exists n', (with_nodes s H'). split_and!; [|done..]. clear -Hrun.
        destruct (match value with Some _ => _ | None => _ end) as [H2|]; [|done]. cbn [mbind option_bind] in *. by rewrite Hrun.
      * rewrite (modify_run _ _ cnd) by apply (at_node A). cbn [mbind option_bind]. set (H2 := <[n' := add_counts num sz cnd]> H1).
        assert (Hb' : b' <> []) by (intros ->; rewrite app_nil_r in Eb; by rewrite Eb in El').
        assert (Hond : exists ond, H2 !! n = Some ond /\ children ond = children cnd).
        { unfold H2. destruct (decide (n' = n)) as [->|Hne]; [rewrite lookup_insert_eq; by eexists|].
          rewrite lookup_insert_ne, Ha1 by (done || (intros ->; by eapply (focus_out _ _ _ _ _ _ _ _ _ F), (focus_prev _ _ _ _ _ _ _ _ _ F))).
          by exists cnd. }
        destruct Hond as (ond & -> & Hch). cbn [mbind option_bind]. rewrite Hch, Eb, drop_app_length.
        destruct (IH (with_nodes s H2) b' (p ++ trieKey cnd) n' (add_counts num sz cnd) (S ++ siblings ndp c) (U ∪ {[n']}))
          as (r & s' & Hrun & Ho & Hroot & Hup).
        -- by apply focus_update with cnd.
        -- by rewrite Hkey, Eb, app_assoc.
        -- done.
        -- rewrite Eb in Hbytes. by apply Forall_app in Hbytes as [_ Hbytes].
        -- rewrite Eb, length_app, Ht in Hfuel. simpl in Hfuel. lia.
        -- exists r, s'. split_and!; [done..|]. eapply (below_ok A b'); [by rewrite Hkey, Eb|done|].
           exact Hup.
    + destruct a' as [|a as']; [by rewrite Ea, app_nil_r in El|].
      assert (Hu : head u = Some c).
      { destruct u as [|x u]; simpl in *; [exfalso|by rewrite Ea in Ht; simplify_eq].
        destruct Hr as [t' Hr]. rewrite Ea in Ht. rewrite Eb in Hr. destruct Hdiff as [|[->|Hdiff]]; [done..|]. apply Hdiff.
        rewrite Hr. by simplify_eq. }
      destruct (split_ok A u a as' b') as (r & H' & Hrun & Hup); [done|done| | |by rewrite Hkey, Eb|].
      * destruct Hdiff as [|[|Hdiff]]; [done|auto|]. right. by apply not_eq_sym.
      * rewrite Eb in Hbytes. by apply Forall_app in Hbytes as [_ Hbytes].
      * rewrite Eb, Hrun. cbn [mbind option_bind]. by exists r, (with_nodes s H').
  - destruct Hr as [t Ht]. unfold _makeKey. rewrite drop_0, firstn_all. destruct value as [v|].
    + destruct Heff as [Hv ->]. rewrite <- Hv in *.
      destruct (new_child_ok X m (nodes s) (others s ++ locals) S U prev ndp p c t v F) as (n & H' & Hrun & Hup); [done|done|by rewrite Hkey, Ht|].
      rewrite Ht, Hrun. cbn [mbind option_bind]. by exists n, (with_nodes s H').
    + exfalso. destruct (Hinner eq_refl) as [Hs _]. rewrite Hkey, Ht in Hs.
      rewrite (proj1 (focus_kids _ _ _ _ _ _ _ _ _ F) c En) in Hs. by destruct Hs.
Qed.

End walk.

(** ** The store as a whole *)

(** Pointers lead to nodes. *)
Record store_wf (s : RadixStore) : Prop := {
  wf_closed : closed (nodes s);
  wf_others : forall x, x ∈ others s -> is_Some (nodes s !! x);
}.

(** The store has changed to [m'], and nobody else sees a change. *)
Record changed (X : Prop) (s s' : RadixStore) (m' : contents) : Prop := {
  ch_represents : represents X s' m';
  ch_wf : store_wf s';
  ch_others : others s' = others s;
  ch_preserved : forall l, l ∈ others s -> preserved (nodes s) (nodes s') l;
}.

Lemma settle_ok X s s' m' :
  represents X s' m' -> store_wf s' -> others s' = others s -> (forall l, l ∈ others s -> preserved (nodes s) (nodes s') l) ->
  changed X s (settle s') m'.
Proof.
  intros [Ht Hr Hk] [Hcl Hod] Ho Hp. destruct (release_spec (nodes s') (held s' []) Hcl) as [Hcl' Hpres].
  assert (Hroot : preserved (nodes s') (release (nodes s') (held s' [])) (_root s')) by (apply Hpres; by left).
  assert (Hoth : forall l, l ∈ others s' -> preserved (nodes s') (release (nodes s') (held s' [])) l).
  { intros l Hl. apply Hpres. unfold held. rewrite app_nil_r. by right. }
  split; [split|split| |]; simpl; try done.
  - by apply Hroot.
  - destruct (nodes s' !! _root s') as [nd|] eqn:E; [|done]. by rewrite (proj1 Hroot _ E).
  - intros x Hx. destruct (Hod x Hx) as [nd Hnd]. exists nd. by apply (proj1 (Hoth x Hx)).
  - intros l Hl. eapply preserved_trans; [by apply Hp|]. apply Hoth. by rewrite Ho.
Qed.

(** A root that nobody else uses. *)
Lemma root_focus X m s outside rnd :
  store_wf s -> represents X s m -> (forall x, x ∈ outside -> is_Some (nodes s !! x)) -> nodes s !! _root s = Some rnd ->
  use_count (nodes s) outside (_root s) = 0%nat -> focus X m (nodes s) outside [] {[_root s]} (_root s) rnd [].
Proof.
  intros [Hcl Hod] [Ht Hr Hk] Hout Hrnd [Hnot Hnoref]%use_count_zero. split; try done.
  - split; [intros x nd c y Hx Hy ->%elem_of_singleton; by destruct (Hnoref _ _ _ Hx Hy)|].
    intros x Hx ->%elem_of_singleton. by rewrite app_nil_r in Hx.
  - intros x ->%elem_of_singleton. by eexists.
  - intros y Hy. by apply not_elem_of_nil in Hy.
  - by apply elem_of_singleton.
  - by eapply trie_lookup.
  - intros c y Hy ->%elem_of_singleton. by destruct (Hnoref _ _ _ Hrnd Hy).
Qed.

(** The walk starts at a root that is the store's own. *)
Lemma own_root_ok X m s locals rnd :
  store_wf s -> represents X s m -> (forall x, x ∈ locals -> is_Some (nodes s !! x)) -> nodes s !! _root s = Some rnd ->
  exists s1, own_root s locals = Some s1 /\ others s1 = others s /\
    focus X m (nodes s1) (others s ++ locals) [] {[_root s1]} (_root s1) rnd [] /\
    (forall l, l ∈ others s -> preserved (nodes s) (nodes s1) l) /\
    (forall x, is_Some (nodes s !! x) -> is_Some (nodes s1 !! x)).
Proof.
  intros Hwf Hrep Hloc Hrnd. pose proof Hwf as [Hcl Hod]. pose proof Hrep as [Ht Hr Hk].
  destruct (trie_lookup _ _ _ Ht Hrnd) as [_ Hkids].
  assert (Hout : forall x, x ∈ others s ++ locals -> is_Some (nodes s !! x)) by (intros x Hx; apply elem_of_app in Hx as [|]; auto).
  unfold own_root. case_if; bprop.
  - rewrite Hrnd. cbn [mbind option_bind make_shared]. eexists. split; [done|]. simpl. set (H1 := <[next_loc (nodes s) := rnd]> (nodes s)).
    assert (Hsub : nodes s ⊆ H1) by (apply insert_subseteq, next_loc_fresh).
    assert (Hpres : forall l, preserved (nodes s) H1 l) by (intros l; by apply preserved_extend).
    assert (Hnf : forall x nd c, nodes s !! x = Some nd -> children nd !! c <> Some (next_loc (nodes s))) by (intros x nd c Hx; by eapply fresh_unreferenced).
    split_and!; [done| |done|intros x [nd Hx]; exists nd; by eapply lookup_weaken]. split.
    + apply closed_insert; [done|]. intros c y Hy. destruct (Hcl _ _ _ _ Hrnd Hy) as [ynd Hynd]. exists ynd. by eapply lookup_weaken.
    + intros x Hx. destruct (Hout x Hx) as [nd Hnd]. exists nd. by eapply lookup_weaken.
    + split; [|intros x Hx; rewrite app_nil_r in Hx; apply not_elem_of_singleton; destruct (Hout x Hx) as [nd Hnd]; by eapply fresh_ne].
      intros x nd c y Hx Hy ->%elem_of_singleton. exfalso.
      apply lookup_insert_Some in Hx as [[_ <-]|[_ Hx]]; by eapply Hnf.
    + intros x ->%elem_of_singleton. unfold H1. by rewrite lookup_insert_eq.
    + intros y Hy. by apply not_elem_of_nil in Hy.
    + by apply elem_of_singleton.
    + by unfold H1; rewrite lookup_insert_eq.
    + by apply (kids_kept X (nodes s) _ m m [] rnd).
    + intros c y Hy ->%elem_of_singleton. by eapply Hnf.
  - exists s. split_and!; [done|done| |done|done]. apply root_focus; try done.
    unfold count_pointers, held, use_count in *. rewrite filter_cons_True in Heqb by done. simpl in Heqb. lia.
Qed.

(** The helper of [insert], [update] and [erase]. *)
Lemma upsert_ok X s m m' locals key value sizeDiff num sz :
  store_wf s -> represents X s m -> (forall x, x ∈ locals -> is_Some (nodes s !! x)) ->
  key <> [] -> Forall byte key -> keys_ok m' -> effect value key m m' -> upsert_counts value sizeDiff = Some (num, sz) ->
  adds X m m' key num sz ->
  (value = None -> is_Some (m !! key) /\ exists c k, byte c /\ is_Some (m !! (key ++ c :: k))) ->
  exists it s', _upsertWithCopyOnSharedNodes s locals key value sizeDiff = Some (it, s') /\ changed X s s' m'.
Proof.
  intros Hwf Hrep Hloc Hkey Hbytes Hkeys' Heff Hcounts Hadds Hinner. pose proof (rep_keys _ _ _ Hrep) as Hkeys.
  destruct (proj1 (trie_unfold _ _) (rep_trie _ _ _ Hrep)) as (rnd & Hrnd & [Hd Hc] & _).
  pose proof (rep_root _ _ _ Hrep) as Hrk. rewrite Hrnd in Hrk. simpl in Hrk.
  unfold _upsertWithCopyOnSharedNodes. rewrite Hcounts. cbn [mbind option_bind]. rewrite Hrnd. cbn [mbind option_bind].
  destruct (own_root_ok X m s locals rnd Hwf Hrep Hloc Hrnd) as (s1 & Hown & Ho1 & F & Hp1 & Hd1). rewrite Hown. cbn [mbind option_bind].
  rewrite (modify_run _ _ rnd) by by eapply focus_node. cbn [mbind option_bind].
  set (s2 := with_nodes s1 (<[_root s1 := add_counts num sz rnd]> (nodes s1))).
  assert (F2 : focus X m (nodes s2) (others s2 ++ locals) [] {[_root s1]} (_root s1) (add_counts num sz rnd) []).
  { simpl. rewrite Ho1. by apply focus_update with rnd. }
  destruct (upsert_below_ok X m m' key value num sz locals Hkeys Heff Hadds Hinner (S (length key)) s2 key [] (_root s1)
              (add_counts num sz rnd) [] {[_root s1]} F2 eq_refl Hkey Hbytes) as (r & s3 & Hrun & Ho3 & Hr3 & Hup); [lia|].
  change (children (add_counts num sz rnd)) with (children rnd) in Hrun. rewrite Hrun. cbn [mbind option_bind]. eexists _, (settle s3). split; [done|].
  destruct Hup as [(nd' & Hn' & (Hk' & Hd' & Hnum' & Hsz') & Hkids' & _) Hcl Hdom Hpres _ _].
  assert (Hroot3 : _root s3 = _root s1) by done. rewrite <- Hroot3 in Hn'. simpl in Ho3, Hpres, Hdom. rewrite Ho1 in Ho3, Hpres.
  assert (Hdom2 : forall x, is_Some (nodes s !! x) -> is_Some (nodes s3 !! x)).
  { intros x Hx. apply Hdom, lookup_insert_is_Some'. auto. }
  apply settle_ok.
  - split; [|by rewrite Hn'; simpl; rewrite Hk'|done]. apply trie_unfold. exists nd'. split_and!; [done| |done]. split.
    + rewrite Hd'. simpl. rewrite Hd. destruct (m !! []) eqn:E; [by destruct (Hkeys _ _ E)|].
      destruct (m' !! []) eqn:E'; [by destruct (Hkeys' _ _ E')|done].
    + assert (Hc2 : counted X m' [] (add_counts num sz rnd)) by (eapply counted_add; [done|apply prefix_nil|done..]).
      intros HX. rewrite Hnum', Hsz'. by apply Hc2.
  - split; [done|]. rewrite Ho3. intros x Hx. apply Hdom2. by apply (wf_others _ Hwf).
  - done.
  - intros l Hl. eapply preserved_trans; [by apply Hp1|]. apply (preserved_trans _ (nodes s2)).
    + eapply private_preserved; [by eapply focus_private|by apply same_outside_insert; left; apply elem_of_singleton|].
      eapply (private_held _ _ _ (focus_private _ _ _ _ _ _ _ _ _ F)). rewrite app_nil_r. apply elem_of_app. by left.
    + apply Hpres. rewrite app_nil_r. apply elem_of_app. by left.
Qed.

(** ** [insert] and [update] *)

Lemma to_int_small z : - 2 ^ 31 <= z < 2 ^ 31 -> to_int z = z.
Proof. intros Hz. unfold to_int. rewrite Z.mod_small; lia. Qed.

Definition small (v : list Z) : Prop := Z.of_nat (length v) < 2 ^ 31.

Lemma string_size_small v : small v -> string_size v = Z.of_nat (length v).
Proof. unfold small, string_size, size_t. intros Hv. rewrite Z.mod_small; lia. Qed.

Lemma changed_refl X s m : store_wf s -> represents X s m -> changed X s s m.
Proof. intros Hwf Hrep. by split. Qed.

Lemma keys_ok_insert m k v : keys_ok m -> k <> [] -> Forall byte k -> keys_ok (<[k := v]> m).
Proof. intros Hm Hk Hb. by apply map_Forall_insert_2. Qed.

Lemma insert_ok X s m k v :
  store_wf s -> represents X s m -> Forall byte k -> (X -> small v) ->
  exists it s', RadixStore_insert s (k, v) = Some (it, bool_decide (k <> [] /\ m !! k = None), s') /\
    changed X s s' (if bool_decide (k <> [] /\ m !! k = None) then <[k := v]> m else m).
Proof.
  intros Hwf Hrep Hb Hsmall. unfold RadixStore_insert. cbn [fst].
  destruct (findNode_ok X s m k Hrep) as (r & -> & Hr). cbn [mbind option_bind]. unfold finds in Hr.
  destruct (decide (k = [])) as [->|Hk].
  { rewrite (bool_decide_eq_false_2 ([] <> [] /\ m !! [] = None)) by (intros [Hn _]; by apply Hn). rewrite orb_true_r. eexists _, s. split; [done|]. by apply changed_refl. }
  destruct (m !! k) as [w|] eqn:Ew.
  - destruct Hr as (n & nd & -> & _). rewrite (bool_decide_eq_false_2 (k <> [] /\ Some w = None)) by (intros [_ ?]; done).
    eexists _, s. split; [done|]. by apply changed_refl.
  - subst r. rewrite (bool_decide_eq_true_2 (k <> [] /\ None = None)) by done.
    assert (E : (length k =? 0)%nat = false) by (destruct k; done). rewrite E. cbn [bool_decide orb].
    destruct (upsert_ok X s m (<[k := v]> m) [] k (Some (k, v)) 0 1 (to_int (string_size v)) Hwf Hrep) as (it & s' & Hrun & Hch);
      try done; [|apply keys_ok_insert; [apply Hrep|done|done]| |].
    + intros x Hx. by apply not_elem_of_nil in Hx.
    + intros HX. specialize (Hsmall HX). rewrite to_int_small by (rewrite string_size_small by done; unfold small in Hsmall; lia).
      by apply (adds_insert X).
    + replace (bool_decide (is_Some (None : option positive)) || false) with false by done. rewrite Hrun. cbn [mbind option_bind]. eauto.
Qed.

(** What is updated must not be empty for the counters to stay right. *)
Lemma adds_update X m k v w :
  m !! k = Some w -> (X -> w <> [] /\ small w /\ small v) ->
  exists num sz, upsert_counts (Some (k, v)) (to_int (string_size w)) = Some (num, sz) /\ adds X m (<[k := v]> m) k num sz.
Proof.
  intros Hw Hsmall. unfold upsert_counts. cbn [snd]. case_if; cbn [mbind option_bind]; bprop.
  - eexists _, _. split; [done|]. intros HX q Hq. destruct (Hsmall HX) as (_ & Hsw & Hsv).
    rewrite !(weigh_update _ _ _ _ _ _ Hw) by done. rewrite !string_size_small by done. unfold small in *.
    rewrite (to_int_small (Z.of_nat (length w))) by lia. cbn [snd]. rewrite to_int_small by lia. unfold one. split; f_equal; lia.
  - destruct (to_int (string_size w) <? 0) eqn:E; eexists _, _; (split; [done|]); intros HX; exfalso;
      destruct (Hsmall HX) as (Hne & Hsw & _); rewrite string_size_small, to_int_small in * by (done || unfold small in *; lia); bprop;
      destruct w; simpl in *; try done; lia.
Qed.

Lemma update_ok X s m k v :
  store_wf s -> represents X s m -> (X -> small v /\ forall w, m !! k = Some w -> w <> [] /\ small w) ->
  exists it s', RadixStore_update s (k, v) = Some (it, bool_decide (is_Some (m !! k)), s') /\
    changed X s s' (if bool_decide (is_Some (m !! k)) then <[k := v]> m else m).
Proof.
  intros Hwf Hrep Hsmall. unfold RadixStore_update, RadixStore_find. cbn [fst].
  destruct (findNode_ok X s m k Hrep) as (r & -> & Hr). cbn [mbind option_bind it_current]. unfold finds in Hr.
  destruct (m !! k) as [w|] eqn:Ew.
  - destruct Hr as (n & nd & -> & Hn & Hd & _). destruct (rep_keys _ _ _ Hrep _ _ Ew) as [Hk Hb].
    rewrite (bool_decide_eq_true_2 (is_Some (Some w))) by by eexists. cbn [bool_decide].
    unfold deref. cbn [it_current it_root mbind option_bind]. rewrite Hn. cbn [mbind option_bind]. rewrite Hd. cbn [mbind option_bind snd].
    destruct (adds_update X m k v w Ew) as (num & sz & Hcounts & Hadds); [intros HX; destruct (Hsmall HX) as [? Hw]; destruct (Hw w); auto|].
    destruct (upsert_ok X s m (<[k := v]> m) [_root s] k (Some (k, v)) (to_int (string_size w)) num sz Hwf Hrep) as (it & s' & Hrun & Hch);
      try done; [|apply keys_ok_insert; [apply Hrep|done|done]|].
    + intros x ->%list_elem_of_singleton. destruct (proj1 (trie_unfold _ _) (rep_trie _ _ _ Hrep)) as (rnd & Hrnd & _). by eexists.
    + replace (bool_decide (Some n = None)) with false by done. rewrite Hrun. cbn [mbind option_bind]. eauto.
  - subst r. eexists _, s. split; [done|]. by apply changed_refl.
Qed.
