(* ===== verification/RadixErase.v ===== *)
(** * Removal from the radix store

    [erase] remembers the path to its key, with whether the path is unshared so far.  An
    unshared path is changed in place, a shared one is copied up to a new root; either way
    the parent of a removed leaf is compressed when one child is left. *)

From Stdlib Require Import ZArith Lia.
From stdpp Require Import prelude gmap.
From S2P Require Import Prelude RadixNode RadixStore RadixInv RadixLookup RadixOwn RadixUpsert RadixModify.

Open Scope Z_scope.

(** ** The path to a node

    Deepest node first, with the flags that [erase] computes. *)

Inductive spine (s : RadixStore) : list (positive * bool) -> list Z -> Prop :=
  | spine_root : spine s [(_root s, count_pointers s [_root s] (_root s) - 1 =? 1)] []
  | spine_step n l u ctx p nd cnd c :
      spine s ((l, u) :: ctx) p -> nodes s !! l = Some nd -> children nd !! c = Some n -> nodes s !! n = Some cnd ->
      head (trieKey cnd) = Some c ->
      spine s ((n, u && (count_pointers s [n] n - 1 =? 1)) :: (l, u) :: ctx) (p ++ trieKey cnd).

(** The tree has an inner node without data exactly where two stored keys part. *)
Definition parting (m : contents) (key : list Z) : Prop :=
  exists c1 c2 k1 k2, c1 <> c2 /\ is_Some (m !! (key ++ c1 :: k1)) /\ is_Some (m !! (key ++ c2 :: k2)).

(** Keys that share a longer prefix do not part. *)
Lemma prefix_longer (k rest r : list Z) b : k `prefix_of` rest ++ b :: r -> ~ k `prefix_of` rest -> exists k', k = rest ++ b :: k'.
Proof.
  revert k. induction rest as [|y rest IH]; intros [|x k] Hp Hnot; try (exfalso; apply Hnot, prefix_nil).
  - apply prefix_cons_inv_1 in Hp as ->. by exists k.
  - pose proof (prefix_cons_inv_1 _ _ _ _ Hp) as ->. apply prefix_cons_inv_2 in Hp. destruct (IH k Hp) as [k' ->]; [|by exists k'].
    intros Hk. by apply Hnot, prefix_cons.
Qed.

Lemma prefix_parting m p rest k :
  (forall r, is_Some (m !! (p ++ rest ++ r)) -> k `prefix_of` rest ++ r) -> ~ k `prefix_of` rest -> ~ parting m (p ++ rest).
Proof.
  intros Hall Hnot (c1 & c2 & k1 & k2 & Hne & H1 & H2). rewrite <- app_assoc in H1, H2. apply Hall in H1, H2.
  destruct (prefix_longer _ _ _ _ H1 Hnot) as [k' ->]. destruct (prefix_longer _ _ _ _ H2 Hnot) as [k'' E].
  apply app_inv_head in E. congruence.
Qed.

Section path.

Context (X : Prop) (s : RadixStore) (m : contents) (Hrep : represents X s m).

Lemma spine_trie l u ctx p : spine s ((l, u) :: ctx) p -> trie X (nodes s) m l p.
Proof.
  intros Hs. remember ((l, u) :: ctx) as ctx' eqn:E. revert l u ctx E.
  induction Hs as [|n l' u' ctx' p nd cnd c Hs IH Hl Hc Hn Hh]; intros l u ctx E; simplify_eq; [apply Hrep|].
  specialize (IH _ _ _ eq_refl). destruct (trie_lookup _ _ _ IH Hl) as [_ [_ Hk]].
  destruct (Hk _ _ Hc) as (cnd' & Hn' & _ & Ht). by simplify_eq.
Qed.

(** The answer of the walk for the key [p ++ rest]. *)
Definition path_answer (key : list Z) (r : option (list (positive * bool))) : Prop :=
  match r with
  | None => m !! key = None /\ ~ parting m key
  | Some ctx => spine s ctx key
  end.

Lemma erase_path_ok fuel l u ctx p rest :
  spine s ((l, u) :: ctx) p -> (length rest <= fuel)%nat ->
  exists r, erase_path fuel s l u rest ((l, u) :: ctx) = Some r /\ path_answer (p ++ rest) r.
Proof.
  revert l u ctx p rest. induction fuel as [|fuel IH]; intros l u ctx p rest Hs Hfuel.
  { destruct rest; [|simpl in Hfuel; lia]. eexists. split; [done|]. by rewrite app_nil_r. }
  destruct rest as [|c rest]; [eexists; split; [done|]; by rewrite app_nil_r|]. cbn [erase_path].
  destruct (proj1 (trie_unfold _ _) (spine_trie _ _ _ _ Hs)) as (nd & Hl & _ & Hnone & Hk). rewrite Hl. cbn [mbind option_bind].
  destruct (children nd !! c) as [n|] eqn:En.
  2:{ exists None. split; [done|]. split; [by apply Hnone|]. intros (c1 & _ & k1 & _ & _ & [w Hw] & _).
      rewrite <- app_assoc in Hw. simpl in Hw. by rewrite Hnone in Hw. }
  destruct (Hk _ _ En) as (cnd & Hn & Hok & Ht). rewrite Hn. cbn [mbind option_bind].
  destruct (Nat.eqb_spec (_comparePrefix (trieKey cnd) (c :: rest)) (length (trieKey cnd))) as [E|E]; simpl.
  - destruct (comparePrefix_full _ _ E) as [t Et]. rewrite Et, drop_app_length.
    destruct (IH n (u && (count_pointers s [n] n - 1 =? 1)) ((l, u) :: ctx) (p ++ trieKey cnd) t) as (r & Hr & Ha).
    + econstructor; try done. apply Hok.
    + destruct (head_cons _ _ (child_front _ _ _ _ Hok)) as [t0 Ht0]. rewrite Ht0 in Et. apply (f_equal length) in Et.
      simpl in Et, Hfuel. rewrite length_app in Et. lia.
    + exists r. split; [done|]. by rewrite app_assoc.
  - exists None. split; [done|].
    assert (Hnot : ~ trieKey cnd `prefix_of` c :: rest) by (intros [t Et]; apply E; rewrite Et; apply comparePrefix_app).
    split; [apply (no_longer_key m p c cnd); [done..|]; intros t Et; apply Hnot; by exists t|].
    apply prefix_parting with (trieKey cnd); [|done]. intros r Hr. by apply (child_prefix _ _ _ _ Hok).
Qed.

End path.

(** ** The parent of a removed leaf *)

Section removal.

Context {X : Prop} {m : contents} {H : gmap positive Node} (Hkeys : keys_ok m).
Context {key v : list Z} (Hv : m !! key = Some v).

Lemma removal_adds : adds X m (delete key m) key (-1) (- string_size v).
Proof.
  intros _ q Hq. rewrite !(weigh_delete _ m q key v) by done. unfold one. split; f_equal; lia.
Qed.

Lemma removal_other k : k <> key -> m !! k = delete key m !! k.
Proof. intros Hk. by rewrite lookup_delete_ne. Qed.

(** The parent [lnd] at path [p] without the leaf at [c]. *)
Definition pruned (lnd : Node) (c : Z) : Node :=
  let nd := add_counts (-1) (- string_size v) lnd in {| nd with children := delete c (children nd) |}.

Context {p : list Z} {c : Z} {l n : positive} {lnd dnd : Node}.
Context (Ht : trie X H m l p) (Hl : H !! l = Some lnd) (Hc : children lnd !! c = Some n).
Context (Hn : H !! n = Some dnd) (Hkey : key = p ++ trieKey dnd) (Hleaf : isLeaf dnd = true).

Lemma removal_child : child_ok m p c dnd /\ trie X H m n key.
Proof.
  destruct (trie_lookup _ _ _ Ht Hl) as [_ [_ Hk]]. destruct (Hk _ _ Hc) as (dnd' & Hn' & Hok & Htr). simplify_eq. auto.
Qed.

Lemma pruned_none k : delete key m !! (p ++ c :: k) = None.
Proof.
  destruct removal_child as [Hok Htr]. destruct (decide (p ++ c :: k = key)) as [->|Hne]; [by rewrite lookup_delete_eq|].
  rewrite lookup_delete_ne by done. apply eq_None_not_Some. intros Hs.
  destruct (child_prefix _ _ _ _ Hok _ Hs) as [t Et]. destruct (trie_lookup _ _ _ Htr Hn) as [_ [Hnone _]].
  destruct t as [|b t]; [by rewrite app_nil_r in Et; rewrite Et, <- Hkey in Hne|].
  rewrite Et, app_assoc, <- Hkey in Hs. destruct Hs as [w Hw]. destruct (Hkeys _ _ Hw) as [_ Hb].
  rewrite Forall_app, Forall_cons in Hb. rewrite Hnone in Hw; [done|]. apply isLeaf_spec; [done|apply Hb].
Qed.

Lemma pruned_kids H' :
  (forall c' y, c' <> c -> children lnd !! c' = Some y -> preserved H H' y) -> kids_ok X H' (delete key m) p (pruned lnd c).
Proof.
  intros Hpres. destruct (trie_lookup _ _ _ Ht Hl) as [_ [Hnone Hk]]. destruct removal_child as [Hok _].
  destruct (head_cons _ _ (child_front _ _ _ _ Hok)) as [t0 Ht0].
  assert (Heq : forall c', c' <> c -> forall k, m !! (p ++ c' :: k) = delete key m !! (p ++ c' :: k)).
  { intros c' Hne k. apply removal_other. rewrite Hkey, Ht0. intros E. apply app_inv_head in E. congruence. }
  split; cbn [pruned children add_counts].
  - intros c' Hc' k. destruct (decide (c' = c)) as [->|Hne]; [apply pruned_none|].
    rewrite lookup_delete_ne in Hc' by done. rewrite <- Heq by done. auto.
  - intros c' y [Hne Hy]%lookup_delete_Some. apply not_eq_sym in Hne. destruct (Hk _ _ Hy) as (cnd & Hcy & Hcok & Hty).
    destruct (Hpres _ _ Hne Hy) as [Hsame Htr]. exists cnd. split_and!; [auto| |].
    + eapply child_ok_agree; [|done]. by apply Heq.
    + apply (trie_agree X H' m); [|auto]. destruct (head_cons _ _ (child_front _ _ _ _ Hcok)) as [t ->].
      intros k. rewrite <- app_assoc. by apply Heq.
Qed.

Lemma pruned_own : own_ok X (delete key m) p (pruned lnd c).
Proof.
  destruct (trie_lookup _ _ _ Ht Hl) as [[Hd Hcnt] _]. destruct removal_child as [Hok _].
  destruct (head_cons _ _ (child_front _ _ _ _ Hok)) as [t0 Ht0]. split.
  - simpl. rewrite Hd, removal_other; [done|]. rewrite Hkey, Ht0. apply not_eq_sym, app_ne_cons.
  - assert (Hc' : counted X (delete key m) p (add_counts (-1) (- string_size v) lnd)); [|exact Hc'].
    eapply counted_add; [apply removal_adds| |done..]. rewrite Hkey. by eexists.
Qed.

(** A node without data that had two children has one left. *)
Lemma pruned_child : (data lnd = None -> branches lnd) -> data (pruned lnd c) = None -> exists c' y, children (pruned lnd c) !! c' = Some y.
Proof.
  intros Hb Hd. destruct (Hb Hd) as (c1 & c2 & l1 & l2 & Hne & H1 & H2). simpl. destruct (decide (c1 = c)) as [->|Hc1].
  - exists c2, l2. by rewrite lookup_delete_ne.
  - exists c1, l1. by rewrite lookup_delete_ne.
Qed.

End removal.

(** ** The nodes above

    [good H' n' cnd nd' p]: in [H'], the node [n'] with the fields [nd'] takes the place of a
    node [cnd] with path [p], for the map without [key]. *)

Section ascend.

Context {X : Prop} {s : RadixStore} {m : contents} (Hrep : represents X s m).
Context {key v : list Z} (Hv : m !! key = Some v).

Abbreviation dec := (add_counts (-1) (- string_size v)).

Definition good (H' : gmap positive Node) (n' : positive) (cnd nd' : Node) (p : list Z) : Prop :=
  H' !! n' = Some nd' /\
  (trieKey cnd = [] -> trieKey nd' = [] /\ trie X H' (delete key m) n' p) /\
  (forall q c, child_ok m q c cnd -> p = q ++ trieKey cnd ->
     child_ok (delete key m) q c nd' /\ trie X H' (delete key m) n' (q ++ trieKey nd')).

Lemma good_extend H' H'' n' cnd nd' p : H' ⊆ H'' -> good H' n' cnd nd' p -> good H'' n' cnd nd' p.
Proof.
  intros Hsub (Hn & Hr & Hc). destruct (preserved_extend H' H'' n' Hsub) as [Hs Htr]. split_and!; [auto|naive_solver|].
  intros q c Hok Hp. destruct (Hc q c Hok Hp). auto.
Qed.

Lemma ancestor_ok H' l n' p c nd cnd nd' :
  trie X (nodes s) m l p -> nodes s !! l = Some nd -> (exists n, children nd !! c = Some n /\ nodes s !! n = Some cnd) ->
  (exists t, key = p ++ c :: t) ->
  (forall c' y, c' <> c -> children nd !! c' = Some y -> preserved (nodes s) H' y) ->
  good H' n' cnd nd' (p ++ trieKey cnd) -> forall l', H' !! l' = Some (relink (dec nd) c n') -> good H' l' nd (relink (dec nd) c n') p.
Proof.
  intros Ht Hl (n & Hc & Hn) [t Hkey] Hsib (Hn' & _ & Hgood) l' Hl'.
  destruct (trie_lookup _ _ _ Ht Hl) as [[Hd Hcnt] Hkids]. destruct (proj2 Hkids _ _ Hc) as (cnd' & Hcn & Hok & _). simplify_eq.
  destruct (Hgood p c Hok eq_refl) as [Hok' Ht'].
  assert (Htrie : trie X H' (delete key m) l' p).
  { apply trie_unfold. eexists. split_and!; [done| |].
    - split; [simpl; rewrite Hd, (removal_other (m:=m) (key:=key)); [done|]; rewrite Hkey; apply not_eq_sym, app_ne_cons|].
      assert (Hcd : counted X (delete key m) p (dec nd)); [|exact Hcd].
      eapply counted_add; [by apply removal_adds|rewrite Hkey; by eexists|done..].
    - eapply (kids_replace X (nodes s) H' m _ p nd _ c n' nd' key); try done; [by intros; apply removal_other|eauto]. }
  split_and!; [done|done|]. intros q cq Hokq ->. split; [|done].
  split; [apply Hokq|apply Hokq|intros k Hk; apply (child_prefix _ _ _ _ Hokq); apply lookup_delete_is_Some in Hk; tauto|].
  intros Hnone. destruct (child_branches _ _ _ _ Hokq Hnone) as (c1 & c2 & l1 & l2 & Hne & H1 & H2).
  assert (Hin : forall c', is_Some (children nd !! c') -> is_Some (<[c := n']> (children nd) !! c'))
    by (intros c' Hc'; apply lookup_insert_is_Some'; auto).
  destruct (Hin c1) as [l1' Hl1]; [by eexists|]. destruct (Hin c2) as [l2' Hl2]; [by eexists|]. exists c1, c2, l1', l2'. auto.
Qed.

(** The parent of the leaf, after the compression. *)
Lemma parent_good H' l' p c lnd n dnd l nd' t :
  trie X (nodes s) m l p -> nodes s !! l = Some lnd -> children lnd !! c = Some n -> nodes s !! n = Some dnd ->
  key = p ++ trieKey dnd -> isLeaf dnd = true ->
  H' !! l' = Some nd' -> kids_ok X H' (delete key m) (p ++ t) nd' ->
  forall H2, compressed X H2 (delete key m) p (pruned (v:=v) lnd c) nd' t -> good H' l' lnd nd' p.
Proof.
  intros Ht Hl Hc Hn Hkey Hleaf Hl' Hkids H2 HC.
  pose proof (pruned_own Hv Ht Hl Hc Hn Hkey) as [_ Hcnt].
  assert (Htrie : trie X H' (delete key m) l' (p ++ t)).
  { apply trie_unfold. exists nd'. split_and!; [done| |done]. split; [apply HC|]. intros HX.
    rewrite (comp_num _ _ _ _ _ _ _ HC), (comp_size _ _ _ _ _ _ _ HC), !(weigh_longer _ _ _ t) by apply HC. by apply Hcnt. }
  assert (Hk' : trieKey nd' = trieKey lnd ++ t) by apply HC.
  split_and!; [done| |].
  - intros Hroot. pose proof (comp_root _ _ _ _ _ _ _ HC Hroot) as ->. split; [done|].
    assert (t = []) as -> by (apply (f_equal length) in Hk'; rewrite length_app in Hk'; simpl in Hk'; destruct t; [done|simpl in *; lia]).
    by rewrite app_nil_r in Htrie.
  - intros q cq Hok ->. rewrite Hk', app_assoc. split; [|done]. split.
    + apply Hok.
    + rewrite Hk'. destruct (head_cons _ _ (child_front _ _ _ _ Hok)) as [u ->]. done.
    + intros k Hk. rewrite Hk'. destruct (child_prefix _ _ _ _ Hok k) as [k' Hkk]; [apply lookup_delete_is_Some in Hk; tauto|].
      assert (Hpk : (q ++ trieKey lnd) ++ k' = q ++ cq :: k) by by rewrite <- app_assoc, Hkk.
      rewrite Hkk. apply prefix_app, (comp_prefix _ _ _ _ _ _ _ HC). by rewrite Hpk.
    + intros Hnone. apply (comp_branches _ _ _ _ _ _ _ HC); [|done]. simpl.
      destruct (head_cons _ _ (child_front _ _ _ _ Hok)) as [u ->]. done.
Qed.

(** *** Copies *)

Lemma copy_branch_ok ctx n un p cnd H1 n' nd' :
  spine s ((n, un) :: ctx) p -> nodes s !! n = Some cnd -> p `prefix_of` key -> nodes s ⊆ H1 -> closed H1 -> good H1 n' cnd nd' p ->
  exists r H', copy_branch H1 ctx n n' (string_size v) = Some (r, H') /\ nodes s ⊆ H' /\ closed H' /\
    trie X H' (delete key m) r [] /\ trieKey <$> H' !! r = Some [].
Proof.
  revert n un p cnd H1 n' nd'. induction ctx as [|[l u] ctx IH]; intros n un p cnd H1 n' nd' Hs Hn Hpre Hsub Hcl Hg.
  - inversion Hs; subst. destruct Hg as (Hn' & Hroot & _). pose proof (rep_root _ _ _ Hrep) as Hr. rewrite Hn in Hr. simpl in Hr.
    destruct Hroot as [Hk Ht]; [congruence|]. exists n', H1. split_and!; [done..|]. rewrite Hn'. simpl. by rewrite Hk.
  - inversion Hs as [|? ? ? ? p0 nd cnd' c Hs0 Hl Hc Hn0 Hh]; subst. simplify_eq.
    pose proof (spine_trie X s m Hrep _ _ _ _ Hs0) as Ht. cbn [copy_branch].
    rewrite (lookup_weaken _ _ _ _ Hn Hsub). cbn [mbind option_bind]. rewrite Hh. cbn [mbind option_bind].
    rewrite (lookup_weaken _ _ _ _ Hl Hsub). cbn [mbind option_bind make_shared].
    rewrite (set_child_run _ _ (dec nd)) by by rewrite lookup_insert_eq. cbn [mbind option_bind]. rewrite insert_insert_eq.
    destruct (head_cons _ _ Hh) as [t0 Ht0].
    assert (Hkt : exists t, key = p0 ++ c :: t) by (destruct Hpre as [k ->]; exists (t0 ++ k); by rewrite Ht0, <- app_assoc).
    set (H2 := <[next_loc H1 := relink (dec nd) c n']> H1).
    assert (Hsub2 : H1 ⊆ H2) by (apply insert_subseteq, next_loc_fresh).
    assert (Hg2 : good H2 (next_loc H1) nd (relink (dec nd) c n') p0).
    { eapply (ancestor_ok H2 l n'); try done; [by exists n| |by eapply good_extend|by unfold H2; rewrite lookup_insert_eq].
      intros c' y _ _. apply preserved_extend. by etrans. }
    apply (IH l u p0 nd H2 (next_loc H1) (relink (dec nd) c n')); try done.
    + destruct Hkt as [t ->]. by eexists.
    + by etrans.
    + apply closed_insert; [done|]. intros c' y Hy. simpl in Hy.
      assert (Hy1 : is_Some (H1 !! y)).
      { apply lookup_insert_Some in Hy as [[_ <-]|[_ Hy]]; [destruct Hg as [Hn' _]; by eexists|].
        eapply Hcl; [|done]. by eapply lookup_weaken. }
      apply lookup_insert_is_Some'. auto.
Qed.

End ascend.

(** *** In place *)

(** A path whose nodes the store owns alone: [S] hangs off it, [U] are its nodes. *)
Inductive owned (s : RadixStore) : list (positive * bool) -> list Z -> list positive -> gset positive -> Prop :=
  | owned_root u : owned s [(_root s, u)] [] [] {[_root s]}
  | owned_step n un l u ctx p nd cnd c S U :
      owned s ((l, u) :: ctx) p S U -> nodes s !! l = Some nd -> children nd !! c = Some n -> nodes s !! n = Some cnd ->
      head (trieKey cnd) = Some c -> n ∉ U ->
      owned s ((n, un) :: (l, u) :: ctx) (p ++ trieKey cnd) (S ++ siblings nd c) (U ∪ {[n]}).

Lemma owned_nodes s ctx p S U : owned s ctx p S U -> (forall x, x ∈ U <-> x ∈ ctx.*1) /\ NoDup ctx.*1.
Proof.
  induction 1 as [u|n un l u ctx p nd cnd c S U Ho [IHin IHnd] Hl Hc Hn Hh Hnew]; simpl.
  - split; [intros x; by rewrite elem_of_singleton, list_elem_of_singleton|apply NoDup_singleton].
  - split; [|constructor; [by rewrite <- IHin|done]]. intros x. rewrite elem_of_union, elem_of_singleton, IHin, elem_of_cons. tauto.
Qed.

Lemma spine_owned X s m l u ctx p :
  store_wf s -> represents X s m -> spine s ((l, u) :: ctx) p -> u = true ->
  exists S U nd, owned s ((l, u) :: ctx) p S U /\ focus X m (nodes s) (others s) S U l nd p.
Proof.
  intros Hwf Hrep Hs. remember ((l, u) :: ctx) as ctx' eqn:E. revert l u ctx E.
  induction Hs as [|n l' u' ctx' p nd cnd c Hs IH Hl Hc Hn Hh]; intros l u ctx E; simplify_eq; intros Hu.
  - destruct (proj1 (trie_unfold _ _) (rep_trie _ _ _ Hrep)) as (rnd & Hrnd & _).
    exists [], {[_root s]}, rnd. split; [constructor|]. apply root_focus; [done..|apply Hwf|done|].
    apply Z.eqb_eq in Hu. unfold count_pointers, held in Hu.
    assert (Hone : forall r : positive, length (filter (fun x => x = r) [r]) = 1%nat) by (intros; by rewrite filter_cons_True).
    unfold use_count in *. rewrite filter_cons_True in Hu by done. simpl in Hu. rewrite filter_app, length_app, Hone in Hu. lia.
  - apply andb_true_iff in Hu as [Hu Hcount]. destruct (IH _ _ _ eq_refl Hu) as (S & U & nd' & Ho & F).
    pose proof (focus_node _ _ _ _ _ _ _ _ _ F) as Hl'. simplify_eq.
    pose proof (focus_out _ _ _ _ _ _ _ _ _ F _ _ Hc) as HnU.
    assert (Hln : l' <> l) by (intros ->; by apply HnU, (focus_prev _ _ _ _ _ _ _ _ _ F)).
    exists (S ++ siblings nd c), (U ∪ {[l]}), cnd. split; [by econstructor|]. eapply own_in_place; try done.
    apply Z.eqb_eq in Hcount. unfold count_pointers, held in Hcount.
    assert (Hone : length (filter (fun x => x = l) [l]) = 1%nat) by by rewrite filter_cons_True.
    assert (Hnil : length (filter (fun x => x = l) [l']) = 0%nat) by by rewrite filter_cons_False.
    unfold use_count in *. rewrite (filter_app _ _ [l']), length_app, Hnil.
    change (_root s :: others s ++ [l]) with ([_root s] ++ others s ++ [l]) in Hcount.
    rewrite !filter_app, !length_app, Hone in Hcount. lia.
Qed.

Lemma decrement_ok H ctx sz :
  NoDup ctx.*1 -> (forall x, x ∈ ctx.*1 -> is_Some (H !! x)) ->
  exists H', decrement H ctx sz = Some H' /\
    forall x, H' !! x = if decide (x ∈ ctx.*1) then add_counts (-1) (- sz) <$> H !! x else H !! x.
Proof.
  revert H. induction ctx as [|[l u] ctx IH]; intros H Hnd Hdom; cbn [decrement].
  - exists H. split; [done|]. intros x. rewrite decide_False; [done|]. apply not_elem_of_nil.
  - apply NoDup_cons in Hnd as [Hl Hnd]. destruct (Hdom l) as [nd Hnd']; [by left|]. rewrite (modify_run _ _ nd) by done. cbn [mbind option_bind].
    destruct (IH (<[l := add_counts (-1) (- sz) nd]> H)) as (H' & Hrun & Hlook); [done| |].
    { intros x Hx. apply lookup_insert_is_Some'. right. apply Hdom. by right. }
    exists H'. split; [done|]. intros x. rewrite Hlook. simpl in Hl. destruct (decide (x = l)) as [->|Hne].
    + rewrite decide_False by done. rewrite decide_True by (by left). by rewrite lookup_insert_eq, Hnd'.
    + rewrite lookup_insert_ne by done. destruct (decide (x ∈ ctx.*1)).
      * rewrite decide_True; [done|]. by right.
      * rewrite decide_False; [done|]. simpl. rewrite elem_of_cons. tauto.
Qed.

Section in_place.

Context {X : Prop} {s : RadixStore} {m : contents} (Hrep : represents X s m).
Context {key v : list Z} (Hv : m !! key = Some v).

Lemma owned_trie l u ctx p S U : owned s ((l, u) :: ctx) p S U -> trie X (nodes s) m l p.
Proof.
  intros Hs. remember ((l, u) :: ctx) as ctx' eqn:E. revert l u ctx E.
  induction Hs as [u'|n un l' u' ctx' p nd cnd c S U Hs IH Hl Hc Hn Hh Hnew]; intros l u ctx E; simplify_eq; [apply Hrep|].
  specialize (IH _ _ _ eq_refl). destruct (trie_lookup _ _ _ IH Hl) as [_ [_ Hk]].
  destruct (Hk _ _ Hc) as (cnd' & Hn' & _ & Ht). by simplify_eq.
Qed.

Lemma ascend_ok H' ctx n un p cnd nd' S U :
  owned s ((n, un) :: ctx) p S U -> nodes s !! n = Some cnd -> p `prefix_of` key ->
  (forall y, y ∈ S -> preserved (nodes s) H' y) ->
  (forall x nd, x ∈ ctx.*1 -> nodes s !! x = Some nd -> H' !! x = Some (add_counts (-1) (- string_size v) nd)) ->
  good (X:=X) (m:=m) (key:=key) H' n cnd nd' p ->
  trie X H' (delete key m) (_root s) [] /\ trieKey <$> H' !! _root s = Some [].
Proof.
  revert n un p cnd nd' S U. induction ctx as [|[l u] ctx IH]; intros n un p cnd nd' S U Ho Hn Hpre Hpres Hctx Hg.
  - inversion Ho; subst. destruct Hg as (Hn' & Hroot & _). pose proof (rep_root _ _ _ Hrep) as Hr. rewrite Hn in Hr. simpl in Hr.
    destruct Hroot as [Hk Htr]; [congruence|]. split; [done|]. rewrite Hn'. simpl. by rewrite Hk.
  - inversion Ho as [|? ? ? ? ? p0 nd cnd' c S0 U0 Ho0 Hl Hc Hn0 Hh Hnew]; subst. simplify_eq.
    destruct (head_cons _ _ Hh) as [t0 Ht0].
    assert (Hkt : exists t, key = p0 ++ c :: t) by (destruct Hpre as [k ->]; exists (t0 ++ k); by rewrite Ht0, <- app_assoc).
    pose proof (owned_trie _ _ _ _ _ _ Ho0) as Htl.
    eapply (IH l u p0 nd _ S0 U0); try done.
    + destruct Hkt as [t ->]. by eexists.
    + intros y Hy. apply Hpres. apply elem_of_app. by left.
    + intros x xnd Hx. apply Hctx. by right.
    + eapply (ancestor_ok Hv H' l n); try done; [by exists n| |].
      * intros c' y Hne Hy. apply Hpres. apply elem_of_app. right. apply elem_of_siblings. eauto.
      * rewrite relink_same by done. apply Hctx; [by left|done].
Qed.

(** The node above the leaf [n]. *)
Context (Hwf : store_wf s).
Context {l n : positive} {u : bool} {ctx : list (positive * bool)} {p : list Z} {c : Z} {lnd dnd : Node}.
Context (Hs : spine s ((l, u) :: ctx) p) (Hl : nodes s !! l = Some lnd) (Hc : children lnd !! c = Some n).
Context (Hn : nodes s !! n = Some dnd) (Hh : head (trieKey dnd) = Some c) (Hkey : key = p ++ trieKey dnd) (Hleaf : isLeaf dnd = true).

Lemma parent_trie : trie X (nodes s) m l p.
Proof. by eapply spine_trie. Qed.

Lemma parent_branches : trieKey lnd <> [] -> data lnd = None -> branches lnd.
Proof.
  intros Hk Hd. inversion Hs as [|? l0 ? ? p0 nd0 cnd c0 Hs0 Hl0 Hc0 Hn0 Hh0]; subst.
  - pose proof (rep_root _ _ _ Hrep) as Hr. rewrite Hl in Hr. simpl in Hr. congruence.
  - simplify_eq. pose proof (spine_trie X s m Hrep _ _ _ _ Hs0) as Ht. destruct (trie_lookup _ _ _ Ht Hl0) as [_ [_ Hkids]].
    destruct (Hkids _ _ Hc0) as (cnd' & Hcn & Hok & _). simplify_eq. by apply Hok.
Qed.

(** The compression of the pruned parent, in a memory [H1] where [l'] is it. *)
Lemma parent_compress H1 l' U :
  H1 !! l' = Some (pruned (v:=v) lnd c) -> l' ∈ U -> private H1 [] U -> (forall x nd, x ∉ U -> nodes s !! x = Some nd -> H1 !! x = Some nd) ->
  (forall c' y, c' <> c -> children lnd !! c' = Some y -> y ∉ U /\ preserved (nodes s) H1 y) ->
  exists nd', _compressOnlyChild H1 l' = Some (<[l' := nd']> H1) /\
    (forall c' y, children nd' !! c' = Some y -> is_Some (nodes s !! y)) /\
    (forall H', same_outside U H1 H' -> H' !! l' = Some nd' -> good (X:=X) (m:=m) (key:=key) H' l' lnd nd' p).
Proof.
  intros Hl' HlU Hpriv Hsame Hsib. pose proof parent_trie as Ht.
  pose proof (rep_keys _ _ _ Hrep) as Hkeys.
  pose proof (pruned_kids Hkeys Hv Ht Hl Hc Hn Hkey Hleaf H1 (fun c' y Hne Hy => proj2 (Hsib c' y Hne Hy))) as Hkids.
  destruct (compress_ok X H1 (delete key m) l' p (pruned (v:=v) lnd c)) as (nd' & t & Hrun & HC).
  { done. } { apply (pruned_own Hv Ht Hl Hc Hn Hkey). } { done. }
  { intros Hk Hd. apply pruned_child; [|done]. intros _. by apply parent_branches. }
  assert (Hbelow : forall c' y, children nd' !! c' = Some y -> y ∉ U /\ is_Some (nodes s !! y)).
  { intros c' y Hy. apply (comp_children _ _ _ _ _ _ _ HC) in Hy as [Hy|(c1 & y1 & nd1 & Hy1 & Hnd1 & Hy)]; simpl in *.
    - apply lookup_delete_Some in Hy as [Hne Hy]. split; [by eapply Hsib, Hy; apply not_eq_sym|]. exact (wf_closed _ Hwf _ _ _ _ Hl Hy).
    - apply lookup_delete_Some in Hy1 as [Hne Hy1]. destruct (Hsib c1 y1) as [HyU [Hpres _]]; [by apply not_eq_sym|done|].
      split; [intros Hin; apply HyU; by eapply (private_refs _ _ _ Hpriv)|].
      destruct (wf_closed _ Hwf _ _ _ _ Hl Hy1) as [nd2 Hnd2]. rewrite (Hpres _ Hnd2) in Hnd1. simplify_eq. exact (wf_closed _ Hwf _ _ _ _ Hnd2 Hy). }
  exists nd'. split_and!; [done|by intros c' y [_ Hy]%Hbelow|]. intros H' Hs' Hl''.
  eapply (parent_good Hv H' l' p c lnd n dnd l nd' t); try done.
  eapply (kids_frame X H1 H' _ _ _ nd'); [done|done|done|by intros c' y [Hy _]%Hbelow|done|apply HC].
Qed.

Lemma keys_ok_delete : keys_ok (delete key m).
Proof. intros k w Hk. apply lookup_delete_Some in Hk as [_ Hk]. exact (rep_keys _ _ _ Hrep k w Hk). Qed.

(** What [erase_leaf] leaves behind, before the cleanup. *)
Definition removed (s1 : RadixStore) : Prop :=
  represents X s1 (delete key m) /\ store_wf s1 /\ others s1 = others s /\
  (forall x, x ∈ others s -> preserved (nodes s) (nodes s1) x).

Lemma set_child_null H1 x nd b : H1 !! x = Some nd -> set_child H1 x b None = Some (<[x := {| nd with children := delete b (children nd) |}]> H1).
Proof. intros Hx. unfold set_child. by rewrite Hx. Qed.

Lemma erase_in_place : u = true -> exists s1, erase_leaf s n l u ctx (string_size v) = Some s1 /\ removed s1.
Proof.
  intros Hu. destruct (spine_owned X s m l u ctx p Hwf Hrep Hs Hu) as (S & U & lnd' & Ho & F).
  assert (lnd' = lnd) as -> by (pose proof (focus_node _ _ _ _ _ _ _ _ _ F); congruence).
  destruct (owned_nodes _ _ _ _ _ Ho) as [HU Hnodup]. simpl in Hnodup. apply NoDup_cons in Hnodup as [Hlctx Hnodup].
  pose proof (focus_prev _ _ _ _ _ _ _ _ _ F) as HlU. pose proof (focus_private _ _ _ _ _ _ _ _ _ F) as Hpriv.
  set (H1 := <[l := pruned (v:=v) lnd c]> (nodes s)).
  assert (Hs1 : same_outside U (nodes s) H1) by (apply same_outside_insert; by left).
  destruct (parent_compress H1 l U) as (nd' & Hrun & Hptr & Hgood).
  { by unfold H1; rewrite lookup_insert_eq. } { done. }
  { apply private_update; [|done]. split; [apply Hpriv|]. intros x Hx. by apply not_elem_of_nil in Hx. } { done. }
  { intros c' y Hne Hy. pose proof (focus_out _ _ _ _ _ _ _ _ _ F _ _ Hy). split; [done|]. by eapply private_preserved. }
  destruct (decrement_ok (<[l := nd']> H1) ctx (string_size v)) as (H' & Hdec & Hlook); [done| |].
  { intros x Hx. unfold H1. rewrite !lookup_insert_is_Some'. right. right. apply (focus_U _ _ _ _ _ _ _ _ _ F), HU. by right. }
  exists (with_nodes s H'). split.
  - unfold erase_leaf. rewrite Hn. cbn [mbind option_bind]. rewrite Hh. cbn [mbind option_bind]. rewrite Hu.
    rewrite (set_child_null _ _ lnd) by done. cbn [mbind option_bind]. erewrite modify_run by by rewrite lookup_insert_eq.
    cbn [mbind option_bind]. rewrite insert_insert_eq.
    match goal with |- context [_compressOnlyChild ?A l] => change A with H1 end. rewrite Hrun. cbn [mbind option_bind].
    rewrite Hdec. done.
  - assert (Hl1 : H' !! l = Some nd') by (rewrite Hlook, decide_False by done; by rewrite lookup_insert_eq).
    assert (Hctx : forall x nd, x ∈ ctx.*1 -> nodes s !! x = Some nd -> H' !! x = Some (add_counts (-1) (- string_size v) nd)).
    { intros x nd Hx Hxn. rewrite Hlook, decide_True by done. unfold H1. rewrite !lookup_insert_ne by (intros ->; done). by rewrite Hxn. }
    assert (Hout : same_outside U (nodes s) H').
    { intros x nd Hx Hxn. rewrite Hlook. unfold H1. rewrite decide_False by (intros Hin; by apply Hx, HU; right).
      rewrite !lookup_insert_ne by (intros ->; done). done. }
    assert (Hout1 : same_outside U H1 H').
    { intros x nd Hx Hxn. rewrite Hlook, decide_False by (intros Hin; by apply Hx, HU; right). by rewrite lookup_insert_ne by (intros ->; done). }
    assert (Hpres : forall x, x ∈ others s ++ S -> preserved (nodes s) H' x).
    { intros x Hx. eapply private_preserved; [done..|]. by eapply (private_held _ _ _ Hpriv). }
    destruct (ascend_ok H' ctx l u p lnd nd' S U Ho Hl) as [Htr Hrk]; [by rewrite Hkey; eexists| |done|by apply Hgood|].
    { intros y Hy. apply Hpres, elem_of_app. by right. }
    assert (Hdom : forall x, is_Some (nodes s !! x) -> is_Some (H' !! x)).
    { intros x [nd Hx]. destruct (decide (x ∈ U)) as [Hin|Hnot]; [|eauto]. apply HU in Hin. simpl in Hin.
      apply elem_of_cons in Hin as [->|Hin]; eauto. }
    split_and!; [split; [done|done|apply keys_ok_delete]|split| |]; simpl.
    + intros x nd b y Hx Hy. apply Hdom. rewrite Hlook in Hx. destruct (decide (x = l)) as [->|Hxl].
      { rewrite decide_False, lookup_insert_eq in Hx by done. simplify_eq. eauto. }
      unfold H1 in Hx. rewrite !lookup_insert_ne in Hx by (by apply not_eq_sym). destruct (decide (x ∈ ctx.*1)).
      * apply fmap_Some in Hx as (xnd & Hx & ->). exact (wf_closed _ Hwf _ _ _ _ Hx Hy).
      * exact (wf_closed _ Hwf _ _ _ _ Hx Hy).
    + intros x Hx. apply Hdom. by apply (wf_others _ Hwf).
    + done.
    + intros x Hx. apply Hpres, elem_of_app. by left.
Qed.

Lemma erase_copying : u = false -> exists s1, erase_leaf s n l u ctx (string_size v) = Some s1 /\ removed s1.
Proof.
  intros Hu. pose proof (wf_closed _ Hwf) as Hcl.
  set (l' := next_loc (nodes s)). set (H1 := <[l' := pruned (v:=v) lnd c]> (nodes s)).
  assert (Hfr : nodes s !! l' = None) by apply next_loc_fresh.
  assert (Hsub : nodes s ⊆ H1) by by apply insert_subseteq.
  assert (Hnoref : forall x nd b, nodes s !! x = Some nd -> children nd !! b <> Some l') by (intros x nd b Hx; by eapply fresh_unreferenced).
  destruct (parent_compress H1 l' {[l']}) as (nd' & Hrun & Hptr & Hgood).
  { by unfold H1; rewrite lookup_insert_eq. } { by apply elem_of_singleton. }
  { split; [|intros x Hx; by apply not_elem_of_nil in Hx]. intros x nd b y Hx Hy ->%elem_of_singleton.
    apply elem_of_singleton. apply lookup_insert_Some in Hx as [[<- _]|[_ Hx]]; [done|]. by destruct (Hnoref _ _ _ Hx Hy). }
  { intros x nd _ Hx. by eapply lookup_weaken. }
  { intros c' y _ Hy. split; [|by apply preserved_extend]. intros ->%elem_of_singleton. by destruct (Hnoref _ _ _ Hl Hy). }
  set (H2 := <[l' := nd']> (nodes s)).
  assert (Hsub2 : nodes s ⊆ H2) by by apply insert_subseteq.
  destruct (copy_branch_ok Hrep Hv ctx l u p lnd H2 l' nd' Hs Hl) as (r & H' & Hcopy & Hsub' & Hcl' & Htr & Hrk).
  { rewrite Hkey. by eexists. } { done. }
  { apply closed_insert; [done|]. intros c' y Hy. destruct (Hptr c' y Hy) as [ynd Hynd]. exists ynd. by eapply lookup_weaken. }
  { apply Hgood; [|by unfold H2; rewrite lookup_insert_eq]. intros x nd Hx Hxn. unfold H1, H2 in *.
    rewrite lookup_insert_ne in Hxn |- * by (intros <-; by apply Hx, elem_of_singleton). done. }
  exists (mkStore H' (others s) r). split.
  - unfold erase_leaf. rewrite Hn. cbn [mbind option_bind]. rewrite Hh. cbn [mbind option_bind]. rewrite Hu, Hl.
    cbn [mbind option_bind make_shared]. fold l'. erewrite set_child_null by by rewrite lookup_insert_eq. cbn [mbind option_bind].
    rewrite insert_insert_eq. match goal with |- context [_compressOnlyChild ?A l'] => change A with H1 end.
    rewrite Hrun. cbn [mbind option_bind]. unfold H1 at 1. rewrite insert_insert_eq. fold H2. rewrite Hcopy. done.
  - split_and!; [split; [done|done|apply keys_ok_delete]|split| |]; simpl; [done| |done|].
    + intros x Hx. destruct (wf_others _ Hwf x Hx) as [nd Hnd]. exists nd. by eapply lookup_weaken.
    + intros x _. by apply preserved_extend.
Qed.

End in_place.

(** ** [erase] *)

Lemma child_entry X H m l p nd c y : trie X H m l p -> H !! l = Some nd -> children nd !! c = Some y -> exists k, is_Some (m !! (p ++ c :: k)).
Proof.
  intros Ht Hl Hc. destruct (trie_lookup _ _ _ Ht Hl) as [_ [_ Hk]]. destruct (Hk _ _ Hc) as (cnd & Hy & Hok & Hty).
  destruct (trie_nonempty _ _ _ _ _ _ Hty Hy (child_branches _ _ _ _ Hok)) as [k Hs].
  destruct (head_cons _ _ (child_front _ _ _ _ Hok)) as [t Et]. rewrite Et, <- app_assoc in Hs. by exists (t ++ k).
Qed.

Section erase.

Context (X : Prop) (s : RadixStore) (m : contents) (Hwf : store_wf s) (Hrep : represents X s m).

Lemma erase_path_root key :
  let u := count_pointers s [_root s] (_root s) - 1 =? 1 in
  exists r, erase_path (length key) s (_root s) u key [(_root s, u)] = Some r /\ path_answer s m key r.
Proof. intros u. apply (erase_path_ok X s m Hrep (length key) (_root s) u [] []); [constructor|done]. Qed.

Lemma erase_inner_ok l u ctx key v nd :
  spine s ((l, u) :: ctx) key -> nodes s !! l = Some nd -> m !! key = Some v -> isLeaf nd = false -> small v -> key <> [] ->
  exists it s', _upsertWithCopyOnSharedNodes s [l] key None (to_int (- string_size v)) = Some (it, s') /\ changed X s s' (delete key m).
Proof.
  intros Hs Hl Hv Hleaf Hsmall Hkey. pose proof (spine_trie X s m Hrep _ _ _ _ Hs) as Ht.
  assert (Hsz : string_size v = Z.of_nat (length v)) by by apply string_size_small. unfold small in Hsmall.
  rewrite to_int_small by (rewrite Hsz; lia).
  destruct (not_leaf _ Hleaf) as (c & y & Hc). destruct (trie_lookup _ _ _ Ht Hl) as [_ Hkids].
  eapply (upsert_ok X s m (delete key m) [l] key None (- string_size v) (-1) (- string_size v)); try done.
  - intros x ->%list_elem_of_singleton. by eexists.
  - by apply (rep_keys _ _ _ Hrep _ _ Hv).
  - by apply (keys_ok_delete Hrep).
  - unfold upsert_counts. rewrite Hsz. case_if; bprop; [lia|done].
  - by apply removal_adds.
  - intros _. split; [by eexists|]. destruct (child_entry _ _ _ _ _ _ _ _ Ht Hl Hc) as [k Hk]. exists c, k. split; [|done].
    by eapply kids_byte.
Qed.

Lemma erase_present key v :
  m !! key = Some v -> small v -> exists s', RadixStore_erase s key = Some (1, s') /\ changed X s s' (delete key m).
Proof.
  intros Hv Hsmall. destruct (rep_keys _ _ _ Hrep _ _ Hv) as [Hkey _]. unfold RadixStore_erase.
  destruct (erase_path_root key) as (r & -> & Hr). cbn [mbind option_bind].
  destruct r as [ctx|]; simpl in Hr; [|by destruct Hr; congruence].
  inversion Hr as [|n l u ctx0 p lnd dnd c Hs Hl Hc Hn Hh]; subst; [done|].
  pose proof (spine_trie X s m Hrep _ _ _ _ Hr) as Htn. destruct (trie_lookup _ _ _ Htn Hn) as [[Hd _] _].
  rewrite Hn. cbn [mbind option_bind]. rewrite Hd, Hv. cbn [mbind option_bind fmap option_fmap option_map snd].
  destruct (isLeaf dnd) eqn:Hleaf.
  - assert (He : exists s1, erase_leaf s n l u ctx0 (string_size v) = Some s1 /\ removed (X:=X) (s:=s) (m:=m) (key:=p ++ trieKey dnd) s1).
    { destruct u; [by eapply erase_in_place|by eapply erase_copying]. }
    destruct He as (s1 & -> & Hrep1 & Hwf1 & Ho & Hp). cbn [mbind option_bind]. eexists. split; [done|]. by apply settle_ok.
  - destruct (erase_inner_ok _ _ _ _ _ _ Hr Hn Hv Hleaf Hsmall Hkey) as (it & s' & -> & Hch). cbn [mbind option_bind]. eauto.
Qed.

Lemma erase_absent key : m !! key = None -> key <> [] -> ~ parting m key -> RadixStore_erase s key = Some (0, s).
Proof.
  intros Hv Hkey Hpart. unfold RadixStore_erase. destruct (erase_path_root key) as (r & -> & Hr). cbn [mbind option_bind].
  destruct r as [ctx|]; simpl in Hr; [exfalso|done].
  inversion Hr as [|n l u ctx0 p lnd dnd c Hs Hl Hc Hn Hh]; subst; [done|].
  pose proof (spine_trie X s m Hrep _ _ _ _ Hs) as Ht. pose proof (spine_trie X s m Hrep _ _ _ _ Hr) as Htn.
  destruct (trie_lookup _ _ _ Htn Hn) as [[Hd _] _]. rewrite Hv in Hd.
  destruct (trie_lookup _ _ _ Ht Hl) as [_ [_ Hk]]. destruct (Hk _ _ Hc) as (dnd' & Hn' & Hok & _). simplify_eq.
  destruct (child_branches _ _ _ _ Hok Hd) as (c1 & c2 & l1 & l2 & Hne & H1 & H2).
  destruct (child_entry _ _ _ _ _ _ _ _ Htn Hn H1) as [k1 Hk1]. destruct (child_entry _ _ _ _ _ _ _ _ Htn Hn H2) as [k2 Hk2].
  apply Hpart. by exists c1, c2, k1, k2.
Qed.

(** The other keys: where stored keys part there is a node, but its data cannot be taken. *)
Lemma erase_parting key : m !! key = None -> parting m key -> RadixStore_erase s key = None.
Proof.
  intros Hv Hpart. unfold RadixStore_erase. destruct (erase_path_root key) as (r & -> & Hr). cbn [mbind option_bind].
  destruct r as [[|[n u] ctx]|]; simpl in Hr; [done| |by destruct Hr].
  pose proof (spine_trie X s m Hrep _ _ _ _ Hr) as Htn. apply trie_unfold in Htn as (nd & Hn & [Hd _] & _).
  rewrite Hn. cbn [mbind option_bind]. by rewrite Hd, Hv.
Qed.

End erase.
