(* ===== verification/RadixOrder.v ===== *)
(** * The order of keys

    Keys are ordered as [std::string]s: by their bytes as unsigned numbers, and a prefix comes
    first.  The order of a trie is this order: a node before its children, and the children
    by their first bytes. *)

From Stdlib Require Import ZArith Lia.
From stdpp Require Import prelude gmap.
From S2P Require Import Prelude.

Open Scope Z_scope.

(** [operator<] of [std::string]. *)
Fixpoint string_ltb (a b : list Z) : bool :=
  match a, b with
  | _, [] => false
  | [], _ :: _ => true
  | x :: a, y :: b => (x <? y) || ((x =? y) && string_ltb a b)
  end.

Definition string_lt (a b : list Z) : Prop := string_ltb a b = true.

Infix "≺" := string_lt (at level 70).

#[global] Instance string_lt_dec a b : Decision (a ≺ b).
Proof. unfold string_lt. apply _. Defined.

Lemma string_lt_cons x y a b : x :: a ≺ y :: b <-> x < y \/ (x = y /\ a ≺ b).
Proof.
  unfold string_lt. simpl. rewrite orb_true_iff, andb_true_iff, Z.ltb_lt, Z.eqb_eq. done.
Qed.

Lemma string_lt_nil a : ~ a ≺ [].
Proof. by destruct a. Qed.

Lemma string_lt_irrefl a : ~ a ≺ a.
Proof. induction a as [|x a IH]; [done|]. rewrite string_lt_cons. intros [?|[_ ?]]; [lia|done]. Qed.

Lemma string_lt_trans a b c : a ≺ b -> b ≺ c -> a ≺ c.
Proof.
  revert a c. induction b as [|y b IH]; intros [|x a] [|z c]; try done.
  rewrite !string_lt_cons. intros [?|[-> ?]] [?|[-> ?]]; [lia|lia|lia|eauto].
Qed.

Lemma string_lt_total a b : a ≺ b \/ a = b \/ b ≺ a.
Proof.
  revert b. induction a as [|x a IH]; intros [|y b]; [auto|by left|by right; right|]. rewrite !string_lt_cons.
  destruct (Z.lt_total x y) as [?|[->|?]]; [auto| |auto]. destruct (IH b) as [?|[->|?]]; auto.
Qed.

Lemma string_lt_app p a b : p ++ a ≺ p ++ b <-> a ≺ b.
Proof. induction p as [|x p IH]; [done|]. simpl. rewrite string_lt_cons, IH. split; [intros [?|[_ ?]]; [lia|done]|auto]. Qed.

Lemma string_lt_longer p x k : p ≺ p ++ x :: k.
Proof. induction p as [|y p IH]; [done|]. simpl. apply string_lt_cons. auto. Qed.

(** Different next bytes decide. *)
Lemma string_lt_byte p x y a b : x < y -> p ++ x :: a ≺ p ++ y :: b.
Proof. intros Hxy. apply string_lt_app, string_lt_cons. auto. Qed.

Lemma string_lt_byte_inv p x y a b : p ++ x :: a ≺ p ++ y :: b -> x <= y.
Proof. rewrite string_lt_app, string_lt_cons. lia. Qed.

Lemma string_lt_asym a b : a ≺ b -> ~ b ≺ a.
Proof. intros Hab Hba. by eapply string_lt_irrefl, string_lt_trans. Qed.

Lemma string_lt_not_longer p k : ~ p ++ k ≺ p.
Proof.
  destruct k as [|x k]; [rewrite app_nil_r; apply string_lt_irrefl|]. apply string_lt_asym, string_lt_longer.
Qed.

(** What is not below [p] compares with [p] as with all that is. *)
Lemma string_lt_outside p k t : ~ p `prefix_of` k -> p ≺ k -> p ++ t ≺ k.
Proof.
  revert k. induction p as [|x p IH]; intros [|y k] Hnot Hlt; try done.
  - exfalso. apply Hnot, prefix_nil.
  - simpl in *. apply string_lt_cons in Hlt as [?|[-> Hlt]]; apply string_lt_cons; [auto|]. right. split; [done|].
    apply IH; [|done]. intros Hp. by apply Hnot, prefix_cons.
Qed.

Lemma string_lt_outside_r p k t : ~ p `prefix_of` k -> p ++ t ≺ k -> p ≺ k.
Proof.
  intros Hnot. destruct t as [|x t]; [by rewrite app_nil_r|]. intros Hlt.
  eapply string_lt_trans; [apply string_lt_longer|done].
Qed.

Lemma string_lt_below p k t : ~ p `prefix_of` k -> k ≺ p ++ t -> k ≺ p \/ k = p.
Proof.
  intros Hnot Hlt. destruct (string_lt_total k p) as [?|[?|Hpk]]; auto.
  exfalso. apply (string_lt_irrefl k). eapply string_lt_trans; [done|]. by apply string_lt_outside.
Qed.
