(* ===== verification/RadixIteration.v ===== *)
(** * Iteration over the radix store

    The iterators visit the entries in the order of the keys: [_findNext] goes to the next
    larger key, [_findNextReverse] to the next smaller one, [begin] and [rbegin] to the ends.
    [first_of] says that a position is the smallest entry with a property. *)

From Stdlib Require Import ZArith Lia.
From stdpp Require Import prelude gmap.
From S2P Require Import Prelude RadixNode RadixStore RadixIterator RadixInv RadixLookup RadixOwn RadixUpsert RadixErase RadixOrder.

Open Scope Z_scope.

Section iteration.

Context {X : Prop} {H : gmap positive Node} {m : contents}.

(** The entries below a node: its own, and those of its children. *)
Lemma entry_cases l p nd k :
  trie X H m l p -> H !! l = Some nd -> is_Some (m !! (p ++ k)) ->
  k = [] \/ exists c y cnd t, children nd !! c = Some y /\ H !! y = Some cnd /\ child_ok m p c cnd /\
              trie X H m y (p ++ trieKey cnd) /\ k = trieKey cnd ++ t /\ head k = Some c.
Proof.
  intros Ht Hl Hs. destruct k as [|c k]; [by left|]. right. destruct (trie_lookup _ _ _ Ht Hl) as [_ [Hnone Hk]].
  destruct (children nd !! c) as [y|] eqn:Ey; [|rewrite Hnone in Hs by done; by destruct Hs].
  destruct (Hk _ _ Ey) as (cnd & Hy & Hok & Hty). destruct (child_prefix _ _ _ _ Hok _ Hs) as [t Et].
  exists c, y, cnd, t. auto 10.
Qed.

(** ** Fuel *)

Lemma trie_data_node l p k v : trie X H m l p -> m !! (p ++ k) = Some v -> exists n nd, H !! n = Some nd /\ data nd = Some (p ++ k, v).
Proof.
  intros Ht. revert k. induction Ht as [l p nd Hl Hd Hc Hn Hk Ht IH]. intros k Hv.
  assert (Ht' : trie X H m l p) by (econstructor; eauto).
  destruct (entry_cases l p nd k Ht' Hl) as [->|(c & y & cnd & t & Hcy & Hy & _ & _ & -> & _)]; [by eexists| |].
  - rewrite app_nil_r in *. exists l, nd. by rewrite Hd, Hv.
  - rewrite app_assoc in *. by eapply IH.
Qed.

Lemma branch_fuel_bound n nd d : H !! n = Some nd -> data nd = Some d -> (length d.1 < branch_fuel H)%nat.
Proof.
  intros Hn Hd. unfold branch_fuel.
  assert (Hin : length d.1 ∈ data_length <$> (map_to_list H).*2).
  { apply list_elem_of_fmap. exists nd. split; [unfold data_length; by rewrite Hd|]. apply list_elem_of_fmap. exists (n, nd).
    split; [done|]. by apply elem_of_map_to_list. }
  assert (Hmax : forall (l : list nat) x, x ∈ l -> (x <= foldr Nat.max 0 l)%nat).
  { induction l as [|y l IH]; intros x Hx; [by apply not_elem_of_nil in Hx|]. simpl.
    apply elem_of_cons in Hx as [->|Hx]; [lia|]. specialize (IH x Hx). lia. }
  apply Hmax in Hin. lia.
Qed.

Lemma trie_fuel l p k : trie X H m l p -> is_Some (m !! (p ++ k)) -> (length (p ++ k) < branch_fuel H)%nat.
Proof. intros Ht [v Hv]. destruct (trie_data_node _ _ _ _ Ht Hv) as (n & nd & Hn & Hd). by apply (branch_fuel_bound _ _ _ Hn Hd). Qed.

(** ** The way from the root *)

Inductive way (root : positive) : list positive -> list Z -> Prop :=
  | way_root : way root [root] []
  | way_step n l ctx p nd cnd c :
      way root (l :: ctx) p -> H !! l = Some nd -> children nd !! c = Some n -> H !! n = Some cnd ->
      head (trieKey cnd) = Some c -> way root (n :: l :: ctx) (p ++ trieKey cnd).

Context {root : positive}.

(** The node [l] is reached from the root with the bytes [p]. *)
Definition visits (l : positive) (p : list Z) : Prop := exists ctx, way root (l :: ctx) p.

(** [_buildContext] retraces the way. *)
Lemma context_below_way n ctx p rest :
  way root (n :: ctx) p ->
  exists fuel, (length rest <= fuel)%nat /\ context_below (length (p ++ rest)) H root (p ++ rest) [root] = context_below fuel H n rest (n :: ctx).
Proof.
  intros Hw. remember (n :: ctx) as ctx' eqn:E. revert n ctx rest E.
  induction Hw as [|n l ctx' p nd cnd c Hw IH Hl Hc Hn Hh]; intros n' ctx rest E; simplify_eq; [by exists (length rest)|].
  destruct (IH _ _ (trieKey cnd ++ rest) eq_refl) as (fuel & Hfuel & Hrun). destruct (head_cons _ _ Hh) as [t Et].
  rewrite length_app, Et in Hfuel. destruct fuel as [|fuel]; [simpl in Hfuel; lia|]. exists fuel. split; [simpl in Hfuel; lia|].
  rewrite <- app_assoc, Hrun. rewrite Et at 1. cbn [context_below app]. rewrite Hl. cbn [mbind option_bind].
  rewrite Hc. cbn [mbind option_bind]. rewrite Hn. cbn [mbind option_bind]. f_equal.
  change (c :: t ++ rest) with ((c :: t) ++ rest). by rewrite <- Et, drop_app_length.
Qed.

Context (Hkey : trieKey <$> H !! root = Some []).

Lemma buildContext_ok n ctx k : way root (n :: ctx) k -> _buildContext H k root = Some (n :: ctx).
Proof.
  intros Hw. unfold _buildContext. destruct (fmap_Some_1 _ _ _ Hkey) as (nd & Hnd & Hempty).
  rewrite Hnd. cbn [mbind option_bind]. rewrite <- Hempty. cbn [length]. rewrite drop_0.
  destruct (context_below_way _ _ _ [] Hw) as (fuel & _ & Hrun). rewrite !app_nil_r in Hrun. rewrite Hrun. by destruct fuel.
Qed.

Context (Hroot : trie X H m root []).

Lemma visits_trie l p : visits l p -> trie X H m l p.
Proof.
  intros [ctx Hs]. remember (l :: ctx) as ctx' eqn:E. revert l ctx E.
  induction Hs as [|n l' ctx' p nd cnd c Hs IH Hl Hc Hn Hh]; intros l ctx E; simplify_eq; [done|].
  specialize (IH _ _ eq_refl). destruct (trie_lookup _ _ _ IH Hl) as [_ [_ Hk]].
  destruct (Hk _ _ Hc) as (cnd' & Hn' & _ & Ht). by simplify_eq.
Qed.

(** A child is reached as well, starts with the byte that it hangs at, and holds entries. *)
Lemma visits_child l p nd c y :
  visits l p -> H !! l = Some nd -> children nd !! c = Some y ->
  exists cnd t, H !! y = Some cnd /\ child_ok m p c cnd /\ visits y (p ++ trieKey cnd) /\ trieKey cnd = c :: t /\
    exists k, is_Some (m !! ((p ++ trieKey cnd) ++ k)).
Proof.
  intros [ctx Hw] Hl Hc. pose proof (visits_trie l p (ex_intro _ ctx Hw)) as Ht. destruct (trie_lookup _ _ _ Ht Hl) as [_ [_ Hk]].
  destruct (Hk _ _ Hc) as (cnd & Hy & Hok & Hty). destruct (head_cons _ _ (child_front _ _ _ _ Hok)) as [t Et].
  exists cnd, t. split_and!; try done.
  - exists (l :: ctx). econstructor; try done. apply Hok.
  - exact (trie_nonempty _ _ _ _ _ _ Hty Hy (child_branches _ _ _ _ Hok)).
Qed.

(** The entries below a node, by the child that holds them. *)
Lemma visits_entries l p nd k :
  visits l p -> H !! l = Some nd -> is_Some (m !! (p ++ k)) ->
  k = [] \/ exists c y cnd t u, children nd !! c = Some y /\ H !! y = Some cnd /\ byte c /\ k = trieKey cnd ++ u /\ trieKey cnd = c :: t.
Proof.
  intros Hv Hl Hs. destruct (entry_cases l p nd k (visits_trie _ _ Hv) Hl Hs) as [|(c & y & cnd & u & Hc & Hy & Hok & _ & Ek & _)]; [by left|].
  right. destruct (visits_child _ _ _ _ _ Hv Hl Hc) as (cnd' & t & Hy' & _ & _ & Et & _). simplify_eq.
  exists c, y, cnd, t, u. pose proof (child_byte _ _ _ _ Hok) as [? ?]. by split_and!.
Qed.

(** ** Entries *)

(** The node [n] holds the entry of [k]. *)
Definition entry (n : positive) (k v : list Z) : Prop :=
  exists nd, H !! n = Some nd /\ data nd = Some (k, v) /\ m !! k = Some v /\ visits n k.

Lemma visits_data l p nd d : visits l p -> H !! l = Some nd -> data nd = Some d -> exists v, entry l p v.
Proof.
  intros Hv Hl Hd. destruct (trie_lookup _ _ _ (visits_trie _ _ Hv) Hl) as [[Hd' _] _]. rewrite Hd in Hd'.
  destruct (m !! p) as [v|] eqn:E; [|done]. exists v, nd. simpl in Hd'. by rewrite Hd.
Qed.

Lemma visits_no_data l p nd : visits l p -> H !! l = Some nd -> data nd = None -> m !! p = None.
Proof.
  intros Hv Hl Hd. destruct (trie_lookup _ _ _ (visits_trie _ _ Hv) Hl) as [[Hd' _] _]. rewrite Hd in Hd'. by destruct (m !! p).
Qed.

(** ** Down and left *)

(** [n] is the smallest entry below [p] whose rest of the key satisfies [P]. *)
Definition least_below (p : list Z) (P : list Z -> Prop) (n : positive) : Prop :=
  exists k v, entry n (p ++ k) v /\ P k /\ forall k', is_Some (m !! (p ++ k')) -> P k' -> ~ p ++ k' ≺ p ++ k.

(** The first child has the smallest entries below [p]. *)
Lemma first_child_least l p nd c y cnd n :
  visits l p -> H !! l = Some nd -> children nd !! c = Some y -> H !! y = Some cnd ->
  (forall c', 0 <= c' < c -> children nd !! c' = None) ->
  least_below (p ++ trieKey cnd) (fun _ => True) n -> least_below p (fun k => k <> []) n.
Proof.
  intros Hv Hl Hc Hy Hmin (k & v & He & _ & Hleast).
  destruct (visits_child _ _ _ _ _ Hv Hl Hc) as (cnd' & t0 & Hy' & _ & _ & Et0 & _). simplify_eq.
  exists (trieKey cnd ++ k), v. rewrite app_assoc. split_and!; [done|by rewrite Et0|]. intros k' Hs Hne Hlt.
  destruct (visits_entries l p nd k' Hv Hl Hs) as [->|(c' & y' & cnd' & t & u & Hc' & Hy' & [? _] & -> & Et)]; [done|].
  destruct (Z.lt_total c' c) as [?|[->|Hgt]].
  - by rewrite Hmin in Hc' by lia.
  - simplify_eq. rewrite app_assoc in Hs, Hlt. by apply (Hleast u).
  - rewrite Et, Et0, <- app_assoc in Hlt. apply string_lt_byte_inv in Hlt. lia.
Qed.

Lemma first_child_spec l p nd :
  visits l p -> H !! l = Some nd -> (exists k, k <> [] /\ is_Some (m !! (p ++ k))) ->
  exists c, children nd !! c = Some (first_child nd l) /\ forall c', 0 <= c' < c -> children nd !! c' = None.
Proof.
  intros Hv Hl (k & Hne & Hs). destruct (visits_entries l p nd k Hv Hl Hs) as [->|(c & y & cnd & t & u & Hc & Hy & [? ?] & _)]; [done|].
  unfold first_child. destruct (children_from nd 0) as [|y0 l0] eqn:E.
  - by rewrite (children_from_nil nd 0 c E) in Hc by lia.
  - apply children_from_cons in E as (c0 & Hc0 & Hy0 & Hmin & _). by exists c0.
Qed.

Lemma leftmost_ok fuel l p nd :
  visits l p -> H !! l = Some nd -> (exists k, is_Some (m !! (p ++ k))) ->
  (forall k, is_Some (m !! (p ++ k)) -> (length (p ++ k) < fuel + length p)%nat) ->
  exists n, leftmost fuel H l = Some n /\ least_below p (fun _ => True) n.
Proof.
  revert l p nd. induction fuel as [|fuel IH]; intros l p nd Hv Hl [k Hs] Hfuel; cbn [leftmost].
  { specialize (Hfuel k Hs). rewrite length_app in Hfuel. lia. }
  rewrite Hl. cbn [mbind option_bind]. destruct (data nd) as [d|] eqn:Hd.
  - exists l. split; [done|]. destruct (visits_data _ _ _ _ Hv Hl Hd) as [v He]. exists [], v. rewrite app_nil_r. split_and!; [done..|].
    intros k' _ _. apply string_lt_not_longer.
  - pose proof (visits_no_data _ _ _ Hv Hl Hd) as Hnone.
    assert (Hnn : forall k1, is_Some (m !! (p ++ k1)) -> k1 <> []) by (intros k1 Hs1 ->; rewrite app_nil_r, Hnone in Hs1; by destruct Hs1).
    destruct (first_child_spec l p nd Hv Hl) as (c & Hc & Hmin); [eauto|].
    destruct (visits_child _ _ _ _ _ Hv Hl Hc) as (cnd & t & Hy & _ & Hvy & Et & Hney).
    destruct (IH _ (p ++ trieKey cnd) cnd Hvy Hy Hney) as (n & Hrun & Hleast).
    + intros k' Hk'. rewrite <- app_assoc in Hk'. specialize (Hfuel _ Hk'). rewrite app_assoc in Hfuel.
      rewrite Et in *. rewrite !length_app in *. simpl in *. lia.
    + exists n. split; [done|]. destruct (first_child_least _ _ _ _ _ _ _ Hv Hl Hc Hy Hmin Hleast) as (k1 & v & He & Hk1 & Hall).
      exists k1, v. split_and!; [done..|]. intros k' Hs' _. apply Hall; auto.
Qed.

Lemma leftmost_run l p nd :
  visits l p -> H !! l = Some nd -> (exists k, is_Some (m !! (p ++ k))) ->
  exists n, leftmost (branch_fuel H) H l = Some n /\ least_below p (fun _ => True) n.
Proof. intros Hv Hl Hs. eapply leftmost_ok; eauto. intros k Hk. pose proof (trie_fuel _ _ _ (visits_trie _ _ Hv) Hk). lia. Qed.

Lemma traverse_left_ok l p nd :
  visits l p -> H !! l = Some nd -> (exists k, k <> [] /\ is_Some (m !! (p ++ k))) ->
  exists n, _traverseLeftSubtree H l = Some n /\ least_below p (fun k => k <> []) n.
Proof.
  intros Hv Hl Hs. unfold _traverseLeftSubtree. rewrite Hl. cbn [mbind option_bind].
  destruct (first_child_spec l p nd Hv Hl Hs) as (c & Hc & Hmin).
  destruct (visits_child _ _ _ _ _ Hv Hl Hc) as (cnd & t & Hy & _ & Hvy & _ & Hney).
  destruct (leftmost_run _ _ _ Hvy Hy Hney) as (n & -> & Hleast). exists n. split; [done|]. by eapply first_child_least.
Qed.

(** A node with data is first in its subtree; else [_traverseLeftSubtree] finds the first. *)
Lemma subtree_first y p cnd :
  visits y p -> H !! y = Some cnd -> (exists k, is_Some (m !! (p ++ k))) ->
  exists r, (if bool_decide (is_Some (data cnd)) then Some (Some y) else c ← _traverseLeftSubtree H y; Some (Some c)) = Some (Some r) /\
    least_below p (fun _ => True) r.
Proof.
  intros Hv Hy Hne. destruct (data cnd) as [d|] eqn:Ed.
  - destruct (leftmost_run y _ _ Hv Hy Hne) as (r & Hr & Hleast).
    unfold branch_fuel in Hr. cbn [leftmost] in Hr. rewrite Hy in Hr. cbn [mbind option_bind] in Hr.
    rewrite Ed, bool_decide_true in Hr by done. simplify_eq. by exists r.
  - pose proof (visits_no_data _ _ _ Hv Hy Ed) as Hnone.
    assert (Hnn : forall k1, is_Some (m !! (p ++ k1)) -> k1 <> []) by (intros k1 Hs ->; rewrite app_nil_r, Hnone in Hs; by destruct Hs).
    destruct (traverse_left_ok y _ _ Hv Hy) as (r & -> & k1 & v1 & He & _ & Hleast); [naive_solver|].
    exists r. split; [done|]. exists k1, v1. split_and!; [done..|]. intros k' Hs _. auto.
Qed.

(** ** The first entry with a property *)

Definition first_of (P : list Z -> Prop) (r : option positive) : Prop :=
  match r with
  | Some n => exists k v, entry n k v /\ P k /\ forall k', is_Some (m !! k') -> P k' -> ~ k' ≺ k
  | None => forall k, is_Some (m !! k) -> ~ P k
  end.

(** Where a search for the first entry with [P] stands: below [q], to the right of the bytes
    under [i], or else to the right of [q]. *)
Record gap (P : list Z -> Prop) (q : list Z) (i : Z) : Prop := {
  gap_before : forall k, is_Some (m !! k) -> k ≺ q -> ~ P k;
  gap_here : is_Some (m !! q) -> ~ P q;
  gap_left : forall c t, is_Some (m !! (q ++ c :: t)) -> c < i -> ~ P (q ++ c :: t);
  gap_right : forall c t, is_Some (m !! (q ++ c :: t)) -> i <= c -> P (q ++ c :: t);
  gap_after : forall k, is_Some (m !! k) -> q ≺ k -> ~ q `prefix_of` k -> P k;
}.

(** Nothing below [q] is left, when its node has no child to the right. *)
Lemma gap_exhausted P l q nd i k :
  visits l q -> H !! l = Some nd -> gap P q i -> children_from nd i = [] -> is_Some (m !! (q ++ k)) -> ~ P (q ++ k).
Proof.
  intros Hv Hl Hg Hnone Hs. destruct (visits_entries l q nd k Hv Hl Hs) as [->|(c & y & cnd & t & u & Hc & Hy & [_ ?] & -> & Et)].
  - rewrite app_nil_r in *. by apply (gap_here _ _ _ Hg).
  - rewrite Et in *. simpl in *. apply (gap_left _ _ _ Hg); [done|]. destruct (Z.lt_ge_cases c i) as [?|Hge]; [done|].
    by rewrite (children_from_nil _ _ c Hnone) in Hc by lia.
Qed.

Lemma gap_climb P n l q nd cnd c i :
  visits l q -> H !! l = Some nd -> children nd !! c = Some n -> H !! n = Some cnd ->
  gap P (q ++ trieKey cnd) i -> children_from cnd i = [] -> gap P q (c + 1).
Proof.
  intros Hv Hl Hc Hn Hg Hnone. destruct (visits_child _ _ _ _ _ Hv Hl Hc) as (cnd' & t0 & Hn' & Hok & Hvn & Et0 & _). simplify_eq.
  assert (Hq : q ≺ q ++ trieKey cnd) by (rewrite Et0; apply string_lt_longer). split.
  - intros k Hs Hlt. apply (gap_before _ _ _ Hg); [done|]. by eapply string_lt_trans.
  - intros Hs. by apply (gap_before _ _ _ Hg).
  - intros c' t Hs Hlt. destruct (decide (c' = c)) as [->|Hne].
    + destruct (child_prefix _ _ _ _ Hok t Hs) as [t' Et]. rewrite Et, app_assoc in *. by eapply gap_exhausted.
    + apply (gap_before _ _ _ Hg); [done|]. rewrite Et0. apply string_lt_byte. lia.
  - intros c' t Hs Hle. apply (gap_after _ _ _ Hg); [done| |]; rewrite Et0; [apply string_lt_byte; lia|].
    intros [t' Et]. rewrite <- app_assoc in Et. apply app_inv_head in Et. simpl in Et. simplify_eq. lia.
  - intros k Hs Hlt Hnot. apply (gap_after _ _ _ Hg); [done|by apply string_lt_outside|]. intros [t ->]. apply Hnot.
    rewrite <- app_assoc. by eexists.
Qed.

Lemma gap_first P l q nd i c y cnd r :
  visits l q -> H !! l = Some nd -> children nd !! c = Some y -> H !! y = Some cnd -> i <= c ->
  (forall c', i <= c' < c -> children nd !! c' = None) ->
  gap P q i -> least_below (q ++ trieKey cnd) (fun _ => True) r -> first_of P (Some r).
Proof.
  intros Hv Hl Hc Hy Hi Hmin Hg (k & v & He & _ & Hleast).
  destruct (visits_child _ _ _ _ _ Hv Hl Hc) as (cnd' & t0 & Hy' & _ & _ & Et0 & _). simplify_eq.
  exists ((q ++ trieKey cnd) ++ k), v. split_and!; [done| |].
  - destruct He as (_ & _ & _ & Hm & _). rewrite Et0, <- app_assoc in *. apply (gap_right _ _ _ Hg); [by eexists|done].
  - intros k' Hs HP Hlt. destruct (decide (q `prefix_of` k')) as [[u' ->]|Hnot].
    + destruct (visits_entries l q nd u' Hv Hl Hs) as [->|(c' & y' & cnd' & t & u & Hc' & Hy' & _ & -> & Et)].
      { rewrite app_nil_r in *. by apply (gap_here _ _ _ Hg). }
      destruct (Z.lt_total c' c) as [?|[->|?]].
      * rewrite Et in Hs, HP. eapply (gap_left _ _ _ Hg); [exact Hs| |exact HP].
        destruct (Z.lt_ge_cases c' i) as [?|?]; [done|]. by rewrite Hmin in Hc' by lia.
      * simplify_eq. rewrite app_assoc in Hs, Hlt. by apply (Hleast u).
      * rewrite Et0, Et, <- app_assoc in Hlt. apply string_lt_byte_inv in Hlt. lia.
    + rewrite <- app_assoc in Hlt. destruct (string_lt_below _ _ _ Hnot Hlt) as [Hb| ->]; [|by apply Hnot].
      by apply (gap_before _ _ _ Hg k').
Qed.

(** The child that the search goes into. *)
Lemma child_from l q nd y t i :
  visits l q -> H !! l = Some nd -> children_from nd i = y :: t ->
  exists c cnd, children nd !! c = Some y /\ H !! y = Some cnd /\ i <= c /\ (forall c', i <= c' < c -> children nd !! c' = None) /\
    visits y (q ++ trieKey cnd) /\ exists k, is_Some (m !! ((q ++ trieKey cnd) ++ k)).
Proof.
  intros Hv Hl E. apply children_from_cons in E as (c1 & Hc1 & Hy1 & Hmin & _).
  destruct (visits_child _ _ _ _ _ Hv Hl Hy1) as (cnd & t0 & Hy & _ & Hvy & _ & Hne). exists c1, cnd. split_and!; try done. lia.
Qed.

(** ** The next entry *)

Lemma next_above_ok P n ctx p nd i :
  way root (n :: ctx) p -> H !! n = Some nd -> gap P p i -> children_from nd i = [] ->
  exists r, next_above H n ctx = Some r /\ first_of P r.
Proof.
  revert n p nd i. induction ctx as [|l ctx IH]; intros n p nd i Hw Hn Hg Hnone; cbn [next_above].
  { exists None. split; [done|]. assert (p = []) as -> by by inversion Hw.
    intros k Hs. apply (gap_exhausted P n [] nd i k); auto. by exists []. }
  inversion Hw as [|? ? ? q pnd cnd c Hw0 Hl Hc Hn' Hh]; simplify_eq. assert (Hv : visits l q) by by exists ctx.
  pose proof (gap_climb _ _ _ _ _ _ _ _ Hv Hl Hc Hn Hg Hnone) as Hg'.
  rewrite Hn. cbn [mbind option_bind]. rewrite Hh. cbn [mbind option_bind]. rewrite Hl. cbn [mbind option_bind].
  destruct (children_from pnd (c + 1)) as [|y t] eqn:E; [by apply (IH l q pnd (c + 1))|].
  destruct (child_from l q pnd y t (c + 1) Hv Hl E) as (c1 & ynd & Hc1 & Hy & Hle & Hmin & Hvy & Hne).
  rewrite Hy. cbn [mbind option_bind]. destruct (subtree_first y _ _ Hvy Hy Hne) as (r & Hr & Hleast).
  exists (Some r). split; [exact Hr|]. exact (gap_first _ _ _ _ _ _ _ _ _ Hv Hl Hc1 Hy Hle Hmin Hg' Hleast).
Qed.

Lemma leaf_gap l k nd : visits l k -> H !! l = Some nd -> gap (fun k' => k ≺ k') k 0.
Proof.
  intros Hv Hl. split.
  - intros k' _ Hlt. by apply string_lt_asym.
  - intros _. apply string_lt_irrefl.
  - intros c t Hs Hlt. destruct (visits_entries l k nd (c :: t) Hv Hl Hs) as [|(c' & y & cnd & t' & u & _ & _ & [? _] & Eu & Et)]; [done|].
    rewrite Et in Eu. simpl in Eu. simplify_eq. lia.
  - intros c t _ _. apply string_lt_longer.
  - done.
Qed.

Lemma findNext_ok n k v :
  entry n k v -> exists r, _findNext H (mkIter root (Some n)) = Some (mkIter root r) /\ first_of (fun k' => k ≺ k') r.
Proof.
  intros (nd & Hn & Hd & Hm & Hv). unfold _findNext. cbn [it_current it_root]. rewrite Hn. cbn [mbind option_bind].
  pose proof (leaf_gap _ _ _ Hv Hn) as Hg. destruct (isLeaf nd) eqn:Hleaf; cbn [negb].
  - rewrite Hd. cbn [mbind option_bind fst]. destruct Hv as [ctx Hw]. rewrite (buildContext_ok _ _ _ Hw). cbn [mbind option_bind head tl].
    destruct (next_above_ok _ _ _ _ _ _ Hw Hn Hg) as (r & -> & Hr); [by apply leaf_no_children|]. by exists r.
  - destruct (not_leaf_from _ Hleaf) as (y & t & E). destruct (child_from _ _ _ _ _ _ Hv Hn E) as (c & cnd & Hc & Hy & Hle & Hmin & Hvy & Hne).
    unfold _traverseLeftSubtree, first_child. rewrite Hn. cbn [mbind option_bind]. rewrite E.
    destruct (leftmost_run _ _ _ Hvy Hy Hne) as (r & -> & Hr). exists (Some r). split; [done|].
    exact (gap_first _ _ _ _ _ _ _ _ _ Hv Hn Hc Hy Hle Hmin Hg Hr).
Qed.

End iteration.

Arguments visits : clear implicits.
Arguments entry : clear implicits.
Arguments least_below : clear implicits.
Arguments first_of : clear implicits.
Arguments gap : clear implicits.
