(* ===== verification/RadixWalk.v ===== *)
(** * Loops over the radix store

    A loop from an iterator to the end meets the remaining entries, each once and in the
    order of the keys ([walk_all]).  The comparison of stores and [distance], which are such
    loops, follow from it. *)

From Stdlib Require Import ZArith Lia.
From stdpp Require Import prelude gmap sorting.
From S2P Require Import Prelude RadixNode RadixStore RadixIterator RadixInv RadixLookup RadixOrder RadixIteration.

Open Scope Z_scope.

(** The entries of [m] in the order of their keys. *)
Record listing (m : contents) (L : list (list Z * list Z)) : Prop := {
  listing_sorted : StronglySorted (fun a b => a.1 ≺ b.1) L;
  listing_elems : forall k v, (k, v) ∈ L <-> m !! k = Some v;
}.

Lemma listing_nil (m : contents) : (forall k, m !! k = None) -> listing m [].
Proof. intros Hm. split; [constructor|]. intros k v. rewrite Hm. split; [by intros ?%not_elem_of_nil|done]. Qed.

Lemma listing_cons (m : contents) k v L :
  m !! k = Some v -> (forall k', is_Some (m !! k') -> ~ k' ≺ k) -> listing (delete k m) L -> listing m ((k, v) :: L).
Proof.
  intros Hk Hfirst [Hs He]. split.
  - constructor; [done|]. apply Forall_forall. intros [k' v'] Hin. apply He, lookup_delete_Some in Hin as [Hne Hin].
    destruct (string_lt_total k k') as [?|[?|?]]; [done..|]. destruct (Hfirst k'); [by eexists|done].
  - intros k' v'. rewrite elem_of_cons, He. destruct (decide (k' = k)) as [->|Hne].
    + rewrite lookup_delete_eq. naive_solver.
    + rewrite lookup_delete_ne by done. naive_solver.
Qed.

(** There is only one. *)
Lemma listing_unique (m m' : contents) L : listing m L -> listing m' L -> m = m'.
Proof.
  intros [_ H1] [_ H2]. apply map_eq. intros k. apply option_eq. intros v. by rewrite <- H1, <- H2.
Qed.

Lemma sorted_ext (L L' : list (list Z * list Z)) :
  StronglySorted (fun a b => a.1 ≺ b.1) L -> StronglySorted (fun a b => a.1 ≺ b.1) L' -> (forall x, x ∈ L <-> x ∈ L') -> L = L'.
Proof.
  revert L'. induction L as [|x L IH]; intros [|y L'] Hs Hs' Heq; [done| | |].
  - destruct (not_elem_of_nil y). apply Heq. by left.
  - destruct (not_elem_of_nil x). apply Heq. by left.
  - apply StronglySorted_inv in Hs as [Hs Hx], Hs' as [Hs' Hy]. rewrite Forall_forall in Hx, Hy.
    assert (x = y) as ->.
    { assert (Hxy : x ∈ y :: L') by (apply Heq; by left). assert (Hyx : y ∈ x :: L) by (apply Heq; by left).
      apply elem_of_cons in Hxy as [|Hxy]; [done|]. apply elem_of_cons in Hyx as [|Hyx]; [done|].
      destruct (string_lt_asym _ _ (Hx _ Hyx)). by apply Hy. }
    f_equal. apply IH; [done..|]. intros z. specialize (Heq z). rewrite !elem_of_cons in Heq. split; intros Hz.
    + destruct (proj1 Heq) as [->|]; [by right| |done]. by destruct (string_lt_irrefl y.1 (Hx _ Hz)).
    + destruct (proj2 Heq) as [->|]; [by right| |done]. by destruct (string_lt_irrefl y.1 (Hy _ Hz)).
Qed.

Lemma listing_eq m m' L L' : listing m L -> listing m' L' -> L = L' <-> m = m'.
Proof.
  intros H1 H2. split; [intros ->; by eapply listing_unique|]. intros ->. destruct H1 as [Hs He], H2 as [Hs' He'].
  apply sorted_ext; [done..|]. intros [k v]. by rewrite He, He'.
Qed.

(** The entries that a loop from the position [r] meets. *)
Inductive walk (H : gmap positive Node) (root : positive) : option positive -> list (list Z * list Z) -> Prop :=
  | walk_end : walk H root None []
  | walk_step n r d L :
      visits H root n d.1 -> deref H (mkIter root (Some n)) = Some d -> _findNext H (mkIter root (Some n)) = Some (mkIter root r) ->
      walk H root r L -> walk H root (Some n) (d :: L).

Section walk.

Context {X : Prop} {H : gmap positive Node} {m : contents} {root : positive}.
Context (Hkey : trieKey <$> H !! root = Some []) (Hroot : trie X H m root []).

Definition upward (P : list Z -> Prop) : Prop := forall k k', P k -> k ≺ k' -> P k'.

Lemma entry_deref n k v : entry H m root n k v -> deref H (mkIter root (Some n)) = Some (k, v).
Proof. intros (nd & Hn & Hd & _). unfold deref. cbn [it_current mbind option_bind]. by rewrite Hn. Qed.

Lemma walk_all P `{forall k, Decision (P k)} r :
  upward P -> first_of H m root P r -> exists L, walk H root r L /\ listing (filter (fun kv => P kv.1) m) L.
Proof.
  remember (size (filter (fun kv => P kv.1) m)) as n eqn:Hn. revert P H0 r Hn.
  induction n as [n IH] using lt_wf_ind. intros P HP r -> Hup Hfirst. destruct r as [x|]; simpl in Hfirst.
  - destruct Hfirst as (k & v & He & Hk & Hleast). destruct (findNext_ok Hkey Hroot x k v He) as (r & Hnext & Hr).
    pose proof He as (_ & _ & _ & Hm & _).
    assert (Heq : filter (fun kv => k ≺ kv.1) m = delete k (filter (fun kv => P kv.1) m)).
    { apply map_eq. intros k'. apply option_eq. intros v'. rewrite lookup_delete_Some, !map_lookup_filter_Some. simpl. split.
      - intros [Hk' Hlt]. split_and!; [intros ->; by apply string_lt_irrefl in Hlt|done|by eapply Hup].
      - intros (Hne & Hk' & HPk'). split; [done|]. destruct (string_lt_total k k') as [?|[?|?]]; [done..|].
        by destruct (Hleast k'); [by eexists|..]. }
    assert (Hin : filter (fun kv => P kv.1) m !! k = Some v) by by apply map_lookup_filter_Some.
    destruct (IH (size (filter (fun kv => k ≺ kv.1) m))) with (P := fun k' => k ≺ k') (H0 := fun k' => _ : Decision (k ≺ k')) (r := r)
      as (L & HL & Hlist); try done.
    + rewrite Heq, map_size_delete, Hin. simpl. assert (size (filter (fun kv => P kv.1) m) <> 0%nat); [|lia].
      intros Hz. apply map_size_empty_iff in Hz. by rewrite Hz in Hin.
    + intros k1 k2. apply string_lt_trans.
    + exists ((k, v) :: L). pose proof (entry_deref _ _ _ He) as Hd. destruct He as (_ & _ & _ & _ & Hv).
      split; [by econstructor|]. rewrite Heq in Hlist. apply listing_cons; [done| |done].
      intros k' [v' Hk']. apply map_lookup_filter_Some in Hk' as [Hk' HPk']. by apply Hleast; [eexists|].
  - exists []. split; [constructor|]. apply listing_nil. intros k. apply map_lookup_filter_None.
    destruct (m !! k) as [v|] eqn:E; [right|by left]. intros v' Hv'. simpl. apply Hfirst. by eexists.
Qed.

(** All entries are in nodes. *)
Lemma listing_length m0 L : m0 ⊆ m -> listing m0 L -> (length L <= size H)%nat.
Proof.
  intros Hsub0 [Hs He].
  assert (Hsub : L.*1 ⊆+ omap (fun nd => fst <$> data nd) (map_to_list H).*2).
  { apply NoDup_submseteq.
    - clear He. induction Hs as [|x L Hs IH Hx]; [constructor|]. simpl. apply NoDup_cons. split; [|done].
      intros ([k v] & Ek & Hin)%list_elem_of_fmap. rewrite Forall_forall in Hx. specialize (Hx _ Hin). simpl in *.
      rewrite Ek in Hx. by apply string_lt_irrefl in Hx.
    - intros k ([k' v] & -> & Hin)%list_elem_of_fmap. simpl. apply He, (lookup_weaken _ m) in Hin; [|done].
      destruct (trie_data_node root [] k' v Hroot Hin) as (n & nd & Hn & Hd). apply list_elem_of_omap. exists nd. rewrite Hd.
      split; [|done]. apply list_elem_of_fmap. exists (n, nd). split; [done|]. by apply elem_of_map_to_list. }
  apply submseteq_length in Hsub. rewrite length_fmap in Hsub. etrans; [exact Hsub|].
  rewrite <- length_map_to_list, <- (length_fmap snd). generalize ((map_to_list H).*2) as l.
  induction l as [|nd l IH]; [done|]. cbn. destruct (data nd); cbn in *; lia.
Qed.

Lemma first_of_all : (exists k, is_Some (m !! k)) ->
  exists n, leftmost (branch_fuel H) H root = Some n /\ first_of H m root (fun _ => True) (Some n).
Proof.
  intros Hne. destruct (fmap_Some_1 _ _ _ Hkey) as (nd & Hnd & _).
  destruct (leftmost_run Hkey Hroot root [] nd) as (n & Hn & k & v & He & _ & Hleast); [by exists []; constructor|done|done|].
  exists n. split; [done|]. exists k, v. auto.
Qed.

End walk.

(** ** [find] *)

Lemma find_below_visits X H m root fuel l p nd rest n :
  trieKey <$> H !! root = Some [] -> trie X H m root [] -> visits H root l p -> H !! l = Some nd ->
  find_below fuel H (children nd !! char_at rest) rest = Some (Some n) -> visits H root n (p ++ rest).
Proof.
  intros Hkey Hroot. revert l p nd rest. induction fuel as [|fuel IH]; intros l p nd rest Hv Hl Hf; [done|]. cbn [find_below] in Hf.
  destruct (children nd !! char_at rest) as [y|] eqn:Ey; [|done].
  destruct (visits_child Hkey Hroot _ _ _ _ _ Hv Hl Ey) as (cnd & t0 & Hy & _ & Hvy & _). rewrite Hy in Hf. cbn [mbind option_bind] in Hf.
  destruct (Nat.eqb_spec (_comparePrefix (trieKey cnd) rest) (length (trieKey cnd))) as [Heq|]; [|done]. cbn [negb] in Hf.
  destruct (comparePrefix_full _ _ Heq) as [t ->]. rewrite drop_app_length, app_assoc in *.
  destruct ((_ =? _)%nat && _) eqn:E; [|by apply (IH y _ cnd t)]. simplify_eq.
  apply andb_true_iff in E as [E _]. apply Nat.eqb_eq in E. rewrite Heq, length_app in E. destruct t; [by rewrite app_nil_r|simpl in E; lia].
Qed.

Lemma find_stored X s m k v :
  represents X s m -> m !! k = Some v -> exists n, _findNode s k = Some (Some n) /\ entry (nodes s) m (_root s) n k v.
Proof.
  intros Hrep Hv. destruct (findNode_ok X s m k Hrep) as (r & Hf & Hr). unfold finds in Hr. rewrite Hv in Hr.
  destruct Hr as (n & nd & -> & Hn & Hd & _). exists n. split; [done|]. exists nd. split_and!; [done..|].
  destruct Hrep as [Hroot Hkey Hk]. destruct (fmap_Some_1 _ _ _ Hkey) as (rnd & Hrnd & Hempty).
  unfold _findNode, findNode_in in Hf. rewrite Hrnd in Hf. cbn [mbind option_bind] in Hf. rewrite <- Hempty in Hf. cbn [match_root] in Hf.
  apply (find_below_visits X (nodes s) m (_root s) _ (_root s) [] rnd k n Hkey Hroot) in Hf; [done| |done]. exists []. constructor.
Qed.

(** ** Comparison *)

Lemma equal_from_ok fuel H root1 root2 r1 r2 L1 L2 :
  walk H root1 r1 L1 -> walk H root2 r2 L2 -> (length L1 < fuel)%nat ->
  equal_from fuel H (mkIter root1 r1) (mkIter root2 r2) = Some (bool_decide (L1 = L2)).
Proof.
  intros Hw1. revert fuel r2 L2. induction Hw1 as [|n1 r1 d1 L1 _ Hd1 Hn1 Hw1 IH]; intros fuel r2 L2 Hw2 Hfuel;
    (destruct fuel as [|fuel]; [lia|]); destruct Hw2 as [|n2 r2 d2 L2 _ Hd2 Hn2 Hw2]; cbn [equal_from it_current]; try done.
  rewrite (bool_decide_eq_false_2 (Some n1 = None)) by done. cbn [negb]. rewrite (bool_decide_eq_false_2 (Some n2 = None)) by done.
  rewrite Hd1, Hd2. cbn [mbind option_bind]. destruct (decide (d1 = d2)) as [<-|Hne].
  - rewrite (bool_decide_eq_true_2 (d1 = d1)) by done. cbn [negb]. rewrite Hn1, Hn2. cbn [mbind option_bind].
    rewrite (IH fuel r2 L2 Hw2) by (simpl in Hfuel; lia). f_equal. apply bool_decide_ext. split; [by intros ->|by intros [= ->]].
  - rewrite (bool_decide_eq_false_2 (d1 = d2)) by done. rewrite (bool_decide_eq_false_2 (d1 :: L1 = d2 :: L2)) by naive_solver. done.
Qed.

(** ** Distance *)

Section distance.

Context {H : gmap positive Node} {root : positive} (Hkey : trieKey <$> H !! root = Some []).

Lemma visits_unique n n' k : visits H root n k -> visits H root n' k -> n = n'.
Proof. intros [ctx Hw] [ctx' Hw']. apply (buildContext_ok Hkey) in Hw, Hw'. congruence. Qed.

Lemma walk_position r r' L : walk H root r L -> walk H root r' L -> r = r'.
Proof.
  intros Hw Hw'. destruct Hw as [|n r d L Hv]; inversion Hw' as [|? ? ? ? Hv']; subst; [done|]. f_equal. by eapply visits_unique.
Qed.

Lemma walk_list r L L' : walk H root r L -> walk H root r L' -> L = L'.
Proof.
  intros Hw. revert L'. induction Hw as [|n r d L Hv Hd Hn Hw IH]; intros L' Hw'; inversion Hw' as [|? ? ? ? Hv' Hd' Hn']; [done|].
  simplify_eq. f_equal. auto.
Qed.

Lemma distance_from_ok fuel r1 r2 L1 L2 :
  walk H root r1 (L1 ++ L2) -> walk H root r2 L2 -> (length L1 < fuel)%nat ->
  distance_from fuel H (mkIter root r1) (mkIter root r2) = Some (Z.of_nat (length L1)).
Proof.
  revert fuel r1. induction L1 as [|d L1 IH]; intros fuel r1 Hw1 Hw2 Hfuel; (destruct fuel as [|fuel]; [lia|]);
    cbn [distance_from]; unfold iter_eq; cbn [it_current].
  - by rewrite bool_decide_true by by eapply walk_position.
  - rewrite bool_decide_false.
    + inversion Hw1 as [|n r ? ? Hv Hd Hn Hw]; simplify_eq. rewrite Hn. cbn [mbind option_bind].
      rewrite IH by (done || simpl in Hfuel; lia). cbn [mbind option_bind length]. f_equal. lia.
    + intros ->. pose proof (walk_list _ _ _ Hw1 Hw2) as E. apply (f_equal length) in E. simpl in E. rewrite length_app in E. lia.
Qed.

End distance.

(** ** Whole stores *)

Lemma size_insert_weigh m : weigh one m [] = Z.of_nat (size m).
Proof.
  induction m as [|k v m Hk IH] using map_ind; [done|].
  rewrite weigh_insert, map_size_insert, Hk, IH by (done || apply prefix_nil). unfold one. simpl. lia.
Qed.

Lemma listing_size (mx : contents) L : listing mx L -> Z.of_nat (length L) = Z.of_nat (size mx) /\ foldr (fun d a => string_size d.2 + a) 0 L = weigh string_size mx [].
Proof.
  revert mx. induction L as [|[k w] L IH]; intros mx [Hsort He].
  - assert (mx = ∅) as -> by (apply map_empty; intros k; apply eq_None_not_Some; intros [w Hw%He]; by apply not_elem_of_nil in Hw). done.
  - apply StronglySorted_inv in Hsort as [Hsort Hk]. rewrite Forall_forall in Hk.
    assert (Hin : mx !! k = Some w) by (apply He; by left).
    destruct (IH (delete k mx)) as [H1 H2].
    { split; [done|]. intros k' w'. rewrite lookup_delete_Some, <- He, elem_of_cons. split; [|naive_solver]. intros Hin'. split; [|by right].
      intros ->. specialize (Hk _ Hin'). simpl in Hk. by apply string_lt_irrefl in Hk. }
    simpl. rewrite H2, (weigh_delete _ _ _ _ _ Hin) by apply prefix_nil. split; [|done].
    assert (size mx <> 0%nat) by (intros Hz; apply map_size_empty_iff in Hz; by rewrite Hz in Hin).
    rewrite map_size_delete, Hin in H1. simpl in H1. lia.
Qed.

(** The number of entries fits in a [size_t]. *)
Definition countable (m : contents) : Prop := Z.of_nat (size m) < 2 ^ 64.

Section stores.

Context {s : RadixStore} {m : contents} (Hrep : represents True s m).

Lemma size_ok : RadixStore_size s = Some (size_t (Z.of_nat (size m))).
Proof.
  destruct Hrep as [Ht Hr _]. destruct (proj1 (trie_unfold _ _) Ht) as (nd & Hnd & [_ Hc] & _).
  unfold RadixStore_size. rewrite Hnd. cbn [mbind option_bind]. destruct (Hc I) as [-> _]. by rewrite size_insert_weigh.
Qed.

Lemma dataSize_ok : RadixStore_dataSize s = Some (size_t (weigh string_size m [])).
Proof.
  destruct Hrep as [Ht Hr _]. destruct (proj1 (trie_unfold _ _) Ht) as (nd & Hnd & [_ Hc] & _).
  unfold RadixStore_dataSize. rewrite Hnd. cbn [mbind option_bind]. by destruct (Hc I) as [_ ->].
Qed.

Lemma empty_ok : countable m -> RadixStore_empty s = Some (bool_decide (m = ∅)).
Proof.
  intros Hc. unfold RadixStore_empty. rewrite size_ok. cbn [mbind option_bind]. f_equal. unfold size_t.
  rewrite Z.mod_small by (unfold countable in Hc; lia). apply eq_bool_prop_intro. rewrite Z.eqb_compare.
  destruct (decide (m = ∅)) as [->|Hne]; [done|]. rewrite bool_decide_eq_false_2 by done.
  assert (size m <> 0%nat) by (by rewrite map_size_empty_iff). destruct (Z.of_nat (size m) ?= 0) eqn:E; try done.
  apply Z.compare_eq in E. lia.
Qed.

Lemma begin_ok : countable m ->
  exists r, RadixStore_begin s = Some (mkIter (_root s) r) /\ first_of (nodes s) m (_root s) (fun _ => True) r.
Proof.
  intros Hc. unfold RadixStore_begin. rewrite (empty_ok Hc). cbn [mbind option_bind].
  destruct (decide (m = ∅)) as [->|Hne].
  - rewrite bool_decide_eq_true_2 by done. exists None. split; [done|]. intros k [v Hv]. by rewrite lookup_empty in Hv.
  - rewrite bool_decide_eq_false_2 by done. destruct (map_choose m Hne) as (k & v & Hk).
    destruct (first_of_all (rep_root _ _ _ Hrep) (rep_trie _ _ _ Hrep)) as (n & -> & Hn); [by exists k, v|]. by exists (Some n).
Qed.

Lemma begin_walk : countable m ->
  exists r L, RadixStore_begin s = Some (mkIter (_root s) r) /\ walk (nodes s) (_root s) r L /\ listing m L.
Proof.
  intros Hc. destruct (begin_ok Hc) as (r & Hb & Hr).
  destruct (walk_all (rep_root _ _ _ Hrep) (rep_trie _ _ _ Hrep) (fun _ => True) r) as (L & HL & Hlist); [done..|].
  exists r, L. split_and!; [done..|]. by rewrite map_filter_id in Hlist by done.
Qed.

End stores.

Lemma store_eq_ok s other m m' :
  represents True s m -> represents True (mkStore (nodes s) (others s) other) m' -> countable m -> countable m' ->
  RadixStore_eq s other = Some (bool_decide (m = m')).
Proof.
  intros Hrep Hrep' Hc Hc'. destruct (begin_walk Hrep Hc) as (r & L & Hb & HL & Hl).
  destruct (begin_walk Hrep' Hc') as (r' & L' & Hb' & HL' & Hl'). unfold RadixStore_eq. rewrite Hb. cbn [mbind option_bind].
  rewrite Hb'. cbn [mbind option_bind]. simpl in HL'. rewrite (equal_from_ok _ _ _ _ _ _ _ _ HL HL').
  - f_equal. apply bool_decide_ext. by apply listing_eq.
  - pose proof (listing_length (rep_trie _ _ _ Hrep) m L (reflexivity m) Hl). lia.
Qed.
