(* ===== verification/RadixBounds.v ===== *)
(** * Bounds in the radix store

    [lower_bound] finds the first key that is not smaller than the given one, and
    [upper_bound] the first one that is larger, unless the search has to go on behind a byte
    255: the index is a [uint8_t], and starts again at zero there.  [unwrapped] excludes it: the
    key does not share a byte 255 with a stored key that starts the same. *)

From Stdlib Require Import ZArith Lia.
From stdpp Require Import prelude gmap.
From S2P Require Import Prelude RadixNode RadixStore RadixIterator RadixInv RadixLookup RadixOrder RadixIteration RadixWalk.

Open Scope Z_scope.

Definition at_least (key k : list Z) : Prop := ~ k ≺ key.

Lemma not_at_least key k : k ≺ key -> ~ at_least key k.
Proof. unfold at_least. auto. Qed.

Lemma at_least_upward key : upward (at_least key).
Proof. intros k k' Hk Hlt Hlt'. apply Hk. by eapply string_lt_trans. Qed.

(** How a key compares with all that start with [a], when it does not start with it itself. *)
Lemma mismatch_cases a rest :
  (_comparePrefix a rest < length a)%nat ->
  exists b, a !! _comparePrefix a rest = Some b /\
    if (_comparePrefix a rest =? length rest)%nat || (char_at (drop (_comparePrefix a rest) rest) <? b)
    then rest ≺ a else forall t, a ++ t ≺ rest.
Proof.
  destruct (comparePrefix_split a rest) as (u & a' & r' & -> & -> & -> & Hd). rewrite !length_app. intros Hlt.
  destruct a' as [|b a']; [simpl in Hlt; lia|]. exists b. split; [by apply list_lookup_middle|]. rewrite drop_app_length.
  destruct r' as [|b' r'].
  - rewrite (proj2 (Nat.eqb_eq _ _)) by (simpl; lia). simpl. rewrite app_nil_r. apply string_lt_longer.
  - rewrite (proj2 (Nat.eqb_neq _ _)) by (simpl; lia). simpl. destruct (Z.ltb_spec b' b) as [?|?]; [by apply string_lt_byte|].
    intros t. rewrite <- app_assoc. apply string_lt_byte. destruct Hd as [?|[?|Hd]]; [done..|]. simpl in Hd.
    assert (b <> b') by congruence. lia.
Qed.

(** No entry follows the key through a byte 255. *)
Definition unwrapped (m : contents) (key : list Z) : Prop :=
  forall p k, p ++ [255] `prefix_of` key -> is_Some (m !! k) -> ~ p ++ [255] `prefix_of` k.

Lemma unwrapped_without_255 m key : 255 ∉ key -> unwrapped m key.
Proof. intros Hnot p k [t ->]. destruct Hnot. apply elem_of_app. left. apply elem_of_app. right. by left. Qed.

Section bounds.

Context {X : Prop} {H : gmap positive Node} {m : contents} {root : positive}.
Context (Hkey : trieKey <$> H !! root = Some []) (Hroot : trie X H m root []).
Context (key : list Z) (Hsafe : unwrapped m key).

(** ** Where the way down ends *)

Section gaps.

Context {l : positive} {q : list Z} {nd : Node} (Hv : visits H root l q) (Hl : H !! l = Some nd).

Lemma no_small_byte c t : is_Some (m !! (q ++ c :: t)) -> 0 <= c.
Proof.
  intros Hs. destruct (visits_entries Hkey Hroot l q nd (c :: t) Hv Hl Hs) as [|(c' & y & cnd & t' & u & _ & _ & [? _] & Eu & Et)]; [done|].
  rewrite Et in Eu. simpl in Eu. by simplify_eq.
Qed.

Lemma exact_gap : key = q -> m !! q = None -> gap m (at_least key) q 0.
Proof.
  intros Hq Hnone. split.
  - intros k _ Hk. apply not_at_least. by rewrite Hq.
  - intros Hs. rewrite Hnone in Hs. by destruct Hs.
  - intros c t Hs Hlt. apply no_small_byte in Hs. lia.
  - intros c t _ _. rewrite Hq. apply string_lt_not_longer.
  - intros k _ Hlt _. rewrite Hq. by apply string_lt_asym.
Qed.

(** The key goes on with the byte [c], and the search with the bytes from [i] on. *)
Lemma side_gap c rest i :
  key = q ++ c :: rest -> c <= i <= c + 1 ->
  (forall t, is_Some (m !! (q ++ c :: t)) -> i = c + 1 /\ q ++ c :: t ≺ key) -> gap m (at_least key) q i.
Proof.
  intros Hq Hi Hc. assert (Hlt : q ≺ key) by (rewrite Hq; apply string_lt_longer). split.
  - intros k _ Hk. apply not_at_least. by eapply string_lt_trans.
  - intros _. by apply not_at_least.
  - intros c' t Hs Hlt'. apply not_at_least. destruct (decide (c' = c)) as [->|]; [by apply Hc|]. rewrite Hq. apply string_lt_byte. lia.
  - intros c' t Hs Hle. destruct (decide (c' = c)) as [->|Hne]; [destruct (Hc t Hs); lia|]. rewrite Hq. apply string_lt_asym, string_lt_byte. lia.
  - intros k _ Hk Hnot. apply string_lt_asym. rewrite Hq. by apply string_lt_outside.
Qed.

Context {c : Z} {n : positive} {cnd : Node} {rest : list Z} (Hc : children nd !! c = Some n) (Hn : H !! n = Some cnd).

(** No entry lies between the key and a child that is larger. *)
Lemma child_after k : key = q ++ c :: rest -> is_Some (m !! k) -> k ≺ q ++ trieKey cnd -> k ≺ key.
Proof.
  intros Hq Hs Hlt. destruct (visits_child Hkey Hroot _ _ _ _ _ Hv Hl Hc) as (cnd' & t0 & Hn' & _ & _ & Et0 & _).
  assert (cnd' = cnd) as -> by congruence.
  destruct (decide (q `prefix_of` k)) as [[u' ->]|Hnot].
  - destruct (visits_entries Hkey Hroot l q nd u' Hv Hl Hs) as [->|(c' & y' & cnd' & t & u & Hc' & Hy' & _ & -> & Et)].
    { rewrite app_nil_r, Hq. apply string_lt_longer. }
    destruct (decide (c' = c)) as [->|Hne].
    + assert (cnd' = cnd) as -> by congruence. rewrite app_assoc in Hlt. by apply string_lt_not_longer in Hlt.
    + rewrite Et, Et0 in Hlt. apply string_lt_byte_inv in Hlt. rewrite Et, Hq. apply string_lt_byte. lia.
  - rewrite Hq. destruct (string_lt_below _ _ _ Hnot Hlt) as [Hb| ->]; [|apply string_lt_longer].
    eapply string_lt_trans; [done|apply string_lt_longer].
Qed.

End gaps.

Lemma larger_gap l q nd c n cnd rest :
  visits H root l q -> H !! l = Some nd -> children nd !! c = Some n -> H !! n = Some cnd ->
  key = q ++ c :: rest -> key ≺ q ++ trieKey cnd -> m !! (q ++ trieKey cnd) = None -> gap m (at_least key) (q ++ trieKey cnd) 0.
Proof.
  intros Hv Hl Hc Hn Hq Hlt Hnone. destruct (visits_child Hkey Hroot _ _ _ _ _ Hv Hl Hc) as (cnd' & t0 & Hn' & _ & Hvn & _).
  assert (cnd' = cnd) as -> by congruence. split.
  - intros k Hs Hk. apply not_at_least. exact (child_after Hv Hl Hc Hn k Hq Hs Hk).
  - intros Hs. rewrite Hnone in Hs. by destruct Hs.
  - intros c' t Hs Hlt'. apply (no_small_byte Hvn Hn) in Hs. lia.
  - intros c' t _ _. apply string_lt_asym. eapply string_lt_trans; [done|apply string_lt_longer].
  - intros k _ Hk _. apply string_lt_asym. by eapply string_lt_trans.
Qed.

(** ** The way down *)

(** No front byte on the way is 255, so that the next index does not wrap. *)
Definition low (ctx : list positive) : Prop := forall n nd, n ∈ ctx -> H !! n = Some nd -> head (trieKey nd) <> Some 255.

Definition descends (d : descent) : Prop :=
  match d with
  | Found n => first_of H m root (at_least key) (Some n)
  | SearchFrom ctx idx => exists q, way (H := H) root ctx q /\ gap m (at_least key) q idx /\ low ctx
  end.

Lemma low_cons n nd ctx c : H !! n = Some nd -> head (trieKey nd) = Some c -> c <> 255 -> low ctx -> low (n :: ctx).
Proof. intros Hn Hh Hc Hlow n' nd' [->|Hin]%elem_of_cons Hn'; [|by eapply Hlow]. simplify_eq. rewrite Hh. congruence. Qed.

Lemma down_end l ctx q nd fuel :
  way (H := H) root (l :: ctx) q -> H !! l = Some nd -> low (l :: ctx) -> key = q ->
  exists d, lower_bound_down fuel H l (l :: ctx) [] = Some d /\ descends d.
Proof.
  intros Hw Hl Hlow Hq. assert (Hv : visits H root l q) by by exists ctx.
  assert (Hrun : lower_bound_down fuel H l (l :: ctx) [] = Some (if bool_decide (is_Some (data nd)) then Found l else SearchFrom (l :: ctx) 0))
    by (destruct fuel; simpl; by rewrite Hl).
  rewrite Hrun. eexists. split; [done|]. destruct (data nd) as [d|] eqn:Hd; simpl.
  - destruct (visits_data Hkey Hroot _ _ _ _ Hv Hl Hd) as [v He]. exists q, v. split_and!; [done| |].
    + rewrite Hq. apply string_lt_irrefl.
    + intros k' _. by rewrite Hq.
  - exists q. split_and!; [done| |done]. apply (exact_gap Hv Hl Hq). by apply (visits_no_data Hkey Hroot _ _ _ Hv Hl).
Qed.

(** The key leaves the tree inside the child [n]. *)
Lemma down_mismatch l ctx q nd c rest n cnd b :
  way (H := H) root (l :: ctx) q -> H !! l = Some nd -> low (l :: ctx) -> key = q ++ c :: rest -> c <> 255 ->
  children nd !! c = Some n -> H !! n = Some cnd ->
  let i := _comparePrefix (trieKey cnd) (c :: rest) in
  (i < length (trieKey cnd))%nat -> trieKey cnd !! i = Some b ->
  descends (if (i =? length (c :: rest))%nat || (char_at (drop i (c :: rest)) <? b) then
              if bool_decide (is_Some (data cnd)) then Found n else SearchFrom (n :: l :: ctx) 0
            else SearchFrom (l :: ctx) (uint8_t (c + 1))).
Proof.
  intros Hw Hl Hlow Hq H255 Hc Hn i Hlt Hb. assert (Hv : visits H root l q) by by exists ctx.
  destruct (visits_child Hkey Hroot _ _ _ _ _ Hv Hl Hc) as (cnd' & t0 & Hn' & Hok & Hvn & Et0 & _).
  assert (cnd' = cnd) as -> by congruence. destruct (mismatch_cases _ _ Hlt) as (b' & Hb' & Hcmp).
  assert (b' = b) as -> by (unfold i in Hb; congruence). fold i in Hcmp. case_match; simpl.
  - assert (Hk : key ≺ q ++ trieKey cnd) by (rewrite Hq; by apply string_lt_app).
    destruct (data cnd) as [d|] eqn:Hd; simpl.
    + destruct (visits_data Hkey Hroot _ _ _ _ Hvn Hn Hd) as [v He]. exists (q ++ trieKey cnd), v.
      split_and!; [done|by apply string_lt_asym|]. intros k' Hs Hk' Hlt'. apply Hk'. exact (child_after Hv Hl Hc Hn k' Hq Hs Hlt').
    + exists (q ++ trieKey cnd). split_and!.
      * econstructor; try done. by rewrite Et0.
      * apply (larger_gap l q nd c n cnd rest); try done. by apply (visits_no_data Hkey Hroot _ _ _ Hvn Hn).
      * apply (low_cons n cnd (l :: ctx) c); try done. by rewrite Et0.
  - exists q. split_and!; [done| |done]. pose proof (child_byte _ _ _ _ Hok) as [? ?].
    unfold uint8_t. rewrite Z.mod_small by lia. apply (side_gap c rest (c + 1)); [done|lia|]. intros t Hs. split; [done|].
    destruct (child_prefix _ _ _ _ Hok t Hs) as [t' ->]. rewrite Hq. by apply string_lt_app.
Qed.

Lemma no_255 q rest cnd t k : key = q ++ 255 :: rest -> trieKey cnd = 255 :: t -> ~ is_Some (m !! ((q ++ trieKey cnd) ++ k)).
Proof.
  intros Hq Et Hs. apply (Hsafe q ((q ++ trieKey cnd) ++ k)); [|exact Hs|].
  - exists rest. by rewrite Hq, <- app_assoc.
  - exists (t ++ k). by rewrite Et, <- !app_assoc.
Qed.

Lemma lower_bound_down_ok fuel l ctx q rest :
  way (H := H) root (l :: ctx) q -> key = q ++ rest -> low (l :: ctx) -> (length rest <= fuel)%nat ->
  exists d, lower_bound_down fuel H l (l :: ctx) rest = Some d /\ descends d.
Proof.
  revert l ctx q rest. induction fuel as [|fuel IH]; intros l ctx q rest Hw Hq Hlow Hfuel;
    (assert (Hv : visits H root l q) by by exists ctx);
    (destruct (proj1 (trie_unfold _ _) (visits_trie Hkey Hroot _ _ Hv)) as (nd & Hl & _));
    (destruct rest as [|c rest]; [rewrite app_nil_r in Hq; exact (down_end l ctx q nd _ Hw Hl Hlow Hq)|]); [simpl in Hfuel; lia|].
  cbn [lower_bound_down]. rewrite Hl. cbn [mbind option_bind].
  destruct (children nd !! c) as [n|] eqn:Hc.
  - destruct (visits_child Hkey Hroot _ _ _ _ _ Hv Hl Hc) as (cnd & t0 & Hn & _ & _ & Et0 & k0 & Hk0). rewrite Hn. cbn [mbind option_bind].
    assert (Hc255 : c <> 255) by (intros ->; exact (no_255 _ _ _ _ _ Hq Et0 Hk0)).
    destruct (Nat.ltb_spec (_comparePrefix (trieKey cnd) (c :: rest)) (length (trieKey cnd))) as [Hlt|Hge].
    + destruct (mismatch_cases _ _ Hlt) as (b & Hb & _). rewrite Hb. cbn [mbind option_bind].
      pose proof (down_mismatch l ctx q nd c rest n cnd b Hw Hl Hlow Hq Hc255 Hc Hn Hlt Hb) as Hd.
      case_if; (eexists; split; [reflexivity|exact Hd]).
    + destruct (comparePrefix_full (trieKey cnd) (c :: rest)) as [t Et].
      { destruct (comparePrefix_split (trieKey cnd) (c :: rest)) as (u & a' & r' & E & _ & E' & _). rewrite E' in *. rewrite E, length_app in *. lia. }
      rewrite Et, drop_app_length. apply (IH n (l :: ctx) (q ++ trieKey cnd) t).
      * econstructor; try done. by rewrite Et0.
      * by rewrite <- app_assoc, <- Et.
      * apply (low_cons n cnd (l :: ctx) c); [done|by rewrite Et0|done|done].
      * apply (f_equal length) in Et. rewrite length_app, Et0 in Et. simpl in Et, Hfuel. lia.
  - exists (SearchFrom (l :: ctx) c). split; [done|]. exists q. split_and!; [done| |done].
    apply (side_gap c rest c); [done|lia|]. intros t Hs. exfalso.
    destruct (visits_entries Hkey Hroot _ _ _ _ Hv Hl Hs) as [?|(c' & y & cnd & t' & u & Hc' & _ & _ & Eu & Et)]; [done|].
    rewrite Et in Eu. simpl in Eu. injection Eu as Ec _. rewrite Ec in Hc. congruence.
Qed.

(** ** The way up *)

Lemma lower_bound_up_ok P l ctx q idx :
  way (H := H) root (l :: ctx) q -> gap m P q idx -> low (l :: ctx) ->
  exists r, lower_bound_up H (l :: ctx) idx = Some r /\ first_of H m root P r.
Proof.
  revert l q idx. induction ctx as [|l' ctx IH]; intros l q idx Hw Hg Hlow; (assert (Hv : visits H root l q) by by eexists);
    (destruct (proj1 (trie_unfold _ _) (visits_trie Hkey Hroot _ _ Hv)) as (nd & Hl & _)); cbn [lower_bound_up];
    rewrite Hl; cbn [mbind option_bind]; (destruct (children_from nd idx) as [|y t] eqn:E;
      [|destruct (child_from Hkey Hroot l q nd y t idx Hv Hl E) as (c1 & ynd & Hc1 & Hy & Hle & Hmin & Hvy & Hne);
        destruct (leftmost_run Hkey Hroot _ _ _ Hvy Hy Hne) as (r & -> & Hleast); exists (Some r); split; [done|];
        exact (gap_first Hkey Hroot _ _ _ _ _ _ _ _ _ Hv Hl Hc1 Hy Hle Hmin Hg Hleast)]).
  - assert (l = root /\ q = []) as [-> ->] by by inversion Hw. destruct (fmap_Some_1 _ _ _ Hkey) as (rnd & Hrnd & Hempty).
    assert (rnd = nd) as -> by congruence. rewrite <- Hempty. exists None. split; [done|]. intros k Hs.
    by apply (gap_exhausted Hkey Hroot P root [] nd idx k).
  - inversion Hw as [|? ? ? q' pnd cnd c Hw0 Hl' Hc Hn' Hh]. simplify_eq. assert (Hv' : visits H root l' q') by by eexists.
    destruct (head_cons _ _ Hh) as [t0 Et0]. rewrite Et0.
    destruct (visits_child Hkey Hroot _ _ _ _ _ Hv' Hl' Hc) as (cnd0 & _ & _ & Hok & _). pose proof (child_byte _ _ _ _ Hok) as [? ?].
    assert (c <> 255) by (intros ->; by apply (Hlow l nd); [left|..]).
    unfold uint8_t. rewrite Z.mod_small by lia. apply (IH l' q').
    + done.
    + exact (gap_climb Hkey Hroot _ _ _ _ _ _ _ _ Hv' Hl' Hc Hl Hg E).
    + intros x xnd Hx. apply Hlow. by right.
Qed.

End bounds.

(** ** The bounds *)

Section store_bounds.

Context {X : Prop} {s : RadixStore} {m : contents} (Hrep : represents X s m) (key : list Z) (Hsafe : unwrapped m key).

Lemma lower_bound_first :
  exists r, lower_bound s key = Some (mkIter (_root s) r) /\ first_of (nodes s) m (_root s) (at_least key) r.
Proof.
  pose proof (rep_root _ _ _ Hrep) as Hkey. pose proof (rep_trie _ _ _ Hrep) as Hroot.
  destruct (lower_bound_down_ok Hkey Hroot key Hsafe (length key) (_root s) [] [] key) as (d & Hrun & Hd); try done; [constructor| |].
  { intros n nd ->%list_elem_of_singleton Hn. destruct (fmap_Some_1 _ _ _ Hkey) as (rnd & Hrnd & E).
    assert (rnd = nd) as -> by congruence. by rewrite <- E. }
  unfold lower_bound. rewrite Hrun. cbn [mbind option_bind]. destruct d as [n|ctx idx]; [by exists (Some n)|].
  destruct Hd as (q & Hw & Hg & Hlow). destruct ctx as [|l ctx]; [inversion Hw|].
  destruct (lower_bound_up_ok Hkey Hroot _ _ _ _ _ Hw Hg Hlow) as (r & -> & Hr). by exists r.
Qed.

Lemma upper_bound_first :
  exists r, upper_bound s key = Some (mkIter (_root s) r) /\ first_of (nodes s) m (_root s) (fun k => key ≺ k) r.
Proof.
  pose proof (rep_root _ _ _ Hrep) as Hkey. pose proof (rep_trie _ _ _ Hrep) as Hroot.
  assert (Hge : forall k, k <> key -> at_least key k <-> key ≺ k).
  { intros k Hne. split; [|by intros ?%string_lt_asym]. intros Hk. by destruct (string_lt_total key k) as [?|[?|?]]. }
  unfold upper_bound. destruct lower_bound_first as (r & -> & Hr). cbn [mbind option_bind it_current].
  destruct r as [n|]; simpl in Hr.
  - destruct Hr as (k & v & He & Hk & Hleast). rewrite (bool_decide_eq_false_2 (Some n = None)) by done.
    rewrite (entry_deref _ _ _ He). cbn [mbind option_bind fst]. case_bool_decide as E.
    + subst k. by apply (findNext_ok Hkey Hroot n key v).
    + exists (Some n). split; [done|]. exists k, v. split_and!; [done|by apply Hge|]. intros k' Hs Hlt. apply Hleast; [done|].
      by apply string_lt_asym.
  - rewrite (bool_decide_eq_true_2 (None = None)) by done. exists None. split; [done|]. intros k Hs Hlt.
    apply (Hr k Hs). by apply string_lt_asym.
Qed.

End store_bounds.
