(* ===== verification/RadixReverse.v ===== *)
(** * Reverse iteration over the radix store

    [_findNextReverse] goes to the next smaller key, [rbegin] to the largest one, and a
    reverse iterator that is made from a forward one to the entry before it.  [last_of] says
    that a position is the largest entry with a property. *)

From Stdlib Require Import ZArith Lia.
From stdpp Require Import prelude gmap.
From S2P Require Import Prelude RadixNode RadixStore RadixIterator RadixInv RadixLookup RadixOrder RadixIteration RadixWalk.

Open Scope Z_scope.

Section reverse.

Context {X : Prop} {H : gmap positive Node} {m : contents} {root : positive}.
Context (Hkey : trieKey <$> H !! root = Some []) (Hroot : trie X H m root []).

(** ** Down and right *)

(** [n] is the largest entry below [p]. *)
Definition greatest_below (p : list Z) (n : positive) : Prop :=
  exists k v, entry H m root n (p ++ k) v /\ forall k', is_Some (m !! (p ++ k')) -> ~ p ++ k ≺ p ++ k'.

Lemma leaf_entries l p nd k : visits H root l p -> H !! l = Some nd -> isLeaf nd = true -> is_Some (m !! (p ++ k)) -> k = [].
Proof.
  intros Hv Hl Hleaf Hs. destruct (visits_entries Hkey Hroot l p nd k Hv Hl Hs) as [->|(c & y & cnd & t & u & Hc & _ & Hb & _)]; [done|].
  by rewrite (proj1 (isLeaf_spec nd) Hleaf c Hb) in Hc.
Qed.

Lemma last_child_spec l p nd :
  visits H root l p -> H !! l = Some nd -> isLeaf nd = false ->
  exists c, children nd !! c = Some (last_child nd l) /\ byte c /\ forall c', c < c' < 256 -> children nd !! c' = None.
Proof.
  intros Hv Hl Hleaf. unfold last_child. destruct (children_below nd 256) as [|y t] eqn:E.
  - destruct (not_leaf nd Hleaf) as (c & y & Hc). destruct (visits_child Hkey Hroot _ _ _ _ _ Hv Hl Hc) as (cnd & t & _ & Hok & _).
    pose proof (child_byte _ _ _ _ Hok) as Hb. by rewrite (children_below_nil nd 256 c E) in Hc by apply Hb.
  - apply children_below_cons in E as (c & Hc & Hy & Hmax). exists c. auto.
Qed.

Lemma last_child_greatest l p nd c y cnd n :
  visits H root l p -> H !! l = Some nd -> children nd !! c = Some y -> H !! y = Some cnd ->
  (forall c', c < c' < 256 -> children nd !! c' = None) -> greatest_below (p ++ trieKey cnd) n -> greatest_below p n.
Proof.
  intros Hv Hl Hc Hy Hmax (k & v & He & Hgreat).
  destruct (visits_child Hkey Hroot _ _ _ _ _ Hv Hl Hc) as (cnd' & t0 & Hy' & _ & _ & Et0 & _). simplify_eq.
  exists (trieKey cnd ++ k), v. rewrite app_assoc. split; [done|]. intros k' Hs Hlt.
  destruct (visits_entries Hkey Hroot l p nd k' Hv Hl Hs) as [->|(c' & y' & cnd' & t & u & Hc' & Hy' & [? ?] & -> & Et)].
  { rewrite app_nil_r, Et0, <- app_assoc in Hlt. by apply string_lt_not_longer in Hlt. }
  destruct (Z.lt_total c' c) as [?|[->|?]].
  - rewrite Et, Et0, <- app_assoc in Hlt. apply string_lt_byte_inv in Hlt. lia.
  - simplify_eq. rewrite app_assoc in Hs, Hlt. by apply (Hgreat u).
  - by rewrite Hmax in Hc' by lia.
Qed.

Lemma rightmost_ok fuel l p nd :
  visits H root l p -> H !! l = Some nd -> (exists k, is_Some (m !! (p ++ k))) ->
  (forall k, is_Some (m !! (p ++ k)) -> (length (p ++ k) < fuel + length p)%nat) ->
  exists n, rightmost fuel H l = Some n /\ greatest_below p n.
Proof.
  revert l p nd. induction fuel as [|fuel IH]; intros l p nd Hv Hl [k Hs] Hfuel; cbn [rightmost].
  { specialize (Hfuel k Hs). rewrite length_app in Hfuel. lia. }
  rewrite Hl. cbn [mbind option_bind]. destruct (isLeaf nd) eqn:Hleaf.
  - exists l. split; [done|]. pose proof (leaf_entries _ _ _ _ Hv Hl Hleaf Hs) as ->. rewrite app_nil_r in Hs.
    destruct (data nd) as [d|] eqn:Hd.
    2:{ rewrite (visits_no_data Hkey Hroot _ _ _ Hv Hl Hd) in Hs. by destruct Hs. }
    destruct (visits_data Hkey Hroot _ _ _ _ Hv Hl Hd) as [v He]. exists [], v. rewrite app_nil_r. split; [done|].
    intros k' Hs'. pose proof (leaf_entries _ _ _ _ Hv Hl Hleaf Hs') as ->. rewrite app_nil_r. apply string_lt_irrefl.
  - destruct (last_child_spec l p nd Hv Hl Hleaf) as (c & Hc & _ & Hmax).
    destruct (visits_child Hkey Hroot _ _ _ _ _ Hv Hl Hc) as (cnd & t & Hy & _ & Hvy & Et & Hney).
    destruct (IH _ (p ++ trieKey cnd) cnd Hvy Hy Hney) as (n & Hrun & Hgreat).
    + intros k' Hk'. rewrite <- app_assoc in Hk'. specialize (Hfuel _ Hk'). rewrite app_assoc in Hfuel.
      rewrite Et in *. rewrite !length_app in *. simpl in *. lia.
    + exists n. split; [done|]. by eapply last_child_greatest.
Qed.

Lemma rightmost_run l p nd :
  visits H root l p -> H !! l = Some nd -> (exists k, is_Some (m !! (p ++ k))) ->
  exists n, rightmost (branch_fuel H) H l = Some n /\ greatest_below p n.
Proof.
  intros Hv Hl Hs. eapply rightmost_ok; eauto. intros k Hk. pose proof (trie_fuel _ _ _ (visits_trie Hkey Hroot _ _ Hv) Hk). lia.
Qed.

Lemma traverse_right_ok l p nd :
  visits H root l p -> H !! l = Some nd -> (exists k, is_Some (m !! (p ++ k))) ->
  exists n, _traverseRightSubtree H l = Some n /\ greatest_below p n.
Proof.
  intros Hv Hl Hs. unfold _traverseRightSubtree. rewrite Hl. cbn [mbind option_bind]. destruct (isLeaf nd) eqn:Hleaf.
  - assert (last_child nd l = l) as ->; [|by apply (rightmost_run l p nd)]. unfold last_child.
    destruct (children_below nd 256) as [|y t] eqn:E; [done|]. apply children_below_cons in E as (c & Hb & Hc & _).
    by rewrite (proj1 (isLeaf_spec nd) Hleaf c Hb) in Hc.
  - destruct (last_child_spec l p nd Hv Hl Hleaf) as (c & Hc & _ & Hmax).
    destruct (visits_child Hkey Hroot _ _ _ _ _ Hv Hl Hc) as (cnd & t & Hy & _ & Hvy & Et & Hney).
    destruct (rightmost_run _ _ _ Hvy Hy Hney) as (n & Hrun & Hgreat). exists n. split; [done|]. by eapply last_child_greatest.
Qed.

(** ** The last entry with a property *)

Definition last_of (P : list Z -> Prop) (r : option positive) : Prop :=
  match r with
  | Some n => exists k v, entry H m root n k v /\ P k /\ forall k', is_Some (m !! k') -> P k' -> ~ k ≺ k'
  | None => forall k, is_Some (m !! k) -> ~ P k
  end.

(** The search to the left is done with all that starts with [p]. *)
Record passed (P : list Z -> Prop) (p : list Z) : Prop := {
  passed_below : forall k, is_Some (m !! k) -> p `prefix_of` k -> ~ P k;
  passed_after : forall k, is_Some (m !! k) -> p ≺ k -> ~ P k;
  passed_before : forall k, is_Some (m !! k) -> k ≺ p -> P k;
}.

Section parent.

Context {P : list Z -> Prop} {l n : positive} {q : list Z} {nd cnd : Node} {c : Z}.
Context (Hv : visits H root l q) (Hl : H !! l = Some nd) (Hc : children nd !! c = Some n) (Hn : H !! n = Some cnd).
Context (Hp : passed P (q ++ trieKey cnd)).

(** What remains below the parent. *)
Lemma parent_remains k :
  is_Some (m !! (q ++ k)) -> P (q ++ k) ->
  k = [] \/ exists c' y ynd t u, c' < c /\ byte c' /\ children nd !! c' = Some y /\ H !! y = Some ynd /\ k = trieKey ynd ++ u /\ trieKey ynd = c' :: t.
Proof.
  intros Hs HP. destruct (visits_child Hkey Hroot _ _ _ _ _ Hv Hl Hc) as (cnd' & t0 & Hn' & _ & _ & Et0 & _). simplify_eq.
  destruct (visits_entries Hkey Hroot l q nd k Hv Hl Hs) as [->|(c' & y & ynd & t & u & Hc' & Hy & Hb & -> & Et)]; [by left|right].
  exists c', y, ynd, t, u. destruct (Z.lt_total c' c) as [?|[->|?]]; [done|exfalso|exfalso].
  - simplify_eq. apply (passed_below _ _ Hp (q ++ trieKey cnd ++ u)); [done| |done]. rewrite app_assoc. by eexists.
  - apply (passed_after _ _ Hp (q ++ trieKey ynd ++ u)); [done| |done]. rewrite Et, Et0. by apply string_lt_byte.
Qed.

Lemma parent_after k : is_Some (m !! k) -> q ≺ k -> ~ q `prefix_of` k -> ~ P k.
Proof. intros Hs Hlt Hnot. apply (passed_after _ _ Hp); [done|]. by apply string_lt_outside. Qed.

Lemma parent_before k : is_Some (m !! k) -> k ≺ q \/ k = q -> P k.
Proof.
  destruct (visits_child Hkey Hroot _ _ _ _ _ Hv Hl Hc) as (cnd' & t0 & Hn' & _ & _ & Et0 & _). simplify_eq.
  assert (Hq : q ≺ q ++ trieKey cnd) by (rewrite Et0; apply string_lt_longer).
  intros Hs Hk. apply (passed_before _ _ Hp); [done|]. destruct Hk as [?| ->]; [by eapply string_lt_trans|done].
Qed.

(** A child to the left has the last entry. *)
Lemma parent_child y ynd c1 r :
  children nd !! c1 = Some y -> H !! y = Some ynd -> c1 < c -> (forall c', c1 < c' < c -> children nd !! c' = None) ->
  greatest_below (q ++ trieKey ynd) r -> last_of P (Some r).
Proof.
  intros Hy1 Hy Hlt Hmax (k & v & He & Hgreat). destruct (visits_child Hkey Hroot _ _ _ _ _ Hv Hl Hc) as (cnd' & t0 & Hn' & _ & _ & Et0 & _).
  destruct (visits_child Hkey Hroot _ _ _ _ _ Hv Hl Hy1) as (ynd' & t1 & Hy' & _ & _ & Et1 & _). simplify_eq.
  exists ((q ++ trieKey ynd) ++ k), v. split_and!; [done| |].
  - apply (passed_before _ _ Hp); [destruct He as (_ & _ & _ & Hm & _); by eexists|]. rewrite Et0, Et1, <- app_assoc. by apply string_lt_byte.
  - intros k' Hs HP Hlt'. destruct (decide (q `prefix_of` k')) as [[u' ->]|Hnot].
    + destruct (parent_remains u' Hs HP) as [->|(c' & z & znd & t & u & Hcc & _ & Hz & Hznd & -> & Et)].
      { rewrite app_nil_r, <- app_assoc in Hlt'. by apply string_lt_not_longer in Hlt'. }
      destruct (Z.lt_total c' c1) as [?|[->|?]].
      * rewrite Et1, Et, <- app_assoc in Hlt'. apply string_lt_byte_inv in Hlt'. lia.
      * simplify_eq. rewrite app_assoc in Hs, Hlt'. by apply (Hgreat u).
      * by rewrite Hmax in Hz by lia.
    + rewrite <- app_assoc in Hlt'. apply (parent_after k'); [done| |done|done]. by eapply string_lt_outside_r.
Qed.

Context (Hnone : forall c', 0 <= c' < c -> children nd !! c' = None).

Lemma parent_only k : is_Some (m !! (q ++ k)) -> P (q ++ k) -> k = [].
Proof.
  intros Hs HP. destruct (parent_remains k Hs HP) as [->|(c' & z & znd & t & u & Hcc & [? ?] & Hz & _)]; [done|].
  by rewrite Hnone in Hz by lia.
Qed.

Lemma parent_itself d : data nd = Some d -> last_of P (Some l).
Proof.
  intros Hd. destruct (visits_data Hkey Hroot _ _ _ _ Hv Hl Hd) as [v He]. exists q, v. split_and!; [done| |].
  - apply parent_before; [|by right]. destruct He as (_ & _ & _ & Hm & _). by eexists.
  - intros k' Hs HP Hlt. destruct (decide (q `prefix_of` k')) as [[u ->]|Hnot]; [|by apply (parent_after k')].
    pose proof (parent_only u Hs HP) as ->. rewrite app_nil_r in Hlt. by apply string_lt_irrefl in Hlt.
Qed.

Lemma parent_passed : data nd = None -> passed P q.
Proof.
  intros Hd. pose proof (visits_no_data Hkey Hroot _ _ _ Hv Hl Hd) as Hm.
  assert (Hbelow : forall k, is_Some (m !! k) -> q `prefix_of` k -> ~ P k).
  { intros k Hs [u ->] HP. pose proof (parent_only u Hs HP) as ->. rewrite app_nil_r, Hm in Hs. by destruct Hs. }
  split; [done| |].
  - intros k Hs Hlt. destruct (decide (q `prefix_of` k)); [auto|by apply parent_after].
  - intros k Hs Hlt. apply parent_before; auto.
Qed.

End parent.

Lemma next_above_reverse_ok P n ctx p nd :
  way (H := H) root (n :: ctx) p -> H !! n = Some nd -> passed P p ->
  exists r, next_above_reverse H n ctx = Some r /\ last_of P r.
Proof.
  revert n p nd. induction ctx as [|l ctx IH]; intros n p nd Hw Hn Hp; cbn [next_above_reverse].
  { exists None. split; [done|]. assert (p = []) as -> by by inversion Hw. intros k Hs. apply (passed_below _ _ Hp); [done|apply prefix_nil]. }
  inversion Hw as [|? ? ? q pnd cnd c Hw0 Hl Hc Hn' Hh]; simplify_eq. assert (Hv : visits H root l q) by by exists ctx.
  rewrite Hn. cbn [mbind option_bind]. rewrite Hh. cbn [mbind option_bind]. rewrite Hl. cbn [mbind option_bind].
  destruct (children_below pnd c) as [|y t] eqn:E.
  - pose proof (fun c' => children_below_nil pnd c c' E) as Hnone. destruct (data pnd) as [d|] eqn:Hd.
    + exists (Some l). split; [done|]. exact (parent_itself Hv Hl Hc Hn Hp Hnone d Hd).
    + apply (IH l q pnd Hw0 Hl). exact (parent_passed Hv Hl Hc Hn Hp Hnone Hd).
  - apply children_below_cons in E as (c1 & Hc1 & Hy1 & Hmax).
    destruct (visits_child Hkey Hroot _ _ _ _ _ Hv Hl Hy1) as (ynd & t1 & Hy & _ & Hvy & _ & Hney). rewrite Hy. cbn [mbind option_bind].
    destruct (traverse_right_ok _ _ _ Hvy Hy Hney) as (r & -> & Hr). exists (Some r). split; [done|].
    apply (parent_child Hv Hl Hc Hn Hp y ynd c1); try done. lia.
Qed.

Lemma findNextReverse_ok n k v :
  entry H m root n k v ->
  exists r, _findNextReverse H (mkIter root (Some n)) = Some (mkIter root r) /\ last_of (fun k' => k' ≺ k) r.
Proof.
  intros (nd & Hn & Hd & Hm & [ctx Hw]). unfold _findNextReverse. cbn [it_current it_root]. rewrite Hn. cbn [mbind option_bind].
  rewrite Hd. cbn [mbind option_bind fst]. rewrite (buildContext_ok Hkey _ _ _ Hw). cbn [mbind option_bind head tl].
  destruct (next_above_reverse_ok (fun k' => k' ≺ k) n ctx k nd Hw Hn) as (r & -> & Hr); [|by exists r]. split.
  - intros k' _ [u ->]. apply string_lt_not_longer.
  - intros k' _. apply string_lt_asym.
  - done.
Qed.

Lemma last_of_all : (exists k, is_Some (m !! k)) ->
  exists n, rightmost (branch_fuel H) H root = Some n /\ last_of (fun _ => True) (Some n).
Proof.
  intros Hne. destruct (fmap_Some_1 _ _ _ Hkey) as (nd & Hnd & _).
  destruct (rightmost_run root [] nd) as (n & Hn & k & v & He & Hg); [by exists []; constructor|done|done|].
  exists n. split; [done|]. exists k, v. split_and!; [done..|]. intros k' Hs _. by apply (Hg k').
Qed.

End reverse.

Arguments last_of : clear implicits.

Section store_reverse.

Context {X : Prop} {s : RadixStore} {m : contents} (Hrep : represents X s m).

Lemma reverse_end_ok :
  exists r, reverse_radix_iterator (nodes s) (RadixStore_end s) = Some (mkIter (_root s) r) /\
    last_of (nodes s) m (_root s) (fun _ => True) r.
Proof.
  destruct Hrep as [Hroot Hkey Hkeys]. destruct (fmap_Some_1 _ _ _ Hkey) as (nd & Hnd & _).
  assert (Hv : visits (nodes s) (_root s) (_root s) []) by (exists []; constructor).
  unfold reverse_radix_iterator, RadixStore_end. cbn [it_current it_root]. rewrite Hnd. cbn [mbind option_bind].
  destruct (isLeaf nd) eqn:Hleaf.
  - exists None. split; [done|]. intros k Hs _. pose proof (leaf_entries Hkey Hroot _ _ _ k Hv Hnd Hleaf Hs) as ->.
    destruct Hs as [v Hs]. by destruct (Hkeys _ _ Hs).
  - destruct (not_leaf nd Hleaf) as (c & y & Hc). destruct (visits_child Hkey Hroot _ _ _ _ _ Hv Hnd Hc) as (cnd & t & _ & _ & _ & _ & k & Hk).
    destruct (traverse_right_ok Hkey Hroot _ _ _ Hv Hnd) as (n & -> & k0 & v0 & He & Hg); [by eexists|]. exists (Some n). split; [done|].
    exists k0, v0. split_and!; [done..|]. intros k' Hs _. by apply (Hg k').
Qed.

Lemma reverse_from_ok n k v :
  entry (nodes s) m (_root s) n k v ->
  exists r, reverse_radix_iterator (nodes s) (mkIter (_root s) (Some n)) = Some (mkIter (_root s) r) /\
    last_of (nodes s) m (_root s) (fun k' => k' ≺ k) r.
Proof. intros He. exact (findNextReverse_ok (rep_root _ _ _ Hrep) (rep_trie _ _ _ Hrep) n k v He). Qed.

End store_reverse.

Lemma rbegin_ok s m : represents True s m -> countable m ->
  exists r, RadixStore_rbegin s = Some (mkIter (_root s) r) /\ last_of (nodes s) m (_root s) (fun _ => True) r.
Proof.
  intros Hrep Hc. unfold RadixStore_rbegin. rewrite (empty_ok Hrep Hc). cbn [mbind option_bind].
  destruct (decide (m = ∅)) as [->|Hne].
  - rewrite bool_decide_eq_true_2 by done. exists None. split; [done|]. intros k [v Hv]. by rewrite lookup_empty in Hv.
  - rewrite bool_decide_eq_false_2 by done. destruct (map_choose m Hne) as (k & v & Hk).
    destruct (last_of_all (rep_root _ _ _ Hrep) (rep_trie _ _ _ Hrep)) as (n & -> & Hn); [by exists k, v|]. by exists (Some n).
Qed.
