(* ===== verification/RadixMerging.v ===== *)
(** * The three-way merge is right for branches that one side changed

    [merge3] compares the branches below the three roots.  When every branch is the same node
    in the base as in the store or as in the other store, that is when no first byte of a key
    was touched by both sides, the merge succeeds, the store gets the changes of both sides
    ([three_way]), the counters are exact, and nobody else sees a change. *)

From Stdlib Require Import ZArith Lia.
From stdpp Require Import prelude gmap.
From S2P Require Import Prelude RadixNode RadixStore RadixIterator RadixMerge RadixInv RadixLookup RadixOwn RadixModify RadixWalk.

Open Scope Z_scope.

(** ** The merge of contents *)

(** What the store did not change comes from the other one. *)
Definition three_way (m base other : contents) : contents :=
  filter (fun kv => m !! kv.1 = base !! kv.1) other ∪ filter (fun kv => m !! kv.1 <> base !! kv.1) m.

Lemma three_way_lookup m base other k :
  three_way m base other !! k = if decide (m !! k = base !! k) then other !! k else m !! k.
Proof.
  unfold three_way. case_decide as E.
  - rewrite lookup_union_l; [|apply map_lookup_filter_None; right; intros v Hv Hne; by apply Hne].
    destruct (other !! k) as [v|] eqn:Eo; [by apply map_lookup_filter_Some|apply map_lookup_filter_None; by left].
  - rewrite lookup_union_r; [|apply map_lookup_filter_None; right; intros v Hv; done].
    destruct (m !! k) as [v|] eqn:Em; [apply map_lookup_filter_Some; simpl; by rewrite Em|apply map_lookup_filter_None; by left].
Qed.

Lemma three_way_same m base : three_way m base base = m.
Proof. apply map_eq. intros k. rewrite three_way_lookup. by case_decide. Qed.

Lemma three_way_keys m base other : keys_ok m -> keys_ok other -> keys_ok (three_way m base other).
Proof.
  intros Hm Ho k v Hk. rewrite three_way_lookup in Hk. case_decide; [by apply (Ho k v)|by apply (Hm k v)].
Qed.

(** ** Weights of branches *)

Lemma weigh_split f m c : weigh f m [] = weigh f m [c] + weigh f (filter (fun kv => ~ [c] `prefix_of` kv.1) m) [].
Proof.
  induction m as [|k v m Hk IH] using map_ind; [by rewrite map_filter_empty|].
  rewrite weigh_insert by (done || apply prefix_nil). destruct (decide ([c] `prefix_of` k)) as [Hp|Hp].
  - rewrite weigh_insert by done. rewrite map_filter_insert_False by (simpl; by intros []).
    rewrite delete_id by done. lia.
  - rewrite (weigh_ext f [c] (<[k := v]> m) m); [|intros t; rewrite lookup_insert_ne; [done|intros ->; apply Hp; by eexists]].
    rewrite map_filter_insert_True by done. rewrite weigh_insert; [lia| |apply prefix_nil]. apply map_lookup_filter_None. by left.
Qed.

(** Two maps that differ only below the byte [c]. *)
Lemma weigh_branch f m m' c :
  (forall k, ~ [c] `prefix_of` k -> m !! k = m' !! k) -> weigh f m' [] - weigh f m [] = weigh f m' [c] - weigh f m [c].
Proof.
  intros Heq. rewrite (weigh_split f m c), (weigh_split f m' c).
  assert (E : filter (fun kv => ~ [c] `prefix_of` kv.1) m = filter (fun kv => ~ [c] `prefix_of` kv.1) m'); [|rewrite E; lia].
  apply map_eq. intros k. apply option_eq. intros v. rewrite !map_lookup_filter_Some. simpl. split; intros [Hk Hp]; (split; [|done]).
  - by rewrite <- Heq.
  - by rewrite Heq.
Qed.

Lemma prefix_byte c (k : list Z) : k <> [] -> [c] `prefix_of` k <-> char_at k = c.
Proof.
  intros Hk. destruct k as [|b k]; [done|]. simpl. split; [intros [t Et]; simpl in Et; congruence|intros ->; by exists k].
Qed.

(** ** The same node stands for the same entries *)

Lemma trie_same X X' H m m' l p :
  trie X H m l p -> trie X' H m' l p -> forall k, m !! (p ++ k) = m' !! (p ++ k).
Proof.
  intros Ht. induction Ht as [l p nd Hl Hd Hc Hn Hk Ht IH]. intros Ht' k.
  destruct (trie_lookup _ _ _ Ht' Hl) as [[Hd' _] [Hn' Hk']]. destruct k as [|c k].
  { rewrite app_nil_r. rewrite Hd in Hd'. destruct (m !! p), (m' !! p); simpl in Hd'; congruence. }
  destruct (children nd !! c) as [y|] eqn:Ey; [|by rewrite Hn, Hn'].
  destruct (Hk _ _ Ey) as (cnd & Hy & Hok). destruct (Hk' _ _ Ey) as (cnd' & Hy' & Hok' & Hty'). simplify_eq.
  destruct (decide (trieKey cnd `prefix_of` c :: k)) as [[t Et]|Hnot].
  - rewrite Et, app_assoc. by eapply IH.
  - assert (Hnone : forall m0, child_ok m0 p c cnd -> m0 !! (p ++ c :: k) = None).
    { intros m0 Hok0. apply eq_None_not_Some. intros Hs. apply Hnot. by eapply child_prefix. }
    by rewrite !Hnone.
Qed.

Section branch.

Context {H : gmap positive Node} {m : contents} {root : positive} {nd : Node}.
Context (Hrep : trie True H m root []) (Hnd : H !! root = Some nd).

(** The counters of a branch. *)
Definition branch_counts (child : option positive) : option (Z * Z) :=
  match child with
  | None => Some (0, 0)
  | Some n => cnd ← H !! n; Some (_numSubtreeElems cnd, _sizeSubtreeElems cnd)
  end.

Lemma branch_counts_ok c :
  exists num sz, branch_counts (children nd !! c) = Some (num, sz) /\ num = size_t (weigh one m [c]) /\ sz = size_t (weigh string_size m [c]).
Proof.
  destruct (trie_lookup _ _ _ Hrep Hnd) as [_ [Hn Hk]]. destruct (children nd !! c) as [n|] eqn:Ec; simpl.
  - destruct (Hk _ _ Ec) as (cnd & Hcnd & Hok & Ht). rewrite Hcnd. cbn [mbind option_bind]. eexists _, _. split; [done|].
    destruct (trie_lookup _ _ _ Ht Hcnd) as [[_ Hcount] _]. destruct (Hcount I) as [-> ->]. simpl.
    destruct (head_cons _ _ (child_front _ _ _ _ Hok)) as [t Et]. rewrite Et.
    assert (Hw : forall f, weigh f m (c :: t) = weigh f m [c]); [|by rewrite !Hw].
    intros f. change (c :: t) with ([c] ++ t). apply weigh_longer. intros k Hs.
    destruct (child_prefix _ _ _ _ Hok k Hs) as [u Eu]. rewrite Et in Eu. simpl in Eu. simplify_eq. by eexists.
  - exists 0, 0. split; [done|]. rewrite !weigh_none; [done|by intros; apply Hn..].
Qed.

Lemma branch_byte c n : children nd !! c = Some n -> byte c.
Proof. intros Hc. destruct (trie_lookup _ _ _ Hrep Hnd) as [_ [_ Hk]]. destruct (Hk _ _ Hc) as (cnd & _ & Hok & _). apply Hok. Qed.

End branch.

Lemma branch_agree H m m' root root' nd nd' c :
  trie True H m root [] -> H !! root = Some nd -> trie True H m' root' [] -> H !! root' = Some nd' ->
  children nd !! c = children nd' !! c -> forall k, m !! (c :: k) = m' !! (c :: k).
Proof.
  intros Ht Hnd Ht' Hnd' Heq k. destruct (trie_lookup _ _ _ Ht Hnd) as [_ [Hn Hk]]. destruct (trie_lookup _ _ _ Ht' Hnd') as [_ [Hn' Hk']].
  destruct (children nd !! c) as [y|] eqn:Ey.
  - destruct (Hk _ _ Ey) as (cnd & Hy & Hok & Hty). destruct (Hk' _ _ (eq_sym Heq)) as (cnd' & Hy' & Hok' & Hty'). simplify_eq. simpl in *.
    destruct (decide (trieKey cnd `prefix_of` c :: k)) as [[t ->]|Hnot]; [by eapply trie_same|].
    assert (Hnone : forall m0, child_ok m0 [] c cnd -> m0 !! (c :: k) = None).
    { intros m0 Hok0. apply eq_None_not_Some. intros Hs. apply Hnot. by apply (child_prefix _ _ _ _ Hok0). }
    by rewrite !Hnone.
  - specialize (Hn c Ey k). specialize (Hn' c (eq_sym Heq) k). simpl in *. congruence.
Qed.

(** ** Deltas

    The deltas are [int]s that are computed from [size_t]s, so they are exact modulo [2 ^ 32]. *)

Lemma to_int_cong a b : a mod 2 ^ 32 = b mod 2 ^ 32 -> to_int a = to_int b.
Proof. intros E. unfold to_int. by rewrite (Zplus_mod a), (Zplus_mod b), E. Qed.

Lemma to_int_self a : to_int a mod 2 ^ 32 = a mod 2 ^ 32.
Proof.
  unfold to_int. rewrite Zminus_mod_idemp_l. by replace (a + 2 ^ 31 - 2 ^ 31) with a by lia.
Qed.

Lemma size_t_self a : size_t a mod 2 ^ 32 = a mod 2 ^ 32.
Proof.
  unfold size_t. rewrite (Z.mod_eq a (2 ^ 64)) by lia. replace (a - 2 ^ 64 * (a / 2 ^ 64)) with (a + (- 2 ^ 32 * (a / 2 ^ 64)) * 2 ^ 32) by lia.
  by rewrite Z.mod_add by lia.
Qed.

Lemma delta_step d w w' : to_int (to_int d + (size_t w' - size_t w)) = to_int (d + (w' - w)).
Proof.
  apply to_int_cong. rewrite Zplus_mod, to_int_self, (Zminus_mod (size_t w')), !size_t_self.
  by rewrite <- (Zminus_mod w' w), <- Zplus_mod.
Qed.

Lemma size_t_size_t w : size_t (size_t w + 0) = size_t w.
Proof. by rewrite size_t_add, Z.add_0_r. Qed.

(** ** The loop over the branches *)

(** The number of entries and their total size fit in an [int]. *)
Definition fits_int (m : contents) : Prop := weigh one m [] < 2 ^ 31 /\ weigh string_size m [] < 2 ^ 31.

(** No branch below the roots was changed by both sides. *)
Definition apart (H : gmap positive Node) (wc base other : positive) : Prop :=
  forall C B O c, H !! wc = Some C -> H !! base = Some B -> H !! other = Some O ->
    children C !! c = children B !! c \/ children O !! c = children B !! c.

(** The check on the bytes that have a branch. *)
Definition apartb (H : gmap positive Node) (wc base other : positive) : bool :=
  match H !! wc, H !! base, H !! other with
  | Some C, Some B, Some D =>
      forallb (fun c => bool_decide (children C !! c = children B !! c) || bool_decide (children D !! c = children B !! c))
        ((map_to_list (children C)).*1 ++ (map_to_list (children D)).*1 ++ (map_to_list (children B)).*1)
  | _, _, _ => true
  end.

Lemma apartb_ok H wc base other : apartb H wc base other = true -> apart H wc base other.
Proof.
  intros Hb C B O c HC HB HO. unfold apartb in Hb. rewrite HC, HB, HO in Hb. rewrite forallb_forall in Hb.
  assert (Hdom : forall (M : gmap Z positive), is_Some (M !! c) -> c ∈ (map_to_list M).*1).
  { intros M [y Hy]. apply list_elem_of_fmap. exists (c, y). split; [done|]. by apply elem_of_map_to_list. }
  destruct (decide (c ∈ (map_to_list (children C)).*1 ++ (map_to_list (children O)).*1 ++ (map_to_list (children B)).*1)) as [Hin|Hnot].
  - apply list_elem_of_In, Hb, orb_true_iff in Hin. by destruct Hin as [?%bool_decide_eq_true|?%bool_decide_eq_true]; [left|right].
  - rewrite !elem_of_app in Hnot. left. transitivity (None : option positive); [|symmetry]; apply eq_None_not_Some; intros Hs; apply Hnot; auto.
Qed.

Section merge.

Context {s : RadixStore} {m mb mo : contents} {base other : positive} {C B O : Node}.
Context (Hwf : store_wf s) (Hrep : represents True s m).
Context (HB : trie True (nodes s) mb base []) (HO : trie True (nodes s) mo other []) (Hmo : keys_ok mo).
Context (EC : nodes s !! _root s = Some C) (EB : nodes s !! base = Some B) (EO : nodes s !! other = Some O).
Context (Hapart : forall c, children C !! c = children B !! c \/ children O !! c = children B !! c).

Abbreviation m' := (three_way m mb mo) (only parsing).

Lemma branch_taken c k : children C !! c = children B !! c -> m' !! (c :: k) = mo !! (c :: k).
Proof.
  intros E. rewrite three_way_lookup. rewrite (branch_agree _ _ _ _ _ _ _ c (rep_trie _ _ _ Hrep) EC HB EB E k). by case_decide.
Qed.

Lemma branch_kept c k : children O !! c = children B !! c -> m' !! (c :: k) = m !! (c :: k).
Proof.
  intros E. rewrite three_way_lookup. rewrite (branch_agree _ _ _ _ _ _ _ c HO EO HB EB E k). by case_decide.
Qed.

(** The branches and the contents when the bytes below [i] are merged. *)
Definition merged_child (i c : Z) : option positive :=
  if (c <? i) && bool_decide (children O !! c <> children B !! c) then children O !! c else children C !! c.

Definition merged_upto (i : Z) : contents :=
  filter (fun kv => char_at kv.1 < i) m' ∪ filter (fun kv => ~ char_at kv.1 < i) m.

Lemma merged_upto_lookup i k : merged_upto i !! k = if decide (char_at k < i) then m' !! k else m !! k.
Proof.
  unfold merged_upto. case_decide as E.
  - rewrite lookup_union_l; [|apply map_lookup_filter_None; right; intros v _ Hne; by apply Hne].
    destruct (m' !! k) as [v|] eqn:Em; [by apply map_lookup_filter_Some|apply map_lookup_filter_None; by left].
  - rewrite lookup_union_r; [|apply map_lookup_filter_None; right; intros v Hv; done].
    destruct (m !! k) as [v|] eqn:Em; [by apply map_lookup_filter_Some|apply map_lookup_filter_None; by left].
Qed.

Record merging (i : Z) (ms : merge_state) : Prop := {
  mg_others : others (ms_store ms) = others s;
  mg_root : _root (ms_store ms) = ms_current ms;
  mg_context : ms_context ms = [ms_current ms];
  mg_nodes : nodes s ⊆ nodes (ms_store ms);
  mg_closed : closed (nodes (ms_store ms));
  mg_current : exists ch, nodes (ms_store ms) !! ms_current ms = Some {| C with children := ch |} /\ forall c, ch !! c = merged_child i c;
  mg_fresh : nodes s !! ms_current ms = None \/ (ms_store ms = s /\ ms_num ms = 0 /\ ms_size ms = 0);
  mg_num : ms_num ms = to_int (weigh one (merged_upto i) [] - weigh one m []);
  mg_size : ms_size ms = to_int (weigh string_size (merged_upto i) [] - weigh string_size m []);
}.

(** ** One branch *)

Lemma merged_child_next i c : merged_child (i + 1) c = if (c =? i) && bool_decide (children O !! c <> children B !! c) then children O !! c else merged_child i c.
Proof.
  unfold merged_child. destruct (Z.eqb_spec c i) as [->|Hne]; simpl.
  - rewrite (proj2 (Z.ltb_lt i (i + 1))) by lia. rewrite Z.ltb_irrefl. simpl. done.
  - assert (E : (c <? i + 1) = (c <? i)); [|by rewrite E]. apply eq_bool_prop_intro. rewrite !Is_true_true, !Z.ltb_lt. lia.
Qed.

Lemma merged_weigh f i : 0 <= i ->
  weigh f (merged_upto (i + 1)) [] - weigh f (merged_upto i) [] =
  if bool_decide (children O !! i <> children B !! i) then weigh f mo [i] - weigh f m [i] else 0.
Proof.
  intros Hi. assert (Hm : keys_ok m) by apply Hrep.
  assert (Hnil : forall j, merged_upto j !! [] = None).
  { intros j. rewrite merged_upto_lookup. assert (E : m !! [] = None) by (destruct (m !! []) eqn:E; [by destruct (Hm _ _ E)|done]).
    assert (E' : m' !! [] = None).
    { destruct (m' !! []) eqn:E'; [|done]. by destruct (three_way_keys m mb mo Hm Hmo _ _ E'). }
    by case_decide. }
  rewrite (weigh_branch f (merged_upto i) (merged_upto (i + 1)) i).
  - assert (E : forall j t, merged_upto j !! (i :: t) = if decide (i < j) then m' !! (i :: t) else m !! (i :: t)) by (intros; apply merged_upto_lookup).
    assert (Hold : weigh f (merged_upto i) [i] = weigh f m [i]).
    { apply weigh_ext. intros t. simpl. rewrite E. case_decide; [lia|done]. }
    assert (Hnew : weigh f (merged_upto (i + 1)) [i] = weigh f m' [i]).
    { apply weigh_ext. intros t. simpl. rewrite E. case_decide; [done|lia]. }
    rewrite Hold, Hnew. case_bool_decide as Hd.
    + f_equal. apply weigh_ext. intros t. apply branch_taken. by destruct (Hapart i); [|destruct Hd].
    + assert (Hk : weigh f m' [i] = weigh f m [i]); [|lia]. apply weigh_ext. intros t. apply branch_kept.
      by destruct (decide (children O !! i = children B !! i)).
  - intros k Hk. destruct k as [|b k]; [by rewrite !Hnil|]. rewrite !merged_upto_lookup. simpl.
    assert (b <> i) by (intros ->; apply Hk; by exists k). repeat case_decide; done || lia.
Qed.

(** The root is always copied. *)
Lemma makeBranchUnique_root st cur nd :
  _root st = cur -> nodes st !! cur = Some nd ->
  _makeBranchUnique st [cur] =
  Some (mkStore (<[next_loc (nodes st) := nd]> (nodes st)) (others st) (next_loc (nodes st)), next_loc (nodes st), [next_loc (nodes st)]).
Proof.
  intros Hroot Hnd. unfold _makeBranchUnique.
  assert (Hcount : (4 <= use_count (nodes st) (held st [cur; cur; cur]) cur)%nat).
  { unfold use_count, held. rewrite Hroot. rewrite filter_cons_True, filter_app by done. rewrite (filter_cons_True _ cur [cur; cur]) by done.
    rewrite (filter_cons_True _ cur [cur]), (filter_cons_True _ cur []) by done. cbn [length]. rewrite length_app. simpl. lia. }
  rewrite (proj2 (Z.eqb_neq _ _)) by (unfold count_pointers; lia). cbn [negb]. rewrite Hnd. done.
Qed.

Lemma replace_ok i ms :
  merging i ms -> byte i -> children O !! i <> children B !! i ->
  exists ms', replace_branch ms i (children O !! i) (size_t (weigh one mo [i]) - size_t (weigh one m [i]))
                (size_t (weigh string_size mo [i]) - size_t (weigh string_size m [i])) = Some ms' /\ merging (i + 1) ms'.
Proof.
  intros [Ho Hroot Hctx Hsub Hcl (ch & Hcur & Hch) _ Hnum Hsize] [Hi _] Hne. unfold replace_branch.
  rewrite Hctx, (makeBranchUnique_root _ _ _ Hroot Hcur). cbn [mbind option_bind nodes]. unfold set_child.
  rewrite lookup_insert_eq. cbn [mbind option_bind]. eexists. split; [done|].
  set (H := nodes (ms_store ms)) in *. set (f := next_loc H).
  assert (Hf : nodes s !! f = None).
  { destruct (nodes s !! f) eqn:E; [|done]. apply (lookup_weaken _ H) in E; [|done]. unfold f in E. by rewrite next_loc_fresh in E. }
  split; cbn [ms_store ms_current ms_context ms_num ms_size nodes others _root with_nodes]; try done.
  - rewrite insert_insert_eq. etrans; [exact Hsub|]. apply insert_subseteq, next_loc_fresh.
  - rewrite insert_insert_eq. apply closed_insert; [done|]. intros c y Hy. simpl in Hy. apply lookup_insert_is_Some'. right.
    destruct (decide (c = i)) as [->|Hci].
    + rewrite lookup_partial_alter_eq in Hy. destruct (wf_closed _ Hwf _ _ _ _ EO Hy) as [ynd Hynd]. exists ynd. by eapply lookup_weaken.
    + rewrite lookup_partial_alter_ne in Hy by done. by eapply (Hcl _ _ _ _ Hcur).
  - rewrite lookup_insert_eq. eexists. split; [done|]. intros c. rewrite merged_child_next. simpl. destruct (Z.eqb_spec c i) as [->|Hci]; simpl.
    + rewrite lookup_partial_alter_eq. by rewrite bool_decide_eq_true_2.
    + by rewrite lookup_partial_alter_ne.
  - by left.
  - rewrite Hnum, delta_step. f_equal. pose proof (merged_weigh one i Hi) as Hw. rewrite bool_decide_eq_true_2 in Hw by done. lia.
  - rewrite Hsize, delta_step. f_equal. pose proof (merged_weigh string_size i Hi) as Hw. rewrite bool_decide_eq_true_2 in Hw by done. lia.
Qed.

Lemma keep_ok i ms : merging i ms -> 0 <= i -> children O !! i = children B !! i -> merging (i + 1) ms.
Proof.
  intros [Ho Hroot Hctx Hsub Hcl (ch & Hcur & Hch) Hf Hnum Hsize] Hi Heq. split; try done.
  - exists ch. split; [done|]. intros c. rewrite merged_child_next, Hch. destruct (Z.eqb_spec c i) as [->|]; [|done].
    by rewrite bool_decide_eq_false_2 by (intros Hne; by apply Hne).
  - rewrite Hnum. f_equal. pose proof (merged_weigh one i Hi) as Hw. rewrite bool_decide_eq_false_2 in Hw by (intros Hne; by apply Hne). lia.
  - rewrite Hsize. f_equal. pose proof (merged_weigh string_size i Hi) as Hw. rewrite bool_decide_eq_false_2 in Hw by (intros Hne; by apply Hne). lia.
Qed.

Lemma merge_child_ok recurse locals i ms :
  merging i ms -> byte i -> exists ms', merge_child recurse locals base other ms i = Some (Returns ms') /\ merging (i + 1) ms'.
Proof.
  intros Hms Hi. pose proof Hms as [Ho Hroot Hctx Hsub Hcl (ch & Hcur & Hch) Hf Hnum Hsize].
  destruct (branch_counts_ok (rep_trie _ _ _ Hrep) EC i) as (n1 & s1 & Ec & -> & ->).
  destruct (branch_counts_ok HO EO i) as (n2 & s2 & Eo & -> & ->).
  assert (Hsame : children O !! i = children B !! i -> merging (i + 1) ms) by (apply keep_ok; [done|apply Hi]).
  assert (Hget : forall x nd, nodes s !! x = Some nd -> nodes (ms_store ms) !! x = Some nd) by (intros; by eapply lookup_weaken).
  unfold merge_child. rewrite Hcur. cbn [mbind option_bind]. rewrite (Hget _ _ EB), (Hget _ _ EO). cbn [mbind option_bind children].
  assert (Ecur : ch !! i = children C !! i) by (rewrite Hch; unfold merged_child; by rewrite Z.ltb_irrefl).
  rewrite Ecur. destruct (decide (children O !! i = children B !! i)) as [Eob|Hne].
  { exists ms. split; [|by apply Hsame]. rewrite Eob. destruct (children C !! i) as [n|], (children B !! i) as [b|]; try done.
    - rewrite (bool_decide_eq_true_2 (b = b)) by done. by destruct (negb (_ && _)).
    - by rewrite (bool_decide_eq_true_2 (b = b)) by done. }
  pose proof (replace_ok i ms Hms Hi Hne) as (ms' & Hrun & Hms'). exists ms'. split; [|done].
  assert (Ecb : children C !! i = children B !! i) by (by destruct (Hapart i); [|destruct Hne]).
  rewrite <- Ecb in *. destruct (children C !! i) as [n|]; simpl in Ec.
  - destruct (nodes s !! n) as [cnd|] eqn:En; [|done]. cbn [mbind option_bind] in Ec. injection Ec as E1 E2.
    rewrite (bool_decide_eq_true_2 (Some n = Some n)) by done. rewrite andb_false_r. cbn [negb].
    destruct (children O !! i) as [o|]; simpl in Eo.
    + destruct (nodes s !! o) as [ond|] eqn:Eond; [|done]. cbn [mbind option_bind] in Eo. injection Eo as E3 E4.
      rewrite (bool_decide_eq_false_2 (n = o)) by (intros ->; by apply Hne). rewrite (bool_decide_eq_true_2 (n = n)) by done.
      rewrite (Hget _ _ En), (Hget _ _ Eond). cbn [mbind option_bind]. by rewrite E1, E2, E3, E4, Hrun.
    + injection Eo as E3 E4. rewrite (Hget _ _ En). cbn [mbind option_bind]. rewrite <- E3, <- E4, (Z.sub_0_l (size_t (weigh one _ _))), (Z.sub_0_l (size_t (weigh string_size _ _))) in Hrun. by rewrite E1, E2, Hrun.
  - injection Ec as E1 E2. destruct (children O !! i) as [o|]; [|done]. simpl in Eo.
    destruct (nodes s !! o) as [ond|] eqn:Eond; [|done]. cbn [mbind option_bind] in Eo. injection Eo as E3 E4.
    rewrite (Hget _ _ Eond). cbn [mbind option_bind]. rewrite <- E1, <- E2, !Z.sub_0_r in Hrun. by rewrite E3, E4, Hrun.
Qed.

Lemma merge_children_ok recurse locals n i ms :
  merging i ms -> 0 <= i -> i + Z.of_nat n <= 256 ->
  exists ms', merge_children recurse locals base other (seqZ i (Z.of_nat n)) ms = Some (Returns ms') /\ merging (i + Z.of_nat n) ms'.
Proof.
  revert i ms. induction n as [|n IH]; intros i ms Hms Hi Hle.
  { exists ms. simpl. by rewrite Z.add_0_r. }
  rewrite seqZ_cons by lia. cbn [merge_children]. destruct (merge_child_ok recurse locals i ms Hms) as (ms1 & -> & Hms1); [split; lia|].
  unfold andThen at 1. cbn [mbind option_bind]. replace (Z.pred (Z.of_nat (S n))) with (Z.of_nat n) by lia.
  destruct (IH (Z.succ i) ms1) as (ms' & Hrun & Hms'); [by rewrite <- Z.add_1_r|lia..|]. exists ms'. split; [done|].
  by replace (i + Z.of_nat (S n)) with (Z.succ i + Z.of_nat n) by lia.
Qed.

(** ** The whole merge *)

Lemma outside_bytes c : ~ byte c -> children O !! c = children C !! c.
Proof.
  intros Hc. assert (Hnone : forall nd x mx, trie True (nodes s) mx x [] -> nodes s !! x = Some nd -> children nd !! c = None).
  { intros nd x mx Ht Hx. destruct (children nd !! c) eqn:E; [|done]. destruct Hc. by eapply (branch_byte Ht Hx). }
  rewrite (Hnone O other mo), (Hnone C (_root s) m); try done. apply Hrep.
Qed.

Lemma merged_none c : merged_child 0 c = children C !! c.
Proof.
  unfold merged_child. destruct (Z.ltb_spec c 0) as [Hlt|]; [|done]. simpl. case_bool_decide; [|done].
  apply outside_bytes. intros [? _]. lia.
Qed.

Lemma merged_all c : merged_child 256 c = if bool_decide (children O !! c <> children B !! c) then children O !! c else children C !! c.
Proof.
  unfold merged_child. destruct (Z.ltb_spec c 256) as [?|Hge]; [done|]. simpl. case_bool_decide as Hne; [|done].
  symmetry. apply outside_bytes. intros [_ ?]. lia.
Qed.

Lemma outside_keys k : ~ byte (char_at k) -> m' !! k = m !! k.
Proof.
  intros Hc. assert (Hnone : forall mx : contents, keys_ok mx -> mx !! k = None).
  { intros mx Hmx. destruct (mx !! k) eqn:E; [|done]. destruct (Hmx _ _ E) as [Hk Hb]. destruct k as [|b k]; [done|].
    by apply Forall_inv in Hb. }
  rewrite !Hnone; [done|apply Hrep|]. apply three_way_keys; [apply Hrep|done].
Qed.

Lemma upto_none : merged_upto 0 = m.
Proof.
  apply map_eq. intros k. rewrite merged_upto_lookup. case_decide as Hc; [|done]. apply outside_keys. intros [? _]. lia.
Qed.

Lemma merged_contents : merged_upto 256 = m'.
Proof.
  apply map_eq. intros k. rewrite merged_upto_lookup. case_decide as Hc; [done|]. symmetry. apply outside_keys. intros [_ ?]. lia.
Qed.

Lemma merged_kids H' ch cnt1 cnt2 :
  nodes s ⊆ H' -> (forall c, ch !! c = merged_child 256 c) ->
  kids_ok True H' m' [] {| C with children := ch; _numSubtreeElems := cnt1; _sizeSubtreeElems := cnt2 |}.
Proof.
  intros Hsub Hch. destruct (trie_lookup _ _ _ (rep_trie _ _ _ Hrep) EC) as [_ [HnC HkC]]. destruct (trie_lookup _ _ _ HO EO) as [_ [HnO HkO]].
  assert (Hside : forall c, exists mx nd, ch !! c = children nd !! c /\ kids_ok True (nodes s) mx [] nd /\ forall k, mx !! (c :: k) = m' !! (c :: k)).
  { intros c. rewrite Hch, merged_all. case_bool_decide as Hne; [exists mo, O|exists m, C]; (split_and!; [done|done|]); intros k.
    - rewrite branch_taken; [done|]. by destruct (Hapart c).
    - rewrite branch_kept; [done|]. by destruct (decide (children O !! c = children B !! c)). }
  split; simpl; intros c.
  - intros Hc k. destruct (Hside c) as (mx & nd & E & [Hn _] & Heq). rewrite <- Heq. apply Hn. congruence.
  - intros l Hl. destruct (Hside c) as (mx & nd & E & [_ Hk] & Heq). rewrite E in Hl. destruct (Hk _ _ Hl) as (cnd & Hcnd & Hok & Ht).
    exists cnd. split_and!; [by eapply lookup_weaken|by eapply child_ok_agree|].
    apply (trie_agree True H' mx); [|by apply (preserved_extend (nodes s) H' l Hsub)].
    destruct (head_cons _ _ (child_front _ _ _ _ Hok)) as [t ->]. intros k. apply Heq.
Qed.

Lemma count_step w w' : - 2 ^ 31 <= w' - w < 2 ^ 31 -> size_t (size_t w + to_int (w' - w)) = size_t w'.
Proof. intros Hd. rewrite to_int_small by done. rewrite size_t_add. f_equal. lia. Qed.

Lemma weights_nonneg (mx : contents) : 0 <= weigh one mx [] /\ 0 <= weigh string_size mx [].
Proof.
  split; apply weigh_nonneg; [done|]. intros v. unfold string_size, size_t. apply Z.mod_pos_bound. lia.
Qed.

Lemma merge_done ms :
  merging 256 ms -> fits_int m -> fits_int m' ->
  exists H', modify (nodes (ms_store ms)) (ms_current ms) (add_counts (ms_num ms) (ms_size ms)) = Some H' /\
    nodes s ⊆ H' /\ closed H' /\ represents True (mkStore H' (others s) (ms_current ms)) m'.
Proof.
  intros [Ho Hroot Hctx Hsub Hcl (ch & Hcur & Hch) Hf Hnum Hsize] [Hf1 Hf2] [Hf3 Hf4]. rewrite (modify_run _ _ _ _ Hcur). eexists. split; [done|].
  destruct (trie_lookup _ _ _ (rep_trie _ _ _ Hrep) EC) as [[Hd Hcount] _]. destruct (Hcount I) as [Hc1 Hc2].
  pose proof (rep_root _ _ _ Hrep) as Hrk. rewrite EC in Hrk. simpl in Hrk. rewrite merged_contents in Hnum, Hsize.
  assert (Hsub' : nodes s ⊆ <[ms_current ms := add_counts (ms_num ms) (ms_size ms) {| C with children := ch |}]> (nodes (ms_store ms))).
  { apply map_subseteq_spec. intros x nd Hx. destruct (decide (ms_current ms = x)) as [Ex|Hne].
    - destruct Hf as [Hf|(Es & En & Ez)]; [congruence|]. rewrite <- Ex in Hx |- *. rewrite lookup_insert_eq, En, Ez.
      rewrite Es in Hcur. unfold add_counts. simpl. rewrite Hc1, Hc2, !size_t_size_t, <- Hc1, <- Hc2. congruence.
    - rewrite lookup_insert_ne by done. by eapply lookup_weaken. }
  split_and!; [done| |].
  - eapply closed_update; [done|done|]. simpl. intros c y Hy. exact (Hcl _ _ _ _ Hcur Hy).
  - split; simpl.
    + apply trie_unfold. rewrite lookup_insert_eq. eexists. split; [done|]. split; [split|by apply merged_kids]; simpl.
      * rewrite Hd. pose proof (rep_keys _ _ _ Hrep) as Hm. destruct (m !! []) eqn:E; [by destruct (Hm _ _ E)|].
        destruct (m' !! []) eqn:E'; [|done]. by destruct (three_way_keys m mb mo Hm Hmo _ _ E').
      * intros _. simpl. rewrite Hc1, Hc2, Hnum, Hsize. destruct (weights_nonneg m), (weights_nonneg m').
        by rewrite !count_step by lia.
    + by rewrite lookup_insert_eq.
    + apply three_way_keys; [apply Hrep|done].
Qed.

Lemma merge3_ok : fits_int m -> fits_int m' -> exists s', RadixStore_merge3 s base other = Some (Returns s') /\ changed True s s' m'.
Proof.
  intros Hf Hf'. unfold RadixStore_merge3, branch_fuel. cbn [_merge3Helper app].
  destruct (merge_children_ok (_merge3Helper (foldr Nat.max 0%nat (data_length <$> (map_to_list (nodes s)).*2))) [] 256 0
              (mkMerge s (_root s) [_root s] 0 0)) as (ms & Hrun & Hms); [|lia..|].
  - split; simpl; try done.
    + apply Hwf.
    + exists (children C). split; [by destruct C|]. intros c. by rewrite merged_none.
    + by right.
    + by rewrite upto_none, Z.sub_diag.
    + by rewrite upto_none, Z.sub_diag.
  - change (Z.of_nat 256) with 256 in *. rewrite Hrun. unfold andThen at 2. cbn [mbind option_bind].
    destruct (merge_done ms Hms Hf Hf') as (H' & HH & Hsub & Hcl & Hrep'). rewrite HH. cbn [mbind option_bind andThen].
    eexists. split; [done|]. unfold with_nodes. rewrite (mg_others _ _ Hms), (mg_root _ _ Hms). apply settle_ok; try done.
    + split; [done|]. simpl. intros x Hx. destruct (wf_others _ Hwf x Hx) as [nd Hnd]. exists nd. by eapply lookup_weaken.
    + intros l _. by apply preserved_extend.
Qed.

End merge.
