(* ===== verification/RadixSpec.v ===== *)
(** * The radix store is a map

    What the store promises to its clients: it behaves as a finite map from strings to
    strings, with exact counters, whatever other stores and iterators share of its nodes; a
    copy is a snapshot; iterators visit the entries in order; the bounds and the comparison
    of stores are those of the map. *)

From Stdlib Require Import ZArith Lia.
From stdpp Require Import prelude gmap sorting.
From S2P Require Import Prelude RadixNode RadixStore RadixIterator RadixMerge RadixInv RadixLookup RadixOwn.
From S2P Require Import RadixOrder RadixModify RadixErase RadixIteration RadixWalk RadixBounds RadixReverse.
From S2P Require Import RadixMerging.

Open Scope Z_scope.

(** ** The empty store *)

Lemma clear_ok s : store_wf s -> changed True s (RadixStore_clear s) ∅.
Proof.
  intros [Hcl Ho]. unfold RadixStore_clear. cbn [make_shared]. set (H := <[next_loc (nodes s) := empty_node]> (nodes s)).
  assert (Hsub : nodes s ⊆ H) by apply insert_subseteq, next_loc_fresh.
  apply (settle_ok True s (mkStore H (others s) (next_loc (nodes s)))); [|split| |]; simpl; try done.
  - split; simpl; unfold H; [|by rewrite lookup_insert_eq|done]. apply trie_unfold. rewrite lookup_insert_eq. eexists. split; [done|]. split.
    + split; [done|]. intros _. by rewrite !weigh_none.
    + by apply kids_none.
  - by apply closed_insert.
  - intros x Hx. destruct (Ho x Hx) as [nd Hnd]. exists nd. by eapply lookup_weaken.
  - intros l _. by apply preserved_extend.
Qed.

(** A new store. *)
Definition RadixStore_new : RadixStore := RadixStore_clear (mkStore ∅ [] 1%positive).

Lemma RadixStore_new_ok : store_wf RadixStore_new /\ represents True RadixStore_new ∅.
Proof.
  assert (Hwf : store_wf (mkStore ∅ [] 1%positive)) by (split; [intros x nd c y Hx; simpl in Hx; by rewrite lookup_empty in Hx|intros x Hx; by apply not_elem_of_nil in Hx]).
  destruct (clear_ok _ Hwf). done.
Qed.

(** ** Modifications *)

Inductive store_op :=
  | OpInsert (key value : list Z)
  | OpUpdate (key value : list Z)
  | OpErase (key : list Z).

(** What the operation returns, as a number: whether it did something. *)
Definition run_op (s : RadixStore) (op : store_op) : option (Z * RadixStore) :=
  match op with
  | OpInsert k v => '(_, b, s) ← RadixStore_insert s (k, v); Some (if (b : bool) then 1 else 0, s)
  | OpUpdate k v => '(_, b, s) ← RadixStore_update s (k, v); Some (if (b : bool) then 1 else 0, s)
  | OpErase k => RadixStore_erase s k
  end.

Fixpoint run_ops (s : RadixStore) (ops : list store_op) : option (list Z * RadixStore) :=
  match ops with
  | [] => Some ([], s)
  | op :: ops => '(r, s) ← run_op s op; '(rs, s) ← run_ops s ops; Some (r :: rs, s)
  end.

(** The same on maps. *)
Definition map_op (m : contents) (op : store_op) : Z * contents :=
  match op with
  | OpInsert k v => if bool_decide (k <> [] /\ m !! k = None) then (1, <[k := v]> m) else (0, m)
  | OpUpdate k v => if bool_decide (is_Some (m !! k)) then (1, <[k := v]> m) else (0, m)
  | OpErase k => if bool_decide (is_Some (m !! k)) then (1, delete k m) else (0, m)
  end.

Fixpoint map_ops (m : contents) (ops : list store_op) : list Z * contents :=
  match ops with
  | [] => ([], m)
  | op :: ops => let '(r, m) := map_op m op in let '(rs, m) := map_ops m ops in (r :: rs, m)
  end.

(** What the store asks for: bytes, values below 2 GiB, no update of an empty value, and no
    removal of an absent key where stored keys part. *)
Definition op_ok (m : contents) (op : store_op) : Prop :=
  match op with
  | OpInsert k v => Forall byte k /\ small v
  | OpUpdate k v => small v /\ forall w, m !! k = Some w -> w <> []
  | OpErase k => k <> [] /\ (m !! k = None -> ~ parting m k)
  end.

Fixpoint ops_ok (m : contents) (ops : list store_op) : Prop :=
  match ops with
  | [] => True
  | op :: ops => op_ok m op /\ ops_ok (map_op m op).2 ops
  end.

Definition values_small (m : contents) : Prop := map_Forall (fun _ v => small v) m.

Lemma run_op_ok s m op :
  store_wf s -> represents True s m -> values_small m -> op_ok m op ->
  exists s', run_op s op = Some ((map_op m op).1, s') /\ changed True s s' (map_op m op).2 /\ values_small (map_op m op).2.
Proof.
  intros Hwf Hrep Hsmall Hok. destruct op as [k v|k v|k]; simpl in Hok |- *.
  - destruct Hok as [Hb Hv]. destruct (insert_ok True s m k v Hwf Hrep Hb) as (it & s' & -> & Hch); [done|]. exists s'. cbn [mbind option_bind].
    case_bool_decide; split_and!; try done. by apply map_Forall_insert_2.
  - destruct Hok as [Hv Hne]. destruct (update_ok True s m k v Hwf Hrep) as (it & s' & -> & Hch).
    { intros _. split; [done|]. intros w Hw. split; [by apply Hne|]. by apply (Hsmall k). }
    exists s'. cbn [mbind option_bind]. case_bool_decide; split_and!; try done. by apply map_Forall_insert_2.
  - destruct Hok as [Hk Hpart]. destruct (m !! k) as [w|] eqn:E.
    + rewrite bool_decide_eq_true_2 by by eexists. destruct (erase_present True s m Hwf Hrep k w E) as (s' & -> & Hch); [by apply (Hsmall k)|].
      exists s'. split_and!; [done..|]. by apply map_Forall_delete.
    + rewrite bool_decide_eq_false_2 by (intros []; done). exists s. split_and!; [|by apply changed_refl|done]. apply (erase_absent True s m); auto.
Qed.

Lemma changed_trans X s s1 s2 m1 m2 : changed X s s1 m1 -> changed X s1 s2 m2 -> changed X s s2 m2.
Proof.
  intros [_ _ Ho1 Hp1] [Hr Hw Ho2 Hp2]. split; [done|done|congruence|]. intros l Hl. eapply preserved_trans; [by apply Hp1|]. apply Hp2. by rewrite Ho1.
Qed.

Lemma run_ops_ok s m ops :
  store_wf s -> represents True s m -> values_small m -> ops_ok m ops ->
  exists s', run_ops s ops = Some ((map_ops m ops).1, s') /\ changed True s s' (map_ops m ops).2 /\ values_small (map_ops m ops).2.
Proof.
  revert s m. induction ops as [|op ops IH]; intros s m Hwf Hrep Hsmall Hok; simpl.
  - exists s. split; [done|]. split; [by apply changed_refl|done].
  - destruct Hok as [Hop Hok]. destruct (run_op_ok s m op Hwf Hrep Hsmall Hop) as (s1 & -> & Hch & Hsmall1). cbn [mbind option_bind].
    destruct (map_op m op) as [r m1]. simpl in *. destruct (IH s1 m1 (ch_wf _ _ _ _ Hch) (ch_represents _ _ _ _ Hch) Hsmall1 Hok) as (s2 & -> & Hch2 & Hsmall2).
    cbn [mbind option_bind]. destruct (map_ops m1 ops) as [rs m2]. exists s2. split; [done|]. split; [by eapply changed_trans|done].
Qed.

(** ** Lookup *)

Lemma find_value_ok X s m k : represents X s m -> find_value (nodes s) (_root s) k = Some ((fun v => (k, v)) <$> m !! k).
Proof.
  intros Hrep. unfold find_value. destruct (findNode_ok X s m k Hrep) as (r & Hr & Hf). unfold _findNode in Hr. rewrite Hr. cbn [mbind option_bind].
  unfold finds in Hf. destruct (m !! k) as [v|]; [|by subst]. destruct Hf as (n & nd & -> & Hn & Hd & _).
  rewrite Hn. cbn [mbind option_bind]. by rewrite Hd.
Qed.

(** ** Loops over a store *)

(** [for (; iter != end(); ++iter)], collecting [*iter]. *)
Fixpoint iterate (step : gmap positive Node -> iterator -> option iterator) (fuel : nat) (H : gmap positive Node) (iter : iterator) :
    option (list (list Z * list Z)) :=
  match fuel with
  | O => None
  | S fuel =>
      if bool_decide (it_current iter = None) then Some []
      else
        d ← deref H iter;
        iter ← step H iter;
        L ← iterate step fuel H iter;
        Some (d :: L)
  end.

Definition elements (s : RadixStore) : option (list (list Z * list Z)) :=
  it ← RadixStore_begin s; iterate _findNext (S (size (nodes s))) (nodes s) it.

Definition elements_reverse (s : RadixStore) : option (list (list Z * list Z)) :=
  it ← RadixStore_rbegin s; iterate _findNextReverse (S (size (nodes s))) (nodes s) it.

Lemma iterate_walk fuel H root r L :
  walk H root r L -> (length L < fuel)%nat -> iterate _findNext fuel H (mkIter root r) = Some L.
Proof.
  revert fuel r. induction L as [|d L IH]; intros fuel r Hw Hf; (destruct fuel as [|fuel]; [lia|]); inversion Hw as [|n r' d' L' _ Hd Hn Hw']; subst; simpl.
  - done.
  - rewrite Hd. cbn [mbind option_bind]. rewrite Hn. cbn [mbind option_bind]. rewrite (IH fuel r'); [done|done|simpl in Hf; lia].
Qed.

Lemma elements_ok s m : represents True s m -> countable m -> exists L, elements s = Some L /\ listing m L.
Proof.
  intros Hrep Hc. destruct (begin_walk Hrep Hc) as (r & L & Hb & HL & Hl). exists L. split; [|done]. unfold elements. rewrite Hb. cbn [mbind option_bind].
  apply iterate_walk; [done|]. pose proof (listing_length (rep_trie _ _ _ Hrep) m L) as Hlen. specialize (Hlen ltac:(done) Hl). lia.
Qed.

(** The end of a listing. *)
Lemma listing_snoc (m : contents) k v L :
  m !! k = Some v -> (forall k', is_Some (m !! k') -> ~ k ≺ k') -> listing (delete k m) L -> listing m (L ++ [(k, v)]).
Proof.
  intros Hk Hlast [Hs He]. split.
  - apply StronglySorted_app_2; [|done|repeat constructor]. intros [k1 v1] d2 Hin ->%list_elem_of_singleton. simpl.
    apply He, lookup_delete_Some in Hin as [Hne Hin]. destruct (string_lt_total k1 k) as [?|[->|Hlt]]; [done..|].
    exfalso. by eapply Hlast.
  - intros k' v'. rewrite elem_of_app, list_elem_of_singleton, He, lookup_delete_Some. destruct (decide (k = k')) as [->|Hne].
    + rewrite Hk. split; [intros [[? _]|?]; [done|congruence]|intros ?; right; congruence].
    + split; [intros [[_ ?]|?]; [done|congruence]|by left].
Qed.

Section reverse.

Context {s : RadixStore} {m : contents} (Hrep : represents True s m).

Definition downward (P : list Z -> Prop) : Prop := forall k k', P k -> k' ≺ k -> P k'.

Lemma iterate_reverse P `{HP : forall k, Decision (P k)} fuel r :
  downward P -> last_of (nodes s) m (_root s) P r -> (size (filter (fun kv => P kv.1) m) < fuel)%nat ->
  exists L, iterate _findNextReverse fuel (nodes s) (mkIter (_root s) r) = Some (reverse L) /\ listing (filter (fun kv => P kv.1) m) L.
Proof.
  revert P HP r. induction fuel as [|fuel IH]; intros P HP r Hdown Hlast Hf; [lia|]. destruct r as [x|]; simpl in Hlast |- *.
  - destruct Hlast as (k & v & He & Hk & Hmost). destruct (findNextReverse_ok (rep_root _ _ _ Hrep) (rep_trie _ _ _ Hrep) x k v He) as (r & Hnext & Hr).
    rewrite (entry_deref _ _ _ He). cbn [mbind option_bind]. rewrite Hnext. cbn [mbind option_bind]. pose proof He as (_ & _ & _ & Hm & _).
    assert (Heq : filter (fun kv => kv.1 ≺ k) m = delete k (filter (fun kv => P kv.1) m)).
    { apply map_eq. intros k'. apply option_eq. intros v'. rewrite lookup_delete_Some, !map_lookup_filter_Some. simpl. split.
      - intros [Hk' Hlt]. split_and!; [intros ->; by apply string_lt_irrefl in Hlt|done|by eapply Hdown].
      - intros (Hne & Hk' & HPk'). split; [done|]. destruct (string_lt_total k k') as [?|[?|?]]; [|done..].
        by destruct (Hmost k'); [by eexists|..]. }
    assert (Hin : filter (fun kv => P kv.1) m !! k = Some v) by by apply map_lookup_filter_Some.
    destruct (IH (fun k' => k' ≺ k) (fun k' => _ : Decision (k' ≺ k)) r) as (L & -> & Hlist); [|done| |].
    + intros k1 k2 H1 H2. by eapply string_lt_trans.
    + rewrite Heq, map_size_delete, Hin. simpl. assert (size (filter (fun kv => P kv.1) m) <> 0%nat); [|lia].
      intros Hz. apply map_size_empty_iff in Hz. by rewrite Hz in Hin.
    + cbn [mbind option_bind]. exists (L ++ [(k, v)]). split; [by rewrite reverse_snoc|]. rewrite Heq in Hlist. apply listing_snoc; [done| |done].
      intros k' [v' Hk']. apply map_lookup_filter_Some in Hk' as [Hk' HPk']. by apply Hmost; [eexists|].
  - exists []. split; [done|]. apply listing_nil. intros k. apply map_lookup_filter_None.
    destruct (m !! k) as [v|] eqn:E; [right|by left]. intros v' Hv'. simpl. apply Hlast. by eexists.
Qed.

Lemma elements_reverse_ok : countable m -> exists L, elements_reverse s = Some (reverse L) /\ listing m L.
Proof.
  intros Hc. destruct (rbegin_ok s m Hrep Hc) as (r & Hr & Hlast). unfold elements_reverse. rewrite Hr. cbn [mbind option_bind].
  destruct (elements_ok s m Hrep Hc) as (L & _ & HL).
  destruct (iterate_reverse (fun _ => True) (S (size (nodes s))) r) as (L' & -> & Hlist); [done|done| |].
  - rewrite map_filter_id by done. pose proof (listing_length (rep_trie _ _ _ Hrep) m L) as Hlen. specialize (Hlen ltac:(done) HL).
    destruct (listing_size _ _ HL) as [Hn _]. lia.
  - exists L'. split; [done|]. by rewrite map_filter_id in Hlist by done.
Qed.

End reverse.

(** ** Copies *)

(** The copy constructor: the store, and another one with the same root. *)
Definition RadixStore_copy (s : RadixStore) : RadixStore := mkStore (nodes s) (_root s :: others s) (_root s).

Lemma copy_ok s m : store_wf s -> represents True s m -> store_wf (RadixStore_copy s) /\ represents True (RadixStore_copy s) m.
Proof.
  intros [Hcl Ho] [Ht Hr Hk]. split; split; try done. simpl. intros x [->|Hx]%elem_of_cons; [|by apply Ho].
  destruct (fmap_Some_1 _ _ _ Hr) as (nd & Hnd & _). by eexists.
Qed.

(** What another store with the root [l] holds stays. *)
Lemma preserved_represents s s' l m :
  preserved (nodes s) (nodes s') l -> represents True (mkStore (nodes s) [] l) m -> represents True (mkStore (nodes s') [] l) m.
Proof.
  intros [Hn Ht] [Hrt Hr Hk]. split; simpl in *; [by apply Ht| |done]. destruct (fmap_Some_1 _ _ _ Hr) as (nd & Hnd & E).
  rewrite (Hn _ Hnd). simpl. by rewrite E.
Qed.

(** A store that was changed, seen from one of the others. *)
Lemma switch_ok s s' l m' ml :
  changed True s s' m' -> l ∈ others s -> represents True (mkStore (nodes s) [] l) ml ->
  store_wf (mkStore (nodes s') (_root s' :: others s) l) /\ represents True (mkStore (nodes s') (_root s' :: others s) l) ml /\
  represents True (mkStore (nodes s') [] (_root s')) m'.
Proof.
  intros [Hrep' Hwf' Ho Hp] Hl Hrepl. destruct (preserved_represents s s' l ml (Hp l Hl) Hrepl) as [Htl Hrl Hkl]. destruct Hrep' as [Ht Hr Hk].
  split_and!; split; simpl; try done; [apply Hwf'|]. intros x [->|Hx]%elem_of_cons.
  - destruct (fmap_Some_1 _ _ _ Hr) as (nd & Hnd & _). by eexists.
  - apply (wf_others _ Hwf'). by rewrite Ho.
Qed.

(** Two copies of a store with the root [_root s] that go different ways: the first copy with
    all others, and the root of the second. *)
Definition diverge (s : RadixStore) (ops ops' : list store_op) : option (RadixStore * positive) :=
  let c := RadixStore_copy s in
  '(_, s1) ← run_ops c ops;
  '(_, s2) ← run_ops (mkStore (nodes s1) (_root s1 :: others c) (_root s)) ops';
  Some (mkStore (nodes s2) (_root s2 :: _root s1 :: others c) (_root s1), _root s2).

Lemma diverge_ok s m ops ops' :
  store_wf s -> represents True s m -> values_small m -> ops_ok m ops -> ops_ok m ops' ->
  exists s' other, diverge s ops ops' = Some (s', other) /\ store_wf s' /\ represents True s' (map_ops m ops).2 /\
    represents True (mkStore (nodes s') [] (_root s)) m /\ represents True (mkStore (nodes s') [] other) (map_ops m ops').2.
Proof.
  intros Hwf Hrep Hsmall Hok Hok'. destruct (copy_ok s m Hwf Hrep) as [Hwfc Hrepc]. unfold diverge. cbn zeta.
  assert (Hbase : represents True (mkStore (nodes s) [] (_root s)) m) by (destruct Hrep; by split).
  destruct (run_ops_ok (RadixStore_copy s) m ops Hwfc Hrepc Hsmall Hok) as (s1 & -> & Hch1 & _). cbn [mbind option_bind].
  destruct (switch_ok _ s1 (_root s) _ m Hch1 ltac:(left) Hbase) as (Hwf1 & Hrep1 & Hm1).
  destruct (run_ops_ok _ m ops' Hwf1 Hrep1 Hsmall Hok') as (s2 & -> & Hch2 & _). cbn [mbind option_bind].
  destruct (switch_ok _ s2 (_root s1) _ _ Hch2 ltac:(left) Hm1) as (Hwf2 & Hrep2 & Hm2). eexists _, _. split_and!; [done..| |done].
  apply (preserved_represents (mkStore (nodes s1) (_root s1 :: others (RadixStore_copy s)) (_root s)) s2); [|by destruct Hrep1].
  apply (ch_preserved _ _ _ _ Hch2). right. left.
Qed.

(** ** Examples *)

Definition sample_ops : list store_op := [OpInsert [1; 2] [5]; OpInsert [1; 3] [6]; OpInsert [7] [8; 9]].

Definition sample : RadixStore := from_option snd RadixStore_new (run_ops RadixStore_new sample_ops).

Definition sample_map : contents := (map_ops ∅ sample_ops).2.

Lemma sample_ops_ok : ops_ok ∅ sample_ops.
Proof. repeat split; (repeat constructor; unfold byte, small; simpl; lia). Qed.

Lemma sample_ok : store_wf sample /\ represents True sample sample_map /\ values_small sample_map.
Proof.
  destruct RadixStore_new_ok as [Hwf Hrep]. destruct (run_ops_ok RadixStore_new ∅ sample_ops Hwf Hrep) as (s' & Hrun & Hch & Hs); [done|exact sample_ops_ok|].
  unfold sample. rewrite Hrun. exact (conj (ch_wf _ _ _ _ Hch) (conj (ch_represents _ _ _ _ Hch) Hs)).
Qed.

Lemma sample_countable : countable sample_map.
Proof. vm_compute. done. Qed.

(** ** The properties *)





(** [C22] A loop from [begin] to [end] meets every entry once, in the order of the keys as
    strings of unsigned bytes, and a loop from [rbegin] the same entries in the opposite order. *)
Theorem iteration_in_order s m :
  represents True s m -> countable m ->
  exists L, elements s = Some L /\ elements_reverse s = Some (reverse L) /\ StronglySorted (fun a b => a.1 ≺ b.1) L /\
    forall k v, (k, v) ∈ L <-> m !! k = Some v.
Proof.
  intros Hrep Hc. destruct (elements_ok s m Hrep Hc) as (L & -> & HL). destruct (elements_reverse_ok Hrep Hc) as (L' & -> & HL').
  exists L. rewrite (proj2 (listing_eq m m L' L HL' HL) eq_refl). destruct HL. done.
Qed.

Lemma iteration_in_order_witness :
  exists L, elements sample = Some L /\ StronglySorted (fun a b => a.1 ≺ b.1) L /\ elements_reverse sample = Some [([7], [8; 9]); ([1; 3], [6]); ([1; 2], [5])].
Proof.
  destruct (iteration_in_order sample sample_map (proj1 (proj2 sample_ok)) sample_countable) as (L & HL & Hrev & Hs & _).
  exists L. split; [exact HL|]. split; [exact Hs|]. vm_compute. done.
Defined.

(** [C24] Two stores compare equal exactly when they hold the same entries, whatever their
    trees look like and whatever they share. *)
Theorem store_equality_exact s other m m' :
  represents True s m -> represents True (mkStore (nodes s) (others s) other) m' -> countable m -> countable m' ->
  RadixStore_eq s other = Some (bool_decide (m = m')).
Proof. apply store_eq_ok. Qed.

Lemma store_equality_exact_witness : RadixStore_eq (RadixStore_copy sample) (_root sample) = Some (bool_decide (sample_map = sample_map)).
Proof.
  destruct (copy_ok sample sample_map (proj1 sample_ok) (proj1 (proj2 sample_ok))) as [_ Hrep].
  apply (store_equality_exact (RadixStore_copy sample) (_root sample) sample_map sample_map Hrep Hrep sample_countable sample_countable).
Defined.

(** [C23] [lower_bound] and [upper_bound] stand at the first entry that is not smaller, or that
    is greater, than the key, and a loop from there meets all further ones; provided that no
    stored key agrees with the key up to a byte [0xFF] included. *)
Theorem bounds_exact s m key :
  represents True s m -> unwrapped m key ->
  exists r r' L L', lower_bound s key = Some (mkIter (_root s) r) /\ upper_bound s key = Some (mkIter (_root s) r') /\
    iterate _findNext (S (size (nodes s))) (nodes s) (mkIter (_root s) r) = Some L /\
    iterate _findNext (S (size (nodes s))) (nodes s) (mkIter (_root s) r') = Some L' /\
    listing (filter (fun kv => ~ kv.1 ≺ key) m) L /\ listing (filter (fun kv => key ≺ kv.1) m) L'.
Proof.
  intros Hrep Hun. destruct (lower_bound_first Hrep key Hun) as (r & Hr & Hfirst). destruct (upper_bound_first Hrep key Hun) as (r' & Hr' & Hfirst').
  pose proof (rep_root _ _ _ Hrep) as Hkey. pose proof (rep_trie _ _ _ Hrep) as Hroot.
  destruct (walk_all Hkey Hroot (fun k => ~ k ≺ key) r) as (L & HL & Hlist); [|exact Hfirst|].
  { intros k k' Hk Hlt Hk'. apply Hk. by eapply string_lt_trans. }
  destruct (walk_all Hkey Hroot (fun k => key ≺ k) r') as (L' & HL' & Hlist'); [|exact Hfirst'|].
  { intros k k'. apply string_lt_trans. }
  exists r, r', L, L'. split_and!; try done; apply iterate_walk; try done.
  - pose proof (listing_length Hroot _ L (map_filter_subseteq _ _) Hlist). lia.
  - pose proof (listing_length Hroot _ L' (map_filter_subseteq _ _) Hlist'). lia.
Qed.

Lemma bounds_exact_witness :
  exists r L, lower_bound sample [1; 2; 9] = Some (mkIter (_root sample) r) /\
    iterate _findNext (S (size (nodes sample))) (nodes sample) (mkIter (_root sample) r) = Some L /\
    listing (filter (fun kv => ~ kv.1 ≺ [1; 2; 9]) sample_map) L.
Proof.
  destruct (bounds_exact sample sample_map [1; 2; 9] (proj1 (proj2 sample_ok))) as (r & _ & L & _ & Hr & _ & HL & _ & Hlist & _).
  - apply unwrapped_without_255. rewrite !not_elem_of_cons. split_and!; try lia. apply not_elem_of_nil.
  - exists r, L. split; [exact Hr|]. split; [exact HL|exact Hlist].
Defined.



(** [C21] [merge3] takes the changes of both sides: when no branch below the root was changed
    in the store and in the other store, the merge succeeds, an entry that the store did not
    change comes from the other one and any other entry from the store itself, the counters
    are those of the result, and no other store sees a change. *)
Theorem merge3_takes_both s m base mb other mo :
  store_wf s -> represents True s m -> represents True (mkStore (nodes s) [] base) mb -> represents True (mkStore (nodes s) [] other) mo ->
  apart (nodes s) (_root s) base other -> fits_int m -> fits_int (three_way m mb mo) ->
  exists s', RadixStore_merge3 s base other = Some (Returns s') /\ store_wf s' /\ represents True s' (three_way m mb mo) /\
    (forall k, find_value (nodes s') (_root s') k = Some ((fun v => (k, v)) <$> if decide (m !! k = mb !! k) then mo !! k else m !! k)) /\
    RadixStore_size s' = Some (size_t (Z.of_nat (size (three_way m mb mo)))) /\
    forall l ml, l ∈ others s -> represents True (mkStore (nodes s) [] l) ml -> represents True (mkStore (nodes s') [] l) ml.
Proof.
  intros Hwf Hrep Hb Ho Hap Hf Hf'. destruct (fmap_Some_1 _ _ _ (rep_root _ _ _ Hrep)) as (C & EC & _).
  destruct (fmap_Some_1 _ _ _ (rep_root _ _ _ Hb)) as (B & EB & _). destruct (fmap_Some_1 _ _ _ (rep_root _ _ _ Ho)) as (D & ED & _).
  destruct (merge3_ok Hwf Hrep (rep_trie _ _ _ Hb) (rep_trie _ _ _ Ho) (rep_keys _ _ _ Ho) EC EB ED) as (s' & Hrun & [Hrep' Hwf' _ Hp]);
    [intros c; exact (Hap _ _ _ c EC EB ED)|done..|].
  simpl in Hrun. exists s'. split; [exact Hrun|]. split_and!; [done..| | |].
  - intros k. rewrite <- three_way_lookup. by apply (find_value_ok True).
  - exact (size_ok Hrep').
  - intros l ml Hl Hml. exact (preserved_represents s s' l ml (Hp l Hl) Hml).
Qed.

Lemma merge3_takes_both_witness :
  exists s other s', diverge sample [OpUpdate [7] [1]] [OpErase [1; 2]] = Some (s, other) /\
    RadixStore_merge3 s (_root sample) other = Some (Returns s') /\ RadixStore_size s' = Some 2 /\
    find_value (nodes s') (_root s') [7] = Some (Some ([7], [1])) /\ find_value (nodes s') (_root s') [1; 2] = Some None.
Proof.
  destruct sample_ok as (Hwf & Hrep & Hsmall).
  destruct (diverge_ok sample sample_map [OpUpdate [7] [1]] [OpErase [1; 2]] Hwf Hrep Hsmall) as (s & other & Hrun & Hwf' & Hrep' & Hb & Ho).
  { split; [|exact I]. split; [done|]. vm_compute. intros. congruence. }
  { split; [|exact I]. split; [done|]. vm_compute. intros. congruence. }
  assert (Hap : match diverge sample [OpUpdate [7] [1]] [OpErase [1; 2]] with
                | Some (s, other) => apartb (nodes s) (_root s) (_root sample) other | None => false end = true) by (vm_compute; reflexivity).
  rewrite Hrun in Hap. apply apartb_ok in Hap.
  destruct (merge3_takes_both s _ (_root sample) sample_map other _ Hwf' Hrep' Hb Ho Hap) as (s' & Hm & _ & _ & Hfind & Hsize & _);
    [split; vm_compute; reflexivity..|].
  exists s, other, s'. split; [exact Hrun|]. split; [exact Hm|]. rewrite Hsize, !Hfind. vm_compute. split_and!; reflexivity.
Defined.

(** A byte [0xFF] wraps the index of [lower_bound]: with the keys [01 02] and [FF 01]
    stored, the bound of [FF 02] stands at [01 02] although no stored key is as large. *)
Theorem bound_wraps :
  exists s it, run_ops RadixStore_new [OpInsert [1; 2] [5]; OpInsert [255; 1] [6]] = Some ([1; 1], s) /\
    lower_bound s [255; 2] = Some it /\ deref (nodes s) it = Some ([1; 2], [5]) /\
    elements s = Some [([1; 2], [5]); ([255; 1], [6])] /\ [255; 1] ≺ [255; 2].
Proof.
  eexists _, _. split; [vm_compute; reflexivity|]. split; [vm_compute; reflexivity|]. vm_compute. done.
Qed.
