(* ===== verification/BiggieEngine.v ===== *)
(** * The biggie storage engine: master store and recovery units

    [KVEngine] and [RecoveryUnit] of [db/storage/biggie].  The engine publishes a master
    store; a recovery unit works on a copy of it, and at commit merges what others have
    published since into its copy and publishes that.  All stores share the memory of nodes.

    [commitUnitOfWork] is not atomic: it reads the master under the lock, merges without it,
    and takes the lock again to publish.  The two halves of a round are separate steps here
    ([commit_merge], [commit_publish]), so that other recovery units may run between them. *)

From Stdlib Require Import ZArith Lia.
From stdpp Require Import prelude gmap.
From S2P Require Import Prelude RadixNode RadixStore RadixIterator RadixMerge.

Open Scope Z_scope.

(** A [std::shared_ptr<StringStore>]: which object it is, and the root of that store. *)
Record store_ptr := mkPtr { ptr_object : nat; ptr_root : positive }.

#[export] Instance store_ptr_eq_dec : EqDecision store_ptr.
Proof. solve_decision. Defined.

Record RecoveryUnit := mkUnit {
  _dirty : bool;
  _mergeBase : option store_ptr;
  _workingCopy : option positive;
  _changes : list nat;
  merged_master : option store_ptr;  (* the local variable of the loop of commitUnitOfWork *)
}.

Record KVEngine := mkEngine {
  engine_nodes : gmap positive Node;
  _master : store_ptr;
  next_object : nat;
  _idents : gmap (list Z) bool;
  units : gmap nat RecoveryUnit;
}.

(** ** Pointers into the memory *)

Definition root_list (p : option store_ptr) : list positive := ptr_root <$> option_list p.

(** The pointers of a unit besides its working copy, and all of them. *)
Definition unit_roots (u : RecoveryUnit) : list positive := root_list (_mergeBase u) ++ root_list (merged_master u).

Definition unit_pointers (u : RecoveryUnit) : list positive := option_list (_workingCopy u) ++ unit_roots u.

Definition units_pointers (us : gmap nat RecoveryUnit) : list positive := map_to_list us ≫= fun '(_, u) => unit_pointers u.

Definition engine_pointers (e : KVEngine) : list positive := ptr_root (_master e) :: units_pointers (units e).

(** Who else holds nodes, from the point of view of the working copy of unit [i]. *)
Definition other_pointers (e : KVEngine) (i : nat) (u : RecoveryUnit) : list positive :=
  ptr_root (_master e) :: unit_roots u ++ units_pointers (delete i (units e)).

(** The memory after pointers have been dropped. *)
Definition reclaim (e : KVEngine) : KVEngine := {| e with engine_nodes := release (engine_nodes e) (engine_pointers e) |}.

Definition set_unit (e : KVEngine) (i : nat) (u : RecoveryUnit) : KVEngine := {| e with units := <[i := u]> (units e) |}.

(** ** The engine *)

Definition KVEngine_new : KVEngine :=
  let '(root, H) := make_shared ∅ empty_node in mkEngine H (mkPtr 0 root) 1 ∅ ∅.

Definition newRecoveryUnit (e : KVEngine) (i : nat) : KVEngine := set_unit e i (mkUnit false None None [] None).

Definition createRecordStore (e : KVEngine) (ident : list Z) : KVEngine := {| e with _idents := <[ident := true]> (_idents e) |}.

Definition createSortedDataInterface (e : KVEngine) (ident : list Z) : KVEngine := {| e with _idents := <[ident := false]> (_idents e) |}.

Definition getAllIdents (e : KVEngine) : list (list Z) := (map_to_list (_idents e)).*1.

(** ** Recovery units *)

(** [None]: the invariant on [_workingCopy] and [_mergeBase] fails. *)
Definition forkIfNeeded (e : KVEngine) (i : nat) : option (bool * KVEngine) :=
  u ← units e !! i;
  match _mergeBase u, _workingCopy u with
  | Some _, Some _ => Some (false, e)
  | None, None =>
      Some (true, set_unit e i {| u with _mergeBase := Some (_master e); _workingCopy := Some (ptr_root (_master e)) |})
  | _, _ => None
  end.

Definition makeDirty (e : KVEngine) (i : nat) : option KVEngine :=
  u ← units e !! i; Some (set_unit e i {| u with _dirty := true |}).

Definition registerChange (e : KVEngine) (i change : nat) : option KVEngine :=
  u ← units e !! i; Some (set_unit e i {| u with _changes := _changes u ++ [change] |}).

(** The store that [getWorkingCopy] gives, and an operation on it. *)
Definition working_store (e : KVEngine) (i : nat) : option RadixStore :=
  u ← units e !! i; wc ← _workingCopy u; Some (mkStore (engine_nodes e) (other_pointers e i u) wc).

Definition put_working (e : KVEngine) (i : nat) (s : RadixStore) : option KVEngine :=
  u ← units e !! i; Some (set_unit {| e with engine_nodes := nodes s |} i {| u with _workingCopy := Some (_root s) |}).

Definition on_working_copy {A} (e : KVEngine) (i : nat) (f : RadixStore -> option (A * RadixStore)) : option (A * KVEngine) :=
  s ← working_store e i; '(a, s) ← f s; e ← put_working e i s; Some (a, e).

(** Commit callbacks in the order of registration, rollbacks in the reverse order. *)
Inductive call := Commit (change : nat) | Rollback (change : nat).

Definition commit_changes (u : RecoveryUnit) : list call * RecoveryUnit := (Commit <$> _changes u, {| u with _changes := [] |}).

Definition abort_changes (u : RecoveryUnit) : list call * RecoveryUnit := (Rollback <$> reverse (_changes u), {| u with _changes := [] |}).

Inductive commit_result :=
  | Committed (calls : list call)
  | TryAgain  (* another master was published in between *)
  | WriteConflictException.

(** The first half of a round: the master is merged into the working copy. *)
Definition commit_merge (e : KVEngine) (i : nat) : option (option commit_result * KVEngine) :=
  u ← units e !! i;
  if _dirty u && bool_decide (is_Some (_workingCopy u)) then
    let master := _master e in
    base ← _mergeBase u;
    let u := {| u with merged_master := Some master |} in
    let e := set_unit e i u in
    s ← working_store e i;
    o ← RadixStore_merge3 s (ptr_root base) (ptr_root master);
    match o with
    | Returns s => e ← put_working e i s; Some (None, e)
    | merge_conflict_exception s =>
        e ← put_working e i s;
        u ← units e !! i;
        Some (Some WriteConflictException, reclaim (set_unit e i {| u with merged_master := None |}))
    end
  else
    let '(calls, u) := commit_changes u in
    Some (Some (Committed calls), set_unit e i u).

(** [setMaster_inlock]. *)
Definition setMaster_inlock (e : KVEngine) (root : positive) : KVEngine :=
  {| e with _master := mkPtr (next_object e) root; next_object := S (next_object e) |}.

(** The second half: under the lock, the copy is published if the master is still the same. *)
Definition commit_publish (e : KVEngine) (i : nat) : option (commit_result * KVEngine) :=
  u ← units e !! i;
  master ← merged_master u;
  wc ← _workingCopy u;
  if bool_decide (ptr_object (_master e) = ptr_object master) then
    let e := setMaster_inlock e wc in
    let '(calls, u) := commit_changes {| u with _workingCopy := None; _mergeBase := None; merged_master := None; _dirty := false |} in
    Some (Committed calls, reclaim (set_unit e i u))
  else Some (TryAgain, reclaim (set_unit e i {| u with merged_master := None |})).

Definition abortUnitOfWork (e : KVEngine) (i : nat) : option (list call * KVEngine) :=
  u ← units e !! i;
  let '(calls, u) := abort_changes {| u with _workingCopy := None; _mergeBase := None |} in
  Some (calls, reclaim (set_unit e i u)).

Definition abandonSnapshot (e : KVEngine) (i : nat) : option KVEngine :=
  u ← units e !! i;
  Some (reclaim (set_unit e i {| u with _mergeBase := None; _workingCopy := None; _dirty := false |})).

(** A commit that nobody interferes with. *)
Definition commitUnitOfWork (e : KVEngine) (i : nat) : option (commit_result * KVEngine) :=
  '(r, e) ← commit_merge e i;
  match r with
  | Some r => Some (r, e)
  | None => commit_publish e i
  end.
