(* ===== verification/BiggieEngineOk.v ===== *)
(** * The biggie engine implements transactions on maps

    [shows e v]: the engine state [e] looks like [v], where a store is a map, the master is a
    map, and a recovery unit that has forked has the map it forked from and the map it works
    on.  Every operation does on [v] what it is meant to: in particular a write of one unit
    is seen by nobody else until it is published. *)

From Stdlib Require Import ZArith Lia.
From stdpp Require Import prelude gmap.
From S2P Require Import Prelude RadixNode RadixStore RadixMerge RadixInv RadixLookup RadixOwn RadixModify RadixErase RadixMerging BiggieEngine.

Open Scope Z_scope.

(** The store with root [l] is the map [m]. *)
Definition holds (H : gmap positive Node) (l : positive) (m : contents) : Prop := represents True (mkStore H [] l) m.

Lemma holds_represents s m : holds (nodes s) (_root s) m <-> represents True s m.
Proof. split; intros [Ht Hr Hk]; by split. Qed.

Lemma holds_preserved H H' l m : preserved H H' l -> holds H l m -> holds H' l m.
Proof.
  intros [Hn Ht] [Htr Hr Hk]. split; simpl in *; [by apply Ht| |done].
  destruct (fmap_Some_1 _ _ _ Hr) as (nd & Hnd & E). rewrite (Hn _ Hnd). simpl. congruence.
Qed.

Lemma holds_alive H l m : holds H l m -> is_Some (H !! l).
Proof. intros [_ Hr _]. simpl in Hr. destruct (fmap_Some_1 _ _ _ Hr) as (nd & Hnd & _). by eexists. Qed.

(** Lifted to optional pointers. *)
Definition holds_opt (H : gmap positive Node) (p : option positive) (m : option contents) : Prop :=
  match p, m with
  | Some l, Some m => holds H l m
  | None, None => True
  | _, _ => False
  end.

(** ** Views *)

Record unit_view := mkView {
  v_dirty : bool;
  v_base : option contents;
  v_work : option contents;
  v_merged : option contents;
  v_changes : list nat;
}.

Record engine_view := mkEngineView { v_master : contents; v_units : gmap nat unit_view }.

Record unit_shows (H : gmap positive Node) (u : RecoveryUnit) (v : unit_view) : Prop := {
  us_dirty : v_dirty v = _dirty u;
  us_base : holds_opt H (ptr_root <$> _mergeBase u) (v_base v);
  us_work : holds_opt H (_workingCopy u) (v_work v);
  us_both : is_Some (_mergeBase u) <-> is_Some (_workingCopy u);
  us_merged : holds_opt H (ptr_root <$> merged_master u) (v_merged v);
  us_changes : v_changes v = _changes u;
}.

(** The pointers to published stores. *)
Definition published (e : KVEngine) (p : store_ptr) : Prop :=
  p = _master e \/ exists i u, units e !! i = Some u /\ (_mergeBase u = Some p \/ merged_master u = Some p).

Record shows (e : KVEngine) (v : engine_view) : Prop := {
  sh_closed : closed (engine_nodes e);
  sh_master : holds (engine_nodes e) (ptr_root (_master e)) (v_master v);
  sh_units : forall i, option_relation (unit_shows (engine_nodes e)) (fun _ => False) (fun _ => False) (units e !! i) (v_units v !! i);
  sh_objects : forall p, published e p -> (ptr_object p < next_object e)%nat;
  sh_same : forall p q, published e p -> published e q -> ptr_object p = ptr_object q -> p = q;
}.

Lemma shows_unit e v i u : shows e v -> units e !! i = Some u -> exists uv, v_units v !! i = Some uv /\ unit_shows (engine_nodes e) u uv.
Proof.
  intros Hs Hu. pose proof (sh_units _ _ Hs i) as Hi. rewrite Hu in Hi. destruct (v_units v !! i) as [uv|] eqn:E; [|done].
  by exists uv.
Qed.

Lemma shows_view e v i uv : shows e v -> v_units v !! i = Some uv -> exists u, units e !! i = Some u /\ unit_shows (engine_nodes e) u uv.
Proof.
  intros Hs Hu. pose proof (sh_units _ _ Hs i) as Hi. rewrite Hu in Hi. destruct (units e !! i) as [u|] eqn:E; [|done].
  by exists u.
Qed.

(** ** Pointers *)

Lemma elem_of_root_list p l : l ∈ root_list p <-> exists q, p = Some q /\ l = ptr_root q.
Proof.
  unfold root_list. destruct p as [q|]; simpl; [rewrite list_elem_of_singleton|rewrite elem_of_nil]; naive_solver.
Qed.

Lemma elem_of_units_pointers us l : l ∈ units_pointers us <-> exists i u, us !! i = Some u /\ l ∈ unit_pointers u.
Proof.
  unfold units_pointers. rewrite list_elem_of_bind. split.
  - intros ([i u] & Hl & Hin). apply elem_of_map_to_list in Hin. eauto.
  - intros (i & u & Hu & Hl). exists (i, u). split; [done|]. by apply elem_of_map_to_list.
Qed.

Lemma holds_opt_elem H p m l : holds_opt H p m -> p = Some l -> is_Some (H !! l).
Proof. intros Hh ->. destruct m; [|done]. by eapply holds_alive. Qed.

Lemma unit_pointers_alive H u v l : unit_shows H u v -> l ∈ unit_pointers u -> is_Some (H !! l).
Proof.
  intros [_ Hb Hw _ Hm _] Hl. unfold unit_pointers, unit_roots in Hl. apply elem_of_app in Hl as [Hl|Hl].
  - destruct (_workingCopy u) as [w|]; simpl in Hl; [|by apply not_elem_of_nil in Hl]. apply list_elem_of_singleton in Hl as ->.
    exact (holds_opt_elem _ _ _ _ Hw eq_refl).
  - apply elem_of_app in Hl as [(q & E & ->)%elem_of_root_list|(q & E & ->)%elem_of_root_list].
    + rewrite E in Hb. exact (holds_opt_elem _ _ _ _ Hb eq_refl).
    + rewrite E in Hm. exact (holds_opt_elem _ _ _ _ Hm eq_refl).
Qed.

Lemma holds_opt_preserved H H' p m : (forall l, p = Some l -> preserved H H' l) -> holds_opt H p m -> holds_opt H' p m.
Proof. intros Hp Hh. destruct p as [l|], m as [m|]; simpl in *; try done. by eapply holds_preserved; [apply Hp|]. Qed.

Lemma unit_shows_preserved H H' u v : (forall l, l ∈ unit_pointers u -> preserved H H' l) -> unit_shows H u v -> unit_shows H' u v.
Proof.
  intros Hp [Hd Hb Hw Hboth Hm Hc].
  assert (Hroot : forall p l, ptr_root <$> p = Some l -> (forall q, q ∈ root_list p -> q ∈ unit_pointers u) -> preserved H H' l).
  { intros p l E Hin. apply Hp, Hin, elem_of_root_list. destruct p as [q|]; [|done]. exists q. simpl in E. by simplify_eq. }
  split; try done.
  - apply (holds_opt_preserved H); [|done]. intros l E. apply (Hroot _ _ E). intros q Hq. unfold unit_pointers, unit_roots.
    apply elem_of_app. right. apply elem_of_app. by left.
  - apply (holds_opt_preserved H); [|done]. intros l E. apply Hp. unfold unit_pointers. rewrite E. apply elem_of_app. left. by left.
  - apply (holds_opt_preserved H); [|done]. intros l E. apply (Hroot _ _ E). intros q Hq. unfold unit_pointers, unit_roots.
    apply elem_of_app. right. apply elem_of_app. by right.
Qed.

(** ** Changes of the state *)

Definition set_view (v : engine_view) (i : nat) (uv : unit_view) : engine_view := {| v with v_units := <[i := uv]> (v_units v) |}.

(** A unit is replaced, and the memory by one in which all others see the same. *)
Lemma shows_set_unit e v i u uv H' :
  shows e v -> closed H' -> preserved (engine_nodes e) H' (ptr_root (_master e)) ->
  (forall l, l ∈ units_pointers (delete i (units e)) -> preserved (engine_nodes e) H' l) -> unit_shows H' u uv ->
  (forall p, _mergeBase u = Some p \/ merged_master u = Some p -> published e p) ->
  shows (set_unit {| e with engine_nodes := H' |} i u) (set_view v i uv).
Proof.
  intros Hs Hcl Hmaster Hothers Hu Hpub.
  assert (Hpub' : forall p, published (set_unit {| e with engine_nodes := H' |} i u) p -> published e p).
  { intros p [->|(j & w & Hw & Hp)]; [by left|]. simpl in Hw. destruct (decide (j = i)) as [->|Hne].
    - rewrite lookup_insert_eq in Hw. simplify_eq. by apply Hpub.
    - rewrite lookup_insert_ne in Hw by done. right. eauto. }
  split; simpl; try done.
  - by eapply holds_preserved; [|apply Hs].
  - intros j. destruct (decide (j = i)) as [->|Hne]; [by rewrite !lookup_insert_eq|]. rewrite !lookup_insert_ne by done.
    pose proof (sh_units _ _ Hs j) as Hj. destruct (units e !! j) as [w|] eqn:Ew, (v_units v !! j) as [wv|]; simpl in *; try done.
    eapply unit_shows_preserved; [|done]. intros l Hl. apply Hothers, elem_of_units_pointers. exists j, w.
    by rewrite lookup_delete_ne.
  - intros p Hp. by apply (sh_objects _ _ Hs), Hpub'.
  - intros p q Hp Hq. apply (sh_same _ _ Hs); by apply Hpub'.
Qed.

Lemma preserved_refl H l : preserved H H l.
Proof. done. Qed.

Lemma same_memory e v i u uv :
  shows e v -> unit_shows (engine_nodes e) u uv -> (forall p, _mergeBase u = Some p \/ merged_master u = Some p -> published e p) ->
  shows (set_unit e i u) (set_view v i uv).
Proof.
  intros Hs Hu Hpub. pose proof (shows_set_unit e v i u uv (engine_nodes e) Hs (sh_closed _ _ Hs)) as Hset.
  destruct e. apply Hset; auto using preserved_refl.
Qed.

(** Dropping pointers. *)
Lemma shows_reclaim e v : shows e v -> shows (reclaim e) v.
Proof.
  intros Hs. destruct (release_spec (engine_nodes e) (engine_pointers e) (sh_closed _ _ Hs)) as [Hcl Hp].
  split; simpl; try apply Hs; [done| |].
  - eapply holds_preserved; [apply Hp; by left|apply Hs].
  - intros j. pose proof (sh_units _ _ Hs j) as Hj. destruct (units e !! j) as [w|] eqn:Ew, (v_units v !! j) as [wv|]; simpl in *; try done.
    eapply unit_shows_preserved; [|done]. intros l Hl. apply Hp. right. apply elem_of_units_pointers. eauto.
Qed.

(** ** The working copy *)

Lemma other_pointers_alive e v i u : shows e v -> units e !! i = Some u -> forall l, l ∈ other_pointers e i u -> is_Some (engine_nodes e !! l).
Proof.
  intros Hs Hu l Hl. apply elem_of_cons in Hl as [->|Hl]; [by eapply holds_alive, Hs|]. apply elem_of_app in Hl as [Hl|Hl].
  - destruct (shows_unit _ _ _ _ Hs Hu) as (uv & _ & Hus). eapply unit_pointers_alive; [done|]. apply elem_of_app. by right.
  - apply elem_of_units_pointers in Hl as (j & w & Hw & Hl). apply lookup_delete_Some in Hw as [_ Hw].
    destruct (shows_unit _ _ _ _ Hs Hw) as (wv & _ & Hws). by eapply unit_pointers_alive.
Qed.

Lemma working_store_ok e v i uv m :
  shows e v -> v_units v !! i = Some uv -> v_work uv = Some m ->
  exists u wc, units e !! i = Some u /\ unit_shows (engine_nodes e) u uv /\ _workingCopy u = Some wc /\
    working_store e i = Some (mkStore (engine_nodes e) (other_pointers e i u) wc) /\
    store_wf (mkStore (engine_nodes e) (other_pointers e i u) wc) /\ represents True (mkStore (engine_nodes e) (other_pointers e i u) wc) m.
Proof.
  intros Hs Hv Hm. destruct (shows_view _ _ _ _ Hs Hv) as (u & Hu & Hus). pose proof (us_work _ _ _ Hus) as Hw. rewrite Hm in Hw.
  destruct (_workingCopy u) as [wc|] eqn:Ewc; [|done]. exists u, wc. unfold working_store. rewrite Hu. cbn [mbind option_bind]. rewrite Ewc.
  split_and!; try done.
  - split; [apply Hs|]. by eapply other_pointers_alive.
  - by apply holds_represents.
Qed.

(** A changed working copy is put back. *)
Lemma put_working_ok e v i u uv wc s' m' :
  shows e v -> units e !! i = Some u -> v_units v !! i = Some uv -> unit_shows (engine_nodes e) u uv -> _workingCopy u = Some wc ->
  changed True (mkStore (engine_nodes e) (other_pointers e i u) wc) s' m' ->
  exists e', put_working e i s' = Some e' /\ _master e' = _master e /\
    units e' = <[i := {| u with _workingCopy := Some (_root s') |}]> (units e) /\
    shows e' (set_view v i {| uv with v_work := Some m' |}).
Proof.
  intros Hs Hu Hv [Hd Hb Hw Hboth Hm Hc] Hwc [Hrep' Hwf' Ho' Hpres]. unfold put_working. rewrite Hu. cbn [mbind option_bind]. eexists. split; [done|].
  simpl in Hpres. split_and!; [done..|]. apply shows_set_unit; try done.
  - apply Hwf'.
  - apply Hpres. by left.
  - intros l Hl. apply Hpres. right. apply elem_of_app. by right.
  - assert (Hroots : forall p l, ptr_root <$> p = Some l -> p = _mergeBase u \/ p = merged_master u -> preserved (engine_nodes e) (nodes s') l).
    { intros p l E Hp. apply Hpres. right. apply elem_of_app. left. unfold unit_roots. apply elem_of_app.
      destruct p as [q|]; simpl in E; [|done]. simplify_eq.
      destruct Hp as [<-|<-]; [left|right]; apply elem_of_root_list; by exists q. }
    split; simpl; try done.
    + apply (holds_opt_preserved (engine_nodes e)); [|done]. intros l E. apply (Hroots _ _ E). by left.
    + by apply holds_represents.
    + rewrite Hboth, Hwc. split; intros _; by eexists.
    + apply (holds_opt_preserved (engine_nodes e)); [|done]. intros l E. apply (Hroots _ _ E). by right.
  - simpl. intros p Hp. right. exists i, u. auto.
Qed.

(** An operation that changes the map from [m] to [m'] does so for the working copy. *)
Lemma on_working_copy_ok {A} e v i uv m m' (f : RadixStore -> option (A * RadixStore)) (Q : A -> Prop) :
  shows e v -> v_units v !! i = Some uv -> v_work uv = Some m ->
  (forall s, store_wf s -> represents True s m -> exists a s', f s = Some (a, s') /\ Q a /\ changed True s s' m') ->
  exists a e', on_working_copy e i f = Some (a, e') /\ Q a /\ _master e' = _master e /\
    shows e' (set_view v i {| uv with v_work := Some m' |}).
Proof.
  intros Hs Hv Hm Hf. destruct (working_store_ok e v i uv m Hs Hv Hm) as (u & wc & Hu & Hus & Hwc & Hst & Hwf & Hrep).
  destruct (Hf _ Hwf Hrep) as (a & s' & Hrun & HQ & Hch).
  destruct (put_working_ok e v i u uv wc s' m' Hs Hu Hv Hus Hwc Hch) as (e' & Hput & Hmaster & _ & Hs').
  exists a, e'. unfold on_working_copy. rewrite Hst. cbn [mbind option_bind]. rewrite Hrun. cbn [mbind option_bind]. rewrite Hput. done.
Qed.

(** ** The recovery unit *)

Lemma newRecoveryUnit_ok e v i : shows e v -> shows (newRecoveryUnit e i) (set_view v i (mkView false None None None [])).
Proof.
  intros Hs. apply same_memory; [done| |]; [split; simpl; try done; split; by intros []|]. intros p [?|?]; done.
Qed.

Definition forked (v : engine_view) (uv : unit_view) : unit_view :=
  match v_work uv with
  | Some _ => uv
  | None => {| uv with v_base := Some (v_master v); v_work := Some (v_master v) |}
  end.

Lemma forkIfNeeded_ok e v i uv :
  shows e v -> v_units v !! i = Some uv ->
  exists e', forkIfNeeded e i = Some (bool_decide (v_work uv = None), e') /\ shows e' (set_view v i (forked v uv)) /\ _master e' = _master e /\
    (v_work uv = None -> exists u', units e' !! i = Some u' /\ _mergeBase u' = Some (_master e)).
Proof.
  intros Hs Hv. destruct (shows_view _ _ _ _ Hs Hv) as (u & Hu & Hus). pose proof Hus as [Hd Hb Hw Hboth Hm Hc].
  unfold forkIfNeeded, forked. rewrite Hu. cbn [mbind option_bind].
  destruct (_mergeBase u) as [b|] eqn:Eb, (_workingCopy u) as [w|] eqn:Ew.
  - destruct (v_work uv) as [m|] eqn:Em; [|done]. exists e. split_and!; [done| |done|done].
    replace (set_view v i uv) with v; [done|]. unfold set_view. destruct v. simpl in *. by rewrite insert_id.
  - destruct (proj1 Hboth) as [? ?]; [by eexists|done].
  - destruct (proj2 Hboth) as [? ?]; [by eexists|done].
  - destruct (v_work uv) as [m|] eqn:Em; [done|]. eexists. split_and!; [done| |done|].
    + apply same_memory; [done| |].
      * split; simpl; try done; apply Hs.
      * simpl. intros p [[= <-]|Hp]; [by left|]. right. exists i, u. auto.
    + intros _. simpl. rewrite lookup_insert_eq. by eexists.
Qed.

Lemma makeDirty_ok e v i uv :
  shows e v -> v_units v !! i = Some uv ->
  exists e', makeDirty e i = Some e' /\ _master e' = _master e /\ shows e' (set_view v i {| uv with v_dirty := true |}).
Proof.
  intros Hs Hv. destruct (shows_view _ _ _ _ Hs Hv) as (u & Hu & [Hd Hb Hw Hboth Hm Hc]). unfold makeDirty. rewrite Hu. cbn [mbind option_bind].
  eexists. split_and!; [done..|]. apply same_memory; [done|by split|]. intros p Hp. right. eauto.
Qed.

Lemma registerChange_ok e v i uv c :
  shows e v -> v_units v !! i = Some uv ->
  exists e', registerChange e i c = Some e' /\ _master e' = _master e /\ shows e' (set_view v i {| uv with v_changes := v_changes uv ++ [c] |}).
Proof.
  intros Hs Hv. destruct (shows_view _ _ _ _ Hs Hv) as (u & Hu & [Hd Hb Hw Hboth Hm Hc]). unfold registerChange. rewrite Hu. cbn [mbind option_bind].
  eexists. split_and!; [done..|]. apply same_memory; [done|split; simpl; congruence|]. intros p Hp. right. eauto.
Qed.

(** Nothing but the unit itself is given up. *)
Lemma drop_ok e v i u uv :
  shows e v -> unit_shows (engine_nodes e) u uv -> (forall p, _mergeBase u = Some p \/ merged_master u = Some p -> published e p) ->
  shows (reclaim (set_unit e i u)) (set_view v i uv).
Proof. intros Hs Hu Hp. apply shows_reclaim. by apply same_memory. Qed.

Lemma abortUnitOfWork_ok e v i uv :
  shows e v -> v_units v !! i = Some uv ->
  exists e', abortUnitOfWork e i = Some (Rollback <$> reverse (v_changes uv), e') /\ _master e' = _master e /\
    shows e' (set_view v i {| uv with v_base := None; v_work := None; v_changes := [] |}).
Proof.
  intros Hs Hv. destruct (shows_view _ _ _ _ Hs Hv) as (u & Hu & [Hd Hb Hw Hboth Hm Hc]). unfold abortUnitOfWork. rewrite Hu. cbn [mbind option_bind].
  unfold abort_changes. cbn. rewrite Hc. eexists. split_and!; [done..|]. apply drop_ok; [done| |].
  - split; simpl; done.
  - simpl. intros p [?|Hp]; [done|]. right. eauto.
Qed.

Lemma abandonSnapshot_ok e v i uv :
  shows e v -> v_units v !! i = Some uv ->
  exists e', abandonSnapshot e i = Some e' /\ _master e' = _master e /\
    shows e' (set_view v i {| uv with v_dirty := false; v_base := None; v_work := None |}).
Proof.
  intros Hs Hv. destruct (shows_view _ _ _ _ Hs Hv) as (u & Hu & [Hd Hb Hw Hboth Hm Hc]). unfold abandonSnapshot. rewrite Hu. cbn [mbind option_bind].
  eexists. split_and!; [done..|]. apply drop_ok; [done| |].
  - split; simpl; done.
  - simpl. intros p [?|Hp]; [done|]. right. eauto.
Qed.

(** ** Commit *)

(** What a dirty unit merges. *)
Lemma commit_merge_dirty e i u b wc :
  units e !! i = Some u -> _dirty u = true -> _mergeBase u = Some b -> _workingCopy u = Some wc ->
  let e1 := set_unit e i {| u with merged_master := Some (_master e) |} in
  commit_merge e i =
  s ← working_store e1 i;
  o ← RadixStore_merge3 s (ptr_root b) (ptr_root (_master e));
  match o with
  | Returns s => e ← put_working e1 i s; Some (None, e)
  | merge_conflict_exception s =>
      e ← put_working e1 i s; u ← units e !! i;
      Some (Some WriteConflictException, reclaim (set_unit e i {| u with merged_master := None |}))
  end.
Proof. intros Hu Hd Hb Hw. unfold commit_merge. rewrite Hu. destruct u. simpl in *. by subst. Qed.

Lemma commit_merge_ok e v i u uv b wc mb m :
  shows e v -> units e !! i = Some u -> v_units v !! i = Some uv -> v_dirty uv = true ->
  _mergeBase u = Some b -> _workingCopy u = Some wc -> v_base uv = Some mb -> v_work uv = Some m ->
  apart (engine_nodes e) wc (ptr_root b) (ptr_root (_master e)) -> fits_int m -> fits_int (three_way m mb (v_master v)) ->
  exists e', commit_merge e i = Some (None, e') /\ _master e' = _master e /\
    shows e' (set_view v i {| uv with v_work := Some (three_way m mb (v_master v)); v_merged := Some (v_master v) |}) /\
    exists u', units e' !! i = Some u' /\ merged_master u' = Some (_master e).
Proof.
  intros Hs Hu Hv Hdirty Eb Ew Ebase Ework Hap Hf Hf'. destruct (shows_unit _ _ _ _ Hs Hu) as (uv' & Hv' & Hus). simplify_eq.
  pose proof Hus as [Hd Hb Hw Hboth Hm Hc]. rewrite (commit_merge_dirty e i u b wc Hu) by congruence. cbn zeta.
  set (u1 := {| u with merged_master := Some (_master e) |}). set (uv1 := {| uv with v_merged := Some (v_master v) |}). set (e1 := set_unit e i u1).
  assert (Hs1 : shows e1 (set_view v i uv1)).
  { apply same_memory; [done| |].
    - split; simpl; try done. apply Hs.
    - simpl. intros p [Hp|[= <-]]; [|by left]. right. exists i, u. auto. }
  destruct (working_store_ok e1 (set_view v i uv1) i uv1 m Hs1) as (u2 & wc2 & Hu2 & Hus2 & Hwc2 & Hst & Hwf & Hrep); [by simpl; rewrite lookup_insert_eq|done|].
  assert (u2 = u1) as -> by (simpl in Hu2; rewrite lookup_insert_eq in Hu2; congruence).
  assert (wc2 = wc) as -> by (simpl in Hwc2; congruence).
  rewrite Hst. cbn [mbind option_bind]. rewrite Eb, Ebase in Hb. simpl in Hb. pose proof (sh_master _ _ Hs) as Hmaster.
  destruct (holds_alive _ _ _ Hb) as [B EB]. destruct (holds_alive _ _ _ Hmaster) as [O EO].
  destruct (fmap_Some_1 _ _ _ (rep_root _ _ _ Hrep)) as (C & EC & _).
  destruct (merge3_ok Hwf Hrep (rep_trie _ _ _ Hb) (rep_trie _ _ _ Hmaster) (rep_keys _ _ _ Hmaster) EC EB EO) as (s' & Hrun & Hch);
    [intros c; exact (Hap _ _ _ c EC EB EO)|done..|].
  cbn [_root] in Hrun. cbn [mbind option_bind]. rewrite Hrun. cbn [mbind option_bind].
  destruct (put_working_ok e1 (set_view v i uv1) i u1 uv1 wc s' (three_way m mb (v_master v)) Hs1) as (e' & Hput & Hmaster' & Hunits & Hs');
    [done|by simpl; rewrite lookup_insert_eq|done|done|done|].
  rewrite Hput. cbn [mbind option_bind]. exists e'. split_and!; [done|done| |].
  - unfold set_view in Hs' |- *. simpl in Hs' |- *. by rewrite insert_insert_eq in Hs'.
  - rewrite Hunits, lookup_insert_eq. by eexists.
Qed.

(** A unit that has written nothing. *)
Lemma commit_clean_ok e v i uv :
  shows e v -> v_units v !! i = Some uv -> v_dirty uv = false \/ v_work uv = None ->
  exists e', commit_merge e i = Some (Some (Committed (Commit <$> v_changes uv)), e') /\ _master e' = _master e /\
    shows e' (set_view v i {| uv with v_changes := [] |}).
Proof.
  intros Hs Hv Hclean. destruct (shows_view _ _ _ _ Hs Hv) as (u & Hu & [Hd Hb Hw Hboth Hm Hc]). unfold commit_merge. rewrite Hu. cbn [mbind option_bind].
  assert (E : _dirty u && bool_decide (is_Some (_workingCopy u)) = false).
  { destruct Hclean as [Hclean|Hclean]; [by rewrite <- Hd, Hclean|]. rewrite Hclean in Hw. destruct (_workingCopy u); [done|]. apply andb_false_r. }
  rewrite E. unfold commit_changes. rewrite Hc. eexists. split_and!; [done..|]. apply same_memory; [done|by split|].
  simpl. intros p Hp. right. eauto.
Qed.

Lemma holds_unique H l m m' : holds H l m -> holds H l m' -> m = m'.
Proof. intros [Ht _ _] [Ht' _ _]. apply map_eq. exact (trie_same _ _ _ _ _ _ [] Ht Ht'). Qed.

(** The working copy becomes the master. *)
Lemma setMaster_ok e v i u uv wc m :
  shows e v -> units e !! i = Some u -> unit_shows (engine_nodes e) u uv -> _workingCopy u = Some wc -> v_work uv = Some m ->
  shows (set_unit (setMaster_inlock e wc) i (mkUnit false None None [] None))
    (mkEngineView m (<[i := mkView false None None None []]> (v_units v))).
Proof.
  intros Hs Hu [Hd Hb Hw Hboth Hm Hc] Ew Em. rewrite Ew, Em in Hw. simpl in Hw.
  assert (Hpub : forall p, published (set_unit (setMaster_inlock e wc) i (mkUnit false None None [] None)) p ->
                   p = mkPtr (next_object e) wc \/ published e p).
  { intros p [->|(j & w & Hj & Hp)]; [by left|]. right. simpl in Hj. destruct (decide (j = i)) as [->|Hne].
    - rewrite lookup_insert_eq in Hj. simplify_eq. simpl in Hp. by destruct Hp.
    - rewrite lookup_insert_ne in Hj by done. right. eauto. }
  split; simpl.
  - apply Hs.
  - done.
  - intros j. destruct (decide (j = i)) as [->|Hne]; [|rewrite !lookup_insert_ne by done; apply Hs].
    rewrite !lookup_insert_eq. split; simpl; done.
  - intros p [->|Hp]%Hpub; simpl; [lia|]. apply (sh_objects _ _ Hs) in Hp. lia.
  - intros p q [->|Hp]%Hpub [->|Hq]%Hpub Heq; simpl in Heq; [done| | |].
    + apply (sh_objects _ _ Hs) in Hq. lia.
    + apply (sh_objects _ _ Hs) in Hp. lia.
    + by apply (sh_same _ _ Hs).
Qed.

(** Publishing: only on top of the master that was merged. *)
Lemma commit_publish_ok e v i u uv p m :
  shows e v -> units e !! i = Some u -> v_units v !! i = Some uv -> merged_master u = Some p -> v_work uv = Some m ->
  exists e' r, commit_publish e i = Some (r, e') /\
    if bool_decide (p = _master e)
    then r = Committed (Commit <$> v_changes uv) /\ v_merged uv = Some (v_master v) /\
         shows e' (mkEngineView m (<[i := mkView false None None None []]> (v_units v)))
    else r = TryAgain /\ _master e' = _master e /\ shows e' (set_view v i {| uv with v_merged := None |}).
Proof.
  intros Hs Hu Hv Hp Em. destruct (shows_unit _ _ _ _ Hs Hu) as (uv' & Hv' & Hus). simplify_eq. pose proof Hus as [Hd Hb Hw Hboth Hm Hc].
  rewrite Hp in Hm. rewrite Em in Hw. destruct (_workingCopy u) as [wc|] eqn:Ew; [|done]. simpl in Hw, Hm.
  destruct (v_merged uv) as [mm|] eqn:Emm; [|done]. unfold commit_publish. rewrite Hu. cbn [mbind option_bind]. rewrite Hp, Ew. cbn [mbind option_bind].
  assert (Hpub : published e p) by (right; exists i, u; auto). case_bool_decide as Hobj; case_bool_decide as Hpm.
  - eexists _, _. split; [done|]. subst p. split_and!; [by rewrite Hc| |].
    + f_equal. eapply holds_unique; [done|apply Hs].
    + apply shows_reclaim. exact (setMaster_ok e v i u uv wc m Hs Hu Hus Ew Em).
  - destruct Hpm. symmetry. apply (sh_same _ _ Hs); [by left|done|done].
  - by subst p.
  - eexists _, _. split; [done|]. split_and!; [done..|]. apply drop_ok; [done| |].
    + split; simpl; try done. by rewrite Em.
    + simpl. intros q [Hq|?]; [|done]. right. eauto.
Qed.

(** A commit that nobody comes before publishes the working copy as it is. *)
Lemma commit_alone_ok e v i u uv m :
  shows e v -> units e !! i = Some u -> v_units v !! i = Some uv -> v_dirty uv = true -> _mergeBase u = Some (_master e) ->
  v_work uv = Some m -> fits_int m ->
  exists e', commitUnitOfWork e i = Some (Committed (Commit <$> v_changes uv), e') /\
    shows e' (mkEngineView m (<[i := mkView false None None None []]> (v_units v))).
Proof.
  intros Hs Hu Hv Hd Hbase Hm Hf. destruct (shows_unit _ _ _ _ Hs Hu) as (uv' & Hv' & Hus). simplify_eq.
  pose proof (us_base _ _ _ Hus) as Hb. rewrite Hbase in Hb. destruct (v_base uv) as [mb|] eqn:Emb; [|done]. simpl in Hb.
  assert (mb = v_master v) as -> by (eapply holds_unique; [done|apply Hs]).
  pose proof (us_work _ _ _ Hus) as Hw. rewrite Hm in Hw. destruct (_workingCopy u) as [wc|] eqn:Ew; [|done].
  destruct (commit_merge_ok e v i u uv (_master e) wc (v_master v) m Hs Hu Hv Hd Hbase Ew Emb Hm) as (e1 & Hrun & Hmaster & Hs1 & u1 & Hu1 & Hp1);
    [intros C B O c _ HB HO; right; congruence|done|by rewrite three_way_same|].
  unfold commitUnitOfWork. rewrite Hrun. cbn [mbind option_bind]. rewrite three_way_same in Hs1.
  pose proof (lookup_insert_eq (v_units v) i {| uv with v_work := Some m; v_merged := Some (v_master v) |}) as Hv1.
  destruct (commit_publish_ok e1 _ i u1 _ (_master e) m Hs1 Hu1 Hv1 Hp1 eq_refl) as (e' & r & Hpub & Hres).
  rewrite Hmaster, bool_decide_eq_true_2 in Hres by done. destruct Hres as (-> & _ & Hs'). exists e'. split; [done|].
  simpl in Hs'. by rewrite insert_insert_eq in Hs'.
Qed.
