(* ===== verification/RecordKey.v ===== *)
(** * The keys of records

    [createKey] and [extractRecordId] of [db/storage/biggie/biggie_record_store.cpp]: the key
    of a record is the [KeyString] (version 1, ascending) of the name of its store and its
    number, so it is the part of [db/storage/key_string.cpp] for a string and a 64-bit integer
    that is modelled here.  Keys are ordered by name and then by number, and the number can
    be read back. *)

From Stdlib Require Import ZArith Lia.
From stdpp Require Import prelude gmap.
From S2P Require Import Prelude RadixNode RadixStore RadixInv RadixOrder.

Open Scope Z_scope.

(** ** Constants *)

Definition kStringLike : Z := 60.

Definition kNumeric : Z := 30.

Definition kNumericNegativeLargeMagnitude : Z := kNumeric + 1.

Definition kNumericNegative8ByteInt : Z := kNumeric + 2.

Definition kNumericNegative1ByteInt : Z := kNumeric + 9.

Definition kNumericZero : Z := kNumeric + 11.

Definition kNumericPositive1ByteInt : Z := kNumeric + 13.

Definition kNumericPositive8ByteInt : Z := kNumeric + 20.

Definition kEnd : Z := 4.

Definition int64_min : Z := - 2 ^ 63.

Definition int64_max : Z := 2 ^ 63 - 1.

(** ** Encoding *)

Definition flip (b : Z) : Z := 255 - b.

(** [_appendBytes]. *)
Definition _appendBytes (bytes : list Z) (invert : bool) : list Z := if invert then flip <$> bytes else bytes.

(** The low [n] bytes, the highest first. *)
Fixpoint big_endian (n : nat) (value : Z) : list Z :=
  match n with
  | O => []
  | S n => (value / 256 ^ Z.of_nat n) mod 256 :: big_endian n value
  end.

Definition countLeadingZeros64 (value : Z) : Z := if value =? 0 then 64 else 63 - Z.log2 value.

(** A NUL in the string is followed by 255; a NUL ends it. *)
Fixpoint _appendStringLike (str : list Z) : list Z :=
  match str with
  | [] => [0]
  | b :: str => if b =? 0 then 0 :: 255 :: _appendStringLike str else b :: _appendStringLike str
  end.

Definition bytesNeeded (value : Z) : nat := Z.to_nat ((64 - countLeadingZeros64 value + 7) / 8).

Definition _appendPreshiftedIntegerPortion (value : Z) (isNegative : bool) : list Z :=
  let n := bytesNeeded value in
  let first := if isNegative then kNumericNegative1ByteInt - (Z.of_nat n - 1) else kNumericPositive1ByteInt + (Z.of_nat n - 1) in
  first :: _appendBytes (big_endian n value) isNegative.

(** [_appendLargeDouble] for [-2 ^ 63], the only number that [_appendInteger] passes to it:
    the bits of the [double] are sign 1, exponent 1023 + 63, fraction 0. *)
Definition _appendLargeDouble_min : list Z :=
  let bits := 2 ^ 63 + (1023 + 63) * 2 ^ 52 in
  let encoded := Z.land (Z.shiftl bits 1 mod 2 ^ 64) (2 ^ 63 - 1) in
  kNumericNegativeLargeMagnitude :: _appendBytes (big_endian 8 encoded) true.

Definition _appendInteger (num : Z) : list Z :=
  if num =? int64_min then _appendLargeDouble_min
  else if num =? 0 then [kNumericZero]
  else _appendPreshiftedIntegerPortion (Z.shiftl (Z.abs num) 1) (num <? 0).

Definition createKey (ident : list Z) (recordId : Z) : list Z :=
  kStringLike :: _appendStringLike ident ++ _appendInteger recordId ++ [kEnd].

(** ** Decoding *)

(** [readCStringWithNuls]: the string, and what follows it; reading past the end fails. *)
Fixpoint readCStringWithNuls (key : list Z) : option (list Z * list Z) :=
  match key with
  | [] => None
  | b :: key =>
      if b =? 0 then
        match key with
        | [] => None
        | c :: key' => if c =? 255 then '(s, rest) ← readCStringWithNuls key'; Some (0 :: s, rest) else Some ([], key)
        end
      else '(s, rest) ← readCStringWithNuls key; Some (b :: s, rest)
  end.

Definition from_big_endian (bytes : list Z) : Z := foldl (fun a b => 256 * a + b) 0 bytes.

(** [toBsonValue] for an integer whose type bits say that it is a 64-bit one. *)
Definition readInteger (key : list Z) : option Z :=
  match key with
  | [] => None
  | ctype :: key =>
      if ctype =? kNumericZero then Some 0
      else if ctype =? kNumericNegativeLargeMagnitude then
        if (length key <? 8)%nat then None
        else
          let encoded := from_big_endian (_appendBytes (take 8 key) true) in
          (* in the range of finite doubles, and equal to -2 ^ 63; else an assertion fails *)
          if negb (Z.testbit encoded 63) && (Z.lor (Z.shiftr encoded 1) (2 ^ 62) =? (1023 + 63) * 2 ^ 52) then Some int64_min else None
      else
        let isNegative := (kNumericNegative8ByteInt <=? ctype) && (ctype <=? kNumericNegative1ByteInt) in
        let isPositive := (kNumericPositive1ByteInt <=? ctype) && (ctype <=? kNumericPositive8ByteInt) in
        if isNegative || isPositive then
          let n := Z.to_nat (if isNegative then kNumericNegative1ByteInt - ctype + 1 else ctype - kNumericPositive1ByteInt + 1) in
          if (length key <? n)%nat then None
          else
            let encoded := from_big_endian (_appendBytes (take n key) isNegative) in
            if Z.odd encoded then None
            else Some (if isNegative then - Z.shiftr encoded 1 else Z.shiftr encoded 1)
        else None
  end.

Definition extractRecordId (keyStr : list Z) : option Z :=
  match keyStr with
  | [] => None
  | ctype :: keyStr => if ctype =? kStringLike then '(_, rest) ← readCStringWithNuls keyStr; readInteger rest else None
  end.

(** ** Bytes *)

Lemma length_big_endian n v : length (big_endian n v) = n.
Proof. induction n; simpl; congruence. Qed.

Lemma big_endian_bytes n v : Forall byte (big_endian n v).
Proof. induction n; simpl; constructor; [apply Z.mod_pos_bound; lia|done]. Qed.

Lemma foldl_big_endian n v a : foldl (fun a b => 256 * a + b) a (big_endian n v) = a * 256 ^ Z.of_nat n + v mod 256 ^ Z.of_nat n.
Proof.
  revert a. induction n as [|n IH]; intros a; cbn [big_endian foldl]; [rewrite Z.mod_1_r; lia|].
  rewrite IH. replace (256 ^ Z.of_nat (S n)) with (256 ^ Z.of_nat n * 256) by (rewrite Nat2Z.inj_succ, Z.pow_succ_r by lia; lia).
  rewrite Z.rem_mul_r by lia. lia.
Qed.

Lemma from_big_endian_ok n v : 0 <= v < 256 ^ Z.of_nat n -> from_big_endian (big_endian n v) = v.
Proof. intros Hv. unfold from_big_endian. rewrite foldl_big_endian, Z.mod_small by done. lia. Qed.

Lemma flip_flip (l : list Z) : flip <$> (flip <$> l) = l.
Proof. rewrite <- list_fmap_compose. rewrite <- (list_fmap_id l) at 2. apply list_fmap_ext. intros i x _. unfold flip. simpl. lia. Qed.

Lemma appendBytes_twice l i : _appendBytes (_appendBytes l i) i = l.
Proof. destruct i; [apply flip_flip|done]. Qed.

Lemma length_appendBytes l i : length (_appendBytes l i) = length l.
Proof. destruct i; [apply length_fmap|done]. Qed.

Lemma big_endian_mod n k v : (n <= k)%nat -> big_endian n (v mod 256 ^ Z.of_nat k) = big_endian n v.
Proof.
  induction n as [|n IH]; intros Hk; [done|]. cbn [big_endian]. rewrite IH by lia. f_equal.
  replace (256 ^ Z.of_nat k) with (256 ^ Z.of_nat n * (256 * 256 ^ Z.of_nat (k - S n)))
    by (rewrite <- Z.pow_succ_r, <- Z.pow_add_r by lia; f_equal; lia).
  rewrite Z.rem_mul_r by lia. rewrite (Z.mul_comm (256 ^ Z.of_nat n)), Z.div_add by lia.
  rewrite (Z.div_small (v mod _)) by (apply Z.mod_pos_bound; lia). rewrite Z.add_0_l.
  rewrite <- Znumtheory.Zmod_div_mod by (lia || apply Z.divide_factor_l). done.
Qed.

(** Numbers of the same width are ordered as their bytes, and inverted bytes the other way round. *)
Lemma big_endian_lt n a b s t :
  0 <= a < b -> b < 256 ^ Z.of_nat n ->
  big_endian n a ++ s ≺ big_endian n b ++ t /\ (flip <$> big_endian n b) ++ s ≺ (flip <$> big_endian n a) ++ t.
Proof.
  revert a b. induction n as [|n IH]; intros a b Hab Hb; [simpl in Hb; lia|].
  cbn [big_endian fmap list_fmap app]. set (P := 256 ^ Z.of_nat n) in *.
  assert (HP : 0 < P) by (unfold P; lia). assert (Hpow : 256 ^ Z.of_nat (S n) = 256 * P) by (unfold P; rewrite Nat2Z.inj_succ, Z.pow_succ_r; lia).
  assert (Ha' : 0 <= a / P < 256) by (split; [apply Z.div_pos; lia|apply Z.div_lt_upper_bound; lia]).
  assert (Hb' : 0 <= b / P < 256) by (split; [apply Z.div_pos; lia|apply Z.div_lt_upper_bound; lia]).
  rewrite !(Z.mod_small (_ / P)) by done. rewrite !string_lt_cons.
  assert (Hle : a / P <= b / P) by (apply Z.div_le_mono; lia). destruct (Z.eq_dec (a / P) (b / P)) as [E|Hne]; [|unfold flip; lia].
  pose proof (Z.div_mod a P) as Da. pose proof (Z.div_mod b P) as Db. pose proof (Z.mod_pos_bound a P HP). pose proof (Z.mod_pos_bound b P HP).
  assert (Hmod : forall v, big_endian n (v mod P) = big_endian n v).
  { intros v. unfold P. apply big_endian_mod. lia. }
  destruct (IH (a mod P) (b mod P)) as [H1 H2]; [nia|lia|]. rewrite !Hmod in H1, H2. rewrite E. auto.
Qed.

(** ** Widths *)

Lemma bytesNeeded_spec v :
  0 < v < 2 ^ 64 -> let n := bytesNeeded v in (1 <= n <= 8)%nat /\ 256 ^ (Z.of_nat n - 1) <= v < 256 ^ Z.of_nat n.
Proof.
  intros Hv. unfold bytesNeeded, countLeadingZeros64. rewrite (proj2 (Z.eqb_neq v 0)) by lia.
  pose proof (Z.log2_spec v) as [H1 H2]; [lia|]. pose proof (Z.log2_nonneg v).
  assert (Hlog : Z.log2 v < 64) by (apply Z.log2_lt_pow2; lia). set (L := Z.log2 v) in *.
  replace (64 - (63 - L) + 7) with (L + 1 * 8) by lia. rewrite Z.div_add by lia.
  pose proof (Z.div_mod L 8) as D. pose proof (Z.mod_pos_bound L 8) as Dm. set (q := L / 8) in *. set (r := L mod 8) in *.
  cbn zeta. rewrite Z2Nat.id by lia. split; [lia|]. replace (q + 1 - 1) with q by lia.
  change 256 with (2 ^ 8). rewrite <- !Z.pow_mul_r by lia. split.
  - etrans; [|exact H1]. apply Z.pow_le_mono_r; lia.
  - eapply Z.lt_le_trans; [exact H2|]. apply Z.pow_le_mono_r; lia.
Qed.

Lemma bytesNeeded_mono a b : 0 < a <= b -> b < 2 ^ 64 -> (bytesNeeded a <= bytesNeeded b)%nat.
Proof.
  intros Ha Hb. destruct (bytesNeeded_spec a) as [Ra [La _]]; [lia|]. destruct (bytesNeeded_spec b) as [Rb [_ Ub]]; [lia|].
  destruct (Nat.le_gt_cases (bytesNeeded a) (bytesNeeded b)) as [?|Hgt]; [done|]. exfalso.
  assert (256 ^ Z.of_nat (bytesNeeded b) <= 256 ^ (Z.of_nat (bytesNeeded a) - 1)) by (apply Z.pow_le_mono_r; lia). lia.
Qed.

Definition magnitude (num : Z) : Z := Z.shiftl (Z.abs num) 1.

Lemma magnitude_eq num : magnitude num = 2 * Z.abs num.
Proof. unfold magnitude. rewrite Z.shiftl_mul_pow2; lia. Qed.

Definition int64 (num : Z) : Prop := int64_min <= num <= int64_max.

Lemma magnitude_range num : int64 num -> num <> int64_min -> num <> 0 -> 0 < magnitude num < 2 ^ 64.
Proof. unfold int64, int64_min, int64_max. rewrite magnitude_eq. lia. Qed.

(** ** The number *)

Lemma appendInteger_nonzero num : num <> int64_min -> num <> 0 -> _appendInteger num = _appendPreshiftedIntegerPortion (magnitude num) (num <? 0).
Proof. intros Hmin H0. unfold _appendInteger. by rewrite (proj2 (Z.eqb_neq _ _) Hmin), (proj2 (Z.eqb_neq _ _) H0). Qed.

(** The first byte of a number that is not the smallest one. *)
Lemma appendInteger_first num :
  int64 num -> num <> int64_min ->
  exists b t, _appendInteger num = b :: t /\ (num < 0 -> 32 <= b <= 39) /\ (num = 0 -> b = 41) /\ (0 < num -> 43 <= b <= 50).
Proof.
  intros Hi Hmin. destruct (Z.eq_dec num 0) as [->|H0]; [by exists 41, []|].
  rewrite appendInteger_nonzero by done. destruct (bytesNeeded_spec _ (magnitude_range num Hi Hmin H0)) as [Hn _].
  unfold _appendPreshiftedIntegerPortion, kNumericNegative1ByteInt, kNumericPositive1ByteInt, kNumeric. eexists _, _. split; [done|].
  destruct (Z.ltb_spec num 0); lia.
Qed.

Lemma appendInteger_lt a b s t : int64 a -> int64 b -> a < b -> _appendInteger a ++ s ≺ _appendInteger b ++ t.
Proof.
  intros Ha Hb Hlt. assert (Hbm : b <> int64_min) by (unfold int64 in Ha; lia).
  destruct (appendInteger_first b Hb Hbm) as (y & tb & Eb & Hb1 & Hb2 & Hb3).
  destruct (Z.eq_dec a int64_min) as [->|Ham].
  { rewrite Eb. apply string_lt_cons. left. unfold kNumericNegativeLargeMagnitude, kNumeric. destruct (Z.lt_total b 0) as [?|[?|?]]; lia. }
  destruct (appendInteger_first a Ha Ham) as (x & ta & Ea & Ha1 & Ha2 & Ha3).
  destruct (Z_lt_dec x y) as [Hxy|Hxy]; [rewrite Ea, Eb; apply string_lt_cons; by left|].
  assert (Hsign : (a < 0 /\ b < 0) \/ (0 < a /\ 0 < b)) by (destruct (Z.lt_total a 0) as [?|[?|?]], (Z.lt_total b 0) as [?|[?|?]]; lia).
  rewrite !appendInteger_nonzero in * by lia. unfold _appendPreshiftedIntegerPortion in *. simplify_eq.
  pose proof (magnitude_range a Ha Ham) as Ra. pose proof (magnitude_range b Hb Hbm) as Rb. rewrite !magnitude_eq in *.
  destruct Hsign as [[Na Nb]|[Pa Pb]].
  - rewrite (proj2 (Z.ltb_lt a 0)), (proj2 (Z.ltb_lt b 0)) in * by done.
    pose proof (bytesNeeded_mono (2 * Z.abs b) (2 * Z.abs a)) as Hmono. assert (E : bytesNeeded (2 * Z.abs b) = bytesNeeded (2 * Z.abs a)) by lia.
    rewrite E. simpl. apply string_lt_cons. right. split; [done|].
    destruct (bytesNeeded_spec (2 * Z.abs a)) as [_ [_ Hu]]; [lia|]. apply (big_endian_lt _ (2 * Z.abs b) (2 * Z.abs a)); lia.
  - rewrite (proj2 (Z.ltb_ge a 0)), (proj2 (Z.ltb_ge b 0)) in * by lia.
    pose proof (bytesNeeded_mono (2 * Z.abs a) (2 * Z.abs b)) as Hmono. assert (E : bytesNeeded (2 * Z.abs a) = bytesNeeded (2 * Z.abs b)) by lia.
    rewrite E. simpl. apply string_lt_cons. right. split; [done|].
    destruct (bytesNeeded_spec (2 * Z.abs b)) as [_ [_ Hu]]; [lia|]. apply (big_endian_lt _ (2 * Z.abs a) (2 * Z.abs b)); lia.
Qed.

Lemma readInteger_ok num rest : int64 num -> readInteger (_appendInteger num ++ rest) = Some num.
Proof.
  intros Hi. destruct (Z.eq_dec num int64_min) as [->|Hmin]; [done|]. destruct (Z.eq_dec num 0) as [->|H0]; [done|].
  rewrite appendInteger_nonzero by done. destruct (bytesNeeded_spec _ (magnitude_range num Hi Hmin H0)) as [Hn Hr].
  unfold _appendPreshiftedIntegerPortion. set (n := bytesNeeded (magnitude num)) in *. cbn [app readInteger].
  assert (Hlen : length (_appendBytes (big_endian n (magnitude num)) (num <? 0)) = n) by by rewrite length_appendBytes, length_big_endian.
  assert (Hval : forall b, from_big_endian (_appendBytes (_appendBytes (big_endian n (magnitude num)) b) b) = magnitude num).
  { intros b. rewrite appendBytes_twice, from_big_endian_ok; [done|]. destruct (magnitude_range num Hi Hmin H0). lia. }
  assert (Hodd : Z.odd (magnitude num) = false) by (rewrite magnitude_eq, Z.odd_mul; done).
  assert (Hhalf : Z.shiftr (magnitude num) 1 = Z.abs num) by (rewrite magnitude_eq, Z.shiftr_div_pow2, Z.mul_comm, Z.div_mul by lia; done).
  assert (Htake : forall k, take n (_appendBytes (big_endian n (magnitude num)) (num <? 0) ++ k) = _appendBytes (big_endian n (magnitude num)) (num <? 0))
    by (intros k; rewrite <- Hlen at 1; apply take_app_length).
  assert (Hshort : forall k, Nat.ltb (length (_appendBytes (big_endian n (magnitude num)) (num <? 0) ++ k)) n = false)
    by (intros k; rewrite length_app, Hlen; apply Nat.ltb_ge; lia).
  destruct (Z.ltb_spec num 0) as [Hneg|Hpos];
    unfold kNumericNegative8ByteInt, kNumericNegative1ByteInt, kNumericPositive1ByteInt, kNumericPositive8ByteInt, kNumericZero, kNumericNegativeLargeMagnitude, kNumeric.
  - rewrite !(proj2 (Z.eqb_neq _ _)) by lia. rewrite !(proj2 (Z.leb_le _ _)) by lia. cbn [andb orb].
    replace (Z.to_nat (30 + 9 - (30 + 9 - (Z.of_nat n - 1)) + 1)) with n by lia. rewrite Hshort, Htake, Hval, Hodd, Hhalf. f_equal. lia.
  - rewrite !(proj2 (Z.eqb_neq _ _)) by lia. rewrite (proj2 (Z.leb_gt (30 + 13 + (Z.of_nat n - 1)) (30 + 9))) by lia.
    rewrite andb_false_r, !(proj2 (Z.leb_le _ _)) by lia. cbn [andb orb].
    replace (Z.to_nat (30 + 13 + (Z.of_nat n - 1) - (30 + 13) + 1)) with n by lia. rewrite Hshort, Htake, Hval, Hodd, Hhalf. f_equal. lia.
Qed.

(** ** The name *)

Lemma readCString_ok str b rest :
  b <> 255 -> readCStringWithNuls (_appendStringLike str ++ b :: rest) = Some (str, b :: rest).
Proof.
  intros Hb. induction str as [|c str IH]; cbn [_appendStringLike].
  - cbn. by rewrite (proj2 (Z.eqb_neq b 255) Hb).
  - destruct (Z.eqb_spec c 0) as [->|Hc]; cbn [app readCStringWithNuls].
    + rewrite !Z.eqb_refl, IH. done.
    + rewrite (proj2 (Z.eqb_neq c 0) Hc), IH. done.
Qed.

Lemma appendInteger_head num : int64 num -> exists b t, _appendInteger num = b :: t /\ 31 <= b <= 50.
Proof.
  intros Hi. destruct (Z.eq_dec num int64_min) as [->|Hmin]; [by exists 31, (tl _appendLargeDouble_min)|].
  destruct (appendInteger_first num Hi Hmin) as (b & t & E & H1 & H2 & H3). exists b, t. split; [done|].
  destruct (Z.lt_total num 0) as [?|[?|?]]; lia.
Qed.

(** What follows a name starts with a type byte. *)
Definition follows (s : list Z) : Prop := exists c s', s = c :: s' /\ 0 < c < 255.

(** Names that differ do so before the end of either: what follows them does not matter. *)
Lemma appendStringLike_lt a b :
  Forall byte a -> Forall byte b -> a <> b ->
  (forall s t, follows s -> follows t -> _appendStringLike a ++ s ≺ _appendStringLike b ++ t) \/
  (forall s t, follows s -> follows t -> _appendStringLike b ++ t ≺ _appendStringLike a ++ s).
Proof.
  revert b. induction a as [|c a IH]; intros [|d b] Ha Hb Hne; [done| | |].
  - left. intros s t (x & s' & -> & Hx) _. cbn [_appendStringLike]. apply Forall_inv in Hb as [? ?].
    destruct (Z.eqb_spec d 0) as [->|Hd]; cbn [app]; rewrite !string_lt_cons; lia.
  - right. intros s t _ (x & t' & -> & Hx). cbn [_appendStringLike]. apply Forall_inv in Ha as [? ?].
    destruct (Z.eqb_spec c 0) as [->|Hc]; cbn [app]; rewrite !string_lt_cons; lia.
  - apply Forall_cons in Ha as [Hc Ha], Hb as [Hd Hb]. unfold byte in *. cbn [_appendStringLike]. destruct (Z.lt_total c d) as [Hlt|[->|Hgt]].
    + left. intros s t _ _. destruct (Z.eqb_spec c 0), (Z.eqb_spec d 0); cbn [app]; rewrite string_lt_cons; lia.
    + destruct (IH b Ha Hb) as [Hl|Hr]; [congruence|left|right]; intros s t Hs Ht; destruct (Z.eqb_spec d 0); cbn [app]; rewrite !string_lt_cons; auto 10.
    + right. intros s t _ _. destruct (Z.eqb_spec c 0), (Z.eqb_spec d 0); cbn [app]; rewrite string_lt_cons; lia.
Qed.

(** ** Keys *)

Lemma appendInteger_follows num s : int64 num -> follows (_appendInteger num ++ s).
Proof. intros Hi. destruct (appendInteger_head num Hi) as (b & t & -> & Hb). exists b, (t ++ s). split; [done|lia]. Qed.

Lemma extract_create ident id : int64 id -> extractRecordId (createKey ident id) = Some id.
Proof.
  intros Hi. unfold extractRecordId, createKey. rewrite Z.eqb_refl. destruct (appendInteger_head id Hi) as (b & t & E & Hb).
  rewrite E. cbn [app]. rewrite readCString_ok by lia. cbn [mbind option_bind].
  change (b :: t ++ [kEnd]) with ((b :: t) ++ [kEnd]). rewrite <- E. by apply readInteger_ok.
Qed.

Lemma createKey_lt ident a b : int64 a -> int64 b -> createKey ident a ≺ createKey ident b <-> a < b.
Proof.
  intros Ha Hb. unfold createKey. rewrite string_lt_cons. split.
  - intros [?|[_ Hlt]]; [lia|]. apply string_lt_app in Hlt. destruct (Z.lt_total a b) as [?|[->|?]]; [done|by apply string_lt_irrefl in Hlt|].
    destruct (string_lt_asym _ _ Hlt). by apply appendInteger_lt.
  - intros Hlt. right. split; [done|]. apply string_lt_app. by apply appendInteger_lt.
Qed.

Lemma createKey_inj ident a b : int64 a -> int64 b -> createKey ident a = createKey ident b -> a = b.
Proof. intros Ha Hb E. pose proof (extract_create ident a Ha) as E1. rewrite E, extract_create in E1 by done. congruence. Qed.

(** The keys of another store lie all on the same side. *)
Lemma createKey_other ident ident' :
  Forall byte ident -> Forall byte ident' -> ident <> ident' ->
  (forall a b, int64 a -> int64 b -> createKey ident a ≺ createKey ident' b) \/
  (forall a b, int64 a -> int64 b -> createKey ident' b ≺ createKey ident a).
Proof.
  intros Hi Hi' Hne. destruct (appendStringLike_lt ident ident' Hi Hi' Hne) as [H|H]; [left|right]; intros a b Ha Hb; unfold createKey;
    rewrite string_lt_cons; right; (split; [done|]); apply H; by apply appendInteger_follows.
Qed.

Lemma createKey_bytes ident id : Forall byte ident -> int64 id -> Forall byte (createKey ident id).
Proof.
  intros Hident Hi. unfold createKey. constructor; [done|]. apply Forall_app. split; [|apply Forall_app; split; [|by repeat constructor]].
  - induction Hident as [|c ident Hc _ IH]; cbn [_appendStringLike]; [by repeat constructor|].
    destruct (Z.eqb_spec c 0); [do 2 (apply Forall_cons_2; [unfold byte; lia|])|apply Forall_cons_2; [done|]]; done.
  - assert (Hb : forall n v b, Forall byte (_appendBytes (big_endian n v) b)).
    { intros n v b. pose proof (big_endian_bytes n v) as Hv. destruct b; [|done]. simpl. apply Forall_fmap. eapply Forall_impl; [done|].
      intros x Hx. unfold compose, flip, byte in *. lia. }
    destruct (Z.eq_dec id int64_min) as [->|Hmin]; [constructor; [done|apply Hb]|]. destruct (Z.eq_dec id 0) as [->|H0]; [by repeat constructor|].
    destruct (appendInteger_head id Hi) as (x & t & E & Hx). rewrite appendInteger_nonzero in * by done.
    unfold _appendPreshiftedIntegerPortion in *. constructor; [|apply Hb]. injection E as -> _. unfold byte. lia.
Qed.
