(* ===== verification/BiggieRecords.v ===== *)
(** * The record store of the biggie engine

    [RecordStore] of [db/storage/biggie/biggie_record_store.cpp] with its forward and reverse
    cursors.  Every operation works on the working copy of the recovery unit [i] of the
    operation, which it forks when there is none.  [None] is a failed invariant or undefined
    behaviour. *)

From Stdlib Require Import ZArith Lia.
From stdpp Require Import prelude gmap.
From S2P Require Import Prelude RadixNode RadixStore RadixIterator RadixOrder RecordKey BiggieEngine.

Open Scope Z_scope.

Record RecordStore := mkRecords {
  _ident : list Z;
  _prefix : list Z;
  _postfix : list Z;
  _highest_record_id : Z;
}.

Definition RecordStore_new (ident : list Z) : RecordStore :=
  mkRecords ident (createKey ident int64_min) (createKey ident int64_max) 1.

(** A record: its number and its bytes. *)
Abbreviation record := (Z * list Z)%type (only parsing).

(** [getRecoveryUnitBranch_forking]. *)
Definition getRecoveryUnitBranch_forking (e : KVEngine) (i : nat) : option (RadixStore * KVEngine) :=
  '(_, e) ← forkIfNeeded e i; s ← working_store e i; Some (s, e).

(** [nextRecordId]: the counter is a signed 64-bit integer. *)
Definition nextRecordId (rs : RecordStore) : Z * RecordStore :=
  (_highest_record_id rs,
   {| rs with _highest_record_id := (_highest_record_id rs + 1 + 2 ^ 63) mod 2 ^ 64 - 2 ^ 63 |}).

(** ** Reading *)

Definition findRecord (rs : RecordStore) (e : KVEngine) (i : nat) (loc : Z) : option (option (list Z) * KVEngine) :=
  '(workingCopy, e) ← getRecoveryUnitBranch_forking e i;
  it ← RadixStore_find workingCopy (createKey (_ident rs) loc);
  if bool_decide (it_current it = None) then Some (None, e)
  else d ← deref (nodes workingCopy) it; Some (Some d.2, e).

(** The invariant of [dataFor]: the record is there. *)
Definition dataFor (rs : RecordStore) (e : KVEngine) (i : nat) (loc : Z) : option (list Z * KVEngine) :=
  '(rd, e) ← findRecord rs e i loc; rd ← rd; Some (rd, e).

(** The entries from [it] up to [last]. *)
Fixpoint entries_until (fuel : nat) (H : gmap positive Node) (it last : iterator) : option (list (list Z * list Z)) :=
  match fuel with
  | O => None
  | S fuel =>
      if iter_eq it last then Some []
      else d ← deref H it; it ← _findNext H it; l ← entries_until fuel H it last; Some (d :: l)
  end.

Definition own_entries (rs : RecordStore) (s : RadixStore) : option (list (list Z * list Z)) :=
  it ← lower_bound s (_prefix rs);
  last ← upper_bound s (_postfix rs);
  entries_until (S (size (nodes s))) (nodes s) it last.

Definition dataSize (rs : RecordStore) (e : KVEngine) (i : nat) : option (Z * KVEngine) :=
  '(str, e) ← getRecoveryUnitBranch_forking e i;
  l ← own_entries rs str;
  Some (foldl (fun totalSize d => size_t (totalSize + string_size d.2)) 0 l, e).

Definition numRecords (rs : RecordStore) (e : KVEngine) (i : nat) : option (Z * KVEngine) :=
  '(str, e) ← getRecoveryUnitBranch_forking e i;
  it ← lower_bound str (_prefix rs);
  last ← upper_bound str (_postfix rs);
  n ← RadixStore_distance str it last;
  Some (n, e).

(** ** Writing *)

Definition deleteRecord (rs : RecordStore) (e : KVEngine) (i : nat) (dl : Z) : option KVEngine :=
  '(_, e) ← forkIfNeeded e i;
  '(numElementsRemoved, e) ← on_working_copy e i (fun s => RadixStore_erase s (createKey (_ident rs) dl));
  if numElementsRemoved =? 1 then makeDirty e i else None.

(** The result of [insert] is not looked at. *)
Definition insertRecord (rs : RecordStore) (e : KVEngine) (i : nat) (data : list Z) : option (Z * RecordStore * KVEngine) :=
  let '(thisRecordId, rs) := nextRecordId rs in
  '(_, e) ← forkIfNeeded e i;
  '(_, e) ← on_working_copy e i (fun s => RadixStore_insert s (createKey (_ident rs) thisRecordId, data));
  e ← makeDirty e i;
  Some (thisRecordId, rs, e).

Fixpoint insert_documents (rs : RecordStore) (e : KVEngine) (i : nat) (docs : list (list Z)) :
    option (list Z * RecordStore * KVEngine) :=
  match docs with
  | [] => Some ([], rs, e)
  | doc :: docs =>
      let '(thisRecordId, rs) := nextRecordId rs in
      '(_, e) ← on_working_copy e i (fun s => RadixStore_insert s (createKey (_ident rs) thisRecordId, doc));
      '(ids, rs, e) ← insert_documents rs e i docs;
      Some (thisRecordId :: ids, rs, e)
  end.

Definition insertRecordsWithDocWriter (rs : RecordStore) (e : KVEngine) (i : nat) (docs : list (list Z)) :
    option (list Z * RecordStore * KVEngine) :=
  '(_, e) ← forkIfNeeded e i;
  '(idsOut, rs, e) ← insert_documents rs e i docs;
  e ← makeDirty e i;
  Some (idsOut, rs, e).

Definition updateRecord (rs : RecordStore) (e : KVEngine) (i : nat) (oldLocation : Z) (data : list Z) : option KVEngine :=
  '(workingCopy, e) ← getRecoveryUnitBranch_forking e i;
  let key := createKey (_ident rs) oldLocation in
  it ← RadixStore_find workingCopy key;
  if bool_decide (it_current it = None) then None
  else
    '(_, e) ← on_working_copy e i (fun s => RadixStore_update s (key, data));
    makeDirty e i.

Fixpoint erase_all (e : KVEngine) (i : nat) (toDelete : list (list Z)) : option (Z * KVEngine) :=
  match toDelete with
  | [] => Some (0, e)
  | key :: toDelete =>
      '(n, e) ← on_working_copy e i (fun s => RadixStore_erase s key);
      '(numErased, e) ← erase_all e i toDelete;
      Some (n + numErased, e)
  end.

Definition truncate (rs : RecordStore) (e : KVEngine) (i : nat) : option KVEngine :=
  '(str, e) ← getRecoveryUnitBranch_forking e i;
  l ← own_entries rs str;
  let toDelete := l.*1 in
  if bool_decide (toDelete = []) then Some e
  else
    '(numErased, e) ← erase_all e i toDelete;
    if numErased =? Z.of_nat (length toDelete) then makeDirty e i else None.

(** ** Cursors

    [it] is [None] before the first positioning; the root of an iterator is the root of the
    working copy at that time.  [s] is the working copy that the method has fetched. *)

Record Cursor := mkCursor {
  it : option iterator;
  _savedPosition : option (list Z);
  _needFirstSeek : bool;
  _lastMoveWasRestore : bool;
}.

Definition Cursor_new : Cursor := mkCursor None None true false.

Definition at_end (c : Cursor) : bool := bool_decide (it c ≫= it_current = None).

Definition inPrefix (rs : RecordStore) (key_string : list Z) : bool :=
  string_ltb (_prefix rs) key_string && string_ltb key_string (_postfix rs).

(** The record at a position that is not the end, and the key that is kept for [restore]. *)
Definition current_record (rs : RecordStore) (s : RadixStore) (c : Cursor) : option (option record * Cursor) :=
  if at_end c then Some (None, c)
  else
    position ← it c;
    d ← deref (nodes s) position;
    if inPrefix rs d.1 then
      id ← extractRecordId d.1;
      Some (Some (id, d.2), {| c with _savedPosition := Some d.1 |})
    else Some (None, c).

Definition Cursor_next (rs : RecordStore) (s : RadixStore) (c : Cursor) : option (option record * Cursor) :=
  position ← (if _needFirstSeek c then it ← lower_bound s (_prefix rs); Some (Some it)
              else if negb (at_end c) && negb (_lastMoveWasRestore c) then
                position ← it c; next ← _findNext (nodes s) position; Some (Some next)
              else Some (it c));
  current_record rs s (mkCursor position None false false).

(** An unsuccessful search leaves [_needFirstSeek] as it was. *)
Definition Cursor_seekExact (rs : RecordStore) (s : RadixStore) (c : Cursor) (id : Z) : option (option record * Cursor) :=
  position ← RadixStore_find s (createKey (_ident rs) id);
  let c := mkCursor (Some position) None (_needFirstSeek c) false in
  if at_end c then Some (None, c)
  else
    d ← deref (nodes s) position;
    if negb (inPrefix rs d.1) then Some (None, c)
    else Some (Some (id, d.2), mkCursor (Some position) (Some d.1) false false).

(** Both [restore]s: [find] positions at the saved key. *)
Definition restore_with (find : RadixStore -> list Z -> option iterator) (s : RadixStore) (c : Cursor) : option Cursor :=
  match _savedPosition c with
  | None => Some {| c with it := Some (RadixStore_end s); _lastMoveWasRestore := true |}
  | Some saved =>
      position ← find s saved;
      moved ← (if bool_decide (it_current position = None) then Some true
               else d ← deref (nodes s) position; Some (negb (bool_decide (d.1 = saved))));
      Some {| c with it := Some position; _lastMoveWasRestore := moved |}
  end.

Definition Cursor_restore (s : RadixStore) (c : Cursor) : option Cursor := restore_with lower_bound s c.

(** [const_reverse_iterator (upper_bound (key))]. *)
Definition reverse_upper_bound (s : RadixStore) (key : list Z) : option iterator :=
  it ← upper_bound s key; reverse_radix_iterator (nodes s) it.

Definition ReverseCursor_next (rs : RecordStore) (s : RadixStore) (c : Cursor) : option (option record * Cursor) :=
  position ← (if _needFirstSeek c then it ← reverse_upper_bound s (_postfix rs); Some (Some it)
              else if negb (at_end c) && negb (_lastMoveWasRestore c) then
                position ← it c; next ← _findNextReverse (nodes s) position; Some (Some next)
              else Some (it c));
  current_record rs s (mkCursor position None false false).

(** [_lastMoveWasRestore] stays as it was. *)
Definition ReverseCursor_seekExact (rs : RecordStore) (s : RadixStore) (c : Cursor) (id : Z) : option (option record * Cursor) :=
  canFind ← RadixStore_find s (createKey (_ident rs) id);
  let missing := Some (None, mkCursor (Some (RadixStore_end s)) None false (_lastMoveWasRestore c)) in
  if bool_decide (it_current canFind = None) then missing
  else
    d ← deref (nodes s) canFind;
    if negb (inPrefix rs d.1) then missing
    else
      next ← _findNext (nodes s) canFind;
      position ← reverse_radix_iterator (nodes s) next;
      d ← deref (nodes s) position;
      Some (Some (id, d.2), mkCursor (Some position) (Some d.1) false (_lastMoveWasRestore c)).

Definition ReverseCursor_restore (s : RadixStore) (c : Cursor) : option Cursor := restore_with reverse_upper_bound s c.

(** The methods of the cursors: they work on the branch of the recovery unit of the operation. *)
Definition on_branch {A} (e : KVEngine) (i : nat) (f : RadixStore -> option A) : option (A * KVEngine) :=
  '(workingCopy, e) ← getRecoveryUnitBranch_forking e i; a ← f workingCopy; Some (a, e).

Definition cursor_next (rs : RecordStore) (e : KVEngine) (i : nat) (c : Cursor) : option (option record * Cursor * KVEngine) :=
  on_branch e i (fun s => Cursor_next rs s c).

Definition cursor_seekExact (rs : RecordStore) (e : KVEngine) (i : nat) (c : Cursor) (id : Z) : option (option record * Cursor * KVEngine) :=
  on_branch e i (fun s => Cursor_seekExact rs s c id).

Definition cursor_restore (e : KVEngine) (i : nat) (c : Cursor) : option (Cursor * KVEngine) := on_branch e i (fun s => Cursor_restore s c).

Definition reverse_cursor_next (rs : RecordStore) (e : KVEngine) (i : nat) (c : Cursor) : option (option record * Cursor * KVEngine) :=
  on_branch e i (fun s => ReverseCursor_next rs s c).

Definition reverse_cursor_seekExact (rs : RecordStore) (e : KVEngine) (i : nat) (c : Cursor) (id : Z) :
    option (option record * Cursor * KVEngine) :=
  on_branch e i (fun s => ReverseCursor_seekExact rs s c id).

Definition reverse_cursor_restore (e : KVEngine) (i : nat) (c : Cursor) : option (Cursor * KVEngine) :=
  on_branch e i (fun s => ReverseCursor_restore s c).
