(* ===== verification/RecordRange.v ===== *)
(** * The keys of one record store

    The keys of a record store lie between the keys of the smallest and of the largest number,
    and the keys of other stores do not.  The bounds of the radix store find the ends of this
    range, because no stored key shares a byte 255 with them. *)

From Stdlib Require Import ZArith Lia.
From stdpp Require Import prelude gmap.
From S2P Require Import Prelude RadixNode RadixStore RadixIterator RadixInv RadixLookup RadixOrder RadixIteration.
From S2P Require Import RadixWalk RadixBounds RecordKey BiggieEngine BiggieRecords.

Open Scope Z_scope.

(** Numbers as [nextRecordId] hands them out: below [2 ^ 55] the keys have at most seven bytes
    for the number. *)
Definition id_ok (id : Z) : Prop := 0 < id < 2 ^ 55.

Lemma id_ok_int64 id : id_ok id -> int64 id.
Proof. unfold id_ok, int64, int64_min, int64_max. lia. Qed.

Definition name_ok (ident : list Z) : Prop := Forall byte ident /\ 0 ∉ ident /\ 255 ∉ ident.

(** All keys of the map are keys of records. *)
Definition record_keys (m : contents) : Prop :=
  forall k, is_Some (m !! k) -> exists ident id, k = createKey ident id /\ name_ok ident /\ id_ok id.

Definition in_range (ident k : list Z) : Prop := createKey ident int64_min ≺ k /\ k ≺ createKey ident int64_max.

#[export] Instance in_range_dec ident k : Decision (in_range ident k).
Proof. unfold in_range. apply _. Defined.

Lemma int64_min_ok : int64 int64_min.
Proof. done. Qed.

Lemma int64_max_ok : int64 int64_max.
Proof. done. Qed.

Lemma own_in_range ident id : id_ok id -> in_range ident (createKey ident id).
Proof.
  intros Hid. pose proof (id_ok_int64 _ Hid) as Hi. unfold id_ok in Hid. split; apply createKey_lt; try done; unfold int64_min, int64_max; lia.
Qed.

Lemma in_range_own ident ident' id : name_ok ident -> name_ok ident' -> id_ok id -> in_range ident (createKey ident' id) -> ident' = ident.
Proof.
  intros [Hi _] [Hi' _] Hid%id_ok_int64 [H1 H2]. destruct (decide (ident' = ident)) as [|Hne]; [done|exfalso].
  destruct (createKey_other ident ident' Hi Hi') as [H|H]; [congruence|..].
  - apply (string_lt_asym _ _ H2). by apply H.
  - apply (string_lt_asym _ _ H1). by apply H.
Qed.

(** ** Sharing a byte 255 *)

Lemma no_255_in_name ident : name_ok ident -> 255 ∉ _appendStringLike ident.
Proof.
  intros (_ & H0 & H255). induction ident as [|c ident IH]; cbn [_appendStringLike]; [by intros [?|?%not_elem_of_nil]%elem_of_cons|].
  apply not_elem_of_cons in H0 as [Hc H0], H255 as [Hc' H255]. rewrite (proj2 (Z.eqb_neq c 0)) by congruence.
  apply not_elem_of_cons. auto.
Qed.

(** A key that starts like the keys of a store belongs to it. *)
Lemma same_start ident ident' id s :
  name_ok ident -> name_ok ident' -> int64 id -> follows s -> createKey ident' id = kStringLike :: _appendStringLike ident ++ s ->
  ident' = ident /\ s = _appendInteger id ++ [kEnd].
Proof.
  intros [Hi _] [Hi' _] Hid Hs E. unfold createKey in E. injection E as E. pose proof (appendInteger_follows id [kEnd] Hid) as Ht.
  destruct (decide (ident' = ident)) as [->|Hne]; [split; [done|]; by apply app_inv_head in E|exfalso].
  destruct (appendStringLike_lt ident' ident Hi' Hi Hne) as [H|H]; specialize (H _ _ Ht Hs); rewrite E in H; by apply string_lt_irrefl in H.
Qed.

Lemma bound_unwrapped m ident c t :
  record_keys m -> name_ok ident -> 0 < c < 255 ->
  (forall id, id_ok id -> ~ c :: take 1 t `prefix_of` _appendInteger id ++ [kEnd]) ->
  (forall p, p ++ [255] `prefix_of` c :: t -> c :: take 1 t `prefix_of` p ++ [255]) ->
  unwrapped m (kStringLike :: _appendStringLike ident ++ c :: t).
Proof.
  intros Hm Hident Hc Hno Hlate p k Hp Hs Hk. destruct (Hm k Hs) as (ident' & id & -> & Hident' & Hid).
  assert (Hcut : exists q, p = kStringLike :: _appendStringLike ident ++ q /\ q ++ [255] `prefix_of` c :: t).
  { destruct p as [|x p]; [by destruct Hp as [u Hu]; simplify_eq|]. destruct Hp as [u Hu]. simpl in Hu. injection Hu as <- Hu.
    symmetry in Hu. rewrite <- app_assoc in Hu. apply app_eq_app in Hu as (l & [[H1 H2]|[H1 H2]]).
    - exists l. rewrite H1. split; [done|]. exists u. by rewrite <- app_assoc.
    - exfalso. apply (no_255_in_name ident Hident). rewrite H1. apply elem_of_app. right.
      destruct l as [|y l]; [simpl in H2; injection H2 as <- _; lia|]. simpl in H2. injection H2 as <- _. by left. }
  destruct Hcut as (q & -> & Hq). pose proof (Hlate q Hq) as [v Hv]. destruct Hk as [w Hw].
  assert (E : createKey ident' id = kStringLike :: _appendStringLike ident ++ (c :: take 1 t) ++ v ++ w).
  { rewrite Hw. rewrite (app_assoc (c :: take 1 t)), <- Hv. cbn [app]. by rewrite <- !app_assoc. }
  destruct (same_start ident ident' id ((c :: take 1 t) ++ v ++ w) Hident Hident' (id_ok_int64 _ Hid)) as [-> Es]; [by exists c, (take 1 t ++ v ++ w)|done|].
  apply (Hno id Hid). rewrite <- Es. by eexists.
Qed.

Lemma id_ok_first id : id_ok id -> exists b t, _appendInteger id = b :: t /\ 43 <= b <= 49.
Proof.
  intros Hid. unfold id_ok in Hid. rewrite appendInteger_nonzero by (unfold int64_min; lia). rewrite (proj2 (Z.ltb_ge id 0)) by lia.
  unfold _appendPreshiftedIntegerPortion. eexists _, _. split; [done|]. rewrite magnitude_eq.
  destruct (bytesNeeded_spec (2 * Z.abs id)) as [Hn [Hl _]]; [lia|]. unfold kNumericPositive1ByteInt, kNumeric.
  set (n := bytesNeeded _) in *. destruct (Z.le_gt_cases (Z.of_nat n) 7) as [?|Hgt]; [lia|exfalso].
  assert (256 ^ 7 <= 256 ^ (Z.of_nat n - 1)) by (apply Z.pow_le_mono_r; lia). change (256 ^ 7) with (2 ^ 56) in *. lia.
Qed.

Lemma prefix_unwrapped m ident : record_keys m -> name_ok ident -> unwrapped m (createKey ident int64_min).
Proof.
  intros Hm Hident. apply (bound_unwrapped m ident 31 [248; 63; 255; 255; 255; 255; 255; 255; 4]); [done..| |].
  - intros id Hid [u Hu]. destruct (id_ok_first id Hid) as (b & t & E & Hb). rewrite E in Hu. simpl in Hu. injection Hu as -> _. lia.
  - intros [|x [|y p]] [u Hu]; simpl in Hu; simplify_eq. by exists (p ++ [255]).
Qed.

Lemma postfix_unwrapped m ident : record_keys m -> name_ok ident -> unwrapped m (createKey ident int64_max).
Proof.
  intros Hm Hident. apply (bound_unwrapped m ident 50 [255; 255; 255; 255; 255; 255; 255; 254; 4]); [done..| |].
  - intros id Hid [u Hu]. destruct (id_ok_first id Hid) as (b & t & E & Hb). rewrite E in Hu. simpl in Hu. injection Hu as -> _. lia.
  - intros [|x [|y p]] [u Hu]; simpl in Hu; simplify_eq; [by exists []|by exists (p ++ [255])].
Qed.

(** ** The entries of one store *)

Definition own (ident : list Z) (m : contents) : contents := filter (fun kv => in_range ident kv.1) m.

Lemma listing_filter (m : contents) (Q : list Z * list Z -> Prop) `{forall x, Decision (Q x)} L : listing m L -> listing (filter Q m) (filter Q L).
Proof.
  intros [Hs He]. split.
  - clear He. induction Hs as [|d L Hs IH Hd]; [constructor|]. rewrite filter_cons. case_decide; [|done]. constructor; [done|].
    apply Forall_forall. intros x [_ Hx]%list_elem_of_filter. rewrite Forall_forall in Hd. by apply Hd.
  - intros k v. rewrite list_elem_of_filter, map_lookup_filter_Some, He. tauto.
Qed.

(** A sorted list falls into the part before and the part from a bound on. *)
Lemma listing_split (m : contents) P `{forall k, Decision (P k)} L :
  upward P -> listing m L ->
  exists L1 L2, L = L1 ++ L2 /\ listing (filter (fun kv => ~ P kv.1) m) L1 /\ listing (filter (fun kv => P kv.1) m) L2.
Proof.
  intros Hup Hlist. pose proof Hlist as [Hs He]. exists (filter (fun kv => ~ P kv.1) L), (filter (fun kv => P kv.1) L). split_and!.
  - clear He Hlist. induction Hs as [|d L Hs IH Hd]; [done|]. destruct (decide (P d.1)) as [HP|HP].
    + rewrite filter_cons_False by (intros Hn; by apply Hn). rewrite (filter_cons_True (fun kv => P kv.1)) by done.
      assert (Hall : forall x, x ∈ L -> P x.1) by (intros x Hx; rewrite Forall_forall in Hd; by apply (Hup d.1), Hd).
      rewrite (filter_none (fun kv => ~ P kv.1)) by (intros x Hx Hn; by apply Hn, Hall). simpl. f_equal. clear -Hall.
      induction L as [|x L IH]; [done|]. rewrite filter_cons_True by (apply Hall; by left). f_equal. apply IH. intros y Hy. apply Hall. by right.
    + rewrite (filter_cons_True (fun kv => ~ P kv.1)), (filter_cons_False (fun kv => P kv.1)) by done. simpl. by f_equal.
  - by apply listing_filter.
  - by apply listing_filter.
Qed.

(** The ends of the range are not keys of records. *)
Lemma bound_ne ident ident' id x :
  name_ok ident -> name_ok ident' -> id_ok id -> x = int64_min \/ x = int64_max -> createKey ident' id <> createKey ident x.
Proof.
  intros [Hi _] [Hi' _] Hid Hx E. pose proof (id_ok_int64 _ Hid) as Hid'. assert (Hxi : int64 x) by by destruct Hx; subst.
  destruct (decide (ident' = ident)) as [->|Hn].
  - apply createKey_inj in E; [|done..]. subst. unfold id_ok, int64_min, int64_max in *. lia.
  - destruct (createKey_other ident' ident Hi' Hi Hn) as [Hl|Hl]; specialize (Hl id x Hid' Hxi); rewrite E in Hl; by apply string_lt_irrefl in Hl.
Qed.

(** What lies from the smallest key on and not behind the largest one. *)
Lemma own_between ident m :
  record_keys m -> name_ok ident ->
  filter (fun kv => ~ createKey ident int64_max ≺ kv.1) (filter (fun kv => at_least (createKey ident int64_min) kv.1) m) = own ident m.
Proof.
  intros Hm Hident. apply map_eq. intros k. apply option_eq. intros v. unfold own. rewrite !map_lookup_filter_Some. simpl. split.
  - intros [[Hk Hlow] Hhigh]. split; [done|]. destruct (Hm k) as (ident' & id & -> & Hident' & Hid); [by eexists|].
    split.
    + destruct (string_lt_total (createKey ident int64_min) (createKey ident' id)) as [?|[E|?]]; [done| |done].
      exfalso. apply (bound_ne ident ident' id int64_min); auto.
    + destruct (string_lt_total (createKey ident' id) (createKey ident int64_max)) as [?|[E|?]]; [done| |done].
      exfalso. apply (bound_ne ident ident' id int64_max); auto.
  - intros [Hk [H1 H2]]. split; [split; [done|]|]; by apply string_lt_asym.
Qed.

(** Both ends of the range, and the entries between them. *)
Lemma range_walk s m ident :
  represents True s m -> record_keys m -> name_ok ident ->
  exists r1 r2 L1 L2,
    lower_bound s (createKey ident int64_min) = Some (mkIter (_root s) r1) /\
    upper_bound s (createKey ident int64_max) = Some (mkIter (_root s) r2) /\
    walk (nodes s) (_root s) r1 (L1 ++ L2) /\ walk (nodes s) (_root s) r2 L2 /\ listing (own ident m) L1 /\ (length L1 < S (size (nodes s)))%nat.
Proof.
  intros Hrep Hm Hident. pose proof (rep_root _ _ _ Hrep) as Hkey. pose proof (rep_trie _ _ _ Hrep) as Hroot.
  destruct (lower_bound_first Hrep _ (prefix_unwrapped m ident Hm Hident)) as (r1 & Hr1 & Hf1).
  destruct (upper_bound_first Hrep _ (postfix_unwrapped m ident Hm Hident)) as (r2 & Hr2 & Hf2).
  destruct (walk_all Hkey Hroot (at_least (createKey ident int64_min)) r1 (at_least_upward _) Hf1) as (L & HL & Hlist).
  destruct (walk_all Hkey Hroot (fun k => createKey ident int64_max ≺ k) r2) as (L2 & HL2 & Hlist2); [intros k k'; apply string_lt_trans|done|].
  destruct (listing_split _ (fun k => createKey ident int64_max ≺ k) L ltac:(intros k k'; apply string_lt_trans) Hlist) as (L1 & L2' & -> & Hl1 & Hl2).
  rewrite own_between in Hl1 by done.
  assert (Heq : filter (fun kv => createKey ident int64_max ≺ kv.1) (filter (fun kv => at_least (createKey ident int64_min) kv.1) m) =
                filter (fun kv => createKey ident int64_max ≺ kv.1) m).
  { apply map_eq. intros k. apply option_eq. intros v. rewrite !map_lookup_filter_Some. simpl. split; [tauto|]. intros [Hk Hlt].
    split_and!; [done| |done]. apply string_lt_asym. eapply string_lt_trans; [|done]. by apply createKey_lt. }
  rewrite Heq in Hl2. assert (L2' = L2) as -> by by eapply (listing_eq _ _ _ _ Hl2 Hlist2).
  exists r1, r2, L1, L2. split_and!; try done.
  assert (Hsub : own ident m ⊆ m) by apply map_filter_subseteq. pose proof (listing_length Hroot _ L1 Hsub Hl1). lia.
Qed.
