(* ===== verification/BiggieRecordsOk.v ===== *)
(** * The record store does what it says

    Each operation of the record store, on the view of the engine: it forks the recovery unit
    if needed, changes its map in one record and marks it dirty; the statistics count the
    records of the store; [truncate] removes exactly these. *)

From Stdlib Require Import ZArith Lia.
From stdpp Require Import prelude gmap sorting.
From S2P Require Import Prelude RadixNode RadixStore RadixIterator RadixInv RadixLookup RadixOrder RadixModify.
From S2P Require Import RadixErase RadixIteration RadixWalk RadixBounds RecordKey BiggieEngine BiggieEngineOk.
From S2P Require Import BiggieRecords RecordRange.

Open Scope Z_scope.

(** A record store as its constructor makes it. *)
Record records_ok (rs : RecordStore) : Prop := {
  ro_name : name_ok (_ident rs);
  ro_prefix : _prefix rs = createKey (_ident rs) int64_min;
  ro_postfix : _postfix rs = createKey (_ident rs) int64_max;
}.

(** The map that the unit works on, after the fork. *)
Definition working (v : engine_view) (uv : unit_view) : contents := default (v_master v) (v_work uv).

(** The unit after a write. *)
Definition written (v : engine_view) (uv : unit_view) (m : contents) : unit_view :=
  let u := forked v uv in {| u with v_dirty := true; v_work := Some m |}.

Lemma forked_work v uv : v_work (forked v uv) = Some (working v uv).
Proof. unfold forked, working. destruct (v_work uv) eqn:E; simpl; congruence. Qed.

Lemma set_view_twice v i a b : set_view (set_view v i a) i b = set_view v i b.
Proof. unfold set_view. simpl. by rewrite insert_insert_eq. Qed.

Lemma set_view_unit v i a : v_units (set_view v i a) !! i = Some a.
Proof. simpl. by rewrite lookup_insert_eq. Qed.

Section operations.

Context {e : KVEngine} {v : engine_view} {i : nat} {uv : unit_view} (Hs : shows e v) (Hv : v_units v !! i = Some uv).

Abbreviation m := (working v uv) (only parsing).

Lemma branch_ok :
  exists s e', getRecoveryUnitBranch_forking e i = Some (s, e') /\ shows e' (set_view v i (forked v uv)) /\ _master e' = _master e /\
    represents True s m.
Proof.
  destruct (forkIfNeeded_ok e v i uv Hs Hv) as (e' & Hrun & Hs' & Hmaster & _). unfold getRecoveryUnitBranch_forking. rewrite Hrun.
  cbn [mbind option_bind]. destruct (working_store_ok e' _ i (forked v uv) m Hs') as (u & wc & _ & _ & _ & Hst & _ & Hrep);
    [apply set_view_unit|apply forked_work|]. rewrite Hst. cbn [mbind option_bind]. eauto 10.
Qed.

(** Fork, change the map, mark dirty. *)
Lemma write_ok {A} (f : RadixStore -> option (A * RadixStore)) (Q : A -> Prop) m' :
  (forall s, store_wf s -> represents True s m -> exists a s', f s = Some (a, s') /\ Q a /\ changed True s s' m') ->
  exists e1 a e2 e3, forkIfNeeded e i = Some (bool_decide (v_work uv = None), e1) /\ on_working_copy e1 i f = Some (a, e2) /\ Q a /\
    makeDirty e2 i = Some e3 /\ _master e3 = _master e /\ shows e3 (set_view v i (written v uv m')).
Proof.
  intros Hf. destruct (forkIfNeeded_ok e v i uv Hs Hv) as (e1 & Hfork & Hs1 & Hm1 & _).
  destruct (on_working_copy_ok e1 _ i (forked v uv) m m' f Q Hs1) as (a & e2 & Hrun & HQ & Hm2 & Hs2);
    [apply set_view_unit|apply forked_work|done|].
  destruct (makeDirty_ok e2 _ i _ Hs2 (set_view_unit _ _ _)) as (e3 & Hdirty & Hm3 & Hs3).
  exists e1, a, e2, e3. split_and!; try done; [congruence|]. by rewrite !set_view_twice in Hs3.
Qed.

(** ** One record *)

Context {rs : RecordStore} (Hrs : records_ok rs).

Lemma findRecord_ok loc :
  exists e', findRecord rs e i loc = Some (m !! createKey (_ident rs) loc, e') /\ shows e' (set_view v i (forked v uv)) /\ _master e' = _master e.
Proof.
  destruct branch_ok as (s & e' & Hrun & Hs' & Hm' & Hrep). exists e'. unfold findRecord. rewrite Hrun. cbn [mbind option_bind].
  unfold RadixStore_find. destruct (findNode_ok True s m (createKey (_ident rs) loc) Hrep) as (r & -> & Hr). cbn [mbind option_bind it_current].
  split; [|done]. unfold finds in Hr. destruct (m !! createKey (_ident rs) loc) as [w|].
  - destruct Hr as (n & nd & -> & Hn & Hd & _). unfold deref. cbn. rewrite Hn. cbn. by rewrite Hd.
  - by subst r.
Qed.

Lemma key_bytes id : int64 id -> Forall byte (createKey (_ident rs) id).
Proof. apply createKey_bytes, Hrs. Qed.

Lemma insertRecord_ok data :
  small data -> int64 (_highest_record_id rs) ->
  let id := _highest_record_id rs in
  let key := createKey (_ident rs) id in
  exists e', insertRecord rs e i data = Some (id, (nextRecordId rs).2, e') /\ _master e' = _master e /\
    shows e' (set_view v i (written v uv (if bool_decide (m !! key = None) then <[key := data]> m else m))).
Proof.
  intros Hsmall Hid id key.
  destruct (write_ok (fun s => RadixStore_insert s (key, data)) (fun _ => True) (if bool_decide (m !! key = None) then <[key := data]> m else m))
    as (e1 & a & e2 & e3 & Hf & Hrun & _ & Hd & Hm & Hs3).
  - intros s Hwf Hrep. destruct (insert_ok True s m key data Hwf Hrep (key_bytes id Hid)) as (it & s' & Hins & Hch); [done|].
    eexists _, s'. split_and!; [exact Hins|done|]. assert (E : bool_decide (key <> [] /\ m !! key = None) = bool_decide (m !! key = None)).
    { apply bool_decide_ext. split; [by intros [_ ?]|]. intros ?. split; [done|done]. }
    by rewrite E in Hch.
  - exists e3. split_and!; [|done..]. unfold insertRecord. cbn [nextRecordId _ident]. rewrite Hf. cbn [mbind option_bind].
    fold id key. rewrite Hrun. cbn [mbind option_bind]. by rewrite Hd.
Qed.

Lemma updateRecord_ok loc data w :
  m !! createKey (_ident rs) loc = Some w -> small data -> w <> [] -> small w ->
  exists e', updateRecord rs e i loc data = Some e' /\ _master e' = _master e /\
    shows e' (set_view v i (written v uv (<[createKey (_ident rs) loc := data]> m))).
Proof.
  intros Hw Hsmall Hne Hsw. set (key := createKey (_ident rs) loc) in *.
  destruct (write_ok (fun s => RadixStore_update s (key, data)) (fun _ => True) (<[key := data]> m)) as (e1 & a & e2 & e3 & Hf & Hrun & _ & Hd & Hm & Hs3).
  - intros s Hwf Hrep. destruct (update_ok True s m key data Hwf Hrep) as (it & s' & Hup & Hch); [intros _; split; [done|]; intros w' Hw'; by simplify_eq|].
    rewrite bool_decide_eq_true_2 in Hch by by eexists. eauto 10.
  - exists e3. split_and!; [|done..]. destruct branch_ok as (s & e' & Hbranch & _ & _ & Hrep). unfold updateRecord. rewrite Hbranch. cbn [mbind option_bind].
    fold key. unfold RadixStore_find. destruct (findNode_ok True s m key Hrep) as (r & -> & Hr). unfold finds in Hr. rewrite Hw in Hr.
    destruct Hr as (n & nd & -> & _). cbn [mbind option_bind it_current]. rewrite (bool_decide_eq_false_2 (Some n = None)) by done.
    unfold getRecoveryUnitBranch_forking in Hbranch. rewrite Hf in Hbranch. cbn [mbind option_bind] in Hbranch.
    destruct (working_store e1 i); [|done]. cbn [mbind option_bind] in Hbranch. simplify_eq. rewrite Hrun. cbn [mbind option_bind]. done.
Qed.

(** There must be a record to update, and to delete. *)
Lemma updateRecord_missing loc data : m !! createKey (_ident rs) loc = None -> updateRecord rs e i loc data = None.
Proof.
  intros Hnone. destruct branch_ok as (s & e' & Hbranch & _ & _ & Hrep). unfold updateRecord. rewrite Hbranch. cbn [mbind option_bind].
  unfold RadixStore_find. destruct (findNode_ok True s m (createKey (_ident rs) loc) Hrep) as (r & -> & Hr). unfold finds in Hr. rewrite Hnone in Hr.
  by subst r.
Qed.

Lemma deleteRecord_ok loc w :
  m !! createKey (_ident rs) loc = Some w -> small w ->
  exists e', deleteRecord rs e i loc = Some e' /\ _master e' = _master e /\
    shows e' (set_view v i (written v uv (delete (createKey (_ident rs) loc) m))).
Proof.
  intros Hw Hsmall. set (key := createKey (_ident rs) loc) in *.
  destruct (write_ok (fun s => RadixStore_erase s key) (fun n => n = 1) (delete key m)) as (e1 & a & e2 & e3 & Hf & Hrun & -> & Hd & Hm & Hs3).
  - intros s Hwf Hrep. destruct (erase_present True s m Hwf Hrep key w Hw) as (s' & He & Hch); [done|]. eauto 10.
  - exists e3. split_and!; [|done..]. unfold deleteRecord. rewrite Hf. cbn [mbind option_bind]. fold key. rewrite Hrun. done.
Qed.

(** ** Statistics *)

Lemma entries_until_ok fuel H root r1 r2 L1 L2 :
  trieKey <$> H !! root = Some [] -> walk H root r1 (L1 ++ L2) -> walk H root r2 L2 -> (length L1 < fuel)%nat ->
  entries_until fuel H (mkIter root r1) (mkIter root r2) = Some L1.
Proof.
  intros Hkey. revert fuel r1. induction L1 as [|d L1 IH]; intros fuel r1 Hw1 Hw2 Hfuel; (destruct fuel as [|fuel]; [lia|]);
    cbn [entries_until]; unfold iter_eq; cbn [it_current].
  - by rewrite bool_decide_true by by eapply (walk_position Hkey).
  - rewrite bool_decide_false.
    + inversion Hw1 as [|n r ? ? Hvis Hd Hn Hw]; simplify_eq. rewrite Hd. cbn [mbind option_bind]. rewrite Hn. cbn [mbind option_bind].
      by rewrite IH by (done || simpl in Hfuel; lia).
    + intros ->. pose proof (walk_list _ _ _ Hw1 Hw2) as E. apply (f_equal length) in E. simpl in E. rewrite length_app in E. lia.
Qed.

Lemma own_entries_ok s mx :
  represents True s mx -> record_keys mx -> exists L, own_entries rs s = Some L /\ listing (own (_ident rs) mx) L.
Proof.
  intros Hrep Hkeys. destruct (range_walk s mx (_ident rs) Hrep Hkeys (ro_name _ Hrs)) as (r1 & r2 & L1 & L2 & Hr1 & Hr2 & Hw1 & Hw2 & Hl & Hlen).
  exists L1. split; [|done]. unfold own_entries. rewrite (ro_prefix _ Hrs), (ro_postfix _ Hrs), Hr1. cbn [mbind option_bind]. rewrite Hr2.
  cbn [mbind option_bind]. by apply (entries_until_ok _ _ _ _ _ _ L2); [apply Hrep|..].
Qed.

Lemma numRecords_ok :
  record_keys m ->
  exists e', numRecords rs e i = Some (Z.of_nat (size (own (_ident rs) m)), e') /\ shows e' (set_view v i (forked v uv)) /\ _master e' = _master e.
Proof.
  intros Hkeys. destruct branch_ok as (s & e' & Hrun & Hs' & Hm' & Hrep). exists e'. split; [|done]. unfold numRecords. rewrite Hrun. cbn [mbind option_bind].
  destruct (range_walk s m (_ident rs) Hrep Hkeys (ro_name _ Hrs)) as (r1 & r2 & L1 & L2 & Hr1 & Hr2 & Hw1 & Hw2 & Hl & Hlen).
  rewrite (ro_prefix _ Hrs), (ro_postfix _ Hrs), Hr1. cbn [mbind option_bind]. rewrite Hr2. cbn [mbind option_bind]. unfold RadixStore_distance.
  rewrite (distance_from_ok (rep_root _ _ _ Hrep) _ _ _ L1 L2 Hw1 Hw2 Hlen). cbn [mbind option_bind]. by destruct (listing_size _ _ Hl) as [<- _].
Qed.

Lemma foldl_size L a : foldl (fun t (d : list Z * list Z) => size_t (t + string_size d.2)) (size_t a) L = size_t (a + foldr (fun d t => string_size d.2 + t) 0 L).
Proof.
  revert a. induction L as [|d L IH]; intros a; simpl; [by rewrite Z.add_0_r|].
  assert (E : size_t (size_t a + string_size d.2) = size_t (a + string_size d.2)) by (unfold size_t; by rewrite Zplus_mod_idemp_l).
  rewrite E, IH. f_equal. lia.
Qed.

Lemma dataSize_records :
  record_keys m ->
  exists e', dataSize rs e i = Some (size_t (weigh string_size (own (_ident rs) m) []), e') /\ shows e' (set_view v i (forked v uv)) /\ _master e' = _master e.
Proof.
  intros Hkeys. destruct branch_ok as (s & e' & Hrun & Hs' & Hm' & Hrep). exists e'. split; [|done]. unfold dataSize. rewrite Hrun. cbn [mbind option_bind].
  destruct (own_entries_ok s m Hrep Hkeys) as (L & -> & Hl). cbn [mbind option_bind]. destruct (listing_size _ _ Hl) as [_ <-].
  change 0 with (size_t 0) at 1. by rewrite foldl_size, Z.add_0_l.
Qed.

(** ** Truncation *)

Lemma erase_all_ok e0 v0 uv0 keys mx :
  shows e0 v0 -> v_units v0 !! i = Some uv0 -> v_work uv0 = Some mx -> NoDup keys ->
  (forall k, k ∈ keys -> exists w, mx !! k = Some w /\ small w) ->
  exists e', erase_all e0 i keys = Some (Z.of_nat (length keys), e') /\ _master e' = _master e0 /\
    shows e' (set_view v0 i {| uv0 with v_work := Some (filter (fun kv => kv.1 ∉ keys) mx) |}).
Proof.
  intros Hs0 Hv0 Hw0 Hnd Hin. revert e0 v0 uv0 mx Hs0 Hv0 Hw0 Hin. induction Hnd as [|k keys Hk Hnd IH]; intros e0 v0 uv0 mx Hs0 Hv0 Hw0 Hin; cbn [erase_all].
  - exists e0. split_and!; [done..|]. rewrite map_filter_id by (intros; apply not_elem_of_nil). rewrite <- Hw0.
    replace (set_view v0 i _) with v0; [done|]. unfold set_view. destruct v0, uv0. simpl in *. by rewrite insert_id.
  - destruct (Hin k) as (w & Hw & Hsmall); [by left|].
    destruct (on_working_copy_ok e0 v0 i uv0 mx (delete k mx) (fun s => RadixStore_erase s k) (fun n => n = 1) Hs0 Hv0 Hw0)
      as (a & e1 & -> & -> & Hm1 & Hs1).
    { intros s Hwf Hrep. destruct (erase_present True s mx Hwf Hrep k w Hw Hsmall) as (s' & He & Hch). eauto 10. }
    cbn [mbind option_bind]. destruct (IH e1 _ _ (delete k mx) Hs1 (set_view_unit _ _ _) eq_refl) as (e' & -> & Hm' & Hs').
    { intros k' Hk'. destruct (Hin k') as (w' & Hw' & ?); [by right|]. exists w'. rewrite lookup_delete_ne by (by intros ->). done. }
    exists e'. cbn [mbind option_bind]. split_and!; [|congruence|].
    + cbn [length]. do 2 f_equal. lia.
    + rewrite set_view_twice in Hs'. simpl in Hs'. replace (filter (fun kv => kv.1 ∉ k :: keys) mx) with (filter (fun kv => kv.1 ∉ keys) (delete k mx)); [done|].
      apply map_eq. intros k'. apply option_eq. intros w'. rewrite !map_lookup_filter_Some, lookup_delete_Some, not_elem_of_cons. simpl. naive_solver.
Qed.

Definition others_of (ident : list Z) (mx : contents) : contents := filter (fun kv => ~ in_range ident kv.1) mx.

Lemma listing_keys (mx : contents) L : listing mx L -> NoDup L.*1 /\ forall k, k ∈ L.*1 <-> is_Some (mx !! k).
Proof.
  intros [Hsort He]. split.
  - clear He. induction Hsort as [|d L Hsort IH Hd]; [constructor|]. simpl. apply NoDup_cons. split; [|done].
    intros ([k w] & Ek & Hin)%list_elem_of_fmap. rewrite Forall_forall in Hd. specialize (Hd _ Hin). simpl in *. rewrite Ek in Hd.
    by apply string_lt_irrefl in Hd.
  - intros k. rewrite list_elem_of_fmap. split.
    + intros ([k' w] & -> & Hin). apply He in Hin. by eexists.
    + intros [w Hw]. exists (k, w). split; [done|]. by apply He.
Qed.

Lemma truncate_ok :
  record_keys m -> (forall k w, m !! k = Some w -> small w) ->
  exists e', truncate rs e i = Some e' /\ _master e' = _master e /\
    shows e' (set_view v i (if bool_decide (own (_ident rs) m = ∅) then forked v uv else written v uv (others_of (_ident rs) m))).
Proof.
  intros Hkeys Hsmall. destruct branch_ok as (s & e1 & Hrun & Hs1 & Hm1 & Hrep). unfold truncate. rewrite Hrun. cbn [mbind option_bind].
  destruct (own_entries_ok s m Hrep Hkeys) as (L & -> & Hl). cbn [mbind option_bind]. destruct (listing_keys _ _ Hl) as [Hnd Hin].
  destruct (decide (own (_ident rs) m = ∅)) as [Hempty|Hne].
  { rewrite (bool_decide_eq_true_2 (own _ _ = ∅)) by done. rewrite bool_decide_eq_true_2; [by exists e1|].
    destruct (L.*1) as [|k ks]; [done|]. destruct (proj1 (Hin k)) as [w Hk]; [by left|]. by rewrite Hempty in Hk. }
  rewrite (bool_decide_eq_false_2 (own _ _ = ∅)) by done. rewrite bool_decide_eq_false_2.
  2:{ intros E. destruct (map_choose _ Hne) as (k & w & Hk). assert (Hk' : k ∈ L.*1) by (apply Hin; by eexists). rewrite E in Hk'. by apply not_elem_of_nil in Hk'. }
  destruct (erase_all_ok e1 _ (forked v uv) L.*1 m Hs1 (set_view_unit _ _ _) (forked_work _ _) Hnd) as (e2 & -> & Hm2 & Hs2).
  { intros k [w Hk]%Hin. apply map_lookup_filter_Some in Hk as [Hk _]. exists w. split; [done|]. by eapply Hsmall. }
  cbn [mbind option_bind]. rewrite Z.eqb_refl. destruct (makeDirty_ok e2 _ i _ Hs2 (set_view_unit _ _ _)) as (e3 & Hd & Hm3 & Hs3).
  exists e3. split_and!; [done|congruence|]. rewrite !set_view_twice in Hs3. unfold written. simpl in Hs3.
  replace (others_of (_ident rs) m) with (filter (fun kv => kv.1 ∉ L.*1) m); [done|]. apply map_eq. intros k. apply option_eq. intros w.
  unfold others_of. rewrite !map_lookup_filter_Some. simpl. rewrite Hin. unfold own. split; intros [Hk Hn]; (split; [done|]).
  - intros Hr. apply Hn. exists w. by apply map_lookup_filter_Some.
  - intros [w' Hw']. by apply map_lookup_filter_Some in Hw' as [_ ?].
Qed.

End operations.

(** ** Several documents *)

Fixpoint with_documents (ident : list Z) (id : Z) (docs : list (list Z)) (mx : contents) : contents :=
  match docs with
  | [] => mx
  | doc :: docs => with_documents ident (id + 1) docs (<[createKey ident id := doc]> mx)
  end.

Lemma insert_documents_ok rs e v i uv docs mx :
  records_ok rs -> shows e v -> v_units v !! i = Some uv -> v_work uv = Some mx ->
  0 < _highest_record_id rs -> _highest_record_id rs + Z.of_nat (length docs) < 2 ^ 63 -> Forall small docs ->
  (forall id, _highest_record_id rs <= id < _highest_record_id rs + Z.of_nat (length docs) -> mx !! createKey (_ident rs) id = None) ->
  exists rs' e', insert_documents rs e i docs = Some (seqZ (_highest_record_id rs) (Z.of_nat (length docs)), rs', e') /\ _master e' = _master e /\
    shows e' (set_view v i {| uv with v_work := Some (with_documents (_ident rs) (_highest_record_id rs) docs mx) |}).
Proof.
  revert rs e v uv mx. induction docs as [|doc docs IH]; intros rs e v uv mx Hrs Hs Hv Hw Hpos Hmax Hsmall Hfresh; cbn [insert_documents with_documents].
  - exists rs, e. split_and!; [done..|]. rewrite <- Hw. replace (set_view v i _) with v; [done|]. unfold set_view. destruct v, uv. simpl in *. by rewrite insert_id.
  - apply Forall_cons in Hsmall as [Hdoc Hsmall]. cbn [nextRecordId length _ident] in *. set (id := _highest_record_id rs) in *.
    assert (Hid : int64 id) by (unfold int64, int64_min, int64_max; lia).
    assert (Hnext : (id + 1 + 2 ^ 63) mod 2 ^ 64 - 2 ^ 63 = id + 1) by (rewrite Z.mod_small; lia).
    set (rs1 := {| rs with _highest_record_id := (id + 1 + 2 ^ 63) mod 2 ^ 64 - 2 ^ 63 |}) in *.
    assert (Hnone : mx !! createKey (_ident rs) id = None) by (apply Hfresh; lia).
    destruct (on_working_copy_ok e v i uv mx (<[createKey (_ident rs) id := doc]> mx) (fun s => RadixStore_insert s (createKey (_ident rs) id, doc)) (fun _ => True) Hs Hv Hw)
      as (a & e1 & Hrun & _ & Hm1 & Hs1).
    { intros s Hwf Hrep. destruct (insert_ok True s mx (createKey (_ident rs) id) doc Hwf Hrep) as (it & s' & Hins & Hch); [by apply key_bytes|done|].
      rewrite (bool_decide_eq_true_2 (createKey _ _ <> [] /\ _)) in Hch by done. eauto 10. }
    rewrite Hrun. cbn [mbind option_bind].
    destruct (IH rs1 e1 _ _ (<[createKey (_ident rs) id := doc]> mx) ltac:(split; apply Hrs) Hs1 (set_view_unit _ _ _) eq_refl) as (rs' & e' & -> & Hm' & Hs'); simpl; try rewrite Hnext; try lia; try done.
    { intros id' Hid'. rewrite lookup_insert_ne; [apply Hfresh; lia|]. intros E. apply createKey_inj in E; unfold int64, int64_min, int64_max; lia. }
    exists rs', e'. split_and!; [|congruence|].
    + rewrite (seqZ_cons id) by lia. cbn [mbind option_bind].
      replace (Z.pred (Z.of_nat (S (length docs)))) with (Z.of_nat (length docs)) by lia. done.
    + rewrite set_view_twice in Hs'. simpl in Hs'. by rewrite Hnext in Hs'.
Qed.
