(* ===== verification/BiggieCursor.v ===== *)
(** * Cursors over a record store

    A forward cursor returns the records of its store by increasing numbers, a reverse cursor
    by decreasing ones.  What a cursor looks for next is described by a property of keys
    ([seeks]); after [restore] it is the same as before, whatever has happened to the store in
    between, as long as the bound that [restore] computes is right ([unwrapped]). *)

From Stdlib Require Import ZArith Lia.
From stdpp Require Import prelude gmap sorting.
From S2P Require Import Prelude RadixNode RadixStore RadixIterator RadixInv RadixLookup RadixOrder RadixIteration.
From S2P Require Import RadixWalk RadixBounds RadixReverse RadixSpec RecordKey BiggieEngine BiggieRecords RecordRange.
From S2P Require Import BiggieRecordsOk.

Open Scope Z_scope.

(** Calls of [next] up to the end. *)
Fixpoint scan (next : Cursor -> option (option (Z * list Z) * Cursor)) (fuel : nat) (c : Cursor) : option (list (Z * list Z)) :=
  match fuel with
  | O => None
  | S fuel =>
      '(out, c) ← next c;
      match out with
      | None => Some []
      | Some r => l ← scan next fuel c; Some (r :: l)
      end
  end.

Section cursors.

Context {rs : RecordStore} (Hrs : records_ok rs) {s : RadixStore} {m : contents} (Hrep : represents True s m) (Hkeys : record_keys m).

Abbreviation key id := (createKey (_ident rs) id) (only parsing).

Lemma inPrefix_spec k : inPrefix rs k = bool_decide (in_range (_ident rs) k).
Proof.
  unfold inPrefix, in_range, string_lt. rewrite (ro_prefix _ Hrs), (ro_postfix _ Hrs). apply eq_bool_prop_intro.
  by rewrite bool_decide_spec, !Is_true_true, andb_true_iff.
Qed.

(** The record at the position of the cursor. *)
Lemma current_record_ok c r :
  it c = Some (mkIter (_root s) r) ->
  match r with
  | None => current_record rs s c = Some (None, c)
  | Some n => forall k w, entry (nodes s) m (_root s) n k w ->
      if bool_decide (in_range (_ident rs) k)
      then exists id, k = key id /\ id_ok id /\ current_record rs s c = Some (Some (id, w), {| c with _savedPosition := Some k |})
      else current_record rs s c = Some (None, c)
  end.
Proof.
  intros Hit. unfold current_record, at_end. rewrite Hit. destruct r as [n|]; [|done]. cbn [mbind option_bind it_current].
  intros k w He. rewrite (bool_decide_eq_false_2 (Some n = None)) by done. rewrite (entry_deref n k w He). cbn [mbind option_bind fst snd].
  rewrite inPrefix_spec. case_bool_decide as Hr; [|done]. pose proof He as (_ & _ & _ & Hm & _).
  destruct (Hkeys k) as (ident & id & -> & Hident & Hid); [by eexists|].
  pose proof (in_range_own _ _ _ (ro_name _ Hrs) Hident Hid Hr) as ->. exists id. rewrite extract_create by by apply id_ok_int64. done.
Qed.

Lemma own_above id : id_ok id -> at_least (_prefix rs) (key id).
Proof. intros Hid. rewrite (ro_prefix _ Hrs). apply string_lt_asym, own_in_range, Hid. Qed.

(** ** Forward *)

Inductive seeks : Cursor -> (list Z -> Prop) -> Prop :=
  | seeks_first c : _needFirstSeek c = true -> seeks c (at_least (_prefix rs))
  | seeks_after c n k w :
      _needFirstSeek c = false -> _lastMoveWasRestore c = false -> it c = Some (mkIter (_root s) (Some n)) ->
      entry (nodes s) m (_root s) n k w -> seeks c (fun k' => k ≺ k')
  | seeks_there c r P :
      _needFirstSeek c = false -> it c = Some (mkIter (_root s) r) -> first_of (nodes s) m (_root s) P r ->
      _lastMoveWasRestore c = true \/ r = None -> seeks c P.

Lemma seeks_position c P :
  seeks c P ->
  exists r, Cursor_next rs s c = current_record rs s (mkCursor (Some (mkIter (_root s) r)) None false false) /\ first_of (nodes s) m (_root s) P r.
Proof.
  intros [c' Hfirst|c' n k w Hfirst Hlast Hit He|c' r P' Hfirst Hit Hr Hlast]; unfold Cursor_next; rewrite Hfirst.
  - destruct (lower_bound_first Hrep (_prefix rs)) as (r & -> & Hr); [rewrite (ro_prefix _ Hrs); apply prefix_unwrapped; [done|apply Hrs]|]. by exists r.
  - unfold at_end. rewrite Hit, Hlast. cbn [mbind option_bind it_current]. rewrite (bool_decide_eq_false_2 (Some n = None)) by done. cbn [negb andb].
    destruct (findNext_ok (rep_root _ _ _ Hrep) (rep_trie _ _ _ Hrep) n k w He) as (r & -> & Hr). by exists r.
  - exists r. split; [|done]. unfold at_end. rewrite Hit. cbn [mbind option_bind it_current]. destruct Hlast as [-> | ->]; [by rewrite andb_false_r|done].
Qed.

(** What [next] returns: the first record that the cursor looks for. *)
Definition next_record (P : list Z -> Prop) (out : option (Z * list Z)) : Prop :=
  match out with
  | Some (id, w) => id_ok id /\ m !! key id = Some w /\ P (key id) /\ forall id', id_ok id' -> is_Some (m !! key id') -> P (key id') -> id <= id'
  | None => forall id, id_ok id -> is_Some (m !! key id) -> ~ P (key id)
  end.

Lemma Cursor_next_ok c P :
  seeks c P -> (forall k, P k -> at_least (_prefix rs) k) ->
  exists out c', Cursor_next rs s c = Some (out, c') /\ next_record P out /\ _needFirstSeek c' = false /\
    forall id w, out = Some (id, w) -> _savedPosition c' = Some (key id) /\ seeks c' (fun k => key id ≺ k).
Proof.
  intros Hseek Hlow. destruct (seeks_position c P Hseek) as (r & -> & Hr).
  pose proof (current_record_ok (mkCursor (Some (mkIter (_root s) r)) None false false) r eq_refl) as Hcur.
  destruct r as [n|]; simpl in Hr.
  - destruct Hr as (k & w & He & HP & Hleast). specialize (Hcur k w He). case_bool_decide as Hin.
    + destruct Hcur as (id & -> & Hid & ->). eexists _, _. split_and!; [done| |done|].
      * pose proof He as (_ & _ & _ & Hm & _). split_and!; [apply Hid..|done|done|]. intros id' Hid' Hs HP'.
        specialize (Hleast _ Hs HP'). rewrite createKey_lt in Hleast by by apply id_ok_int64. lia.
      * intros id' w' [= <- <-]. split; [done|]. by apply (seeks_after _ n (key id) w).
    + exists None, (mkCursor (Some (mkIter (_root s) (Some n))) None false false). split_and!; [done| |done|done]. intros id Hid Hs HP'.
      apply Hin. pose proof (own_in_range (_ident rs) id Hid) as [_ Hhigh]. split.
      * specialize (Hlow k HP). rewrite (ro_prefix _ Hrs) in Hlow.
        destruct (string_lt_total (key int64_min) k) as [?|[E|?]]; [done| |done]. exfalso. pose proof He as (_ & _ & _ & Hm & _).
        destruct (Hkeys k) as (ident' & id' & -> & Hident' & Hid'); [by eexists|].
        apply (bound_ne (_ident rs) ident' id' int64_min); auto. apply Hrs.
      * specialize (Hleast _ Hs HP'). destruct (string_lt_total k (key id)) as [?|[->|?]]; [by eapply string_lt_trans|done|done].
  - exists None, (mkCursor (Some (mkIter (_root s) None)) None false false). rewrite Hcur. split_and!; [done| |done|done].
    intros id _ Hs. by apply Hr.
Qed.

(** A cursor that has returned [k], and is restored. *)
Lemma Cursor_restore_ok c k :
  _savedPosition c = Some k -> _needFirstSeek c = false -> unwrapped m k ->
  exists c', Cursor_restore s c = Some c' /\ seeks c' (fun k' => k ≺ k') /\ _savedPosition c' = Some k /\ _needFirstSeek c' = false.
Proof.
  intros Hsaved Hfirst Hsafe. unfold Cursor_restore, restore_with. rewrite Hsaved.
  destruct (lower_bound_first Hrep k Hsafe) as (r & -> & Hr). cbn [mbind option_bind it_current].
  assert (Hafter : (forall n, r = Some n -> forall k' w, entry (nodes s) m (_root s) n k' w -> k' <> k) -> first_of (nodes s) m (_root s) (fun k' => k ≺ k') r).
  { intros Hne. destruct r as [n|]; simpl in Hr |- *.
    - destruct Hr as (k' & w & He & Hge & Hleast). exists k', w. split_and!; [done| |].
      + destruct (string_lt_total k k') as [?|[E|?]]; [done| |done]. by destruct (Hne n eq_refl k' w He).
      + intros k2 Hs Hlt. apply Hleast; [done|]. by apply string_lt_asym.
    - intros k' Hs Hlt. apply (Hr k' Hs). by apply string_lt_asym. }
  destruct r as [n|]; simpl in Hr.
  - rewrite (bool_decide_eq_false_2 (Some n = None)) by done. destruct Hr as (k' & w & He & Hge & Hleast).
    rewrite (entry_deref n k' w He). cbn [mbind option_bind fst]. eexists. split; [done|]. split; [|done]. destruct (decide (k' = k)) as [->|Hne].
    + apply (seeks_after _ n k w); try done. simpl. by rewrite bool_decide_eq_true_2.
    + apply (seeks_there _ (Some n)); try done; simpl.
      * apply Hafter. intros n' [= <-] k2 w2 He2 ->. apply Hne. pose proof (entry_deref n _ _ He) as E1. pose proof (entry_deref n _ _ He2) as E2. congruence.
      * left. by rewrite bool_decide_eq_false_2.
  - eexists. split; [done|]. split; [|done]. apply (seeks_there _ None); try done; [|by right]. by apply Hafter.
Qed.

Lemma Cursor_seekExact_ok c id :
  id_ok id ->
  exists c', Cursor_seekExact rs s c id = Some (pair id <$> m !! key id, c') /\
    (is_Some (m !! key id) -> _savedPosition c' = Some (key id) /\ seeks c' (fun k => key id ≺ k)).
Proof.
  intros Hid. unfold Cursor_seekExact, RadixStore_find. destruct (m !! key id) as [w|] eqn:Em.
  - destruct (find_stored True s m (key id) w Hrep Em) as (n & -> & He). cbn [mbind option_bind]. unfold at_end. cbn [it mbind option_bind it_current].
    rewrite (bool_decide_eq_false_2 (Some n = None)) by done. rewrite (entry_deref n _ _ He). cbn [mbind option_bind fst snd].
    rewrite inPrefix_spec, bool_decide_eq_true_2 by by apply own_in_range. cbn [negb]. eexists. split; [done|]. intros _. split; [done|].
    by apply (seeks_after _ n (key id) w).
  - destruct (findNode_ok True s m (key id) Hrep) as (r & -> & Hr). unfold finds in Hr. rewrite Em in Hr. subst r. eexists. split; [done|].
    by intros [].
Qed.

(** ** Backward *)

Inductive seeks_back : Cursor -> (list Z -> Prop) -> Prop :=
  | back_first c : _needFirstSeek c = true -> seeks_back c (fun k => ~ _postfix rs ≺ k)
  | back_before c n k w :
      _needFirstSeek c = false -> _lastMoveWasRestore c = false -> it c = Some (mkIter (_root s) (Some n)) ->
      entry (nodes s) m (_root s) n k w -> seeks_back c (fun k' => k' ≺ k)
  | back_there c r P :
      _needFirstSeek c = false -> it c = Some (mkIter (_root s) r) -> last_of (nodes s) m (_root s) P r ->
      _lastMoveWasRestore c = true \/ r = None -> seeks_back c P.

Lemma last_of_ext P P' r :
  (forall k, is_Some (m !! k) -> P k <-> P' k) -> last_of (nodes s) m (_root s) P r -> last_of (nodes s) m (_root s) P' r.
Proof.
  intros Heq. destruct r as [n|]; simpl.
  - intros (k & w & He & HP & Hlast). exists k, w. pose proof He as (_ & _ & _ & Hm & _). split_and!; [done|apply Heq; [by eexists|done]|].
    intros k' Hs HP'. apply Hlast; [done|]. by apply Heq.
  - intros Hnone k Hs HP'. apply (Hnone k Hs). by apply Heq.
Qed.

Lemma reverse_upper_bound_ok k :
  unwrapped m k ->
  exists r, reverse_upper_bound s k = Some (mkIter (_root s) r) /\ last_of (nodes s) m (_root s) (fun k' => ~ k ≺ k') r.
Proof.
  intros Hsafe. unfold reverse_upper_bound. destruct (upper_bound_first Hrep k Hsafe) as (r0 & -> & Hr0). cbn [mbind option_bind].
  destruct r0 as [n|]; simpl in Hr0.
  - destruct Hr0 as (k0 & w & He & Hlt & Hleast). destruct (reverse_from_ok Hrep n k0 w He) as (r & -> & Hr). exists r. split; [done|].
    eapply last_of_ext; [|exact Hr]. intros k' Hs. split.
    + intros Hk' Hk. by apply (Hleast k').
    + intros Hk. destruct (string_lt_total k k') as [?|[<-|?]]; [done|done|by eapply string_lt_trans].
  - destruct (reverse_end_ok Hrep) as (r & Hrun & Hr). exists r. split; [exact Hrun|]. eapply last_of_ext; [|exact Hr]. intros k' Hs. simpl.
    split; [intros _; by apply Hr0|done].
Qed.

Lemma back_position c P :
  seeks_back c P ->
  exists r, ReverseCursor_next rs s c = current_record rs s (mkCursor (Some (mkIter (_root s) r)) None false false) /\ last_of (nodes s) m (_root s) P r.
Proof.
  intros [c' Hfirst|c' n k w Hfirst Hlast Hit He|c' r P' Hfirst Hit Hr Hlast]; unfold ReverseCursor_next; rewrite Hfirst.
  - destruct (reverse_upper_bound_ok (_postfix rs)) as (r & -> & Hr); [rewrite (ro_postfix _ Hrs); apply postfix_unwrapped; [done|apply Hrs]|]. by exists r.
  - unfold at_end. rewrite Hit, Hlast. cbn [mbind option_bind it_current]. rewrite (bool_decide_eq_false_2 (Some n = None)) by done. cbn [negb andb].
    destruct (findNextReverse_ok (rep_root _ _ _ Hrep) (rep_trie _ _ _ Hrep) n k w He) as (r & -> & Hr). by exists r.
  - exists r. split; [|done]. unfold at_end. rewrite Hit. cbn [mbind option_bind it_current]. destruct Hlast as [-> | ->]; [by rewrite andb_false_r|done].
Qed.

Definition previous_record (P : list Z -> Prop) (out : option (Z * list Z)) : Prop :=
  match out with
  | Some (id, w) => id_ok id /\ m !! key id = Some w /\ P (key id) /\ forall id', id_ok id' -> is_Some (m !! key id') -> P (key id') -> id' <= id
  | None => forall id, id_ok id -> is_Some (m !! key id) -> ~ P (key id)
  end.

Lemma ReverseCursor_next_ok c P :
  seeks_back c P -> (forall k, P k -> ~ _postfix rs ≺ k) ->
  exists out c', ReverseCursor_next rs s c = Some (out, c') /\ previous_record P out /\ _needFirstSeek c' = false /\
    forall id w, out = Some (id, w) -> _savedPosition c' = Some (key id) /\ seeks_back c' (fun k => k ≺ key id).
Proof.
  intros Hseek Hhigh. destruct (back_position c P Hseek) as (r & -> & Hr).
  pose proof (current_record_ok (mkCursor (Some (mkIter (_root s) r)) None false false) r eq_refl) as Hcur.
  destruct r as [n|]; simpl in Hr.
  - destruct Hr as (k & w & He & HP & Hgreat). specialize (Hcur k w He). case_bool_decide as Hin.
    + destruct Hcur as (id & -> & Hid & ->). eexists _, _. split_and!; [done| |done|].
      * pose proof He as (_ & _ & _ & Hm & _). split_and!; [apply Hid..|done|done|]. intros id' Hid' Hs HP'.
        specialize (Hgreat _ Hs HP'). rewrite createKey_lt in Hgreat by by apply id_ok_int64. lia.
      * intros id' w' [= <- <-]. split; [done|]. by apply (back_before _ n (key id) w).
    + exists None, (mkCursor (Some (mkIter (_root s) (Some n))) None false false). split_and!; [done| |done|done]. intros id Hid Hs HP'.
      apply Hin. pose proof (own_in_range (_ident rs) id Hid) as [Hlow _]. split.
      * specialize (Hgreat _ Hs HP'). destruct (string_lt_total (key id) k) as [?|[<-|?]]; [by eapply string_lt_trans|done|done].
      * specialize (Hhigh k HP). rewrite (ro_postfix _ Hrs) in Hhigh.
        destruct (string_lt_total k (key int64_max)) as [?|[E|?]]; [done| |done]. exfalso. pose proof He as (_ & _ & _ & Hm & _).
        destruct (Hkeys k) as (ident' & id' & -> & Hident' & Hid'); [by eexists|].
        apply (bound_ne (_ident rs) ident' id' int64_max); auto. apply Hrs.
  - exists None, (mkCursor (Some (mkIter (_root s) None)) None false false). rewrite Hcur. split_and!; [done| |done|done].
    intros id _ Hs. by apply Hr.
Qed.

Lemma ReverseCursor_restore_ok c k :
  _savedPosition c = Some k -> _needFirstSeek c = false -> unwrapped m k ->
  exists c', ReverseCursor_restore s c = Some c' /\ seeks_back c' (fun k' => k' ≺ k) /\ _savedPosition c' = Some k /\ _needFirstSeek c' = false.
Proof.
  intros Hsaved Hfirst Hsafe. unfold ReverseCursor_restore, restore_with. rewrite Hsaved.
  destruct (reverse_upper_bound_ok k Hsafe) as (r & -> & Hr). cbn [mbind option_bind it_current].
  assert (Hle : forall k', k' <> k -> ~ k ≺ k' <-> k' ≺ k).
  { intros k' Hne. split; [|by intros ?%string_lt_asym]. intros Hk. by destruct (string_lt_total k k') as [?|[?|?]]. }
  destruct r as [n|]; simpl in Hr.
  - rewrite (bool_decide_eq_false_2 (Some n = None)) by done. destruct Hr as (k' & w & He & Hge & Hgreat).
    rewrite (entry_deref n k' w He). cbn [mbind option_bind fst]. eexists. split; [done|]. split; [|done]. destruct (decide (k' = k)) as [->|Hne].
    + apply (back_before _ n k w); try done. simpl. by rewrite bool_decide_eq_true_2.
    + apply (back_there _ (Some n)); try done; simpl; [|left; by rewrite bool_decide_eq_false_2]. exists k', w. split_and!; [done|by apply Hle|].
      intros k2 Hs Hlt. apply Hgreat; [done|]. by apply string_lt_asym.
  - eexists. split; [done|]. split; [|done]. apply (back_there _ None); try done; [|by right]. intros k' Hs Hlt. apply (Hr k' Hs). by apply string_lt_asym.
Qed.

(** The reverse iterator of the iterator behind an entry is at the entry. *)
Lemma reverse_of_next n k w :
  entry (nodes s) m (_root s) n k w ->
  exists next n', _findNext (nodes s) (mkIter (_root s) (Some n)) = Some next /\
    reverse_radix_iterator (nodes s) next = Some (mkIter (_root s) (Some n')) /\ entry (nodes s) m (_root s) n' k w.
Proof.
  intros He. pose proof He as (_ & _ & _ & Hm & _). destruct (findNext_ok (rep_root _ _ _ Hrep) (rep_trie _ _ _ Hrep) n k w He) as (r & Hrun & Hr).
  assert (Hrev : exists r', reverse_radix_iterator (nodes s) (mkIter (_root s) r) = Some (mkIter (_root s) r') /\ last_of (nodes s) m (_root s) (fun k' => ~ k ≺ k') r').
  { destruct r as [n1|]; simpl in Hr.
    - destruct Hr as (k1 & w1 & He1 & Hlt & Hleast). destruct (reverse_from_ok Hrep n1 k1 w1 He1) as (r' & Hr' & Hl). exists r'. split; [done|].
      eapply last_of_ext; [|exact Hl]. intros k' Hs. split; [intros Hk' Hk; by apply (Hleast k')|]. intros Hk.
      destruct (string_lt_total k k') as [?|[<-|?]]; [done|done|by eapply string_lt_trans].
    - destruct (reverse_end_ok Hrep) as (r' & Hr' & Hl). exists r'. split; [exact Hr'|]. eapply last_of_ext; [|exact Hl]. intros k' Hs.
      split; [intros _; by apply Hr|done]. }
  destruct Hrev as (r' & Hr' & Hl). assert (Hself : ~ k ≺ k) by apply string_lt_irrefl. destruct r' as [n'|]; simpl in Hl.
  - destruct Hl as (k' & w' & He' & Hk' & Hlast). assert (k' = k) as ->.
    { destruct (string_lt_total k k') as [?|[?|Hlt]]; [done|done|]. by destruct (Hlast k); [eexists|..]. }
    pose proof He' as (_ & _ & _ & Hm' & _). simplify_eq. by exists (mkIter (_root s) r), n'.
  - by destruct (Hl k); [eexists|].
Qed.

Lemma ReverseCursor_seekExact_ok c id w :
  id_ok id -> m !! key id = Some w ->
  exists n c', ReverseCursor_seekExact rs s c id = Some (Some (id, w), c') /\ entry (nodes s) m (_root s) n (key id) w /\
    c' = mkCursor (Some (mkIter (_root s) (Some n))) (Some (key id)) false (_lastMoveWasRestore c).
Proof.
  intros Hid Hw. unfold ReverseCursor_seekExact, RadixStore_find. destruct (find_stored True s m (key id) w Hrep Hw) as (n & -> & He). cbn [mbind option_bind it_current].
  rewrite (bool_decide_eq_false_2 (Some n = None)) by done. rewrite (entry_deref n _ _ He). cbn [mbind option_bind fst].
  rewrite inPrefix_spec, bool_decide_eq_true_2 by by apply own_in_range. cbn [negb].
  destruct (reverse_of_next n _ _ He) as (next & n' & -> & Hrev & He'). cbn [mbind option_bind]. rewrite Hrev. cbn [mbind option_bind].
  rewrite (entry_deref n' _ _ He'). cbn [mbind option_bind fst snd]. by exists n', (mkCursor (Some (mkIter (_root s) (Some n'))) (Some (key id)) false (_lastMoveWasRestore c)).
Qed.

(** ** A whole scan *)

Definition remaining (P : list Z -> Prop) `{forall k, Decision (P k)} : contents := filter (fun kv => P kv.1) (own (_ident rs) m).

Lemma remaining_shrinks P P' `{forall k, Decision (P k)} `{forall k, Decision (P' k)} id w :
  id_ok id -> m !! key id = Some w -> P (key id) -> ~ P' (key id) -> (forall k, P' k -> P k) -> (size (remaining P') < size (remaining P))%nat.
Proof.
  intros Hid Hm HP HP' Hsub. assert (Hin : remaining P !! key id = Some w) by (do 2 (apply map_lookup_filter_Some; split; try done); by apply own_in_range).
  assert (Hle : remaining P' ⊆ delete (key id) (remaining P)).
  { apply map_subseteq_spec. intros k w' Hk. apply map_lookup_filter_Some in Hk as [Hk Hk']. simpl in Hk'. apply lookup_delete_Some.
    split; [by intros <-|]. apply map_lookup_filter_Some. split; [done|]. by apply Hsub. }
  apply map_subseteq_size in Hle. rewrite map_size_delete, Hin in Hle. simpl in Hle.
  assert (size (remaining P) <> 0%nat) by (intros Hz; apply map_size_empty_iff in Hz; by rewrite Hz in Hin).
  eapply Nat.le_lt_trans; [exact Hle|lia].
Qed.

(** The records with a property, in the order [before]. *)
Definition scanned (before : Z -> Z -> Prop) (P : list Z -> Prop) (l : list (Z * list Z)) : Prop :=
  StronglySorted (fun a b => before a.1 b.1) l /\ forall id w, (id, w) ∈ l <-> id_ok id /\ m !! key id = Some w /\ P (key id).

Lemma scanned_cons (before : Z -> Z -> Prop) P P' id w l :
  id_ok id -> m !! key id = Some w -> P (key id) ->
  (forall id', id_ok id' -> is_Some (m !! key id') -> P' (key id') <-> P (key id') /\ before id id') -> (forall id', P (key id') -> is_Some (m !! key id') -> id_ok id' -> id' = id \/ before id id') ->
  (forall id', before id id' -> id' <> id) -> scanned before P' l -> scanned before P ((id, w) :: l).
Proof.
  intros Hid Hm HP Hnext Hall Hirr [Hsort He]. split.
  - constructor; [done|]. apply Forall_forall. intros [id' w'] Hin. apply He in Hin as (Hid' & Hm' & HP'). simpl. apply (Hnext id' Hid'); [by eexists|done].
  - intros id' w'. rewrite elem_of_cons, He. split.
    + intros [[-> ->]%pair_eq|(Hid' & Hm' & HP')]; [done|]. split_and!; [apply Hid'..|done|]. apply (Hnext id' Hid'); [by eexists|done].
    + intros (Hid' & Hm' & HP'). destruct (decide (id' = id)) as [->|Hne]; [left; congruence|right]. split_and!; [apply Hid'..|done|].
      apply Hnext; [done|by eexists|]. split; [done|]. by destruct (Hall id' HP') as [?|?]; [eexists|..].
Qed.

Lemma scan_ok fuel c P `{forall k, Decision (P k)} :
  upward P -> seeks c P -> (forall k, P k -> at_least (_prefix rs) k) -> (size (remaining P) < fuel)%nat ->
  exists l, scan (Cursor_next rs s) fuel c = Some l /\ scanned Z.lt P l.
Proof.
  revert c P H. induction fuel as [|fuel IH]; intros c P HP Hup Hseek Hlow Hfuel; [lia|]. cbn [scan].
  destruct (Cursor_next_ok c P Hseek Hlow) as (out & c' & -> & Hnext & _ & Hon). cbn [mbind option_bind]. destruct out as [[id w]|].
  - destruct (Hon id w eq_refl) as [_ Hseek']. destruct Hnext as (Hid & Hm & HPid & Hleast).
    destruct (IH c' (fun k => key id ≺ k) (fun k => string_lt_dec (key id) k)) as (l & -> & Hl); [|done|..].
    + intros k k'. apply string_lt_trans.
    + intros k Hk. eapply at_least_upward; [by apply own_above|done].
    + eapply Nat.lt_le_trans; [apply (remaining_shrinks P (fun k => key id ≺ k) id w Hid Hm HPid)|lia].
      * apply string_lt_irrefl.
      * intros k Hk. by eapply Hup.
    + eexists. split; [done|]. apply (scanned_cons Z.lt P (fun k => key id ≺ k)); try done; [| |lia].
      * intros id' Hid' Hs. rewrite createKey_lt by by apply id_ok_int64. split; [|by intros []]. intros Hlt. split; [|done].
        eapply Hup; [done|]. apply createKey_lt; [by apply id_ok_int64..|done].
      * intros id' HP' Hs Hid'. specialize (Hleast id' Hid' Hs HP'). lia.
  - exists []. split; [done|]. split; [constructor|]. intros id w. split; [by intros ?%not_elem_of_nil|]. intros (Hid & Hm & HPid).
    by destruct (Hnext id Hid); [eexists|].
Qed.

Lemma scan_back_ok fuel c P `{forall k, Decision (P k)} :
  downward P -> seeks_back c P -> (forall k, P k -> ~ _postfix rs ≺ k) -> (size (remaining P) < fuel)%nat ->
  exists l, scan (ReverseCursor_next rs s) fuel c = Some l /\ scanned Z.gt P l.
Proof.
  revert c P H. induction fuel as [|fuel IH]; intros c P HP Hdown Hseek Hhigh Hfuel; [lia|]. cbn [scan].
  destruct (ReverseCursor_next_ok c P Hseek Hhigh) as (out & c' & -> & Hnext & _ & Hon). cbn [mbind option_bind]. destruct out as [[id w]|].
  - destruct (Hon id w eq_refl) as [_ Hseek']. destruct Hnext as (Hid & Hm & HPid & Hgreat).
    destruct (IH c' (fun k => k ≺ key id) (fun k => string_lt_dec k (key id))) as (l & -> & Hl); [|done|..].
    + intros k k' Hk Hlt. by eapply string_lt_trans.
    + intros k Hk Hp. apply (Hhigh (key id) HPid). by eapply string_lt_trans.
    + eapply Nat.lt_le_trans; [apply (remaining_shrinks P (fun k => k ≺ key id) id w Hid Hm HPid)|lia].
      * apply string_lt_irrefl.
      * intros k Hk. by eapply Hdown.
    + eexists. split; [done|]. apply (scanned_cons Z.gt P (fun k => k ≺ key id)); try done; [| |lia].
      * intros id' Hid' Hs. rewrite createKey_lt by by apply id_ok_int64. split; [|intros []; lia]. intros Hlt. split; [|lia].
        eapply Hdown; [done|]. apply createKey_lt; [by apply id_ok_int64..|done].
      * intros id' HP' Hs Hid'. specialize (Hgreat id' Hid' Hs HP'). lia.
  - exists []. split; [done|]. split; [constructor|]. intros id w. split; [by intros ?%not_elem_of_nil|]. intros (Hid & Hm & HPid).
    by destruct (Hnext id Hid); [eexists|].
Qed.

End cursors.
