(* ===== verification/BiggieSpec.v ===== *)
(** * Transactions of the biggie engine

    Runs of the engine, in which the operations of the recovery units interleave in any way
    and a commit is two steps, against runs on maps: every unit works on its own map, and a
    commit publishes the three-way merge of its map with the current master. *)

From Stdlib Require Import ZArith Lia.
From stdpp Require Import prelude gmap sorting.
From S2P Require Import Prelude RadixNode RadixStore RadixIterator RadixMerge RadixInv RadixLookup RadixOrder.
From S2P Require Import RadixModify RadixErase RadixIteration RadixWalk RadixBounds RadixReverse RadixMerging.
From S2P Require Import RadixSpec RecordKey BiggieEngine BiggieEngineOk BiggieRecords RecordRange BiggieRecordsOk.
From S2P Require Import BiggieCursor.

Open Scope Z_scope.

(** ** Steps *)

Inductive engine_op :=
  | OpNewUnit (i : nat)
  | OpFork (i : nat)
  | OpWrite (i : nat) (op : store_op)
  | OpRegister (i change : nat)
  | OpAbort (i : nat)
  | OpAbandon (i : nat)
  | OpMerge (i : nat)
  | OpPublish (i : nat).

Inductive reply :=
  | Done
  | Forked (did : bool)
  | Wrote (n : Z)
  | RolledBack (calls : list call)
  | Ended (r : option commit_result).

(** The unit that takes the step. *)
Definition op_unit (op : engine_op) : nat :=
  match op with
  | OpNewUnit i | OpFork i | OpWrite i _ | OpRegister i _ | OpAbort i | OpAbandon i | OpMerge i | OpPublish i => i
  end.

(** A write is an operation on the working copy that marks the unit dirty. *)
Definition engine_run (e : KVEngine) (op : engine_op) : option (reply * KVEngine) :=
  match op with
  | OpNewUnit i => Some (Done, newRecoveryUnit e i)
  | OpFork i => '(b, e) ← forkIfNeeded e i; Some (Forked b, e)
  | OpWrite i op => '(n, e) ← on_working_copy e i (fun s => run_op s op); e ← makeDirty e i; Some (Wrote n, e)
  | OpRegister i c => e ← registerChange e i c; Some (Done, e)
  | OpAbort i => '(calls, e) ← abortUnitOfWork e i; Some (RolledBack calls, e)
  | OpAbandon i => e ← abandonSnapshot e i; Some (Done, e)
  | OpMerge i => '(r, e) ← commit_merge e i; Some (Ended r, e)
  | OpPublish i => '(r, e) ← commit_publish e i; Some (Ended (Some r), e)
  end.

Fixpoint engine_runs (e : KVEngine) (ops : list engine_op) : option (list reply * KVEngine) :=
  match ops with
  | [] => Some ([], e)
  | op :: ops => '(r, e) ← engine_run e op; '(rs, e) ← engine_runs e ops; Some (r :: rs, e)
  end.

(** ** The same on maps *)

Definition on_view (v : engine_view) (i : nat) (f : unit_view -> unit_view) : engine_view :=
  match v_units v !! i with
  | Some uv => set_view v i (f uv)
  | None => v
  end.

(** What the unit would publish. *)
Definition merged_work (v : engine_view) (uv : unit_view) : option contents :=
  m ← v_work uv; mb ← v_base uv; Some (three_way m mb (v_master v)).

Definition view_next (v : engine_view) (op : engine_op) (r : reply) : engine_view :=
  match op with
  | OpNewUnit i => set_view v i (mkView false None None None [])
  | OpFork i => on_view v i (forked v)
  | OpWrite i op => on_view v i (fun uv => {| uv with v_dirty := true; v_work := (fun m => (map_op m op).2) <$> v_work uv |})
  | OpRegister i c => on_view v i (fun uv => {| uv with v_changes := v_changes uv ++ [c] |})
  | OpAbort i => on_view v i (fun uv => {| uv with v_base := None; v_work := None; v_changes := [] |})
  | OpAbandon i => on_view v i (fun uv => {| uv with v_dirty := false; v_base := None; v_work := None |})
  | OpMerge i =>
      on_view v i (fun uv =>
        match r with
        | Ended (Some _) => {| uv with v_changes := [] |}
        | _ => {| uv with v_work := merged_work v uv; v_merged := Some (v_master v) |}
        end)
  | OpPublish i =>
      match r, v_units v !! i with
      | Ended (Some (Committed _)), Some uv => mkEngineView (default ∅ (v_work uv)) (<[i := mkView false None None None []]> (v_units v))
      | _, _ => on_view v i (fun uv => {| uv with v_merged := None |})
      end
  end.

(** The answers that are allowed: a commit is published only on top of the master that was
    merged, and otherwise tried again. *)
Definition unit_reply (v : engine_view) (uv : unit_view) (op : engine_op) (r : reply) : Prop :=
  match op with
  | OpNewUnit _ | OpRegister _ _ | OpAbandon _ => r = Done
  | OpFork _ => r = Forked (bool_decide (v_work uv = None))
  | OpWrite _ op => exists m, v_work uv = Some m /\ r = Wrote (map_op m op).1
  | OpAbort _ => r = RolledBack (Rollback <$> reverse (v_changes uv))
  | OpMerge _ => r = Ended (if v_dirty uv && bool_decide (is_Some (v_work uv)) then None else Some (Committed (Commit <$> v_changes uv)))
  | OpPublish _ => r = Ended (Some TryAgain) \/ r = Ended (Some (Committed (Commit <$> v_changes uv))) /\ v_merged uv = Some (v_master v)
  end.

Definition view_reply (v : engine_view) (op : engine_op) (r : reply) : Prop :=
  match op with
  | OpNewUnit _ => r = Done
  | _ => exists uv, v_units v !! op_unit op = Some uv /\ unit_reply v uv op r
  end.

(** When a step may be taken.  A merge asks that no branch below the root was changed by both
    sides. *)
Definition allowed (e : KVEngine) (v : engine_view) (op : engine_op) : Prop :=
  match op with
  | OpNewUnit i => v_units v !! i = None
  | OpFork i | OpRegister i _ | OpAbort i | OpAbandon i => is_Some (v_units v !! i)
  | OpWrite i op => exists uv m, v_units v !! i = Some uv /\ v_work uv = Some m /\ values_small m /\ op_ok m op
  | OpMerge i =>
      exists uv u, v_units v !! i = Some uv /\ units e !! i = Some u /\
        (v_dirty uv = true -> forall m mb wc b, v_work uv = Some m -> v_base uv = Some mb -> _workingCopy u = Some wc -> _mergeBase u = Some b ->
         apart (engine_nodes e) wc (ptr_root b) (ptr_root (_master e)) /\ fits_int m /\ fits_int (three_way m mb (v_master v)))
  | OpPublish i => exists uv, v_units v !! i = Some uv /\ is_Some (v_work uv) /\ is_Some (v_merged uv)
  end.

Fixpoint ops_allowed (e : KVEngine) (v : engine_view) (ops : list engine_op) : Prop :=
  match ops with
  | [] => True
  | op :: ops => allowed e v op /\ forall r e', engine_run e op = Some (r, e') -> ops_allowed e' (view_next v op r) ops
  end.

(** A run on maps that gives these answers. *)
Fixpoint view_runs (v : engine_view) (ops : list engine_op) (rs : list reply) : option engine_view :=
  match ops, rs with
  | [], [] => Some v
  | op :: ops, r :: rs => view_runs (view_next v op r) ops rs
  | _, _ => None
  end.

Fixpoint view_replies (v : engine_view) (ops : list engine_op) (rs : list reply) : Prop :=
  match ops, rs with
  | [], [] => True
  | op :: ops, r :: rs => view_reply v op r /\ view_replies (view_next v op r) ops rs
  | _, _ => False
  end.

(** ** One step *)

Lemma on_view_unit v i uv f : v_units v !! i = Some uv -> on_view v i f = set_view v i (f uv).
Proof. intros Hv. unfold on_view. by rewrite Hv. Qed.

Lemma write_step e v i uv m op :
  shows e v -> v_units v !! i = Some uv -> v_work uv = Some m -> values_small m -> op_ok m op ->
  exists e', engine_run e (OpWrite i op) = Some (Wrote (map_op m op).1, e') /\
    shows e' (set_view v i {| uv with v_dirty := true; v_work := Some (map_op m op).2 |}).
Proof.
  intros Hs Hv Hm Hsmall Hok. cbn [engine_run].
  destruct (on_working_copy_ok e v i uv m (map_op m op).2 (fun s => run_op s op) (fun n => n = (map_op m op).1) Hs Hv Hm) as (a & e1 & -> & -> & _ & Hs1).
  { intros s Hwf Hrep. destruct (run_op_ok s m op Hwf Hrep Hsmall Hok) as (s' & Hrun & Hch & _). eauto 10. }
  cbn [mbind option_bind]. destruct (makeDirty_ok e1 _ i _ Hs1 (set_view_unit _ _ _)) as (e2 & -> & _ & Hs2). cbn [mbind option_bind].
  exists e2. split; [done|]. by rewrite set_view_twice in Hs2.
Qed.

Lemma merge_step e v i :
  shows e v -> allowed e v (OpMerge i) ->
  exists r e', engine_run e (OpMerge i) = Some (r, e') /\ view_reply v (OpMerge i) r /\ shows e' (view_next v (OpMerge i) r).
Proof.
  intros Hs (uv & u & Hv & Hu & Hap). destruct (shows_unit _ _ _ _ Hs Hu) as (uv' & Hv' & Hus). simplify_eq. cbn [engine_run view_reply op_unit view_next].
  destruct (v_dirty uv) eqn:Ed, (v_work uv) as [m|] eqn:Ew.
  2-4: destruct (commit_clean_ok e v i uv Hs Hv) as (e' & -> & _ & Hs'); [first [by left|by right]|]; eexists _, e'; split; [done|]; split;
    [exists uv; split; [done|]; cbn [unit_reply]; by rewrite Ed, ?Ew|rewrite (on_view_unit v i uv _ Hv); exact Hs'].
  pose proof Hus as [_ Hb Hw Hboth _ _]. rewrite Ew in Hw. destruct (_workingCopy u) as [wc|] eqn:Ewc; [|done].
  destruct (proj2 Hboth) as [b Eb]; [by eexists|]. rewrite Eb in Hb. destruct (v_base uv) as [mb|] eqn:Emb; [|done].
  destruct (Hap eq_refl m mb wc b eq_refl eq_refl eq_refl Eb) as (Hapart & Hf & Hf').
  destruct (commit_merge_ok e v i u uv b wc mb m Hs Hu Hv Ed Eb Ewc Emb Ew Hapart Hf Hf') as (e' & -> & _ & Hs' & _).
  exists (Ended None), e'. split; [done|]. split.
  - exists uv. split; [done|]. cbn [unit_reply]. by rewrite Ed, Ew, bool_decide_eq_true_2.
  - rewrite (on_view_unit v i uv _ Hv). assert (E : merged_work v uv = Some (three_way m mb (v_master v))) by (unfold merged_work; by rewrite Ew, Emb).
    by rewrite E.
Qed.

Lemma publish_step e v i :
  shows e v -> allowed e v (OpPublish i) ->
  exists r e', engine_run e (OpPublish i) = Some (r, e') /\ view_reply v (OpPublish i) r /\ shows e' (view_next v (OpPublish i) r).
Proof.
  intros Hs (uv & Hv & [m Hm] & [mm Hmm]). destruct (shows_view _ _ _ _ Hs Hv) as (u & Hu & Hus).
  pose proof (us_merged _ _ _ Hus) as Hmerged. rewrite Hmm in Hmerged. destruct (merged_master u) as [p|] eqn:Ep; [|done].
  destruct (commit_publish_ok e v i u uv p m Hs Hu Hv Ep Hm) as (e' & r & Hrun & Hres). cbn [engine_run view_reply op_unit view_next]. rewrite Hrun.
  cbn [mbind option_bind]. eexists _, e'. split; [done|]. case_bool_decide.
  - destruct Hres as (-> & Hmaster & Hs'). split; [|by rewrite Hv, Hm]. exists uv. split; [done|]. by right.
  - destruct Hres as (-> & _ & Hs'). split; [|by rewrite (on_view_unit v i uv _ Hv)]. exists uv. split; [done|]. by left.
Qed.

Lemma engine_step e v op :
  shows e v -> allowed e v op ->
  exists r e', engine_run e op = Some (r, e') /\ view_reply v op r /\ shows e' (view_next v op r).
Proof.
  intros Hs Hok. destruct op as [i|i|i op|i c|i|i|i|i]; [|destruct Hok as [uv Hv]|..].
  - exists Done, (newRecoveryUnit e i). split_and!; [done..|]. by apply newRecoveryUnit_ok.
  - destruct (forkIfNeeded_ok e v i uv Hs Hv) as (e' & Hrun & Hs' & _). cbn [engine_run view_next]. rewrite Hrun, (on_view_unit v i uv _ Hv).
    eexists _, e'. split; [done|]. split; [by exists uv|done].
  - destruct Hok as (uv & m & Hv & Hm & Hsmall & Hop). destruct (write_step e v i uv m op Hs Hv Hm Hsmall Hop) as (e' & Hrun & Hs').
    eexists _, e'. split; [done|]. cbn [view_next]. rewrite (on_view_unit v i uv _ Hv), Hm. split; [|done]. exists uv. split; [done|]. by exists m.
  - destruct Hok as [uv Hv]. destruct (registerChange_ok e v i uv c Hs Hv) as (e' & Hrun & _ & Hs'). cbn [engine_run view_next].
    rewrite Hrun, (on_view_unit v i uv _ Hv). eexists _, e'. split; [done|]. split; [by exists uv|done].
  - destruct Hok as [uv Hv]. destruct (abortUnitOfWork_ok e v i uv Hs Hv) as (e' & Hrun & _ & Hs'). cbn [engine_run view_next].
    rewrite Hrun, (on_view_unit v i uv _ Hv). eexists _, e'. split; [done|]. split; [by exists uv|done].
  - destruct Hok as [uv Hv]. destruct (abandonSnapshot_ok e v i uv Hs Hv) as (e' & Hrun & _ & Hs'). cbn [engine_run view_next].
    rewrite Hrun, (on_view_unit v i uv _ Hv). eexists _, e'. split; [done|]. split; [by exists uv|done].
  - by apply merge_step.
  - by apply publish_step.
Qed.

Lemma engine_steps e v ops :
  shows e v -> ops_allowed e v ops ->
  exists rs e' v', engine_runs e ops = Some (rs, e') /\ view_runs v ops rs = Some v' /\ view_replies v ops rs /\ shows e' v'.
Proof.
  revert e v. induction ops as [|op ops IH]; intros e v Hs Hok; [by exists [], e, v|]. destruct Hok as [Hop Hok].
  destruct (engine_step e v op Hs Hop) as (r & e1 & Hrun & Hr & Hs1). destruct (IH e1 _ Hs1 (Hok _ _ Hrun)) as (rs & e' & v' & Hruns & Hv' & Hrs & Hs').
  exists (r :: rs), e', v'. cbn [engine_runs view_runs view_replies]. rewrite Hrun. cbn [mbind option_bind]. rewrite Hruns. done.
Qed.

(** ** Steps of others *)

Lemma set_view_other v i uv j : j <> i -> v_units (set_view v i uv) !! j = v_units v !! j.
Proof. intros Hne. simpl. by rewrite lookup_insert_ne. Qed.

Lemma view_next_other v op r j : op_unit op <> j -> v_units (view_next v op r) !! j = v_units v !! j.
Proof.
  intros Hne. assert (Hon : forall f, v_units (on_view v (op_unit op) f) !! j = v_units v !! j).
  { intros f. unfold on_view. destruct (v_units v !! op_unit op); [by apply set_view_other|done]. }
  destruct op as [i|i|i op|i c|i|i|i|i]; cbn [view_next]; try exact (Hon _); [by apply set_view_other|].
  destruct r as [| | | |[[calls| |]|]]; try exact (Hon _). simpl in Hne. destruct (v_units v !! i) eqn:E; [|exact (Hon _)].
  simpl. by rewrite lookup_insert_ne.
Qed.

Lemma view_runs_other v ops rs v' j : view_runs v ops rs = Some v' -> Forall (fun op => op_unit op <> j) ops -> v_units v' !! j = v_units v !! j.
Proof.
  revert v rs. induction ops as [|op ops IH]; intros v [|r rs] Hrun Hf; simpl in Hrun; simplify_eq; [done|].
  apply Forall_cons in Hf as [Hop Hf]. rewrite (IH _ _ Hrun Hf). by apply view_next_other.
Qed.

(** The new engine. *)
Lemma KVEngine_new_ok : shows KVEngine_new (mkEngineView ∅ ∅).
Proof.
  destruct RadixStore_new_ok as [[Hcl _] Hrep]. assert (E : engine_nodes KVEngine_new = nodes RadixStore_new) by (vm_compute; reflexivity).
  split.
  - by rewrite E.
  - rewrite E. destruct Hrep as [Ht Hr Hk]. split; done.
  - intros i. simpl. by rewrite !lookup_empty.
  - intros p [->|(i & u & Hu & _)]; [simpl; lia|]. simpl in Hu. by rewrite lookup_empty in Hu.
  - intros p q [->|(i & u & Hu & _)] [->|(j & w & Hw & _)] _; done.
Qed.

(** ** What can be read *)

Definition master_value (e : KVEngine) (k : list Z) : option (option (list Z * list Z)) := find_value (engine_nodes e) (ptr_root (_master e)) k.

Definition unit_value (e : KVEngine) (i : nat) (k : list Z) : option (option (list Z * list Z)) :=
  s ← working_store e i; find_value (nodes s) (_root s) k.

Lemma master_value_ok e v k : shows e v -> master_value e k = Some ((fun w => (k, w)) <$> v_master v !! k).
Proof. intros Hs. exact (find_value_ok True _ _ k (sh_master _ _ Hs)). Qed.

Lemma unit_value_ok e v i uv m k : shows e v -> v_units v !! i = Some uv -> v_work uv = Some m -> unit_value e i k = Some ((fun w => (k, w)) <$> m !! k).
Proof.
  intros Hs Hv Hm. destruct (working_store_ok e v i uv m Hs Hv Hm) as (u & wc & _ & _ & _ & Hst & _ & Hrep). unfold unit_value. rewrite Hst.
  cbn [mbind option_bind]. exact (find_value_ok True _ _ k Hrep).
Qed.

(** A commit that publishes at the first attempt. *)
Lemma commit_ok e v i u uv b wc mb m :
  shows e v -> units e !! i = Some u -> v_units v !! i = Some uv -> v_dirty uv = true ->
  _mergeBase u = Some b -> _workingCopy u = Some wc -> v_base uv = Some mb -> v_work uv = Some m ->
  apart (engine_nodes e) wc (ptr_root b) (ptr_root (_master e)) -> fits_int m -> fits_int (three_way m mb (v_master v)) ->
  exists e', commitUnitOfWork e i = Some (Committed (Commit <$> v_changes uv), e') /\
    shows e' (mkEngineView (three_way m mb (v_master v)) (<[i := mkView false None None None []]> (v_units v))).
Proof.
  intros Hs Hu Hv Hd Eb Ew Ebase Ework Hap Hf Hf'.
  destruct (commit_merge_ok e v i u uv b wc mb m Hs Hu Hv Hd Eb Ew Ebase Ework Hap Hf Hf') as (e1 & Hrun & Hmaster & Hs1 & u1 & Hu1 & Hp1).
  unfold commitUnitOfWork. rewrite Hrun. cbn [mbind option_bind].
  destruct (commit_publish_ok e1 _ i u1 _ (_master e) _ Hs1 Hu1 (set_view_unit _ _ _) Hp1 eq_refl) as (e' & r & Hpub & Hres).
  rewrite Hmaster, bool_decide_eq_true_2 in Hres by done. destruct Hres as (-> & _ & Hs'). exists e'. split; [done|].
  simpl in Hs'. by rewrite insert_insert_eq in Hs'.
Qed.

(** ** The properties of the engine *)


Definition sample_steps : list engine_op :=
  [OpNewUnit 0; OpNewUnit 1; OpFork 0; OpFork 1; OpWrite 0 (OpInsert [1; 2] [5]); OpWrite 1 (OpInsert [7] [8]); OpRegister 0 4;
   OpMerge 0; OpPublish 0; OpMerge 1; OpPublish 1].

(** The conditions of the steps, where they can be computed. *)
Ltac allow :=
  lazymatch goal with
  | |- ops_allowed _ _ [] => exact I
  | |- ops_allowed _ _ (_ :: _) => split; [|let r := fresh in let e := fresh in let H := fresh in intros r e H; vm_compute in H; injection H as <- <-; allow]
  end.

Ltac known E := vm_compute in E; injection E as <-.

Ltac allow_merge :=
  cbn [allowed]; eexists _, _; split; [vm_compute; reflexivity|]; split; [vm_compute; reflexivity|];
  let m := fresh in let mb := fresh in let wc := fresh in let b := fresh in
  let E1 := fresh in let E2 := fresh in let E3 := fresh in let E4 := fresh in
  intros _ m mb wc b E1 E2 E3 E4; known E1; known E2; known E3; known E4;
  split; [apply apartb_ok; vm_compute; reflexivity|split; split; vm_compute; reflexivity].

Ltac allow_step :=
  lazymatch goal with
  | |- allowed _ _ (OpNewUnit _) => vm_compute; reflexivity
  | |- allowed _ _ (OpMerge _) => allow_merge
  | |- allowed _ _ (OpWrite _ _) => idtac
  | |- allowed _ _ (OpPublish _) => eexists; split; [vm_compute; reflexivity|]; split; vm_compute; eexists; reflexivity
  | |- _ => vm_compute; eexists; reflexivity
  end.

Lemma sample_steps_allowed : ops_allowed KVEngine_new (mkEngineView ∅ ∅) sample_steps.
Proof.
  unfold sample_steps. allow; allow_step.
  - eexists _, ∅. split; [vm_compute; reflexivity|]. split; [reflexivity|]. split; [done|]. split; [repeat constructor; lia|done].
  - eexists _, ∅. split; [vm_compute; reflexivity|]. split; [reflexivity|]. split; [done|]. split; [repeat constructor; lia|done].
Qed.



(** A state in which unit 0 has forked, and steps of unit 1. *)
Definition forked_engine : KVEngine := from_option snd KVEngine_new (engine_runs KVEngine_new [OpNewUnit 0; OpNewUnit 1; OpFork 0]).

Definition forked_view : engine_view :=
  mkEngineView ∅ (<[0%nat := mkView false (Some ∅) (Some ∅) None []]> (<[1%nat := mkView false None None None []]> ∅)).

Lemma forked_engine_ok : shows forked_engine forked_view.
Proof.
  destruct (engine_steps KVEngine_new (mkEngineView ∅ ∅) [OpNewUnit 0; OpNewUnit 1; OpFork 0] KVEngine_new_ok) as (rs & e' & v' & Hrun & Hv' & _ & Hs').
  - allow; allow_step.
  - unfold forked_engine. rewrite Hrun. vm_compute in Hrun. injection Hrun as <- <-. vm_compute in Hv'. injection Hv' as <-. exact Hs'.
Qed.

Definition others_steps : list engine_op := [OpFork 1; OpWrite 1 (OpInsert [1; 2] [5]); OpMerge 1; OpPublish 1].

Lemma others_steps_allowed : ops_allowed forked_engine forked_view others_steps.
Proof.
  unfold others_steps. allow; allow_step.
  eexists _, ∅. split; [vm_compute; reflexivity|]. split; [reflexivity|]. split; [done|]. split; [repeat constructor; lia|done].
Qed.


(** [C14] A commit publishes the three-way merge: when no branch below the root was changed
    both by the unit and by what was published since it forked, the commit succeeds, the
    callbacks run in the order of their registration, each key then reads from the unit if
    the unit changed it and else from the previous master, and the unit is as new. *)
Theorem commit_publishes_merge e v i u uv b wc mb m :
  shows e v -> units e !! i = Some u -> v_units v !! i = Some uv -> v_dirty uv = true ->
  _mergeBase u = Some b -> _workingCopy u = Some wc -> v_base uv = Some mb -> v_work uv = Some m ->
  apart (engine_nodes e) wc (ptr_root b) (ptr_root (_master e)) -> fits_int m -> fits_int (three_way m mb (v_master v)) ->
  exists e', commitUnitOfWork e i = Some (Committed (Commit <$> v_changes uv), e') /\
    (forall k, master_value e' k = Some ((fun w => (k, w)) <$> if decide (m !! k = mb !! k) then v_master v !! k else m !! k)) /\
    units e' !! i = Some (mkUnit false None None [] None).
Proof.
  intros Hs Hu Hv Hd Eb Ew Ebase Ework Hap Hf Hf'. destruct (commit_ok e v i u uv b wc mb m Hs Hu Hv Hd Eb Ew Ebase Ework Hap Hf Hf') as (e' & Hrun & Hs').
  exists e'. split; [done|]. split.
  - intros k. rewrite <- three_way_lookup. exact (master_value_ok e' _ k Hs').
  - destruct (shows_view _ _ i _ Hs' (lookup_insert_eq _ _ _)) as ([d mb' w ch mm] & Hu' & [Hd' Hb' Hw' _ Hm' Hc']). rewrite Hu'.
    simpl in *. destruct mb', w, mm; try done. by subst.
Qed.

(** Unit 0 has written [7] while unit 1 has published [1 2]. *)
Definition busy_steps : list engine_op := OpWrite 0 (OpInsert [7] [8]) :: OpRegister 0 4 :: others_steps.

Definition busy_engine : KVEngine := from_option snd KVEngine_new (engine_runs forked_engine busy_steps).

Definition busy_unit : unit_view := mkView true (Some ∅) (Some {[ [7] := [8] ]}) None [4%nat].

Definition busy_view : engine_view :=
  mkEngineView {[ [1; 2] := [5] ]} (<[0%nat := busy_unit]> (<[1%nat := mkView false None None None []]> ∅)).

Lemma busy_engine_ok : shows busy_engine busy_view.
Proof.
  destruct (engine_steps forked_engine forked_view busy_steps forked_engine_ok) as (rs & e' & v' & Hrun & Hv' & _ & Hs').
  - unfold busy_steps, others_steps. allow; allow_step; eexists _, ∅; (split; [vm_compute; reflexivity|]); (split; [reflexivity|]); (split; [done|]);
      (split; [repeat constructor; lia|done]).
  - unfold busy_engine. rewrite Hrun. vm_compute in Hrun. injection Hrun as <- <-. vm_compute in Hv'. injection Hv' as <-. exact Hs'.
Qed.

Definition busy_state : RecoveryUnit := default (mkUnit false None None [] None) (units busy_engine !! 0%nat).

Lemma commit_publishes_merge_witness :
  exists e', commitUnitOfWork busy_engine 0 = Some (Committed [Commit 4], e') /\ master_value e' [7] = Some (Some ([7], [8])) /\
    master_value e' [1; 2] = Some (Some ([1; 2], [5])).
Proof.
  destruct (commit_publishes_merge busy_engine busy_view 0 busy_state busy_unit (default (mkPtr 0 1%positive) (_mergeBase busy_state))
              (default 1%positive (_workingCopy busy_state)) ∅ {[ [7] := [8] ]} busy_engine_ok) as (e' & Hrun & Hval & _);
    [vm_compute; reflexivity..|apply apartb_ok; vm_compute; reflexivity|split; vm_compute; reflexivity|split; vm_compute; reflexivity|].
  exists e'. split; [exact Hrun|]. rewrite !Hval. vm_compute. split; reflexivity.
Defined.
