(* ===== verification/RecordSpec.v ===== *)
(** * The record store is a map from numbers to records

    Sequences of record operations of one recovery unit against a map from record numbers to
    their data, with the counter of the store; scans and restored cursors; and what the code
    does outside of the conditions of these theorems. *)

From Stdlib Require Import ZArith Lia.
From stdpp Require Import prelude gmap sorting.
From S2P Require Import Prelude RadixNode RadixStore RadixIterator RadixMerge RadixInv RadixLookup RadixOrder.
From S2P Require Import RadixModify RadixErase RadixIteration RadixWalk RadixBounds RadixReverse RadixMerging.
From S2P Require Import RadixSpec RecordKey BiggieEngine BiggieEngineOk BiggieRecords RecordRange BiggieRecordsOk.
From S2P Require Import BiggieCursor BiggieSpec.

Open Scope Z_scope.

(** ** Operations *)

Inductive record_op :=
  | RecInsert (data : list Z)
  | RecUpdate (id : Z) (data : list Z)
  | RecDelete (id : Z)
  | RecTruncate.

(** The number of the inserted record, or [0]. *)
Definition run_record (rs : RecordStore) (e : KVEngine) (i : nat) (op : record_op) : option (Z * RecordStore * KVEngine) :=
  match op with
  | RecInsert data => insertRecord rs e i data
  | RecUpdate id data => e ← updateRecord rs e i id data; Some (0, rs, e)
  | RecDelete id => e ← deleteRecord rs e i id; Some (0, rs, e)
  | RecTruncate => e ← truncate rs e i; Some (0, rs, e)
  end.

Fixpoint run_records (rs : RecordStore) (e : KVEngine) (i : nat) (ops : list record_op) : option (list Z * RecordStore * KVEngine) :=
  match ops with
  | [] => Some ([], rs, e)
  | op :: ops => '(id, rs, e) ← run_record rs e i op; '(ids, rs, e) ← run_records rs e i ops; Some (id :: ids, rs, e)
  end.

(** The same on a map, with the next number. *)
Abbreviation record_map := (gmap Z (list Z)) (only parsing).

Definition record_step (next : Z) (R : record_map) (op : record_op) : Z * Z * record_map :=
  match op with
  | RecInsert data => (next, next + 1, <[next := data]> R)
  | RecUpdate id data => (0, next, <[id := data]> R)
  | RecDelete id => (0, next, delete id R)
  | RecTruncate => (0, next, ∅)
  end.

Fixpoint record_steps (next : Z) (R : record_map) (ops : list record_op) : list Z * Z * record_map :=
  match ops with
  | [] => ([], next, R)
  | op :: ops =>
      let '(id, next, R) := record_step next R op in
      let '(ids, next, R) := record_steps next R ops in
      (id :: ids, next, R)
  end.

(** The numbers stay small; only stored records are updated and deleted; an empty record is
    not updated. *)
Definition record_ok (next : Z) (R : record_map) (op : record_op) : Prop :=
  match op with
  | RecInsert data => small data /\ next + 1 < 2 ^ 55
  | RecUpdate id data => small data /\ exists w, R !! id = Some w /\ w <> []
  | RecDelete id => is_Some (R !! id)
  | RecTruncate => True
  end.

Fixpoint record_ops_ok (next : Z) (R : record_map) (ops : list record_op) : Prop :=
  match ops with
  | [] => True
  | op :: ops => record_ok next R op /\ let '(_, next, R) := record_step next R op in record_ops_ok next R ops
  end.

(** The map [m] of the engine holds the records [R] of the store [ident], with numbers below
    [next], and [mo] of the others. *)
Record holds_records (ident : list Z) (m : contents) (next : Z) (R : record_map) (mo : contents) : Prop := {
  hr_next : 0 < next < 2 ^ 55;
  hr_keys : record_keys m;
  hr_small : values_small m;
  hr_below : forall id w, R !! id = Some w -> 0 < id < next;
  hr_own : forall id, id_ok id -> m !! createKey ident id = R !! id;
  hr_others : others_of ident m = mo;
}.

Record unit_holds (rs : RecordStore) (e : KVEngine) (i : nat) (R : record_map) (mo : contents) (v : engine_view) (uv : unit_view) : Prop := {
  uh_store : records_ok rs;
  uh_shows : shows e v;
  uh_unit : v_units v !! i = Some uv;
  uh_records : holds_records (_ident rs) (working v uv) (_highest_record_id rs) R mo;
}.

(** ** Each operation on maps *)

Section maps.

Context {ident : list Z} {m : contents} {next : Z} {R : record_map} {mo : contents} (Hname : name_ok ident) (Hh : holds_records ident m next R mo).

Abbreviation key id := (createKey ident id) (only parsing).

Lemma stored_id id w : R !! id = Some w -> id_ok id /\ m !! key id = Some w /\ small w.
Proof.
  intros Hid. pose proof (hr_below _ _ _ _ _ Hh id w Hid). pose proof (hr_next _ _ _ _ _ Hh). assert (Hok : id_ok id) by (unfold id_ok; lia).
  assert (Hm : m !! key id = Some w) by (by rewrite (hr_own _ _ _ _ _ Hh)). split_and!; [done|done|]. by apply (hr_small _ _ _ _ _ Hh (key id)).
Qed.

Lemma own_key_ne id id' : id_ok id -> id_ok id' -> id <> id' -> key id <> key id'.
Proof. intros H1 H2 Hne E. apply Hne. by apply (createKey_inj ident); [apply id_ok_int64..|]. Qed.

Lemma others_insert id w : id_ok id -> others_of ident (<[key id := w]> m) = others_of ident m.
Proof.
  intros Hid. unfold others_of. apply map_eq. intros k. apply option_eq. intros w'. rewrite !map_lookup_filter_Some. simpl.
  destruct (decide (k = key id)) as [->|Hne]; [|by rewrite lookup_insert_ne]. pose proof (own_in_range ident id Hid). tauto.
Qed.

Lemma others_delete id : id_ok id -> others_of ident (delete (key id) m) = others_of ident m.
Proof.
  intros Hid. unfold others_of. apply map_eq. intros k. apply option_eq. intros w'. rewrite !map_lookup_filter_Some. simpl.
  destruct (decide (k = key id)) as [->|Hne]; [|by rewrite lookup_delete_ne]. pose proof (own_in_range ident id Hid). tauto.
Qed.

Lemma holds_insert id w next' :
  id_ok id -> small w -> next <= next' -> id < next' -> next' < 2 ^ 55 -> holds_records ident (<[key id := w]> m) next' (<[id := w]> R) mo.
Proof.
  intros Hid Hw Hn Hlt Hmax. destruct Hh as [Hnext Hkeys Hsmall Hbelow Hown Hothers]. split; [lia|..].
  - intros k [w' Hk]. destruct (decide (k = key id)) as [->|Hne]; [by exists ident, id|]. apply Hkeys. rewrite lookup_insert_ne in Hk by done. by eexists.
  - by apply map_Forall_insert_2.
  - intros id' w' [[-> _]|[_ Hid']]%lookup_insert_Some; [unfold id_ok in Hid; lia|]. apply Hbelow in Hid'. lia.
  - intros id' Hid'. destruct (decide (id' = id)) as [->|Hne]; [by rewrite !lookup_insert_eq|].
    rewrite !lookup_insert_ne; [by apply Hown|done|]. by apply own_key_ne.
  - by rewrite others_insert.
Qed.

Lemma holds_delete id : id_ok id -> holds_records ident (delete (key id) m) next (delete id R) mo.
Proof.
  intros Hid. destruct Hh as [Hnext Hkeys Hsmall Hbelow Hown Hothers]. split; [lia|..].
  - intros k [w Hk]. apply Hkeys. apply lookup_delete_Some in Hk as [_ Hk]. by eexists.
  - by apply map_Forall_delete.
  - intros id' w' [_ Hid']%lookup_delete_Some. by eapply Hbelow.
  - intros id' Hid'. destruct (decide (id' = id)) as [->|Hne]; [by rewrite !lookup_delete_eq|].
    rewrite !lookup_delete_ne; [by apply Hown|done|]. by apply own_key_ne.
  - by rewrite others_delete.
Qed.

Lemma holds_none : holds_records ident (others_of ident m) next ∅ mo.
Proof.
  destruct Hh as [Hnext Hkeys Hsmall Hbelow Hown Hothers]. split; [lia|..].
  - intros k [w [Hk _]%map_lookup_filter_Some]. apply Hkeys. by eexists.
  - intros k w [Hk _]%map_lookup_filter_Some. by apply (Hsmall k).
  - intros id w Hid. by rewrite lookup_empty in Hid.
  - intros id Hid. rewrite lookup_empty. apply map_lookup_filter_None. right. intros w _ Hn. apply Hn. by apply own_in_range.
  - rewrite <- Hothers. unfold others_of. apply map_eq. intros k. apply option_eq. intros w. rewrite !map_lookup_filter_Some. simpl. tauto.
Qed.

(** All entries in the range are records. *)
Lemma own_records k w : own ident m !! k = Some w <-> exists id, k = key id /\ R !! id = Some w.
Proof.
  unfold own. rewrite map_lookup_filter_Some. simpl. split.
  - intros [Hk Hr]. destruct (hr_keys _ _ _ _ _ Hh k) as (ident' & id & -> & Hn' & Hid); [by eexists|].
    assert (ident' = ident) as -> by by apply (in_range_own ident ident' id). exists id. split; [done|]. by rewrite <- (hr_own _ _ _ _ _ Hh).
  - intros (id & -> & Hid). destruct (stored_id id w Hid) as (Hok & Hm & _). split; [done|]. by apply own_in_range.
Qed.

Lemma own_size : size (own ident m) = size R.
Proof.
  assert (Hp : map_to_list (own ident m) ≡ₚ (fun '(id, w) => (key id, w)) <$> map_to_list R).
  { apply NoDup_Permutation; [apply NoDup_map_to_list| |].
    - apply NoDup_fmap_2_strong; [|apply NoDup_map_to_list]. intros [id w] [id' w'] [? _]%elem_of_map_to_list%stored_id [? _]%elem_of_map_to_list%stored_id E.
      apply pair_eq in E as [E ->]. f_equal. by apply (createKey_inj ident); [apply id_ok_int64..|].
    - intros [k w]. rewrite elem_of_map_to_list, own_records, list_elem_of_fmap. split.
      + intros (id & -> & Hid). exists (id, w). split; [done|]. by apply elem_of_map_to_list.
      + intros ([id w'] & [-> ->]%pair_eq & Hid%elem_of_map_to_list). by exists id. }
  by rewrite <- !length_map_to_list, Hp, length_fmap.
Qed.

End maps.

(** ** Each operation on the engine *)

Section steps.

Context {rs : RecordStore} {e : KVEngine} {i : nat} {R : record_map} {mo : contents} {v : engine_view} {uv : unit_view}.
Context (Hu : unit_holds rs e i R mo v uv).

Lemma working_written m : working (set_view v i (written v uv m)) (written v uv m) = m.
Proof. done. Qed.

Lemma working_forked : working (set_view v i (forked v uv)) (forked v uv) = working v uv.
Proof. unfold working at 1. by rewrite forked_work. Qed.

Lemma same_store rs' m R' e' :
  _ident rs' = _ident rs -> records_ok rs' -> shows e' (set_view v i (written v uv m)) ->
  holds_records (_ident rs) m (_highest_record_id rs') R' mo ->
  unit_holds rs' e' i R' mo (set_view v i (written v uv m)) (written v uv m).
Proof. intros Hid Hrs' Hs' Hh'. split; [done|done|apply set_view_unit|]. by rewrite working_written, Hid. Qed.

Lemma run_record_ok op :
  record_ok (_highest_record_id rs) R op ->
  exists rs' e' v' uv', run_record rs e i op = Some ((record_step (_highest_record_id rs) R op).1.1, rs', e') /\
    _highest_record_id rs' = (record_step (_highest_record_id rs) R op).1.2 /\ _ident rs' = _ident rs /\ _master e' = _master e /\
    unit_holds rs' e' i (record_step (_highest_record_id rs) R op).2 mo v' uv'.
Proof.
  destruct Hu as [Hrs Hs Hv Hh]. pose proof (hr_next _ _ _ _ _ Hh) as Hnext. destruct op as [data|id data|id|]; simpl; intros Hok.
  - destruct Hok as [Hsmall Hmax]. set (id := _highest_record_id rs) in *. assert (Hid : id_ok id) by (unfold id_ok; lia).
    destruct (insertRecord_ok Hs Hv Hrs data Hsmall (id_ok_int64 _ Hid)) as (e' & Hrun & Hmaster & Hs'). fold id in Hrun, Hs'.
    assert (Hnone : working v uv !! createKey (_ident rs) id = None).
    { rewrite (hr_own _ _ _ _ _ Hh) by done. apply eq_None_not_Some. intros [w Hw]. pose proof (hr_below _ _ _ _ _ Hh id w Hw). lia. }
    rewrite bool_decide_eq_true_2 in Hs' by done. eexists _, e', _, _. split; [exact Hrun|]. cbn [nextRecordId snd _highest_record_id _ident].
    fold id. assert (E : (id + 1 + 2 ^ 63) mod 2 ^ 64 - 2 ^ 63 = id + 1) by (rewrite Z.mod_small; lia). split_and!; [done..|].
    apply same_store; [done|by split; apply Hrs|exact Hs'|]. simpl. fold id. rewrite E. apply (holds_insert (ro_name _ Hrs) Hh); (done || lia).
  - destruct Hok as (Hsmall & w & Hw & Hne). destruct (stored_id Hh id w Hw) as (Hid & Hm & Hsw).
    destruct (updateRecord_ok Hs Hv (rs := rs) id data w Hm Hsmall Hne Hsw) as (e' & Hrun & Hmaster & Hs'). rewrite Hrun. cbn [mbind option_bind].
    eexists rs, e', _, _. split_and!; [done..|]. apply same_store; [done|done|exact Hs'|]. pose proof (hr_below _ _ _ _ _ Hh id w Hw).
    apply (holds_insert (ro_name _ Hrs) Hh); (done || lia).
  - destruct Hok as [w Hw]. destruct (stored_id Hh id w Hw) as (Hid & Hm & Hsw).
    destruct (deleteRecord_ok Hs Hv (rs := rs) id w Hm Hsw) as (e' & Hrun & Hmaster & Hs'). rewrite Hrun. cbn [mbind option_bind].
    eexists rs, e', _, _. split_and!; [done..|]. apply same_store; [done|done|exact Hs'|]. by apply (holds_delete Hh).
  - destruct (truncate_ok Hs Hv Hrs (hr_keys _ _ _ _ _ Hh) (hr_small _ _ _ _ _ Hh)) as (e' & Hrun & Hmaster & Hs'). rewrite Hrun. cbn [mbind option_bind].
    case_bool_decide as Hempty.
    + eexists rs, e', _, (forked v uv). split_and!; [done..|]. split; [done|exact Hs'|apply set_view_unit|]. rewrite working_forked.
      assert (R = ∅) as <-; [|done]. apply map_size_empty_iff. rewrite <- (own_size (ro_name _ Hrs) Hh), Hempty. done.
    + eexists rs, e', _, _. split_and!; [done..|]. apply same_store; [done|done|exact Hs'|]. exact (holds_none Hh).
Qed.

End steps.

Lemma run_records_ok rs e i R mo v uv ops :
  unit_holds rs e i R mo v uv -> record_ops_ok (_highest_record_id rs) R ops ->
  exists rs' e' v' uv', run_records rs e i ops = Some ((record_steps (_highest_record_id rs) R ops).1.1, rs', e') /\
    _highest_record_id rs' = (record_steps (_highest_record_id rs) R ops).1.2 /\ _ident rs' = _ident rs /\ _master e' = _master e /\
    unit_holds rs' e' i (record_steps (_highest_record_id rs) R ops).2 mo v' uv'.
Proof.
  revert rs e R v uv. induction ops as [|op ops IH]; intros rs e R v uv Hu Hok; [eauto 10|]. destruct Hok as [Hop Hok]. cbn [run_records record_steps].
  destruct (run_record_ok Hu op Hop) as (rs1 & e1 & v1 & uv1 & -> & Hnext & Hid & Hmaster & Hu1). cbn [mbind option_bind].
  destruct (record_step (_highest_record_id rs) R op) as [[id next] R1]. simpl in *. subst next.
  destruct (IH rs1 e1 R1 v1 uv1 Hu1 Hok) as (rs2 & e2 & v2 & uv2 & -> & Hnext2 & Hid2 & Hmaster2 & Hu2). cbn [mbind option_bind].
  destruct (record_steps (_highest_record_id rs1) R1 ops) as [[ids next] R2]. simpl in *. exists rs2, e2, v2, uv2. split_and!; [done|done|congruence..|done].
Qed.

(** ** Cursors *)

Section cursors.

Context {rs : RecordStore} (Hrs : records_ok rs) {s : RadixStore} {m : contents} (Hrep : represents True s m).
Context {R : record_map} {mo : contents} {next : Z} (Hh : holds_records (_ident rs) m next R mo).

(** [n] calls of [next] that all find a record. *)
Fixpoint take_records (n : nat) (c : Cursor) : option (list (Z * list Z) * Cursor) :=
  match n with
  | O => Some ([], c)
  | S n => '(out, c) ← Cursor_next rs s c; r ← out; '(l, c) ← take_records n c; Some (r :: l, c)
  end.

Lemma take_records_ok n c P l id w c' :
  @seeks rs s m c P -> (forall k, P k -> at_least (_prefix rs) k) -> take_records n c = Some (l ++ [(id, w)], c') ->
  id_ok id /\ _savedPosition c' = Some (createKey (_ident rs) id) /\ _needFirstSeek c' = false.
Proof.
  revert c P l. induction n as [|n IH]; intros c P l Hseek Hlow Htake; simpl in Htake.
  { injection Htake as E _. by destruct l. }
  destruct (Cursor_next_ok Hrs Hrep (hr_keys _ _ _ _ _ Hh) c P Hseek Hlow) as (out & c1 & Hn & Hout & Hfirst & Hsaved). rewrite Hn in Htake.
  cbn [mbind option_bind] in Htake. destruct out as [[id1 w1]|]; [|done]. cbn [mbind option_bind] in Htake. simpl in Hout.
  destruct (take_records n c1) as [[l1 c2]|] eqn:E1; [|done]. cbn [mbind option_bind] in Htake. destruct (Hsaved id1 w1 eq_refl) as [Hsv Hseek1].
  destruct l as [|r l]; simpl in Htake.
  - injection Htake as -> -> -> ->. destruct n as [|n]; simpl in E1; [by simplify_eq; destruct Hout|]. exfalso.
    destruct (Cursor_next rs s c1) as [[[r|] c3]|]; simpl in E1; [|done..]. by destruct (take_records n c3) as [[? ?]|]; simplify_eq.
  - injection Htake as _ -> ->. apply (IH c1 _ l Hseek1); [|done]. intros k Hk. eapply at_least_upward; [by apply (own_above Hrs id1), Hout|done].
Qed.

(** What a scan returns, in terms of the records. *)
Lemma scanned_records before P l :
  @scanned rs m before P l ->
  StronglySorted (fun a b => before a.1 b.1) l /\ forall id w, (id, w) ∈ l <-> R !! id = Some w /\ P (createKey (_ident rs) id).
Proof.
  intros [Hsort Hl]. split; [done|]. intros id w. rewrite Hl. split.
  - intros (Hid & Hm & HP). split; [|done]. by rewrite <- (hr_own _ _ _ _ _ Hh).
  - intros [Hid HP]. by destruct (stored_id Hh id w Hid) as (? & ? & _).
Qed.

Lemma remaining_fits P `{forall k, Decision (P k)} : (size (@remaining rs m P _) < S (size R))%nat.
Proof.
  rewrite <- (own_size (ro_name _ Hrs) Hh). apply Nat.lt_succ_r. unfold remaining. apply map_subseteq_size, map_filter_subseteq.
Qed.

End cursors.

Arguments take_records : clear implicits.

(** The same on the engine: every call fetches the branch of the unit. *)
Abbreviation cursor_step := (KVEngine -> Cursor -> option (option (Z * list Z) * Cursor * KVEngine)) (only parsing).

Fixpoint scan_engine (next : cursor_step) (fuel : nat) (e : KVEngine) (c : Cursor) : option (list (Z * list Z) * KVEngine) :=
  match fuel with
  | O => None
  | S fuel =>
      '(out, c, e) ← next e c;
      match out with
      | None => Some ([], e)
      | Some r => '(l, e) ← scan_engine next fuel e c; Some (r :: l, e)
      end
  end.

Fixpoint take_engine (next : cursor_step) (n : nat) (e : KVEngine) (c : Cursor) : option (list (Z * list Z) * Cursor * KVEngine) :=
  match n with
  | O => Some ([], c, e)
  | S n => '(out, c, e) ← next e c; r ← out; '(l, c, e) ← take_engine next n e c; Some (r :: l, c, e)
  end.

Lemma branch_again e i s e1 : getRecoveryUnitBranch_forking e i = Some (s, e1) -> getRecoveryUnitBranch_forking e1 i = Some (s, e1).
Proof.
  unfold getRecoveryUnitBranch_forking. destruct (forkIfNeeded e i) as [[b e2]|] eqn:Ef; [|done]. cbn [mbind option_bind].
  destruct (working_store e2 i) as [s2|] eqn:Es; [|done]. cbn [mbind option_bind]. intros [= -> ->].
  assert (Hagain : forkIfNeeded e1 i = Some (false, e1)); [|rewrite Hagain; cbn [mbind option_bind]; by rewrite Es].
  unfold forkIfNeeded in *. destruct (units e !! i) as [u|] eqn:Eu; [|done]. cbn [mbind option_bind] in Ef.
  destruct (_mergeBase u) as [mb|] eqn:Eb, (_workingCopy u) as [wc|] eqn:Ew; simplify_eq.
  - rewrite Eu. cbn [mbind option_bind]. by rewrite Eb, Ew.
  - simpl. rewrite lookup_insert_eq. done.
Qed.

Lemma on_branch_run {A} e i s e1 (f : RadixStore -> option A) :
  getRecoveryUnitBranch_forking e i = Some (s, e1) -> on_branch e i f = a ← f s; Some (a, e1).
Proof. intros Hb. unfold on_branch. by rewrite Hb. Qed.

Lemma scan_engine_ok (next : RadixStore -> Cursor -> option (option (Z * list Z) * Cursor)) fuel e i s e1 c l :
  getRecoveryUnitBranch_forking e i = Some (s, e1) -> scan (next s) fuel c = Some l ->
  scan_engine (fun e c => on_branch e i (fun s => next s c)) fuel e c = Some (l, e1).
Proof.
  revert e c l. induction fuel as [|fuel IH]; intros e c l Hb Hrun; simpl in *; [done|]. rewrite (on_branch_run e i s e1 _ Hb).
  destruct (next s c) as [[out c']|]; [|done]. cbn [mbind option_bind] in *. destruct out as [r|]; [|congruence].
  destruct (scan (next s) fuel c') as [l'|] eqn:El; [|done]. rewrite (IH e1 c' l' (branch_again _ _ _ _ Hb) El). cbn [mbind option_bind] in *. congruence.
Qed.

Lemma take_engine_ok rs n e i s e1 c l c' e' :
  getRecoveryUnitBranch_forking e i = Some (s, e1) -> take_engine (fun e c => cursor_next rs e i c) n e c = Some (l, c', e') ->
  take_records rs s n c = Some (l, c').
Proof.
  revert e c l. induction n as [|n IH]; intros e c l Hb Hrun; simpl in *; [congruence|]. change (cursor_next rs e i c) with (on_branch e i (fun s => Cursor_next rs s c)) in Hrun.
  rewrite (on_branch_run e i s e1 _ Hb) in Hrun. destruct (Cursor_next rs s c) as [[[r|] c2]|]; [|done..]. cbn [mbind option_bind] in *.
  destruct (take_engine _ n e1 c2) as [[[l2 c3] e3]|] eqn:E; [|done]. cbn [mbind option_bind] in Hrun.
  rewrite (IH e1 c2 l2 (branch_again _ _ _ _ Hb)); [|congruence]. cbn [mbind option_bind]. congruence.
Qed.

(** ** The properties *)

(** [C32] The key of a record: the number is read back from it, the keys of a store are in the
    order of the numbers, and the keys of two stores do not interleave. *)
Theorem record_key_codec ident a b :
  int64 a -> int64 b ->
  extractRecordId (createKey ident a) = Some a /\ (createKey ident a ≺ createKey ident b <-> a < b) /\
  forall ident' c, int64 c -> Forall byte ident -> Forall byte ident' -> ident <> ident' ->
    (createKey ident' c ≺ createKey ident a <-> createKey ident' c ≺ createKey ident b).
Proof.
  intros Ha Hb. split_and!; [by apply extract_create|by apply createKey_lt|]. intros ident' c Hc Hi Hi' Hne.
  destruct (createKey_other ident ident' Hi Hi' Hne) as [Hlt|Hlt].
  - split; intros H; destruct (string_lt_asym _ _ H); by apply Hlt.
  - split; intros _; by apply Hlt.
Qed.

Lemma record_key_codec_witness : extractRecordId (createKey [97] (-300)) = Some (-300) /\ (createKey [97] (-300) ≺ createKey [97] 7 <-> -300 < 7).
Proof.
  destruct (record_key_codec [97] (-300) 7) as (H1 & H2 & _); [unfold int64, int64_min, int64_max; lia..|]. split; [exact H1|exact H2].
Defined.


(** A new store in a new engine. *)
Definition fresh_engine : KVEngine := newRecoveryUnit KVEngine_new 0.

Definition fresh_unit : unit_view := mkView false None None None [].

Lemma fresh_holds : unit_holds (RecordStore_new [97]) fresh_engine 0 ∅ ∅ (mkEngineView ∅ {[0%nat := fresh_unit]}) fresh_unit.
Proof.
  split.
  - split; [|done..]. split_and!; [repeat constructor; simpl; lia|by apply (bool_decide_unpack _)..].
  - exact (newRecoveryUnit_ok _ _ 0 KVEngine_new_ok).
  - done.
  - split; simpl; try done.
    + intros k [w Hk]. unfold working in Hk. simpl in Hk. by rewrite lookup_empty in Hk.
Qed.

Definition sample_records : list record_op := [RecInsert [5]; RecInsert [6; 6]; RecUpdate 1 [7]; RecInsert [8]; RecDelete 2].

Lemma sample_records_ok : record_ops_ok 1 ∅ sample_records.
Proof.
  unfold sample_records. repeat split; try (simpl; lia).
  - exists [5]. split; [vm_compute; reflexivity|done].
  - vm_compute. by eexists.
Qed.


(** [C15] A scan with a new cursor returns every record of the store once, by increasing
    numbers, and with a reverse cursor by decreasing numbers, and nothing of other stores. *)
Theorem record_scan_exact rs e i R mo v uv :
  unit_holds rs e i R mo v uv ->
  exists l l' e', scan_engine (fun e c => cursor_next rs e i c) (S (size R)) e Cursor_new = Some (l, e') /\
    StronglySorted (fun a b => a.1 < b.1) l /\ (forall id w, (id, w) ∈ l <-> R !! id = Some w) /\
    scan_engine (fun e c => reverse_cursor_next rs e i c) (S (size R)) e Cursor_new = Some (l', e') /\
    StronglySorted (fun a b => a.1 > b.1) l' /\ (forall id w, (id, w) ∈ l' <-> R !! id = Some w).
Proof.
  intros [Hrs Hs Hv Hh]. destruct (branch_ok Hs Hv) as (s & e' & Hb & _ & _ & Hrep). pose proof (hr_keys _ _ _ _ _ Hh) as Hkeys.
  destruct (scan_ok Hrs Hrep Hkeys (S (size R)) Cursor_new (at_least (_prefix rs))) as (l & Hrun & Hl);
    [intros k k' Hk Hlt; by eapply at_least_upward|by apply seeks_first|done|exact (remaining_fits Hrs Hh _)|].
  destruct (scan_back_ok Hrs Hrep Hkeys (S (size R)) Cursor_new (fun k => ~ _postfix rs ≺ k)) as (l' & Hrun' & Hl');
    [intros k k' Hk Hlt Hk'; apply Hk; by eapply string_lt_trans|by apply back_first|done|exact (remaining_fits Hrs Hh _)|].
  destruct (scanned_records Hh _ _ _ Hl) as [Hsort Hin]. destruct (scanned_records Hh _ _ _ Hl') as [Hsort' Hin'].
  exists l, l', e'. split_and!; [by eapply (scan_engine_ok (Cursor_next rs))|done| |by eapply (scan_engine_ok (ReverseCursor_next rs))|done|].
  - intros id w. rewrite Hin. split; [by intros []|]. intros Hid. split; [done|]. destruct (stored_id Hh id w Hid) as (Hok & _). by apply (own_above Hrs).
  - intros id w. rewrite Hin'. split; [by intros []|]. intros Hid. split; [done|]. destruct (stored_id Hh id w Hid) as (Hok & _).
    rewrite (ro_postfix _ Hrs). apply string_lt_asym. by apply own_in_range.
Qed.

(** The state after the sample operations. *)
Definition sample_run : RecordStore * KVEngine :=
  from_option (fun '(_, rs, e) => (rs, e)) (RecordStore_new [97], fresh_engine) (run_records (RecordStore_new [97]) fresh_engine 0 sample_records).

Definition sample_left : record_map := (record_steps 1 ∅ sample_records).2.

Lemma sample_run_ok : exists v uv, unit_holds sample_run.1 sample_run.2 0 sample_left ∅ v uv /\ unwrapped (working v uv) (createKey [97] 1) /\ _ident sample_run.1 = [97].
Proof.
  destruct (run_records_ok _ _ _ _ _ _ _ sample_records fresh_holds sample_records_ok) as (rs & e & v & uv & Hrun & _ & Hid & _ & Hu).
  exists v, uv. split; [|split].
  - unfold sample_run. rewrite Hrun. exact Hu.
  - apply unwrapped_without_255. apply (bool_decide_unpack _). vm_compute. exact I.
  - unfold sample_run. rewrite Hrun. exact Hid.
Qed.

Lemma record_scan_exact_witness :
  exists l e', scan_engine (fun e c => cursor_next sample_run.1 e 0 c) 3 sample_run.2 Cursor_new = Some (l, e') /\
    StronglySorted (fun a b => a.1 < b.1) l /\ (3, [8]) ∈ l.
Proof.
  destruct sample_run_ok as (v & uv & Hu & _). destruct (record_scan_exact _ _ _ _ _ _ _ Hu) as (l & _ & e' & Hrun & Hsort & Hl & _).
  exists l, e'. split; [exact Hrun|]. split; [exact Hsort|]. apply Hl. vm_compute. reflexivity.
Defined.

(** [C16] A cursor that is restored goes on where it was: when it has returned the records of
    [l] and last the number [id], and is restored after anything has happened to the store,
    the rest of the scan returns exactly the records with greater numbers that there are now;
    provided that the bound that [restore] computes does not wrap. *)
Theorem record_cursor_resumes rs e i R mo v uv n l id w c e1 rs' e' R' mo' v' uv' :
  unit_holds rs e i R mo v uv -> take_engine (fun e c => cursor_next rs e i c) n e Cursor_new = Some (l ++ [(id, w)], c, e1) ->
  unit_holds rs' e' i R' mo' v' uv' -> _ident rs' = _ident rs -> unwrapped (working v' uv') (createKey (_ident rs) id) ->
  exists c' e2 l' e3, cursor_restore e' i c = Some (c', e2) /\ scan_engine (fun e c => cursor_next rs e i c) (S (size R')) e2 c' = Some (l', e3) /\
    StronglySorted (fun a b => a.1 < b.1) l' /\ forall id' w', (id', w') ∈ l' <-> R' !! id' = Some w' /\ id < id'.
Proof.
  intros [Hrs Hs Hv Hh] Htake [_ Hs' Hv' Hh'] Hid' Hun. rewrite Hid' in Hh'. destruct (branch_ok Hs Hv) as (s & e4 & Hb & _ & _ & Hrep).
  destruct (branch_ok Hs' Hv') as (s' & e2 & Hb' & _ & _ & Hrep').
  destruct (take_records_ok Hrs Hrep Hh n Cursor_new (at_least (_prefix rs)) l id w c) as (Hid & Hsaved & Hfirst);
    [by apply seeks_first|done|by eapply take_engine_ok|].
  destruct (Cursor_restore_ok (rs := rs) Hrep' c _ Hsaved Hfirst Hun) as (c' & Hrestore & Hseek & _).
  destruct (scan_ok Hrs Hrep' (hr_keys _ _ _ _ _ Hh') (S (size R')) c' (fun k => createKey (_ident rs) id ≺ k)) as (l' & Hrun & Hl);
    [intros k k'; apply string_lt_trans|done|intros k Hk; eapply at_least_upward; [by apply (own_above Hrs id)|done]|exact (remaining_fits Hrs Hh' _)|].
  destruct (scanned_records Hh' _ _ _ Hl) as [Hsort Hin]. exists c', e2, l', e2. split_and!; [|by eapply (scan_engine_ok (Cursor_next rs)), Hrun; eapply branch_again|done|].
  - unfold cursor_restore. rewrite (on_branch_run e' i s' e2 _ Hb'). by rewrite Hrestore.
  - intros id' w'. rewrite Hin. split; (intros [Hr Hlt]; split; [done|]); (destruct (stored_id Hh' id' w' Hr) as (Hok & _));
      by (apply createKey_lt in Hlt || apply createKey_lt); try apply id_ok_int64.
Qed.

Lemma record_cursor_resumes_witness :
  exists c e1 c' e2 l' e3, take_engine (fun e c => cursor_next sample_run.1 e 0 c) 1 sample_run.2 Cursor_new = Some ([(1, [7])], c, e1) /\
    cursor_restore sample_run.2 0 c = Some (c', e2) /\ scan_engine (fun e c => cursor_next sample_run.1 e 0 c) 3 e2 c' = Some (l', e3) /\ (3, [8]) ∈ l'.
Proof.
  destruct sample_run_ok as (v & uv & Hu & Hun & Hid).
  destruct (take_engine (fun e c => cursor_next sample_run.1 e 0 c) 1 sample_run.2 Cursor_new) as [[[l c] e1]|] eqn:E.
  2:{ exfalso. vm_compute in E. discriminate E. }
  assert (l = [(1, [7])]) as -> by (vm_compute in E; injection E as <- _ _; reflexivity).
  rewrite <- Hid in Hun.
  destruct (record_cursor_resumes _ _ _ _ _ _ _ 1 [] 1 [7] c e1 _ _ _ _ _ _ Hu E Hu eq_refl Hun) as (c' & e2 & l' & e3 & Hrestore & Hrun & _ & Hl).
  exists c, e1, c', e2, l', e3. split; [reflexivity|]. split; [exact Hrestore|]. split; [exact Hrun|]. apply Hl. split; [vm_compute; reflexivity|lia].
Defined.

(** ** Outside of the conditions *)

Definition master_record (e : KVEngine) (id : Z) : option (option (list Z)) :=
  match master_value e (createKey [97] id) with
  | Some d => Some (snd <$> d)
  | None => None
  end.

(** Two units and a base with the record 1: one unit inserts another record while the other
    one updates record 1 and commits; then the first commits.  The answers of the commits,
    and record 1 of the master in between and at the end. *)
Definition update_under_insert : option (commit_result * option (list Z) * commit_result * option (list Z)) :=
  '(_, rs, e) ← insertRecord (RecordStore_new [97]) (newRecoveryUnit (newRecoveryUnit KVEngine_new 0) 1) 0 [5];
  '(_, e) ← commitUnitOfWork e 0;
  '(_, rs, e) ← insertRecord rs e 0 [7];
  e ← updateRecord rs e 1 1 [6; 6];
  '(r1, e) ← commitUnitOfWork e 1;
  before ← master_record e 1;
  '(r0, e) ← commitUnitOfWork e 0;
  after ← master_record e 1;
  Some (r1, before, r0, after).


(** Two units that each insert a record into a branch with two records. *)
Definition both_insert : option (option Z * Z) :=
  '(_, rs, e) ← insertRecord (RecordStore_new [97]) (newRecoveryUnit (newRecoveryUnit KVEngine_new 0) 1) 0 [5];
  '(_, rs, e) ← insertRecord rs e 0 [6];
  '(_, e) ← commitUnitOfWork e 0;
  '(_, rs, e) ← insertRecord rs e 0 [7];
  '(_, rs, e) ← insertRecord rs e 1 [8];
  '(_, e) ← commitUnitOfWork e 1;
  '(_, e) ← commitUnitOfWork e 0;
  '(n, e) ← numRecords rs e 0;
  s ← working_store e 0;
  Some (RadixStore_size s, n).

(** The deltas of a recursive merge are added to a node that has been replaced: the counter
    of the merged store says 3, but there are 4 records. *)
Lemma merged_size_drifts : both_insert = Some (Some 3, 4).
Proof. vm_compute. reflexivity. Qed.

(** A cursor stands at the record [0x7F81], the last one, and is saved; the record is deleted, and the
    cursor restored. *)
Definition restored_at_end : option (option (Z * list Z) * option (Z * list Z)) :=
  let rs := RecordStore_new [97] in
  '(_, s) ← run_ops RadixStore_new [OpInsert (createKey [97] 32512) [1]; OpInsert (createKey [97] 32640) [2]; OpInsert (createKey [97] 32641) [3]];
  '(found, c) ← Cursor_seekExact rs s Cursor_new 32641;
  '(_, s) ← RadixStore_erase s (createKey [97] 32641);
  c ← Cursor_restore s c;
  '(out, c) ← Cursor_next rs s c;
  Some (found, out).


(** A reverse cursor is restored after its record has been deleted, and then positioned with
    [seekExact]. *)
Definition reverse_seek_after_restore : option (option (Z * list Z) * option (Z * list Z)) :=
  let rs := RecordStore_new [97] in
  '(_, s) ← run_ops RadixStore_new [OpInsert (createKey [97] 1) [1]; OpInsert (createKey [97] 2) [2]; OpInsert (createKey [97] 3) [3]];
  '(_, c) ← ReverseCursor_seekExact rs s Cursor_new 3;
  '(_, s) ← RadixStore_erase s (createKey [97] 3);
  c ← ReverseCursor_restore s c;
  '(found, c) ← ReverseCursor_seekExact rs s c 2;
  '(out, c) ← ReverseCursor_next rs s c;
  Some (found, out).

(** The flag of the restore is still set: [next] returns the record of [seekExact] again. *)
Lemma reverse_seek_repeats : reverse_seek_after_restore = Some (Some (2, [2]), Some (2, [2])).
Proof. vm_compute. reflexivity. Qed.

(** [C39] An insertion under a number that is in use succeeds and stores nothing: the result of
    the store's [insert] is not looked at, so two [RecordStore] objects for the same
    collection, which both count from 1, lose records. *)
Theorem insertion_dropped rs e i v uv data w :
  records_ok rs -> shows e v -> v_units v !! i = Some uv -> small data -> id_ok (_highest_record_id rs) ->
  working v uv !! createKey (_ident rs) (_highest_record_id rs) = Some w ->
  exists rs' e', insertRecord rs e i data = Some (_highest_record_id rs, rs', e') /\
    exists e2, findRecord rs' e' i (_highest_record_id rs) = Some (Some w, e2).
Proof.
  intros Hrs Hs Hv Hsmall Hid Hw. destruct (insertRecord_ok Hs Hv Hrs data Hsmall (id_ok_int64 _ Hid)) as (e' & Hrun & _ & Hs').
  rewrite bool_decide_eq_false_2 in Hs' by (rewrite Hw; done). eexists _, e'. split; [exact Hrun|].
  destruct (findRecord_ok Hs' (set_view_unit _ _ _) (rs := (nextRecordId rs).2) (_highest_record_id rs)) as (e2 & Hf & _). exists e2.
  rewrite Hf. simpl. by rewrite working_written, Hw.
Qed.

(** Unit 0 has inserted a record; another store object starts to count. *)
Lemma insertion_dropped_witness :
  exists rs e rs' e' e2, run_records (RecordStore_new [97]) fresh_engine 0 [RecInsert [5]] = Some ([1], rs, e) /\
    insertRecord (RecordStore_new [97]) e 0 [9] = Some (1, rs', e') /\ findRecord rs' e' 0 1 = Some (Some [5], e2).
Proof.
  assert (Hok : record_ops_ok 1 ∅ [RecInsert [5]]) by (repeat split; simpl; lia).
  destruct (run_records_ok _ _ _ _ _ _ _ [RecInsert [5]] fresh_holds Hok) as (rs & e & v & uv & Hrun & _ & Hid & _ & [Hrs Hs Hv Hh]).
  destruct (insertion_dropped (RecordStore_new [97]) e 0 v uv [9] [5]) as (rs' & e' & Hins & e2 & Hfind);
    [apply fresh_holds|exact Hs|exact Hv|done|unfold id_ok; simpl; lia| |].
  - rewrite <- (f_equal (fun i => createKey i 1) Hid) at 1. exact (hr_own _ _ _ _ _ Hh 1 ltac:(unfold id_ok; lia)).
  - exists rs, e, rs', e', e2. split; [exact Hrun|]. split; [exact Hins|exact Hfind].
Defined.
